(* ===== verification/_CoqProject ===== *)
-Q . S2P
Prelude.v
NodeId.v
ConnId.v
Metric.v
Paths.v
Dest.v
Table.v
Route.v
Registry.v
Router.v
RouterNet.v
Shadow.v
History.v
HistoryConc.v
ShadowSim.v
Msg.v
Base.v
RouterSync.v
WorkerRoutes.v
RouterConverge.v
KeyOwner.v
Control.v
Neighbours.v
Hash.v
NodeAddr.v
Secure.v
DhtMsg.v
DhtServer.v
DhtClient.v
Dht.v
DhtNet.v
PubsubMsg.v
PubsubRelay.v
PubsubFeedback.v
PubsubHint.v
PubsubHintSpec.v
Pubsub.v
PubsubSim.v
PubsubNode.v
PubsubTree.v
Alias.v
AliasNet.v
Socket.v
DataFeature.v
Features.v
Service.v
DataPlane.v
DataPlaneNet.v
Vpn.v
Controller.v
NeighbourPins.v
ControllerNet.v
Worker.v
Discovery.v
DiscoveryNet.v
Visualization.v
Runner.v
Collector.v
SfuTask.v
Sfu.v
SfuNode.v
VNet.v
