(* ===== verification/Prelude.v ===== *)
(** * Verification of atm0s-sdn

    atm0s-sdn is an overlay network: nodes with 32-bit identifiers keep
    connections to some neighbours, exchange routing information over them and
    send messages to nodes, to keys (the node closest to a key) and to
    services. On top there are features (a replicated key-value store,
    publish/subscribe, aliases, virtual sockets) and services. A node is one
    controller and several data workers; the controller owns the state of the
    network, the workers move packets and follow the controller's commands.
    This library models the parts below from their Rust source (paths are
    under src/packages where nothing else is said) and proves what makes them
    correct.

    ** The program and its model

    Foundations:
    - Prelude (this file): machine integers, panics as values ([outcome]),
      arrays, hash-map iteration orders, stable sorting, automation.
    - NodeId, ConnId (core/identity): identifiers, the four layers of an
      identifier and their distances; connection ids, which Rust compares by
      direction and session only ([conn_key]).
    - NodeAddr (core/identity/src/node_addr.rs, generate_node_addr of
      runner/src/builder.rs): addresses of nodes, as bytes and as text.
    - Hash (core/utils/src/hash.rs): hashes of strings.

    Routing:
    - Metric, Paths, Dest, Table (core/router/src/core/table/, table.rs): the
      metric of a path, the sorted path list of one destination, one
      destination with its delta queue, the 256 destinations of one layer.
    - Route, Registry (core/router/src/lib.rs, core/registry.rs): routing
      rules, and the services a node can reach.
    - Router (core/router.rs): the four tables and the registry, syncs between
      neighbours, queries, and the queue of deltas. RouterNet: any number of
      routers that exchange syncs over links.
    - Shadow, History (core/router/src/shadow/, runner/src/history.rs): the
      router's copy in the data workers, fed by deltas, and the history that
      filters broadcasts. [ShadowRouterHistory] is the interface between them.
      HistoryConc: the threads that share the history, step by step.
      ShadowSim: router and shadow side by side.
    - RouterSync (network/src/features/router_sync.rs): the feature that owns
      the router: links connections, sends and applies syncs, translates
      deltas for the workers. WorkerRoutes: the feature and a worker together.
      RouterConverge: the features of a network of fixed links over
      asynchronous messages; KeyOwner: where messages for a key end there.

    Connections and packets:
    - Msg (network/src/base/msg.rs): the header of transport messages, bit by
      bit. Base (base/feature.rs, base/mod.rs): the messages between features,
      controller and workers.
    - Control (base/control.rs, base/secure.rs,
      secure/authorization/static_key.rs): signed control messages.
    - Neighbours (controller_plane/neighbours.rs, neighbours/connection.rs):
      the connection state machine and its manager. NeighbourPins: what the
      manager reports is new.
    - Secure (base/secure.rs, secure/encryption/x25519_dalek_aes.rs): the key
      exchange and the encryption of packets; [Encryption] is the interface
      the data plane uses, with the implementation as an instance.

    Features:
    - DhtMsg, DhtServer, DhtClient, Dht (features/dht_kv/): the key-value
      store: messages, the relay that owns a map, the clients that write and
      subscribe, the feature of one node. DhtNet: any number of nodes over an
      unreliable network.
    - PubsubMsg, PubsubRelay, PubsubHint, Pubsub (features/pubsub/): messages,
      the relays of a source with their consumers and feedback, the hints that
      spread the sources of a channel, the feature's controller and worker.
      PubsubFeedback, PubsubHintSpec, PubsubSim, PubsubNode: what relays and
      hints promise, and controller and worker together. PubsubTree: the
      relays of a source on many nodes, one worker each, and data on its way
      through them.
    - Alias (features/alias.rs), AliasNet: queries where an alias is, on one
      node and over a network.
    - Socket, DataFeature (features/socket.rs, data.rs, neighbours.rs, vpn.rs):
      the small features. Features (features/mod.rs, data_plane/features.rs):
      their sum and the manager of their workers.

    A node:
    - Service (base/service.rs, data_plane/services.rs): the interface of
      services ([ControllerService], [ServiceWorker]) and their manager.
    - DataPlane (data_plane.rs, data_plane/connection.rs), DataPlaneNet: the
      dispatch of packets in a worker, and packets between nodes. Vpn
      (features/vpn.rs): the worker with the vpn build feature.
    - Controller (controller_plane.rs, controller_plane/features.rs,
      controller_plane/services.rs), ControllerNet: the dispatch in the
      controller, and the controller with a worker.
    - Worker (worker.rs): a data plane with or without the controller.
    - Discovery, Visualization (services/): the two services that come with
      the program, instances of [ControllerService]. DiscoveryNet: nodes with
      the discovery service over the key-value store.
    - Runner (runner/src/worker_inner.rs, builder.rs, time.rs, lib.rs): a
      worker as the runtime drives it, the configuration of a node, and the
      bus between its workers.
    - Collector (src/bin/src/main.rs, src/bin/public/app.js): the node program
      with its web page.

    Examples (src/examples):
    - SfuTask, Sfu (whip-whep/src/sfu/): a media server on top of pubsub: its
      endpoints, rooms, shared udp port and worker. SfuNode (worker.rs,
      http.rs, main.rs): the program around it, with its http server.
    - VNet (quic-tunnel/src/vnet/, sdn.rs): the virtual network under a tunnel
      and the loop that drives it.

    State is a record with the fields of the Rust struct, an operation that
    takes [&mut self] a function that returns the new state, an output queue a
    list. Definitions keep the names of the source where these are free; a
    prefix ([remote_], [local_], [conn_], [manager_], [cp_], [plane_], ...)
    tells methods of the same name apart.

    ** What is proved

    - Routing: in a network of routers every stored path is loop-free and
      leads over the links it names ([net_paths_simple]), no operation panics
      ([net_never_panics]); with fixed links and messages that are delayed,
      repeated, reordered and lost, after twice as many periods as there are
      nodes the routes are the cheapest ones ([routes_converge]), messages
      reach a node from everywhere exactly if the id zones lead to it, that is
      if every node has a route inside the part that shares its id prefix with
      the destination ([messages_find_their_node]; a connected graph is not
      enough, [connected_is_not_enough]), and under the same condition those
      for a key end at the node closest to it ([keys_have_one_owner]); the
      feature takes the steps of this network ([router_feature_takes_net_steps]); a query
      never sends a message further from its key
      ([closest_node_progress], [two_nodes_key_owner]); removing a connection
      forgets every path over it ([del_direct_forgets]); one destination
      refines a finite map and answers with its best path
      ([dest_refines_map], [dest_next_optimal]).
    - The workers' routers: the router feature drops the deltas of connections
      that have ended, and still, once no delta is queued, a worker answers
      [next] and [closest_for] as the router does, and [path_to_service] up to
      paths over connections that have ended ([workers_route_as_controller]);
      where every delta is delivered it answers every query as the router does
      ([shadow_refines_router]) and delivery makes progress
      ([shadow_delivery_progress]); a broadcast goes to the right
      neighbours and is relayed and received once ([broadcast_dests_choice],
      [broadcast_relayed_once], [broadcast_received_once]), also when the
      workers use the history at the same time: its calls are atomic and never
      deadlock ([shared_history_is_atomic]).
    - Router feature: in every reachable state the handlers return and every
      route uses a live connection ([routes_use_live_connections]); deltas are
      translated ([pop_output_translates]) except those about a connection
      that was just closed, which is a defect
      ([disconnect_leaks_service_route]).
    - Headers: printing and parsing are inverse and parsing is total
      ([header_roundtrip], [try_from_verdict]); one accessor reads the wrong
      bit ([is_secure_header_wrong_bit]).
    - Neighbours: both sides of an opening, also a simultaneous one, agree on
      session, direction and keys ([open_handshake_agrees],
      [simultaneous_open_agrees]); the first event of a connection tells how its
      attempt ended, and the events agree with its state, though the end may be
      reported more than once ([connection_lifecycle], [end_reported_again]);
      the manager's events describe its table
      ([manager_reports_neighbours]); control messages are accepted while they
      are fresh ([control_accepted_while_fresh]); the disconnect timeout is
      defective ([disconnect_timeout_never_fires]).
    - Packets: after a handshake each side opens the packets of the other
      while they are fresh ([packets_open_while_fresh]); a message to one
      node crosses as many relays as its time to live allows and reaches its
      feature (other than publish/subscribe) as it was sent
      ([message_crosses_relays]); a worker that follows the controller finds
      the connections it sends to ([direct_send_finds_connection]); a packet of
      the tun device reaches the device of its node over at most 64 relays
      ([tun_packet_arrives]); the time to live stops
      broadcasts but not other messages, a defect
      ([ttl_stops_broadcasts_only]).
    - Key-value store: a relay is a last-writer-wins store
      ([relay_is_lww_store]) whose content does not depend on the order of sets,
      but for sets with equal versions and different data
      ([relay_writes_commute], [equal_versions_last_stays]), and which resends events until they are
      acknowledged ([relay_resends_until_acked]); the subscription state
      machine is sound ([client_subscription_sound]); over a network that
      loses, repeats, reorders and misroutes commands, values come from their
      source ([values_come_from_their_source]); one synchronisation period
      repairs lost copies and a new relay takes over
      ([one_sync_period_heals], [new_relay_takes_over]); two defects of the
      client and what repetition does ([map_get_forgotten_by_first_tick],
      [resubscriber_misses_known_value], [relay_events_redelivered]).
    - Publish/subscribe: once the worker has carried out what is queued for it,
      data reaches every consumer once, locally and over a relay
      ([published_data_reaches_consumers], [relay_passes_on_data]), and
      over a tree of nodes whose relays stand ([tree_delivers_once]; that they
      agree on who is bound to whom is its assumption);
      subscribers know the sources ([subscribers_know_sources]); an
      aggregate of feedback counts the last report of every consumer once
      ([feedback_counts_every_consumer_once]), but is not held back for the
      interval asked for, a defect ([tick_passes_nothing_on]); no input panics ([pubsub_never_panics]).
    - Aliases: every query is answered once and in time, with a node that
      registered the alias ([every_query_answered_once],
      [query_answered_in_time], [answers_name_registrants]).
    - Controller and workers: a worker knows the connections of the neighbours
      manager ([workers_follow_neighbours]) and the sockets of the controller
      ([socket_worker_mirrors]); messages between the workers of a node reach
      the workers they are meant for ([bus_reaches_its_worker]), except that an
      event for one worker is handed to all of them and makes the others panic,
      a defect ([event_for_worker_panics_others]); a manager of services polled
      only after an early shutdown never gets empty
      ([early_shutdown_never_empty]).
    - Services and addresses: a subscriber of the visualization knows what the
      collector knows ([subscriber_follows_network]); the messages to a web page
      tell the same, and its script has every known node on screen
      ([page_is_told_network]), and more ([page_draws_more]); a node's address
      reads back and names its sockets, which a node that is given it tries
      ([seed_names_sockets]); manual discovery connects to what is announced
      and lets go of what is gone ([discovery_follows_tags]), over the
      key-value store only to what another node wrote under a tag it looks for,
      its own announcement unless another user wrote it
      ([only_tagged_nodes_are_asked]); it panics on a short value and forgets
      other tags ([short_value_panics], [removed_under_one_tag]).
    - Examples: rooms are published and watched while they have members
      ([rooms_follow_members]), every request is answered once
      ([requests_answered_once]) and the answer finds the request
      ([answers_find_requests]), the port finds the task of a packet
      ([remove_task_spec]), the loops of the endpoints end
      ([whip_pop_event_ends]); a viewer that leaves cuts off a publisher and a
      bad offer ends the program, defects ([viewer_leaving_cuts_publisher],
      [bad_offer_panics]), and any file is served
      ([public_serves_any_path]); sockets of the virtual network own their
      ports ([sockets_own_their_ports]), and its loop ends after a signal
      ([run_sdn_ends]).

    ** Decisions of the model

    - Integers are [Z]; operations that can leave the width of their type are
      wrapped explicitly, as in a release build ([wrap]). Where a theorem
      needs that nothing wraps it says so.
    - [assert!], [expect], [unwrap] and indexing that can fail give [Panic].
      An [expect] that directly follows the insertion it looks up is written
      without it.
    - [HashMap] is [gmap]; an iteration takes a [HashOrder], any order of the
      entries, so the theorems hold for all of them. A map keyed by [ConnId]
      is keyed by [conn_key]. A [BTreeMap] is iterated in the order of its
      keys.
    - Arrays of 256 are lists of this length, indexed by [u8] values.
    - [Buffer] is a list of bytes, and so is a string.
    - Code of other crates is a parameter: the codec of bincode ([Codec],
      [LimitedCodec]), SHA-256, the x25519 and AES crates, the bytes and text of
      multiaddresses, random numbers, the room in front of a buffer
      ([Headroom]), the bus of the runtime ([RuntimeBus]), the channel to the
      web pages ([Broadcast]) and their graph ([Cytoscape]). Laws they have to
      meet are classes with instances in the witnesses. The task switchers of
      sans_io_runtime decide which part is polled next: the functions that pop
      outputs take this choice as a list, a schedule, and the theorems hold
      for every schedule.
    - Loops are folds over the list they iterate. Recursion with fuel:
      [pop_hint_loop] gets the number of queued outputs plus one, which is
      shown to be enough; [process_loop] gets two, as its second round
      always ends; [print_digits] gets ten for a [u32] and twenty for a
      [usize], the most digits they have; the loops of the media endpoints
      need one more than the session has events ([whip_pop_event_ends]); the
      nodes below a node of a relay tree get one more than the deepest node is
      below it ([visits_unfold]).
    - The history of broadcasts is shared by the workers of a node behind
      mutexes; in the model of a router it is a value with atomic calls, and
      HistoryConc shows that the calls of the threads are atomic. The clock is
      a single atomic integer, so its relaxed loads and stores are steps of
      one order.
    - In RouterConverge a period is a time in which a sync arrives over every
      link and the syncs in flight at its beginning are gone.
    - Logging is left out.

    ** What is not modelled, and the plan

    Left out: the threads, sockets and the system clock under the runner (the
    runtime crate has them), the helpers of core/utils that only log or fill
    arrays and that nothing uses, the fuzz targets and the small programs of
    runner/examples. Of the examples: the arguments and the configuration of
    the two programs, and the quic streams of the tunnel, which join streams
    of other crates. The worker of the media server is written against an
    interface the library no longer has; this interface is a parameter. What
    could be added: that discovery connects in time, over the convergence of
    routes and keys, and that the relays of a source come to agree. *)

From stdpp Require Export prelude gmap numbers list sorting.
#[global] Open Scope Z_scope.

(** ** Machine integers

    A Rust [uN] is a [Z] in [0, 2^N); arithmetic that can leave the range is
    written with an explicit [wrap]. *)

Definition u8 (z : Z) : Prop := 0 ≤ z < 2 ^ 8.
Definition u16 (z : Z) : Prop := 0 ≤ z < 2 ^ 16.
Definition u32 (z : Z) : Prop := 0 ≤ z < 2 ^ 32.
Definition u64 (z : Z) : Prop := 0 ≤ z < 2 ^ 64.

Definition wrap (w z : Z) : Z := z mod 2 ^ w.

Lemma wrap_range w z : 0 ≤ w → 0 ≤ wrap w z < 2 ^ w.
Proof. intros Hw. apply Z.mod_pos_bound. lia. Qed.

Lemma wrap_small w z : 0 ≤ z < 2 ^ w → wrap w z = z.
Proof. intros H. by apply Z.mod_small. Qed.

Lemma wrap_land w z : 0 ≤ w → wrap w z = Z.land z (Z.ones w).
Proof. intros Hw. unfold wrap. by rewrite Z.land_ones. Qed.

(** Every value of a [u8], in the order of the loops [for i in 0..=255]. *)
Definition u8_all : list Z := seqZ 0 256.

Lemma elem_of_u8_all i : i ∈ u8_all ↔ u8 i.
Proof. unfold u8_all, u8. rewrite elem_of_seqZ. lia. Qed.

Lemma NoDup_u8_all : NoDup u8_all.
Proof. apply NoDup_seqZ. Qed.

(** ** Lists built from lists *)

Lemma list_bind_assoc {A B C} (f : A → list B) (g : B → list C) l : (l ≫= f) ≫= g = l ≫= λ x, f x ≫= g.
Proof. induction l as [|x l IH]; [done|]. cbn. by rewrite bind_app, IH. Qed.

Lemma omap_bind {A B C} (f : A → list B) (g : B → option C) l : omap g (l ≫= f) = l ≫= λ x, omap g (f x).
Proof. induction l as [|x l IH]; [done|]. rewrite !bind_cons, omap_app. by rewrite IH. Qed.

(** Of the elements of a list without duplicates, one counts. *)
Lemma bind_pick {A B} `{EqDecision A} (l : list A) (a : A) (r : list B) :
  NoDup l → (a ∉ l → r = []) → (l ≫= λ x, if bool_decide (x = a) then r else []) = r.
Proof.
  induction 1 as [|x l Hx _ IH]; intros Hr; [cbn; symmetry; apply Hr, not_elem_of_nil|]. rewrite bind_cons. case_bool_decide as Hxa.
  - subst x. rewrite <- (app_nil_r r) at 2. f_equal. clear -Hx. induction l as [|y l IH]; [done|].
    apply not_elem_of_cons in Hx as [Hy Hl]. rewrite bind_cons, bool_decide_false by done. by apply IH.
  - apply IH. intros Hl. apply Hr. by apply not_elem_of_cons.
Qed.

(** ** Panics

    A computation that can panic (a failed [assert!], [expect], [unwrap])
    returns an [outcome]; [Panic] absorbs the rest of the computation. *)

Inductive outcome (A : Type) : Type :=
| Done (a : A)
| Panic.
Arguments Done {_} _.
Arguments Panic {_}.

#[global] Instance outcome_ret : MRet outcome := λ A a, Done a.
#[global] Instance outcome_bind : MBind outcome := λ A B f m,
  match m with Done a => f a | Panic => Panic end.
#[global] Instance outcome_fmap : FMap outcome := λ A B f m,
  match m with Done a => Done (f a) | Panic => Panic end.

Lemma bind_Done {A B} (f : A → outcome B) a : (Done a ≫= f) = f a.
Proof. done. Qed.

(** [expect] and [unwrap] on an [Option]. *)
Definition expect {A} (o : option A) : outcome A :=
  match o with Some a => Done a | None => Panic end.

Lemma expect_Done {A} (o : option A) a : expect o = Done a ↔ o = Some a.
Proof. destruct o; naive_solver. Qed.

(** A loop whose body can panic. *)
Fixpoint foldM {S A} (step : S → A → outcome S) (s : S) (l : list A) : outcome S :=
  match l with
  | [] => Done s
  | x :: l => s' ← step s x; foldM step s' l
  end.

Lemma foldM_pure {S A} (step : S → A → outcome S) (f : S → A → S) (P : S → Prop) l s :
  P s →
  (∀ s x, x ∈ l → P s → step s x = Done (f s x) ∧ P (f s x)) →
  foldM step s l = Done (foldl f s l).
Proof.
  revert s. induction l as [|x l IH]; intros s Hs Hstep; [done|]; simpl.
  destruct (Hstep s x) as [-> HP]; [left | done |]; simpl.
  apply IH; [done|]. intros s' y Hy. apply Hstep. by right.
Qed.

(** A loop never panics when its body does not. *)
Lemma foldM_total {S A} (step : S → A → outcome S) l :
  (∀ s x, x ∈ l → ∃ s', step s x = Done s') → ∀ s, ∃ s', foldM step s l = Done s'.
Proof.
  induction l as [|x l IH]; intros Hstep s; [by eexists|]. cbn.
  destruct (Hstep s x) as [s' ->]; [left|]. apply IH. intros s1 y Hy. apply Hstep. by right.
Qed.

(** The computation returns, with a result that satisfies [P]. *)
Definition returns {A} (o : outcome A) (P : A → Prop) : Prop :=
  match o with Done a => P a | Panic => False end.

Lemma returns_bind {A B} (o : outcome A) (f : A → outcome B) (P : A → Prop) (Q : B → Prop) :
  returns o P → (∀ a, P a → returns (f a) Q) → returns (o ≫= f) Q.
Proof. destruct o; [|done]. intros HP HQ. by apply HQ. Qed.

Lemma returns_mono {A} (o : outcome A) (P Q : A → Prop) : returns o P → (∀ a, P a → Q a) → returns o Q.
Proof. destruct o; [|done]. intros HP HQ. by apply HQ. Qed.

Lemma foldM_returns {S A} (step : S → A → outcome S) (I : S → Prop) l :
  (∀ s x, x ∈ l → I s → returns (step s x) I) → ∀ s, I s → returns (foldM step s l) I.
Proof.
  induction l as [|x l IH]; intros Hstep s Hs; [done|]. cbn. eapply returns_bind; [apply Hstep; [left|done]|].
  intros s' Hs'. apply IH; [|done]. intros s1 y Hy. apply Hstep. by right.
Qed.

(** A loop with an invariant on the state and the elements that remain. *)
Lemma foldl_invariant {S A} (step : S → A → S) (I : list A → S → Prop) l :
  (∀ x l s, I (x :: l) s → I l (step s x)) → ∀ s, I l s → I [] (foldl step s l).
Proof. intros Hstep. induction l as [|x l IH]; intros s Hs; [done|]. cbn. by apply IH, Hstep. Qed.

(** ** Fixed-size arrays indexed by a [u8]

    [[T; 256]] is a list of length 256. An index is a [u8], so an access is
    always in range and the default of [!!!] is never read. *)

Section arrays.
Context {A : Type} `{Inhabited A}.

Definition arr_get (a : list A) (i : Z) : A := a !!! Z.to_nat i.
Definition arr_set (a : list A) (i : Z) (x : A) : list A := <[Z.to_nat i := x]> a.

Lemma arr_get_set_eq a i x : length a = 256%nat → u8 i → arr_get (arr_set a i x) i = x.
Proof.
  intros Hl Hi. unfold arr_get, arr_set. apply list_lookup_total_insert_eq.
  rewrite Hl. unfold u8 in Hi. lia.
Qed.

Lemma arr_get_set_ne a i j x :
  u8 i → u8 j → i ≠ j → arr_get (arr_set a i x) j = arr_get a j.
Proof.
  intros Hi Hj Hne. unfold arr_get, arr_set. apply list_lookup_total_insert_ne.
  unfold u8 in *. lia.
Qed.

Lemma length_arr_set a i x : length (arr_set a i x) = length a.
Proof. apply length_insert. Qed.

Lemma arr_get_replicate (x : A) i : u8 i → arr_get (replicate 256 x) i = x.
Proof. intros Hi. unfold arr_get. apply lookup_total_replicate_2. unfold u8 in Hi. lia. Qed.

Lemma arr_eq (a b : list A) :
  length a = 256%nat → length b = 256%nat →
  (∀ i, u8 i → arr_get a i = arr_get b i) → a = b.
Proof.
  intros Ha Hb Hab. apply list_eq_same_length with (n := 256%nat); [done..|].
  intros i x y Hi Hx Hy. specialize (Hab (Z.of_nat i)).
  unfold arr_get in Hab. rewrite Nat2Z.id in Hab.
  rewrite (list_lookup_total_correct _ _ _ Hx), (list_lookup_total_correct _ _ _ Hy) in Hab.
  apply Hab. unfold u8. lia.
Qed.
End arrays.

(** A loop whose body at [i] only touches component [i] of the state updates
    every component once. [P] is an invariant of the loop. *)
Lemma foldl_pointwise {S I A} (P : S → Prop) (step : S → I → S) (get : S → I → A)
    (f : I → A → A) (l : list I) s :
  NoDup l →
  (∀ s i, i ∈ l → P s → P (step s i)) →
  (∀ s i, i ∈ l → P s → get (step s i) i = f i (get s i)) →
  (∀ s i j, i ∈ l → P s → i ≠ j → j ∈ l → get (step s i) j = get s j) →
  P s →
  P (foldl step s l) ∧ ∀ j, j ∈ l → get (foldl step s l) j = f j (get s j).
Proof.
  revert s. induction l as [|i l IH]; intros s Hnd HP Hself Hother Hs.
  { split; [done|]. intros j Hj. by apply not_elem_of_nil in Hj. }
  apply NoDup_cons in Hnd as [Hni Hnd]. simpl.
  assert (P (step s i)) as Hs' by (apply HP; [left|done]).
  destruct (IH (step s i) Hnd) as [HPf Hget]; try done.
  { intros s' j Hj. apply HP. by right. }
  { intros s' j Hj. apply Hself. by right. }
  { intros s' j k Hj HP' Hjk Hk. apply Hother; [by right | done | done | by right]. }
  split; [done|]. intros j [->|Hj]%elem_of_cons.
  - assert (∀ l' s', (∀ k, k ∈ l' → k ∈ i :: l) → i ∉ l' → P s' →
        get (foldl step s' l') i = get s' i) as Hskip.
    { intros l'. induction l' as [|k l' IH']; intros s' Hsub Hni' Hs''; [done|]; simpl.
      rewrite IH'.
      - apply Hother; [apply Hsub; left | done | intros ->; apply Hni'; left | left].
      - intros k' Hk'. apply Hsub. by right.
      - intros Hi. apply Hni'. by right.
      - apply HP; [apply Hsub; left|done]. }
    rewrite Hskip; [apply Hself; [left|done] | intros k Hk; by right | done | done].
  - rewrite Hget by done. f_equal. apply Hother; [left | done | by intros -> | by right].
Qed.

(** ** Bit fields *)

Lemma land_shiftl_low a b n :
  0 ≤ n → 0 ≤ b < 2 ^ n → Z.land (Z.shiftl a n) b = 0.
Proof.
  intros Hn Hb. apply Z.bits_inj'. intros k Hk. rewrite Z.land_spec, Z.bits_0.
  destruct (decide (k < n)).
  - by rewrite Z.shiftl_spec_low.
  - rewrite <- (Z.mod_small b (2 ^ n)) by done.
    rewrite Z.mod_pow2_bits_high by lia. apply andb_false_r.
Qed.

(** A packed field: the bits of [b] below the shifted bits of [a]. *)
Lemma lor_shiftl_add a b n :
  0 ≤ n → 0 ≤ b < 2 ^ n → Z.lor (Z.shiftl a n) b = a * 2 ^ n + b.
Proof.
  intros Hn Hb. pose proof (land_shiftl_low a b n Hn Hb) as H0.
  rewrite <- Z.lxor_lor, <- Z.add_nocarry_lxor by done.
  by rewrite Z.shiftl_mul_pow2.
Qed.

Lemma lxor_range w a b :
  0 ≤ w → 0 ≤ a < 2 ^ w → 0 ≤ b < 2 ^ w → 0 ≤ Z.lxor a b < 2 ^ w.
Proof.
  intros Hw Ha Hb. split; [apply Z.lxor_nonneg; lia|].
  destruct (decide (w = 0)) as [->|Hw0].
  { assert (a = 0 ∧ b = 0) as [-> ->] by lia. done. }
  destruct (decide (Z.lxor a b = 0)) as [->|Hne]; [lia|].
  apply Z.log2_lt_pow2; [apply Z.le_neq; split; [apply Z.lxor_nonneg; lia | done]|].
  pose proof (Z.log2_lxor a b ltac:(lia) ltac:(lia)).
  assert (∀ x, 0 ≤ x < 2 ^ w → Z.log2 x < w) as Hlog.
  { intros x Hx. destruct (decide (x = 0)) as [->|]; [simpl; lia|].
    apply Z.log2_lt_pow2; lia. }
  pose proof (Hlog a Ha). pose proof (Hlog b Hb). lia.
Qed.

Lemma lxor_eq_iff a b : Z.lxor a b = 0 ↔ a = b.
Proof. split; [apply Z.lxor_eq | intros ->; apply Z.lxor_nilpotent]. Qed.

Lemma lxor_inj_l a b c : Z.lxor a b = Z.lxor a c ↔ b = c.
Proof.
  split; [|by intros ->]. intros Heq.
  assert (Z.lxor (Z.lxor a a) b = Z.lxor (Z.lxor a a) c) as H.
  { by rewrite !Z.lxor_assoc, Heq. }
  by rewrite Z.lxor_nilpotent, !Z.lxor_0_l in H.
Qed.

(** [log2] characterises the bit length of a positive number. *)
Lemma log2_between x k : 0 ≤ k → 2 ^ k ≤ x < 2 ^ (k + 1) → Z.log2 x = k.
Proof. intros Hk Hx. apply Z.log2_unique; [lia|]. by rewrite <- Z.add_1_r. Qed.

(** ** Stable sorting

    [Vec::sort] is a stable sort by the type's [Ord]. The development's
    orderings compare an integer key (a score), so the sort takes the key;
    [stable_sort_unique] says that the two properties Rust documents (the
    result is ordered, equal elements keep their order) leave one result. *)

Section stable_sort.
Context {A : Type} (key : A → Z).

Definition key_le (x y : A) : Prop := key x ≤ key y.

Fixpoint sort_insert (x : A) (l : list A) : list A :=
  match l with
  | [] => [x]
  | y :: ys => if key x <=? key y then x :: l else y :: sort_insert x ys
  end.

Fixpoint stable_sort (l : list A) : list A :=
  match l with
  | [] => []
  | x :: xs => sort_insert x (stable_sort xs)
  end.

Lemma sort_insert_perm x l : sort_insert x l ≡ₚ x :: l.
Proof.
  induction l as [|y l IH]; simpl; [done|]. case_match; [done|].
  rewrite IH. apply Permutation_swap.
Qed.

Lemma stable_sort_perm l : stable_sort l ≡ₚ l.
Proof. induction l as [|x l IH]; simpl; [done|]. by rewrite sort_insert_perm, IH. Qed.

Lemma sort_insert_sorted x l :
  StronglySorted key_le l → StronglySorted key_le (sort_insert x l).
Proof.
  induction 1 as [|y l Hl IH Hy]; simpl; [repeat constructor|].
  destruct (Z.leb_spec (key x) (key y)) as [Hle|Hlt].
  - constructor; [by constructor|]. constructor; [done|].
    eapply Forall_impl; [exact Hy|]. unfold key_le. intros z. simpl. lia.
  - constructor; [done|]. rewrite sort_insert_perm. constructor; [|done].
    unfold key_le. lia.
Qed.

Lemma stable_sort_sorted l : StronglySorted key_le (stable_sort l).
Proof. induction l; simpl; [constructor|]. by apply sort_insert_sorted. Qed.

Lemma sort_insert_head x l : Forall (key_le x) l → sort_insert x l = x :: l.
Proof.
  intros Hl. destruct Hl as [|y l Hy Hl]; simpl; [done|].
  by rewrite (proj2 (Z.leb_le _ _) Hy).
Qed.

Lemma stable_sort_id l : StronglySorted key_le l → stable_sort l = l.
Proof.
  induction 1 as [|x l Hl IH Hx]; simpl; [done|]. rewrite IH. by apply sort_insert_head.
Qed.

Lemma sort_insert_filter x l k :
  filter (λ y, key y = k) (sort_insert x l) = filter (λ y, key y = k) (x :: l).
Proof.
  induction l as [|y l IH]; simpl; [done|]. case_match eqn:Hxy; [done|].
  rewrite !filter_cons. rewrite filter_cons in IH. rewrite IH.
  apply Z.leb_gt in Hxy. repeat case_decide; try done. lia.
Qed.

(** Elements with the same key keep their order. *)
Lemma stable_sort_filter l k :
  filter (λ y, key y = k) (stable_sort l) = filter (λ y, key y = k) l.
Proof.
  induction l as [|x l IH]; simpl; [done|].
  by rewrite sort_insert_filter, !filter_cons, IH.
Qed.

Lemma sorted_filter_eq l1 l2 :
  StronglySorted key_le l1 → StronglySorted key_le l2 →
  (∀ k, filter (λ y, key y = k) l1 = filter (λ y, key y = k) l2) → l1 = l2.
Proof.
  intros Hs1. revert l2. induction Hs1 as [|x l1 Hs1 IH Hx]; intros l2 Hs2 Hf.
  { destruct l2 as [|y l2]; [done|]. specialize (Hf (key y)).
    rewrite filter_cons_True in Hf by done. by rewrite filter_nil in Hf. }
  destruct Hs2 as [|y l2 Hs2 Hy].
  { specialize (Hf (key x)). rewrite filter_cons_True in Hf by done.
    by rewrite filter_nil in Hf. }
  assert (x ∈ filter (λ z, key z = key x) (y :: l2)) as [_ Hx2]%list_elem_of_filter.
  { rewrite <- Hf, filter_cons_True by done. left. }
  assert (y ∈ filter (λ z, key z = key y) (x :: l1)) as [_ Hy1]%list_elem_of_filter.
  { rewrite Hf, filter_cons_True by done. left. }
  rewrite Forall_forall in Hx, Hy. unfold key_le in Hx, Hy.
  assert (key x = key y) as Hk.
  { apply elem_of_cons in Hx2 as [->|Hx2]; [done|].
    apply elem_of_cons in Hy1 as [->|Hy1]; [done|].
    specialize (Hx _ Hy1). specialize (Hy _ Hx2). lia. }
  assert (x = y) as <-.
  { specialize (Hf (key x)). rewrite !filter_cons_True in Hf by done. by inversion Hf. }
  f_equal. apply IH; [done|]. intros k. specialize (Hf k).
  rewrite !filter_cons in Hf. case_decide; [by inversion Hf|done].
Qed.

Lemma stable_sort_unique l l' :
  StronglySorted key_le l' →
  (∀ k, filter (λ y, key y = k) l' = filter (λ y, key y = k) l) →
  l' = stable_sort l.
Proof.
  intros Hs Hf. apply sorted_filter_eq; [done|apply stable_sort_sorted|].
  intros k. by rewrite stable_sort_filter.
Qed.
End stable_sort.

Lemma Forall_filter {A} (P Q : A → Prop) `{∀ x, Decision (Q x)} l : Forall P l → Forall P (filter Q l).
Proof. rewrite !Forall_forall. intros Hl x [_ Hx]%list_elem_of_filter. by apply Hl. Qed.

Lemma StronglySorted_filter {A} (R : A → A → Prop) (P : A → Prop) `{∀ x, Decision (P x)} l : StronglySorted R l → StronglySorted R (filter P l).
Proof. induction 1 as [|x l Hl IH Hx]; [constructor|]. rewrite filter_cons. case_decide; [|done]. constructor; [done|]. by apply Forall_filter. Qed.

(** Sorting commutes with leaving elements out. *)
Lemma filter_sort_insert {A} (key : A → Z) (P : A → Prop) `{∀ x, Decision (P x)} x l :
  StronglySorted (key_le key) l → filter P (sort_insert key x l) = if decide (P x) then sort_insert key x (filter P l) else filter P l.
Proof.
  induction 1 as [|y l Hl IH Hy]; cbn [sort_insert]; [rewrite filter_cons; by case_decide|].
  destruct (Z.leb_spec (key x) (key y)) as [Hle|Hlt].
  - rewrite (filter_cons P x). case_decide; [|done]. symmetry. apply sort_insert_head. apply Forall_filter.
    constructor; [done|]. eapply Forall_impl; [exact Hy|]. unfold key_le. intros z. lia.
  - rewrite !(filter_cons P y), IH. destruct (decide (P x)), (decide (P y)); try done. cbn [sort_insert].
    by rewrite (proj2 (Z.leb_gt _ _)).
Qed.

Lemma filter_stable_sort {A} (key : A → Z) (P : A → Prop) `{∀ x, Decision (P x)} l :
  filter P (stable_sort key l) = stable_sort key (filter P l).
Proof.
  induction l as [|x l IH]; [done|]. cbn [stable_sort]. rewrite filter_sort_insert by apply stable_sort_sorted. rewrite filter_cons, IH.
  by case_decide.
Qed.

(** Sorting commutes with a map that keeps the keys. *)
Lemma stable_sort_map {A B} (ka : A → Z) (kb : B → Z) (f : A → B) l :
  (∀ x, x ∈ l → kb (f x) = ka x) →
  stable_sort kb (f <$> l) = f <$> stable_sort ka l.
Proof.
  intros Hk. apply eq_sym, stable_sort_unique.
  - assert (∀ l' : list A, (∀ x, x ∈ l' → kb (f x) = ka x) → StronglySorted (key_le ka) l' →
      StronglySorted (key_le kb) (f <$> l')) as Hmap.
    { intros l' Hl' Hs. induction Hs as [|x l' Hs IH Hx]; simpl; [constructor|].
      constructor; [apply IH; intros y Hy; apply Hl'; by right|].
      rewrite Forall_fmap. rewrite Forall_forall in Hx |- *. intros y Hy. unfold key_le in *. simpl.
      rewrite (Hl' x), (Hl' y); [by apply Hx | by right | left]. }
    apply Hmap; [|apply stable_sort_sorted]. intros x Hx. apply Hk.
    by rewrite stable_sort_perm in Hx.
  - intros k.
    assert (∀ l' : list A, (∀ x, x ∈ l' → kb (f x) = ka x) →
      filter (λ y, kb y = k) (f <$> l') = f <$> filter (λ y, ka y = k) l') as Hfm.
    { intros l' Hl'. induction l' as [|x l' IH]; [done|].
      rewrite !fmap_cons, !filter_cons, (Hl' x) by left.
      rewrite IH by (intros y Hy; apply Hl'; by right). by case_decide. }
    rewrite !Hfm; [by rewrite stable_sort_filter | done |].
    intros x Hx. apply Hk. by rewrite stable_sort_perm in Hx.
Qed.

(** ** Keyed lists

    A vector with at most one element per key: replace the element with the
    key of [x] or push [x]; remove a key. *)

Lemma insert_middle {A} (l1 l2 : list A) x y :
  <[length l1 := y]> (l1 ++ x :: l2) = l1 ++ y :: l2.
Proof. induction l1 as [|z l1 IH]; [done|]. cbn. f_equal. apply IH. Qed.

Lemma filter_all {A} (P : A → Prop) `{∀ x, Decision (P x)} (l : list A) :
  Forall P l → filter P l = l.
Proof. induction 1 as [|x l Hx Hl IH]; [done|]. by rewrite filter_cons_True, IH. Qed.

Section keyed.
Context {A K : Type} `{EqDecision K} (kf : A → K).

Definition kupsert (x : A) (l : list A) : list A :=
  match list_find (λ y, kf y = kf x) l with
  | Some (i, _) => <[i := x]> l
  | None => l ++ [x]
  end.

Definition kdel (k : K) (l : list A) : list A := filter (λ y, kf y ≠ k) l.

Lemma kupsert_spec x l :
  ((kf x ∉ kf <$> l) ∧ kupsert x l = l ++ [x]) ∨
  (∃ l1 y l2, l = l1 ++ y :: l2 ∧ kf y = kf x ∧ (kf x ∉ kf <$> l1) ∧ kupsert x l = l1 ++ x :: l2).
Proof.
  unfold kupsert. destruct (list_find (λ y, kf y = kf x) l) as [[i y]|] eqn:E.
  - right. apply list_find_Some in E as (Hi & Hk & Hbefore).
    exists (take i l), y, (drop (S i) l). split_and!; [by rewrite take_drop_middle | done | |].
    + intros (z & Hz & Hin)%list_elem_of_fmap. apply list_elem_of_lookup in Hin as [j Hj].
      apply lookup_take_Some in Hj as [Hj Hlt]. by eapply Hbefore.
    + rewrite <- (take_drop_middle l i y) at 1 by done.
      assert (i = length (take i l)) as Hl.
      { rewrite length_take. apply lookup_lt_Some in Hi. lia. }
      rewrite Hl at 1. apply insert_middle.
  - left. split; [|done]. apply list_find_None in E. rewrite Forall_forall in E.
    intros (z & Hz & Hin)%list_elem_of_fmap. by apply (E z).
Qed.

Lemma kdel_split k l1 y l2 :
  NoDup (kf <$> l1 ++ y :: l2) → kf y = k → kdel k (l1 ++ y :: l2) = l1 ++ l2.
Proof.
  rewrite fmap_app, fmap_cons. intros (_ & H2 & [H3 _]%NoDup_cons)%NoDup_app <-.
  unfold kdel. rewrite filter_app, filter_cons_False by tauto.
  rewrite !filter_all; [done|..]; apply Forall_forall; intros z Hz Heq.
  - apply H3. rewrite <- Heq. by apply list_elem_of_fmap_2.
  - apply (H2 (kf z)); [by apply list_elem_of_fmap_2|]. rewrite Heq. left.
Qed.

Lemma kdel_fresh k l : k ∉ kf <$> l → kdel k l = l.
Proof.
  intros Hk. apply filter_all, Forall_forall. intros z Hz <-. apply Hk. by apply list_elem_of_fmap_2.
Qed.

Lemma Forall_kupsert (P : A → Prop) x l : P x → Forall P l → Forall P (kupsert x l).
Proof. intros Hx Hl. unfold kupsert. case_match; [case_match; by apply Forall_insert|]. apply Forall_app. split; [done|]. by apply Forall_singleton. Qed.

(** Leaving keys out. *)
Section keyed_filter.
Context (P : K → Prop) `{∀ k, Decision (P k)}.

Lemma filter_kupsert x l : filter (λ y, P (kf y)) (kupsert x l) = if decide (P (kf x)) then kupsert x (filter (λ y, P (kf y)) l) else filter (λ y, P (kf y)) l.
Proof.
  induction l as [|y l IH].
  { unfold kupsert. cbn [list_find app]. rewrite filter_cons, filter_nil. by case_decide. }
  assert (∀ z zs, kupsert x (z :: zs) = if decide (kf z = kf x) then x :: zs else z :: kupsert x zs) as Hc.
  { intros z zs. unfold kupsert. cbn [list_find]. destruct (decide (kf z = kf x)); [done|]. by destruct (list_find _ zs) as [[]|]. }
  rewrite Hc. destruct (decide (kf y = kf x)) as [Hk|Hk].
  - rewrite !filter_cons, Hk. destruct (decide (P (kf x))); [|done]. by rewrite Hc, decide_True.
  - rewrite !filter_cons, IH. destruct (decide (P (kf y))), (decide (P (kf x))); try done. by rewrite Hc, decide_False.
Qed.

Lemma filter_kdel k l : filter (λ y, P (kf y)) (kdel k l) = kdel k (filter (λ y, P (kf y)) l).
Proof. unfold kdel. rewrite !list_filter_filter. apply list_filter_iff. tauto. Qed.

Lemma kdel_filtered k l : ¬ P k → kdel k (filter (λ y, P (kf y)) l) = filter (λ y, P (kf y)) l.
Proof. intros Hk. apply filter_all, Forall_forall. intros y [Hy _]%list_elem_of_filter <-. done. Qed.
End keyed_filter.
End keyed.

(** Two keys that tell the same elements apart. *)
Lemma kupsert_key_ext {A K L} `{EqDecision K} `{EqDecision L} (ka : A → K) (kb : A → L) x l :
  (∀ y, y ∈ l → ka y = ka x ↔ kb y = kb x) → kupsert ka x l = kupsert kb x l.
Proof.
  intros Hk. unfold kupsert. assert (list_find (λ y, ka y = ka x) l = list_find (λ y, kb y = kb x) l) as ->; [|done].
  induction l as [|y l IH]; [done|]. cbn [list_find]. rewrite IH by (intros z Hz; apply Hk; by right).
  specialize (Hk y ltac:(left)). destruct (decide (ka y = ka x)), (decide (kb y = kb x)); tauto.
Qed.

Lemma kdel_key_ext {A K L} `{EqDecision K} `{EqDecision L} (ka : A → K) (kb : A → L) k k' l :
  (∀ y, y ∈ l → ka y = k ↔ kb y = k') → kdel ka k l = kdel kb k' l.
Proof.
  intros Hk. unfold kdel. induction l as [|y l IH]; [done|]. rewrite !filter_cons, IH by (intros z Hz; apply Hk; by right).
  specialize (Hk y ltac:(left)). repeat case_decide; tauto.
Qed.

Section keyed_map.
Context {A B K L : Type} `{EqDecision K} `{EqDecision L}.
Context (ka : A → K) (kb : B → L) (f : A → B) (g : K → L) `{!Inj (=) (=) g}.
Hypothesis f_key : ∀ x, kb (f x) = g (ka x).

Lemma kupsert_fmap x l : kupsert kb (f x) (f <$> l) = f <$> kupsert ka x l.
Proof.
  unfold kupsert. rewrite list_find_fmap.
  rewrite (list_find_ext _ (λ y, ka y = ka x)).
  2:{ intros y. cbn. rewrite !f_key. split; [apply (inj g) | by intros ->]. }
  destruct (list_find _ l) as [[i y]|]; cbn.
  - by rewrite list_fmap_insert.
  - by rewrite fmap_app.
Qed.

Lemma kdel_fmap k l : kdel kb (g k) (f <$> l) = f <$> kdel ka k l.
Proof.
  unfold kdel. induction l as [|x l IH]; [done|].
  rewrite fmap_cons. destruct (decide (ka x = k)) as [Hk|Hk].
  - rewrite !filter_cons_False; [done | tauto | rewrite f_key, Hk; tauto].
  - rewrite !filter_cons_True; [by rewrite fmap_cons, IH | done |].
    rewrite f_key. by intros ?%(inj g).
Qed.
End keyed_map.

(** ** Queues *)

(** [while let Some(x) = q.pop_front() { out.push_back(f(x)) }]. *)
Fixpoint drain_into {A B} (f : A → B) (q : list A) (out : list B) : list B :=
  match q with
  | [] => out
  | x :: q => drain_into f q (out ++ [f x])
  end.

Lemma drain_into_eq {A B} (f : A → B) q out : drain_into f q out = out ++ (f <$> q).
Proof.
  revert out. induction q as [|x q IH]; intros out; simpl; [by rewrite app_nil_r|].
  by rewrite IH, <- app_assoc.
Qed.

(** Every element of an array and of a queue; what a loop keeps. *)
Lemma Forall_get {A} `{Inhabited A} (P : A → Prop) (a : list A) i : P inhabitant → Forall P a → P (arr_get a i).
Proof.
  intros Hd Ha. unfold arr_get. rewrite list_lookup_total_alt. destruct (a !! Z.to_nat i) eqn:E; [|done].
  rewrite Forall_lookup in Ha. by eapply Ha.
Qed.

Lemma Forall_set {A} (P : A → Prop) (a : list A) i x : P x → Forall P a → Forall P (arr_set a i x).
Proof. intros Hx Ha. unfold arr_set. by apply Forall_insert. Qed.

Lemma Forall_drain {A B} (P : A → Prop) (Q : B → Prop) (f : A → B) q out :
  (∀ x, P x → Q (f x)) → Forall P q → Forall Q out → Forall Q (drain_into f q out).
Proof. intros Hf Hq Ho. rewrite drain_into_eq. apply Forall_app. split; [done|]. apply Forall_fmap. eapply Forall_impl; [exact Hq|exact Hf]. Qed.

Lemma foldl_keeps {A S} (P : S → Prop) (Q : A → Prop) (f : S → A → S) (l : list A) : (∀ s x, Q x → P s → P (f s x)) → Forall Q l → ∀ s, P s → P (foldl f s l).
Proof. intros Hf Hl. induction Hl as [|x l Hx _ IH]; intros s Hs; [done|]. cbn. auto. Qed.

Lemma foldM_keeps {A S} (P : S → Prop) (Q : A → Prop) (f : S → A → outcome S) (l : list A) s' :
  (∀ s x s', Q x → P s → f s x = Done s' → P s') → Forall Q l → ∀ s, P s → foldM f s l = Done s' → P s'.
Proof.
  intros Hf Hl. induction Hl as [|x l Hx _ IH]; intros s Hs; cbn; [by intros [= <-]|].
  destruct (f s x) as [s1|] eqn:E; [|done]. rewrite bind_Done. apply IH. by eapply Hf.
Qed.

Lemma Forall_u8_all : Forall u8 u8_all.
Proof. apply Forall_forall. intros i. apply elem_of_u8_all. Qed.

(** ** Hash maps

    A [HashMap] is a [gmap]; Rust leaves the order of an iteration open, so an
    operation that iterates takes the order as an argument: any function that
    lists each entry once. *)

Class HashOrder := {
  hash_iter : ∀ {K} `{Countable K} {V}, gmap K V → list (K * V);
  hash_iter_perm : ∀ {K} `{Countable K} {V} (m : gmap K V), hash_iter m ≡ₚ map_to_list m;
}.

(** One possible order, for running the definitions. *)
Program Definition canonical_order : HashOrder := {| hash_iter _ _ _ _ m := map_to_list m |}.
Next Obligation. done. Qed.

Section hash_iter.
Context `{HashOrder} `{Countable K} {V : Type}.
Implicit Types m : gmap K V.

Lemma elem_of_hash_iter m k v : (k, v) ∈ hash_iter m ↔ m !! k = Some v.
Proof. rewrite hash_iter_perm. apply elem_of_map_to_list. Qed.

Lemma NoDup_hash_iter_keys m : NoDup (hash_iter m).*1.
Proof. rewrite hash_iter_perm. apply NoDup_fst_map_to_list. Qed.

Lemma NoDup_hash_iter m : NoDup (hash_iter m).
Proof. rewrite hash_iter_perm. apply NoDup_map_to_list. Qed.

Lemma hash_iter_empty : hash_iter (∅ : gmap K V) = [].
Proof. apply Permutation_nil_r. by rewrite hash_iter_perm, map_to_list_empty. Qed.

(** [for key in to_remove { map.remove(&key) }], where [to_remove] collected
    the keys of the entries that satisfy [P]. *)
Definition remove_all (ks : list K) m : gmap K V := foldl (λ m k, delete k m) m ks.

Lemma lookup_remove_all ks m k :
  remove_all ks m !! k = if decide (k ∈ ks) then None else m !! k.
Proof.
  unfold remove_all. revert m. induction ks as [|k' ks IH]; intros m.
  { rewrite decide_False; [done|]. apply not_elem_of_nil. }
  cbn [foldl]. rewrite IH. destruct (decide (k = k')) as [->|].
  - rewrite lookup_delete_eq, (decide_True (P := k' ∈ k' :: ks)) by left. by case_decide.
  - rewrite lookup_delete_ne by done. repeat case_decide; set_solver.
Qed.
End hash_iter.

(** ** Vectors of distinct elements

    [Vec::swap_remove] puts the last element in the place of the removed one. *)

Definition swap_remove {A} (l : list A) (pos : nat) : list A :=
  match last l with
  | Some x => take (length l - 1) (<[pos := x]> l)
  | None => l
  end.

Lemma swap_remove_middle {A} (l1 l2 : list A) x : swap_remove (l1 ++ x :: l2) (length l1) ++ [x] ≡ₚ l1 ++ x :: l2.
Proof.
  unfold swap_remove. destruct l2 as [|y l2 _] using rev_ind.
  - rewrite last_snoc, insert_middle, length_app. cbn.
    replace (length l1 + 1 - 1)%nat with (length l1) by lia. by rewrite take_app_length.
  - rewrite app_comm_cons, app_assoc, last_snoc, <- app_assoc. cbn [app].
    rewrite insert_middle, !length_app. cbn [length]. rewrite length_app. cbn [length].
    replace (length l1 + S (length l2 + 1) - 1)%nat with (length (l1 ++ y :: l2)) by (rewrite length_app; cbn; lia).
    rewrite (app_comm_cons l2 [y] y), (app_assoc l1), take_app_length. rewrite <- app_assoc. apply Permutation_app_head.
    cbn. rewrite <- !Permutation_cons_append. apply perm_swap.
Qed.

Section vec.
Context {A : Type} `{EqDecision A}.

(** Find the position of an element and [swap_remove] it. *)
Definition vec_remove (x : A) (l : list A) : list A :=
  match list_find (x =.) l with
  | Some (pos, _) => swap_remove l pos
  | None => l
  end.

Lemma vec_remove_perm x l : x ∈ l → vec_remove x l ++ [x] ≡ₚ l.
Proof.
  intros Hin. unfold vec_remove. destruct (list_find (x =.) l) as [[i y]|] eqn:Hf.
  - apply list_find_Some in Hf as (Hi & <- & _).
    assert (length (take i l) = i) as Hlen by (apply length_take_le, Nat.lt_le_incl; by eapply lookup_lt_Some).
    pose proof (swap_remove_middle (take i l) (drop (S i) l) x) as Hp.
    by rewrite Hlen, (take_drop_middle l i x Hi) in Hp.
  - apply list_find_None in Hf. rewrite Forall_forall in Hf. by destruct (Hf x Hin).
Qed.

Lemma vec_remove_notin x l : x ∉ l → vec_remove x l = l.
Proof.
  intros Hni. unfold vec_remove. destruct (list_find (x =.) l) as [[i y]|] eqn:Hf; [|done].
  apply list_find_Some in Hf as (Hi & <- & _). by apply list_elem_of_lookup_2 in Hi.
Qed.

Lemma NoDup_vec_remove x l : NoDup l → NoDup (vec_remove x l).
Proof.
  intros Hnd. destruct (decide (x ∈ l)) as [Hin|Hni]; [|by rewrite vec_remove_notin].
  rewrite <- (vec_remove_perm x l Hin) in Hnd. by apply NoDup_app in Hnd as [? _].
Qed.

Lemma elem_of_vec_remove x y l : NoDup l → y ∈ vec_remove x l ↔ y ∈ l ∧ y ≠ x.
Proof.
  intros Hnd. destruct (decide (x ∈ l)) as [Hin|Hni].
  - rewrite <- (vec_remove_perm x l Hin) in Hnd. apply NoDup_app in Hnd as (_ & Hd & _).
    rewrite <- (vec_remove_perm x l Hin) at 2. rewrite elem_of_app, list_elem_of_singleton. split; [|tauto].
    intros Hy. split; [by left|]. intros ->. by apply (Hd x Hy), list_elem_of_singleton.
  - rewrite vec_remove_notin by done. split; [|tauto]. intros Hy. split; [done|]. by intros ->.
Qed.

(** [if !v.contains(&x) { v.push(x) }] *)
Definition vec_insert (x : A) (l : list A) : list A := if bool_decide (x ∈ l) then l else l ++ [x].

Lemma NoDup_vec_insert x l : NoDup l → NoDup (vec_insert x l).
Proof.
  intros Hnd. unfold vec_insert. case_bool_decide; [done|]. apply NoDup_app. split_and!; [done| |apply NoDup_singleton].
  intros y Hy ->%list_elem_of_singleton. done.
Qed.

Lemma elem_of_vec_insert x y l : y ∈ vec_insert x l ↔ y ∈ l ∨ y = x.
Proof.
  unfold vec_insert. case_bool_decide; [split; [by left|intros [?| ->]; done]|]. by rewrite elem_of_app, list_elem_of_singleton.
Qed.
End vec.

(** ** Automation *)

(** Queues grow at their end. *)
Lemma elem_of_snoc {A} (l : list A) x : x ∈ l ++ [x].
Proof. apply elem_of_app. right. by apply list_elem_of_singleton. Qed.

Lemma Forall_snoc {A} (P : A → Prop) l x : Forall P l → P x → Forall P (l ++ [x]).
Proof. intros Hl Hx. apply Forall_app. split; [done|]. by apply Forall_singleton. Qed.

(** A list that is not empty has a least element. *)
Lemma list_argmin {A} (f : A → Z) (l : list A) : l ≠ [] → ∃ x, x ∈ l ∧ ∀ y, y ∈ l → f x ≤ f y.
Proof.
  induction l as [|a l IH]; [done|]. intros _. destruct (decide (l = [])) as [->|Hne].
  { exists a. split; [left|]. by intros y ->%list_elem_of_singleton. }
  destruct (IH Hne) as (x & Hx & Hle). destruct (Z.le_gt_cases (f a) (f x)) as [Hax|Hxa].
  - exists a. split; [left|]. intros y [->|Hy]%elem_of_cons; [done|]. specialize (Hle y Hy). lia.
  - exists x. split; [by right|]. intros y [->|Hy]%elem_of_cons; [lia|]. by apply Hle.
Qed.

(** Filling a map from a list without repeated keys. *)
Lemma foldl_insert_map `{Countable K} {A V} (f : A → K) (g : A → V) (l : list A) : NoDup (f <$> l) →
  foldl (λ m x, <[f x := g x]> m) ∅ l = list_to_map (M := gmap K V) ((λ x, (f x, g x)) <$> l).
Proof.
  induction l as [|x l IH] using rev_ind; [done|]. rewrite fmap_app. intros Hnd. rewrite foldl_snoc. apply NoDup_app in Hnd as (Hl & Hx & _). rewrite (IH Hl), fmap_app.
  cbn [fmap list_fmap]. rewrite list_to_map_snoc; [done|]. rewrite <- list_fmap_compose. intros Hin. by apply (Hx (f x) Hin), list_elem_of_singleton.
Qed.

(** The hints of the components. *)
Create HintDb sdn.
#[export] Hint Resolve elem_of_snoc Forall_snoc NoDup_hash_iter_keys NoDup_u8_all NoDup_vec_remove NoDup_vec_insert : sdn.

(** A property of all entries of a map, after the map was updated: the goal
    splits into the new entry and the old ones, which keep the property. *)
Ltac map_update :=
  let Hlk := fresh "Hlk" in
  intros ? ? Hlk; cbn in Hlk |- *;
  first [ apply lookup_insert_Some in Hlk as [[<- <-]|[_ Hlk]]
        | apply lookup_delete_Some in Hlk as [_ Hlk]
        | by apply lookup_empty_Some in Hlk ];
  try done; eauto.

(** Comparisons of the goal that the context decides. *)
Ltac zcompare :=
  repeat match goal with
         | |- context [?a <=? ?b] => destruct (Z.leb_spec a b); try lia
         | |- context [?a <? ?b] => destruct (Z.ltb_spec a b); try lia
         end.
