(* ===== verification/NodeId.v ===== *)
(** * Node identifiers ([packages/core/identity/src/node_id.rs])

    A node id is a [u32] read as four bytes, called layers: layer 3 is the
    first geographic byte, layer 0 the index of the node in its group. *)

From S2P Require Import Prelude.

Abbreviation NodeId := Z (only parsing).

Inductive NodeSegment :=
| Public
| Private (n : Z).

Definition segment (self : NodeId) : NodeSegment := Public.

Definition distance (self other : NodeId) : Z := Z.lxor self other.

(** [u32::leading_zeros]. *)
Definition leading_zeros32 (x : Z) : Z := if x =? 0 then 32 else 31 - Z.log2 x.

Definition distance_bits (self other : NodeId) : Z :=
  let d := distance self other in
  wrap 8 (32 - leading_zeros32 d).

Definition bucket_index (self : NodeId) : Z := wrap 8 (32 - leading_zeros32 self).

(** The byte that [layer] returns once its assertion passed. *)
Definition byte_at (self : NodeId) (index : Z) : Z := wrap 8 (Z.shiftr self (8 * index)).

Definition layer (self : NodeId) (index : Z) : outcome Z :=
  if index <=? 3 then Done (byte_at self index) else Panic.

Definition build (geo1 geo2 group index : Z) : NodeId :=
  Z.lor (Z.lor (Z.lor (Z.shiftl geo1 (8 * 3)) (Z.shiftl geo2 (8 * 2))) (Z.shiftl group 8)) index.

Definition build2 (zone_id group index : Z) : NodeId :=
  Z.lor (Z.lor (Z.shiftl zone_id 16) (Z.shiftl group 8)) index.

Definition geo1 (self : NodeId) : Z := wrap 8 (Z.shiftr self (8 * 3)).
Definition geo2 (self : NodeId) : Z := wrap 8 (Z.shiftr self (8 * 2)).
Definition group (self : NodeId) : Z := wrap 8 (Z.shiftr self 8).
Definition index (self : NodeId) : Z := wrap 8 self.

(** The assertions of the four [layer] calls hold by their constant argument. *)
Definition eq_util_layer (self other : NodeId) : Z :=
  if negb (byte_at self 3 =? byte_at other 3) then 4
  else if negb (byte_at self 2 =? byte_at other 2) then 3
  else if negb (byte_at self 1 =? byte_at other 1) then 2
  else if negb (byte_at self 0 =? byte_at other 0) then 1
  else 0.

(** ** Bytes of an id *)

Lemma byte_at_u8 x i : u8 (byte_at x i).
Proof. apply wrap_range. lia. Qed.

Lemma layer_Done x i : i ≤ 3 → layer x i = Done (byte_at x i).
Proof. intros Hi. unfold layer. by rewrite (proj2 (Z.leb_le _ _) Hi). Qed.

Lemma byte_at_div x i : 0 ≤ i → byte_at x i = (x / 2 ^ (8 * i)) mod 2 ^ 8.
Proof. intros Hi. unfold byte_at, wrap. by rewrite Z.shiftr_div_pow2 by lia. Qed.

Lemma byte_at_lxor x y i :
  0 ≤ i → byte_at (Z.lxor x y) i = Z.lxor (byte_at x i) (byte_at y i).
Proof.
  intros Hi. unfold byte_at. rewrite Z.shiftr_lxor, !wrap_land by lia.
  apply Z.bits_inj'. intros k Hk.
  rewrite !Z.land_spec, !Z.lxor_spec, !Z.land_spec.
  by destruct (Z.testbit (Z.ones 8) k), (Z.testbit (Z.shiftr x (8 * i)) k),
    (Z.testbit (Z.shiftr y (8 * i)) k).
Qed.

(** An id is the value of its four bytes. *)
Lemma id_bytes x :
  u32 x → x = byte_at x 3 * 2 ^ 24 + byte_at x 2 * 2 ^ 16 + byte_at x 1 * 2 ^ 8 + byte_at x 0.
Proof.
  intros Hx. unfold u32 in Hx. rewrite !byte_at_div by lia.
  change (8 * 3) with 24. change (8 * 2) with 16. change (8 * 1) with 8. change (8 * 0) with 0.
  change (2 ^ 24) with 16777216. change (2 ^ 16) with 65536. change (2 ^ 8) with 256.
  change (2 ^ 0) with 1. change (2 ^ 32) with 4294967296 in Hx.
  rewrite Z.div_1_r.
  pose proof (Z.div_mod x 256). pose proof (Z.div_mod (x / 256) 256).
  pose proof (Z.div_mod (x / 256 / 256) 256).
  replace (x / 65536) with (x / 256 / 256) by (by rewrite Z.div_div by lia).
  replace (x / 16777216) with (x / 256 / 256 / 256) by (by rewrite !Z.div_div by lia).
  assert (0 ≤ x / 256 / 256 / 256 < 256).
  { rewrite !Z.div_div by lia. change (256 * (256 * 256)) with 16777216.
    split; [apply Z.div_pos; lia | apply Z.div_lt_upper_bound; lia]. }
  rewrite (Z.mod_small (x / 256 / 256 / 256)) by done. lia.
Qed.

Lemma build_sum a b c d :
  u8 b → u8 c → u8 d → build a b c d = a * 2 ^ 24 + b * 2 ^ 16 + c * 2 ^ 8 + d.
Proof.
  intros Hb Hc Hd. unfold u8 in *. change (2 ^ 8) with 256 in *. unfold build.
  change (8 * 3) with (16 + 8). change (8 * 2) with (8 + 8).
  rewrite <- !Z.shiftl_shiftl by lia. rewrite <- !Z.shiftl_lor.
  rewrite <- !(Z.shiftl_shiftl _ 8 8) by lia.
  replace (Z.shiftl (Z.shiftl a 16) 8) with (Z.shiftl (Z.shiftl (Z.shiftl a 8) 8) 8)
    by (rewrite !Z.shiftl_shiftl by lia; done).
  rewrite <- !Z.shiftl_lor.
  rewrite (lor_shiftl_add _ d) by lia.
  rewrite (lor_shiftl_add _ c) by lia.
  rewrite (lor_shiftl_add _ b) by lia. lia.
Qed.

Lemma build_bytes a b c d :
  u8 a → u8 b → u8 c → u8 d →
  geo1 (build a b c d) = a ∧ geo2 (build a b c d) = b ∧
  group (build a b c d) = c ∧ index (build a b c d) = d.
Proof.
  intros Ha Hb Hc Hd. rewrite build_sum by done. unfold u8 in *.
  unfold geo1, geo2, group, index, wrap.
  rewrite !Z.shiftr_div_pow2 by lia.
  change (8 * 3) with 24. change (8 * 2) with 16.
  change (2 ^ 24) with 16777216. change (2 ^ 16) with 65536. change (2 ^ 8) with 256 in *.
  repeat split.
  - rewrite (Z.mod_small (_ / _)); [symmetry; apply Z.div_unique with (r := b * 65536 + c * 256 + d); lia|].
    split; [apply Z.div_pos; lia | apply Z.div_lt_upper_bound; lia].
  - symmetry. apply Z.mod_unique with (q := a); [lia|].
    symmetry. apply Z.div_unique with (r := c * 256 + d); lia.
  - symmetry. apply Z.mod_unique with (q := a * 256 + b); [lia|].
    symmetry. apply Z.div_unique with (r := d); lia.
  - symmetry. apply Z.mod_unique with (q := a * 65536 + b * 256 + c); lia.
Qed.

(** ** The common prefix of two ids *)

Lemma eq_util_layer_range x y : 0 ≤ eq_util_layer x y ≤ 4.
Proof. unfold eq_util_layer. repeat case_match; lia. Qed.

Lemma eq_util_layer_sym x y : eq_util_layer x y = eq_util_layer y x.
Proof.
  unfold eq_util_layer.
  by rewrite (Z.eqb_sym (byte_at x 3)), (Z.eqb_sym (byte_at x 2)),
    (Z.eqb_sym (byte_at x 1)), (Z.eqb_sym (byte_at x 0)).
Qed.

(** [eq_util_layer] is [k]: the ids agree on every layer from [k] up and
    differ on layer [k - 1]. *)
Lemma eq_util_layer_spec x y k :
  eq_util_layer x y = k →
  (∀ i, k ≤ i ≤ 3 → byte_at x i = byte_at y i) ∧
  (0 < k → byte_at x (k - 1) ≠ byte_at y (k - 1)).
Proof.
  unfold eq_util_layer. intros <-.
  destruct (Z.eqb_spec (byte_at x 3) (byte_at y 3)) as [H3|H3]; cbn [negb].
  2:{ split; [lia|]. intros _. exact H3. }
  destruct (Z.eqb_spec (byte_at x 2) (byte_at y 2)) as [H2|H2]; cbn [negb].
  2:{ split; [|intros _; exact H2]. intros i Hi. by assert (i = 3) as -> by lia. }
  destruct (Z.eqb_spec (byte_at x 1) (byte_at y 1)) as [H1|H1]; cbn [negb].
  2:{ split; [|intros _; exact H1]. intros i Hi.
      assert (i = 3 ∨ i = 2) as [-> | ->] by lia; assumption. }
  destruct (Z.eqb_spec (byte_at x 0) (byte_at y 0)) as [H0|H0]; cbn [negb].
  2:{ split; [|intros _; exact H0]. intros i Hi.
      assert (i = 3 ∨ i = 2 ∨ i = 1) as [-> | [-> | ->]] by lia; assumption. }
  split; [|lia]. intros i Hi.
  assert (i = 3 ∨ i = 2 ∨ i = 1 ∨ i = 0) as [-> | [-> | [-> | ->]]] by lia; assumption.
Qed.

Lemma eq_util_layer_zero x y : u32 x → u32 y → eq_util_layer x y = 0 ↔ x = y.
Proof.
  intros Hx Hy. split.
  - intros H0. destruct (eq_util_layer_spec _ _ _ H0) as [Hall _].
    rewrite (id_bytes x Hx), (id_bytes y Hy).
    by rewrite (Hall 3), (Hall 2), (Hall 1), (Hall 0) by lia.
  - intros ->. unfold eq_util_layer. by rewrite !Z.eqb_refl.
Qed.

(** The bytes determine [eq_util_layer] uniquely. *)
Lemma eq_util_layer_unique x y k :
  0 ≤ k ≤ 4 →
  (∀ i, k ≤ i ≤ 3 → byte_at x i = byte_at y i) →
  (0 < k → byte_at x (k - 1) ≠ byte_at y (k - 1)) →
  eq_util_layer x y = k.
Proof.
  intros Hk Heq Hne. pose proof (eq_util_layer_range x y).
  destruct (eq_util_layer_spec x y _ eq_refl) as [Heq' Hne'].
  destruct (Z.lt_trichotomy (eq_util_layer x y) k) as [?|[?|?]]; [|done|].
  - destruct Hne; [lia|]. apply Heq'. lia.
  - destruct Hne'; [lia|]. apply Heq. lia.
Qed.

Lemma eq_util_layer_ultrametric x y z :
  eq_util_layer x z ≤ Z.max (eq_util_layer x y) (eq_util_layer y z).
Proof.
  destruct (eq_util_layer_spec x y _ eq_refl) as [Hxy _].
  destruct (eq_util_layer_spec y z _ eq_refl) as [Hyz _].
  destruct (eq_util_layer_spec x z _ eq_refl) as [_ Hne].
  pose proof (eq_util_layer_range x z). pose proof (eq_util_layer_range x y).
  pose proof (eq_util_layer_range y z).
  destruct (decide (eq_util_layer x z ≤ Z.max (eq_util_layer x y) (eq_util_layer y z))); [done|].
  exfalso. apply Hne; [lia|]. rewrite Hxy, Hyz by lia. done.
Qed.

(** ** Distance *)

Lemma leading_zeros32_range x : u32 x → 0 ≤ leading_zeros32 x ≤ 32.
Proof.
  intros Hx. unfold leading_zeros32. destruct (Z.eqb_spec x 0); [lia|].
  unfold u32 in Hx. pose proof (Z.log2_nonneg x).
  assert (Z.log2 x < 32) by (apply Z.log2_lt_pow2; lia). lia.
Qed.

Lemma distance_u32 x y : u32 x → u32 y → u32 (distance x y).
Proof. intros. apply lxor_range; [lia|done|done]. Qed.

Lemma distance_bits_log2 x y :
  u32 x → u32 y → x ≠ y → distance_bits x y = Z.log2 (Z.lxor x y) + 1.
Proof.
  intros Hx Hy Hne. unfold distance_bits, distance.
  pose proof (leading_zeros32_range _ (distance_u32 x y Hx Hy)) as Hr. unfold distance in Hr.
  rewrite wrap_small by (change (2 ^ 8) with 256; lia).
  unfold leading_zeros32. destruct (Z.eqb_spec (Z.lxor x y) 0) as [H0|]; [|lia].
  destruct Hne. by apply lxor_eq_iff.
Qed.

Lemma byte_at_testbit x i j :
  0 ≤ i → 0 ≤ j < 8 → Z.testbit (byte_at x i) j = Z.testbit x (8 * i + j).
Proof.
  intros Hi Hj. unfold byte_at, wrap.
  rewrite Z.mod_pow2_bits_low by lia. rewrite Z.shiftr_spec by lia. f_equal. lia.
Qed.

(** Two ids have the same byte exactly when their distance has no bit there. *)
Lemma byte_at_eq_distance x y i :
  0 ≤ i →
  byte_at x i = byte_at y i ↔ ∀ j, 0 ≤ j < 8 → Z.testbit (Z.lxor x y) (8 * i + j) = false.
Proof.
  intros Hi. split.
  - intros Heq j Hj. rewrite Z.lxor_spec, <- !byte_at_testbit, Heq by done. apply xorb_nilpotent.
  - intros Hbits. apply Z.bits_inj'. intros j Hj. destruct (decide (j < 8)).
    + rewrite !byte_at_testbit by lia. specialize (Hbits j ltac:(lia)).
      rewrite Z.lxor_spec in Hbits. by apply xorb_eq.
    + unfold byte_at, wrap. by rewrite !Z.mod_pow2_bits_high by lia.
Qed.

(** The layer at which two nodes route to each other is the XOR distance
    counted in bytes: [eq_util_layer] is [distance_bits] divided by eight and
    rounded up, so it is zero only for equal ids and four when the highest
    bytes differ. *)
Theorem eq_util_layer_distance_bits (x y : NodeId) :
  u32 x → u32 y → eq_util_layer x y = (distance_bits x y + 7) / 8.
Proof.
  intros Hx Hy. destruct (decide (x = y)) as [<-|Hne].
  { unfold distance_bits, distance. rewrite Z.lxor_nilpotent.
    unfold eq_util_layer. by rewrite !Z.eqb_refl. }
  rewrite distance_bits_log2 by done.
  assert (0 < Z.lxor x y < 2 ^ 32) as Hd.
  { pose proof (distance_u32 x y Hx Hy) as H. unfold u32, distance in H.
    assert (Z.lxor x y ≠ 0) by (by rewrite lxor_eq_iff). lia. }
  assert (0 ≤ Z.log2 (Z.lxor x y) < 32) as Hlog.
  { split; [apply Z.log2_nonneg | apply Z.log2_lt_pow2; lia]. }
  set (b := Z.log2 (Z.lxor x y)) in *.
  replace ((b + 1 + 7) / 8) with (b / 8 + 1) by (rewrite <- Z.div_add by lia; f_equal; lia).
  pose proof (Z.div_mod b 8 ltac:(lia)) as Hb. pose proof (Z.mod_pos_bound b 8 ltac:(lia)) as Hm.
  apply eq_util_layer_unique; [lia | |].
  - intros i Hi. apply byte_at_eq_distance; [lia|]. intros j Hj.
    apply Z.bits_above_log2; [lia|]. fold b. lia.
  - intros _ Heq. replace (b / 8 + 1 - 1) with (b / 8) in Heq by lia.
    rewrite byte_at_eq_distance in Heq by (apply Z.div_pos; lia).
    specialize (Heq (b mod 8) Hm). rewrite <- Hb in Heq. unfold b in Heq.
    rewrite Z.bit_log2 in Heq by lia. done.
Qed.

Lemma eq_util_layer_distance_bits_witness :
  eq_util_layer 66051 65796 = (distance_bits 66051 65796 + 7) / 8 ∧ eq_util_layer 66051 65796 = 2.
Proof.
  split; [|reflexivity]. apply (eq_util_layer_distance_bits 66051 65796); unfold u32; lia.
Defined.

(** The four bytes of a node id are its coordinates: an id is rebuilt
    from [geo1], [geo2], [group] and [index], an id built from four bytes
    gives those bytes back, also through [layer] (3 down to 0), and [build2]
    is [build] with the two location bytes packed into the zone id. *)
Theorem build_roundtrip (x a b c d : Z) :
  u32 x → u8 a → u8 b → u8 c → u8 d →
  build (geo1 x) (geo2 x) (group x) (index x) = x ∧
  layer (build a b c d) 3 = Done a ∧ layer (build a b c d) 2 = Done b ∧
  layer (build a b c d) 1 = Done c ∧ layer (build a b c d) 0 = Done d ∧
  build2 (a * 256 + b) c d = build a b c d.
Proof.
  intros Hx Ha Hb Hc Hd. destruct (build_bytes a b c d) as (H1 & H2 & H3 & H4); [done..|].
  split_and!.
  2-4: by rewrite layer_Done by lia; f_equal.
  - rewrite build_sum; [|apply wrap_range; lia..].
    symmetry. etransitivity; [apply (id_bytes x Hx)|]. unfold geo1, geo2, group, index, byte_at.
    replace (8 * 0) with 0 by lia. rewrite Z.shiftr_0_r. done.
  - rewrite layer_Done by lia. f_equal. rewrite <- H4 at 2. unfold byte_at, index.
    by rewrite Z.mul_0_r, Z.shiftr_0_r.
  - unfold build, build2. do 2 f_equal. unfold u8 in *.
    change 256 with (2 ^ 8). rewrite <- (lor_shiftl_add a b 8) by lia. by rewrite Z.shiftl_lor, Z.shiftl_shiftl by lia.
Qed.

Lemma build_roundtrip_witness :
  build (geo1 66051) (geo2 66051) (group 66051) (index 66051) = 66051 ∧ layer (build 1 2 3 4) 3 = Done 1.
Proof.
  destruct (build_roundtrip 66051 1 2 3 4) as (H1 & H2 & _); try (unfold u32, u8; lia). by split.
Defined.
