(* ===== verification/ConnId.v ===== *)
(** * Connection identifiers ([packages/core/identity/src/conn_id.rs])

    [PartialEq], [Ord] and [Hash] of a [ConnId] look at the session and the
    direction and ignore the protocol: equality of connections is coarser than
    equality of records. [conn_key] is the part they look at; a [HashMap] keyed
    by [ConnId] is a [gmap] keyed by it. *)

From S2P Require Import Prelude.

Inductive ConnDirection := Outgoing | Incoming.

#[global] Instance ConnDirection_eq_dec : EqDecision ConnDirection.
Proof. solve_decision. Defined.

Definition direction_u8 (d : ConnDirection) : Z :=
  match d with Outgoing => 0 | Incoming => 1 end.

#[global] Instance ConnDirection_countable : Countable ConnDirection.
Proof.
  refine (inj_countable' (λ d, match d with Outgoing => false | Incoming => true end)
            (λ b : bool, if b then Incoming else Outgoing) _).
  by intros [].
Defined.

Record ConnId := mkConnId {
  protocol : Z;
  direction : ConnDirection;
  session : Z;
}.

#[global] Instance ConnId_inhabited : Inhabited ConnId := populate (mkConnId 0 Outgoing 0).

Definition from_raw (p : Z) (d : ConnDirection) (s : Z) : ConnId := mkConnId p d s.
Definition from_out (p s : Z) : ConnId := from_raw p Outgoing s.
Definition from_in (p s : Z) : ConnId := from_raw p Incoming s.

Definition direction_eqb (a b : ConnDirection) : bool := bool_decide (a = b).

Definition is_outgoing (c : ConnId) : bool := direction_eqb (direction c) Outgoing.

(** [PartialEq::eq] *)
Definition conn_eqb (a b : ConnId) : bool :=
  (session a =? session b) && direction_eqb (direction a) (direction b).

(** The derived [Ord] of [ConnDirection]: the order of the variants. *)
Definition direction_cmp (a b : ConnDirection) : comparison :=
  direction_u8 a ?= direction_u8 b.

(** [Ord::cmp] *)
Definition conn_cmp (a b : ConnId) : comparison :=
  if session a =? session b then direction_cmp (direction a) (direction b)
  else session a ?= session b.

(** [Hash::hash]: what is written to the hasher. *)
Definition conn_hash (c : ConnId) : list Z := [direction_u8 (direction c); session c].

(** ** Equality of connections *)

Abbreviation ConnKey := (ConnDirection * Z)%type (only parsing).

Definition conn_key (c : ConnId) : ConnKey := (direction c, session c).

#[global] Instance conn_equiv : Equiv ConnId := λ a b, conn_key a = conn_key b.

#[global] Instance conn_equiv_equivalence : Equivalence (≡@{ConnId}).
Proof. split; repeat intro; unfold equiv, conn_equiv in *; congruence. Qed.

#[global] Instance conn_key_proper : Proper ((≡) ==> (=)) conn_key.
Proof. by intros a b. Qed.

Lemma conn_eqb_key a b : conn_eqb a b = true ↔ conn_key a = conn_key b.
Proof.
  unfold conn_eqb, conn_key, direction_eqb. rewrite andb_true_iff, Z.eqb_eq, bool_decide_eq_true.
  split; [by intros [-> ->] | by intros [= -> ->]].
Qed.

Lemma conn_eqb_key_false a b : conn_eqb a b = false ↔ conn_key a ≠ conn_key b.
Proof. rewrite <- conn_eqb_key. by destruct (conn_eqb a b). Qed.

#[global] Instance conn_eqb_proper : Proper ((≡) ==> (≡) ==> (=)) conn_eqb.
Proof.
  intros a b Hab c d Hcd. unfold equiv, conn_equiv in *.
  destruct (conn_eqb b d) eqn:E.
  - apply conn_eqb_key in E. apply conn_eqb_key. congruence.
  - apply conn_eqb_key_false in E. apply conn_eqb_key_false. congruence.
Qed.

Lemma conn_cmp_eq a b : conn_cmp a b = Eq ↔ conn_key a = conn_key b.
Proof.
  unfold conn_cmp, conn_key, direction_cmp.
  destruct (Z.eqb_spec (session a) (session b)) as [->|Hne].
  - rewrite Z.compare_eq_iff. destruct (direction a), (direction b); simpl; split; congruence || lia.
  - rewrite Z.compare_eq_iff. split; congruence.
Qed.

(** The key as an integer pair, ordered lexicographically by session. *)
Lemma conn_cmp_lt a b :
  conn_cmp a b = Lt ↔
  session a < session b ∨
  session a = session b ∧ direction_u8 (direction a) < direction_u8 (direction b).
Proof.
  unfold conn_cmp, direction_cmp.
  destruct (Z.eqb_spec (session a) (session b)) as [->|Hne]; rewrite Z.compare_lt_iff; lia.
Qed.

Lemma conn_cmp_antisym a b : conn_cmp b a = CompOpp (conn_cmp a b).
Proof.
  unfold conn_cmp, direction_cmp. rewrite Z.eqb_sym.
  case_match; apply Z.compare_antisym.
Qed.

(** [Eq], [Ord] and [Hash] of [ConnId] agree with each other: [cmp]
    answers [Equal] exactly on equal connections, is antisymmetric and
    transitive, and equal connections feed the same bytes to a hasher, so
    maps keyed by connections cannot hold one connection twice. The protocol
    takes no part. *)
Theorem conn_id_order_coherent :
  (∀ a b, conn_cmp a b = Eq ↔ conn_eqb a b = true) ∧
  (∀ a b, conn_cmp b a = CompOpp (conn_cmp a b)) ∧
  (∀ a b c, conn_cmp a b = Lt → conn_cmp b c = Lt → conn_cmp a c = Lt) ∧
  (∀ a b, conn_eqb a b = true ↔ conn_hash a = conn_hash b) ∧
  (∀ p q d s, conn_eqb (from_raw p d s) (from_raw q d s) = true).
Proof.
  split_and!.
  - intros a b. by rewrite conn_cmp_eq, conn_eqb_key.
  - apply conn_cmp_antisym.
  - intros a b c. rewrite !conn_cmp_lt. lia.
  - intros a b. rewrite conn_eqb_key. unfold conn_key, conn_hash.
    destruct (direction a), (direction b); simpl; split; congruence.
  - intros p q d s. by apply conn_eqb_key.
Qed.
