(* ===== verification/Metric.v ===== *)
(** * Route metrics and paths
    ([packages/core/router/src/core/table/metric.rs], [path.rs])

    The [hops] of a metric list the nodes of the path in reverse: the
    destination first, the neighbour that the path goes over last. *)

From S2P Require Import Prelude NodeId ConnId.

Definition BANDWIDTH_LIMIT : Z := 10000.
Definition BANDWIDTH_SCORE_PENALTY : Z := 1000.
Definition HOP_PLUS_RTT : Z := 10.

Definition concat_hops (a b : list NodeId) : list NodeId := a ++ b.

Record Metric := mkMetric {
  latency : Z;           (* u16 *)
  hops : list NodeId;
  bandwidth : Z;         (* u32 *)
}.

Definition contain_in_hops (m : Metric) (node_id : NodeId) : bool :=
  bool_decide (node_id ∈ hops m).

(** The sum of the latencies wraps at 16 bits (release build). *)
Definition metric_add (self other : Metric) : Metric :=
  mkMetric (wrap 16 (latency self + latency other))
           (concat_hops (hops self) (hops other))
           (Z.min (bandwidth self) (bandwidth other)).

Definition score (m : Metric) : Z :=
  let based_score := wrap 32 (latency m + wrap 32 (wrap 32 (Z.of_nat (length (hops m))) * HOP_PLUS_RTT)) in
  if BANDWIDTH_LIMIT <=? bandwidth m then based_score
  else wrap 32 (based_score + BANDWIDTH_SCORE_PENALTY).

Definition over_node (m : Metric) : outcome NodeId := expect (last (hops m)).
Definition dest_node (m : Metric) : outcome NodeId := expect (head (hops m)).

(** [Ord] of [Metric] *)
Definition metric_cmp (a b : Metric) : comparison := score a ?= score b.

(** [PartialEq] of [Metric] *)
Definition metric_eqb (a b : Metric) : bool := score a =? score b.

Record Path := mkPath {
  path_conn : ConnId;
  path_metric : Metric;
}.

#[global] Instance Metric_inhabited : Inhabited Metric := populate (mkMetric 0 [] 0).
#[global] Instance Path_inhabited : Inhabited Path := populate (mkPath inhabitant inhabitant).

(** [Ord] of [Path] *)
Definition path_cmp (a b : Path) : comparison := metric_cmp (path_metric a) (path_metric b).

(** The sort key behind [path_cmp]. *)
Definition path_score (p : Path) : Z := score (path_metric p).

Lemma path_cmp_score a b : path_cmp a b = (path_score a ?= path_score b).
Proof. done. Qed.

(** ** Lemmas *)

Lemma over_node_Done m n : over_node m = Done n ↔ last (hops m) = Some n.
Proof. apply expect_Done. Qed.

Lemma dest_node_Done m n : dest_node m = Done n ↔ head (hops m) = Some n.
Proof. apply expect_Done. Qed.

Lemma over_node_nonempty m : hops m ≠ [] → ∃ n, over_node m = Done n.
Proof.
  intros Hne. destruct (last (hops m)) as [n|] eqn:E.
  - exists n. by apply over_node_Done.
  - by apply last_None in E.
Qed.

Lemma dest_node_nonempty m : hops m ≠ [] → ∃ n, dest_node m = Done n.
Proof. intros Hne. destruct m as [? [|n h] ?]; [done|]. by exists n. Qed.

Lemma metric_add_hops a b : hops (metric_add a b) = hops a ++ hops b.
Proof. done. Qed.

Lemma metric_add_over_node a b n :
  over_node b = Done n → over_node (metric_add a b) = Done n.
Proof.
  rewrite !over_node_Done, metric_add_hops. intros H. rewrite last_app, H. done.
Qed.

Lemma metric_add_nonempty a b : hops b ≠ [] → hops (metric_add a b) ≠ [].
Proof. rewrite metric_add_hops. intros Hne [_ ?]%app_eq_nil. done. Qed.

Lemma score_u32 m : u32 (score m).
Proof. unfold score, u32. case_match; by apply wrap_range. Qed.

(** Without overflow the score is the plain sum. *)
Lemma score_plain m :
  u16 (latency m) → (Z.of_nat (length (hops m)) < 2 ^ 24) →
  score m = latency m + Z.of_nat (length (hops m)) * HOP_PLUS_RTT
            + (if BANDWIDTH_LIMIT <=? bandwidth m then 0 else BANDWIDTH_SCORE_PENALTY).
Proof.
  intros Hl Hh. unfold u16 in Hl. unfold score, HOP_PLUS_RTT, BANDWIDTH_SCORE_PENALTY.
  change (2 ^ 16) with 65536 in Hl. change (2 ^ 24) with 16777216 in Hh.
  rewrite (wrap_small 32 (Z.of_nat _)) by (change (2 ^ 32) with 4294967296; lia).
  rewrite (wrap_small 32 (Z.of_nat _ * _)) by (change (2 ^ 32) with 4294967296; lia).
  rewrite (wrap_small 32 (latency m + _)) by (change (2 ^ 32) with 4294967296; lia).
  case_match; [lia|].
  rewrite wrap_small by (change (2 ^ 32) with 4294967296; lia). lia.
Qed.

(** Extending a path over a neighbour never makes it look better: when
    neither the latency sum overflows 16 bits nor the hop count 24 bits, the
    score of the sum is at least the score of the advertised path plus ten per
    added hop and the link's latency, and the bandwidth is the bottleneck. *)
Theorem metric_add_score (a b : Metric) :
  u16 (latency a) → u16 (latency b) → u16 (latency a + latency b) →
  Z.of_nat (length (hops a) + length (hops b)) < 2 ^ 24 →
  score a + latency b + HOP_PLUS_RTT * Z.of_nat (length (hops b)) ≤ score (metric_add a b) ∧
  bandwidth (metric_add a b) = Z.min (bandwidth a) (bandwidth b).
Proof.
  intros Ha Hb Hab Hlen. split; [|done].
  assert (latency (metric_add a b) = latency a + latency b) as Hlat
    by (cbn; by apply wrap_small).
  rewrite (score_plain (metric_add a b)).
  2:{ by rewrite Hlat. }
  2:{ rewrite metric_add_hops, length_app. lia. }
  rewrite score_plain by (done || lia).
  rewrite Hlat, metric_add_hops, length_app. cbn [bandwidth metric_add].
  unfold HOP_PLUS_RTT, BANDWIDTH_SCORE_PENALTY.
  destruct (Z.leb_spec BANDWIDTH_LIMIT (bandwidth a)), (Z.leb_spec BANDWIDTH_LIMIT (Z.min (bandwidth a) (bandwidth b))); lia.
Qed.

Lemma metric_add_score_witness :
  score (mkMetric 5 [3] 20000) + 7 + HOP_PLUS_RTT * Z.of_nat (length [2])
    ≤ score (metric_add (mkMetric 5 [3] 20000) (mkMetric 7 [2] 900)) ∧
  bandwidth (metric_add (mkMetric 5 [3] 20000) (mkMetric 7 [2] 900)) = Z.min 20000 900.
Proof.
  apply (metric_add_score (mkMetric 5 [3] 20000) (mkMetric 7 [2] 900)); unfold u16; simpl; lia.
Defined.
