(* ===== verification/Paths.v ===== *)
(** * Lists of paths

    [Dest] ([table/dest.rs]) and [RegistryDest] ([registry/dest.rs]) both keep
    a [Vec<Path>] sorted by score with at most one path per connection. The
    vector operations they share are here, with the abstraction of such a
    vector to a finite map from connections to metrics. *)

From S2P Require Import Prelude NodeId ConnId Metric.

Definition path_key (p : Path) : ConnKey := conn_key (path_conn p).

(** [index_of]: the first path over the connection. *)
Definition index_of (goal : ConnId) (ps : list Path) : option nat :=
  fst <$> list_find (λ p, conn_eqb (path_conn p) goal = true) ps.

(** Overwrite the metric of the path over the connection, or push a new one. *)
Definition upsert (over : ConnId) (m : Metric) (ps : list Path) : list Path :=
  match index_of over ps with
  | Some index => alter (λ slot, mkPath (path_conn slot) m) index ps
  | None => ps ++ [mkPath over m]
  end.

(** [paths.sort()] *)
Definition sort_paths (ps : list Path) : list Path := stable_sort path_score ps.

(** The loops of [next], [next_path] and [best_for]. *)
Fixpoint next_in (excepts : list NodeId) (ps : list Path) : outcome (option (ConnId * NodeId)) :=
  match ps with
  | [] => Done None
  | path :: ps =>
      n ← over_node (path_metric path);
      if negb (bool_decide (n ∈ excepts)) then Done (Some (path_conn path, n))
      else next_in excepts ps
  end.

Fixpoint next_path_in (excepts : list NodeId) (ps : list Path) : outcome (option Path) :=
  match ps with
  | [] => Done None
  | path :: ps =>
      n ← over_node (path_metric path);
      if negb (bool_decide (n ∈ excepts)) then Done (Some path)
      else next_path_in excepts ps
  end.

Fixpoint best_for_in (neighbour_id : NodeId) (ps : list Path) : option Path :=
  match ps with
  | [] => None
  | path :: ps =>
      if negb (contain_in_hops (path_metric path) neighbour_id) then Some path
      else best_for_in neighbour_id ps
  end.

(** The metrics of a sync as paths over [metric]; a later entry for an index
    replaces an earlier one. *)
Definition sync_cached (metric : Metric) (sync : list (Z * Metric)) : gmap Z Metric :=
  foldl (λ cached '(index, s_metric), <[index := metric_add s_metric metric]> cached) ∅ sync.

(** ** Well-formed path lists *)

Record paths_wf (ps : list Path) : Prop := {
  wf_sorted : StronglySorted (key_le path_score) ps;
  wf_keys : NoDup (path_key <$> ps);
  wf_hops : Forall (λ p, hops (path_metric p) ≠ []) ps;
}.

Lemma paths_wf_nil : paths_wf [].
Proof. split; constructor. Qed.

(** The finite map a path list stands for. *)
Definition paths_map (ps : list Path) : gmap ConnKey Metric :=
  list_to_map ((λ p, (path_key p, path_metric p)) <$> ps).

(** The connection of the best path. *)
Definition best_conn (ps : list Path) : option ConnId := path_conn <$> head ps.

Definition best_key (ps : list Path) : option ConnKey := conn_key <$> best_conn ps.

Lemma path_pairs_keys ps : ((λ p, (path_key p, path_metric p)) <$> ps).*1 = path_key <$> ps.
Proof. rewrite <- list_fmap_compose. done. Qed.

Lemma paths_map_perm ps qs :
  NoDup (path_key <$> ps) → ps ≡ₚ qs → paths_map ps = paths_map qs.
Proof.
  intros Hnd Hp. apply list_to_map_proper; [by rewrite path_pairs_keys|]. by rewrite Hp.
Qed.

Lemma paths_map_lookup ps k m :
  NoDup (path_key <$> ps) →
  paths_map ps !! k = Some m ↔ ∃ p, p ∈ ps ∧ path_key p = k ∧ path_metric p = m.
Proof.
  intros Hnd. unfold paths_map.
  rewrite <- elem_of_list_to_map by (by rewrite path_pairs_keys).
  rewrite list_elem_of_fmap. split.
  - intros (p & [= -> ->] & Hp). eauto.
  - intros (p & Hp & <- & <-). eauto.
Qed.

Lemma paths_map_None ps k : paths_map ps !! k = None ↔ k ∉ path_key <$> ps.
Proof. unfold paths_map. by rewrite <- path_pairs_keys, not_elem_of_list_to_map. Qed.

Lemma paths_map_empty ps : paths_map ps = ∅ ↔ ps = [].
Proof.
  split; [|by intros ->]. destruct ps as [|p ps]; [done|]. unfold paths_map.
  rewrite fmap_cons, list_to_map_cons. intros H. by apply insert_non_empty in H.
Qed.

(** ** [index_of] *)

Lemma index_of_Some c ps i :
  index_of c ps = Some i →
  ∃ l1 p l2, ps = l1 ++ p :: l2 ∧ length l1 = i ∧ path_key p = conn_key c ∧
             conn_key c ∉ path_key <$> l1.
Proof.
  unfold index_of. intros ([j p] & Hf & ?)%fmap_Some. cbn in *; subst.
  apply list_find_Some in Hf as (Hj & Heq & Hbefore).
  exists (take j ps), p, (drop (S j) ps). split_and!.
  - by rewrite take_drop_middle.
  - rewrite length_take. apply lookup_lt_Some in Hj. lia.
  - by apply conn_eqb_key.
  - intros (q & Hk & Hq)%list_elem_of_fmap.
    apply list_elem_of_lookup in Hq as [k Hq].
    apply lookup_take_Some in Hq as [Hq Hlt].
    eapply Hbefore; [exact Hq | done |]. apply conn_eqb_key. by symmetry.
Qed.

Lemma index_of_None c ps : index_of c ps = None ↔ conn_key c ∉ path_key <$> ps.
Proof.
  unfold index_of. rewrite fmap_None, list_find_None, Forall_forall, list_elem_of_fmap.
  setoid_rewrite conn_eqb_key. unfold path_key. split.
  - intros Hall (p & Hk & Hp). by apply (Hall p Hp).
  - intros Hno p Hp Hk. apply Hno. by exists p.
Qed.

Lemma index_of_zero c ps : index_of c ps = Some 0%nat ↔ best_key ps = Some (conn_key c).
Proof.
  destruct ps as [|p ps]; [done|].
  unfold index_of, best_key, best_conn. simpl.
  destruct (decide (conn_eqb (path_conn p) c = true)) as [Hc|Hc]; simpl.
  - apply conn_eqb_key in Hc. rewrite Hc. done.
  - split.
    + destruct (list_find _ ps) as [[]|]; simpl; congruence.
    + intros Hk%(inj Some). destruct Hc. by apply conn_eqb_key.
Qed.

Lemma alter_middle {A} (f : A → A) (l1 l2 : list A) x :
  alter f (length l1) (l1 ++ x :: l2) = l1 ++ f x :: l2.
Proof. induction l1 as [|y l1 IH]; [done|]. cbn. by rewrite <- IH. Qed.

(** ** Updates of the map *)

Lemma upsert_keys c m ps :
  NoDup (path_key <$> ps) → NoDup (path_key <$> upsert c m ps).
Proof.
  intros Hnd. unfold upsert. destruct (index_of c ps) as [i|] eqn:Hi.
  - apply index_of_Some in Hi as (l1 & p & l2 & -> & <- & Hk & _). rewrite alter_middle.
    by rewrite fmap_app, fmap_cons in *.
  - apply index_of_None in Hi. rewrite fmap_app. apply NoDup_app. split_and!; [done| |].
    + intros k Hk ->%list_elem_of_singleton. by apply Hi.
    + apply NoDup_singleton.
Qed.

(** What holds of every path, seen as a connection and a metric. *)
Definition every_path (Q : ConnKey → Metric → Prop) (ps : list Path) : Prop :=
  Forall (λ p, Q (path_key p) (path_metric p)) ps.

Lemma upsert_metrics (Q : ConnKey → Metric → Prop) c m ps :
  Q (conn_key c) m → every_path Q ps → every_path Q (upsert c m ps).
Proof.
  intros Hm Hps. unfold upsert. destruct (index_of c ps) as [i|] eqn:Hi.
  - apply index_of_Some in Hi as (l1 & p & l2 & -> & <- & Hk & _). rewrite alter_middle.
    apply Forall_app in Hps as [H1 [_ H2]%Forall_cons]. apply Forall_app; split; [done|].
    constructor; [|done]. cbn. unfold path_key in *. cbn. by rewrite Hk.
  - apply Forall_app; split; [done|]. by constructor.
Qed.

Lemma upsert_map c m ps : 
  NoDup (path_key <$> ps) → paths_map (upsert c m ps) = <[conn_key c := m]> (paths_map ps).
Proof.
  intros Hnd. unfold upsert. destruct (index_of c ps) as [i|] eqn:Hi.
  - apply index_of_Some in Hi as (l1 & p & l2 & -> & <- & Hk & Hl1). rewrite alter_middle.
    unfold paths_map. rewrite !fmap_app, !fmap_cons, !list_to_map_app, !list_to_map_cons.
    cbn [path_key path_conn path_metric].
    replace (path_key (mkPath (path_conn p) m)) with (conn_key c) by (by rewrite <- Hk).
    rewrite Hk. rewrite <- !insert_union_r; [by rewrite insert_insert_eq|..];
      apply not_elem_of_list_to_map; by rewrite path_pairs_keys.
  - apply index_of_None in Hi. unfold paths_map. rewrite fmap_app, list_to_map_app.
    cbn. rewrite insert_empty, <- insert_union_singleton_r; [done|].
    by apply paths_map_None in Hi.
Qed.

Lemma put_wf c m ps : hops m ≠ [] → paths_wf ps → paths_wf (sort_paths (upsert c m ps)).
Proof.
  intros Hm [Hs Hk Hh]. split.
  - apply stable_sort_sorted.
  - unfold sort_paths. rewrite stable_sort_perm. by apply upsert_keys.
  - unfold sort_paths. rewrite stable_sort_perm. by apply (upsert_metrics (λ _ m, hops m ≠ [])).
Qed.

Lemma put_metrics (Q : ConnKey → Metric → Prop) c m ps :
  Q (conn_key c) m → every_path Q ps → every_path Q (sort_paths (upsert c m ps)).
Proof. intros. unfold every_path, sort_paths. rewrite stable_sort_perm. by apply upsert_metrics. Qed.

Lemma put_map c m ps :
  paths_wf ps → paths_map (sort_paths (upsert c m ps)) = <[conn_key c := m]> (paths_map ps).
Proof.
  intros [Hs Hk Hh]. rewrite <- upsert_map by done. apply paths_map_perm.
  - unfold sort_paths. rewrite stable_sort_perm. by apply upsert_keys.
  - apply stable_sort_perm.
Qed.

Lemma put_nonempty c m ps : sort_paths (upsert c m ps) ≠ [].
Proof.
  intros H. assert (upsert c m ps ≡ₚ []) as Hp.
  { rewrite <- (stable_sort_perm path_score). fold (sort_paths (upsert c m ps)). by rewrite H. }
  apply Permutation_nil_r in Hp. unfold upsert in Hp. destruct (index_of c ps) as [i|] eqn:Hi.
  - apply index_of_Some in Hi as (l1 & p & l2 & -> & <- & _). rewrite alter_middle in Hp.
    by destruct l1.
  - by destruct ps.
Qed.

(** [paths.remove(index)] *)
Lemma remove_wf i ps : paths_wf ps → paths_wf (delete i ps).
Proof.
  intros [Hs Hk Hh]. split.
  - assert (∀ (l : list Path) j, StronglySorted (key_le path_score) l →
      StronglySorted (key_le path_score) (delete j l)) as Hdel.
    { intros l j Hl. revert j. induction Hl as [|x l Hl IH Hx]; intros [|j]; simpl;
        [constructor | constructor | done | constructor; [apply IH | by apply Forall_delete]]. }
    by apply Hdel.
  - rewrite list_fmap_delete. eapply sublist_NoDup; [done|apply sublist_delete].
  - by apply Forall_delete.
Qed.

Lemma remove_map c i ps :
  paths_wf ps → index_of c ps = Some i → paths_map (delete i ps) = delete (conn_key c) (paths_map ps).
Proof.
  intros [_ Hnd _] (l1 & p & l2 & -> & <- & Hk & Hl1)%index_of_Some.
  rewrite delete_middle. unfold paths_map.
  rewrite !fmap_app, fmap_cons, !list_to_map_app, list_to_map_cons, Hk.
  rewrite fmap_app, fmap_cons in Hnd. apply NoDup_app in Hnd as (_ & _ & [Hp2 _]%NoDup_cons).
  rewrite Hk in Hp2. rewrite delete_union, delete_insert_id.
  - rewrite delete_id; [done|]. apply not_elem_of_list_to_map. by rewrite path_pairs_keys.
  - apply not_elem_of_list_to_map. by rewrite path_pairs_keys.
Qed.

(** ** Lookups *)

(** The answer of [next]: the first path whose neighbour is allowed. *)
Definition next_answer (excepts : list NodeId) (ps : list Path) (r : option (ConnId * NodeId)) : Prop :=
  match r with
  | Some (c, n) =>
      ∃ l1 p l2, ps = l1 ++ p :: l2 ∧ path_conn p = c ∧ over_node (path_metric p) = Done n ∧
        (n ∉ excepts) ∧ Forall (λ q, ∃ n', over_node (path_metric q) = Done n' ∧ n' ∈ excepts) l1
  | None => Forall (λ q, ∃ n', over_node (path_metric q) = Done n' ∧ n' ∈ excepts) ps
  end.

Lemma next_in_answer excepts ps :
  Forall (λ p, hops (path_metric p) ≠ []) ps →
  ∃ r, next_in excepts ps = Done r ∧ next_answer excepts ps r.
Proof.
  induction 1 as [|p ps Hp Hps (r & Hr & IH)]; [exists None; split; [done|constructor]|].
  destruct (over_node_nonempty _ Hp) as [n Hn]. cbn [next_in]. rewrite Hn. cbn.
  case_bool_decide as Hex; cbn.
  - exists r. split; [done|]. destruct r as [[c n']|]; cbn in *.
    + destruct IH as (l1 & q & l2 & -> & ? & ? & ? & ?).
      exists (p :: l1), q, l2. split_and!; try done. constructor; eauto.
    + constructor; eauto.
  - exists (Some (path_conn p, n)). split; [done|]. exists [], p, ps.
    split_and!; try done.
Qed.

Lemma next_in_conn excepts ps c n :
  next_in excepts ps = Done (Some (c, n)) → is_Some (paths_map ps !! conn_key c).
Proof.
  intros H. destruct (paths_map ps !! conn_key c) eqn:E; [done|]. apply paths_map_None in E. exfalso.
  revert H E. induction ps as [|p ps IH]; cbn; [done|].
  destruct (over_node (path_metric p)) as [m|]; cbn; [|done].
  case_match; cbn; [|intros ??; apply IH; [done|set_solver]].
  intros [= <- <-] Hni. apply Hni. left.
Qed.

Lemma next_in_empty_excepts ps :
  Forall (λ p, hops (path_metric p) ≠ []) ps →
  next_in [] ps = Done (p ← head ps; n ← last (hops (path_metric p)); Some (path_conn p, n)).
Proof.
  intros Hps. destruct Hps as [|p ps Hp Hps]; [done|]. cbn.
  destruct (over_node_nonempty _ Hp) as [n Hn]. rewrite Hn. cbn.
  apply over_node_Done in Hn. by rewrite Hn.
Qed.

(** Nothing that [next] skipped for another reason than [excepts] is better. *)
Lemma next_answer_best excepts ps c n :
  StronglySorted (key_le path_score) ps →
  next_answer excepts ps (Some (c, n)) →
  ∃ p, p ∈ ps ∧ path_conn p = c ∧ over_node (path_metric p) = Done n ∧ (n ∉ excepts) ∧
    ∀ q n', q ∈ ps → over_node (path_metric q) = Done n' → n' ∉ excepts →
      path_score p ≤ path_score q.
Proof.
  intros Hs (l1 & p & l2 & -> & Hc & Hn & Hex & Hl1). exists p. split_and!; try done.
  { apply elem_of_app. right. left. }
  intros q n' [Hq|[->|Hq]%elem_of_cons]%elem_of_app Hn' Hex'.
  - rewrite Forall_forall in Hl1. destruct (Hl1 q Hq) as (n'' & Hn'' & ?). congruence.
  - done.
  - apply StronglySorted_app in Hs as (_ & _ & Hs).
    inversion Hs as [|? ? _ Hall]; subst. rewrite Forall_forall in Hall. by apply (Hall q).
Qed.

Lemma next_path_in_next excepts ps :
  next_in excepts ps =
  (r ← next_path_in excepts ps;
   match r with
   | Some p => n ← over_node (path_metric p); Done (Some (path_conn p, n))
   | None => Done None
   end).
Proof.
  induction ps as [|p ps IH]; [done|]. cbn.
  destruct (over_node (path_metric p)) as [n|] eqn:Hn; cbn; [|done].
  case_match; cbn; [by rewrite Hn|]. apply IH.
Qed.

Lemma best_for_in_Some node ps p :
  best_for_in node ps = Some p → p ∈ ps ∧ node ∉ hops (path_metric p).
Proof.
  induction ps as [|q ps IH]; cbn; [done|]. unfold contain_in_hops.
  case_bool_decide as Hin; cbn.
  - intros [? ?]%IH. split; [by right|done].
  - intros [= <-]. split; [left|done].
Qed.

Lemma best_for_in_None node ps :
  best_for_in node ps = None ↔ Forall (λ p, node ∈ hops (path_metric p)) ps.
Proof.
  induction ps as [|q ps IH]; cbn; [split; [constructor|done]|]. unfold contain_in_hops.
  rewrite Forall_cons. case_bool_decide as Hin; cbn.
  - rewrite IH. split; [by split|]. by intros [].
  - split; [done|]. by intros [].
Qed.

Lemma best_for_in_best node ps p :
  StronglySorted (key_le path_score) ps → best_for_in node ps = Some p →
  ∀ q, q ∈ ps → node ∉ hops (path_metric q) → path_score p ≤ path_score q.
Proof.
  induction 1 as [|x ps Hs IH Hx]; cbn; [done|]. unfold contain_in_hops.
  case_bool_decide as Hin; cbn.
  - intros Hb q [->|Hq]%elem_of_cons Hnq; [done|]. by apply IH.
  - intros [= <-] q [->|Hq]%elem_of_cons _; [done|].
    rewrite Forall_forall in Hx. by apply Hx.
Qed.

(** The dumps: one entry per neighbour. *)
Lemma dump_paths_total ps :
  Forall (λ p, hops (path_metric p) ≠ []) ps → ∀ acc : gmap NodeId Metric,
  ∃ d, foldM (λ acc p, n ← over_node (path_metric p); Done (<[n := path_metric p]> acc)) acc ps = Done d.
Proof.
  intros Hh. apply foldM_total. intros s p Hp. rewrite Forall_forall in Hh.
  destruct (over_node_nonempty _ (Hh p Hp)) as [n ->]. by eexists.
Qed.

(** ** Received metrics *)

Lemma sync_cached_nonempty metric sync i m :
  hops metric ≠ [] → sync_cached metric sync !! i = Some m → hops m ≠ [].
Proof.
  intros Hm. unfold sync_cached.
  assert (∀ acc : gmap Z Metric, (∀ i m, acc !! i = Some m → hops m ≠ []) →
    foldl (λ cached '(index, s_metric), <[index := metric_add s_metric metric]> cached) acc sync !! i = Some m →
    hops m ≠ []) as Hgen.
  { induction sync as [|[j s] sync IH]; cbn; intros acc Hacc; [apply Hacc|].
    apply IH. intros i' m'. rewrite lookup_insert_Some. intros [[_ <-]|[_ ?]]; [by apply metric_add_nonempty|].
    by eapply Hacc. }
  apply Hgen. intros i' m' H'. by rewrite lookup_empty in H'.
Qed.

Lemma sync_cached_source metric sync i m :
  sync_cached metric sync !! i = Some m → ∃ s, (i, s) ∈ sync ∧ m = metric_add s metric.
Proof.
  unfold sync_cached.
  assert (∀ (l : list (Z * Metric)) (acc : gmap Z Metric),
    foldl (λ cached '(index, s_metric), <[index := metric_add s_metric metric]> cached) acc l !! i = Some m →
    acc !! i = Some m ∨ ∃ s, (i, s) ∈ l ∧ m = metric_add s metric) as Hgen.
  { induction l as [|[j s] l IH]; cbn; intros acc H; [by left|].
    apply IH in H as [H|(s' & Hs' & ->)].
    - apply lookup_insert_Some in H as [[-> <-]|[_ ?]]; [|by left].
      right. exists s. split; [left|done].
    - right. exists s'. split; [by right|done]. }
  intros H. apply Hgen in H as [H|?]; [by rewrite lookup_empty in H|done].
Qed.

Lemma sync_cached_is_Some metric sync i m : (i, m) ∈ sync → is_Some (sync_cached metric sync !! i).
Proof.
  unfold sync_cached. intros Hin.
  assert (∀ (l : list (Z * Metric)) (acc : gmap Z Metric), is_Some (acc !! i) ∨ (i, m) ∈ l →
    is_Some (foldl (λ cached '(index, s_metric), <[index := metric_add s_metric metric]> cached) acc l !! i)) as Hgen; [|by apply Hgen; right].
  induction l as [|[j s] l IH]; cbn; intros acc [Ha|Hl]; [done|by apply elem_of_nil in Hl|..]; apply IH; rewrite lookup_insert_is_Some.
  - left. destruct (decide (j = i)); auto.
  - apply elem_of_cons in Hl as [[= -> ->]|Hl]; [by left; left|by right].
Qed.

(** ** Automation *)

Create HintDb paths.
#[export] Hint Resolve paths_wf_nil put_wf remove_wf wf_sorted wf_keys wf_hops
  metric_add_nonempty : paths.
