(* ===== verification/Dest.v ===== *)
(** * One destination of a routing table
    ([packages/core/router/src/core/table/dest.rs])

    A [Dest] keeps the known paths to one index of a layer, best first, and
    queues a delta whenever the connection of the best path changes. *)

From S2P Require Import Prelude NodeId ConnId Metric Paths.

Inductive DestDelta :=
| SetBestPath (conn : ConnId)
| DelBestPath.

Record Dest := mkDest {
  dest_paths : list Path;
  dest_deltas : list DestDelta;
}.

(** [Default] *)
Definition dest_default : Dest := mkDest [] [].
#[global] Instance Dest_inhabited : Inhabited Dest := populate dest_default.

(** [PartialEq] of [Option<ConnId>] *)
Definition opt_conn_eqb (a b : option ConnId) : bool :=
  match a, b with
  | Some a, Some b => conn_eqb a b
  | None, None => true
  | _, _ => false
  end.

(** The two branches that push a delta for the new best connection. *)
Definition best_delta (after_best_conn : option ConnId) : DestDelta :=
  match after_best_conn with
  | Some conn => SetBestPath conn
  | None => DelBestPath
  end.

Definition set_path (self : Dest) (over : ConnId) (metric : Metric) : Dest :=
  let pre_best_conn := best_conn (dest_paths self) in
  let paths := sort_paths (upsert over metric (dest_paths self)) in
  let after_best_conn := best_conn paths in
  let deltas :=
    if negb (opt_conn_eqb pre_best_conn after_best_conn)
    then dest_deltas self ++ [best_delta after_best_conn]
    else dest_deltas self in
  mkDest paths deltas.

Definition del_path (self : Dest) (over : ConnId) : Dest * option Path :=
  match index_of over (dest_paths self) with
  | Some index =>
      let deltas :=
        if (index =? 0)%nat
        then dest_deltas self ++ [best_delta (path_conn <$> dest_paths self !! 1%nat)]
        else dest_deltas self in
      (mkDest (delete index (dest_paths self)) deltas, dest_paths self !! index)
  | None => (self, None)
  end.

Definition dest_pop_delta (self : Dest) : Dest * option DestDelta :=
  match dest_deltas self with
  | [] => (self, None)
  | d :: ds => (mkDest (dest_paths self) ds, Some d)
  end.

Definition dest_is_empty (self : Dest) : bool :=
  match dest_paths self with [] => true | _ => false end.

Definition dest_next (self : Dest) (excepts : list NodeId) : outcome (option (ConnId * NodeId)) :=
  next_in excepts (dest_paths self).

Definition best_for (self : Dest) (neighbour_id : NodeId) : option Path :=
  best_for_in neighbour_id (dest_paths self).

Definition dest_next_path (self : Dest) (excepts : list NodeId) : outcome (option Path) :=
  next_path_in excepts (dest_paths self).

(** [dump]: the [collect] keeps the last path over a node. *)
Definition dest_dump (self : Dest) : outcome (gmap NodeId Metric) :=
  foldM (λ acc p, n ← over_node (path_metric p); Done (<[n := path_metric p]> acc))
    ∅ (dest_paths self).

(** ** What the deltas tell a follower

    A follower that keeps the key of the best connection and applies the
    deltas. *)

Definition apply_dest_delta (v : option ConnKey) (d : DestDelta) : option ConnKey :=
  match d with
  | SetBestPath c => Some (conn_key c)
  | DelBestPath => None
  end.

Definition follow (v : option ConnKey) (ds : list DestDelta) : option ConnKey :=
  foldl apply_dest_delta v ds.

Abbreviation dest_wf d := (paths_wf (dest_paths d)).
Abbreviation dest_map d := (paths_map (dest_paths d)).
Abbreviation dest_best d := (best_key (dest_paths d)).

Lemma opt_conn_eqb_key a b : opt_conn_eqb a b = true ↔ conn_key <$> a = conn_key <$> b.
Proof.
  destruct a as [a|], b as [b|]; cbn; [|split; congruence..|done].
  rewrite conn_eqb_key. split; [by intros -> | by intros ?%(inj Some)].
Qed.

Lemma dest_is_empty_map d : dest_is_empty d = true ↔ dest_map d = ∅.
Proof. rewrite paths_map_empty. unfold dest_is_empty. by destruct (dest_paths d). Qed.

Lemma dest_is_empty_best d : dest_is_empty d = true ↔ dest_best d = None.
Proof. unfold dest_is_empty, best_key, best_conn. by destruct (dest_paths d). Qed.

(** [set_path] writes one entry of the map. *)
Lemma set_path_map d c m :
  dest_wf d → dest_map (set_path d c m) = <[conn_key c := m]> (dest_map d).
Proof. apply put_map. Qed.

Lemma set_path_wf d c m : hops m ≠ [] → dest_wf d → dest_wf (set_path d c m).
Proof. apply put_wf. Qed.

Lemma set_path_nonempty d c m : dest_is_empty (set_path d c m) = false.
Proof.
  unfold dest_is_empty, set_path. cbn.
  pose proof (put_nonempty c m (dest_paths d)). by destruct (sort_paths _).
Qed.

Lemma set_path_deltas d c m :
  ∃ ds, dest_deltas (set_path d c m) = dest_deltas d ++ ds ∧
        follow (dest_best d) ds = dest_best (set_path d c m).
Proof.
  unfold set_path. cbn [dest_deltas dest_paths].
  set (ps := sort_paths _). destruct (opt_conn_eqb _ _) eqn:E; cbn.
  - exists []. rewrite app_nil_r. split; [done|]. by apply opt_conn_eqb_key in E.
  - eexists [_]. split; [done|]. unfold best_key. by destruct (best_conn ps).
Qed.

(** [del_path] removes one entry of the map, or does nothing. *)
Lemma del_path_map d c :
  dest_wf d → dest_map (del_path d c).1 = delete (conn_key c) (dest_map d).
Proof.
  intros Hwf. unfold del_path. destruct (index_of c (dest_paths d)) as [i|] eqn:Hi.
  - by apply remove_map.
  - cbn. rewrite delete_id; [done|]. apply paths_map_None. by apply index_of_None.
Qed.

Lemma del_path_wf d c : dest_wf d → dest_wf (del_path d c).1.
Proof. intros Hwf. unfold del_path. case_match; [by apply remove_wf|done]. Qed.

Lemma del_path_result d c : is_Some (del_path d c).2 ↔ conn_key c ∈ path_key <$> dest_paths d.
Proof.
  unfold del_path. destruct (index_of c (dest_paths d)) as [i|] eqn:Hi; cbn.
  - apply index_of_Some in Hi as (l1 & p & l2 & Heq & <- & Hk & _). rewrite Heq.
    rewrite list_lookup_middle by done. split; [|eauto]. intros _.
    rewrite fmap_app, fmap_cons, Hk. apply elem_of_app. right. left.
  - apply index_of_None in Hi. split; [by intros []|done].
Qed.

Lemma del_path_None d c d' : del_path d c = (d', None) → d' = d.
Proof.
  unfold del_path. destruct (index_of c (dest_paths d)) as [i|] eqn:Hi; [|congruence].
  apply index_of_Some in Hi as (l1 & p & l2 & Heq & <- & _).
  intros [= _ H]. rewrite Heq, list_lookup_middle in H by done. congruence.
Qed.

Lemma del_path_deltas d c :
  ∃ ds, dest_deltas (del_path d c).1 = dest_deltas d ++ ds ∧
        follow (dest_best d) ds = dest_best (del_path d c).1.
Proof.
  unfold del_path. destruct (index_of c (dest_paths d)) as [[|i]|] eqn:Hi; cbn.
  - eexists [_]. split; [done|]. destruct (dest_paths d) as [|p [|q ps]]; done.
  - exists []. rewrite app_nil_r. split; [done|].
    apply index_of_Some in Hi as (l1 & p & l2 & Heq & Hlen & _).
    rewrite Heq. destruct l1; done.
  - exists []. by rewrite app_nil_r.
Qed.

#[export] Hint Resolve set_path_wf del_path_wf : paths.

(** ** Properties *)

(** [Dest] implements a map from connections to metrics that is kept
    sorted: [set_path] is the insertion and [del_path] the deletion of one
    entry, both keep the paths ordered by score with one path per connection,
    and both queue exactly the deltas that turn the old best connection into
    the new one. *)
Theorem dest_refines_map (d : Dest) (c : ConnId) (m : Metric) :
  dest_wf d → hops m ≠ [] →
  (dest_wf (set_path d c m) ∧ dest_wf (del_path d c).1) ∧
  dest_map (set_path d c m) = <[conn_key c := m]> (dest_map d) ∧
  dest_map (del_path d c).1 = delete (conn_key c) (dest_map d) ∧
  (∃ ds, dest_deltas (set_path d c m) = dest_deltas d ++ ds ∧
         follow (dest_best d) ds = dest_best (set_path d c m)) ∧
  (∃ ds, dest_deltas (del_path d c).1 = dest_deltas d ++ ds ∧
         follow (dest_best d) ds = dest_best (del_path d c).1).
Proof.
  intros Hwf Hm. split_and!; eauto using set_path_map, del_path_map, set_path_deltas,
    del_path_deltas with paths.
Qed.

(** A destination with two paths, used by the witnesses. *)
Definition dest_demo : Dest :=
  set_path (set_path dest_default (from_out 0 1) (mkMetric 1 [4; 1] 1)) (from_out 0 2) (mkMetric 2 [4; 2] 1).

Lemma dest_demo_wf : dest_wf dest_demo.
Proof. repeat apply set_path_wf; try done. apply paths_wf_nil. Defined.

Lemma dest_refines_map_witness :
  dest_map (set_path dest_demo (from_out 7 1) (mkMetric 9 [1] 1))
  = <[conn_key (from_out 7 1) := mkMetric 9 [1] 1]> (dest_map dest_demo).
Proof.
  apply (dest_refines_map dest_demo (from_out 7 1) (mkMetric 9 [1] 1)); [apply dest_demo_wf | done].
Defined.

(** [next] never panics on a well-formed destination; it answers the
    best-scored path among those whose neighbour is not excluded, and answers
    nothing only if every path goes over an excluded neighbour. [best_for]
    never proposes to a neighbour a path that already contains it, and again
    proposes the best of the rest. *)
Theorem dest_next_optimal (d : Dest) (excepts : list NodeId) (node : NodeId) :
  dest_wf d →
  (∃ r, dest_next d excepts = Done r ∧
    match r with
    | Some (c, n) =>
        ∃ p, p ∈ dest_paths d ∧ path_conn p = c ∧ over_node (path_metric p) = Done n ∧ (n ∉ excepts) ∧
          ∀ q n', q ∈ dest_paths d → over_node (path_metric q) = Done n' → n' ∉ excepts →
            score (path_metric p) ≤ score (path_metric q)
    | None => Forall (λ q, ∃ n', over_node (path_metric q) = Done n' ∧ n' ∈ excepts) (dest_paths d)
    end) ∧
  match best_for d node with
  | Some p => p ∈ dest_paths d ∧ (node ∉ hops (path_metric p)) ∧
      ∀ q, q ∈ dest_paths d → node ∉ hops (path_metric q) →
        score (path_metric p) ≤ score (path_metric q)
  | None => Forall (λ p, node ∈ hops (path_metric p)) (dest_paths d)
  end.
Proof.
  intros [Hs Hk Hh]. split.
  - destruct (next_in_answer excepts _ Hh) as (r & Hr & Hans). exists r. split; [done|].
    destruct r as [[c n]|]; [|done]. by apply next_answer_best.
  - destruct (best_for d node) as [p|] eqn:E.
    + destruct (best_for_in_Some _ _ _ E). split_and!; [done..|]. by eapply best_for_in_best.
    + by apply best_for_in_None.
Qed.

Lemma dest_next_optimal_witness :
  dest_next dest_demo [1] = Done (Some (from_out 0 2, 2)) ∧
  ∃ r, dest_next dest_demo [1] = Done r.
Proof.
  split; [reflexivity|].
  destruct (dest_next_optimal dest_demo [1] 4 dest_demo_wf) as [(r & Hr & _) _]. by exists r.
Defined.
