(* ===== verification/Table.v ===== *)
(** * The routing table of one layer ([packages/core/router/src/core/table.rs])

    A [Table] holds one [Dest] per value of the layer's byte, the sorted list
    of the indexes that have a path, and the queue of deltas. *)

From S2P Require Import Prelude NodeId ConnId Metric Paths Dest.

Abbreviation NodeIndex := Z (only parsing).

(** [TableDelta(pub u8, pub DestDelta)] and [TableSync(pub Vec<(u8, Metric)>)] *)
Abbreviation TableDelta := (Z * DestDelta)%type (only parsing).
Abbreviation TableSync := (list (Z * Metric)) (only parsing).

Record Table := mkTable {
  table_node_id : NodeId;
  table_layer : Z;
  dests : list Dest;                (* [Dest; 256] *)
  slots : list Z;
  table_deltas : list TableDelta;
}.

#[global] Instance Table_inhabited : Inhabited Table := populate (mkTable 0 0 [] [] []).

Definition table_new (node_id : NodeId) (layer : Z) : Table :=
  mkTable node_id layer (replicate 256 dest_default) [] [].

Definition table_dest (t : Table) (i : Z) : Dest := arr_get (dests t) i.

Definition table_dump (t : Table) : outcome (Z * gmap Z (gmap NodeId Metric)) :=
  ds ← foldM (λ acc i,
         if negb (dest_is_empty (table_dest t i))
         then d ← dest_dump (table_dest t i); Done (<[i := d]> acc)
         else Done acc) ∅ u8_all;
  Done (table_layer t, ds).

Definition table_size (t : Table) : Z :=
  foldl (λ size i, if negb (dest_is_empty (table_dest t i)) then size + 1 else size) 0 u8_all.

(** [slots.push(i); slots.sort()] *)
Definition slots_add (i : Z) (s : list Z) : list Z := stable_sort id (s ++ [i]).

(** [if let Ok(index) = slots.binary_search(&i) { slots.remove(index) }]. On
    the sorted [slots] a binary search finds the element's index. *)
Definition binary_search (i : Z) (s : list Z) : option nat := fst <$> list_find (λ j, j = i) s.
Definition slots_remove (i : Z) (s : list Z) : list Z :=
  match binary_search i s with
  | Some index => delete index s
  | None => s
  end.

Definition with_dest (t : Table) (i : Z) (d : Dest) : Table :=
  mkTable (table_node_id t) (table_layer t) (arr_set (dests t) i d) (slots t) (table_deltas t).
Definition with_slots (t : Table) (s : list Z) : Table :=
  mkTable (table_node_id t) (table_layer t) (dests t) s (table_deltas t).

(** Move the deltas of one destination to the table's queue. *)
Definition poll_delta_index (t : Table) (index : Z) : Table :=
  let d := table_dest t index in
  mkTable (table_node_id t) (table_layer t)
          (arr_set (dests t) index (mkDest (dest_paths d) []))
          (slots t)
          (drain_into (λ delta, (index, delta)) (dest_deltas d) (table_deltas t)).

Definition add_direct (t : Table) (conn : ConnId) (metric : Metric) : outcome Table :=
  over ← over_node metric;
  index ← layer over (table_layer t);
  let t1 := if dest_is_empty (table_dest t index) then with_slots t (slots_add index (slots t)) else t in
  let t2 := with_dest t1 index (set_path (table_dest t1 index) conn metric) in
  Done (poll_delta_index t2 index).

(** The body of the loop of [del_direct]. *)
Definition table_del_direct_step (conn : ConnId) (t : Table) (i : Z) : Table :=
  let pre_empty := dest_is_empty (table_dest t i) in
  let (dest, removed) := del_path (table_dest t i) conn in
  match removed with
  | Some _ =>
      let t1 := with_dest t i dest in
      let t2 := if negb pre_empty && dest_is_empty dest
                then with_slots t1 (slots_remove i (slots t1)) else t1 in
      poll_delta_index t2 i
  | None => with_dest t i dest
  end.

Definition table_del_direct (t : Table) (conn : ConnId) : Table :=
  foldl (table_del_direct_step conn) t u8_all.

Definition table_next (t : Table) (dest : NodeId) (excepts : list NodeId)
    : outcome (option (ConnId * NodeId)) :=
  index ← layer dest (table_layer t);
  dest_next (table_dest t index) excepts.

Definition table_next_path (t : Table) (dest : NodeId) (excepts : list NodeId)
    : outcome (option Path) :=
  index ← layer dest (table_layer t);
  dest_next_path (table_dest t index) excepts.

(** The body of the loop of [closest_for]. *)
Definition closest_step (t : Table) (key : Z) (excepts : list NodeId)
    (closest_distance : option (Z * ConnId * NodeId * Z)) (slot : Z)
    : outcome (option (Z * ConnId * NodeId * Z)) :=
  let distance := Z.lxor slot key in
  if match closest_distance with None => true | Some (_, _, _, d) => distance <? d end then
    r ← dest_next (table_dest t slot) excepts;
    match r with
    | Some (conn, node) => Done (Some (slot, conn, node, distance))
    | None => Done closest_distance
    end
  else Done closest_distance.

Definition table_closest_for (t : Table) (key : Z) (excepts : list NodeId)
    : outcome (option (NodeIndex * ConnId * NodeId)) :=
  r ← foldM (closest_step t key excepts) None (slots t);
  Done match r with
       | Some (index, conn, node, _) => Some (index, conn, node)
       | None => None
       end.

(** The body of the loop of [apply_sync]; [own] is the table's own index and
    [over] the index of the neighbour. Each key of [cached] is asked for once,
    so removing it is reading it. *)
Definition table_apply_sync_step (own over : Z) (conn : ConnId) (cached : gmap Z Metric)
    (t : Table) (i : Z) : Table :=
  if i =? own then t
  else
    let dest := table_dest t i in
    let t' :=
      match cached !! i with
      | Some metric =>
          let t1 := if dest_is_empty dest then with_slots t (slots_add i (slots t)) else t in
          with_dest t1 i (set_path dest conn metric)
      | None =>
          if negb (dest_is_empty dest) && negb (over =? i) then
            let pre_empty := dest_is_empty dest in
            let dest' := (del_path dest conn).1 in
            let t1 := with_dest t i dest' in
            if negb pre_empty && dest_is_empty dest'
            then with_slots t1 (slots_remove i (slots t1)) else t1
          else t
      end in
    poll_delta_index t' i.

(** The three calls that can panic do not depend on the loop, and panic in its
    first iteration if at all. *)
Definition table_apply_sync (t : Table) (conn : ConnId) (metric : Metric) (sync : TableSync)
    : outcome Table :=
  src ← over_node metric;
  own ← layer (table_node_id t) (table_layer t);
  over ← layer src (table_layer t);
  Done (foldl (table_apply_sync_step own over conn (sync_cached metric sync)) t u8_all).

Definition table_pop_delta (t : Table) : Table * option TableDelta :=
  match table_deltas t with
  | [] => (t, None)
  | d :: ds => (mkTable (table_node_id t) (table_layer t) (dests t) (slots t) ds, Some d)
  end.

(** The body of the loop of [sync_for]. *)
Definition sync_for_step (t : Table) (own : Z) (node : NodeId) (res : TableSync) (i : Z) : TableSync :=
  if negb (dest_is_empty (table_dest t i)) && negb (i =? own) then
    match best_for (table_dest t i) node with
    | Some path => res ++ [(i, path_metric path)]
    | None => res
    end
  else res.

Definition table_sync_for (t : Table) (node : NodeId) : outcome (option TableSync) :=
  if table_layer t + 1 <? eq_util_layer (table_node_id t) node then Done None
  else
    own ← layer (table_node_id t) (table_layer t);
    Done (Some (foldl (sync_for_step t own node) [] u8_all)).

(** ** Invariant *)

Record slots_ok (t : Table) : Prop := {
  slots_sorted : StronglySorted (key_le id) (slots t);
  slots_NoDup : NoDup (slots t);
  slots_used : ∀ i, i ∈ slots t ↔ u8 i ∧ dest_is_empty (table_dest t i) = false;
}.

Record table_wf (t : Table) : Prop := {
  wf_layer : 0 ≤ table_layer t ≤ 3;
  wf_length : length (dests t) = 256%nat;
  wf_dests : ∀ i, u8 i → dest_wf (table_dest t i);
  wf_drained : ∀ i, u8 i → dest_deltas (table_dest t i) = [];
  wf_slots : slots_ok t;
}.

(** The best connection of an index, as a follower sees it. *)
Definition table_best (t : Table) (i : Z) : option ConnKey := dest_best (table_dest t i).

(** The deltas of a queue that concern index [i]. *)
Definition deltas_at (i : Z) (ds : list TableDelta) : list DestDelta :=
  snd <$> filter (λ d, d.1 = i) ds.

(** [t'] extends [t]: same node and layer, and the deltas queued in between
    turn the best connections of [t] into those of [t']. *)
Definition table_ext (t t' : Table) : Prop :=
  table_node_id t' = table_node_id t ∧ table_layer t' = table_layer t ∧
  ∃ ds, table_deltas t' = table_deltas t ++ ds ∧ Forall (λ d, u8 d.1) ds ∧
    ∀ i, u8 i → follow (table_best t i) (deltas_at i ds) = table_best t' i.

Lemma deltas_at_app i ds ds' : deltas_at i (ds ++ ds') = deltas_at i ds ++ deltas_at i ds'.
Proof. unfold deltas_at. by rewrite filter_app, fmap_app. Qed.

Lemma deltas_at_same i ds : deltas_at i ((i,.) <$> ds) = ds.
Proof.
  unfold deltas_at. induction ds as [|d ds IH]; [done|]. rewrite fmap_cons, filter_cons_True by done.
  rewrite fmap_cons. by rewrite IH.
Qed.

Lemma deltas_at_other i j ds : i ≠ j → deltas_at i ((j,.) <$> ds) = [].
Proof.
  intros Hne. unfold deltas_at. induction ds as [|d ds IH]; [done|].
  rewrite fmap_cons, filter_cons_False; [done|]. cbn. congruence.
Qed.

#[global] Instance table_ext_preorder : PreOrder table_ext.
Proof.
  split.
  - intros t. split_and!; [done..|]. exists []. split_and!; [by rewrite app_nil_r | constructor | done].
  - intros t1 t2 t3 (Hn & Hl & ds & Hd & Hu & Hf) (Hn' & Hl' & ds' & Hd' & Hu' & Hf').
    split_and!; [congruence..|]. exists (ds ++ ds'). split_and!.
    + rewrite Hd', Hd. by rewrite app_assoc.
    + by apply Forall_app.
    + intros i Hi. rewrite deltas_at_app. unfold follow. rewrite foldl_app.
      fold (follow (table_best t1 i) (deltas_at i ds)). rewrite Hf by done. by apply Hf'.
Qed.

Lemma table_new_wf node_id l : 0 ≤ l ≤ 3 → table_wf (table_new node_id l).
Proof.
  intros Hl. assert (∀ i, u8 i → table_dest (table_new node_id l) i = dest_default) as Hd.
  { intros i Hi. by apply arr_get_replicate. }
  split; [done | apply length_replicate | | |].
  - intros i Hi. rewrite Hd by done. apply paths_wf_nil.
  - intros i Hi. by rewrite Hd.
  - split; [constructor | constructor|]. intros i. split; [by intros ?%not_elem_of_nil|].
    intros [Hi He]. by rewrite Hd in He.
Qed.

(** ** Updating one index *)

Lemma elem_of_slots_add i j s : j ∈ slots_add i s ↔ j = i ∨ j ∈ s.
Proof. unfold slots_add. rewrite stable_sort_perm. set_solver. Qed.

Lemma slots_add_NoDup i s : i ∉ s → NoDup s → NoDup (slots_add i s).
Proof.
  intros Hi Hs. unfold slots_add. rewrite stable_sort_perm. apply NoDup_app.
  split_and!; [done | set_solver | apply NoDup_singleton].
Qed.

Lemma slots_remove_split i s :
  i ∈ s → NoDup s → ∃ l1 l2, s = l1 ++ i :: l2 ∧ slots_remove i s = l1 ++ l2.
Proof.
  intros Hi Hnd. unfold slots_remove, binary_search.
  destruct (list_find (λ j, j = i) s) as [[k x]|] eqn:E; cbn.
  - apply list_find_Some in E as (Hk & -> & _). exists (take k s), (drop (S k) s).
    split; [by rewrite take_drop_middle|]. apply delete_take_drop.
  - rewrite list_find_None, Forall_forall in E. by destruct (E i Hi).
Qed.

Lemma slots_remove_spec i s :
  i ∈ s → NoDup s → StronglySorted (key_le id) s →
  StronglySorted (key_le id) (slots_remove i s) ∧ NoDup (slots_remove i s) ∧
  ∀ j, j ∈ slots_remove i s ↔ j ≠ i ∧ j ∈ s.
Proof.
  intros Hi Hnd Hs. destruct (slots_remove_split i s Hi Hnd) as (l1 & l2 & -> & ->). split_and!.
  - clear Hnd Hi. induction l1 as [|x l1 IH]; cbn in *; inversion Hs as [|? ? Hs' Hall]; subst; [done|].
    constructor; [by apply IH|]. rewrite Forall_app, Forall_cons in Hall. rewrite Forall_app. tauto.
  - apply NoDup_app in Hnd as (H1 & H2 & [H3 H4]%NoDup_cons). apply NoDup_app. split_and!; try done.
    intros x Hx1 Hx2. apply (H2 x Hx1). by right.
  - apply NoDup_app in Hnd as (H1 & H2 & [H3 H4]%NoDup_cons). intros j.
    rewrite !elem_of_app, elem_of_cons. split; [|tauto].
    intros [Hj|Hj]; split; try tauto; intros ->; [|done]. apply (H2 i Hj). left.
Qed.

(** The slots after destination [i] became [d]. *)
Definition slots_after (t : Table) (i : Z) (d : Dest) (s : list Z) : Prop :=
  StronglySorted (key_le id) s ∧ NoDup s ∧
  ∀ j, j ∈ s ↔ if decide (j = i) then dest_is_empty d = false else j ∈ slots t.

Lemma slots_after_add t i d :
  table_wf t → u8 i → dest_is_empty d = false →
  slots_after t i d (if dest_is_empty (table_dest t i) then slots_add i (slots t) else slots t).
Proof.
  intros [_ _ _ _ [Hs Hnd Hu]] Hi Hd. destruct (dest_is_empty (table_dest t i)) eqn:He.
  - assert (i ∉ slots t) as Hni by (rewrite Hu; intros []; congruence).
    split_and!; [apply stable_sort_sorted | by apply slots_add_NoDup |].
    intros j. rewrite elem_of_slots_add. case_decide as Hji; [|tauto]. split; [done|by left].
  - split_and!; [done..|]. intros j. case_decide as Hji; [|done]. subst j.
    rewrite Hu. split; [done|by split].
Qed.

Lemma slots_after_del t i d :
  table_wf t → u8 i → (dest_is_empty (table_dest t i) = true → dest_is_empty d = true) →
  slots_after t i d
    (if negb (dest_is_empty (table_dest t i)) && dest_is_empty d
     then slots_remove i (slots t) else slots t).
Proof.
  intros [_ _ _ _ [Hs Hnd Hu]] Hi Himp.
  destruct (dest_is_empty (table_dest t i)) eqn:He, (dest_is_empty d) eqn:Hd; cbn;
    [|by specialize (Himp eq_refl)|..].
  - split_and!; [done..|]. intros j. case_decide as Hji; [|done]. subst j. rewrite Hu.
    split; [intros []; congruence|congruence].
  - destruct (slots_remove_spec i (slots t)) as (Hs' & Hnd' & Hel); [by apply Hu | done | done |].
    split_and!; [done..|]. intros j. rewrite Hel. case_decide as Hji; [|tauto].
    split; [by intros []|congruence].
  - split_and!; [done..|]. intros j. case_decide as Hji; [|done]. subst j. rewrite Hu. by split.
Qed.

Lemma put_dest_spec t i d s :
  let t' := poll_delta_index (with_dest (with_slots t s) i d) i in
  table_wf t → u8 i → dest_wf d → slots_after t i d s →
  follow (table_best t i) (dest_deltas d) = dest_best d →
  table_wf t' ∧ table_ext t t' ∧ table_dest t' i = mkDest (dest_paths d) [] ∧
  ∀ j, u8 j → j ≠ i → table_dest t' j = table_dest t j.
Proof.
  intros t' Hwf Hi Hd (Hss & Hsn & Hse) Hf. pose proof Hwf as [Hlay Hlen Hds Hdr Hsl].
  assert (table_dest (with_dest (with_slots t s) i d) i = d) as Hget.
  { unfold table_dest. cbn. by apply arr_get_set_eq. }
  assert (table_dest t' i = mkDest (dest_paths d) []) as Hi'.
  { unfold t', poll_delta_index. rewrite Hget. unfold table_dest. cbn.
    apply arr_get_set_eq; [by rewrite length_arr_set | done]. }
  assert (∀ j, u8 j → j ≠ i → table_dest t' j = table_dest t j) as Hj'.
  { intros j Hj Hne. unfold t', poll_delta_index, table_dest. cbn.
    rewrite !arr_get_set_ne by (done || congruence). done. }
  split_and!; [|split_and!|done|done]; [|done|done|].
  - split; [done | by cbn; rewrite !length_arr_set | | |].
    + intros j Hj. destruct (decide (j = i)) as [->|]; [by rewrite Hi' | by rewrite Hj'; auto].
    + intros j Hj. destruct (decide (j = i)) as [->|]; [by rewrite Hi' | by rewrite Hj'; auto].
    + split; [done|done|]. intros j. cbn. rewrite Hse. destruct (decide (j = i)) as [->|Hne].
      * rewrite Hi'. cbn. change (dest_is_empty (mkDest (dest_paths d) [])) with (dest_is_empty d). tauto.
      * rewrite (slots_used _ Hsl). split; intros [Hj He]; (split; [done|]).
        -- by rewrite Hj'.
        -- by rewrite Hj' in He.
  - exists ((i,.) <$> dest_deltas d). split_and!.
    + unfold t', poll_delta_index. cbn. by rewrite Hget, drain_into_eq.
    + apply Forall_fmap, Forall_true. by intros.
    + intros j Hj. destruct (decide (j = i)) as [->|Hne].
      * rewrite deltas_at_same, Hf. unfold table_best. by rewrite Hi'.
      * rewrite deltas_at_other by done. unfold table_best. by rewrite Hj'.
Qed.

(** ** The operations, index by index *)

Lemma with_slots_id t : with_slots t (slots t) = t.
Proof. by destruct t. Qed.

Lemma set_path_follow d c m :
  dest_deltas d = [] → follow (dest_best d) (dest_deltas (set_path d c m)) = dest_best (set_path d c m).
Proof. intros Hd. destruct (set_path_deltas d c m) as (ds & Heq & Hf). by rewrite Heq, Hd. Qed.

Lemma del_path_follow d c :
  dest_deltas d = [] → follow (dest_best d) (dest_deltas (del_path d c).1) = dest_best (del_path d c).1.
Proof. intros Hd. destruct (del_path_deltas d c) as (ds & Heq & Hf). by rewrite Heq, Hd. Qed.

Lemma del_path_empty d c : dest_is_empty d = true → dest_is_empty (del_path d c).1 = true.
Proof.
  unfold dest_is_empty. destruct (dest_paths d) eqn:E; [|done]. intros _.
  unfold del_path. rewrite E. cbn. by rewrite E.
Qed.

(** The destination without its (already drained) deltas. *)
Definition drained (d : Dest) : Dest := mkDest (dest_paths d) [].

Lemma drained_id d : dest_deltas d = [] → drained d = d.
Proof. destruct d. cbn. by intros ->. Qed.

Lemma table_set_step t i conn m :
  let t1 := if dest_is_empty (table_dest t i) then with_slots t (slots_add i (slots t)) else t in
  let t' := poll_delta_index (with_dest t1 i (set_path (table_dest t i) conn m)) i in
  table_wf t → u8 i → hops m ≠ [] →
  table_wf t' ∧ table_ext t t' ∧ table_dest t' i = drained (set_path (table_dest t i) conn m) ∧
  ∀ j, u8 j → j ≠ i → table_dest t' j = table_dest t j.
Proof.
  intros t1 t' Hwf Hi Hm.
  assert (t1 = with_slots t (if dest_is_empty (table_dest t i) then slots_add i (slots t) else slots t)) as Ht1.
  { unfold t1. case_match; [done|]. by rewrite with_slots_id. }
  unfold t'. rewrite Ht1. apply put_dest_spec; try done.
  - apply set_path_wf; [done|]. by apply wf_dests.
  - apply slots_after_add; [done..|]. apply set_path_nonempty.
  - apply set_path_follow. by apply wf_drained.
Qed.

Lemma table_del_step t i conn :
  let dest := (del_path (table_dest t i) conn).1 in
  let t1 := with_dest t i dest in
  let t2 := if negb (dest_is_empty (table_dest t i)) && dest_is_empty dest
            then with_slots t1 (slots_remove i (slots t1)) else t1 in
  let t' := poll_delta_index t2 i in
  table_wf t → u8 i →
  table_wf t' ∧ table_ext t t' ∧ table_dest t' i = drained (del_path (table_dest t i) conn).1 ∧
  ∀ j, u8 j → j ≠ i → table_dest t' j = table_dest t j.
Proof.
  intros dest t1 t2 t' Hwf Hi.
  assert (t2 = with_dest (with_slots t (if negb (dest_is_empty (table_dest t i)) && dest_is_empty dest
      then slots_remove i (slots t) else slots t)) i dest) as Ht2.
  { unfold t2, t1. case_match; [done|]. by rewrite with_slots_id. }
  unfold t'. rewrite Ht2. apply put_dest_spec; try done.
  - apply del_path_wf. by apply wf_dests.
  - apply slots_after_del; [done..|]. apply del_path_empty.
  - apply del_path_follow. by apply wf_drained.
Qed.

(** Polling an index that has no delta changes nothing. *)
Lemma table_keep_step t i :
  table_wf t → u8 i →
  let t' := poll_delta_index t i in
  table_wf t' ∧ table_ext t t' ∧ table_dest t' i = table_dest t i ∧
  ∀ j, u8 j → j ≠ i → table_dest t' j = table_dest t j.
Proof.
  intros Hwf Hi t'. assert (t' = t) as ->; [|by split_and!].
  unfold t', poll_delta_index. rewrite (wf_drained _ Hwf) by done. cbn.
  fold (drained (table_dest t i)). rewrite drained_id by (by apply wf_drained).
  destruct t as [n l ds sl dt]. f_equal. unfold table_dest, arr_get, arr_set. cbn.
  apply list_insert_id. apply list_lookup_lookup_total_lt.
  pose proof (wf_length _ Hwf) as Hlen. cbn in Hlen. rewrite Hlen. unfold u8 in Hi. lia.
Qed.

Lemma add_direct_spec t conn m n :
  table_wf t → over_node m = Done n →
  ∃ t', add_direct t conn m = Done t' ∧ table_wf t' ∧ table_ext t t' ∧
    let index := byte_at n (table_layer t) in
    table_dest t' index = drained (set_path (table_dest t index) conn m) ∧
    ∀ j, u8 j → j ≠ index → table_dest t' j = table_dest t j.
Proof.
  intros Hwf Hn. unfold add_direct. rewrite Hn. cbn.
  rewrite layer_Done by (pose proof (wf_layer _ Hwf); lia). cbn.
  set (index := byte_at n (table_layer t)). eexists. split; [done|].
  assert (hops m ≠ []) as Hm by (apply over_node_Done in Hn; by intros Hm; rewrite Hm in Hn).
  pose proof (byte_at_u8 n (table_layer t)) as Hi. fold index in Hi.
  assert (∀ s, table_dest (with_slots t s) index = table_dest t index) as Hd by done.
  replace (table_dest (if dest_is_empty (table_dest t index) then with_slots t (slots_add index (slots t)) else t) index)
    with (table_dest t index) by (by case_match).
  by apply table_set_step.
Qed.

Lemma table_del_direct_step_spec t conn i :
  table_wf t → u8 i →
  let t' := table_del_direct_step conn t i in
  table_wf t' ∧ table_ext t t' ∧ table_dest t' i = drained (del_path (table_dest t i) conn).1 ∧
  ∀ j, u8 j → j ≠ i → table_dest t' j = table_dest t j.
Proof.
  intros Hwf Hi t'. pose proof (table_del_step t i conn Hwf Hi) as Hstep.
  unfold t', table_del_direct_step. destruct (del_path (table_dest t i) conn) as [d [p|]] eqn:E; cbn in Hstep.
  { exact Hstep. }
  assert (d = table_dest t i) as ->.
  { by eapply del_path_None. }
  replace (with_dest t i (table_dest t i)) with t.
  - cbn. rewrite drained_id by (by apply wf_drained). by split_and!.
  - destruct t as [n l ds sl dt]. unfold with_dest, table_dest, arr_get, arr_set. cbn. f_equal.
    symmetry. apply list_insert_id. apply list_lookup_lookup_total_lt.
    pose proof (wf_length _ Hwf) as Hlen. cbn in Hlen. rewrite Hlen. unfold u8 in Hi. lia.
Qed.

(** A loop over all indexes whose body updates its own index. *)
Lemma table_loop (step : Table → Z → Table) (f : Z → Dest → Dest) t :
  (∀ t' i, table_wf t' → table_ext t t' → u8 i →
    let t'' := step t' i in
    table_wf t'' ∧ table_ext t' t'' ∧ table_dest t'' i = f i (table_dest t' i) ∧
    ∀ j, u8 j → j ≠ i → table_dest t'' j = table_dest t' j) →
  table_wf t →
  let t' := foldl step t u8_all in
  table_wf t' ∧ table_ext t t' ∧ ∀ i, u8 i → table_dest t' i = f i (table_dest t i).
Proof.
  intros Hstep Hwf t'.
  destruct (foldl_pointwise (λ s, table_wf s ∧ table_ext t s) step table_dest f u8_all t)
    as [[Hwf' Hext] Hget]; [apply NoDup_u8_all | | | | by split |].
  - intros s i Hi%elem_of_u8_all [Hs He]. destruct (Hstep s i Hs He Hi) as (? & ? & _).
    split; [done|]. by etransitivity.
  - intros s i Hi%elem_of_u8_all [Hs He]. by destruct (Hstep s i Hs He Hi) as (_ & _ & ? & _).
  - intros s i j Hi%elem_of_u8_all [Hs He] Hne Hj%elem_of_u8_all.
    destruct (Hstep s i Hs He Hi) as (_ & _ & _ & Hother). by apply Hother.
  - split_and!; [done..|]. intros i Hi. apply Hget. by apply elem_of_u8_all.
Qed.

Lemma table_del_direct_spec t conn :
  table_wf t →
  let t' := table_del_direct t conn in
  table_wf t' ∧ table_ext t t' ∧
  ∀ i, u8 i → table_dest t' i = drained (del_path (table_dest t i) conn).1.
Proof.
  intros Hwf. apply (table_loop _ (λ i d, drained (del_path d conn).1)); [|done].
  intros t' i Hwf' _ Hi. by apply table_del_direct_step_spec.
Qed.

(** What [apply_sync] does to destination [i]. *)
Definition synced_dest (own over : Z) (conn : ConnId) (cached : gmap Z Metric) (i : Z) (d : Dest) : Dest :=
  if i =? own then d
  else match cached !! i with
       | Some metric => drained (set_path d conn metric)
       | None => if over =? i then d else drained (del_path d conn).1
       end.

Lemma table_apply_sync_step_spec own over conn cached t i :
  (∀ i m, cached !! i = Some m → hops m ≠ []) →
  table_wf t → u8 i →
  let t' := table_apply_sync_step own over conn cached t i in
  table_wf t' ∧ table_ext t t' ∧ table_dest t' i = synced_dest own over conn cached i (table_dest t i) ∧
  ∀ j, u8 j → j ≠ i → table_dest t' j = table_dest t j.
Proof.
  intros Hc Hwf Hi. unfold table_apply_sync_step, synced_dest.
  destruct (i =? own); [split_and!; [done | reflexivity | done | done]|].
  destruct (cached !! i) as [m|] eqn:Hm; [apply table_set_step; [done | done | by eapply Hc]|].
  destruct (over =? i) eqn:Ho; cbn.
  { rewrite andb_false_r. by apply table_keep_step. }
  rewrite andb_true_r. destruct (dest_is_empty (table_dest t i)) eqn:He; cbn.
  - replace (drained (del_path (table_dest t i) conn).1) with (table_dest t i).
    + by apply table_keep_step.
    + unfold del_path. unfold dest_is_empty in He. destruct (dest_paths (table_dest t i)) eqn:E; [|done].
      cbn. symmetry. apply drained_id. by apply wf_drained.
  - pose proof (table_del_step t i conn Hwf Hi) as Hs. cbn zeta in Hs. rewrite He in Hs. exact Hs.
Qed.

Lemma table_apply_sync_spec t conn metric sync n :
  table_wf t → over_node metric = Done n →
  ∃ t', table_apply_sync t conn metric sync = Done t' ∧ table_wf t' ∧ table_ext t t' ∧
    ∀ i, u8 i →
      table_dest t' i = synced_dest (byte_at (table_node_id t) (table_layer t)) (byte_at n (table_layer t))
                          conn (sync_cached metric sync) i (table_dest t i).
Proof.
  intros Hwf Hn. unfold table_apply_sync. rewrite Hn. cbn. pose proof (wf_layer _ Hwf).
  rewrite !layer_Done by lia. cbn. eexists. split; [done|].
  apply (table_loop _ (synced_dest _ _ _ _)); [|done].
  intros t' i Hwf' _ Hi. apply table_apply_sync_step_spec; [|done..].
  intros j m. apply sync_cached_nonempty. intros Hh. apply over_node_Done in Hn. by rewrite Hh in Hn.
Qed.

#[export] Hint Resolve table_new_wf wf_layer wf_dests wf_drained : paths.

(** ** Queries *)

Lemma dest_next_total t i excepts :
  table_wf t → u8 i → ∃ r, dest_next (table_dest t i) excepts = Done r.
Proof.
  intros Hwf Hi. destruct (next_in_answer excepts _ (wf_hops _ (wf_dests _ Hwf i Hi))) as (r & Hr & _).
  by exists r.
Qed.

(** The best answer over the slots visited so far. *)
Definition closest_of (t : Table) (key : Z) (excepts : list NodeId) (visited : list Z)
    (acc : option (Z * ConnId * NodeId * Z)) : Prop :=
  match acc with
  | None => ∀ s, s ∈ visited → dest_next (table_dest t s) excepts = Done None
  | Some (index, c, n, d) =>
      index ∈ visited ∧ d = Z.lxor index key ∧
      dest_next (table_dest t index) excepts = Done (Some (c, n)) ∧
      ∀ s, s ∈ visited → dest_next (table_dest t s) excepts ≠ Done None → d ≤ Z.lxor s key
  end.

Lemma closest_step_of t key excepts visited acc s :
  table_wf t → u8 s → closest_of t key excepts visited acc →
  ∃ acc', closest_step t key excepts acc s = Done acc' ∧
          closest_of t key excepts (visited ++ [s]) acc'.
Proof.
  intros Hwf Hs Hacc. unfold closest_step.
  destruct (dest_next_total t s excepts Hwf Hs) as [r Hr]. rewrite Hr. cbn.
  destruct acc as [[[[index c] n] d]|]; cbn in Hacc.
  - destruct Hacc as (Hin & -> & Hnext & Hmin).
    destruct (Z.ltb_spec (Z.lxor s key) (Z.lxor index key)) as [Hlt|Hge]; cbn.
    + destruct r as [[c' n']|]; (eexists; split; [done|]); cbn.
      * split_and!; [set_solver | done | done |]. intros s' [Hs'| ->%list_elem_of_singleton]%elem_of_app Hne; [|done].
        specialize (Hmin s' Hs' Hne). lia.
      * split_and!; [set_solver | done | done |]. intros s' [Hs'| ->%list_elem_of_singleton]%elem_of_app Hne; [by apply Hmin|congruence].
    + eexists; split; [done|]; cbn. split_and!; [set_solver | done | done |].
      intros s' [Hs'| ->%list_elem_of_singleton]%elem_of_app Hne; [by apply Hmin|lia].
  - destruct r as [[c' n']|]; (eexists; split; [done|]); cbn.
    + split_and!; [set_solver | done | done |].
      intros s' [Hs'| ->%list_elem_of_singleton]%elem_of_app Hne; [|done]. by destruct Hne; apply Hacc.
    + intros s' [Hs'| ->%list_elem_of_singleton]%elem_of_app; [by apply Hacc|done].
Qed.

Lemma closest_loop t key excepts visited l acc :
  table_wf t → Forall u8 l → closest_of t key excepts visited acc →
  ∃ acc', foldM (closest_step t key excepts) acc l = Done acc' ∧
          closest_of t key excepts (visited ++ l) acc'.
Proof.
  intros Hwf Hl. revert visited acc. induction Hl as [|s l Hs Hl IH]; intros visited acc Hacc.
  { exists acc. by rewrite app_nil_r. }
  destruct (closest_step_of t key excepts visited acc s Hwf Hs Hacc) as (acc1 & Hstep & Hacc1).
  destruct (IH _ _ Hacc1) as (acc2 & Hfold & Hacc2). exists acc2. cbn [foldM]. rewrite Hstep. cbn.
  split; [done|]. by rewrite <- app_assoc in Hacc2.
Qed.

Definition closest_answer (t : Table) (key : Z) (excepts : list NodeId)
    (r : option (NodeIndex * ConnId * NodeId)) : Prop :=
  match r with
  | Some (index, c, n) =>
      index ∈ slots t ∧ dest_next (table_dest t index) excepts = Done (Some (c, n)) ∧
      ∀ s, u8 s → dest_next (table_dest t s) excepts ≠ Done None → Z.lxor index key ≤ Z.lxor s key
  | None => ∀ s, u8 s → dest_next (table_dest t s) excepts = Done None
  end.

Lemma dest_next_not_slot t s excepts :
  table_wf t → u8 s → s ∉ slots t → dest_next (table_dest t s) excepts = Done None.
Proof.
  intros Hwf Hs Hns. unfold dest_next.
  destruct (dest_is_empty (table_dest t s)) eqn:He.
  - unfold dest_is_empty in He. by destruct (dest_paths (table_dest t s)).
  - destruct Hns. by apply (slots_used _ (wf_slots _ Hwf)).
Qed.

Lemma table_closest_for_spec t key excepts :
  table_wf t → ∃ r, table_closest_for t key excepts = Done r ∧ closest_answer t key excepts r.
Proof.
  intros Hwf. assert (Forall u8 (slots t)) as Hl.
  { apply Forall_forall. intros s Hs. by apply (slots_used _ (wf_slots _ Hwf)) in Hs as []. }
  destruct (closest_loop t key excepts [] (slots t) None Hwf Hl) as (acc & Hfold & Hacc).
  { intros s Hs. by apply not_elem_of_nil in Hs. }
  unfold table_closest_for. rewrite Hfold. cbn. eexists; split; [done|].
  assert (∀ s, u8 s → dest_next (table_dest t s) excepts ≠ Done None → s ∈ slots t) as Hslot.
  { intros s Hs Hne. destruct (decide (s ∈ slots t)) as [|Hns]; [done|].
    by destruct Hne; apply dest_next_not_slot. }
  destruct acc as [[[[index c] n] d]|]; cbn in *.
  - destruct Hacc as (Hin & -> & Hnext & Hmin). split_and!; [done..|]. eauto.
  - intros s Hs. destruct (decide (s ∈ slots t)); [eauto|]. by apply dest_next_not_slot.
Qed.

Lemma foldl_omap {A B} (f : A → option B) (l : list A) acc :
  foldl (λ res x, match f x with Some y => res ++ [y] | None => res end) acc l = acc ++ omap f l.
Proof.
  revert acc. induction l as [|x l IH]; intros acc; cbn; [by rewrite app_nil_r|].
  rewrite IH. destruct (f x); cbn; [by rewrite <- app_assoc|done].
Qed.

(** What [sync_for] tells about index [i]. *)
Definition sync_entry (t : Table) (own : Z) (node : NodeId) (i : Z) : option (Z * Metric) :=
  if negb (dest_is_empty (table_dest t i)) && negb (i =? own) then
    path ← best_for (table_dest t i) node; Some (i, path_metric path)
  else None.

Lemma table_sync_for_eq t node :
  table_wf t →
  table_sync_for t node =
  Done (if table_layer t + 1 <? eq_util_layer (table_node_id t) node then None
        else Some (omap (sync_entry t (byte_at (table_node_id t) (table_layer t)) node) u8_all)).
Proof.
  intros Hwf. unfold table_sync_for. case_match; [done|].
  rewrite layer_Done by (pose proof (wf_layer _ Hwf); lia). cbn. do 2 f_equal.
  rewrite <- (app_nil_l (omap _ _)), <- foldl_omap.
  assert (∀ l acc, foldl (sync_for_step t (byte_at (table_node_id t) (table_layer t)) node) acc l =
    foldl (λ res x, match sync_entry t (byte_at (table_node_id t) (table_layer t)) node x with
                    | Some y => res ++ [y] | None => res end) acc l) as Heq; [|apply Heq].
  induction l as [|i l IH]; intros acc; cbn; [done|]. rewrite IH. f_equal.
  unfold sync_for_step, sync_entry. case_match; [|done]. by destruct (best_for _ _).
Qed.

Lemma elem_of_sync_for t node sync i m :
  table_wf t → table_sync_for t node = Done (Some sync) → (i, m) ∈ sync →
  u8 i ∧ i ≠ byte_at (table_node_id t) (table_layer t) ∧
  ∃ p, p ∈ dest_paths (table_dest t i) ∧ m = path_metric p ∧ node ∉ hops m.
Proof.
  intros Hwf Hs Hin. rewrite table_sync_for_eq in Hs by done.
  assert (sync = omap (sync_entry t (byte_at (table_node_id t) (table_layer t)) node) u8_all) as ->.
  { case_match; congruence. }
  apply list_elem_of_omap in Hin as (j & Hj%elem_of_u8_all & He). unfold sync_entry in He.
  destruct (negb _ && negb _) eqn:Hc; [|done]. apply andb_true_iff in Hc as [_ Hown].
  destruct (best_for (table_dest t j) node) as [p|] eqn:Hb; [|done]. injection He as <- <-.
  apply best_for_in_Some in Hb as [Hp Hn]. split_and!; [done | by apply negb_true_iff, Z.eqb_neq in Hown |].
  by exists p.
Qed.
