(* ===== verification/Route.v ===== *)
(** * Routing rules and actions ([packages/core/router/src/lib.rs])

    The vocabulary shared by the routers, and the [RouterTable] trait as a
    type class with [derive_action] defined against it. *)

From S2P Require Import Prelude NodeId.

Inductive ServiceBroadcastLevel := Global | Geo1 | Geo2 | Group.

#[global] Instance ServiceBroadcastLevel_eq_dec : EqDecision ServiceBroadcastLevel.
Proof. solve_decision. Defined.

Definition same_level (self : ServiceBroadcastLevel) (node1 node2 : NodeId) : bool :=
  match self with
  | Global => true
  | Geo1 => geo1 node1 =? geo1 node2
  | Geo2 => (geo1 node1 =? geo1 node2) && (geo2 node1 =? geo2 node2)
  | Group => (geo1 node1 =? geo1 node2) && (geo2 node1 =? geo2 node2) && (group node1 =? group node2)
  end.

(** [From<ServiceBroadcastLevel> for u8] *)
Definition level_to_u8 (val : ServiceBroadcastLevel) : Z :=
  match val with Global => 0 | Geo1 => 1 | Geo2 => 2 | Group => 3 end.

(** [From<u8> for ServiceBroadcastLevel] *)
Definition level_from_u8 (val : Z) : ServiceBroadcastLevel :=
  if val =? 0 then Global else if val =? 1 then Geo1 else if val =? 2 then Geo2 else Group.

Inductive RouteRule :=
| Direct
| ToNode (node : NodeId)
| ToService (service : Z)
| ToServices (service : Z) (level : ServiceBroadcastLevel) (seq : Z)
| ToKey (key : NodeId).

#[global] Instance RouteRule_eq_dec : EqDecision RouteRule.
Proof. solve_decision. Defined.

Inductive RouteAction (Remote : Type) :=
| Reject
| Local
| Next (remote : Remote)
| Broadcast (local : bool) (remotes : list Remote).
Arguments Reject {_}.
Arguments Local {_}.
Arguments Next {_} _.
Arguments Broadcast {_} _ _.

Definition is_local {R} (a : RouteAction R) : bool := match a with Local => true | _ => false end.
Definition is_reject {R} (a : RouteAction R) : bool := match a with Reject => true | _ => false end.
Definition is_remote {R} (a : RouteAction R) : bool := match a with Next _ => true | _ => false end.

(** [RouterTable<Remote>]: [path_to_services] also updates the broadcast
    history behind the router's shared reference, so it returns the router. *)
Class RouterTable (T Remote : Type) := {
  rt_closest_for : T → NodeId → outcome (option Remote);
  rt_next : T → NodeId → outcome (option Remote);
  rt_path_to_node : T → NodeId → outcome (RouteAction Remote);
  rt_path_to_key : T → NodeId → outcome (RouteAction Remote);
  rt_path_to_service : T → Z → RouteAction Remote;
  rt_path_to_services :
    T → Z → Z → ServiceBroadcastLevel → option NodeId → option NodeId → T * RouteAction Remote;
}.

(** The default method [derive_action]. *)
Definition derive_action `{RouterTable T Remote} (self : T) (route : RouteRule)
    (source relay_from : option NodeId) : outcome (T * RouteAction Remote) :=
  match route with
  | Direct => Done (self, Local)
  | ToNode dest => a ← rt_path_to_node self dest; Done (self, a)
  | ToKey key => a ← rt_path_to_key self key; Done (self, a)
  | ToService service => Done (self, rt_path_to_service self service)
  | ToServices service level seq =>
      Done (rt_path_to_services self service seq level source relay_from)
  end.

Lemma level_roundtrip l : level_from_u8 (level_to_u8 l) = l.
Proof. by destruct l. Qed.

Lemma level_to_u8_range l : u8 (level_to_u8 l).
Proof. destruct l; unfold u8; cbn; lia. Qed.

(** A broadcast level is a set of layers: two nodes are at the same level when
    they share the layers above it. *)
Lemma same_level_layers l x y :
  same_level l x y = true ↔
  eq_util_layer x y ≤ match l with Global => 4 | Geo1 => 3 | Geo2 => 2 | Group => 1 end.
Proof.
  assert (geo1 x = byte_at x 3 ∧ geo1 y = byte_at y 3) as [H1 H2] by done.
  assert (geo2 x = byte_at x 2 ∧ geo2 y = byte_at y 2) as [H3 H4] by done.
  assert (group x = byte_at x 1 ∧ group y = byte_at y 1) as [H5 H6] by done.
  unfold same_level, eq_util_layer. rewrite H1, H2, H3, H4, H5, H6.
  destruct l, (byte_at x 3 =? byte_at y 3), (byte_at x 2 =? byte_at y 2),
    (byte_at x 1 =? byte_at y 1), (byte_at x 0 =? byte_at y 0); cbn; split; try done; lia.
Qed.
