(* ===== verification/Registry.v ===== *)
(** * The service registry ([packages/core/router/src/core/registry.rs],
    [registry/dest.rs])

    For every service id, whether it runs here and the known paths to nodes
    that run it. Unlike a routing table it reports every path to its
    followers, with the node it leads to and its score. *)

From S2P Require Import Prelude NodeId ConnId Metric Paths.

Definition REGISTRY_LOCAL_BW : Z := 1000000.

Inductive RegistryDestDelta :=
| SetServicePath (conn : ConnId) (dest : NodeId) (score : Z)
| DelServicePath (conn : ConnId).

Record RegistryDest := mkRegistryDest {
  rdest_paths : list Path;
  rdest_deltas : list RegistryDestDelta;
}.

Definition rdest_default : RegistryDest := mkRegistryDest [] [].
#[global] Instance RegistryDest_inhabited : Inhabited RegistryDest := populate rdest_default.

Definition rdest_next (self : RegistryDest) (excepts : list NodeId)
    : outcome (option (ConnId * NodeId)) := next_in excepts (rdest_paths self).

Definition rdest_best_for (self : RegistryDest) (neighbour_id : NodeId) : option Path :=
  best_for_in neighbour_id (rdest_paths self).

Definition rdest_next_path (self : RegistryDest) (excepts : list NodeId)
    : outcome (option Path) := next_path_in excepts (rdest_paths self).

Definition rdest_has_path (self : RegistryDest) (over : ConnId) : bool :=
  bool_decide (is_Some (index_of over (rdest_paths self))).

Definition rdest_is_empty (self : RegistryDest) : bool :=
  match rdest_paths self with [] => true | _ => false end.

Definition rdest_dump (self : RegistryDest) : outcome (option NodeId * gmap NodeId Metric) :=
  nx ← rdest_next self [];
  paths ← foldM (λ (acc : gmap NodeId Metric) p,
              n ← over_node (path_metric p); Done (<[n := path_metric p]> acc))
            ∅ (rdest_paths self);
  Done (match nx with Some (_, n) => Some n | None => None end, paths).

Definition rdest_set_path (self : RegistryDest) (over : ConnId) (metric : Metric)
    : outcome RegistryDest :=
  deltas ←
    match index_of over (rdest_paths self) with
    | Some index =>
        let slot := path_metric (rdest_paths self !!! index) in
        changed ← (if negb (score slot =? score metric) then Done true
                   else d1 ← dest_node slot; d2 ← dest_node metric; Done (negb (d1 =? d2)));
        (if changed : bool then
           d ← dest_node metric; Done (rdest_deltas self ++ [SetServicePath over d (score metric)])
         else Done (rdest_deltas self))
    | None =>
        d ← dest_node metric; Done (rdest_deltas self ++ [SetServicePath over d (score metric)])
    end;
  Done (mkRegistryDest (sort_paths (upsert over metric (rdest_paths self))) deltas).

Definition rdest_del_path (self : RegistryDest) (over : ConnId) : RegistryDest * option Path :=
  match index_of over (rdest_paths self) with
  | Some index =>
      (mkRegistryDest (delete index (rdest_paths self)) (rdest_deltas self ++ [DelServicePath over]),
       rdest_paths self !! index)
  | None => (self, None)
  end.

Definition rdest_pop_delta (self : RegistryDest) : RegistryDest * option RegistryDestDelta :=
  match rdest_deltas self with
  | [] => (self, None)
  | d :: ds => (mkRegistryDest (rdest_paths self) ds, Some d)
  end.

Inductive RegistryDelta :=
| ServiceRemote (service : Z) (delta : RegistryDestDelta)
| SetServiceLocal (service : Z)
| DelServiceLocal (service : Z).

Abbreviation RegistrySync := (list (Z * Metric)) (only parsing).

(** [core/mod.rs] *)
Inductive ServiceDestination :=
| DestLocal
| DestRemote (conn : ConnId) (node : NodeId).

Record Registry := mkRegistry {
  registry_node_id : NodeId;
  local_destinations : list bool;               (* [bool; 256] *)
  remote_destinations : list RegistryDest;      (* [RegistryDest; 256] *)
  registry_deltas : list RegistryDelta;
}.

Definition registry_new (node_id : NodeId) : Registry :=
  mkRegistry node_id (replicate 256 false) (replicate 256 rdest_default) [].

Definition registry_dest (r : Registry) (i : Z) : RegistryDest := arr_get (remote_destinations r) i.
Definition registry_local (r : Registry) (i : Z) : bool := arr_get (local_destinations r) i.

Definition registry_dump (r : Registry) : outcome (list Z * gmap Z (option NodeId * gmap NodeId Metric)) :=
  foldM (λ '(local, remotes) i,
    let local := if registry_local r i then local ++ [i] else local in
    if negb (rdest_is_empty (registry_dest r i))
    then d ← rdest_dump (registry_dest r i); Done (local, <[i := d]> remotes)
    else Done (local, remotes)) ([], ∅) u8_all.

Definition add_service (r : Registry) (service_id : Z) : Registry :=
  mkRegistry (registry_node_id r) (arr_set (local_destinations r) service_id true)
    (remote_destinations r) (registry_deltas r ++ [SetServiceLocal service_id]).

Definition remove_service (r : Registry) (service_id : Z) : Registry :=
  mkRegistry (registry_node_id r) (arr_set (local_destinations r) service_id false)
    (remote_destinations r) (registry_deltas r ++ [DelServiceLocal service_id]).

(** [while let Some(delta) = dest.pop_delta() { deltas.push_back(..) }] for
    the destination of service [i]. *)
Definition registry_poll (r : Registry) (i : Z) (d : RegistryDest) : Registry :=
  mkRegistry (registry_node_id r) (local_destinations r)
    (arr_set (remote_destinations r) i (mkRegistryDest (rdest_paths d) []))
    (drain_into (ServiceRemote i) (rdest_deltas d) (registry_deltas r)).

Definition registry_del_direct (r : Registry) (conn : ConnId) : Registry :=
  foldl (λ r i, registry_poll r i (rdest_del_path (registry_dest r i) conn).1) r u8_all.

Definition registry_next (r : Registry) (service_id : Z) (excepts : list NodeId)
    : outcome (option ServiceDestination) :=
  if registry_local r service_id then Done (Some DestLocal)
  else
    nx ← rdest_next (registry_dest r service_id) excepts;
    Done match nx with Some (c, n) => Some (DestRemote c n) | None => None end.

(** The body of the loop of [apply_sync]. *)
Definition registry_apply_sync_step (conn : ConnId) (cached : gmap Z Metric) (r : Registry) (i : Z)
    : outcome Registry :=
  dest ← match cached !! i with
         | None => Done (rdest_del_path (registry_dest r i) conn).1
         | Some metric => rdest_set_path (registry_dest r i) conn metric
         end;
  Done (registry_poll r i dest).

Definition registry_apply_sync (r : Registry) (conn : ConnId) (metric : Metric) (sync : RegistrySync)
    : outcome Registry :=
  src ← over_node metric;
  foldM (registry_apply_sync_step conn (sync_cached metric sync)) r u8_all.

Definition registry_pop_delta (r : Registry) : Registry * option RegistryDelta :=
  match registry_deltas r with
  | [] => (r, None)
  | d :: ds => (mkRegistry (registry_node_id r) (local_destinations r) (remote_destinations r) ds, Some d)
  end.

Definition registry_sync_for (r : Registry) (node : NodeId) : RegistrySync :=
  foldl (λ res i,
    if registry_local r i then res ++ [(i, mkMetric 0 [] REGISTRY_LOCAL_BW)]
    else if negb (rdest_is_empty (registry_dest r i)) then
      match rdest_best_for (registry_dest r i) node with
      | Some path => res ++ [(i, path_metric path)]
      | None => res
      end
    else res) [] u8_all.

(** ** What the deltas tell a follower

    A follower keeps, per service, the entries (connection, node, score) of
    the paths, in order. *)

Abbreviation SvcEntry := (ConnKey * (NodeId * Z))%type (only parsing).

Definition svc_entry (p : Path) : SvcEntry :=
  (path_key p, (default 0 (head (hops (path_metric p))), path_score p)).

Definition svc_view (ps : list Path) : list SvcEntry := svc_entry <$> ps.

Definition entry_score (e : SvcEntry) : Z := e.2.2.

Definition svc_apply (l : list SvcEntry) (d : RegistryDestDelta) : list SvcEntry :=
  match d with
  | SetServicePath c dest sc => stable_sort entry_score (kupsert fst (conn_key c, (dest, sc)) l)
  | DelServicePath c => kdel fst (conn_key c) l
  end.

Definition svc_follow (l : list SvcEntry) (ds : list RegistryDestDelta) : list SvcEntry :=
  foldl svc_apply l ds.

Lemma svc_view_keys ps : (svc_view ps).*1 = path_key <$> ps.
Proof. unfold svc_view. by rewrite <- list_fmap_compose. Qed.

Lemma svc_view_sort ps : svc_view (sort_paths ps) = stable_sort entry_score (svc_view ps).
Proof. unfold svc_view, sort_paths. by rewrite (stable_sort_map path_score). Qed.

Lemma svc_view_upsert c m ps :
  svc_view (upsert c m ps) =
  kupsert fst (conn_key c, (default 0 (head (hops m)), score m)) (svc_view ps).
Proof.
  set (e := (conn_key c, _)). unfold upsert.
  destruct (index_of c ps) as [i|] eqn:Hi.
  - apply index_of_Some in Hi as (l1 & p & l2 & -> & <- & Hk & Hl1). rewrite alter_middle.
    destruct (kupsert_spec fst e (svc_view (l1 ++ p :: l2))) as [[Hni _]|(k1 & y & k2 & Heq & Hy & Hk1 & ->)].
    { destruct Hni. rewrite svc_view_keys, fmap_app, fmap_cons. apply elem_of_app. right. rewrite Hk. left. }
    assert (k1 = svc_view l1 ∧ k2 = svc_view l2) as [-> ->].
    { unfold svc_view in Heq. rewrite fmap_app, fmap_cons in Heq. clear - Heq Hy Hk1 Hk Hl1.
      revert k1 Heq Hk1. induction l1 as [|q l1 IH]; intros [|e1 k1] Heq Hk1; cbn in *.
      - split; [done|]. by inversion Heq.
      - inversion Heq; subst. destruct Hk1. apply elem_of_cons. left. by rewrite <- Hk.
      - inversion Heq; subst. destruct Hl1. apply elem_of_cons. left. by rewrite <- Hy.
      - inversion Heq; subst. destruct (IH ltac:(set_solver) k1) as [-> ->]; [done | set_solver | done]. }
    unfold svc_view. rewrite fmap_app, fmap_cons. do 2 f_equal.
    unfold svc_entry, e, path_score. cbn. by rewrite <- Hk.
  - apply index_of_None in Hi. unfold kupsert.
    destruct (list_find _ _) as [[j y]|] eqn:Hf.
    + apply list_find_Some in Hf as (Hj & Hy & _). destruct Hi.
      rewrite <- svc_view_keys. change (conn_key c) with (fst e). rewrite <- Hy.
      apply list_elem_of_fmap_2. by eapply list_elem_of_lookup_2.
    + unfold svc_view. by rewrite fmap_app.
Qed.

Lemma rdest_set_path_spec d c m :
  paths_wf (rdest_paths d) → hops m ≠ [] →
  ∃ d', rdest_set_path d c m = Done d' ∧
    rdest_paths d' = sort_paths (upsert c m (rdest_paths d)) ∧
    ∃ ds, rdest_deltas d' = rdest_deltas d ++ ds ∧
      svc_follow (svc_view (rdest_paths d)) ds = svc_view (rdest_paths d').
Proof.
  intros Hwf Hm. destruct (dest_node_nonempty m Hm) as [n Hn].
  pose proof (svc_view_upsert c m (rdest_paths d)) as Hv.
  pose proof (proj1 (dest_node_Done m n) Hn) as Hhead. rewrite Hhead in Hv. cbn in Hv.
  assert (svc_follow (svc_view (rdest_paths d)) [SetServicePath c n (score m)]
          = svc_view (sort_paths (upsert c m (rdest_paths d)))) as Hset.
  { by rewrite svc_view_sort, Hv. }
  unfold rdest_set_path. destruct (index_of c (rdest_paths d)) as [i|] eqn:Hi.
  2:{ rewrite Hn. cbn. eexists. split_and!; [done..|]. by eexists. }
  pose proof Hi as (l1 & p & l2 & Heq & Hlen & Hk & Hl1)%index_of_Some.
  assert (rdest_paths d !!! i = p) as Hp.
  { apply list_lookup_total_correct. rewrite Heq. apply list_lookup_middle. by symmetry. }
  rewrite Hp. destruct (Z.eqb_spec (score (path_metric p)) (score m)) as [Hsc|Hsc]; cbn.
  2:{ rewrite Hn. cbn. eexists. split_and!; [done..|]. by eexists. }
  destruct (dest_node_nonempty (path_metric p)) as [n' Hn'].
  { pose proof (wf_hops _ Hwf) as Hh. rewrite Heq, Forall_app, Forall_cons in Hh. tauto. }
  rewrite Hn', Hn. cbn. destruct (Z.eqb_spec n' n) as [->|Hne]; cbn.
  2:{ eexists. split_and!; [done..|]. by eexists. }
  eexists. split_and!; [done..|]. exists []. rewrite app_nil_r. split; [done|]. cbn.
  rewrite svc_view_sort, svc_view_upsert, Hhead. cbn.
  rewrite <- (stable_sort_id path_score (rdest_paths d)) at 1 by apply Hwf.
  fold (sort_paths (rdest_paths d)). rewrite svc_view_sort. f_equal.
  rewrite <- Hv. unfold upsert. rewrite Hi, Heq, <- Hlen, alter_middle. unfold svc_view.
  rewrite !fmap_app, !fmap_cons. do 2 f_equal.
  unfold svc_entry, path_score. cbn. apply dest_node_Done in Hn'. by rewrite Hn', Hhead, Hsc.
Qed.

Lemma rdest_del_path_spec d c :
  paths_wf (rdest_paths d) →
  let d' := (rdest_del_path d c).1 in
  paths_wf (rdest_paths d') ∧ paths_map (rdest_paths d') = delete (conn_key c) (paths_map (rdest_paths d)) ∧
  ∃ ds, rdest_deltas d' = rdest_deltas d ++ ds ∧
    svc_follow (svc_view (rdest_paths d)) ds = svc_view (rdest_paths d').
Proof.
  intros Hwf. unfold rdest_del_path. destruct (index_of c (rdest_paths d)) as [i|] eqn:Hi; cbn.
  - split_and!; [by apply remove_wf | by apply remove_map |]. eexists. split; [done|]. cbn.
    apply index_of_Some in Hi as (l1 & p & l2 & Heq & <- & Hk & _).
    pose proof (wf_keys _ Hwf) as Hnd. rewrite Heq in *. rewrite delete_middle.
    unfold svc_view. rewrite !fmap_app, fmap_cons. apply kdel_split; [|done].
    rewrite <- fmap_cons, <- fmap_app. change (svc_entry <$> l1 ++ p :: l2) with (svc_view (l1 ++ p :: l2)).
    by rewrite svc_view_keys.
  - apply index_of_None in Hi. split_and!; [done | | exists []; by rewrite app_nil_r].
    rewrite delete_id; [done|]. by apply paths_map_None.
Qed.

(** ** Invariant *)

Record registry_wf (r : Registry) : Prop := {
  rwf_local : length (local_destinations r) = 256%nat;
  rwf_remote : length (remote_destinations r) = 256%nat;
  rwf_paths : ∀ i, u8 i → paths_wf (rdest_paths (registry_dest r i));
  rwf_drained : ∀ i, u8 i → rdest_deltas (registry_dest r i) = [];
}.

Definition service_deltas (i : Z) (ds : list RegistryDelta) : list RegistryDestDelta :=
  omap (λ d, match d with ServiceRemote s x => if decide (s = i) then Some x else None | _ => None end) ds.

Definition local_apply (i : Z) (b : bool) (d : RegistryDelta) : bool :=
  match d with
  | SetServiceLocal s => if decide (s = i) then true else b
  | DelServiceLocal s => if decide (s = i) then false else b
  | ServiceRemote _ _ => b
  end.

Definition delta_service (d : RegistryDelta) : Z :=
  match d with ServiceRemote s _ | SetServiceLocal s | DelServiceLocal s => s end.

Definition registry_ext (r r' : Registry) : Prop :=
  registry_node_id r' = registry_node_id r ∧
  ∃ ds, registry_deltas r' = registry_deltas r ++ ds ∧ Forall (λ d, u8 (delta_service d)) ds ∧
    (∀ i, u8 i → svc_follow (svc_view (rdest_paths (registry_dest r i))) (service_deltas i ds)
                 = svc_view (rdest_paths (registry_dest r' i))) ∧
    (∀ i, u8 i → foldl (local_apply i) (registry_local r i) ds = registry_local r' i).

#[global] Instance registry_ext_preorder : PreOrder registry_ext.
Proof.
  split.
  - intros r. split; [done|]. exists []. split_and!; [by rewrite app_nil_r | done | done | done].
  - intros r1 r2 r3 (Hn & ds & Hd & Hu & Hf & Hl) (Hn' & ds' & Hd' & Hu' & Hf' & Hl').
    split; [congruence|]. exists (ds ++ ds'). split_and!.
    + rewrite Hd', Hd. by rewrite app_assoc.
    + by apply Forall_app.
    + intros i Hi. unfold service_deltas. rewrite omap_app. unfold svc_follow. rewrite foldl_app.
      fold (service_deltas i ds). fold (svc_follow (svc_view (rdest_paths (registry_dest r1 i))) (service_deltas i ds)).
      rewrite Hf by done. by apply Hf'.
    + intros i Hi. rewrite foldl_app, Hl by done. by apply Hl'.
Qed.

Lemma registry_new_wf node_id : registry_wf (registry_new node_id).
Proof.
  assert (∀ i, u8 i → registry_dest (registry_new node_id) i = rdest_default) as Hd.
  { intros i Hi. by apply arr_get_replicate. }
  split; [apply length_replicate | apply length_replicate | |]; intros i Hi; rewrite Hd by done; [|done].
  apply paths_wf_nil.
Qed.

(** ** The operations, service by service *)

Lemma service_deltas_same i ds : service_deltas i (ServiceRemote i <$> ds) = ds.
Proof.
  unfold service_deltas. induction ds as [|d ds IH]; [done|]. cbn.
  rewrite decide_True by done. by rewrite IH.
Qed.

Lemma service_deltas_other i j ds : i ≠ j → service_deltas i (ServiceRemote j <$> ds) = [].
Proof.
  intros Hne. unfold service_deltas. induction ds as [|d ds IH]; [done|]. cbn.
  rewrite decide_False by congruence. apply IH.
Qed.

Lemma local_apply_remote i b j ds : foldl (local_apply i) b (ServiceRemote j <$> ds) = b.
Proof. induction ds as [|d ds IH]; [done|]. apply IH. Qed.

Lemma registry_poll_spec r i d ds :
  registry_wf r → u8 i → paths_wf (rdest_paths d) →
  rdest_deltas d = ds →
  svc_follow (svc_view (rdest_paths (registry_dest r i))) ds = svc_view (rdest_paths d) →
  let r' := registry_poll r i d in
  registry_wf r' ∧ registry_ext r r' ∧ registry_dest r' i = mkRegistryDest (rdest_paths d) [] ∧
  ∀ j, u8 j → i ≠ j → registry_dest r' j = registry_dest r j.
Proof.
  intros [Hl1 Hl2 Hp Hd] Hi Hwf Hds Hf r'.
  assert (registry_dest r' i = mkRegistryDest (rdest_paths d) []) as Hi'.
  { unfold r', registry_dest. cbn. by apply arr_get_set_eq. }
  assert (∀ j, u8 j → i ≠ j → registry_dest r' j = registry_dest r j) as Hj'.
  { intros j Hj Hne. unfold r', registry_dest. cbn. by rewrite arr_get_set_ne. }
  split_and!; [|split|done|done].
  - split; [done | by cbn; rewrite length_arr_set | |]; intros j Hj;
      (destruct (decide (i = j)) as [<-|]; [by rewrite Hi' | by rewrite Hj'; auto]).
  - done.
  - exists (ServiceRemote i <$> ds). split_and!.
    + unfold r'. cbn. by rewrite drain_into_eq, Hds.
    + apply Forall_fmap, Forall_forall. by intros ? _.
    + intros j Hj. destruct (decide (i = j)) as [<-|Hne].
      * rewrite service_deltas_same, Hi'. done.
      * rewrite service_deltas_other by congruence. by rewrite Hj'.
    + intros j Hj. by rewrite local_apply_remote.
Qed.

(** A loop over all services whose body updates its own service. *)
Lemma registry_loop (step : Registry → Z → Registry) (f : Z → list Path → list Path) r :
  (∀ r' i, registry_wf r' → u8 i →
    let r'' := step r' i in
    registry_wf r'' ∧ registry_ext r' r'' ∧
    rdest_paths (registry_dest r'' i) = f i (rdest_paths (registry_dest r' i)) ∧
    ∀ j, u8 j → i ≠ j → registry_dest r'' j = registry_dest r' j) →
  registry_wf r →
  let r' := foldl step r u8_all in
  registry_wf r' ∧ registry_ext r r' ∧
  ∀ i, u8 i → rdest_paths (registry_dest r' i) = f i (rdest_paths (registry_dest r i)).
Proof.
  intros Hstep Hwf r'.
  destruct (foldl_pointwise (λ s, registry_wf s ∧ registry_ext r s) step
      (λ s i, rdest_paths (registry_dest s i)) f u8_all r)
    as [[Hwf' Hext] Hget]; [apply NoDup_u8_all | | | | by split |].
  - intros s i Hi%elem_of_u8_all [Hs He]. destruct (Hstep s i Hs Hi) as (? & ? & _).
    split; [done|]. by etransitivity.
  - intros s i Hi%elem_of_u8_all [Hs He]. by destruct (Hstep s i Hs Hi) as (_ & _ & ? & _).
  - intros s i j Hi%elem_of_u8_all [Hs He] Hne Hj%elem_of_u8_all.
    destruct (Hstep s i Hs Hi) as (_ & _ & _ & Hother). by rewrite Hother.
  - split_and!; [done..|]. intros i Hi. apply Hget. by apply elem_of_u8_all.
Qed.

Lemma registry_del_direct_spec r conn :
  registry_wf r →
  let r' := registry_del_direct r conn in
  registry_wf r' ∧ registry_ext r r' ∧
  ∀ i, u8 i → rdest_paths (registry_dest r' i)
              = match index_of conn (rdest_paths (registry_dest r i)) with
                | Some ix => delete ix (rdest_paths (registry_dest r i))
                | None => rdest_paths (registry_dest r i)
                end.
Proof.
  intros Hwf. apply (registry_loop _ (λ i ps, match index_of conn ps with Some ix => delete ix ps | None => ps end));
    [|done].
  intros r' i Hwf' Hi.
  destruct (rdest_del_path_spec (registry_dest r' i) conn) as (Hp & _ & ds & Hds & Hf); [by apply rwf_paths|].
  rewrite (rwf_drained _ Hwf') in Hds by done. cbn in Hds.
  destruct (registry_poll_spec r' i (rdest_del_path (registry_dest r' i) conn).1 ds) as (H1 & H2 & H3 & H4); try done.
  split_and!; [done..| |done]. rewrite H3. cbn. unfold rdest_del_path. by destruct (index_of _ _).
Qed.

(** What [apply_sync] does to the paths of service [i]. *)
Definition synced_paths (conn : ConnId) (cached : gmap Z Metric) (i : Z) (ps : list Path) : list Path :=
  match cached !! i with
  | Some metric => sort_paths (upsert conn metric ps)
  | None => match index_of conn ps with Some ix => delete ix ps | None => ps end
  end.

Lemma registry_apply_sync_step_spec conn cached r i :
  (∀ i m, cached !! i = Some m → hops m ≠ []) → registry_wf r → u8 i →
  ∃ r', registry_apply_sync_step conn cached r i = Done r' ∧
    registry_wf r' ∧ registry_ext r r' ∧
    rdest_paths (registry_dest r' i) = synced_paths conn cached i (rdest_paths (registry_dest r i)) ∧
    ∀ j, u8 j → i ≠ j → registry_dest r' j = registry_dest r j.
Proof.
  intros Hc Hwf Hi. unfold registry_apply_sync_step, synced_paths.
  destruct (cached !! i) as [m|] eqn:Hm.
  - destruct (rdest_set_path_spec (registry_dest r i) conn m) as (d' & -> & Hp & ds & Hds & Hf);
      [by apply rwf_paths | by eapply Hc |].
    rewrite (rwf_drained _ Hwf) in Hds by done. cbn in *. eexists. split; [done|].
    destruct (registry_poll_spec r i d' ds) as (H1 & H2 & H3 & H4); try done.
    + rewrite Hp. apply put_wf; [by eapply Hc | by apply rwf_paths].
    + split_and!; [done..| |done]. by rewrite H3.
  - cbn. eexists. split; [done|].
    destruct (rdest_del_path_spec (registry_dest r i) conn) as (Hp & _ & ds & Hds & Hf); [by apply rwf_paths|].
    rewrite (rwf_drained _ Hwf) in Hds by done. cbn in Hds.
    destruct (registry_poll_spec r i (rdest_del_path (registry_dest r i) conn).1 ds) as (H1 & H2 & H3 & H4); try done.
    split_and!; [done..| |done]. rewrite H3. cbn. unfold rdest_del_path. by destruct (index_of _ _).
Qed.

Lemma registry_apply_sync_spec r conn metric sync n :
  registry_wf r → over_node metric = Done n →
  ∃ r', registry_apply_sync r conn metric sync = Done r' ∧ registry_wf r' ∧ registry_ext r r' ∧
    ∀ i, u8 i → rdest_paths (registry_dest r' i)
                = synced_paths conn (sync_cached metric sync) i (rdest_paths (registry_dest r i)).
Proof.
  intros Hwf Hn. unfold registry_apply_sync. rewrite Hn. cbn.
  assert (∀ i m, sync_cached metric sync !! i = Some m → hops m ≠ []) as Hc.
  { intros i m. apply sync_cached_nonempty. intros Hh. apply over_node_Done in Hn. by rewrite Hh in Hn. }
  set (step := registry_apply_sync_step conn (sync_cached metric sync)).
  set (step' := λ r i, match step r i with Done r' => r' | Panic => r end).
  assert (∀ r' i, registry_wf r' → u8 i → ∃ r'', step r' i = Done r'' ∧ step' r' i = r'' ∧ registry_wf r'') as Hs.
  { intros r' i Hwf' Hi. destruct (registry_apply_sync_step_spec conn _ r' i Hc Hwf' Hi) as (r'' & Hr & Hw & _).
    exists r''. unfold step', step. by rewrite Hr. }
  rewrite (foldM_pure step step' registry_wf); [|done|].
  2:{ intros s i Hi%elem_of_u8_all Hwf'. by destruct (Hs s i Hwf' Hi) as (r'' & -> & -> & ?). }
  eexists. split; [done|]. apply (registry_loop step' (synced_paths conn (sync_cached metric sync))); [|done].
  intros r' i Hwf' Hi.
  destruct (registry_apply_sync_step_spec conn _ r' i Hc Hwf' Hi) as (r'' & Hr & Hspec).
  unfold step', step. by rewrite Hr.
Qed.

Lemma local_ext r s b :
  registry_wf r → u8 s →
  let r' := (if b : bool then add_service else remove_service) r s in
  registry_wf r' ∧ registry_ext r r' ∧ registry_local r' s = b ∧
  ∀ i, u8 i → i ≠ s → registry_local r' i = registry_local r i.
Proof.
  intros [Hl1 Hl2 Hp Hd] Hs r'.
  assert (registry_local r' s = b) as Hs'.
  { unfold r', registry_local. destruct b; cbn; by apply arr_get_set_eq. }
  assert (∀ i, u8 i → i ≠ s → registry_local r' i = registry_local r i) as Hi'.
  { intros i Hi Hne. unfold r', registry_local. destruct b; cbn; by rewrite arr_get_set_ne. }
  split_and!; [|split|done|done].
  - split; destruct b; cbn; rewrite ?length_arr_set; done.
  - by destruct b.
  - exists [if b then SetServiceLocal s else DelServiceLocal s]. split_and!.
    + by destruct b.
    + apply Forall_singleton. by destruct b.
    + intros i Hi. by destruct b.
    + intros i Hi. destruct (decide (s = i)) as [<-|Hne].
      * rewrite Hs'. destruct b; cbn; by rewrite decide_True.
      * rewrite Hi' by congruence. destruct b; cbn; by rewrite decide_False.
Qed.

Lemma elem_of_registry_sync r node i m :
  (i, m) ∈ registry_sync_for r node →
  u8 i ∧ ((registry_local r i = true ∧ m = mkMetric 0 [] REGISTRY_LOCAL_BW) ∨
          (registry_local r i = false ∧
           ∃ p, p ∈ rdest_paths (registry_dest r i) ∧ m = path_metric p ∧ node ∉ hops m)).
Proof.
  unfold registry_sync_for.
  assert (∀ l res, (i, m) ∈ foldl (λ res i,
      if registry_local r i then res ++ [(i, mkMetric 0 [] REGISTRY_LOCAL_BW)]
      else if negb (rdest_is_empty (registry_dest r i)) then
        match rdest_best_for (registry_dest r i) node with
        | Some path => res ++ [(i, path_metric path)]
        | None => res
        end
      else res) res l →
    (i, m) ∈ res ∨ (i ∈ l ∧ ((registry_local r i = true ∧ m = mkMetric 0 [] REGISTRY_LOCAL_BW) ∨
          (registry_local r i = false ∧
           ∃ p, p ∈ rdest_paths (registry_dest r i) ∧ m = path_metric p ∧ node ∉ hops m)))) as Hgen.
  { induction l as [|j l IH]; cbn; intros res H; [by left|].
    apply IH in H as [H|[? ?]]; [|right; split; [by right|done]].
    destruct (registry_local r j) eqn:Hl.
    { apply elem_of_app in H as [H|[= -> ->]%list_elem_of_singleton]; [by left|].
      right. split; [left|]. by left. }
    case_match; [|by left].
    destruct (rdest_best_for (registry_dest r j) node) as [p|] eqn:Hb; [|by left].
    apply elem_of_app in H as [H|[= -> ->]%list_elem_of_singleton]; [by left|].
    right. split; [left|]. right. split; [done|].
    apply best_for_in_Some in Hb as [Hp Hn]. by exists p. }
  intros [H|[Hi H]]%Hgen; [by apply not_elem_of_nil in H|]. split; [by apply elem_of_u8_all|done].
Qed.

#[export] Hint Resolve registry_new_wf rwf_paths : paths.
