(* ===== verification/Router.v ===== *)
(** * The router ([packages/core/router/src/core/router.rs])

    Four tables, one per layer of the node id, and the service registry. *)

From S2P Require Import Prelude NodeId ConnId Metric Paths Dest Table Registry.

Inductive RouterDelta :=
| RDTable (layer : Z) (delta : TableDelta)
| RDRegistry (delta : RegistryDelta).

(** [RouterSync(pub RegistrySync, pub [Option<TableSync>; 4])] *)
Abbreviation RouterSync := (RegistrySync * list (option TableSync))%type (only parsing).

Record Router := mkRouter {
  router_node_id : NodeId;
  tables : list Table;            (* [Table; 4] *)
  service_registry : Registry;
}.

Definition router_new (local_node_id : NodeId) : Router :=
  mkRouter local_node_id (table_new local_node_id <$> [0; 1; 2; 3]) (registry_new local_node_id).

Definition table_at (r : Router) (l : Z) : Table := tables r !!! Z.to_nat l.

Definition with_table (r : Router) (l : Z) (t : Table) : Router :=
  mkRouter (router_node_id r) (<[Z.to_nat l := t]> (tables r)) (service_registry r).

Definition router_dump (r : Router) :=
  services ← registry_dump (service_registry r);
  l0 ← table_dump (table_at r 0); l1 ← table_dump (table_at r 1);
  l2 ← table_dump (table_at r 2); l3 ← table_dump (table_at r 3);
  Done (router_node_id r, services, [l0; l1; l2; l3]).

Definition router_size (r : Router) : Z :=
  foldl (λ size i, size + table_size (table_at r i)) 0 [0; 1; 2; 3].

Definition register_service (r : Router) (service_id : Z) : Router :=
  mkRouter (router_node_id r) (tables r) (add_service (service_registry r) service_id).

Definition service_next (r : Router) (service_id : Z) (excepts : list NodeId) :=
  registry_next (service_registry r) service_id excepts.

(** The [debug_assert!] on [eq_util_layer > 0] is not in a release build. *)
Definition set_direct (r : Router) (over : ConnId) (metric : Metric) : outcome Router :=
  over_node ← over_node metric;
  let eq_util := eq_util_layer (router_node_id r) over_node in
  if eq_util <=? 4 then
    if 0 <? eq_util then
      t ← add_direct (table_at r (eq_util - 1)) over metric;
      Done (with_table r (eq_util - 1) t)
    else Done r
  else Panic.

Definition del_direct (r : Router) (over : ConnId) : Router :=
  mkRouter (router_node_id r) ((λ t, table_del_direct t over) <$> tables r)
           (registry_del_direct (service_registry r) over).

Definition router_next (r : Router) (dest : NodeId) (excepts : list NodeId)
    : outcome (option (ConnId * NodeId)) :=
  let eq_util := eq_util_layer (router_node_id r) dest in
  if eq_util =? 0 then Done None
  else match tables r !! Z.to_nat (eq_util - 1) with
       | Some t => table_next t dest excepts
       | None => Done None
       end.

Definition router_next_path (r : Router) (dest : NodeId) (excepts : list NodeId)
    : outcome (option Path) :=
  let eq_util := eq_util_layer (router_node_id r) dest in
  if eq_util =? 0 then Done None
  else match tables r !! Z.to_nat (eq_util - 1) with
       | Some t => table_next_path t dest excepts
       | None => Done None
       end.

(** The loop of [closest_node] over the layers that remain. *)
Fixpoint closest_node_loop (r : Router) (key : NodeId) (excepts : list NodeId) (layers : list Z)
    : outcome (option (ConnId * NodeId * Z * NodeIndex)) :=
  match layers with
  | [] => Done None
  | i :: layers =>
      index ← layer key i;
      closest ← table_closest_for (table_at r i) index excepts;
      match closest with
      | Some (next_index, next_conn, next_node) =>
          let next_distance := Z.lxor next_index index in
          current_index ← layer (router_node_id r) i;
          let current_distance := Z.lxor index current_index in
          if next_distance <? current_distance
          then Done (Some (next_conn, next_node, i, next_index))
          else closest_node_loop r key excepts layers
      | None => closest_node_loop r key excepts layers
      end
  end.

Definition closest_node (r : Router) (key : NodeId) (excepts : list NodeId) :=
  closest_node_loop r key excepts [3; 2; 1; 0].

Definition create_sync (r : Router) (for_node : NodeId) : outcome RouterSync :=
  s0 ← table_sync_for (table_at r 0) for_node; s1 ← table_sync_for (table_at r 1) for_node;
  s2 ← table_sync_for (table_at r 2) for_node; s3 ← table_sync_for (table_at r 3) for_node;
  Done (registry_sync_for (service_registry r) for_node, [s0; s1; s2; s3]).

(** The loop of [apply_sync] over the tables. *)
Definition apply_table_sync (conn : ConnId) (metric : Metric) (r : Router)
    (entry : nat * option TableSync) : outcome Router :=
  match entry with
  | (index, Some table_sync) =>
      t ← table_apply_sync (tables r !!! index) conn metric table_sync;
      Done (with_table r (Z.of_nat index) t)
  | (_, None) => Done r
  end.

Definition apply_sync (r : Router) (conn : ConnId) (metric : Metric) (sync : RouterSync)
    : outcome Router :=
  reg ← registry_apply_sync (service_registry r) conn metric sync.1;
  foldM (apply_table_sync conn metric)
    (mkRouter (router_node_id r) (tables r) reg) (imap pair sync.2).

(** The loop of [pop_delta] over the tables that remain. *)
Fixpoint pop_table_delta (r : Router) (layers : list Z) : Router * option RouterDelta :=
  match layers with
  | [] => (r, None)
  | l :: layers =>
      match table_pop_delta (table_at r l) with
      | (t, Some delta) => (with_table r l t, Some (RDTable l delta))
      | (_, None) => pop_table_delta r layers
      end
  end.

Definition router_pop_delta (r : Router) : Router * option RouterDelta :=
  match registry_pop_delta (service_registry r) with
  | (reg, Some delta) => (mkRouter (router_node_id r) (tables r) reg, Some (RDRegistry delta))
  | (_, None) => pop_table_delta r [0; 1; 2; 3]
  end.

(** ** Invariant *)

Definition is_layer (l : Z) : Prop := 0 ≤ l ≤ 3.

Record router_wf (r : Router) : Prop := {
  rt_length : length (tables r) = 4%nat;
  rt_table : ∀ l, is_layer l →
    table_wf (table_at r l) ∧ table_layer (table_at r l) = l ∧
    table_node_id (table_at r l) = router_node_id r;
  rt_registry : registry_wf (service_registry r);
  (* no table routes to the node's own index *)
  rt_own : ∀ l, is_layer l → dest_paths (table_dest (table_at r l) (byte_at (router_node_id r) l)) = [];
}.

(** [r'] extends [r]: every component extends its counterpart. *)
Definition router_ext (r r' : Router) : Prop :=
  router_node_id r' = router_node_id r ∧
  (∀ l, is_layer l → table_ext (table_at r l) (table_at r' l)) ∧
  registry_ext (service_registry r) (service_registry r').

#[global] Instance router_ext_preorder : PreOrder router_ext.
Proof.
  split.
  - intros r. split_and!; [done | intros l Hl; reflexivity | reflexivity].
  - intros r1 r2 r3 (H1 & H2 & H3) (H4 & H5 & H6). split_and!; [congruence | | by etransitivity].
    intros l Hl. etransitivity; [by apply H2 | by apply H5].
Qed.

Lemma is_layer_cases l : is_layer l → l = 0 ∨ l = 1 ∨ l = 2 ∨ l = 3.
Proof. unfold is_layer. lia. Qed.

Lemma table_at_with_eq r l t :
  length (tables r) = 4%nat → is_layer l → table_at (with_table r l t) l = t.
Proof.
  intros Hlen Hl. unfold table_at, with_table. cbn. apply list_lookup_total_insert_eq.
  rewrite Hlen. unfold is_layer in Hl. lia.
Qed.

Lemma table_at_with_ne r l l' t :
  is_layer l → is_layer l' → l ≠ l' → table_at (with_table r l t) l' = table_at r l'.
Proof.
  intros Hl Hl' Hne. unfold table_at, with_table. cbn. apply list_lookup_total_insert_ne.
  unfold is_layer in *. lia.
Qed.

Lemma router_new_table n l : is_layer l → table_at (router_new n) l = table_new n l.
Proof. by intros [->|[->|[->| ->]]]%is_layer_cases. Qed.

Lemma router_new_wf n : router_wf (router_new n).
Proof.
  split; [done | | apply registry_new_wf |].
  - intros l Hl. rewrite router_new_table by done. split_and!; [by apply table_new_wf | done | done].
  - intros l Hl. rewrite router_new_table by done. unfold table_dest, table_new. cbn [dests].
    rewrite arr_get_replicate; [done|]. apply byte_at_u8.
Qed.

(** Replacing one table by an extension of it that keeps the own index free. *)
Lemma with_table_wf r l t :
  router_wf r → is_layer l → table_wf t → table_ext (table_at r l) t →
  dest_paths (table_dest t (byte_at (router_node_id r) l)) = [] →
  router_wf (with_table r l t) ∧ router_ext r (with_table r l t).
Proof.
  intros Hwf Hl Ht Hext Hown. pose proof Hwf as [Hlen Htab Hreg Hself].
  pose proof Hext as (Hnode & Hlayer & _).
  assert (∀ l', is_layer l' → l' ≠ l → table_at (with_table r l t) l' = table_at r l') as Hne.
  { intros l' Hl' Hne. by apply table_at_with_ne. }
  assert (table_at (with_table r l t) l = t) as Heq by (by apply table_at_with_eq).
  split; [split|split_and!].
  - cbn. by rewrite length_insert.
  - intros l' Hl'. destruct (decide (l' = l)) as [->|?]; [|by rewrite Hne; auto].
    rewrite Heq. destruct (Htab l Hl) as (_ & Hly & Hnd). split_and!; [done | congruence | cbn; congruence].
  - done.
  - intros l' Hl'. destruct (decide (l' = l)) as [->|?]; [by rewrite Heq | rewrite Hne by done; by apply Hself].
  - done.
  - intros l' Hl'. destruct (decide (l' = l)) as [->|?]; [by rewrite Heq | by rewrite Hne].
  - done.
Qed.

(** ** Every path a router stores *)

Record router_every (Q : ConnKey → Metric → Prop) (r : Router) : Prop := {
  all_tables : ∀ l i, is_layer l → u8 i → every_path Q (dest_paths (table_dest (table_at r l) i));
  all_services : ∀ i, u8 i → every_path Q (rdest_paths (registry_dest (service_registry r) i));
}.

Abbreviation router_all Q := (router_every (λ _, Q)).

Lemma router_every_mono (P Q : ConnKey → Metric → Prop) r :
  (∀ k m, P k m → Q k m) → router_every P r → router_every Q r.
Proof.
  intros HPQ [Ht Hs]. split; intros; (eapply Forall_impl; [by apply Ht || by apply Hs|]); intros p; apply HPQ.
Qed.

Lemma router_new_all Q n : router_every Q (router_new n).
Proof.
  split.
  - intros l i Hl Hi. rewrite router_new_table by done. unfold table_dest, table_new. cbn [dests].
    rewrite arr_get_replicate by done. constructor.
  - intros i Hi. unfold registry_dest. cbn [service_registry router_new remote_destinations registry_new].
    rewrite arr_get_replicate by done. constructor.
Qed.

Lemma del_path_metrics (Q : ConnKey → Metric → Prop) d c :
  every_path Q (dest_paths d) → every_path Q (dest_paths (del_path d c).1).
Proof. intros H. unfold del_path. case_match; [by apply Forall_delete|done]. Qed.

(** ** The operations *)

Lemma register_service_spec r service :
  router_wf r → u8 service →
  router_wf (register_service r service) ∧ router_ext r (register_service r service) ∧
  ∀ Q, router_every Q r → router_every Q (register_service r service).
Proof.
  intros [Hlen Htab Hreg Hown] Hs.
  destruct (local_ext (service_registry r) service true Hreg Hs) as (Hwf & Hext & _).
  split_and!; [by split | split_and!; [done | intros l Hl; reflexivity | done] |].
  intros Q [Hta Hsv]. by split.
Qed.

Lemma set_direct_spec r c m n :
  router_wf r → over_node m = Done n →
  let k := eq_util_layer (router_node_id r) n in
  ∃ r', set_direct r c m = Done r' ∧ router_wf r' ∧ router_ext r r' ∧
    service_registry r' = service_registry r ∧
    (k = 0 → r' = r) ∧
    (0 < k →
      table_dest (table_at r' (k - 1)) (byte_at n (k - 1))
        = drained (set_path (table_dest (table_at r (k - 1)) (byte_at n (k - 1))) c m)) ∧
    ∀ l i, is_layer l → u8 i → (l, i) ≠ (k - 1, byte_at n (k - 1)) →
      table_dest (table_at r' l) i = table_dest (table_at r l) i.
Proof.
  intros Hwf Hn k. pose proof (eq_util_layer_range (router_node_id r) n) as Hk. fold k in Hk.
  unfold set_direct. rewrite Hn. cbn -[eq_util_layer]. fold k.
  rewrite (proj2 (Z.leb_le k 4)) by lia.
  destruct (Z.ltb_spec 0 k) as [Hk0|Hk0].
  2:{ exists r. split_and!; try done. lia. }
  assert (is_layer (k - 1)) as Hl by (unfold is_layer; lia).
  destruct (rt_table _ Hwf _ Hl) as (Ht & Hlay & Hnode).
  destruct (add_direct_spec _ c m n Ht Hn) as (t' & -> & Ht' & Hext & Hix & Hother). cbn.
  rewrite Hlay in Hix, Hother.
  destruct (with_table_wf r (k - 1) t' Hwf Hl Ht' Hext) as [Hwf' Hext'].
  { rewrite Hother; [by apply rt_own | apply byte_at_u8 |].
    destruct (eq_util_layer_spec (router_node_id r) n k eq_refl) as [_ Hne]. by apply Hne. }
  eexists. split_and!; [done..| lia | |].
  - intros _. by rewrite table_at_with_eq by (done || apply Hwf).
  - intros l i Hl' Hi Hne. destruct (decide (l = k - 1)) as [->|Hne'].
    + rewrite table_at_with_eq by (done || apply Hwf). apply Hother; [done|]. congruence.
    + by rewrite table_at_with_ne.
Qed.

Lemma set_direct_all Q r c m n r' :
  router_wf r → over_node m = Done n → set_direct r c m = Done r' → Q (conn_key c) m →
  router_every Q r → router_every Q r'.
Proof.
  intros Hwf Hn Hr HQ [Hta Hsv].
  destruct (set_direct_spec r c m n Hwf Hn) as (r'' & Hr'' & _ & _ & Hreg & Hk0 & Hix & Hother).
  rewrite Hr in Hr''. injection Hr'' as <-. split; [|by rewrite Hreg].
  intros l i Hl Hi. set (k := eq_util_layer (router_node_id r) n) in *.
  pose proof (eq_util_layer_range (router_node_id r) n). fold k in H.
  destruct (decide (k = 0)) as [Hk|Hk]; [rewrite Hk0 by done; by apply Hta|].
  destruct (decide ((l, i) = (k - 1, byte_at n (k - 1)))) as [[= -> ->]|Hne].
  - rewrite Hix by lia. cbn. apply put_metrics; [done|]. by apply Hta.
  - rewrite Hother by done. by apply Hta.
Qed.

Lemma table_at_del_direct r c l :
  length (tables r) = 4%nat → is_layer l →
  table_at (del_direct r c) l = table_del_direct (table_at r l) c.
Proof.
  intros Hlen Hl. unfold table_at, del_direct. cbn.
  assert (Z.to_nat l < length (tables r))%nat as Hlt by (rewrite Hlen; unfold is_layer in Hl; lia).
  apply list_lookup_total_correct. rewrite list_lookup_fmap.
  by rewrite (list_lookup_lookup_total_lt _ _ Hlt).
Qed.

Lemma del_direct_spec r c :
  router_wf r →
  let r' := del_direct r c in
  router_wf r' ∧ router_ext r r' ∧
  (∀ l i, is_layer l → u8 i →
    table_dest (table_at r' l) i = drained (del_path (table_dest (table_at r l) i) c).1) ∧
  (∀ i, u8 i → paths_map (rdest_paths (registry_dest (service_registry r') i))
               = delete (conn_key c) (paths_map (rdest_paths (registry_dest (service_registry r) i)))).
Proof.
  intros Hwf r'. pose proof Hwf as [Hlen Htab Hreg Hown].
  destruct (registry_del_direct_spec (service_registry r) c Hreg) as (Hreg' & Hrext & Hrp).
  assert (∀ l, is_layer l →
    table_wf (table_at r' l) ∧ table_ext (table_at r l) (table_at r' l) ∧
    ∀ i, u8 i → table_dest (table_at r' l) i = drained (del_path (table_dest (table_at r l) i) c).1) as Ht.
  { intros l Hl. unfold r'. rewrite table_at_del_direct by done.
    apply table_del_direct_spec. by apply Htab. }
  split_and!; [|split_and!| |].
  - split; [by cbn; rewrite length_fmap | | done |].
    + intros l Hl. destruct (Ht l Hl) as (Hw & (Hnd & Hly & _) & _).
      destruct (Htab l Hl) as (_ & ? & ?). split_and!; [done | congruence | cbn; congruence].
    + intros l Hl. destruct (Ht l Hl) as (_ & _ & Hd). cbn.
      rewrite Hd by apply byte_at_u8. cbn. unfold del_path.
      rewrite Hown by done. cbn. by apply Hown.
  - done.
  - intros l Hl. by destruct (Ht l Hl) as (_ & ? & _).
  - done.
  - intros l i Hl Hi. destruct (Ht l Hl) as (_ & _ & Hd). by apply Hd.
  - intros i Hi. unfold r'. cbn. rewrite Hrp by done.
    destruct (index_of c _) as [ix|] eqn:Hix.
    + apply remove_map; [by apply rwf_paths | done].
    + rewrite delete_id; [done|]. apply paths_map_None. by apply index_of_None.
Qed.

Lemma del_direct_all Q r c : router_wf r → router_every Q r → router_every Q (del_direct r c).
Proof.
  intros Hwf [Hta Hsv]. destruct (del_direct_spec r c Hwf) as (_ & _ & Hd & _). split.
  - intros l i Hl Hi. rewrite Hd by done. cbn. apply del_path_metrics. by apply Hta.
  - intros i Hi. destruct (registry_del_direct_spec (service_registry r) c (rt_registry _ Hwf)) as (_ & _ & Hrp).
    cbn. rewrite Hrp by done. case_match; [|by apply Hsv]. apply Forall_delete. by apply Hsv.
Qed.

Lemma deleted_keys ps ps' k :
  paths_map ps' = delete k (paths_map ps) → every_path (λ k' _, k' ≠ k) ps'.
Proof.
  intros Heq. apply Forall_forall. intros p Hp Hk.
  assert (paths_map ps' !! k = None) as Hn by (by rewrite Heq, lookup_delete_eq).
  apply paths_map_None in Hn. apply Hn. rewrite <- Hk. by apply list_elem_of_fmap_2.
Qed.

(** No path goes over the dropped connection any more. *)
Lemma del_direct_keys r c : router_wf r → router_every (λ k _, k ≠ conn_key c) (del_direct r c).
Proof.
  intros Hwf. destruct (del_direct_spec r c Hwf) as (_ & _ & Hd & Hs). split.
  - intros l i Hl Hi. eapply deleted_keys. rewrite Hd by done. cbn. apply del_path_map.
    destruct (rt_table _ Hwf l Hl) as (Ht & _). by apply wf_dests.
  - intros i Hi. eapply deleted_keys. by apply Hs.
Qed.

Lemma router_every_and P Q r : router_every P r → router_every Q r → router_every (λ k m, P k m ∧ Q k m) r.
Proof.
  intros [Hp1 Hp2] [Hq1 Hq2]. split; intros; apply Forall_and; split; by (apply Hp1 || apply Hp2 || apply Hq1 || apply Hq2).
Qed.

Lemma apply_table_sync_spec conn metric n r l s :
  router_wf r → is_layer l → over_node metric = Done n →
  ∃ r', apply_table_sync conn metric r (Z.to_nat l, s) = Done r' ∧
    router_wf r' ∧ router_ext r r' ∧ service_registry r' = service_registry r ∧
    (∀ l', is_layer l' → l' ≠ l → table_at r' l' = table_at r l') ∧
    match s with
    | None => r' = r
    | Some sync => ∀ i, u8 i → table_dest (table_at r' l) i
        = synced_dest (byte_at (router_node_id r) l) (byte_at n l) conn (sync_cached metric sync) i
            (table_dest (table_at r l) i)
    end.
Proof.
  intros Hwf Hl Hn. destruct s as [sync|]; cbn; [|by exists r].
  destruct (rt_table _ Hwf _ Hl) as (Ht & Hlay & Hnode). fold (table_at r l).
  destruct (table_apply_sync_spec _ conn metric sync n Ht Hn) as (t' & -> & Ht' & Hext & Hd). cbn.
  rewrite Hlay, Hnode in Hd. rewrite Z2Nat.id by (unfold is_layer in Hl; lia).
  destruct (with_table_wf r l t' Hwf Hl Ht' Hext) as [Hwf' Hext'].
  { rewrite Hd by apply byte_at_u8. unfold synced_dest. rewrite Z.eqb_refl. by apply rt_own. }
  eexists. split_and!; [done..| |].
  - intros l' Hl' Hne. by apply table_at_with_ne.
  - by rewrite table_at_with_eq by (done || apply Hwf).
Qed.

(** Every entry of a sync satisfies [Q]. *)
Record sync_all (Q : Metric → Prop) (sync : RouterSync) : Prop := {
  sync_services : ∀ i m, (i, m) ∈ sync.1 → Q m;
  sync_tables : ∀ s i m, Some s ∈ sync.2 → (i, m) ∈ s → Q m;
}.

(** What the tables of a sync do to destination [i] of layer [l]; the first of
    them is for layer [k]. *)
Definition sync_dest (k : nat) (r : Router) (n : NodeId) (conn : ConnId) (metric : Metric) (ts : list (option TableSync)) (l i : Z) : Dest :=
  match (if decide (k ≤ Z.to_nat l)%nat then ts !! (Z.to_nat l - k)%nat else None) with
  | Some (Some s) =>
      synced_dest (byte_at (router_node_id r) l) (byte_at n l) conn (sync_cached metric s) i (table_dest (table_at r l) i)
  | _ => table_dest (table_at r l) i
  end.

Lemma apply_tables_spec conn metric n ts : over_node metric = Done n → ∀ k r, router_wf r → (k + length ts ≤ 4)%nat →
  ∃ r', foldM (apply_table_sync conn metric) r (imap (λ j s, ((k + j)%nat, s)) ts) = Done r' ∧
    router_wf r' ∧ router_ext r r' ∧ service_registry r' = service_registry r ∧
    ∀ l i, is_layer l → u8 i → table_dest (table_at r' l) i = sync_dest k r n conn metric ts l i.
Proof.
  intros Hn. induction ts as [|s ts IH]; intros k r Hwf Hk.
  { exists r. split_and!; try done. intros l i _ _. unfold sync_dest. case_decide; by rewrite ?lookup_nil. }
  cbn [length] in Hk. assert (is_layer (Z.of_nat k)) as Hl by (unfold is_layer; lia).
  destruct (apply_table_sync_spec conn metric n r (Z.of_nat k) s Hwf Hl Hn) as (r1 & Hr1 & Hwf1 & Hext1 & Hreg1 & Hother & Hs).
  rewrite Nat2Z.id in Hr1. destruct (IH (S k) r1 Hwf1 ltac:(lia)) as (r2 & Hr2 & Hwf2 & Hext2 & Hreg2 & Hd).
  exists r2. cbn [imap foldM]. rewrite Nat.add_0_r, Hr1, bind_Done. split_and!; [|done|by etransitivity|congruence|].
  - rewrite <- Hr2. f_equal. apply imap_ext. intros j x _. cbn. f_equal. lia.
  - intros l i Hl' Hi. rewrite Hd by done. unfold sync_dest. destruct Hext1 as (Hid & _ & _). rewrite Hid.
    destruct (decide (l = Z.of_nat k)) as [->|Hne].
    + rewrite Nat2Z.id. rewrite decide_False, decide_True, Nat.sub_diag by lia. cbn. destruct s as [s|]; [by apply Hs|]. by rewrite Hs.
    + rewrite (Hother l) by done. destruct (decide (S k ≤ Z.to_nat l)%nat) as [Hle|Hle].
      * rewrite decide_True by lia. replace (Z.to_nat l - k)%nat with (S (Z.to_nat l - S k)) by lia. done.
      * rewrite decide_False; [done|]. unfold is_layer in Hl'. lia.
Qed.

(** The whole [apply_sync]: it never panics on a metric with a neighbour,
    preserves the invariant, queues the deltas that describe it, and changes
    each destination as the sync says. *)
Lemma apply_sync_dests r conn metric n sync :
  router_wf r → over_node metric = Done n → length sync.2 = 4%nat →
  ∃ r', apply_sync r conn metric sync = Done r' ∧ router_wf r' ∧ router_ext r r' ∧
    (∀ l i, is_layer l → u8 i → table_dest (table_at r' l) i = sync_dest 0 r n conn metric sync.2 l i) ∧
    registry_apply_sync (service_registry r) conn metric sync.1 = Done (service_registry r').
Proof.
  intros Hwf Hn Hlen.
  destruct (registry_apply_sync_spec (service_registry r) conn metric sync.1 n (rt_registry _ Hwf) Hn) as (reg & Hreg & Hregwf & Hregext & _).
  set (r0 := mkRouter (router_node_id r) (tables r) reg).
  assert (router_wf r0) as Hwf0 by (destruct Hwf; split; done).
  destruct (apply_tables_spec conn metric n sync.2 Hn 0 r0 Hwf0 ltac:(lia)) as (r' & Hr' & Hwf' & Hext' & Hreg' & Hd).
  exists r'. unfold apply_sync. rewrite Hreg, bind_Done. split_and!; [exact Hr'|done| |done|].
  - etransitivity; [|exact Hext']. split_and!; [done | intros l Hl; reflexivity | done].
  - by rewrite Hreg'.
Qed.

(** Every metric that is stored was stored before or came with the sync. *)
Lemma apply_sync_spec r conn metric n sync :
  router_wf r → over_node metric = Done n → length sync.2 = 4%nat →
  ∃ r', apply_sync r conn metric sync = Done r' ∧ router_wf r' ∧ router_ext r r' ∧
    ∀ Q, sync_all (λ m, Q (conn_key conn) (metric_add m metric)) sync → router_every Q r → router_every Q r'.
Proof.
  intros Hwf Hn Hlen. destruct (apply_sync_dests r conn metric n sync Hwf Hn Hlen) as (r' & Hr' & Hwf' & Hext' & Hd & Hreg).
  exists r'. split_and!; [done..|]. intros Q [Hss Hst] [Hta Hsv]. split.
  - intros l i Hl Hi. rewrite Hd by done. unfold sync_dest. rewrite decide_True, Nat.sub_0_r by lia.
    destruct (sync.2 !! Z.to_nat l) as [[s|]|] eqn:Hs; [|by apply Hta..]. apply list_elem_of_lookup_2 in Hs.
    unfold synced_dest. case_match; [by apply Hta|].
    case_match eqn:Hc; [|case_match; [by apply Hta|]; cbn; apply del_path_metrics; by apply Hta].
    cbn. apply put_metrics; [|by apply Hta]. apply sync_cached_source in Hc as (m0 & Hm0 & ->). by eapply Hst.
  - destruct (registry_apply_sync_spec (service_registry r) conn metric sync.1 n (rt_registry _ Hwf) Hn) as (reg & Hreg2 & _ & _ & Hregp).
    rewrite Hreg in Hreg2. injection Hreg2 as <-. intros i Hi. rewrite Hregp by done. unfold synced_paths. case_match eqn:Hc.
    + apply put_metrics; [|by apply Hsv]. apply sync_cached_source in Hc as (m' & Hm' & ->). by eapply Hss.
    + case_match; [apply Forall_delete|]; by apply Hsv.
Qed.

Lemma create_sync_tables r node sync l :
  create_sync r node = Done sync → is_layer l → ∃ s, sync.2 !! Z.to_nat l = Some s ∧ table_sync_for (table_at r l) node = Done s.
Proof.
  unfold create_sync. intros Hs Hl.
  destruct (table_sync_for (table_at r 0) node) as [s0|] eqn:H0, (table_sync_for (table_at r 1) node) as [s1|] eqn:H1,
    (table_sync_for (table_at r 2) node) as [s2|] eqn:H2, (table_sync_for (table_at r 3) node) as [s3|] eqn:H3; try done.
  injection Hs as <-. destruct (is_layer_cases l Hl) as [->|[->|[->| ->]]]; eauto.
Qed.

Lemma create_sync_spec r node :
  router_wf r →
  ∃ sync, create_sync r node = Done sync ∧ length sync.2 = 4%nat ∧
    ∀ Q, Q (mkMetric 0 [] REGISTRY_LOCAL_BW) → router_all Q r →
      sync_all (λ m, Q m ∧ node ∉ hops m) sync.
Proof.
  intros Hwf.
  assert (∀ l, is_layer l → ∃ s, table_sync_for (table_at r l) node = Done s ∧
    ∀ sync i m, s = Some sync → (i, m) ∈ sync →
      u8 i ∧ ∃ p, p ∈ dest_paths (table_dest (table_at r l) i) ∧ m = path_metric p ∧ node ∉ hops m) as Ht.
  { intros l Hl. destruct (rt_table _ Hwf l Hl) as (Hw & _). eexists. split; [by apply table_sync_for_eq|].
    intros sync i m Heq Hin.
    assert (table_sync_for (table_at r l) node = Done (Some sync)) as Hs by (by rewrite table_sync_for_eq, Heq).
    destruct (elem_of_sync_for _ _ _ _ _ Hw Hs Hin) as (? & _ & ?). done. }
  assert (is_layer 0 ∧ is_layer 1 ∧ is_layer 2 ∧ is_layer 3) as (L0 & L1 & L2 & L3) by (unfold is_layer; lia).
  destruct (Ht 0 L0) as (s0 & H0 & E0), (Ht 1 L1) as (s1 & H1 & E1),
    (Ht 2 L2) as (s2 & H2 & E2), (Ht 3 L3) as (s3 & H3 & E3).
  unfold create_sync. rewrite H0, H1, H2, H3. cbn -[registry_sync_for]. eexists. split_and!; [done | done |].
  intros Q HQ [Hta Hsv]. split; cbn -[registry_sync_for].
  - intros i m Hin. apply elem_of_registry_sync in Hin as [Hi [[_ ->]|(_ & p & Hp & -> & Hn)]].
    + split; [done|]. apply not_elem_of_nil.
    + split; [|done]. pose proof (Hsv i Hi) as Hall. unfold every_path in Hall. rewrite Forall_forall in Hall. by apply Hall.
  - assert (∀ l (s : option TableSync), is_layer l →
      (∀ sync i m, s = Some sync → (i, m) ∈ sync →
        u8 i ∧ ∃ p, p ∈ dest_paths (table_dest (table_at r l) i) ∧ m = path_metric p ∧ node ∉ hops m) →
      ∀ sync i m, Some sync = s → (i, m) ∈ sync → Q m ∧ node ∉ hops m) as Hone.
    { intros l s Hl Hs sync i m Heq Hin. destruct (Hs sync i m (eq_sym Heq) Hin) as (Hi & p & Hp & -> & Hn).
      split; [|done]. pose proof (Hta l i Hl Hi) as Hall. unfold every_path in Hall. rewrite Forall_forall in Hall. by apply Hall. }
    intros s i m Hs Hin. rewrite !elem_of_cons in Hs.
    destruct Hs as [Hs|[Hs|[Hs|[Hs|Hs]]]];
      [by eapply (Hone 0) | by eapply (Hone 1) | by eapply (Hone 2) | by eapply (Hone 3) | by apply not_elem_of_nil in Hs].
Qed.

Lemma router_dump_total r : router_wf r → ∃ d, router_dump r = Done d.
Proof.
  intros Hwf. assert (∀ l, is_layer l → ∃ d, table_dump (table_at r l) = Done d) as Ht.
  { intros l Hl. destruct (rt_table _ Hwf l Hl) as (Hw & _). unfold table_dump.
    match goal with |- context [foldM ?f ?s ?l] => assert (∃ d, foldM f s l = Done d) as [d ->]; [|by eexists] end.
    apply foldM_total.
    intros s i Hi%elem_of_u8_all. case_match; [|by eexists].
    destruct (dump_paths_total _ (wf_hops _ (wf_dests _ Hw i Hi)) ∅) as [d Hd]. unfold dest_dump. rewrite Hd. by eexists. }
  assert (∃ d, registry_dump (service_registry r) = Done d) as [d Hd].
  { unfold registry_dump. apply foldM_total. intros [loc rem] i Hi%elem_of_u8_all.
    pose proof (wf_hops _ (rwf_paths _ (rt_registry _ Hwf) i Hi)) as Hh.
    case_match; [|by eexists]. unfold rdest_dump, rdest_next. rewrite next_in_empty_excepts by done.
    rewrite bind_Done. destruct (dump_paths_total _ Hh ∅) as [d ->]. by eexists. }
  destruct (Ht 0 ltac:(unfold is_layer; lia)) as [d0 H0], (Ht 1 ltac:(unfold is_layer; lia)) as [d1 H1],
    (Ht 2 ltac:(unfold is_layer; lia)) as [d2 H2], (Ht 3 ltac:(unfold is_layer; lia)) as [d3 H3].
  unfold router_dump. rewrite Hd, H0, H1, H2, H3, !bind_Done. by eexists.
Qed.

(** ** Routing towards a key *)

(** No allowed index of layer [l] is closer to the key than the node itself. *)
Definition stays (r : Router) (key : NodeId) (excepts : list NodeId) (l : Z) : Prop :=
  ∀ s, u8 s → dest_next (table_dest (table_at r l) s) excepts ≠ Done None →
    Z.lxor (byte_at (router_node_id r) l) (byte_at key l) ≤ Z.lxor s (byte_at key l).

Definition closest_node_answer (r : Router) (key : NodeId) (excepts : list NodeId) (layers : list Z)
    (res : option (ConnId * NodeId * Z * NodeIndex)) : Prop :=
  match res with
  | Some (c, n, l, index) =>
      is_layer l ∧ u8 index ∧
      dest_next (table_dest (table_at r l) index) excepts = Done (Some (c, n)) ∧
      Z.lxor index (byte_at key l) < Z.lxor (byte_at (router_node_id r) l) (byte_at key l) ∧
      (∀ s, u8 s → dest_next (table_dest (table_at r l) s) excepts ≠ Done None →
        Z.lxor index (byte_at key l) ≤ Z.lxor s (byte_at key l)) ∧
      ∃ before after, layers = before ++ l :: after ∧ Forall (stays r key excepts) before
  | None => Forall (stays r key excepts) layers
  end.

Lemma closest_node_loop_spec r key excepts layers :
  router_wf r → Forall is_layer layers →
  ∃ res, closest_node_loop r key excepts layers = Done res ∧
         closest_node_answer r key excepts layers res.
Proof.
  intros Hwf. induction 1 as [|l layers Hl Hls (res & Hres & IH)].
  { exists None. split; [done|constructor]. }
  destruct (rt_table _ Hwf l Hl) as (Ht & _).
  destruct (table_closest_for_spec (table_at r l) (byte_at key l) excepts Ht) as (c & Hc & Hans).
  cbn [closest_node_loop]. rewrite (layer_Done key), bind_Done, Hc, bind_Done by (unfold is_layer in Hl; lia).
  assert (stays r key excepts l → ∃ res, closest_node_loop r key excepts layers = Done res ∧
    closest_node_answer r key excepts (l :: layers) res) as Hnext.
  { intros Hst. exists res. split; [done|]. destruct res as [[[[? ?] l'] ?]|]; cbn in *; [|by constructor].
    destruct IH as (? & ? & ? & ? & ? & before & after & -> & Hb). split_and!; [done..|].
    exists (l :: before), after. split; [done|]. by constructor. }
  destruct c as [[[index conn] node]|]; cbn in Hans.
  - destruct Hans as (Hin & Hd & Hmin). rewrite layer_Done, bind_Done by (unfold is_layer in Hl; lia).
    rewrite (Z.lxor_comm (byte_at key l)).
    destruct (Z.ltb_spec (Z.lxor index (byte_at key l)) (Z.lxor (byte_at (router_node_id r) l) (byte_at key l))) as [Hlt|Hge].
    + eexists. split; [done|]. cbn. apply (slots_used _ (wf_slots _ Ht)) in Hin as [Hu _].
      split_and!; [done..|]. exists [], layers. by split.
    + apply Hnext. intros s Hs Hne. specialize (Hmin s Hs Hne). lia.
  - apply Hnext. intros s Hs Hne. by destruct Hne; apply Hans.
Qed.

Lemma closest_node_spec r key excepts :
  router_wf r →
  ∃ res, closest_node r key excepts = Done res ∧ closest_node_answer r key excepts [3; 2; 1; 0] res.
Proof.
  intros Hwf. apply closest_node_loop_spec; [done|].
  repeat (constructor; [unfold is_layer; lia|]). constructor.
Qed.

(** A router with a single link knows a single next hop. *)
Lemma single_link_dests a c m b r :
  over_node m = Done b → set_direct (router_new a) c m = Done r →
  let l := eq_util_layer a b - 1 in
  router_wf r ∧ router_node_id r = a ∧
  ∀ l' s, is_layer l' → u8 s →
    dest_next (table_dest (table_at r l') s) []
    = Done (if decide (l' = l ∧ s = byte_at b l ∧ 0 ≤ l) then Some (c, b) else None).
Proof.
  intros Hn Hr l. pose proof (router_new_wf a) as Hwf.
  destruct (set_direct_spec (router_new a) c m b Hwf Hn) as (r' & Hr' & Hwf' & (Hid & _) & _ & Hk0 & Hix & Hother).
  rewrite Hr in Hr'. injection Hr' as <-. cbn [router_node_id router_new] in Hk0, Hix, Hother, Hid. fold l in Hix, Hother.
  assert (∀ l' s, is_layer l' → u8 s → table_dest (table_at (router_new a) l') s = dest_default) as Hnew.
  { intros l' s Hl' Hs. rewrite router_new_table by done. unfold table_dest, table_new. cbn [dests].
    by apply arr_get_replicate. }
  split_and!; [done..|]. intros l' s Hl' Hs.
  destruct (decide (l' = l ∧ s = byte_at b l ∧ 0 ≤ l)) as [(-> & -> & Hl)|Hne].
  - rewrite Hix by lia. rewrite Hnew by done. unfold dest_next. cbn -[over_node]. by rewrite Hn.
  - pose proof (eq_util_layer_range a b). destruct (decide (0 ≤ l)) as [Hl|Hl].
    + rewrite Hother; [|done|done|intros [= -> ->]; tauto]. by rewrite Hnew.
    + rewrite Hk0 by lia. by rewrite Hnew.
Qed.

Lemma single_link_closest a c m b r key :
  a ≠ b → u32 a → u32 b → over_node m = Done b → set_direct (router_new a) c m = Done r →
  let l := eq_util_layer a b - 1 in
  closest_node r key [] =
  Done (if decide (Z.lxor (byte_at b l) (byte_at key l) < Z.lxor (byte_at a l) (byte_at key l))
        then Some (c, b, l, byte_at b l) else None).
Proof.
  intros Hab Ha Hb Hn Hr l. destruct (single_link_dests a c m b r Hn Hr) as (Hwf & Hid & Hd). fold l in Hd.
  assert (is_layer l) as Hl.
  { pose proof (eq_util_layer_range a b). assert (eq_util_layer a b ≠ 0) by (by rewrite eq_util_layer_zero).
    unfold is_layer, l. lia. }
  destruct (closest_node_spec r key [] Hwf) as (res & -> & Hans). f_equal.
  destruct res as [[[[c' n] l'] ix]|]; cbn in Hans.
  - destruct Hans as (Hl' & Hix & Hnext & Hlt & _). rewrite Hid in Hlt.
    rewrite Hd in Hnext by done. destruct (decide (l' = l ∧ ix = byte_at b l ∧ 0 ≤ l)) as [(-> & -> & _)|]; [|done].
    injection Hnext as <- <-. by rewrite decide_True.
  - assert (stays r key [] l) as Hst.
    { rewrite Forall_forall in Hans. apply Hans. apply is_layer_cases in Hl. set_solver. }
    specialize (Hst (byte_at b l) (byte_at_u8 _ _)). rewrite Hid in Hst.
    rewrite decide_False; [done|]. enough (Z.lxor (byte_at a l) (byte_at key l) ≤ Z.lxor (byte_at b l) (byte_at key l)) by lia.
    apply Hst. rewrite Hd, decide_True; [done | | done | apply byte_at_u8]. unfold is_layer in Hl. split_and!; [done..|lia].
Qed.

(** ** The delta queues *)

(** What [pop_delta] takes off which queue. *)
Definition pop_table (t : Table) : Table :=
  mkTable (table_node_id t) (table_layer t) (dests t) (slots t) (tail (table_deltas t)).

Definition pop_registry (g : Registry) : Registry :=
  mkRegistry (registry_node_id g) (local_destinations g) (remote_destinations g) (tail (registry_deltas g)).

Inductive pops (r : Router) : Router → option RouterDelta → Prop :=
| pops_registry d ds :
    registry_deltas (service_registry r) = d :: ds →
    pops r (mkRouter (router_node_id r) (tables r) (pop_registry (service_registry r))) (Some (RDRegistry d))
| pops_table l d ds :
    is_layer l → table_deltas (table_at r l) = d :: ds →
    pops r (with_table r l (pop_table (table_at r l))) (Some (RDTable l d))
| pops_none :
    registry_deltas (service_registry r) = [] →
    (∀ l, is_layer l → table_deltas (table_at r l) = []) →
    pops r r None.

Lemma pop_table_delta_spec r layers :
  Forall is_layer layers →
  (∃ l d ds, is_layer l ∧ table_deltas (table_at r l) = d :: ds ∧
    pop_table_delta r layers = (with_table r l (pop_table (table_at r l)), Some (RDTable l d))) ∨
  (Forall (λ l, table_deltas (table_at r l) = []) layers ∧ pop_table_delta r layers = (r, None)).
Proof.
  induction 1 as [|l layers Hl Hls IH]; [by right|]. cbn [pop_table_delta].
  unfold table_pop_delta. destruct (table_deltas (table_at r l)) as [|d ds] eqn:Hd.
  - destruct IH as [(l' & d & ds & ? & ? & ->)|[? ->]]; [left|right]; [by eauto 10 | by split; [constructor|]].
  - left. exists l, d, ds. split_and!; [done..|]. unfold pop_table. by rewrite Hd.
Qed.

Lemma router_pop_delta_spec r : pops r (router_pop_delta r).1 (router_pop_delta r).2.
Proof.
  unfold router_pop_delta, registry_pop_delta.
  destruct (registry_deltas (service_registry r)) as [|d ds] eqn:Hd; cbn -[pop_table_delta].
  - destruct (pop_table_delta_spec r [0; 1; 2; 3]) as [(l & d & ds & Hl & Ht & ->)|[Hall ->]].
    { repeat constructor; unfold is_layer; lia. }
    + by eapply pops_table.
    + apply pops_none; [done|]. intros l Hl. rewrite Forall_forall in Hall. apply Hall.
      apply is_layer_cases in Hl. set_solver.
  - pose proof (pops_registry r d ds Hd) as Hp. unfold pop_registry in Hp. by rewrite Hd in Hp.
Qed.

Lemma pop_table_wf t : table_wf t → table_wf (pop_table t).
Proof. intros [? ? ? ? [? ? ?]]. by split. Qed.

Lemma pops_wf r r' d : router_wf r → pops r r' d → router_wf r'.
Proof.
  intros Hwf Hp. pose proof Hwf as [Hlen Htab [? ? ? ?] Hown]. destruct Hp as [d ds _|l d ds Hl _|_ _]; [|clear -Hwf Hl|done].
  - split; [done..| |done]. by split.
  - pose proof Hwf as [Hlen Htab Hreg Hown].
    assert (table_at (with_table r l (pop_table (table_at r l))) l = pop_table (table_at r l)) as Heq
      by (by apply table_at_with_eq).
    split; [by cbn; rewrite length_insert | | done |]; intros l' Hl'; (destruct (decide (l' = l)) as [->|?];
      [rewrite Heq | rewrite table_at_with_ne by done; by auto]).
    + destruct (Htab l Hl) as (Hw & ? & ?). split_and!; [by apply pop_table_wf | done..].
    + by apply Hown.
Qed.

Definition pending (r : Router) : nat :=
  length (registry_deltas (service_registry r)) +
  sum_list_with (λ l, length (table_deltas (table_at r l))) [0; 1; 2; 3].

Lemma pops_pending r r' d : length (tables r) = 4%nat → pops r r' (Some d) → (pending r' < pending r)%nat.
Proof.
  intros Hlen Hp. unfold pending. inversion Hp as [g ds Hq|l td ds Hl Hq|]; subst; cbn -[table_at].
  - rewrite Hq. change (mkRouter _ _ _) with (mkRouter (router_node_id r) (tables r) (pop_registry (service_registry r))).
    unfold table_at. cbn. lia.
  - assert (∀ l', is_layer l' → table_at (with_table r l (pop_table (table_at r l))) l'
      = if decide (l' = l) then pop_table (table_at r l) else table_at r l') as Hat.
    { intros l' Hl'. case_decide as Hd; [subst; by apply table_at_with_eq | by apply table_at_with_ne]. }
    rewrite !Hat by (unfold is_layer; lia).
    assert (length (table_deltas (pop_table (table_at r l))) < length (table_deltas (table_at r l)))%nat
      by (cbn; rewrite Hq; cbn; lia).
    apply is_layer_cases in Hl. repeat case_decide; subst; lia.
Qed.

(** ** Properties *)

(** A key has one owner. Of two nodes that are linked to each other and to
    nobody else, exactly one keeps a key and the other one forwards it to
    that one, for every key and every pair of distinct ids: routing towards a
    key is consistent. *)
Theorem two_nodes_key_owner (a b key : NodeId) (ca cb : ConnId) (ma mb : Metric) (ra rb : Router) :
  u32 a → u32 b → a ≠ b →
  over_node ma = Done b → over_node mb = Done a →
  set_direct (router_new a) ca ma = Done ra → set_direct (router_new b) cb mb = Done rb →
  (∃ l i, closest_node ra key [] = Done (Some (ca, b, l, i)) ∧ closest_node rb key [] = Done None) ∨
  (∃ l i, closest_node rb key [] = Done (Some (cb, a, l, i)) ∧ closest_node ra key [] = Done None).
Proof.
  intros Ha Hb Hab Hma Hmb Hra Hrb.
  rewrite (single_link_closest a ca ma b ra) by done.
  rewrite (single_link_closest b cb mb a rb) by done.
  rewrite (eq_util_layer_sym b a).
  assert (Z.lxor (byte_at a (eq_util_layer a b - 1)) (byte_at key (eq_util_layer a b - 1))
          ≠ Z.lxor (byte_at b (eq_util_layer a b - 1)) (byte_at key (eq_util_layer a b - 1))) as Hne.
  { rewrite !(Z.lxor_comm _ (byte_at key _)), lxor_inj_l.
    apply (eq_util_layer_spec a b _ eq_refl). pose proof (eq_util_layer_range a b).
    assert (eq_util_layer a b ≠ 0) by (by rewrite eq_util_layer_zero). lia. }
  repeat case_decide; try lia; [left|right]; eauto.
Qed.

Lemma two_nodes_key_owner_witness :
  ∃ ra rb,
    set_direct (router_new 1) (from_out 0 2) (mkMetric 1 [5] 1) = Done ra ∧
    set_direct (router_new 5) (from_out 0 1) (mkMetric 1 [1] 1) = Done rb ∧
    ((∃ l i, closest_node ra 4 [] = Done (Some (from_out 0 2, 5, l, i)) ∧ closest_node rb 4 [] = Done None) ∨
     (∃ l i, closest_node rb 4 [] = Done (Some (from_out 0 1, 1, l, i)) ∧ closest_node ra 4 [] = Done None)).
Proof.
  eexists. eexists. split; [vm_compute; reflexivity|]. split; [vm_compute; reflexivity|].
  apply (two_nodes_key_owner 1 5 4 (from_out 0 2) (from_out 0 1) (mkMetric 1 [5] 1) (mkMetric 1 [1] 1));
    try (unfold u32; lia); try lia; vm_compute; reflexivity.
Defined.

Lemma closest_node_layers (r : Router) (key : NodeId) (excepts : list NodeId) :
  router_wf r →
  ∃ res, closest_node r key excepts = Done res ∧
  match res with
  | Some (c, n, l, index) =>
      is_layer l ∧ u8 index ∧
      dest_next (table_dest (table_at r l) index) excepts = Done (Some (c, n)) ∧
      Z.lxor index (byte_at key l) < Z.lxor (byte_at (router_node_id r) l) (byte_at key l) ∧
      (∀ s, u8 s → dest_next (table_dest (table_at r l) s) excepts ≠ Done None →
        Z.lxor index (byte_at key l) ≤ Z.lxor s (byte_at key l)) ∧
      ∀ l', is_layer l' → l < l' → stays r key excepts l'
  | None => ∀ l, is_layer l → stays r key excepts l
  end.
Proof.
  intros Hwf. destruct (closest_node_spec r key excepts Hwf) as (res & Hres & Hans).
  exists res. split; [done|]. destruct res as [[[[c n] l] index]|]; cbn in Hans.
  - destruct Hans as (Hl & Hi & Hd & Hlt & Hmin & before & after & Hlay & Hb). split_and!; [done..|].
    intros l' Hl' Hlt'. rewrite Forall_forall in Hb. apply Hb.
    apply is_layer_cases in Hl. apply is_layer_cases in Hl'.
    destruct before as [|x1 [|x2 [|x3 [|x4 before]]]]; cbn in Hlay; injection Hlay; intros; subst;
      try (exfalso; destruct before; done); set_solver by lia.
  - intros l Hl. rewrite Forall_forall in Hans. apply Hans. apply is_layer_cases in Hl. set_solver.
Qed.

(** Routing towards a key makes progress: on a well-formed router
    [closest_node] never panics; when it forwards, it forwards at the highest
    layer where some allowed index is strictly closer to the key than the
    node itself, to the closest such index, over that index's best allowed
    path; when it keeps the key, no allowed index of any layer is closer. *)
Theorem closest_node_progress (r : Router) (key : NodeId) (excepts : list NodeId) :
  router_wf r →
  ∃ res, closest_node r key excepts = Done res ∧
  match res with
  | Some (c, n, l, index) =>
      is_layer l ∧ u8 index ∧
      dest_next (table_dest (table_at r l) index) excepts = Done (Some (c, n)) ∧
      Z.lxor index (byte_at key l) < Z.lxor (byte_at (router_node_id r) l) (byte_at key l) ∧
      (∀ s, u8 s → dest_next (table_dest (table_at r l) s) excepts ≠ Done None →
        Z.lxor index (byte_at key l) ≤ Z.lxor s (byte_at key l)) ∧
      ∀ l', is_layer l' → l < l' → stays r key excepts l'
  | None => ∀ l, is_layer l → stays r key excepts l
  end.
Proof. apply closest_node_layers. Qed.

Lemma closest_node_progress_witness :
  ∃ res, closest_node (router_new 7) 9 [] = Done res.
Proof.
  destruct (closest_node_progress (router_new 7) 9 [] (router_new_wf 7)) as (res & H & _). by exists res.
Defined.

(** C24. A dropped connection is forgotten everywhere: after [del_direct] no
    table and no service keeps a path over it, every other path is kept
    unchanged, and none of the three queries answers that connection any
    more, whatever they are asked. *)
Theorem del_direct_forgets (r : Router) (conn : ConnId) :
  router_wf r →
  let r' := del_direct r conn in
  router_wf r' ∧
  (∀ l i, is_layer l → u8 i →
    dest_map (table_dest (table_at r' l) i) = delete (conn_key conn) (dest_map (table_dest (table_at r l) i))) ∧
  (∀ i, u8 i → paths_map (rdest_paths (registry_dest (service_registry r') i))
               = delete (conn_key conn) (paths_map (rdest_paths (registry_dest (service_registry r) i)))) ∧
  (∀ dest excepts c n, router_next r' dest excepts = Done (Some (c, n)) → conn_eqb c conn = false) ∧
  (∀ key excepts c n l i, closest_node r' key excepts = Done (Some (c, n, l, i)) → conn_eqb c conn = false) ∧
  (∀ service excepts c n, u8 service →
    service_next r' service excepts = Done (Some (DestRemote c n)) → conn_eqb c conn = false).
Proof.
  intros Hwf r'. destruct (del_direct_spec r conn Hwf) as (Hwf' & _ & Hd & Hs). fold r' in Hwf', Hd, Hs.
  assert (∀ l i, is_layer l → u8 i → dest_map (table_dest (table_at r' l) i)
    = delete (conn_key conn) (dest_map (table_dest (table_at r l) i))) as Hmap.
  { intros l i Hl Hi. rewrite Hd by done. cbn. apply del_path_map.
    destruct (rt_table _ Hwf l Hl) as (Ht & _). by apply wf_dests. }
  assert (∀ ps ps' excepts c n, paths_map ps' = delete (conn_key conn) (paths_map ps) →
    next_in excepts ps' = Done (Some (c, n)) → conn_eqb c conn = false) as Hno.
  { intros ps ps' excepts c n Heq Hn%next_in_conn. apply conn_eqb_key_false. intros Hk.
    rewrite Heq, Hk, lookup_delete_eq in Hn. by destruct Hn. }
  split_and!; [done..| | |].
  - intros dest excepts c n. unfold router_next. cbn zeta.
    pose proof (eq_util_layer_range (router_node_id r') dest).
    destruct (Z.eqb_spec (eq_util_layer (router_node_id r') dest) 0) as [|Hnz]; [done|].
    set (l := eq_util_layer (router_node_id r') dest - 1) in *.
    assert (is_layer l) as Hl by (unfold is_layer, l; lia).
    rewrite list_lookup_lookup_total_lt by (rewrite (rt_length _ Hwf'); unfold is_layer in Hl; lia).
    fold (table_at r' l). unfold table_next. destruct (rt_table _ Hwf' l Hl) as (_ & -> & _).
    rewrite layer_Done by (unfold is_layer in Hl; lia). rewrite bind_Done.
    apply (Hno (dest_paths (table_dest (table_at r l) (byte_at dest l)))). apply Hmap; [done|apply byte_at_u8].
  - intros key excepts c n l i Hc. destruct (closest_node_spec r' key excepts Hwf') as (res & Hres & Hans).
    rewrite Hc in Hres. injection Hres as <-. destruct Hans as (Hl & Hi & Hn & _). by eapply Hno; [apply Hmap|].
  - intros service excepts c n Hsv. unfold service_next, registry_next. case_match; [done|].
    unfold rdest_next. destruct (next_in excepts _) as [[[c' n']|]|] eqn:Hn; cbn; [|done..].
    intros [= -> ->]. by eapply Hno; [apply Hs|].
Qed.

Lemma del_direct_forgets_witness :
  ∃ r, set_direct (router_new 1) (from_out 0 2) (mkMetric 1 [5] 1) = Done r ∧
    router_next r 5 [] = Done (Some (from_out 0 2, 5)) ∧
    router_wf (del_direct r (from_out 9 2)).
Proof.
  destruct (set_direct_spec (router_new 1) (from_out 0 2) (mkMetric 1 [5] 1) 5 (router_new_wf 1) eq_refl)
    as (r & Hr & Hwf & _).
  exists r. split; [done|]. split; [|by apply (del_direct_forgets r (from_out 9 2))].
  revert Hr. vm_compute. intros [= <-]. reflexivity.
Defined.
