(* ===== verification/RouterNet.v ===== *)
(** * A network of routers

    Routers that exchange syncs over an asynchronous network, as
    [features/router_sync.rs] drives them: a node links to a neighbour with a
    one-hop metric ([Connected] and [Stats]), drops a link ([Disconnected]),
    sends the sync it creates for a neighbour ([send_sync_to]) and applies
    the syncs it receives with its own metric of the link. The network may
    delay, reorder, repeat and lose messages; nodes may restart. *)

From S2P Require Import Prelude NodeId ConnId Metric Paths Dest Table Registry Router.

Record Net := mkNet {
  net_routers : gmap NodeId Router;
  (* sender, receiver and content of every sync ever sent *)
  net_syncs : list (NodeId * NodeId * RouterSync);
}.

Definition net_init : Net := mkNet ∅ [].

Inductive net_step : Net → Net → Prop :=
(* a node starts, or restarts with an empty router *)
| net_start routers syncs n :
    net_step (mkNet routers syncs) (mkNet (<[n := router_new n]> routers) syncs)
| net_register routers syncs n r service :
    routers !! n = Some r → u8 service →
    net_step (mkNet routers syncs) (mkNet (<[n := register_service r service]> routers) syncs)
| net_link routers syncs n r r' peer conn rtt bw :
    routers !! n = Some r → is_Some (routers !! peer) → peer ≠ n →
    set_direct r conn (mkMetric rtt [peer] bw) = Done r' →
    net_step (mkNet routers syncs) (mkNet (<[n := r']> routers) syncs)
| net_unlink routers syncs n r conn :
    routers !! n = Some r →
    net_step (mkNet routers syncs) (mkNet (<[n := del_direct r conn]> routers) syncs)
| net_send routers syncs n r peer sync :
    routers !! n = Some r → peer ≠ n → create_sync r peer = Done sync →
    net_step (mkNet routers syncs) (mkNet routers ((n, peer, sync) :: syncs))
| net_receive routers syncs n r r' peer conn rtt bw sync :
    routers !! n = Some r → (peer, n, sync) ∈ syncs → is_Some (routers !! peer) →
    apply_sync r conn (mkMetric rtt [peer] bw) sync = Done r' →
    net_step (mkNet routers syncs) (mkNet (<[n := r']> routers) syncs).

Definition net_reachable (s : Net) : Prop := rtc net_step net_init s.

(** A path of node [n]: simple, never through [n], over known nodes only. *)
Definition simple_path (nodes : gset NodeId) (n : NodeId) (m : Metric) : Prop :=
  NoDup (hops m) ∧ (n ∉ hops m) ∧ ∀ x, x ∈ hops m → x ∈ nodes.

Definition net_nodes (s : Net) : gset NodeId := dom (net_routers s).

Record net_inv (s : Net) : Prop := {
  net_router_ok : ∀ n r, net_routers s !! n = Some r →
    router_wf r ∧ router_node_id r = n ∧ router_all (simple_path (net_nodes s) n) r;
  net_sync_ok : ∀ n peer sync, (n, peer, sync) ∈ net_syncs s →
    peer ≠ n ∧ length sync.2 = 4%nat ∧
    sync_all (λ m, simple_path (net_nodes s) n m ∧ peer ∉ hops m) sync;
}.

Lemma router_all_mono (P Q : Metric → Prop) r :
  (∀ m, P m → Q m) → router_all P r → router_all Q r.
Proof. intros HPQ. apply router_every_mono. auto. Qed.

Lemma sync_all_mono (P Q : Metric → Prop) sync :
  (∀ m, P m → Q m) → sync_all P sync → sync_all Q sync.
Proof. intros HPQ [Hs Ht]. split; eauto. Qed.

Lemma simple_path_mono A B n m : A ⊆ B → simple_path A n m → simple_path B n m.
Proof. intros HAB (H1 & H2 & H3). split_and!; [done..|]. auto. Qed.

Lemma simple_path_local A n bw : simple_path A n (mkMetric 0 [] bw).
Proof.
  split_and!; [apply NoDup_nil_2 | apply not_elem_of_nil |]. intros x Hx. by apply not_elem_of_nil in Hx.
Qed.

(** One hop over a linked neighbour. *)
Lemma simple_path_link (A : gset NodeId) n peer rtt bw :
  peer ∈ A → peer ≠ n → simple_path A n (mkMetric rtt [peer] bw).
Proof.
  intros Hp Hne. split_and!; cbn; [apply NoDup_singleton | set_solver | set_solver].
Qed.

(** A path advertised by [peer] and extended by the link to it. *)
Lemma simple_path_extend (A : gset NodeId) n peer m rtt bw :
  peer ∈ A → peer ≠ n → simple_path A peer m → n ∉ hops m →
  simple_path A n (metric_add m (mkMetric rtt [peer] bw)).
Proof.
  intros Hp Hne (Hnd & Hni & Hsub) Hn. split_and!; rewrite metric_add_hops; cbn [hops].
  - apply NoDup_app. split_and!; [done | set_solver | apply NoDup_singleton].
  - set_solver.
  - set_solver.
Qed.

(** The invariant only depends on the nodes through [⊆]: one router is
    replaced or added, the messages stay. *)
Lemma net_inv_update routers syncs n r' :
  net_inv (mkNet routers syncs) →
  (router_wf r' ∧ router_node_id r' = n ∧
   router_all (simple_path ({[n]} ∪ dom routers) n) r') →
  net_inv (mkNet (<[n := r']> routers) syncs).
Proof.
  intros [Hr Hs] Hnew.
  assert (dom routers ⊆ net_nodes (mkNet (<[n := r']> routers) syncs)) as Hsub.
  { unfold net_nodes. cbn. rewrite dom_insert. set_solver. }
  split; cbn [net_routers net_syncs].
  - intros k rk Hk. apply lookup_insert_Some in Hk as [[<- <-]|[Hne Hk]].
    + unfold net_nodes. cbn. by rewrite dom_insert_L.
    + destruct (Hr k rk Hk) as (? & ? & Hall). split_and!; [done..|].
      eapply router_all_mono; [|done]. intros m. by apply simple_path_mono.
  - intros k peer sync Hin. destruct (Hs k peer sync Hin) as (? & ? & Hall). split_and!; [done..|].
    eapply sync_all_mono; [|done]. intros m [? ?]. split; [by eapply simple_path_mono | done].
Qed.

Lemma net_nodes_same (routers : gmap NodeId Router) n r :
  routers !! n = Some r → ({[n]} ∪ dom routers : gset NodeId) = dom routers.
Proof.
  intros Hn. apply subseteq_union_1_L. apply singleton_subseteq_l. by apply elem_of_dom_2 in Hn.
Qed.

Lemma net_step_inv s s' : net_inv s → net_step s s' → net_inv s'.
Proof.
  intros Hinv Hstep. destruct Hstep as
    [routers syncs n | routers syncs n r service Hn Hs | routers syncs n r r' peer conn rtt bw Hn Hp Hne Hr'
    | routers syncs n r conn Hn | routers syncs n r peer sync Hn Hne Hsync
    | routers syncs n r r' peer conn rtt bw sync Hn Hin Hp Hr'].
  - apply net_inv_update; [done|]. split_and!; [apply router_new_wf | done | apply router_new_all].
  - destruct (net_router_ok _ Hinv n r Hn) as (Hwf & Hid & Hall). cbn in Hall.
    destruct (register_service_spec r service Hwf Hs) as (Hwf' & _ & Hq).
    apply net_inv_update; [done|]. split_and!; [done..|]. rewrite (net_nodes_same _ _ _ Hn). by apply Hq.
  - destruct (net_router_ok _ Hinv n r Hn) as (Hwf & Hid & Hall). apply elem_of_dom in Hp.
    assert (over_node (mkMetric rtt [peer] bw) = Done peer) as Hov by done.
    destruct (set_direct_spec r conn _ peer Hwf Hov) as (r'' & Hr'' & Hwf' & (Hid' & _) & _).
    rewrite Hr' in Hr''. injection Hr'' as <-.
    apply net_inv_update; [done|]. split_and!; [done | congruence |]. rewrite (net_nodes_same _ _ _ Hn).
    apply (set_direct_all _ r conn _ peer r' Hwf Hov Hr'); [by apply simple_path_link | done].
  - destruct (net_router_ok _ Hinv n r Hn) as (Hwf & Hid & Hall).
    destruct (del_direct_spec r conn Hwf) as (Hwf' & (Hid' & _) & _).
    apply net_inv_update; [done|]. split_and!; [done..|]. rewrite (net_nodes_same _ _ _ Hn).
    by apply del_direct_all.
  - destruct (net_router_ok _ Hinv n r Hn) as (Hwf & Hid & Hall).
    destruct (create_sync_spec r peer Hwf) as (sync' & Hs' & Hlen & Hq).
    rewrite Hsync in Hs'. injection Hs' as <-. destruct Hinv as [Hr Hs]. split; [done|]. cbn [net_syncs].
    intros k p sy [[= -> -> ->]|Hin]%elem_of_cons; [|by apply Hs]. split_and!; [done..|].
    apply Hq; [|done]. apply simple_path_local.
  - destruct (net_router_ok _ Hinv n r Hn) as (Hwf & Hid & Hall). apply elem_of_dom in Hp.
    destruct (net_sync_ok _ Hinv _ _ _ Hin) as (Hne & Hlen & Hs).
    assert (over_node (mkMetric rtt [peer] bw) = Done peer) as Hov by done.
    destruct (apply_sync_spec r conn _ peer sync Hwf Hov Hlen) as (r'' & Hr'' & Hwf' & (Hid' & _) & Hq).
    rewrite Hr' in Hr''. injection Hr'' as <-.
    apply net_inv_update; [done|]. split_and!; [done | congruence |]. rewrite (net_nodes_same _ _ _ Hn).
    apply Hq; [|done]. eapply sync_all_mono; [|done]. intros m [Hm Hnm]. by apply simple_path_extend.
Qed.

Lemma net_reachable_inv s : net_reachable s → net_inv s.
Proof.
  intros Hr. unfold net_reachable in Hr. remember net_init as s0 eqn:H0.
  assert (net_inv s0) as Hinv.
  { subst. split; cbn; [intros n r Hn; by rewrite lookup_empty in Hn|].
    intros n p sy Hin. by apply not_elem_of_nil in Hin. }
  clear H0. induction Hr as [|s1 s2 s3 H12 _ IH]; [done|]. apply IH. by eapply net_step_inv.
Qed.

Lemma NoDup_subset_length (l : list NodeId) (A : gset NodeId) :
  NoDup l → (∀ x, x ∈ l → x ∈ A) → (length l ≤ size A)%nat.
Proof.
  intros Hnd Hsub. rewrite <- (size_list_to_set (C := gset NodeId) l) by done.
  apply subseteq_size. intros x Hx. apply Hsub. by apply elem_of_list_to_set in Hx.
Qed.

(** ** Properties *)

(** C4. No routing loop and no counting to infinity. Whatever links come and
    go, however syncs are delayed, reordered, repeated or lost and whichever
    nodes restart, every path a node stores, to a node or to a service, visits
    no node twice and never the node itself, and so is shorter than the number
    of nodes. *)
Theorem net_paths_simple (s : Net) (n : NodeId) (r : Router) :
  net_reachable s → net_routers s !! n = Some r →
  router_wf r ∧
  router_all (λ m, NoDup (hops m) ∧ (n ∉ hops m) ∧ (length (hops m) < size (net_nodes s))%nat) r.
Proof.
  intros Hreach Hn. destruct (net_router_ok _ (net_reachable_inv s Hreach) n r Hn) as (Hwf & _ & Hall).
  split; [done|]. eapply router_all_mono; [|done]. intros m (Hnd & Hni & Hsub). split_and!; [done..|].
  apply elem_of_dom_2 in Hn. fold (net_nodes s) in Hn.
  assert (length (n :: hops m) ≤ size (net_nodes s))%nat as Hlen; [|exact Hlen].
  apply NoDup_subset_length; [by constructor|]. intros x [->|Hx]%elem_of_cons; [done | by apply Hsub].
Qed.

(** C20. The routing protocol never panics: in every reachable network linking
    a neighbour, creating a sync and applying a sync that was sent all
    return, although they rest on unchecked array accesses, assertions and
    [expect]s on hop lists. *)
Theorem net_never_panics (s : Net) (n : NodeId) (r : Router) :
  net_reachable s → net_routers s !! n = Some r →
  (∀ conn peer rtt bw, ∃ r', set_direct r conn (mkMetric rtt [peer] bw) = Done r') ∧
  (∀ peer, ∃ sync, create_sync r peer = Done sync) ∧
  (∀ peer conn rtt bw sync, (peer, n, sync) ∈ net_syncs s →
    ∃ r', apply_sync r conn (mkMetric rtt [peer] bw) sync = Done r') ∧
  (∀ key excepts, ∃ res, closest_node r key excepts = Done res).
Proof.
  intros Hreach Hn. pose proof (net_reachable_inv s Hreach) as Hinv.
  destruct (net_router_ok _ Hinv n r Hn) as (Hwf & _ & _). split_and!.
  - intros conn peer rtt bw. destruct (set_direct_spec r conn (mkMetric rtt [peer] bw) peer Hwf eq_refl)
      as (r' & Hr' & _). eauto.
  - intros peer. destruct (create_sync_spec r peer Hwf) as (sync & Hs & _). eauto.
  - intros peer conn rtt bw sync Hin. destruct (net_sync_ok _ Hinv _ _ _ Hin) as (_ & Hlen & _).
    destruct (apply_sync_spec r conn (mkMetric rtt [peer] bw) peer sync Hwf eq_refl Hlen) as (r' & Hr' & _). eauto.
  - intros key excepts. destruct (closest_node_spec r key excepts Hwf) as (res & Hres & _). eauto.
Qed.

(** Node 1 links to node 5, which has a service, and receives its sync. *)
Definition demo_five : Router := register_service (router_new 5) 9.

Definition demo_sync : RouterSync :=
  match create_sync demo_five 1 with Done s => s | Panic => ([], []) end.

Definition demo_one : Router :=
  match (r ← set_direct (router_new 1) (from_out 0 7) (mkMetric 20 [5] 100000);
         apply_sync r (from_out 0 7) (mkMetric 20 [5] 100000) demo_sync) with
  | Done r => r
  | Panic => router_new 1
  end.

Definition demo_net : Net := mkNet {[1 := demo_one; 5 := demo_five]} [(5, 1, demo_sync)].

Lemma demo_net_reachable : net_reachable demo_net.
Proof.
  unfold net_reachable, net_init.
  eapply rtc_l. { apply (net_start _ _ 5). }
  eapply rtc_l. { apply (net_register _ _ 5 (router_new 5) 9); [done | unfold u8; lia]. }
  eapply rtc_l. { apply (net_start _ _ 1). }
  eapply rtc_l. { apply (net_send _ _ 5 demo_five 1 demo_sync); [done | done | vm_compute; reflexivity]. }
  eapply rtc_l. { eapply (net_link _ _ 1 (router_new 1) _ 5 (from_out 0 7) 20 100000);
    [done | by eexists | done | vm_compute; reflexivity]. }
  eapply rtc_l. { eapply (net_receive _ _ 1 _ demo_one 5 (from_out 0 7) 20 100000 demo_sync);
    [apply lookup_insert_eq | apply list_elem_of_singleton; reflexivity | by eexists | vm_compute; reflexivity]. }
  apply rtc_refl.
Qed.

Lemma net_paths_simple_witness :
  router_all (λ m, NoDup (hops m) ∧ (1 ∉ hops m) ∧ (length (hops m) < size (net_nodes demo_net))%nat) demo_one ∧
  service_next demo_one 9 [] = Done (Some (DestRemote (from_out 0 7) 5)).
Proof.
  split; [|vm_compute; reflexivity].
  apply (net_paths_simple demo_net 1 demo_one); [apply demo_net_reachable | reflexivity].
Defined.

Lemma net_never_panics_witness :
  ∃ r', apply_sync demo_one (from_out 0 8) (mkMetric 3 [5] 1) demo_sync = Done r'.
Proof.
  destruct (net_never_panics demo_net 1 demo_one demo_net_reachable eq_refl) as (_ & _ & Hs & _).
  apply (Hs 5). apply list_elem_of_singleton. reflexivity.
Defined.
