(* ===== verification/Shadow.v ===== *)
(** * The shadow router ([packages/core/router/src/shadow/])

    The data-plane copy of the router, one per worker thread: per layer the
    best remote of every index ([shadow/table.rs]), per service the remotes in
    order of score ([shadow/service.rs]), the local services and the shared
    history of broadcasts ([shadow/mod.rs]). It is driven by the deltas the
    control-plane router queues. *)

From S2P Require Import Prelude NodeId ConnId Metric Paths Dest Table Route Registry Router.

(** [ShadowRouterHistory]: the calls update the history behind [&self], so
    they return it. *)
Class ShadowRouterHistory (H : Type) := {
  already_received_broadcast : H → option NodeId → Z → Z → H * bool;
  history_set_ts : H → Z → H;
}.

(** What the router relies on: a broadcast is remembered once it was asked
    for. *)
Class ShadowRouterHistoryLaws (H : Type) `{ShadowRouterHistory H} := {
  history_ok : H → Prop;
  history_seen : H → option NodeId → Z → Z → Prop;
  history_answer : ∀ h from service seq, history_ok h →
    (already_received_broadcast h from service seq).2 = true ↔ history_seen h from service seq;
  history_records : ∀ h from service seq, history_ok h →
    let h' := (already_received_broadcast h from service seq).1 in
    history_ok h' ∧ history_seen h' from service seq;
}.

Section shadow.
Context {Remote : Type} `{EqDecision Remote}.

(** ** [shadow/table.rs] *)

Record ShadowTable := mkShadowTable {
  st_layer : Z;
  st_dests : list (option Remote);        (* [Option<Remote>; 256] *)
}.

#[global] Instance ShadowTable_inhabited : Inhabited ShadowTable := populate (mkShadowTable 0 []).

Definition shadow_table_new (layer : Z) : ShadowTable := mkShadowTable layer (replicate 256 None).

Definition shadow_table_set (t : ShadowTable) (index : Z) (remote : Remote) : ShadowTable :=
  mkShadowTable (st_layer t) (arr_set (st_dests t) index (Some remote)).

Definition shadow_table_del (t : ShadowTable) (index : Z) : ShadowTable :=
  mkShadowTable (st_layer t) (arr_set (st_dests t) index None).

Definition shadow_table_next (t : ShadowTable) (dest : NodeId) : outcome (option Remote) :=
  index ← layer dest (st_layer t);
  Done (arr_get (st_dests t) index).

Definition shadow_closest_step (t : ShadowTable) (key_index : Z)
    (closest_distance : option (Remote * Z * Z)) (i : Z) : option (Remote * Z * Z) :=
  match arr_get (st_dests t) i with
  | Some remote =>
      let distance := Z.lxor i key_index in
      match closest_distance with
      | None => Some (remote, i, distance)
      | Some (_, _, best) => if distance <? best then Some (remote, i, distance) else closest_distance
      end
  | None => closest_distance
  end.

Definition shadow_table_closest_for (t : ShadowTable) (key_index : Z) : option (Remote * Z * Z) :=
  foldl (shadow_closest_step t key_index) None u8_all.

(** ** [shadow/service.rs] *)

Record ServiceConn := mkServiceConn {
  sc_conn : Remote;
  sc_next : NodeId;
  sc_dest : NodeId;
  sc_score : Z;
}.

Abbreviation Service := (list ServiceConn) (only parsing).

(** [Ord for ServiceConn] compares the scores. *)
Definition service_conn_cmp (a b : ServiceConn) : comparison := sc_score a ?= sc_score b.

Definition set_conn (self : Service) (conn : Remote) (next dest : NodeId) (score : Z) : Service :=
  stable_sort sc_score
    (match list_find (λ x, sc_conn x = conn) self with
     | Some (index, _) => <[index := mkServiceConn conn next dest score]> self
     | None => self ++ [mkServiceConn conn next dest score]
     end).

Definition del_conn (self : Service) (conn : Remote) : Service :=
  filter (λ x, sc_conn x ≠ conn) self.

Definition service_best_conn (self : Service) : option Remote := sc_conn <$> head self.

Definition broadcast_step (node_id : NodeId) (level : ServiceBroadcastLevel) (relay_from : option NodeId)
    (acc : list Remote * gset NodeId) (dest : ServiceConn) : list Remote * gset NodeId :=
  let '(remotes, dests) := acc in
  if bool_decide (sc_dest dest ∈ dests) || negb (same_level level node_id (sc_dest dest)) then acc
  else if match relay_from with Some relay_from => sc_next dest =? relay_from | None => false end then acc
  else (remotes ++ [sc_conn dest], {[sc_dest dest]} ∪ dests).

Definition broadcast_dests (self : Service) (node_id : NodeId) (level : ServiceBroadcastLevel)
    (relay_from : option NodeId) : option (list Remote) :=
  match self with
  | [] => None
  | _ => Some (foldl (broadcast_step node_id level relay_from) ([], ∅) self).1
  end.

(** ** [shadow/mod.rs] *)

Inductive ShadowRouterDelta :=
| SetTable (layer index : Z) (next : Remote)
| DelTable (layer index : Z)
| SetServiceRemote (service : Z) (conn : Remote) (next dest : NodeId) (score : Z)
| DelServiceRemote (service : Z) (conn : Remote)
| ShadowSetServiceLocal (service : Z)
| ShadowDelServiceLocal (service : Z).

Context {H : Type} `{ShadowRouterHistory H}.

Record ShadowRouter := mkShadowRouter {
  sr_node_id : NodeId;
  local_registries : list bool;            (* [bool; 256] *)
  remote_registry : list Service;          (* [Service<Remote>; 256] *)
  sr_tables : list ShadowTable;            (* [ShadowTable<Remote>; 4] *)
  cached : H;
}.

Definition shadow_new (node_id : NodeId) (cached : H) : ShadowRouter :=
  mkShadowRouter node_id (replicate 256 false) (replicate 256 [])
    (shadow_table_new <$> [0; 1; 2; 3]) cached.

Definition shadow_table_at (s : ShadowRouter) (l : Z) : ShadowTable := sr_tables s !!! Z.to_nat l.

(** [self.tables[layer as usize] = f(..)]: the index is checked. *)
Definition update_table (s : ShadowRouter) (l : Z) (f : ShadowTable → ShadowTable) : outcome ShadowRouter :=
  match sr_tables s !! Z.to_nat l with
  | Some t => Done (mkShadowRouter (sr_node_id s) (local_registries s) (remote_registry s)
                      (<[Z.to_nat l := f t]> (sr_tables s)) (cached s))
  | None => Panic
  end.

Definition update_service (s : ShadowRouter) (service : Z) (f : Service → Service) : ShadowRouter :=
  mkShadowRouter (sr_node_id s) (local_registries s)
    (arr_set (remote_registry s) service (f (arr_get (remote_registry s) service))) (sr_tables s) (cached s).

Definition update_local (s : ShadowRouter) (service : Z) (b : bool) : ShadowRouter :=
  mkShadowRouter (sr_node_id s) (arr_set (local_registries s) service b) (remote_registry s)
    (sr_tables s) (cached s).

Definition apply_delta (s : ShadowRouter) (delta : ShadowRouterDelta) : outcome ShadowRouter :=
  match delta with
  | SetTable layer index remote => update_table s layer (λ t, shadow_table_set t index remote)
  | DelTable layer index => update_table s layer (λ t, shadow_table_del t index)
  | SetServiceRemote service conn next dest score =>
      Done (update_service s service (λ v, set_conn v conn next dest score))
  | DelServiceRemote service conn => Done (update_service s service (λ v, del_conn v conn))
  | ShadowSetServiceLocal service => Done (update_local s service true)
  | ShadowDelServiceLocal service => Done (update_local s service false)
  end.

Definition shadow_next (s : ShadowRouter) (dest : NodeId) : outcome (option Remote) :=
  let eq_util := eq_util_layer (sr_node_id s) dest in
  if eq_util =? 0 then Done None
  else match sr_tables s !! Z.to_nat (eq_util - 1) with
       | Some t => shadow_table_next t dest
       | None => Panic
       end.

(** The loop of [closest_for] over the layers that remain. *)
Fixpoint shadow_closest_loop (s : ShadowRouter) (key : NodeId) (layers : list Z) : outcome (option Remote) :=
  match layers with
  | [] => Done None
  | i :: layers =>
      key_index ← layer key i;
      match shadow_table_closest_for (shadow_table_at s i) key_index with
      | Some (remote, _, next_distance) =>
          current_index ← layer (sr_node_id s) i;
          let current_distance := Z.lxor key_index current_index in
          if next_distance <? current_distance then Done (Some remote)
          else shadow_closest_loop s key layers
      | None => shadow_closest_loop s key layers
      end
  end.

Definition shadow_closest_for (s : ShadowRouter) (key : NodeId) : outcome (option Remote) :=
  shadow_closest_loop s key [3; 2; 1; 0].

Definition shadow_path_to_key (s : ShadowRouter) (key : NodeId) : outcome (RouteAction Remote) :=
  r ← shadow_closest_for s key;
  Done (match r with Some remote => Next remote | None => Local end).

Definition shadow_path_to_node (s : ShadowRouter) (dest : NodeId) : outcome (RouteAction Remote) :=
  if dest =? sr_node_id s then Done Local
  else r ← shadow_next s dest;
       Done (match r with Some remote => Next remote | None => Reject end).

Definition shadow_path_to_service (s : ShadowRouter) (service_id : Z) : RouteAction Remote :=
  if arr_get (local_registries s) service_id : bool then Local
  else match service_best_conn (arr_get (remote_registry s) service_id) with
       | Some remote => Next remote
       | None => Reject
       end.

Definition shadow_path_to_services (s : ShadowRouter) (service_id seq : Z) (level : ServiceBroadcastLevel)
    (source relay_from : option NodeId) : ShadowRouter * RouteAction Remote :=
  let '(cached', received) := already_received_broadcast (cached s) source service_id seq in
  let s' := mkShadowRouter (sr_node_id s) (local_registries s) (remote_registry s) (sr_tables s) cached' in
  if received : bool then (s', Reject)
  else
    let local := arr_get (local_registries s) service_id in
    (s', match broadcast_dests (arr_get (remote_registry s) service_id) (sr_node_id s) level relay_from with
         | Some nexts => Broadcast local nexts
         | None => if local : bool then Local else Reject
         end).
End shadow.

Arguments ShadowTable Remote : clear implicits.
Arguments ServiceConn Remote : clear implicits.
Arguments ShadowRouterDelta Remote : clear implicits.
Arguments ShadowRouter Remote H : clear implicits.

#[global] Instance shadow_router_table {Remote H} `{EqDecision Remote} `{ShadowRouterHistory H} :
    RouterTable (ShadowRouter Remote H) Remote := {
  rt_closest_for := shadow_closest_for;
  rt_next := shadow_next;
  rt_path_to_node := shadow_path_to_node;
  rt_path_to_key := shadow_path_to_key;
  rt_path_to_service := shadow_path_to_service;
  rt_path_to_services := shadow_path_to_services;
}.

(** ** Broadcasts *)

Section broadcast.
Context {Remote : Type} `{EqDecision Remote}.
Implicit Types (e : ServiceConn Remote) (l es : list (ServiceConn Remote)).

(** An entry a broadcast may use: inside the level, not back to the relay. *)
Definition eligible (node_id : NodeId) (level : ServiceBroadcastLevel) (relay_from : option NodeId) e : Prop :=
  same_level level node_id (sc_dest e) = true ∧ relay_from ≠ Some (sc_next e).

(** [es] is one best eligible entry of [l] per destination. *)
Record broadcast_choice (P : ServiceConn Remote → Prop) (l es : list (ServiceConn Remote)) : Prop := {
  bc_sublist : es `sublist_of` l;
  bc_eligible : Forall P es;
  bc_unique : NoDup (sc_dest <$> es);
  bc_covers : ∀ e, e ∈ l → P e → ∃ e', e' ∈ es ∧ sc_dest e' = sc_dest e ∧ sc_score e' ≤ sc_score e;
}.

#[global] Instance eligible_dec node_id level relay_from e : Decision (eligible node_id level relay_from e).
Proof. unfold eligible. apply _. Defined.

Lemma broadcast_step_eq node_id level relay_from remotes dests e :
  broadcast_step node_id level relay_from (remotes, dests) e =
  if decide (eligible node_id level relay_from e ∧ sc_dest e ∉ dests)
  then (remotes ++ [sc_conn e], {[sc_dest e]} ∪ dests) else (remotes, dests).
Proof.
  unfold broadcast_step. case_decide as Hd.
  - destruct Hd as [[Hl Hr] Hni]. rewrite bool_decide_eq_false_2, Hl by done. cbn.
    destruct relay_from as [n|]; [|done]. by destruct (Z.eqb_spec (sc_next e) n) as [<-|].
  - case_bool_decide as Hin; cbn; [done|].
    destruct (same_level level node_id (sc_dest e)) eqn:Hl; cbn; [|done].
    destruct relay_from as [n|]; [|by destruct Hd].
    destruct (Z.eqb_spec (sc_next e) n) as [<-|Hne]; [done|]. destruct Hd. split; [split; congruence|done].
Qed.

(** One more entry, worse than all before it: it is skipped when it is not
    eligible or its destination is already served. *)
Lemma broadcast_choice_snoc P l es x :
  broadcast_choice P l es → (∀ e, e ∈ l → sc_score e ≤ sc_score x) →
  ((¬ P x ∨ sc_dest x ∈ sc_dest <$> es) → broadcast_choice P (l ++ [x]) es) ∧
  (P x → sc_dest x ∉ sc_dest <$> es → broadcast_choice P (l ++ [x]) (es ++ [x])).
Proof.
  intros [Hsub Hel Hun Hcov] Hle. split.
  - intros Hskip. split; [by apply sublist_inserts_r | done..|].
    intros e [He| ->%list_elem_of_singleton]%elem_of_app HP; [by apply Hcov|].
    destruct Hskip as [|(e' & Hd & He')%list_elem_of_fmap]; [done|]. exists e'. split_and!; [done..|].
    apply Hle. by eapply elem_of_sublist.
  - intros HP Hni. split.
    + by apply sublist_app.
    + by apply Forall_app_2; [|constructor].
    + rewrite fmap_app. apply NoDup_app. split_and!; [done | | apply NoDup_singleton].
      intros d Hd. cbn. rewrite list_elem_of_singleton. by intros ->.
    + intros e [He| ->%list_elem_of_singleton]%elem_of_app HPe.
      * destruct (Hcov e He HPe) as (e' & ? & ? & ?). exists e'. set_solver.
      * exists x. split_and!; [set_solver|done..].
Qed.

Lemma broadcast_loop_choice node_id level relay_from l :
  StronglySorted (key_le sc_score) l →
  ∃ es, broadcast_choice (eligible node_id level relay_from) l es ∧
    foldl (broadcast_step node_id level relay_from) ([], ∅) l = (sc_conn <$> es, list_to_set (sc_dest <$> es)).
Proof.
  induction l as [|x l IH] using rev_ind; intros Hs.
  { exists []. split; [|done]. split; [done | constructor | constructor |].
    intros e He. by apply not_elem_of_nil in He. }
  apply StronglySorted_app in Hs as (Hle & Hs & _). destruct (IH Hs) as (es & Hes & Heq).
  destruct (broadcast_choice_snoc _ l es x Hes) as [Hskip Hpush].
  { intros e He. apply (Hle e x); [done|left]. }
  rewrite foldl_app, Heq. cbn [foldl]. rewrite broadcast_step_eq.
  destruct (decide _) as [[HP Hni]|Hn]; rewrite elem_of_list_to_set in *.
  - exists (es ++ [x]). split; [by apply Hpush|]. rewrite !fmap_app. f_equal.
    rewrite list_to_set_app_L. cbn. set_solver.
  - exists es. split; [|done]. apply Hskip.
    destruct (decide (eligible node_id level relay_from x)); [right|by left].
    destruct (decide (sc_dest x ∈ sc_dest <$> es)); tauto.
Qed.

(** A broadcast reaches every node of the service inside the level and
    nobody twice: [broadcast_dests] picks for every eligible destination
    (inside the level, not back to the relaying neighbour) exactly one entry,
    the best-scored one, and nothing else. It answers [None] only when no
    remote offers the service. *)
Theorem broadcast_dests_choice (service : list (ServiceConn Remote)) (node_id : NodeId)
    (level : ServiceBroadcastLevel) (relay_from : option NodeId) :
  StronglySorted (key_le sc_score) service →
  match broadcast_dests service node_id level relay_from with
  | Some remotes => ∃ es, remotes = sc_conn <$> es ∧
      (es `sublist_of` service) ∧ NoDup (sc_dest <$> es) ∧
      Forall (λ e, same_level level node_id (sc_dest e) = true ∧ relay_from ≠ Some (sc_next e)) es ∧
      ∀ e, e ∈ service → same_level level node_id (sc_dest e) = true → relay_from ≠ Some (sc_next e) →
        ∃ e', e' ∈ es ∧ sc_dest e' = sc_dest e ∧ sc_score e' ≤ sc_score e
  | None => service = []
  end.
Proof.
  intros Hs. destruct (broadcast_loop_choice node_id level relay_from service Hs) as (es & [H1 H2 H3 H4] & Heq).
  unfold broadcast_dests. destruct service as [|x service]; [done|]. rewrite Heq.
  exists es. split_and!; [done..|]. intros e He Hl Hr. by apply H4.
Qed.
End broadcast.

Lemma broadcast_dests_choice_witness :
  broadcast_dests [mkServiceConn 7 1 4 10; mkServiceConn 8 2 4 20; mkServiceConn 9 3 5 30] 0 Group (Some 3)
    = Some [7] ∧
  ∃ es : list (ServiceConn Z), [7] = sc_conn <$> es ∧ NoDup (sc_dest <$> es).
Proof.
  split; [reflexivity|].
  destruct (broadcast_dests_choice [mkServiceConn 7 1 4 10; mkServiceConn 8 2 4 20; mkServiceConn 9 3 5 30]
    0 Group (Some 3)) as (es & H1 & _ & H2 & _).
  - repeat constructor; unfold key_le; cbn; lia.
  - by exists es.
Defined.

(** ** Broadcast storms *)

Section once.
Context {Remote H : Type} `{EqDecision Remote} `{ShadowRouterHistoryLaws H}.

(** A broadcast is relayed once, for every history that keeps its
    promise: the first arrival is delivered locally if the service is local
    and relayed to the chosen remotes; an arrival of a broadcast the history
    has seen is rejected, whatever neighbour it comes from; and the first
    arrival makes the history see it and changes nothing else. *)
Theorem broadcast_relayed_once (s : ShadowRouter Remote H) (service seq : Z)
    (level level' : ServiceBroadcastLevel) (source relay relay' : option NodeId) :
  history_ok (cached s) →
  let '(s', a) := shadow_path_to_services s service seq level source relay in
  (history_seen (cached s) source service seq → a = Reject) ∧
  (¬ history_seen (cached s) source service seq →
    a = match broadcast_dests (arr_get (remote_registry s) service) (sr_node_id s) level relay with
        | Some nexts => Broadcast (arr_get (local_registries s) service) nexts
        | None => if arr_get (local_registries s) service then Local else Reject
        end) ∧
  (sr_node_id s' = sr_node_id s ∧ local_registries s' = local_registries s ∧
   remote_registry s' = remote_registry s ∧ sr_tables s' = sr_tables s) ∧
  derive_action (Remote := Remote) s' (ToServices service level' seq) source relay'
    = Done ((shadow_path_to_services s' service seq level' source relay').1, Reject).
Proof.
  intros Hok. unfold shadow_path_to_services at 1.
  pose proof (history_answer (cached s) source service seq Hok) as Hans.
  pose proof (history_records (cached s) source service seq Hok) as Hrec.
  destruct (already_received_broadcast (cached s) source service seq) as [h' received] eqn:Hr. cbn in Hans, Hrec.
  set (s' := mkShadowRouter _ _ _ _ h').
  assert (derive_action s' (ToServices service level' seq) source relay'
    = Done ((shadow_path_to_services s' service seq level' source relay').1, Reject)) as Hagain.
  { cbn. f_equal. unfold shadow_path_to_services. cbn.
    destruct Hrec as [Hok' Hseen]. apply (history_answer h' source service seq Hok') in Hseen.
    destruct (already_received_broadcast h' source service seq) as [h'' b]. cbn in *. by subst b. }
  destruct received.
  - split_and!; [done | | done..| done]. intros Hn. destruct Hn. by apply Hans.
  - split_and!; [| done..| done]. intros Hs. by apply Hans in Hs.
Qed.
End once.
