(* ===== verification/History.v ===== *)
(** * The broadcast history ([packages/runner/src/history.rs])

    The set of broadcasts a node has seen lately: a map for lookups and a
    queue in order of arrival for expiry, bounded to [HISTORY_LIMIT] entries.
    The two mutexes are taken in the same order and held for the whole call,
    so each call is one atomic step on the record. *)

From S2P Require Import Prelude NodeId ConnId Metric Paths Dest Table Route Registry Router Shadow.

Definition HISTORY_TIMEOUT_MS : Z := 2000.

(** The literal of [already_received_broadcast]. *)
Definition HISTORY_LIMIT : nat := Z.to_nat 10000.

Abbreviation BroadcastKey := (option NodeId * Z * Z)%type (only parsing).

Record DataWorkerHistory := mkHistory {
  now_ms : Z;
  history_queue : list (Z * BroadcastKey);
  history_map : gmap BroadcastKey bool;
}.

Definition history_default : DataWorkerHistory := mkHistory 0 [] ∅.

(** [pop_front] after a push cannot fail: the [expect] is on a queue of more
    than [HISTORY_LIMIT] entries. *)
Definition history_received (self : DataWorkerHistory) (from : option NodeId) (service seq : Z)
    : outcome (DataWorkerHistory * bool) :=
  let key := (from, service, seq) in
  match history_map self !! key with
  | Some _ => Done (self, true)
  | None =>
      let map := <[key := true]> (history_map self) in
      let queue := history_queue self ++ [(now_ms self, key)] in
      if bool_decide (HISTORY_LIMIT < length queue)%nat then
        front ← expect (head queue);
        Done (mkHistory (now_ms self) (tail queue) (delete front.2 map), false)
      else Done (mkHistory (now_ms self) queue map, false)
  end.

(** The [while] loop of [set_ts]: it stops at the first entry that is young. *)
Fixpoint expire (now : Z) (queue : list (Z * BroadcastKey)) (map : gmap BroadcastKey bool)
    : list (Z * BroadcastKey) * gmap BroadcastKey bool :=
  match queue with
  | [] => ([], map)
  | (time, key) :: rest =>
      if wrap 64 (time + HISTORY_TIMEOUT_MS) <=? now then expire now rest (delete key map)
      else (queue, map)
  end.

Definition set_ts (self : DataWorkerHistory) (now : Z) : DataWorkerHistory :=
  let '(queue, map) := expire now (history_queue self) (history_map self) in
  mkHistory now queue map.

(** ** Invariant: the map holds the keys of the queue, each queued once. *)

Record history_inv (h : DataWorkerHistory) : Prop := {
  hi_keys : NoDup (history_queue h).*2;
  hi_map : ∀ key, is_Some (history_map h !! key) ↔ key ∈ (history_queue h).*2;
  hi_bound : (length (history_queue h) ≤ HISTORY_LIMIT)%nat;
}.

Lemma history_default_inv : history_inv history_default.
Proof.
  split; cbn; [constructor | | unfold HISTORY_LIMIT; lia]. intros key. rewrite lookup_empty. split.
  - by intros [].
  - intros Hk. by apply not_elem_of_nil in Hk.
Qed.

Lemma history_push_inv h key :
  history_inv h → history_map h !! key = None →
  NoDup (history_queue h ++ [(now_ms h, key)]).*2 ∧
  ∀ k, is_Some (<[key := true]> (history_map h) !! k) ↔ k ∈ (history_queue h ++ [(now_ms h, key)]).*2.
Proof.
  intros [Hnd Hm _] Hnone.
  assert (key ∉ (history_queue h).*2) as Hni by (rewrite <- Hm, Hnone; by intros []).
  rewrite fmap_app. split.
  - apply NoDup_app. split_and!; [done | | apply NoDup_singleton]. intros k Hk. cbn.
    rewrite list_elem_of_singleton. by intros ->.
  - intros k. rewrite elem_of_app, <- Hm. cbn. rewrite list_elem_of_singleton.
    destruct (decide (k = key)) as [->|Hne].
    + rewrite lookup_insert_eq. split; [by right | done].
    + rewrite lookup_insert_ne by done. tauto.
Qed.

(** Removing the oldest entry from queue and map alike. *)
Lemma history_shift (time : Z) (key : BroadcastKey) (queue : list (Z * BroadcastKey)) (map : gmap BroadcastKey bool) :
  NoDup ((time, key) :: queue).*2 →
  (∀ k, is_Some (map !! k) ↔ k ∈ ((time, key) :: queue).*2) →
  NoDup queue.*2 ∧ ∀ k, is_Some (delete key map !! k) ↔ k ∈ queue.*2.
Proof.
  cbn. intros [Hni Hnd]%NoDup_cons Hm. split; [done|]. intros k. destruct (decide (k = key)) as [->|Hne].
  - rewrite lookup_delete_eq. split; [by intros [] | done].
  - rewrite lookup_delete_ne by done. rewrite Hm, elem_of_cons. tauto.
Qed.

Lemma history_received_spec h from service seq :
  history_inv h →
  ∃ h' b, history_received h from service seq = Done (h', b) ∧ history_inv h' ∧
    (b = true ↔ is_Some (history_map h !! (from, service, seq))) ∧
    is_Some (history_map h' !! (from, service, seq)) ∧ now_ms h' = now_ms h.
Proof.
  intros Hinv. unfold history_received. set (key := (from, service, seq)).
  destruct (history_map h !! key) as [v|] eqn:Hk.
  { exists h, true. rewrite Hk. split_and!; done. }
  destruct (history_push_inv h key Hinv Hk) as [Hnd Hm]. pose proof (hi_bound _ Hinv) as Hb.
  assert (b_false : false = true ↔ is_Some (@None bool)) by (split; [done | by intros []]).
  case_bool_decide as Hlen.
  - destruct (history_queue h) as [|[t0 k0] q] eqn:Hq; cbn in *; [unfold HISTORY_LIMIT in Hlen; lia|].
    destruct (history_shift t0 k0 (q ++ [(now_ms h, key)]) _ Hnd Hm) as [Hnd' Hm'].
    eexists _, false. split_and!; [done | split; cbn; [done..|] | done | | done].
    + rewrite length_app in *. cbn in *. lia.
    + apply Hm'. cbn. rewrite fmap_app. set_solver.
  - eexists _, false. split_and!; [done | split; cbn; [done | done | lia] | done | | done].
    cbn. by rewrite lookup_insert_eq.
Qed.

Lemma expire_spec (now : Z) (queue : list (Z * BroadcastKey)) (map : gmap BroadcastKey bool) :
  NoDup queue.*2 → (∀ k, is_Some (map !! k) ↔ k ∈ queue.*2) →
  let '(queue', map') := expire now queue map in
  (∃ old, queue = old ++ queue' ∧ Forall (λ e, wrap 64 (e.1 + HISTORY_TIMEOUT_MS) ≤ now) old) ∧
  NoDup queue'.*2 ∧ (∀ k, is_Some (map' !! k) ↔ k ∈ queue'.*2).
Proof.
  revert map. induction queue as [|[t k] queue IH]; intros map Hnd Hm; cbn [expire].
  { split_and!; [|done..]. exists []. by split. }
  destruct (Z.leb_spec (wrap 64 (t + HISTORY_TIMEOUT_MS)) now) as [Hle|Hgt].
  - destruct (history_shift t k queue map Hnd Hm) as [Hnd' Hm']. specialize (IH _ Hnd' Hm').
    destruct (expire now queue (delete k map)) as [q' m']. destruct IH as ((old & -> & Hold) & ? & ?).
    split_and!; [|done..]. exists ((t, k) :: old). split; [done|]. by constructor.
  - split_and!; [|done..]. exists []. by split.
Qed.

Lemma set_ts_inv h now : history_inv h → history_inv (set_ts h now).
Proof.
  intros [Hnd Hm Hb]. unfold set_ts. pose proof (expire_spec now _ _ Hnd Hm) as He.
  destruct (expire now (history_queue h) (history_map h)) as [q m]. destruct He as ((old & Hq & _) & Hnd' & Hm').
  split; cbn; [done..|]. rewrite Hq, length_app in Hb. lia.
Qed.

(** ** The instance of the trait

    [history_received] returns on every history the invariant holds of, so
    the default answer is never used there. *)

#[global] Instance data_worker_history : ShadowRouterHistory DataWorkerHistory := {
  already_received_broadcast h from service seq :=
    match history_received h from service seq with Done r => r | Panic => (h, false) end;
  history_set_ts := set_ts;
}.

#[global] Instance data_worker_history_laws : ShadowRouterHistoryLaws DataWorkerHistory.
Proof.
  refine {| history_ok := history_inv;
            history_seen h from service seq := is_Some (history_map h !! (from, service, seq)) |}.
  - intros h from service seq Hinv. cbn.
    by destruct (history_received_spec h from service seq Hinv) as (h' & b & -> & _ & Hb & _).
  - intros h from service seq Hinv. cbn.
    by destruct (history_received_spec h from service seq Hinv) as (h' & b & -> & Hinv' & _ & Hs & _).
Defined.

(** ** Suppression of repeated broadcasts *)

(** What happens to the history between two arrivals of a broadcast. *)
Inductive HistoryOp :=
| OpReceive (from : option NodeId) (service seq : Z)
| OpSetTs (now : Z).

Definition history_op (h : DataWorkerHistory) (op : HistoryOp) : DataWorkerHistory :=
  match op with
  | OpReceive from service seq => (already_received_broadcast h from service seq).1
  | OpSetTs now => set_ts h now
  end.

Definition receives (ops : list HistoryOp) : nat :=
  sum_list_with (λ op, match op with OpReceive _ _ _ => 1%nat | OpSetTs _ => 0%nat end) ops.

(** The entry of [key] made at time [t] is queued with at most [n] younger
    ones. *)
Definition remembered (t : Z) (key : BroadcastKey) (n : nat) (h : DataWorkerHistory) : Prop :=
  history_inv h ∧ ∃ older younger, history_queue h = older ++ (t, key) :: younger ∧ (length younger ≤ n)%nat.

Lemma remembered_seen t key n h : remembered t key n h → is_Some (history_map h !! key).
Proof.
  intros [Hinv (older & younger & Hq & _)]. apply (hi_map _ Hinv). rewrite Hq, fmap_app. set_solver.
Qed.

Lemma remembered_receive t key n h from service seq :
  remembered t key n h → (S n < HISTORY_LIMIT)%nat →
  remembered t key (S n) (history_op h (OpReceive from service seq)).
Proof.
  intros [Hinv (older & younger & Hq & Hn)] Hlim. cbn.
  destruct (history_received_spec h from service seq Hinv) as (h' & b & Hr & Hinv' & _). rewrite Hr. cbn.
  split; [done|]. unfold history_received in Hr. destruct (history_map h !! _); [|].
  { injection Hr as <- <-. exists older, younger. split; [done|lia]. }
  rewrite Hq in Hr. case_bool_decide as Hlen.
  - destruct older as [|e older]; cbn in *.
    + rewrite length_app in Hlen. cbn in Hlen. lia.
    + injection Hr as <- <-. exists older, (younger ++ [(now_ms h, (from, service, seq))]). cbn.
      rewrite <- app_assoc. split; [done|]. rewrite length_app. cbn. lia.
  - injection Hr as <- <-. exists older, (younger ++ [(now_ms h, (from, service, seq))]). cbn.
    rewrite <- app_assoc. split; [done|]. rewrite length_app. cbn. lia.
Qed.

Lemma remembered_set_ts t key n h now :
  remembered t key n h → now < wrap 64 (t + HISTORY_TIMEOUT_MS) → remembered t key n (set_ts h now).
Proof.
  intros [Hinv (older & younger & Hq & Hn)] Hnow. split; [by apply set_ts_inv|].
  destruct Hinv as [Hnd Hm _]. unfold set_ts. pose proof (expire_spec now _ _ Hnd Hm) as He.
  destruct (expire now (history_queue h) (history_map h)) as [q m]. destruct He as ((old & Hold & Hall) & _). cbn.
  rewrite Hq in Hold. apply app_eq_app in Hold as (k & [[-> Hk]|[-> Hk]]).
  - by exists k, younger.
  - destruct k as [|e k]; cbn in Hk.
    + exists [], younger. by subst.
    + exfalso. injection Hk as <- _. rewrite Forall_app, Forall_cons in Hall. cbn in Hall. lia.
Qed.

Lemma remembered_ops t key ops n h :
  remembered t key n h → (n + receives ops < HISTORY_LIMIT)%nat →
  Forall (λ op, match op with OpSetTs now => now < wrap 64 (t + HISTORY_TIMEOUT_MS) | _ => True end) ops →
  remembered t key (n + receives ops) (foldl history_op h ops).
Proof.
  intros Hr Hlim Hts. revert n h Hr Hlim. induction Hts as [|op ops Hop Hops IH]; intros n h Hr Hlim.
  { cbn. by rewrite Nat.add_0_r. }
  destruct op as [from service seq|now]; cbn [foldl].
  - change (receives (OpReceive from service seq :: ops)) with (S (receives ops)) in *.
    rewrite Nat.add_succ_r, <- Nat.add_succ_l. apply IH; [|lia]. apply remembered_receive; [done|lia].
  - change (receives (OpSetTs now :: ops)) with (receives ops) in *. apply IH; [|done].
    by apply remembered_set_ts.
Qed.

(** The first arrival is remembered. *)
Lemma received_remembered h from service seq h' :
  history_inv h → history_received h from service seq = Done (h', false) →
  remembered (now_ms h) (from, service, seq) 0 h'.
Proof.
  intros Hinv Hr.
  destruct (history_received_spec h from service seq Hinv) as (h'' & b & Hr' & Hinv' & _).
  rewrite Hr in Hr'. injection Hr' as <- <-. split; [done|].
  unfold history_received in Hr. destruct (history_map h !! _); [done|]. case_bool_decide as Hlen.
  - pose proof (hi_bound _ Hinv). destruct (history_queue h) as [|e q]; cbn in *.
    + unfold HISTORY_LIMIT in Hlen. lia.
    + injection Hr as <-. by exists q, [].
  - injection Hr as <-. by exists (history_queue h), [].
Qed.

(** A broadcast is accepted once: after its first arrival at time [t] it
    is reported as received for two seconds, as long as fewer than
    [HISTORY_LIMIT] broadcasts arrive meanwhile, whatever their order and
    whatever the clock ticks in between. *)
Theorem broadcast_received_once (h h' : DataWorkerHistory) (from : option NodeId) (service seq : Z)
    (ops : list HistoryOp) :
  history_inv h → 0 ≤ now_ms h → now_ms h + HISTORY_TIMEOUT_MS < 2 ^ 64 →
  already_received_broadcast h from service seq = (h', false) →
  (receives ops < HISTORY_LIMIT)%nat →
  Forall (λ op, match op with OpSetTs now => now < now_ms h + HISTORY_TIMEOUT_MS | _ => True end) ops →
  (already_received_broadcast (foldl history_op h' ops) from service seq).2 = true.
Proof.
  intros Hinv H0 Hov Hr Hlim Hts.
  assert (history_received h from service seq = Done (h', false)) as Hr'.
  { destruct (history_received_spec h from service seq Hinv) as (h'' & b & Heq & _).
    cbn in Hr. rewrite Heq in Hr |- *. congruence. }
  pose proof (received_remembered h from service seq h' Hinv Hr') as Hrem.
  apply (remembered_ops _ _ ops) in Hrem; [|done|].
  - apply (history_answer (H := DataWorkerHistory)); [by destruct Hrem|]. by eapply remembered_seen.
  - rewrite wrap_small by (unfold HISTORY_TIMEOUT_MS in *; lia). done.
Qed.

Lemma broadcast_received_once_witness :
  (already_received_broadcast
     (foldl history_op (already_received_broadcast history_default (Some 1) 2 3).1
        [OpReceive None 2 3; OpSetTs 1999; OpReceive (Some 1) 2 4]) (Some 1) 2 3).2 = true.
Proof.
  apply (broadcast_received_once history_default _ (Some 1) 2 3).
  - apply history_default_inv.
  - cbn. lia.
  - cbn. unfold HISTORY_TIMEOUT_MS. lia.
  - reflexivity.
  - unfold HISTORY_LIMIT. change (receives _) with 2%nat. lia.
  - repeat constructor; cbn; unfold HISTORY_TIMEOUT_MS; lia.
Defined.

Lemma broadcast_relayed_once_witness :
  history_ok (cached (shadow_new (Remote := Z) 1 history_default)) ∧
  (let '(s', a) := shadow_path_to_services (Remote := Z) (shadow_new 1 history_default) 2 3 Global (Some 9) None in
   a = Reject ∧ derive_action (Remote := Z) s' (ToServices 2 Geo1 3) (Some 9) (Some 4)
     = Done ((shadow_path_to_services s' 2 3 Geo1 (Some 9) (Some 4)).1, Reject)).
Proof.
  split; [apply history_default_inv|].
  pose proof (broadcast_relayed_once (shadow_new (Remote := Z) 1 history_default) 2 3 Global Geo1 (Some 9) None (Some 4)
    history_default_inv) as Hb.
  destruct (shadow_path_to_services (Remote := Z) (shadow_new 1 history_default) 2 3 Global (Some 9) None) as [s' a] eqn:E.
  destruct Hb as (_ & _ & _ & Hb). split; [|exact Hb].
  apply (f_equal snd) in E. vm_compute in E. by symmetry.
Defined.
