(* ===== verification/HistoryConc.v ===== *)
(** * The broadcast history shared by threads ([packages/runner/src/history.rs])

    The workers of a node share one history behind an [Arc]: a clock, which is
    an atomic integer, and a queue and a map behind a mutex each. Here each
    thread runs [already_received_broadcast] and [set_ts] step by step - the
    locks, the load and the store of the clock, the changes of the map and of
    the queue - and the steps of the threads interleave in any way. The calls
    turn out to be atomic: the history behaves like the record of [History],
    with [set_ts] in two pieces, since it stores the clock before it takes the
    locks. *)

From stdpp Require Import functions.
From S2P Require Import Prelude NodeId Shadow History.

(** ** Threads *)

Record Shared := mkShared {
  sh_now : Z;
  sh_queue : list (Z * BroadcastKey);
  sh_map : gmap BroadcastKey bool;
  lock_map : option nat;       (* the thread that holds [map.lock()] *)
  lock_queue : option nat;
}.

Inductive HistoryCall := CallReceived (key : BroadcastKey) | CallSetTs (now : Z).

(** Where a thread is in its call. *)
Inductive Pc :=
| Idle
| RStart (key : BroadcastKey)                  (* before [map.lock()] *)
| RMap (key : BroadcastKey)                    (* before [queue.lock()] *)
| RLocked (key : BroadcastKey)                 (* before the load of the clock *)
| RLoaded (key : BroadcastKey) (now : Z)       (* before [contains_key] *)
| RInserted (key : BroadcastKey) (now : Z)     (* before [push_back] *)
| RPushed (key : BroadcastKey)                 (* before the test of the length *)
| RDone (key : BroadcastKey) (res : bool)      (* before the guards are dropped, the last one first *)
| RUnlocked (key : BroadcastKey) (res : bool)
| TStart (now : Z)                             (* before the store of the clock *)
| TStored (now : Z)
| TMap (now : Z)
| TLocked (now : Z)                            (* at the head of the loop *)
| TDone (now : Z)
| TUnlocked (now : Z).

(** What a step shows: a call, its return with the result, and the moments at
    which the pieces of a call take effect. *)
Inductive LinEvent := LinReceived (key : BroadcastKey) (res : bool) | LinStore (now : Z) | LinExpire (now : Z).
Inductive Label := Tau | Call (call : HistoryCall) | Lin (ev : LinEvent) | Ret (res : option bool).

Definition with_locks (s : Shared) (m q : option nat) : Shared := mkShared (sh_now s) (sh_queue s) (sh_map s) m q.
Definition with_data (s : Shared) (queue : list (Z * BroadcastKey)) (map : gmap BroadcastKey bool) : Shared :=
  mkShared (sh_now s) queue map (lock_map s) (lock_queue s).

Inductive tstep (tid : nat) (s : Shared) : Pc → Label → Shared → Pc → Prop :=
| call_received key : tstep tid s Idle (Call (CallReceived key)) s (RStart key)
| r_lock_map key : lock_map s = None → tstep tid s (RStart key) Tau (with_locks s (Some tid) (lock_queue s)) (RMap key)
| r_lock_queue key : lock_queue s = None → tstep tid s (RMap key) Tau (with_locks s (lock_map s) (Some tid)) (RLocked key)
| r_load key : tstep tid s (RLocked key) (Lin (LinReceived key (bool_decide (is_Some (sh_map s !! key))))) s (RLoaded key (sh_now s))
| r_contains key now : is_Some (sh_map s !! key) → tstep tid s (RLoaded key now) Tau s (RDone key true)
| r_insert key now : sh_map s !! key = None → tstep tid s (RLoaded key now) Tau (with_data s (sh_queue s) (<[key := true]> (sh_map s))) (RInserted key now)
| r_push key now : tstep tid s (RInserted key now) Tau (with_data s (sh_queue s ++ [(now, key)]) (sh_map s)) (RPushed key)
| r_trim key front rest : (HISTORY_LIMIT < length (sh_queue s))%nat → sh_queue s = front :: rest →
    tstep tid s (RPushed key) Tau (with_data s rest (delete front.2 (sh_map s))) (RDone key false)
| r_keep key : ¬ (HISTORY_LIMIT < length (sh_queue s))%nat → tstep tid s (RPushed key) Tau s (RDone key false)
| r_unlock_queue key res : tstep tid s (RDone key res) Tau (with_locks s (lock_map s) None) (RUnlocked key res)
| r_unlock_map key res : tstep tid s (RUnlocked key res) (Ret (Some res)) (with_locks s None (lock_queue s)) Idle
| call_set_ts now : tstep tid s Idle (Call (CallSetTs now)) s (TStart now)
| t_store now : tstep tid s (TStart now) (Lin (LinStore now)) (mkShared now (sh_queue s) (sh_map s) (lock_map s) (lock_queue s)) (TStored now)
| t_lock_map now : lock_map s = None → tstep tid s (TStored now) Tau (with_locks s (Some tid) (lock_queue s)) (TMap now)
| t_lock_queue now : lock_queue s = None → tstep tid s (TMap now) (Lin (LinExpire now)) (with_locks s (lock_map s) (Some tid)) (TLocked now)
| t_pop now time key rest : sh_queue s = (time, key) :: rest → wrap 64 (time + HISTORY_TIMEOUT_MS) ≤ now →
    tstep tid s (TLocked now) Tau (with_data s rest (delete key (sh_map s))) (TLocked now)
| t_break now : match sh_queue s with [] => True | (time, _) :: _ => now < wrap 64 (time + HISTORY_TIMEOUT_MS) end →
    tstep tid s (TLocked now) Tau s (TDone now)
| t_unlock_queue now : tstep tid s (TDone now) Tau (with_locks s (lock_map s) None) (TUnlocked now)
| t_unlock_map now : tstep tid s (TUnlocked now) (Ret None) (with_locks s None (lock_queue s)) Idle.

(** The threads of a node, from the start, and what they showed. *)
Inductive threads : list (nat * Label) → Shared → (nat → Pc) → Prop :=
| threads_start : threads [] (mkShared 0 [] ∅ None None) (λ _, Idle)
| threads_step trace s pcs tid label s' pc' :
    threads trace s pcs → tstep tid s (pcs tid) label s' pc' → threads (trace ++ [(tid, label)]) s' (<[tid := pc']> pcs).

(** ** The atomic history *)

Definition lin_apply (h : DataWorkerHistory) (ev : LinEvent) : outcome (DataWorkerHistory * bool) :=
  match ev with
  | LinReceived key _ => history_received h key.1.1 key.1.2 key.2
  | LinStore now => Done (mkHistory now (history_queue h) (history_map h), false)
  | LinExpire now =>
      let '(queue, map) := expire now (history_queue h) (history_map h) in
      Done (mkHistory (now_ms h) queue map, false)
  end.

(** The atomic history goes from one state to another, with these answers. *)
Inductive atomic_run : DataWorkerHistory → list LinEvent → DataWorkerHistory → Prop :=
| atomic_nil h : atomic_run h [] h
| atomic_snoc h evs h1 ev h2 res : atomic_run h evs h1 → lin_apply h1 ev = Done (h2, res) →
    match ev with LinReceived _ r => r = res | _ => True end → atomic_run h (evs ++ [ev]) h2.

Definition lin_of (l : nat * Label) : option LinEvent := match l.2 with Lin ev => Some ev | _ => None end.

(** One thread: a call, then the effects of this call, then its return with the
    answer it had when it took effect. *)
Inductive Phase := PIdle | PCalled (call : HistoryCall) | PStored (now : Z) | PEffect (res : option bool).

Definition phase_step (p : option Phase) (label : Label) : option Phase :=
  match p, label with
  | Some p, Tau => Some p
  | Some PIdle, Call c => Some (PCalled c)
  | Some (PCalled (CallReceived key)), Lin (LinReceived key' res) => if decide (key = key') then Some (PEffect (Some res)) else None
  | Some (PCalled (CallSetTs now)), Lin (LinStore now') => if decide (now = now') then Some (PStored now) else None
  | Some (PStored now), Lin (LinExpire now') => if decide (now = now') then Some (PEffect None) else None
  | Some (PEffect res), Ret res' => if decide (res = res') then Some PIdle else None
  | _, _ => None
  end.

Definition phase (tid : nat) (trace : list (nat * Label)) : option Phase :=
  foldl (λ p l, if decide (l.1 = tid) then phase_step p l.2 else p) (Some PIdle) trace.

(** ** The invariant *)

Definition holds_map (pc : Pc) : bool :=
  match pc with Idle | RStart _ | TStart _ | TStored _ => false | _ => true end.

Definition holds_queue (pc : Pc) : bool :=
  match pc with RLocked _ | RLoaded _ _ | RInserted _ _ | RPushed _ | RDone _ _ | TLocked _ | TDone _ => true | _ => false end.

Abbreviation Data := (list (Z * BroadcastKey) * gmap BroadcastKey bool)%type (only parsing).

Definition trim (d : Data) : Data :=
  if bool_decide (HISTORY_LIMIT < length d.1)%nat then match d.1 with [] => d | front :: rest => (rest, delete front.2 d.2) end else d.

(** What is left to do of the effect that was promised. *)
Definition finish (pc : Pc) (d : Data) : Data :=
  match pc with
  | RLoaded key now => match d.2 !! key with Some _ => d | None => trim (d.1 ++ [(now, key)], <[key := true]> d.2) end
  | RInserted key now => trim (d.1 ++ [(now, key)], d.2)
  | RPushed _ => trim d
  | TLocked now => expire now d.1 d.2
  | _ => d
  end.

Definition phase_of (map : gmap BroadcastKey bool) (pc : Pc) : Phase :=
  match pc with
  | Idle => PIdle
  | RStart key | RMap key | RLocked key => PCalled (CallReceived key)
  | RLoaded key _ => PEffect (Some (bool_decide (is_Some (map !! key))))
  | RInserted _ _ | RPushed _ => PEffect (Some false)
  | RDone _ res | RUnlocked _ res => PEffect (Some res)
  | TStart now => PCalled (CallSetTs now)
  | TStored now | TMap now => PStored now
  | TLocked _ | TDone _ | TUnlocked _ => PEffect None
  end.

Record conc_inv (s : Shared) (pcs : nat → Pc) (h : DataWorkerHistory) : Prop := {
  co_map : ∀ tid, lock_map s = Some tid ↔ holds_map (pcs tid) = true;
  co_queue : ∀ tid, lock_queue s = Some tid ↔ holds_queue (pcs tid) = true;
  co_now : now_ms h = sh_now s;
  co_atomic : history_inv h;
  co_free : lock_queue s = None → (sh_queue s, sh_map s) = (history_queue h, history_map h);
  co_held : ∀ tid, holds_queue (pcs tid) = true → finish (pcs tid) (sh_queue s, sh_map s) = (history_queue h, history_map h);
}.

(** What a step does to the locks, as its thread sees them. *)
Definition lock_after (before after : option nat) (tid : nat) (had has : bool) : Prop :=
  (had = has ∧ after = before) ∨ (had = false ∧ has = true ∧ before = None ∧ after = Some tid) ∨ (had = true ∧ has = false ∧ after = None).

Lemma tstep_locks tid s pc label s' pc' : tstep tid s pc label s' pc' →
  lock_after (lock_map s) (lock_map s') tid (holds_map pc) (holds_map pc') ∧ lock_after (lock_queue s) (lock_queue s') tid (holds_queue pc) (holds_queue pc').
Proof. intros Hs. unfold lock_after. destruct Hs; cbn; split; tauto || (left; done) || (right; left; done) || (right; right; done). Qed.

Lemma lock_after_inv before after tid (had : nat → bool) has :
  (∀ i, before = Some i ↔ had i = true) → lock_after before after tid (had tid) has → ∀ i, after = Some i ↔ (if decide (i = tid) then has else had i) = true.
Proof.
  intros Hb Hl i. destruct Hl as [[<- ->]|[(Hh & -> & Hn & ->)|(Hh & -> & ->)]]; case_decide as Hi; try subst i.
  - apply Hb.
  - apply Hb.
  - done.
  - rewrite <- Hb, Hn. split; congruence.
  - done.
  - split; [done|]. intros Hi'%Hb. apply Hb in Hh. congruence.
Qed.

Lemma history_received_finish h now key : history_inv h → now_ms h = now →
  ∃ h', history_received h key.1.1 key.1.2 key.2 = Done (h', bool_decide (is_Some (history_map h !! key))) ∧ history_inv h' ∧ now_ms h' = now ∧
    finish (RLoaded key now) (history_queue h, history_map h) = (history_queue h', history_map h').
Proof.
  intros Hinv Hnow. destruct key as [[from service] seq]. cbn [fst snd]. set (key := (from, service, seq)).
  destruct (history_received_spec h from service seq Hinv) as (h' & b & Hr & Hinv' & Hb & _ & Hn'). exists h'.
  assert (b = bool_decide (is_Some (history_map h !! key))) as <-.
  { destruct b; symmetry; [apply bool_decide_eq_true; by apply Hb|apply bool_decide_eq_false]. by intros ?%Hb. }
  split; [done|]. split; [done|]. split; [congruence|]. cbn [finish fst snd]. unfold history_received in Hr. fold key in Hr. cbv zeta in Hr.
  destruct (history_map h !! key) as [v|]; [by injection Hr as <- <-|]. unfold trim. cbn [fst snd]. rewrite Hnow in Hr.
  case_bool_decide as Hlen; [|by injection Hr as <- <-]. destruct (history_queue h ++ [(now, key)]) as [|front rest] eqn:Hq; cbn in Hr; [done|].
  by injection Hr as <- <-.
Qed.

Abbreviation data s := (sh_queue s, sh_map s) (only parsing).
Abbreviation hdata h := (history_queue h, history_map h) (only parsing).

Lemma conc_inv_step s pcs h tid label s' pc' h' :
  conc_inv s pcs h → tstep tid s (pcs tid) label s' pc' → now_ms h' = sh_now s' → history_inv h' →
  (holds_queue (pcs tid) = false → data s' = data s) → (holds_queue (pcs tid) || holds_queue pc' = false → hdata h' = hdata h) →
  (holds_queue (pcs tid) || holds_queue pc' = true → finish pc' (data s') = hdata h') → conc_inv s' (<[tid := pc']> pcs) h'.
Proof.
  intros [Hm Hq Hn Ha Hfree Hheld] Hstep Hnow Hinv Hsame Hhsame Hfin. destruct (tstep_locks _ _ _ _ _ _ Hstep) as [Hlm Hlq].
  assert (∀ (f : Pc → bool) i, f ((<[tid := pc']> pcs) i) = if decide (i = tid) then f pc' else f (pcs i)) as Hget.
  { intros f i. case_decide as Hi; [by rewrite Hi, fn_lookup_insert|by rewrite fn_lookup_insert_ne]. }
  split; [| |done|done| |].
  - intros i. rewrite (Hget holds_map). by apply (lock_after_inv (lock_map s) (lock_map s') tid (λ i, holds_map (pcs i))).
  - intros i. rewrite (Hget holds_queue). by apply (lock_after_inv (lock_queue s) (lock_queue s') tid (λ i, holds_queue (pcs i))).
  - intros Hnone. destruct Hlq as [[Heq Hs]|[(_ & _ & _ & ?)|(Hb & Hr & _)]]; [|congruence|].
    + rewrite Hs in Hnone. assert (holds_queue (pcs tid) = false) as Hf by (apply not_true_is_false; intros Hx%Hq; congruence).
      rewrite Hsame, Hhsame, Hfree by (done || (by rewrite <- Heq, Hf)). done.
    + rewrite <- Hfin by (by rewrite Hb). by destruct pc'.
  - intros i Hi. destruct (decide (i = tid)) as [->|Hne].
    + rewrite fn_lookup_insert in Hi |- *. apply Hfin. rewrite Hi. apply orb_true_r.
    + rewrite fn_lookup_insert_ne in Hi |- * by done. pose proof (proj2 (Hq i) Hi) as Hlock.
      assert (holds_queue (pcs tid) = false) as Hf by (apply not_true_is_false; intros Hx%Hq; congruence).
      assert (holds_queue pc' = false) as Hf'. { destruct Hlq as [[Heq _]|[(_ & _ & ? & _)|(? & _)]]; congruence. }
      rewrite Hsame, Hhsame by (done || (by rewrite Hf, Hf')). by apply Hheld.
Qed.

(** A step that takes effect does to the atomic history what it promised; the
    other steps do nothing to it. *)
Definition lin_ok (h : DataWorkerHistory) (label : Label) (h' : DataWorkerHistory) : Prop :=
  match label with
  | Lin ev => ∃ res, lin_apply h ev = Done (h', res) ∧ match ev with LinReceived _ r => r = res | _ => True end
  | _ => h' = h
  end.

Lemma store_inv h now : history_inv h → history_inv (mkHistory now (history_queue h) (history_map h)).
Proof. intros [? ? ?]. by split. Qed.

Lemma expire_inv h t : history_inv h →
  ∃ h', lin_apply h (LinExpire t) = Done (h', false) ∧ history_inv h' ∧ now_ms h' = now_ms h ∧ hdata h' = expire t (history_queue h) (history_map h).
Proof.
  intros Hinv. pose proof (set_ts_inv h t Hinv) as Hts. unfold set_ts in Hts. cbn [lin_apply]. destruct (expire t _ _) as [q m].
  eexists. split; [done|]. split; [by destruct Hts|done].
Qed.

Lemma expire_pop t time key rest map : wrap 64 (time + HISTORY_TIMEOUT_MS) ≤ t → expire t ((time, key) :: rest) map = expire t rest (delete key map).
Proof. intros Hle. cbn [expire]. by rewrite (proj2 (Z.leb_le _ _) Hle). Qed.

Lemma expire_break t queue map : match queue with [] => True | (time, _) :: _ => t < wrap 64 (time + HISTORY_TIMEOUT_MS) end → expire t queue map = (queue, map).
Proof. destruct queue as [|[time key] rest]; cbn [expire]; [done|]. intros Hlt. by rewrite (proj2 (Z.leb_gt _ _) Hlt). Qed.

Lemma tstep_inv tid s pcs h label s' pc' :
  conc_inv s pcs h → tstep tid s (pcs tid) label s' pc' → ∃ h', lin_ok h label h' ∧ conc_inv s' (<[tid := pc']> pcs) h'.
Proof.
  intros Hinv Hstep. pose proof Hinv as [Hm Hq Hn Ha Hfree Hheld]. specialize (Hheld tid).
  assert (∀ h', lin_ok h label h' → now_ms h' = sh_now s' → history_inv h' →
    (holds_queue (pcs tid) = false → data s' = data s) → (holds_queue (pcs tid) || holds_queue pc' = false → hdata h' = hdata h) →
    (holds_queue (pcs tid) || holds_queue pc' = true → finish pc' (data s') = hdata h') → ∃ h', lin_ok h label h' ∧ conc_inv s' (<[tid := pc']> pcs) h') as Hby.
  { intros h' Hlin H1 H2 H3 H4 H5. exists h'. split; [done|]. by eapply conc_inv_step. }
  revert Hby Hheld Hstep. generalize (pcs tid). intros pc Hby Hheld Hstep. revert Hby Hheld.
  destruct Hstep as [key|key Hl|key Hl|key|key now Hk|key now Hk|key now|key front rest Hlen Hfront|key Hlen|key res|key res
    |now|now|now Hl|now Hl|now time key rest Hrest Hold|now Hend|now|now]; cbn [holds_queue orb finish fst snd]; intros Hby Hheld; try (apply (Hby h); by cbn).
  - apply (Hby h); cbn; try done. intros _. by apply Hfree.
  - specialize (Hheld eq_refl). injection Hheld as Hd1 Hd2. destruct (history_received_finish h (sh_now s) key Ha Hn) as (h' & Hr & Hinv' & Hn' & Hf).
    apply (Hby h'); [|done..|]; [cbn; rewrite Hd2; by eexists|]. intros _. by rewrite Hd1, Hd2.
  - apply (Hby h); cbn; try done. intros _. rewrite <- Hheld by done. by destruct Hk as [v ->].
  - apply (Hby h); cbn; try done. intros _. rewrite <- Hheld by done. by rewrite Hk.
  - apply (Hby h); cbn; try done. intros _. rewrite <- Hheld by done. unfold trim. cbn [fst snd]. rewrite bool_decide_eq_true_2 by done. by rewrite Hfront.
  - apply (Hby h); cbn; try done. intros _. rewrite <- Hheld by done. unfold trim. cbn [fst snd]. by rewrite bool_decide_eq_false_2 by done.
  - apply (Hby (mkHistory now (history_queue h) (history_map h))); cbn; try done; [by eexists|by apply store_inv].
  - destruct (expire_inv h now Ha) as (h' & Hl' & Hinv' & Hn' & Hd). specialize (Hfree Hl). injection Hfree as Hd1 Hd2.
    apply (Hby h'); [by exists false|cbn; congruence|done..|]. intros _. cbn. by rewrite Hd1, Hd2, Hd.
  - apply (Hby h); cbn; try done. intros _. rewrite <- Hheld by done. by rewrite Hrest, expire_pop.
  - apply (Hby h); cbn; try done. intros _. rewrite <- Hheld by done. by rewrite expire_break.
Qed.

(** ** Calls and returns *)

Lemma tstep_phase tid s pc label s' pc' : tstep tid s pc label s' pc' → phase_step (Some (phase_of (sh_map s) pc)) label = Some (phase_of (sh_map s') pc').
Proof.
  destruct 1; cbn; rewrite ?decide_True by done; try done.
  - by rewrite bool_decide_eq_true_2.
  - rewrite bool_decide_eq_false_2; [done|]. rewrite H. by intros [].
Qed.

Lemma tstep_other tid s pcs h label s' pc' i : conc_inv s pcs h → tstep tid s (pcs tid) label s' pc' → i ≠ tid → phase_of (sh_map s') (pcs i) = phase_of (sh_map s) (pcs i).
Proof.
  intros [_ Hq _ _ _ _] Hstep Hne. destruct (pcs i) as [| | | |key now| | | | | | | | | |] eqn:Hi; try done. cbn.
  assert (holds_queue (pcs tid) = false) as Hf.
  { apply not_true_is_false. intros Ht%Hq. assert (lock_queue s = Some i) by (apply Hq; by rewrite Hi). congruence. }
  revert Hf Hstep. generalize (pcs tid). intros pc Hf Hstep. by destruct Hstep.
Qed.

Lemma threads_inv trace s pcs : threads trace s pcs →
  ∃ h, atomic_run history_default (omap lin_of trace) h ∧ conc_inv s pcs h ∧ ∀ tid, phase tid trace = Some (phase_of (sh_map s) (pcs tid)).
Proof.
  induction 1 as [|trace s pcs tid label s' pc' _ (h & Hrun & Hinv & Hph) Hstep].
  - exists history_default. split; [constructor|]. split; [|done]. split; cbn; try done. apply history_default_inv.
  - destruct (tstep_inv _ _ _ _ _ _ _ Hinv Hstep) as (h' & Hlin & Hinv'). exists h'. split; [|split; [done|]].
    + rewrite omap_app. cbn. unfold lin_of. cbn [snd]. destruct label as [|c|ev|res]; cbn [lin_ok] in Hlin; try (subst h'; by rewrite app_nil_r).
      destruct Hlin as (res & Hl & Hres). by eapply atomic_snoc.
    + intros i. unfold phase in *. rewrite foldl_app, Hph. cbn [foldl fst snd]. destruct (decide (tid = i)) as [<-|Hne].
      * rewrite fn_lookup_insert. by eapply tstep_phase.
      * rewrite fn_lookup_insert_ne by done. symmetry. f_equal. by eapply tstep_other.
Qed.

(** Somebody can go on. *)
Definition can_step (s : Shared) (pcs : nat → Pc) : Prop := ∃ tid label s' pc', pcs tid ≠ Idle ∧ tstep tid s (pcs tid) label s' pc'.

Lemma holder_steps s pcs h tid : conc_inv s pcs h → holds_queue (pcs tid) = true ∨ (holds_map (pcs tid) = true ∧ lock_queue s = None) → can_step s pcs.
Proof.
  intros Hinv Hh. assert (∃ label s' pc', tstep tid s (pcs tid) label s' pc') as (label & s' & pc' & Hs).
  { destruct (pcs tid) as [|key|key|key|key now|key now|key|key res|key res|now|now|now|now|now|now] eqn:Hpc; cbn in Hh; try (by destruct Hh as [?|[? ?]]);
      try (eexists _, _, _; by constructor).
    - eexists _, _, _. apply r_lock_queue. by destruct Hh as [?|[_ ?]].
    - destruct (sh_map s !! key) as [v|] eqn:Hk; eexists _, _, _; [by eapply r_contains|by eapply r_insert].
    - destruct (decide (HISTORY_LIMIT < length (sh_queue s))%nat) as [Hl|Hl]; [|eexists _, _, _; by apply r_keep].
      destruct (sh_queue s) as [|front rest] eqn:Hq; [cbn in Hl; lia|]. eexists _, _, _. eapply r_trim; [by rewrite Hq|done].
    - eexists _, _, _. apply t_lock_queue. by destruct Hh as [?|[_ ?]].
    - destruct (sh_queue s) as [|[time key] rest] eqn:Hq; [eexists _, _, _; apply t_break; by rewrite Hq|].
      destruct (Z.le_gt_cases (wrap 64 (time + HISTORY_TIMEOUT_MS)) now); eexists _, _, _; [by eapply t_pop|apply t_break; by rewrite Hq]. }
  exists tid, label, s', pc'. split; [|done]. intros Hi. rewrite Hi in Hh. by destruct Hh as [?|[? ?]].
Qed.

Lemma somebody_steps s pcs h tid : conc_inv s pcs h → pcs tid ≠ Idle → can_step s pcs.
Proof.
  intros Hinv Hne. destruct (lock_queue s) as [i|] eqn:Hq; [eapply (holder_steps s pcs h i); [done|left; by apply Hinv]|].
  destruct (lock_map s) as [i|] eqn:Hm; [eapply (holder_steps s pcs h i); [done|right; split; [by apply Hinv|done]]|].
  assert (holds_map (pcs tid) = false) as Hf by (apply not_true_is_false; intros Hx; apply (co_map _ _ _ Hinv) in Hx; congruence).
  exists tid. destruct (pcs tid) as [|key| | | | | | | |now|now| | | |]; try done; eexists _, _, _; (split; [done|]); by constructor.
Qed.

(** ** A broadcast is taken once *)

Definition lin_receives (evs : list LinEvent) : nat := sum_list_with (λ ev, match ev with LinReceived _ _ => 1%nat | _ => 0%nat end) evs.

(** The clock the stores left. *)
Definition lin_clock (evs : list LinEvent) : Z := foldl (λ t ev, match ev with LinStore now => now | _ => t end) 0 evs.

Definition young (t : Z) (ev : LinEvent) : Prop := match ev with LinExpire now => now < t + HISTORY_TIMEOUT_MS | _ => True end.

Lemma atomic_snoc_inv h evs ev h2 : atomic_run h (evs ++ [ev]) h2 →
  ∃ h1 res, atomic_run h evs h1 ∧ lin_apply h1 ev = Done (h2, res) ∧ match ev with LinReceived _ r => r = res | _ => True end.
Proof.
  remember (evs ++ [ev]) as l eqn:El. destruct 1 as [|h evs' h1 ev' h2 res Hr Hl Hres]; [by destruct evs|].
  apply app_inj_tail in El as [-> ->]. by exists h1, res.
Qed.

Lemma atomic_app h evs1 : ∀ evs2 h', atomic_run h (evs1 ++ evs2) h' → ∃ h1, atomic_run h evs1 h1 ∧ atomic_run h1 evs2 h'.
Proof.
  intros evs2. induction evs2 as [|ev evs2 IH] using rev_ind; intros h' Hr; [rewrite app_nil_r in Hr; exists h'; split; [done|constructor]|].
  rewrite app_assoc in Hr. apply atomic_snoc_inv in Hr as (h1 & res & Hr1 & Hl & Hres).
  destruct (IH _ Hr1) as (h2 & H1 & H2). exists h2. split; [done|]. by eapply atomic_snoc.
Qed.

Lemma lin_apply_inv h ev h' res : history_inv h → lin_apply h ev = Done (h', res) → history_inv h' ∧ now_ms h' = match ev with LinStore now => now | _ => now_ms h end.
Proof.
  intros Hinv. destruct ev as [[[from service] seq] r|now|now]; cbn [fst snd].
  - cbn [lin_apply fst snd]. destruct (history_received_spec h from service seq Hinv) as (h1 & b & -> & ? & _ & _ & ?). by intros [= <- <-].
  - cbn. intros [= <- <-]. split; [by apply store_inv|done].
  - destruct (expire_inv h now Hinv) as (h1 & -> & ? & ? & _). by intros [= <- <-].
Qed.

Lemma atomic_run_inv evs h : atomic_run history_default evs h → history_inv h ∧ now_ms h = lin_clock evs.
Proof.
  remember history_default as h0. induction 1 as [|h0 evs h1 ev h2 res _ IH Hl Hres]; subst; [by split; [apply history_default_inv|]|].
  destruct (IH eq_refl) as [Hinv Hn]. destruct (lin_apply_inv _ _ _ _ Hinv Hl) as [? ->]. split; [done|]. unfold lin_clock. rewrite foldl_app. cbn. rewrite Hn.
  by destruct ev.
Qed.

Lemma lin_remembered t key n h ev h' res : remembered t key n h → lin_apply h ev = Done (h', res) → young t ev → 0 ≤ t → t + HISTORY_TIMEOUT_MS < 2 ^ 64 →
  (n + lin_receives [ev] < HISTORY_LIMIT)%nat → remembered t key (n + lin_receives [ev]) h'.
Proof.
  intros Hr Hl Hy H0 Hov Hn. pose proof Hr as [Hinv (older & younger & Hq & Hlen)]. destruct ev as [[[from service] seq] r|now|now]; cbn [young] in Hy.
  - unfold lin_receives in *. cbn in Hn |- *. pose proof (remembered_receive t key n h from service seq Hr) as Hrec. cbn in Hl, Hrec. rewrite Hl in Hrec.
    rewrite Nat.add_1_r in *. by apply Hrec.
  - injection Hl as <- <-. unfold lin_receives. cbn. rewrite Nat.add_0_r. split; [by apply store_inv|]. by exists older, younger.
  - unfold lin_receives. cbn. rewrite Nat.add_0_r. pose proof (remembered_set_ts t key n h now Hr) as Hset. rewrite wrap_small in Hset by (unfold HISTORY_TIMEOUT_MS in *; lia).
    destruct (Hset Hy) as [Hinv' (o & y & Hq' & ?)]. unfold set_ts in Hq', Hinv'. cbn [lin_apply] in Hl. destruct (expire now _ _) as [q m]. injection Hl as <- <-.
    split; [by destruct Hinv'|]. by exists o, y.
Qed.

Lemma lin_remembered_run t key evs : 0 ≤ t → t + HISTORY_TIMEOUT_MS < 2 ^ 64 → Forall (young t) evs → ∀ n h h',
  remembered t key n h → atomic_run h evs h' → (n + lin_receives evs < HISTORY_LIMIT)%nat → remembered t key (n + lin_receives evs) h'.
Proof.
  intros H0 Hov. induction evs as [|ev evs IH] using rev_ind; intros Hy n h h' Hr Hrun Hn.
  - remember [] as l eqn:El. destruct Hrun as [|? evs0]; [|by destruct evs0]. unfold lin_receives. cbn. by rewrite Nat.add_0_r.
  - apply Forall_app in Hy as [Hy1 Hy2]. apply Forall_cons in Hy2 as [Hy2 _].
    assert (lin_receives (evs ++ [ev]) = lin_receives evs + lin_receives [ev])%nat as Happ by apply sum_list_with_app. rewrite Happ in Hn |- *.
    apply atomic_snoc_inv in Hrun as (h1 & res & Hr1 & Hl & Hres).
    rewrite Nat.add_assoc. apply (lin_remembered t key (n + lin_receives evs) h1 ev h' res); [|done..|lia]. apply (IH Hy1 n h); [done|done|lia].
Qed.

(** C14. The history that the workers share behaves as one that only one
    thread uses at a time, whatever the interleaving of their steps. The
    effects of the calls, in the order in which they took place, are a run of
    the atomic history with the same answers; every call takes effect once,
    between its start and its return, and returns the answer it had then; a
    thread inside a call can always go on or waits for one that can, so there
    is no deadlock. Hence a broadcast that one worker was told is new is known
    to all of them for two seconds, unless ten thousand others arrive. *)
Theorem shared_history_is_atomic (trace : list (nat * Label)) (s : Shared) (pcs : nat → Pc) :
  threads trace s pcs →
  (∃ h, atomic_run history_default (omap lin_of trace) h ∧ now_ms h = sh_now s ∧
    (lock_queue s = None → sh_queue s = history_queue h ∧ sh_map s = history_map h)) ∧
  (∀ tid, is_Some (phase tid trace)) ∧
  (∀ tid, pcs tid ≠ Idle → can_step s pcs) ∧
  (∀ key evs1 evs2 evs3 res, omap lin_of trace = (evs1 ++ [LinReceived key false]) ++ (evs2 ++ [LinReceived key res]) ++ evs3 →
    0 ≤ lin_clock evs1 → lin_clock evs1 + HISTORY_TIMEOUT_MS < 2 ^ 64 →
    Forall (young (lin_clock evs1)) evs2 → (lin_receives evs2 < HISTORY_LIMIT)%nat → res = true).
Proof.
  intros Ht. destruct (threads_inv trace s pcs Ht) as (h & Hrun & Hinv & Hph). split; [|split; [|split]].
  - exists h. split; [done|]. split; [apply Hinv|]. intros Hfree. apply (co_free _ _ _ Hinv) in Hfree. by injection Hfree as -> ->.
  - intros tid. rewrite Hph. by eexists.
  - intros tid Hne. by eapply somebody_steps.
  - intros key evs1 evs2 evs3 res Heq H0 Hov Hy Hn. rewrite Heq in Hrun. apply atomic_app in Hrun as (h2 & Hrun & Hrun3).
    apply atomic_app in Hrun3 as (h4 & Hrun2 & _). apply atomic_snoc_inv in Hrun as (h1 & r & Hrun1 & Hfirst & Hr). subst r.
    apply atomic_snoc_inv in Hrun2 as (h3 & r & Hrun2 & Hsecond & Hr). subst r. destruct (atomic_run_inv _ _ Hrun1) as [Hi1 Hclock].
    destruct key as [[from service] seq]. cbn [lin_apply fst snd] in Hfirst, Hsecond.
    pose proof (received_remembered h1 from service seq h2 Hi1 Hfirst) as Hrem. rewrite Hclock in Hrem.
    apply (lin_remembered_run _ _ evs2 H0 Hov Hy 0 h2 h3) in Hrem; [|done|done]. pose proof (remembered_seen _ _ _ _ Hrem) as Hseen. destruct Hrem as [Hi3 _].
    destruct (history_received_spec h3 from service seq Hi3) as (h5 & b & Hr5 & _ & Hb & _). rewrite Hr5 in Hsecond. injection Hsecond as _ ->. by apply Hb.
Qed.

(** Two workers are handed the same broadcast; the second one waits for the
    first and is told that it is known. *)
Definition demo_key : BroadcastKey := (Some 1, 2, 3).

Definition demo_trace : list (nat * Label) :=
  [(0%nat, Call (CallReceived demo_key)); (1%nat, Call (CallReceived demo_key)); (0%nat, Tau); (0%nat, Tau); (0%nat, Lin (LinReceived demo_key false));
   (0%nat, Tau); (0%nat, Tau); (0%nat, Tau); (0%nat, Tau); (0%nat, Ret (Some false)); (1%nat, Tau); (1%nat, Tau); (1%nat, Lin (LinReceived demo_key true))].

Definition demo_shared : Shared := mkShared 0 [(0, demo_key)] {[demo_key := true]} (Some 1%nat) (Some 1%nat).




(** The next step of a thread, from a run that is in the context. *)
Ltac next_step H tid rule :=
  let H' := fresh in pose proof (threads_step _ _ _ tid _ _ _ H rule) as H'; clear H; rename H' into H; cbn in H.

Lemma demo_threads : ∃ pcs, threads demo_trace demo_shared pcs ∧ pcs 1%nat = RLoaded demo_key 0.
Proof.
  pose proof threads_start as H.
  next_step H 0%nat (call_received 0 (mkShared 0 [] ∅ None None) demo_key).
  next_step H 1%nat (call_received 1 (mkShared 0 [] ∅ None None) demo_key).
  next_step H 0%nat (r_lock_map 0 (mkShared 0 [] ∅ None None) demo_key eq_refl).
  next_step H 0%nat (r_lock_queue 0 (mkShared 0 [] ∅ (Some 0%nat) None) demo_key eq_refl).
  next_step H 0%nat (r_load 0 (mkShared 0 [] ∅ (Some 0%nat) (Some 0%nat)) demo_key).
  next_step H 0%nat (r_insert 0 (mkShared 0 [] ∅ (Some 0%nat) (Some 0%nat)) demo_key 0 eq_refl).
  next_step H 0%nat (r_push 0 (mkShared 0 [] {[demo_key := true]} (Some 0%nat) (Some 0%nat)) demo_key 0).
  assert (¬ (HISTORY_LIMIT < 1)%nat) as Hlim by (unfold HISTORY_LIMIT; lia).
  next_step H 0%nat (r_keep 0 (mkShared 0 [(0, demo_key)] {[demo_key := true]} (Some 0%nat) (Some 0%nat)) demo_key Hlim).
  next_step H 0%nat (r_unlock_queue 0 (mkShared 0 [(0, demo_key)] {[demo_key := true]} (Some 0%nat) (Some 0%nat)) demo_key false).
  next_step H 0%nat (r_unlock_map 0 (mkShared 0 [(0, demo_key)] {[demo_key := true]} (Some 0%nat) None) demo_key false).
  next_step H 1%nat (r_lock_map 1 (mkShared 0 [(0, demo_key)] {[demo_key := true]} None None) demo_key eq_refl).
  next_step H 1%nat (r_lock_queue 1 (mkShared 0 [(0, demo_key)] {[demo_key := true]} (Some 1%nat) None) demo_key eq_refl).
  next_step H 1%nat (r_load 1 demo_shared demo_key).
  eexists. split; [exact H|done].
Qed.

Lemma shared_history_is_atomic_witness :
  ∃ pcs, threads demo_trace demo_shared pcs ∧ can_step demo_shared pcs ∧ phase 0 demo_trace = Some PIdle ∧ phase 1 demo_trace = Some (PEffect (Some true)).
Proof.
  destruct demo_threads as (pcs & Ht & Hpc). exists pcs. split; [exact Ht|]. split; [|by split].
  apply (shared_history_is_atomic demo_trace demo_shared pcs Ht) with 1%nat. rewrite Hpc. done.
Defined.
