(* ===== verification/ShadowSim.v ===== *)
(** * The data plane follows the control plane

    The router of the control plane queues deltas; the shadow routers of the
    workers apply them after the connection ids were translated to network
    pairs ([features/router_sync.rs], [pop_output]). This file shows that the
    pair is a simulation: pending deltas are exactly the difference between
    the two, whatever the interleaving of updates and deliveries, and a shadow
    router that has caught up answers like the router. *)

From S2P Require Import Prelude NodeId ConnId Metric Paths Dest Table Route Registry Router Shadow History.

Section simulation.
Context {Remote H : Type} `{EqDecision Remote} `{ShadowRouterHistory H}.

(** The translation of connections: the remote pair and the neighbour of a
    connection. This file takes it as a total, injective function, so every
    delta is delivered; the feature's own translation, which drops the deltas
    of connections that have ended, is the subject of [WorkerRoutes]. *)
Context (remote_of : ConnKey → Remote) `{!Inj (=) (=) remote_of} (node_of : ConnKey → NodeId).

Definition shadow_delta (d : RouterDelta) : ShadowRouterDelta Remote :=
  match d with
  | RDTable layer (index, SetBestPath conn) => SetTable layer index (remote_of (conn_key conn))
  | RDTable layer (index, DelBestPath) => DelTable layer index
  | RDRegistry (SetServiceLocal service) => ShadowSetServiceLocal service
  | RDRegistry (DelServiceLocal service) => ShadowDelServiceLocal service
  | RDRegistry (ServiceRemote service (SetServicePath conn dest score)) =>
      SetServiceRemote service (remote_of (conn_key conn)) (node_of (conn_key conn)) dest score
  | RDRegistry (ServiceRemote service (DelServicePath conn)) =>
      DelServiceRemote service (remote_of (conn_key conn))
  end.

Definition to_service_conn (e : SvcEntry) : ServiceConn Remote :=
  mkServiceConn (remote_of e.1) (node_of e.1) e.2.1 e.2.2.

(** What a shadow router stores, read back in terms of connections. *)
Record shows (s : ShadowRouter Remote H) (best : Z → Z → option ConnKey) (svc : Z → list SvcEntry)
    (loc : Z → bool) : Prop := {
  sh_length : length (sr_tables s) = 4%nat;
  sh_shape : ∀ l, is_layer l → st_layer (shadow_table_at s l) = l ∧
    length (st_dests (shadow_table_at s l)) = 256%nat;
  sh_best : ∀ l i, is_layer l → u8 i →
    arr_get (st_dests (shadow_table_at s l)) i = remote_of <$> best l i;
  sh_service_length : length (remote_registry s) = 256%nat;
  sh_service : ∀ i, u8 i → arr_get (remote_registry s) i = to_service_conn <$> svc i;
  sh_local_length : length (local_registries s) = 256%nat;
  sh_local : ∀ i, u8 i → arr_get (local_registries s) i = loc i;
}.

(** The invariant of the pair: following the queued deltas from what the
    shadow shows leads to what the router has. *)
Record lags (s : ShadowRouter Remote H) (r : Router) : Prop := {
  lag_wf : router_wf r;
  lag_node : sr_node_id s = router_node_id r;
  lag_view : ∃ best svc loc, shows s best svc loc ∧
    (∀ l i, is_layer l → u8 i →
      follow (best l i) (deltas_at i (table_deltas (table_at r l))) = table_best (table_at r l) i) ∧
    (∀ i, u8 i → svc_follow (svc i) (service_deltas i (registry_deltas (service_registry r)))
                 = svc_view (rdest_paths (registry_dest (service_registry r) i))) ∧
    (∀ i, u8 i → foldl (local_apply i) (loc i) (registry_deltas (service_registry r))
                 = registry_local (service_registry r) i);
  lag_table_deltas : ∀ l, is_layer l → Forall (λ d, u8 d.1) (table_deltas (table_at r l));
  lag_registry_deltas : Forall (λ d, u8 (delta_service d)) (registry_deltas (service_registry r));
}.

(** ** One delta *)

Lemma update_table_shows s best svc loc l i (k : option ConnKey) (f : ShadowTable Remote → ShadowTable Remote) :
  shows s best svc loc → is_layer l → u8 i →
  (∀ t, st_layer (f t) = st_layer t ∧ st_dests (f t) = arr_set (st_dests t) i (remote_of <$> k)) →
  ∃ s', update_table s l f = Done s' ∧ sr_node_id s' = sr_node_id s ∧ cached s' = cached s ∧
    shows s' (λ l' i', if decide (l' = l ∧ i' = i) then k else best l' i') svc loc.
Proof.
  intros [Hlen Hsh Hb Hsl Hs Hll Hl] Hlay Hi Hf. unfold update_table.
  assert (Z.to_nat l < length (sr_tables s))%nat as Hlt by (rewrite Hlen; unfold is_layer in Hlay; lia).
  rewrite (list_lookup_lookup_total_lt _ _ Hlt). fold (shadow_table_at s l). eexists. split_and!; [done..|].
  set (s' := mkShadowRouter _ _ _ _ _).
  destruct (Hf (shadow_table_at s l)) as [Hfl Hfd]. destruct (Hsh l Hlay) as [Hsl1 Hsl2].
  assert (shadow_table_at s' l = f (shadow_table_at s l)) as Heq.
  { unfold s', shadow_table_at. cbn. by apply list_lookup_total_insert_eq. }
  assert (∀ l', is_layer l' → l' ≠ l → shadow_table_at s' l' = shadow_table_at s l') as Hne.
  { intros l' Hl' Hne. unfold s', shadow_table_at. cbn. apply list_lookup_total_insert_ne.
    unfold is_layer in *. lia. }
  split; try done.
  - cbn. by rewrite length_insert.
  - intros l' Hl'. destruct (decide (l' = l)) as [->|?]; [|rewrite Hne by done; by apply Hsh].
    rewrite Heq, Hfl, Hfd, length_arr_set. done.
  - intros l' i' Hl' Hi'. destruct (decide (l' = l)) as [->|?].
    + rewrite Heq, Hfd. destruct (decide (i' = i)) as [->|?].
      * rewrite arr_get_set_eq by done. by rewrite decide_True.
      * rewrite arr_get_set_ne by done. rewrite decide_False by tauto. by apply Hb.
    + rewrite Hne by done. rewrite decide_False by tauto. by apply Hb.
Qed.

Lemma update_service_shows s best svc loc i e (f : list (ServiceConn Remote) → list (ServiceConn Remote)) :
  shows s best svc loc → u8 i → f (to_service_conn <$> svc i) = to_service_conn <$> e →
  shows (update_service s i f) best (λ i', if decide (i' = i) then e else svc i') loc.
Proof.
  intros [Hlen Hsh Hb Hsl Hs Hll Hl] Hi Hf. split; try done; cbn.
  - by rewrite length_arr_set.
  - intros i' Hi'. destruct (decide (i' = i)) as [->|Hne].
    + rewrite arr_get_set_eq by done. by rewrite Hs.
    + rewrite arr_get_set_ne by done. by apply Hs.
Qed.

Lemma update_local_shows s best svc loc i b :
  shows s best svc loc → u8 i →
  shows (update_local s i b) best svc (λ i', if decide (i' = i) then b else loc i').
Proof.
  intros [Hlen Hsh Hb Hsl Hs Hll Hl] Hi. split; try done; cbn.
  - by rewrite length_arr_set.
  - intros i' Hi'. destruct (decide (i' = i)) as [->|Hne].
    + by rewrite arr_get_set_eq.
    + rewrite arr_get_set_ne by done. by apply Hl.
Qed.

Lemma set_conn_follow (l : list SvcEntry) k dest score :
  set_conn (to_service_conn <$> l) (remote_of k) (node_of k) dest score
  = to_service_conn <$> stable_sort entry_score (kupsert fst (k, (dest, score)) l).
Proof.
  rewrite <- (stable_sort_map entry_score sc_score to_service_conn) by done.
  rewrite <- (kupsert_fmap fst sc_conn to_service_conn remote_of) by done. done.
Qed.

Lemma del_conn_follow (l : list SvcEntry) k :
  del_conn (to_service_conn <$> l) (remote_of k) = to_service_conn <$> kdel fst k l.
Proof. by rewrite <- (kdel_fmap fst sc_conn to_service_conn remote_of). Qed.

(** What one delta changes. *)
Definition best_after (d : RouterDelta) (best : Z → Z → option ConnKey) (l i : Z) : option ConnKey :=
  match d with
  | RDTable l' (i', dd) => if decide (l = l' ∧ i = i') then apply_dest_delta (best l i) dd else best l i
  | RDRegistry _ => best l i
  end.

Definition svc_after (apply : list SvcEntry → RegistryDestDelta → list SvcEntry) (d : RouterDelta) (svc : Z → list SvcEntry)
    (i : Z) : list SvcEntry :=
  match d with
  | RDRegistry (ServiceRemote i' dd) => if decide (i' = i) then apply (svc i) dd else svc i
  | _ => svc i
  end.

Definition loc_after (d : RouterDelta) (loc : Z → bool) (i : Z) : bool :=
  match d with RDRegistry g => local_apply i (loc i) g | RDTable _ _ => loc i end.

Definition delta_ok (d : RouterDelta) : Prop :=
  match d with RDTable l (i, _) => is_layer l ∧ u8 i | RDRegistry g => u8 (delta_service g) end.

Lemma shows_ext s best svc loc best' svc' loc' :
  shows s best svc loc →
  (∀ l i, is_layer l → u8 i → best l i = best' l i) →
  (∀ i, u8 i → svc i = svc' i) → (∀ i, u8 i → loc i = loc' i) →
  shows s best' svc' loc'.
Proof.
  intros [? ? Hb ? Hs ? Hl] E1 E2 E3. split; try done.
  - intros l i Hl' Hi. by rewrite <- E1, Hb.
  - intros i Hi. by rewrite <- E2, Hs.
  - intros i Hi. by rewrite <- E3, Hl.
Qed.

(** [apply] does to the entries what a service does to its remotes. *)
Definition service_apply (apply : list SvcEntry → RegistryDestDelta → list SvcEntry) : Prop :=
  ∀ l c, (∀ dest score, set_conn (to_service_conn <$> l) (remote_of (conn_key c)) (node_of (conn_key c)) dest score
                        = to_service_conn <$> apply l (SetServicePath c dest score)) ∧
         del_conn (to_service_conn <$> l) (remote_of (conn_key c)) = to_service_conn <$> apply l (DelServicePath c).

Lemma svc_apply_service : service_apply svc_apply.
Proof. intros l c. split; [intros; apply set_conn_follow | apply del_conn_follow]. Qed.

Lemma apply_delta_shows apply s best svc loc d :
  service_apply apply → shows s best svc loc → delta_ok d →
  ∃ s', apply_delta s (shadow_delta d) = Done s' ∧ sr_node_id s' = sr_node_id s ∧ cached s' = cached s ∧
    shows s' (best_after d best) (svc_after apply d svc) (loc_after d loc).
Proof.
  intros Hap Hsh Hok. destruct d as [l [i [c|]]|[i [c dest sc|c]|i|i]]; cbn in Hok.
  - destruct Hok as [Hl Hi].
    destruct (update_table_shows s best svc loc l i (Some (conn_key c))
      (λ t, shadow_table_set t i (remote_of (conn_key c))) Hsh Hl Hi) as (s' & ? & ? & ? & ?); [done|].
    by exists s'.
  - destruct Hok as [Hl Hi].
    destruct (update_table_shows s best svc loc l i None (λ t, shadow_table_del t i) Hsh Hl Hi)
      as (s' & ? & ? & ? & ?); [done|].
    by exists s'.
  - eexists. split_and!; [done..|]. eapply shows_ext.
    + eapply update_service_shows; [done..|]. apply Hap.
    + done.
    + intros j Hj. cbn. destruct (decide (j = i)) as [->|?]; [by rewrite decide_True | by rewrite decide_False].
    + done.
  - eexists. split_and!; [done..|]. eapply shows_ext.
    + eapply update_service_shows; [done..|]. apply Hap.
    + done.
    + intros j Hj. cbn. destruct (decide (j = i)) as [->|?]; [by rewrite decide_True | by rewrite decide_False].
    + done.
  - eexists. split_and!; [done..|]. eapply shows_ext; [by apply update_local_shows | done..|].
    intros j Hj. cbn. by repeat case_decide; subst.
  - eexists. split_and!; [done..|]. eapply shows_ext; [by apply update_local_shows | done..|].
    intros j Hj. cbn. by repeat case_decide; subst.
Qed.

(** Delivering one delta keeps the invariant; it never panics. *)
Lemma lags_pop s r r' d :
  lags s r → pops r r' (Some d) →
  ∃ s', apply_delta s (shadow_delta d) = Done s' ∧ lags s' r' ∧ cached s' = cached s.
Proof.
  intros Hlag Hp. pose proof (pops_wf _ _ _ (lag_wf _ _ Hlag) Hp) as Hwf'.
  destruct Hlag as [Hwf Hnode (best & svc & loc & Hsh & Hb & Hs & Hl) Htd Hrd].
  assert (delta_ok d) as Hok.
  { inversion Hp as [g ds Hq|l [i dd] ds Hlay Hq|]; subst; cbn.
    - rewrite Hq in Hrd. by inversion Hrd.
    - specialize (Htd l Hlay). rewrite Hq in Htd. by inversion Htd. }
  destruct (apply_delta_shows svc_apply s best svc loc d svc_apply_service Hsh Hok) as (s' & Hs' & Hn' & Hc' & Hsh').
  exists s'. split_and!; [done| |done].
  inversion Hp as [g ds Hq|l [i dd] ds Hlay Hq|]; subst; cbn [service_registry] in *.
  - rewrite Hq in Hs, Hl, Hrd. split; [done | by cbn; congruence | | done |].
    + do 3 eexists. split_and!; [exact Hsh' | done | |]; intros j Hj; cbn; rewrite Hq.
      * etransitivity; [|by apply Hs]. destruct g as [k dd|k|k]; cbn; [|done..]. by case_decide.
      * by etransitivity; [|by apply Hl].
    + cbn. rewrite Hq. by inversion Hrd.
  - assert (table_at (with_table r l (pop_table (table_at r l))) l = pop_table (table_at r l)) as Heq
      by (apply table_at_with_eq; [apply Hwf | done]).
    split; [done | by cbn; congruence | | |done].
    + do 3 eexists. split_and!; [exact Hsh' | | done | done]. intros l' j Hl' Hj.
      destruct (decide (l' = l)) as [->|?].
      * rewrite Heq. cbn. rewrite Hq. cbn. specialize (Hb l j Hl' Hj). rewrite Hq in Hb.
        unfold deltas_at in *. rewrite filter_cons in Hb. cbn in Hb.
        destruct (decide (i = j)) as [->|?]; [rewrite decide_True by done | rewrite decide_False by naive_solver]; done.
      * rewrite table_at_with_ne by done. cbn. rewrite decide_False by tauto. by apply Hb.
    + intros l' Hl'. destruct (decide (l' = l)) as [->|?]; [|rewrite table_at_with_ne by done; by apply Htd].
      rewrite Heq. cbn. specialize (Htd l Hl'). rewrite Hq in *. by inversion Htd.
Qed.

(** Updates of the router keep the invariant. *)
Lemma lags_ext s r r' : lags s r → router_wf r' → router_ext r r' → lags s r'.
Proof.
  intros [Hwf Hnode (best & svc & loc & Hsh & Hb & Hs & Hl) Htd Hrd] Hwf' (Hid & Htab & Hreg).
  destruct Hreg as (_ & rds & Hrds & Hru & Hrf & Hrl).
  split; [done | congruence | | |].
  - exists best, svc, loc. split_and!; [done| | |].
    + intros l i Hlay Hi. destruct (Htab l Hlay) as (_ & _ & ds & Hds & _ & Hf).
      rewrite Hds, deltas_at_app. unfold follow. rewrite foldl_app. fold (follow (best l i)).
      rewrite <- Hf by done. f_equal. by apply Hb.
    + intros i Hi. rewrite Hrds. unfold service_deltas. rewrite omap_app. unfold svc_follow.
      rewrite foldl_app, <- Hrf by done. unfold svc_follow. f_equal. by apply Hs.
    + intros i Hi. rewrite Hrds, foldl_app, <- Hrl by done. f_equal. by apply Hl.
  - intros l Hlay. destruct (Htab l Hlay) as (_ & _ & ds & -> & Hu & _). apply Forall_app. auto.
  - rewrite Hrds. by apply Forall_app.
Qed.

Lemma lags_new n (h : H) : lags (shadow_new n h) (router_new n).
Proof.
  split; [apply router_new_wf | done | | |].
  - exists (λ _ _, None), (λ _, []), (λ _, false). split_and!.
    + split; try done.
      * intros l Hl. by apply is_layer_cases in Hl as [->|[->|[->| ->]]].
      * intros l i Hl Hi. apply is_layer_cases in Hl as [->|[->|[->| ->]]]; by apply (arr_get_replicate None).
      * intros i Hi. by apply (arr_get_replicate []).
      * intros i Hi. by apply (arr_get_replicate false).
    + intros l i Hl Hi. rewrite router_new_table by done. cbn. unfold table_best, table_dest, table_new. cbn [dests].
      by rewrite arr_get_replicate.
    + intros i Hi. cbn. unfold registry_dest. cbn [remote_destinations registry_new]. by rewrite arr_get_replicate.
    + intros i Hi. cbn. unfold registry_local. cbn [local_destinations registry_new]. by rewrite arr_get_replicate.
  - intros l Hl. by rewrite router_new_table.
  - constructor.
Qed.

(** ** Queries of a shadow router that has caught up *)

Definition caught_up (s : ShadowRouter Remote H) (r : Router) : Prop :=
  router_wf r ∧ sr_node_id s = router_node_id r ∧
  shows s (λ l, table_best (table_at r l))
    (λ i, svc_view (rdest_paths (registry_dest (service_registry r) i)))
    (registry_local (service_registry r)).

Lemma lags_caught_up s r : lags s r → pops r r None → caught_up s r.
Proof.
  intros [Hwf Hnode (best & svc & loc & Hsh & Hb & Hs & Hl) _ _] Hp.
  inversion Hp as [| |Hr Ht Hr1 Hr2]. split_and!; [done..|]. eapply shows_ext; [done|..].
  - intros l i Hlay Hi. rewrite <- Hb by done. by rewrite Ht.
  - intros i Hi. rewrite <- Hs by done. by rewrite Hr.
  - intros i Hi. rewrite <- Hl by done. by rewrite Hr.
Qed.

(** The tables have caught up; nothing is said of the services. *)
Definition routes_caught_up (s : ShadowRouter Remote H) (r : Router) : Prop :=
  router_wf r ∧ sr_node_id s = router_node_id r ∧ ∃ svc loc, shows s (λ l, table_best (table_at r l)) svc loc.

Lemma caught_up_routes s r : caught_up s r → routes_caught_up s r.
Proof. intros (? & ? & ?). by split_and!; [..|do 2 eexists]. Qed.

Definition to_remote (c : ConnId) : Remote := remote_of (conn_key c).

Lemma dest_next_best d :
  dest_wf d → ∃ o, dest_next d [] = Done o ∧ (λ a : ConnId * NodeId, conn_key a.1) <$> o = dest_best d.
Proof.
  intros Hwf. pose proof (wf_hops _ Hwf) as Hh. unfold dest_next. rewrite next_in_empty_excepts by done.
  eexists. split; [done|]. unfold best_key, best_conn. destruct Hh as [|p ps Hp Hps]; [done|]. cbn.
  destruct (over_node_nonempty _ Hp) as [n Hn]. apply over_node_Done in Hn. by rewrite Hn.
Qed.

(** The answers of the two kinds of table for one index. *)
Lemma shows_next s r l i :
  routes_caught_up s r → is_layer l → u8 i →
  ∃ o, dest_next (table_dest (table_at r l) i) [] = Done o ∧
       arr_get (st_dests (shadow_table_at s l)) i = (λ a : ConnId * NodeId, to_remote a.1) <$> o.
Proof.
  intros (Hwf & _ & svc & loc & Hsh) Hl Hi. destruct (rt_table _ Hwf l Hl) as (Ht & _).
  destruct (dest_next_best _ (wf_dests _ Ht i Hi)) as (o & Ho & Hk). exists o. split; [done|].
  rewrite (sh_best _ _ _ _ Hsh) by done. unfold table_best. rewrite <- Hk. by destruct o.
Qed.

Lemma shadow_next_agrees s r dest :
  routes_caught_up s r →
  shadow_next s dest = fmap (M := option) (λ a : ConnId * NodeId, to_remote a.1) <$> router_next r dest [].
Proof.
  intros Hc. pose proof Hc as (Hwf & Hnode & svc & loc & Hsh). unfold shadow_next, router_next. rewrite Hnode. cbn zeta.
  pose proof (eq_util_layer_range (router_node_id r) dest).
  destruct (Z.eqb_spec (eq_util_layer (router_node_id r) dest) 0) as [|Hnz]; [done|].
  set (l := eq_util_layer (router_node_id r) dest - 1) in *.
  assert (is_layer l) as Hl by (unfold is_layer, l; lia).
  rewrite !list_lookup_lookup_total_lt
    by (rewrite ?(rt_length _ Hwf), ?(sh_length _ _ _ _ Hsh); unfold is_layer in Hl; lia).
  fold (shadow_table_at s l) (table_at r l). unfold shadow_table_next, table_next.
  destruct (rt_table _ Hwf l Hl) as (_ & -> & _). destruct (sh_shape _ _ _ _ Hsh l Hl) as [-> _].
  rewrite layer_Done, !bind_Done by (unfold is_layer in Hl; lia).
  destruct (shows_next s r l (byte_at dest l) Hc Hl (byte_at_u8 _ _)) as (o & Ho & ->).
  by rewrite Ho.
Qed.

(** The scan of a shadow table finds the closest index in use. *)
Definition shadow_closest_answer (t : ShadowTable Remote) (key : Z) (visited : list Z)
    (acc : option (Remote * Z * Z)) : Prop :=
  match acc with
  | None => ∀ i, i ∈ visited → arr_get (st_dests t) i = None
  | Some (remote, index, d) =>
      index ∈ visited ∧ d = Z.lxor index key ∧ arr_get (st_dests t) index = Some remote ∧
      ∀ i, i ∈ visited → arr_get (st_dests t) i ≠ None → d ≤ Z.lxor i key
  end.

Lemma shadow_closest_loop_answer t key l visited acc :
  shadow_closest_answer t key visited acc →
  shadow_closest_answer t key (visited ++ l) (foldl (shadow_closest_step t key) acc l).
Proof.
  clear dependent remote_of.
  revert visited acc. induction l as [|i l IH]; intros visited acc Hacc; [by rewrite app_nil_r|].
  cbn [foldl]. change (i :: l) with ([i] ++ l); rewrite (app_assoc visited [i] l). apply IH. unfold shadow_closest_step.
  destruct (arr_get (st_dests t) i) as [remote|] eqn:Hi; destruct acc as [[[r0 i0] d0]|]; cbn in *.
  - destruct Hacc as (Hin & -> & Hat & Hmin). destruct (Z.ltb_spec (Z.lxor i key) (Z.lxor i0 key)).
    + split_and!; [set_solver | done | done |]. intros j [Hj| ->%list_elem_of_singleton]%elem_of_app Hne; [|done].
      specialize (Hmin j Hj Hne). lia.
    + split_and!; [set_solver | done | done |]. intros j [Hj| ->%list_elem_of_singleton]%elem_of_app Hne; [auto|lia].
  - split_and!; [set_solver | done | done |]. intros j [Hj| ->%list_elem_of_singleton]%elem_of_app Hne; [|done].
    by destruct Hne; apply Hacc.
  - destruct Hacc as (Hin & -> & Hat & Hmin). split_and!; [set_solver | done | done |].
    intros j [Hj| ->%list_elem_of_singleton]%elem_of_app Hne; [auto|done].
  - intros j [Hj| ->%list_elem_of_singleton]%elem_of_app; [auto|done].
Qed.

Lemma shadow_table_closest_for_spec t key :
  shadow_closest_answer t key u8_all (shadow_table_closest_for t key).
Proof.
  apply (shadow_closest_loop_answer t key u8_all [] None).
  intros i Hi. by apply not_elem_of_nil in Hi.
Qed.

Lemma closest_agrees s r l key :
  routes_caught_up s r → is_layer l →
  ∃ o, table_closest_for (table_at r l) key [] = Done o ∧
    shadow_table_closest_for (shadow_table_at s l) key =
    (λ a : NodeIndex * ConnId * NodeId, (to_remote a.1.2, a.1.1, Z.lxor a.1.1 key)) <$> o.
Proof.
  intros Hc Hl. pose proof Hc as (Hwf & _ & _). destruct (rt_table _ Hwf l Hl) as (Ht & _).
  destruct (table_closest_for_spec (table_at r l) key [] Ht) as (o & Ho & Hans). exists o. split; [done|].
  pose proof (shadow_table_closest_for_spec (shadow_table_at s l) key) as Hsh.
  assert (∀ i, u8 i → arr_get (st_dests (shadow_table_at s l)) i = None ↔
    dest_next (table_dest (table_at r l) i) [] = Done None) as Hnone.
  { intros i Hi. destruct (shows_next s r l i Hc Hl Hi) as ([a|] & -> & ->); cbn; split; congruence. }
  destruct o as [[[index c] n]|]; cbn in Hans.
  - destruct Hans as (Hin & Hd & Hmin). apply (slots_used _ (wf_slots _ Ht)) in Hin as [Hin _].
    destruct (shows_next s r l index Hc Hl Hin) as (o & Ho' & Hg). rewrite Hd in Ho'. injection Ho' as <-. cbn in Hg.
    destruct (shadow_table_closest_for (shadow_table_at s l) key) as [[[r0 i0] d0]|]; cbn in Hsh.
    2:{ rewrite Hsh in Hg; [done|]. by apply elem_of_u8_all. }
    destruct Hsh as (Hi0%elem_of_u8_all & -> & Hat & Hmin0).
    assert (i0 = index) as ->.
    { specialize (Hmin0 index ltac:(by apply elem_of_u8_all) ltac:(congruence)).
      specialize (Hmin i0 Hi0). rewrite <- Hnone in Hmin by done. specialize (Hmin ltac:(congruence)).
      assert (Z.lxor key i0 = Z.lxor key index) as Heq%lxor_inj_l; [|done].
      rewrite !(Z.lxor_comm key). lia. }
    rewrite Hg in Hat. by injection Hat as <-.
  - destruct (shadow_table_closest_for (shadow_table_at s l) key) as [[[r0 i0] d0]|]; cbn in Hsh; [|done].
    destruct Hsh as (Hi0%elem_of_u8_all & _ & Hat & _). specialize (Hans i0 Hi0).
    rewrite <- Hnone in Hans by done. congruence.
Qed.

Lemma shadow_closest_agrees s r key :
  routes_caught_up s r →
  shadow_closest_for s key
  = fmap (M := option) (λ a : ConnId * NodeId * Z * NodeIndex, to_remote a.1.1.1) <$> closest_node r key [].
Proof.
  intros Hc. pose proof Hc as (Hwf & Hnode & _). unfold shadow_closest_for, closest_node.
  assert (Forall is_layer [3; 2; 1; 0]) as Hls by (repeat constructor; unfold is_layer; lia).
  induction Hls as [|l layers Hl Hls IH]; [done|]. cbn [shadow_closest_loop closest_node_loop].
  assert (l ≤ 3) as Hl3 by (unfold is_layer in Hl; lia).
  rewrite (layer_Done key), !bind_Done by done.
  destruct (closest_agrees s r l (byte_at key l) Hc Hl) as (o & -> & ->). rewrite bind_Done.
  destruct o as [[[index c] n]|]; cbn [fmap option_fmap option_map fst snd]; [|apply IH].
  rewrite Hnode, layer_Done, !bind_Done by done. cbn zeta.
  case_match; [done|]. apply IH.
Qed.

Lemma shadow_service_agrees s r i :
  caught_up s r → u8 i →
  ∃ o, service_next r i [] = Done o ∧
    shadow_path_to_service s i = match o with
                                 | Some DestLocal => Local
                                 | Some (DestRemote c _) => Next (to_remote c)
                                 | None => Reject
                                 end.
Proof.
  intros (Hwf & _ & Hsh) Hi. unfold shadow_path_to_service, service_next, registry_next.
  rewrite (sh_local _ _ _ _ Hsh) by done. fold (registry_local (service_registry r) i).
  destruct (registry_local (service_registry r) i); [by eexists|].
  pose proof (wf_hops _ (rwf_paths _ (rt_registry _ Hwf) i Hi)) as Hh.
  fold (registry_dest (service_registry r) i).
  rewrite (sh_service _ _ _ _ Hsh) by done. unfold rdest_next. rewrite next_in_empty_excepts by done.
  destruct Hh as [|p ps Hp Hps]; cbn; [by eexists|].
  destruct (over_node_nonempty _ Hp) as [n Hn]. apply over_node_Done in Hn. rewrite Hn. cbn. by eexists.
Qed.

(** ** The pair as a transition system *)

(** An update of the control-plane router. *)
Inductive router_op (r : Router) : Router → Prop :=
| op_register service : u8 service → router_op r (register_service r service)
| op_link conn metric n r' :
    over_node metric = Done n → set_direct r conn metric = Done r' → router_op r r'
| op_unlink conn : router_op r (del_direct r conn)
| op_sync conn metric n sync r' :
    over_node metric = Done n → length sync.2 = 4%nat →
    apply_sync r conn metric sync = Done r' → router_op r r'.

(** The router is updated, or one queued delta is delivered. *)
Inductive sys_step : Router * ShadowRouter Remote H → Router * ShadowRouter Remote H → Prop :=
| sys_op r r' s : router_op r r' → sys_step (r, s) (r', s)
| sys_deliver r r' s s' d :
    router_pop_delta r = (r', Some d) → apply_delta s (shadow_delta d) = Done s' →
    sys_step (r, s) (r', s').

Lemma router_op_ext r r' : router_wf r → router_op r r' → router_wf r' ∧ router_ext r r'.
Proof.
  intros Hwf Hop. destruct Hop as [service Hs|conn metric n r' Hn Hr|conn|conn metric n sync r' Hn Hlen Hr].
  - by destruct (register_service_spec r service Hwf Hs) as (? & ? & _).
  - destruct (set_direct_spec r conn metric n Hwf Hn) as (r'' & Hr'' & ? & ? & _).
    rewrite Hr in Hr''. by injection Hr'' as <-.
  - by destruct (del_direct_spec r conn Hwf) as (? & ? & _).
  - destruct (apply_sync_spec r conn metric n sync Hwf Hn Hlen) as (r'' & Hr'' & ? & ? & _).
    rewrite Hr in Hr''. by injection Hr'' as <-.
Qed.

Lemma sys_reachable_lags n (h : H) r s :
  rtc sys_step (router_new n, shadow_new n h) (r, s) → lags s r.
Proof.
  assert (∀ x y, rtc sys_step x y → lags x.2 x.1 → lags y.2 y.1) as Hind.
  { induction 1 as [|x y z Hstep _ IH]; [done|]. intros Hl. apply IH. destruct Hstep as [r1 r2 s1 Hop|r1 r2 s1 s2 d Hpop Hap].
    - destruct (router_op_ext r1 r2 (lag_wf _ _ Hl) Hop). by apply (lags_ext s1 r1 r2).
    - pose proof (router_pop_delta_spec r1) as Hp. rewrite Hpop in Hp. cbn in *.
      destruct (lags_pop s1 r1 r2 d Hl Hp) as (s' & Hs' & ? & _).
      rewrite Hap in Hs'. by injection Hs' as <-. }
  intros Hr. apply (Hind _ _ Hr). apply lags_new.
Qed.

(** Delivering every delta suffices: however updates of the control-plane
    router and deliveries of its deltas are interleaved, a shadow router
    without pending deltas answers [next], [closest_for] and
    [path_to_service] exactly like the router, with the connections replaced
    by their network pairs. *)
Theorem shadow_refines_router (n : NodeId) (h : H) (r : Router) (s : ShadowRouter Remote H) :
  rtc sys_step (router_new n, shadow_new n h) (r, s) →
  (router_pop_delta r).2 = None →
  (∀ dest, shadow_next s dest
    = fmap (M := option) (λ a : ConnId * NodeId, to_remote a.1) <$> router_next r dest []) ∧
  (∀ key, shadow_closest_for s key
    = fmap (M := option) (λ a : ConnId * NodeId * Z * NodeIndex, to_remote a.1.1.1) <$> closest_node r key []) ∧
  (∀ service, u8 service → ∃ o, service_next r service [] = Done o ∧
    shadow_path_to_service s service = match o with
                                       | Some DestLocal => Local
                                       | Some (DestRemote c _) => Next (to_remote c)
                                       | None => Reject
                                       end).
Proof.
  intros Hr Hnone. pose proof (sys_reachable_lags n h r s Hr) as Hl.
  pose proof (router_pop_delta_spec r) as Hp. rewrite Hnone in Hp.
  assert (caught_up s r) as Hc.
  { apply lags_caught_up; [done|]. inversion Hp. by apply pops_none. }
  split_and!; intros; [by apply shadow_next_agrees, caught_up_routes | by apply shadow_closest_agrees, caught_up_routes | by apply shadow_service_agrees].
Qed.

End simulation.

(** ** Witnesses: connections stand for themselves *)

Definition demo_linked : Router :=
  match set_direct (router_new 1) (from_out 0 7) (mkMetric 20 [5] 100000) with Done r => r | Panic => router_new 1 end.

Definition demo_popped : Router := (router_pop_delta demo_linked).1.

Definition demo_shadow : ShadowRouter ConnKey DataWorkerHistory :=
  match apply_delta (shadow_new 1 history_default) (SetTable 0 5 (Outgoing, 7)) with
  | Done s => s
  | Panic => shadow_new 1 history_default
  end.

Lemma demo_reachable :
  rtc (sys_step id (λ k, k.2)) (router_new 1, shadow_new 1 history_default) (demo_linked, shadow_new 1 history_default).
Proof.
  eapply rtc_l; [|apply rtc_refl]. apply sys_op.
  eapply (op_link _ (from_out 0 7) (mkMetric 20 [5] 100000) 5); [done|]. vm_compute. reflexivity.
Qed.

Lemma demo_reachable_popped :
  rtc (sys_step id (λ k, k.2)) (router_new 1, shadow_new 1 history_default) (demo_popped, demo_shadow).
Proof.
  eapply rtc_r; [apply demo_reachable|].
  eapply (sys_deliver _ _ _ _ _ _ (RDTable 0 (5, SetBestPath (from_out 0 7)))); vm_compute; reflexivity.
Qed.

Lemma shadow_refines_router_witness :
  shadow_next demo_shadow 5 = Done (Some (Outgoing, 7)) ∧
  shadow_next demo_shadow 5
  = fmap (M := option) (λ a : ConnId * NodeId, conn_key a.1) <$> router_next demo_popped 5 [].
Proof.
  split; [vm_compute; reflexivity|].
  destruct (shadow_refines_router (H := DataWorkerHistory) id (λ k, k.2) 1 history_default demo_popped demo_shadow)
    as (Hnext & _).
  - apply demo_reachable_popped.
  - vm_compute. reflexivity.
  - exact (Hnext 5).
Defined.

