(* ===== verification/Msg.v ===== *)
(** * Transport message headers ([packages/network/src/base/msg.rs])

    The fixed header in front of every packet: parsing, printing, the
    time-to-live that is rewritten in place on every hop. Bytes are [u8]s in
    [Z]; a slice is a list. *)

From S2P Require Import Prelude NodeId Route.

Definition DEFAULT_MSG_TTL : Z := 64.
Definition ROUTE_RULE_DIRECT : Z := 0.
Definition ROUTE_RULE_TO_NODE : Z := 1.
Definition ROUTE_RULE_TO_SERVICE : Z := 2.
Definition ROUTE_RULE_TO_SERVICES : Z := 3.
Definition ROUTE_RULE_TO_KEY : Z := 4.

Inductive TransportMsgHeaderError := InvalidVersion | InvalidRoute | TooSmall.

(** Big-endian integers ([to_be_bytes], [from_be_bytes]). *)
Definition to_be_bytes32 (x : Z) : list Z := [byte_at x 3; byte_at x 2; byte_at x 1; byte_at x 0].
Definition from_be_bytes32 (a b c d : Z) : Z := a * 2 ^ 24 + b * 2 ^ 16 + c * 2 ^ 8 + d.
Definition to_be_bytes16 (x : Z) : list Z := [byte_at x 1; byte_at x 0].
Definition from_be_bytes16 (a b : Z) : Z := a * 2 ^ 8 + b.

Record TransportMsgHeader := mkHeader {
  version : Z;
  encrypt : bool;
  route : RouteRule;
  ttl : Z;
  feature : Z;
  meta : Z;
  from_node : option NodeId;
}.

Definition is_secure (first_byte : Z) : bool := negb (Z.land first_byte 32 =? 0).

Definition header_new : TransportMsgHeader := mkHeader 0 false Direct DEFAULT_MSG_TTL 0 0 None.

Definition header_build (feature meta : Z) (route : RouteRule) : TransportMsgHeader :=
  mkHeader 0 false route DEFAULT_MSG_TTL feature meta None.

Definition set_ttl (h : TransportMsgHeader) (ttl : Z) : TransportMsgHeader :=
  mkHeader (version h) (encrypt h) (route h) ttl (feature h) (meta h) (from_node h).
Definition set_encrypt (h : TransportMsgHeader) (encrypt : bool) : TransportMsgHeader :=
  mkHeader (version h) encrypt (route h) (ttl h) (feature h) (meta h) (from_node h).
Definition set_from_node (h : TransportMsgHeader) (from_node : option NodeId) : TransportMsgHeader :=
  mkHeader (version h) (encrypt h) (route h) (ttl h) (feature h) (meta h) from_node.
Definition set_feature (h : TransportMsgHeader) (feature : Z) : TransportMsgHeader :=
  mkHeader (version h) (encrypt h) (route h) (ttl h) feature (meta h) (from_node h).
Definition set_meta (h : TransportMsgHeader) (meta : Z) : TransportMsgHeader :=
  mkHeader (version h) (encrypt h) (route h) (ttl h) (feature h) meta (from_node h).
Definition set_route (h : TransportMsgHeader) (route : RouteRule) : TransportMsgHeader :=
  mkHeader (version h) (encrypt h) route (ttl h) (feature h) (meta h) (from_node h).

(** [self.from_node.is_some()] *)
Definition has_from (h : TransportMsgHeader) : bool :=
  match from_node h with Some _ => true | None => false end.

(** [self.route == RouteRule::Direct] *)
Definition is_direct (r : RouteRule) : bool := match r with Direct => true | _ => false end.

Definition serialize_size (h : TransportMsgHeader) : nat :=
  4 + (if has_from h then 4 else 0) + (if is_direct (route h) then 0 else 4).

Definition route_type (r : RouteRule) : Z :=
  match r with
  | Direct => ROUTE_RULE_DIRECT
  | ToNode _ => ROUTE_RULE_TO_NODE
  | ToService _ => ROUTE_RULE_TO_SERVICE
  | ToServices _ _ _ => ROUTE_RULE_TO_SERVICES
  | ToKey _ => ROUTE_RULE_TO_KEY
  end.

Definition first_byte (h : TransportMsgHeader) : Z :=
  Z.lor (Z.lor (Z.lor (wrap 8 (Z.shiftl (version h) 6)) (if encrypt h then Z.shiftl 1 5 else 0))
               (if has_from h then Z.shiftl 1 4 else 0))
        (Z.land (route_type (route h)) 15).

(** The bytes of the route written at [ptr]; one byte of a service id is
    written and the three behind it keep what the buffer held. *)
Definition write_route (r : RouteRule) (ptr : nat) (output : list Z) : list Z :=
  match r with
  | Direct => output
  | ToNode node_id => list_inserts ptr (to_be_bytes32 node_id) output
  | ToService service => <[ptr := service]> output
  | ToServices service level seq =>
      list_inserts (ptr + 2) (to_be_bytes16 seq) (<[ptr + 1 := level_to_u8 level]> (<[ptr := service]> output))%nat
  | ToKey key => list_inserts ptr (to_be_bytes32 key) output
  end.

(** [to_bytes(&self, output: &mut [u8]) -> Option<usize>] returns the updated
    slice with the size. The size check puts every write in range. *)
Definition to_bytes (h : TransportMsgHeader) (output : list Z) : option (list Z * nat) :=
  if bool_decide (length output < serialize_size h)%nat then None
  else
    let output := <[0%nat := first_byte h]> output in
    let output := <[1%nat := ttl h]> output in
    let output := <[2%nat := feature h]> output in
    let output := <[3%nat := meta h]> output in
    let output := write_route (route h) 4 output in
    let ptr := (if is_direct (route h) then 4 else 8)%nat in
    let output := match from_node h with
                  | Some from_node => list_inserts ptr (to_be_bytes32 from_node) output
                  | None => output
                  end in
    Some (output, 4 + (if has_from h then 4 else 0) + (if is_direct (route h) then 0 else 4))%nat.

Definition rewrite_ttl (buf : list Z) (new_ttl : Z) : list Z * option unit :=
  if bool_decide (length buf < 2)%nat then (buf, None) else (<[1%nat := new_ttl]> buf, Some ()).

Definition decrease_ttl (buf : list Z) : list Z * bool :=
  if bool_decide (length buf < 2)%nat then (buf, false)
  else if buf !!! 1%nat =? 0 then (buf, false)
  else (<[1%nat := Z.max 0 (buf !!! 1%nat - 1)]> buf, true).

(** The four bytes at [ptr], if the slice reaches that far. *)
Definition bytes4 (bytes : list Z) (ptr : nat) : option (Z * Z * Z * Z) :=
  match drop ptr bytes with
  | a :: b :: c :: d :: _ => Some (a, b, c, d)
  | _ => None
  end.

(** The [match route_type] of [try_from]; the read position moves behind it. *)
Definition parse_route (route_type : Z) (bytes : list Z) (ptr : nat)
    : (RouteRule * nat) + TransportMsgHeaderError :=
  if route_type =? ROUTE_RULE_DIRECT then inl (Direct, ptr)
  else if route_type =? ROUTE_RULE_TO_NODE then
    match bytes4 bytes ptr with
    | Some (a, b, c, d) => inl (ToNode (from_be_bytes32 a b c d), ptr + 4)%nat
    | None => inr TooSmall
    end
  else if route_type =? ROUTE_RULE_TO_SERVICE then
    match bytes4 bytes ptr with
    | Some (a, _, _, _) => inl (ToService a, ptr + 4)%nat
    | None => inr TooSmall
    end
  else if route_type =? ROUTE_RULE_TO_SERVICES then
    match bytes4 bytes ptr with
    | Some (a, b, c, d) => inl (ToServices a (level_from_u8 b) (from_be_bytes16 c d), ptr + 4)%nat
    | None => inr TooSmall
    end
  else if route_type =? ROUTE_RULE_TO_KEY then
    match bytes4 bytes ptr with
    | Some (a, b, c, d) => inl (ToKey (from_be_bytes32 a b c d), ptr + 4)%nat
    | None => inr TooSmall
    end
  else inr InvalidRoute.

Definition parse_from_node (n_bit : bool) (bytes : list Z) (ptr : nat)
    : option NodeId + TransportMsgHeaderError :=
  if n_bit then
    match bytes4 bytes ptr with
    | Some (a, b, c, d) => inl (Some (from_be_bytes32 a b c d))
    | None => inr TooSmall
    end
  else inl None.

(** [TryFrom<&[u8]> for TransportMsgHeader] *)
Definition try_from (bytes : list Z) : TransportMsgHeader + TransportMsgHeaderError :=
  match bytes with
  | b0 :: b1 :: b2 :: b3 :: _ =>
      let version := Z.shiftr b0 6 in
      let e_bit := Z.land (Z.shiftr b0 5) 1 =? 1 in
      let n_bit := Z.land (Z.shiftr b0 4) 1 =? 1 in
      let route_type := Z.land b0 15 in
      if negb (version =? 0) then inr InvalidVersion
      else match parse_route route_type bytes 4 with
           | inl (route, ptr) =>
               match parse_from_node n_bit bytes ptr with
               | inl from_node => inl (mkHeader version e_bit route b1 b2 b3 from_node)
               | inr e => inr e
               end
           | inr e => inr e
           end
  | _ => inr TooSmall
  end.

(** ** [TransportMsg] as received *)

Record TransportMsg := mkMsg {
  buffer : list Z;
  header : TransportMsgHeader;
  payload_start : nat;
}.

Definition is_secure_header (first_byte : Z) : bool := Z.land (Z.shiftr first_byte 2) 1 =? 1.

(** [TryFrom<Vec<u8>>] and [TryFrom<&[u8]>] *)
Definition msg_try_from (bytes : list Z) : TransportMsg + TransportMsgHeaderError :=
  match try_from bytes with
  | inl header => inl (mkMsg bytes header (serialize_size header))
  | inr e => inr e
  end.

Definition take_buf (m : TransportMsg) : list Z := buffer m.
Definition payload (m : TransportMsg) : list Z := drop (payload_start m) (buffer m).

(** ** Round trip *)

Lemma be32_roundtrip x :
  u32 x → from_be_bytes32 (byte_at x 3) (byte_at x 2) (byte_at x 1) (byte_at x 0) = x.
Proof. intros Hx. symmetry. by apply id_bytes. Qed.

Lemma be16_roundtrip x : u16 x → from_be_bytes16 (byte_at x 1) (byte_at x 0) = x.
Proof.
  intros Hx. unfold u16 in Hx. assert (u32 x) as Hx' by (unfold u32; lia).
  rewrite <- (be32_roundtrip x Hx') at 3. unfold from_be_bytes32, from_be_bytes16.
  assert (∀ i, 2 ≤ i → byte_at x i = 0) as Hz; [|rewrite (Hz 3), (Hz 2) by lia; lia].
  intros i Hi. rewrite byte_at_div by lia. rewrite Z.div_small; [done|].
  assert (2 ^ 16 ≤ 2 ^ (8 * i)) by (apply Z.pow_le_mono_r; lia). lia.
Qed.

Definition route_ok (r : RouteRule) : Prop :=
  match r with
  | Direct => True
  | ToNode n | ToKey n => u32 n
  | ToService s => u8 s
  | ToServices s _ seq => u8 s ∧ u16 seq
  end.

(** The fields are in range; the version is the only one there is. *)
Record header_ok (h : TransportMsgHeader) : Prop := {
  ok_version : version h = 0;
  ok_route : route_ok (route h);
  ok_bytes : u8 (ttl h) ∧ u8 (feature h) ∧ u8 (meta h);
  ok_from : ∀ n, from_node h = Some n → u32 n;
}.

(** The header bytes of a packet, in front of the rest of the slice. *)
Definition route_bytes (r : RouteRule) (old : list Z) : list Z :=
  match r with
  | Direct => []
  | ToNode n | ToKey n => to_be_bytes32 n
  | ToService s => s :: drop 1 (take 4 old)
  | ToServices s level seq => [s; level_to_u8 level] ++ to_be_bytes16 seq
  end.

Definition header_bytes (h : TransportMsgHeader) (old : list Z) : list Z :=
  [first_byte h; ttl h; feature h; meta h] ++ route_bytes (route h) (drop 4 old) ++
  match from_node h with Some n => to_be_bytes32 n | None => [] end.

Lemma to_bytes_spec h output :
  (serialize_size h ≤ length output)%nat →
  to_bytes h output = Some (header_bytes h output ++ drop (serialize_size h) output, serialize_size h) ∧
  length (header_bytes h output) = serialize_size h.
Proof.
  intros Hlen. unfold to_bytes. rewrite bool_decide_eq_false_2 by lia.
  unfold serialize_size, header_bytes, has_from in *.
  destruct h as [v e r t f m fr]; cbn in *.
  destruct r, fr; cbn in Hlen |- *;
    repeat (let x := fresh "o" in destruct output as [|x output]; cbn in Hlen; [lia|]);
    cbn; rewrite ?drop_0; done.
Qed.

Lemma first_byte_fields h :
  version h = 0 →
  Z.shiftr (first_byte h) 6 = 0 ∧ (Z.land (Z.shiftr (first_byte h) 5) 1 =? 1) = encrypt h ∧
  (Z.land (Z.shiftr (first_byte h) 4) 1 =? 1) = has_from h ∧
  Z.land (first_byte h) 15 = route_type (route h) ∧ is_secure (first_byte h) = encrypt h.
Proof.
  intros Hv. unfold first_byte, is_secure. rewrite Hv. destruct h as [v e r t f m fr]; cbn.
  destruct e, r, fr; cbn; done.
Qed.

Lemma try_from_header h old rest :
  header_ok h → length (header_bytes h old) = serialize_size h →
  try_from (header_bytes h old ++ rest) = inl h.
Proof.
  intros [Hv Hr Hb Hf] Hlen. destruct (first_byte_fields h Hv) as (H1 & H2 & H3 & H4 & _).
  unfold header_bytes in *. cbn [app try_from]. rewrite H1, H2, H3, H4. cbn [negb Z.eqb].
  clear H1 H2 H3 H4. destruct h as [v e r t f m fr]; cbn in Hv, Hr, Hb, Hf, Hlen |- *. subst v.
  destruct r as [|n|s|s lv seq|k]; cbn in Hr, Hlen |- *.
  3:{ destruct old as [|? [|? [|? [|? [|? [|? [|? [|? old]]]]]]]]; cbn in Hlen;
        destruct fr as [m0|]; cbn in Hlen; try lia; cbn; rewrite ?take_0; cbn; rewrite ?be32_roundtrip by auto; done. }
  all: destruct fr as [m0|]; cbn; rewrite ?be32_roundtrip, ?be16_roundtrip, ?level_roundtrip by (auto || tauto); done.
Qed.

(** ** Properties *)

(** C16. Printing and parsing a header are inverse: [to_bytes] fails only when
    the slice is smaller than [serialize_size]; otherwise it writes exactly
    that many bytes, leaves the rest of the slice alone, and [try_from] reads
    the same header back whatever follows; the first byte alone tells whether
    the packet is encrypted. *)
Theorem header_roundtrip (h : TransportMsgHeader) (output : list Z) :
  header_ok h →
  match to_bytes h output with
  | None => (length output < serialize_size h)%nat
  | Some (bytes, n) =>
      n = serialize_size h ∧ length bytes = length output ∧ drop n bytes = drop n output ∧
      try_from bytes = inl h ∧ msg_try_from bytes = inl (mkMsg bytes h n) ∧
      is_secure (bytes !!! 0%nat) = encrypt h
  end.
Proof.
  intros Hok. destruct (decide (length output < serialize_size h)%nat) as [Hlt|Hge].
  { unfold to_bytes. by rewrite bool_decide_eq_true_2. }
  destruct (to_bytes_spec h output) as [-> Hlen]; [lia|].
  pose proof (try_from_header h output (drop (serialize_size h) output) Hok Hlen) as Htry.
  split_and!; [done | | | done | | ].
  - rewrite length_app, length_drop, Hlen. lia.
  - rewrite drop_app, Hlen, Nat.sub_diag, drop_0, drop_ge by lia. done.
  - unfold msg_try_from. by rewrite Htry.
  - destruct (first_byte_fields h (ok_version _ Hok)) as (_ & _ & _ & _ & Hs). by cbn.
Qed.

Definition demo_header : TransportMsgHeader := mkHeader 0 true (ToServices 3 Geo2 999) 64 7 9 (Some 66051).

Lemma demo_header_ok : header_ok demo_header.
Proof.
  split; cbn; [done | unfold u8, u16; lia | unfold u8; lia |]. intros n [= <-]. unfold u32. lia.
Qed.

Lemma header_roundtrip_witness :
  ∃ bytes, to_bytes demo_header (replicate 14 255) = Some (bytes, 12%nat) ∧ try_from bytes = inl demo_header.
Proof.
  pose proof (header_roundtrip demo_header (replicate 14 255) demo_header_ok) as H.
  destruct (to_bytes demo_header (replicate 14 255)) as [[bytes n]|] eqn:E.
  - exists bytes. destruct H as (-> & _ & _ & Ht & _). by split.
  - vm_compute in E. discriminate E.
Defined.

(** ** Forwarding *)

(** The packet crosses [k] relays, each of which decreases the time to live
    in place and drops the packet when it cannot. *)
Fixpoint relays (k : nat) (bytes : list Z) : option (list Z) :=
  match k with
  | O => Some bytes
  | S k => match decrease_ttl bytes with
           | (bytes', true) => relays k bytes'
           | (_, false) => None
           end
  end.

Lemma decrease_ttl_header h old rest :
  0 ≤ ttl h →
  decrease_ttl (header_bytes h old ++ rest) =
  if ttl h =? 0 then (header_bytes h old ++ rest, false)
  else (header_bytes (set_ttl h (ttl h - 1)) old ++ rest, true).
Proof.
  intros Ht. unfold decrease_ttl, header_bytes. rewrite bool_decide_eq_false_2 by (cbn; lia). cbn.
  destruct (Z.eqb_spec (ttl h) 0); [done|]. rewrite Z.max_r by lia. done.
Qed.

Lemma relays_header h old rest k :
  0 ≤ ttl h →
  relays k (header_bytes h old ++ rest) =
  if decide (Z.of_nat k ≤ ttl h) then Some (header_bytes (set_ttl h (ttl h - Z.of_nat k)) old ++ rest) else None.
Proof.
  revert h. induction k as [|k IH]; intros h Ht; cbn [relays].
  { rewrite decide_True by lia. rewrite Z.sub_0_r. by destruct h. }
  rewrite decrease_ttl_header by done. destruct (Z.eqb_spec (ttl h) 0) as [Hz|Hz].
  { by rewrite decide_False by lia. }
  rewrite IH by (cbn; lia). cbn [ttl set_ttl]. repeat case_decide; try lia; [|done].
  do 2 f_equal. unfold set_ttl. cbn. do 2 f_equal. lia.
Qed.

(** A packet whose time to live is lowered at every relay, and that is dropped
    when that fails, crosses as many relays as its time to live and no more;
    nothing else of it changes. *)
Theorem ttl_bounds_forwarding (h : TransportMsgHeader) (output bytes : list Z) (n k : nat) :
  header_ok h → to_bytes h output = Some (bytes, n) →
  (Z.of_nat k ≤ ttl h →
    ∃ bytes', relays k bytes = Some bytes' ∧ length bytes' = length bytes ∧ drop 2 bytes' = drop 2 bytes ∧
      try_from bytes' = inl (set_ttl h (ttl h - Z.of_nat k))) ∧
  (ttl h < Z.of_nat k → relays k bytes = None).
Proof.
  intros Hok Hb. assert (serialize_size h ≤ length output)%nat as Hlen.
  { unfold to_bytes in Hb. by destruct (bool_decide_reflect (length output < serialize_size h)%nat); [|lia]. }
  destruct (to_bytes_spec h output Hlen) as [Heq Hsz]. rewrite Hb in Heq.
  assert (bytes = header_bytes h output ++ drop (serialize_size h) output) as -> by congruence.
  pose proof Hok as [Hv Hr (Ht & Hf & Hm) Hfr]. unfold u8 in Ht.
  rewrite relays_header by lia. split; intros Hk; [rewrite decide_True by done | by rewrite decide_False by lia].
  eexists. split_and!; [done | | |].
  - rewrite !length_app. f_equal.
  - done.
  - apply try_from_header; [|done]. split; cbn; [done..| | done]. unfold u8 in *. lia.
Qed.

Lemma ttl_bounds_forwarding_witness :
  ∃ bytes, to_bytes (set_ttl demo_header 2) (replicate 12 0) = Some (bytes, 12%nat) ∧ relays 3 bytes = None.
Proof.
  eexists. split; [vm_compute; reflexivity|].
  refine (proj2 (ttl_bounds_forwarding (set_ttl demo_header 2) (replicate 12 0) _ 12 3 _ _) _).
  - destruct demo_header_ok. split; cbn in *; [done..| | done]. unfold u8 in *. lia.
  - vm_compute. reflexivity.
  - reflexivity.
Defined.

(** ** Parsing arbitrary bytes *)

Lemma bytes4_spec bytes ptr :
  match bytes4 bytes ptr with
  | Some (a, b, c, d) => (ptr + 4 ≤ length bytes)%nat ∧ (Forall u8 bytes → u8 a ∧ u8 b ∧ u8 c ∧ u8 d)
  | None => (length bytes < ptr + 4)%nat
  end.
Proof.
  unfold bytes4. pose proof (length_drop bytes ptr) as Hl.
  destruct (drop ptr bytes) as [|a [|b [|c [|d l]]]] eqn:E; cbn in Hl; try lia.
  split; [lia|]. intros Hu. assert (Forall u8 (drop ptr bytes)) as Hd by (by apply Forall_drop).
  rewrite E in Hd. rewrite !Forall_cons in Hd. tauto.
Qed.

Lemma from_be_bytes32_u32 a b c d : u8 a → u8 b → u8 c → u8 d → u32 (from_be_bytes32 a b c d).
Proof. unfold u8, u32, from_be_bytes32. lia. Qed.

(** Bytes of the optional parts of the header a first byte announces. *)
Definition announced_size (b0 : Z) : nat :=
  (if Z.land b0 15 =? 0 then 0 else 4) + (if Z.land (Z.shiftr b0 4) 1 =? 1 then 4 else 0).

Lemma parse_route_spec rt bytes ptr :
  match parse_route rt bytes ptr with
  | inl (r, ptr') => ptr' = (ptr + if is_direct r then 0 else 4)%nat ∧ (Forall u8 bytes → route_ok r) ∧
      rt = route_type r ∧ (is_direct r = false → (ptr + 4 ≤ length bytes)%nat)
  | inr TooSmall => rt ≠ 0 ∧ (length bytes < ptr + 4)%nat
  | inr InvalidRoute => ¬ 0 ≤ rt ≤ 4
  | inr InvalidVersion => False
  end.
Proof.
  unfold parse_route, ROUTE_RULE_DIRECT, ROUTE_RULE_TO_NODE, ROUTE_RULE_TO_SERVICE, ROUTE_RULE_TO_SERVICES,
    ROUTE_RULE_TO_KEY. pose proof (bytes4_spec bytes ptr) as H4.
  destruct (Z.eqb_spec rt 0) as [->|]; [split_and!; cbn; try done; lia|].
  destruct (bytes4 bytes ptr) as [[[[a b] c] d]|].
  - destruct H4 as [Hlen Hu].
    destruct (Z.eqb_spec rt 1) as [->|]; [|destruct (Z.eqb_spec rt 2) as [->|];
      [|destruct (Z.eqb_spec rt 3) as [->|]; [|destruct (Z.eqb_spec rt 4) as [->|]; [|lia]]]];
      (split_and!; [done | intros H%Hu; cbn | done | done]).
    + apply from_be_bytes32_u32; tauto.
    + tauto.
    + unfold u8, u16, from_be_bytes16 in *. lia.
    + apply from_be_bytes32_u32; tauto.
  - destruct (Z.eqb_spec rt 1), (Z.eqb_spec rt 2), (Z.eqb_spec rt 3), (Z.eqb_spec rt 4); by try lia.
Qed.

(** C39. Parsing is total and its verdict is right: bytes that parse give a
    header in range that fits the slice and survives printing over the same
    slice; the other verdicts say a version other than zero, an unknown route
    type, or a slice shorter than the first byte announces. *)
Theorem try_from_verdict (bytes : list Z) :
  Forall u8 bytes →
  match try_from bytes with
  | inl h => header_ok h ∧ (serialize_size h ≤ length bytes)%nat ∧
      ∃ bytes', to_bytes h bytes = Some (bytes', serialize_size h) ∧ try_from bytes' = inl h
  | inr InvalidVersion => 64 ≤ bytes !!! 0%nat
  | inr InvalidRoute => bytes !!! 0%nat < 64 ∧ 4 < Z.land (bytes !!! 0%nat) 15
  | inr TooSmall => (length bytes < 4)%nat ∨ (length bytes < 4 + announced_size (bytes !!! 0%nat))%nat
  end.
Proof.
  intros Hu. destruct bytes as [|b0 [|b1 [|b2 [|b3 rest]]]]; [by left; cbn; lia..|].
  set (bytes := b0 :: b1 :: b2 :: b3 :: rest) in *.
  assert (u8 b0 ∧ u8 b1 ∧ u8 b2 ∧ u8 b3) as (Hb0 & Hb1 & Hb2 & Hb3)
    by (unfold bytes in Hu; rewrite !Forall_cons in Hu; tauto).
  unfold try_from at 1, bytes at 1. fold bytes. change (bytes !!! 0%nat) with b0. unfold u8 in Hb0.
  assert (Z.shiftr b0 6 = b0 / 64) as Hver by (by rewrite Z.shiftr_div_pow2).
  destruct (Z.eqb_spec (Z.shiftr b0 6) 0) as [Hv|Hv]; cbn [negb].
  2:{ rewrite Hver in Hv. destruct (decide (b0 < 64)) as [Hl|Hl]; [by rewrite Z.div_small in Hv by lia | lia]. }
  assert (b0 < 64) as Hlt.
  { rewrite Hver in Hv. destruct (decide (b0 < 64)); [done|]. assert (1 ≤ b0 / 64) by (apply Z.div_le_lower_bound; lia). lia. }
  assert (0 ≤ Z.land b0 15) as Hrt by (apply Z.land_nonneg; lia).
  pose proof (parse_route_spec (Z.land b0 15) bytes 4) as Hr.
  destruct (parse_route (Z.land b0 15) bytes 4) as [[r ptr]|[]]; [|done | by split; [|lia] |].
  2:{ right. unfold announced_size. destruct Hr as [Hne Hl]. rewrite (proj2 (Z.eqb_neq _ _) Hne). lia. }
  destruct Hr as (-> & Hrok & Hrte & Hrlen). unfold parse_from_node.
  set (n_bit := Z.land (Z.shiftr b0 4) 1 =? 1).
  pose proof (bytes4_spec bytes (4 + if is_direct r then 0 else 4)) as H4.
  assert ((Z.land b0 15 =? 0) = is_direct r) as Hdir by (rewrite Hrte; by destruct r).
  set (mk := mkHeader (Z.shiftr b0 6) (Z.land (Z.shiftr b0 5) 1 =? 1) r b1 b2 b3).
  assert (∀ from, (∀ n, from = Some n → u32 n) → (serialize_size (mk from) ≤ length bytes)%nat →
    header_ok (mk from) ∧ (serialize_size (mk from) ≤ length bytes)%nat ∧
    ∃ bytes', to_bytes (mk from) bytes = Some (bytes', serialize_size (mk from)) ∧ try_from bytes' = inl (mk from))
    as Hgood.
  { intros from Hf Hsz. assert (header_ok (mk from)) as Hok by (split; cbn; auto). split_and!; [done..|].
    destruct (to_bytes_spec (mk from) bytes Hsz) as [Hb Hl]. eexists. split; [done|]. by apply try_from_header. }
  destruct n_bit eqn:Hn.
  - destruct (bytes4 bytes _) as [[[[a b] c] d]|].
    + destruct H4 as [Hl Hin]. apply Hgood; [|unfold serialize_size; cbn in *; destruct (is_direct r); lia].
      intros n [= <-]. apply from_be_bytes32_u32; by apply Hin.
    + right. unfold announced_size. fold n_bit. rewrite Hn, Hdir. lia.
  - apply Hgood; [done|]. unfold serialize_size. cbn in *. destruct (is_direct r); [lia|]. specialize (Hrlen eq_refl). lia.
Qed.

Lemma try_from_verdict_witness :
  Forall u8 [16; 64; 1; 2; 9; 9; 9] ∧ try_from [16; 64; 1; 2; 9; 9; 9] = inr TooSmall ∧
  (length [16; 64; 1; 2; 9; 9; 9] < 4 ∨ length [16; 64; 1; 2; 9; 9; 9] < 4 + announced_size 16)%nat.
Proof.
  assert (Forall u8 [16; 64; 1; 2; 9; 9; 9]) as Hu by (repeat constructor; unfold u8; lia).
  split_and!; [done | reflexivity |]. exact (try_from_verdict [16; 64; 1; 2; 9; 9; 9] Hu).
Defined.

(** The two secure-flag tests disagree: [TransportMsg::is_secure_header]
    reads bit 2, which belongs to the route type, so it calls an encrypted
    direct packet insecure and a plain packet to a key secure, while
    [TransportMsgHeader::is_secure] reads the bit [to_bytes] writes. *)
Theorem is_secure_header_wrong_bit :
  ∃ plain_key encrypted_direct bytes1 bytes2,
    header_ok plain_key ∧ header_ok encrypted_direct ∧
    encrypt plain_key = false ∧ encrypt encrypted_direct = true ∧
    to_bytes plain_key (replicate 8 0) = Some (bytes1, 8%nat) ∧
    to_bytes encrypted_direct (replicate 4 0) = Some (bytes2, 4%nat) ∧
    is_secure (bytes1 !!! 0%nat) = false ∧ is_secure_header (bytes1 !!! 0%nat) = true ∧
    is_secure (bytes2 !!! 0%nat) = true ∧ is_secure_header (bytes2 !!! 0%nat) = false.
Proof.
  exists (header_build 1 0 (ToKey 7)), (set_encrypt (header_build 1 0 Direct) true).
  eexists. eexists. split_and!; try (vm_compute; reflexivity).
  - split; cbn; [done | unfold u32; lia | unfold u8, DEFAULT_MSG_TTL; lia | done].
  - split; cbn; [done | done | unfold u8, DEFAULT_MSG_TTL; lia | done].
Qed.

(** ** Building messages *)

(** [build_raw], [build] and [from_payload_bincode]: the header is printed
    into the [serialize_size] bytes in front of the payload, which hold
    [front] before. *)
Definition build_msg (h : TransportMsgHeader) (front payload : list Z) : outcome TransportMsg :=
  match to_bytes h (take (serialize_size h) front) with
  | Some (bytes, _) => Done (mkMsg (bytes ++ payload) h (serialize_size h))
  | None => Panic
  end.

(** A message that was built is received with its header and payload. *)
Lemma build_msg_received h front pl :
  header_ok h → (serialize_size h ≤ length front)%nat →
  ∃ m, build_msg h front pl = Done m ∧ msg_try_from (take_buf m) = inl m ∧ header m = h ∧ payload m = pl.
Proof.
  intros Hok Hlen. unfold build_msg.
  assert (length (take (serialize_size h) front) = serialize_size h) as Ht by (rewrite length_take; lia).
  destruct (to_bytes_spec h (take (serialize_size h) front)) as [-> Hhb]; [lia|].
  rewrite drop_ge, app_nil_r by lia. eexists. split; [done|]. unfold take_buf. cbn [header buffer].
  unfold msg_try_from. rewrite (try_from_header h _ pl Hok Hhb). split_and!; [done..|].
  unfold payload. cbn [payload_start buffer]. rewrite <- Hhb at 1. by rewrite drop_app_length.
Qed.
