(* ===== verification/Base.v ===== *)
(** * Interfaces of the features ([packages/network/src/base/feature.rs],
    [base/mod.rs], [NetPair] of [data_plane.rs])

    The messages a feature exchanges with the controller plane and the
    workers. Payloads ([Buffer]) are byte lists. The address type of
    [NeighboursConnectTo] and the key material of a connection are parameters:
    they are defined by other crates and only passed on here. *)

From S2P Require Import Prelude NodeId ConnId Route Msg.

Abbreviation Buffer := (list Z) (only parsing).

(** [std::net::SocketAddr] *)
Inductive SocketAddr :=
| SocketV4 (ip port : Z)
| SocketV6 (ip port flowinfo scope_id : Z).

#[global] Instance SocketAddr_eq_dec : EqDecision SocketAddr.
Proof. solve_decision. Defined.

Record NetPair := mkNetPair { pair_local : SocketAddr; pair_remote : SocketAddr }.

#[global] Instance NetPair_eq_dec : EqDecision NetPair.
Proof. solve_decision. Defined.

Record ConnectionCtx := mkConnectionCtx { ctx_conn : ConnId; ctx_node : NodeId; ctx_pair : NetPair }.

Record ConnectionStats := mkConnectionStats { rtt_ms : Z }.

Inductive ConnectionEvent (Secure : Type) :=
| Connected (ctx : ConnectionCtx) (secure : Secure)
| Stats (ctx : ConnectionCtx) (stats : ConnectionStats)
| Disconnected (ctx : ConnectionCtx).
Arguments Connected {_} _ _.
Arguments Stats {_} _ _.
Arguments Disconnected {_} _.

Record NetIncomingMeta := mkIncoming { in_source : option NodeId; in_ttl : Z; in_meta : Z; in_secure : bool }.

(** [From<&TransportMsgHeader> for NetIncomingMeta] *)
Definition incoming_of_header (value : TransportMsgHeader) : NetIncomingMeta :=
  mkIncoming (from_node value) (ttl value) (meta value) (encrypt value).

Record NetOutgoingMeta := mkOutgoing { out_source : bool; out_ttl : Z; out_meta : Z; out_secure : bool }.

(** [NetOutgoingMeta::secure()] *)
Definition outgoing_secure : NetOutgoingMeta := mkOutgoing false DEFAULT_MSG_TTL 0 true.

Definition to_header (self : NetOutgoingMeta) (feature : Z) (rule : RouteRule) (node_id : NodeId) : TransportMsgHeader :=
  set_encrypt (set_from_node (set_ttl (header_build feature (out_meta self) rule) (out_ttl self))
                 (if out_source self then Some node_id else None)) (out_secure self).

Definition to_incoming (self : NetOutgoingMeta) (node_id : NodeId) : NetIncomingMeta :=
  mkIncoming (if out_source self then Some node_id else None) (out_ttl self) (out_meta self) (out_secure self).

Inductive FeatureControlActor (UserData : Type) :=
| ActorController (u : UserData)
| ActorWorker (worker : Z) (u : UserData)
| ActorService (service : Z).
Arguments ActorController {_} _.
Arguments ActorWorker {_} _ _.
Arguments ActorService {_} _.

#[global] Instance FeatureControlActor_eq_dec {U} `{EqDecision U} : EqDecision (FeatureControlActor U).
Proof. solve_decision. Defined.

Definition actor_into2 {U U2} (f : U → U2) (a : FeatureControlActor U) : FeatureControlActor U2 :=
  match a with
  | ActorController u => ActorController (f u)
  | ActorWorker worker u => ActorWorker worker (f u)
  | ActorService service => ActorService service
  end.

Inductive FeatureSharedInput (Secure : Type) :=
| Tick (tick_count : Z)
| Connection (event : ConnectionEvent Secure).
Arguments Tick {_} _.
Arguments Connection {_} _.

Record FeatureContext := mkFeatureContext { fctx_node_id : NodeId; fctx_session : Z }.

Inductive FeatureInput (UserData Control ToController : Type) :=
| FromWorker (msg : ToController)
| FControl (actor : FeatureControlActor UserData) (control : Control)
| FNet (ctx : ConnectionCtx) (meta : NetIncomingMeta) (buf : Buffer)
| FLocal (meta : NetIncomingMeta) (buf : Buffer).
Arguments FromWorker {_ _ _} _.
Arguments FControl {_ _ _} _ _.
Arguments FNet {_ _ _} _ _ _.
Arguments FLocal {_ _ _} _ _.

Inductive FeatureOutput (UserData Event ToWorker Addr : Type) :=
| OutToWorker (broadcast : bool) (msg : ToWorker)
| OutEvent (actor : FeatureControlActor UserData) (event : Event)
| OutSendDirect (conn : ConnId) (meta : NetOutgoingMeta) (buf : Buffer)
| OutSendRoute (rule : RouteRule) (meta : NetOutgoingMeta) (buf : Buffer)
| OutNeighboursConnectTo (addr : Addr)
| OutNeighboursDisconnectFrom (node : NodeId)
| OutOnResourceEmpty.
Arguments OutToWorker {_ _ _ _} _ _.
Arguments OutEvent {_ _ _ _} _ _.
Arguments OutSendDirect {_ _ _ _} _ _ _.
Arguments OutSendRoute {_ _ _ _} _ _ _.
Arguments OutNeighboursConnectTo {_ _ _ _} _.
Arguments OutNeighboursDisconnectFrom {_ _ _ _} _.
Arguments OutOnResourceEmpty {_ _ _ _}.

Definition output_into2 {U E W U2 E2 W2 A} (fu : U → U2) (fe : E → E2) (fw : W → W2)
    (o : FeatureOutput U E W A) : FeatureOutput U2 E2 W2 A :=
  match o with
  | OutToWorker is_broadcast to => OutToWorker is_broadcast (fw to)
  | OutEvent actor event => OutEvent (actor_into2 fu actor) (fe event)
  | OutSendDirect conn meta msg => OutSendDirect conn meta msg
  | OutSendRoute rule ttl buf => OutSendRoute rule ttl buf
  | OutNeighboursConnectTo addr => OutNeighboursConnectTo addr
  | OutNeighboursDisconnectFrom id => OutNeighboursDisconnectFrom id
  | OutOnResourceEmpty => OutOnResourceEmpty
  end.

(** Without the [vpn] build feature. *)
Inductive FeatureWorkerInput (UserData Control ToWorker : Type) :=
| WFromController (broadcast : bool) (msg : ToWorker)
| WControl (actor : FeatureControlActor UserData) (control : Control)
| WNetwork (conn : ConnId) (meta : NetIncomingMeta) (buf : Buffer)
| WLocal (meta : NetIncomingMeta) (buf : Buffer).
Arguments WFromController {_ _ _} _ _.
Arguments WControl {_ _ _} _ _.
Arguments WNetwork {_ _ _} _ _ _.
Arguments WLocal {_ _ _} _ _.

Inductive FeatureWorkerOutput (UserData Control Event ToController : Type) :=
| ForwardControlToController (actor : FeatureControlActor UserData) (control : Control)
| ForwardNetworkToController (conn : ConnId) (meta : NetIncomingMeta) (buf : Buffer)
| ForwardLocalToController (meta : NetIncomingMeta) (buf : Buffer)
| WOutToController (msg : ToController)
| WOutEvent (actor : FeatureControlActor UserData) (event : Event)
| WOutSendDirect (conn : ConnId) (meta : NetOutgoingMeta) (buf : Buffer)
| WOutSendRoute (rule : RouteRule) (meta : NetOutgoingMeta) (buf : Buffer)
| WOutRawDirect (conn : ConnId) (buf : Buffer)
| WOutRawBroadcast (conns : list ConnId) (buf : Buffer)
| WOutRawDirect2 (pair : NetPair) (buf : Buffer)
| WOutRawBroadcast2 (pairs : list NetPair) (buf : Buffer)
| WOutOnResourceEmpty.
Arguments ForwardControlToController {_ _ _ _} _ _.
Arguments ForwardNetworkToController {_ _ _ _} _ _ _.
Arguments ForwardLocalToController {_ _ _ _} _ _.
Arguments WOutToController {_ _ _ _} _.
Arguments WOutEvent {_ _ _ _} _ _.
Arguments WOutSendDirect {_ _ _ _} _ _ _.
Arguments WOutSendRoute {_ _ _ _} _ _ _.
Arguments WOutRawDirect {_ _ _ _} _ _.
Arguments WOutRawBroadcast {_ _ _ _} _ _.
Arguments WOutRawDirect2 {_ _ _ _} _ _.
Arguments WOutRawBroadcast2 {_ _ _ _} _ _.
Arguments WOutOnResourceEmpty {_ _ _ _}.

(** What the task switcher of the [sans_io_runtime] crate does next: poll a
    task, or report that a task is empty ([empty_event]). The order is its
    choice. *)
Inductive SwitcherStep (Task : Type) := Poll (task : Task) | Ended (task : Task).
Arguments Poll {_} _.
Arguments Ended {_} _.

Definition worker_output_into2 {U C E T U2 C2 E2 T2} (fu : U → U2) (fc : C → C2) (fe : E → E2) (ft : T → T2)
    (o : FeatureWorkerOutput U C E T) : FeatureWorkerOutput U2 C2 E2 T2 :=
  match o with
  | ForwardControlToController actor control => ForwardControlToController (actor_into2 fu actor) (fc control)
  | ForwardNetworkToController conn header msg => ForwardNetworkToController conn header msg
  | ForwardLocalToController header buf => ForwardLocalToController header buf
  | WOutToController to => WOutToController (ft to)
  | WOutEvent actor event => WOutEvent (actor_into2 fu actor) (fe event)
  | WOutSendDirect conn meta buf => WOutSendDirect conn meta buf
  | WOutSendRoute route meta buf => WOutSendRoute route meta buf
  | WOutRawDirect conn buf => WOutRawDirect conn buf
  | WOutRawBroadcast conns buf => WOutRawBroadcast conns buf
  | WOutRawDirect2 conn buf => WOutRawDirect2 conn buf
  | WOutRawBroadcast2 conns buf => WOutRawBroadcast2 conns buf
  | WOutOnResourceEmpty => WOutOnResourceEmpty
  end.

(** A receiver sees the same metadata whether the message was handed over
    locally or crossed the network in a printed header. *)
Lemma local_remote_meta (m : NetOutgoingMeta) feature rule node_id :
  incoming_of_header (to_header m feature rule node_id) = to_incoming m node_id.
Proof. done. Qed.

(** The [bincode] encoding of a message type: a crate the code only calls, so
    the codec is a parameter of the definitions that use it; the laws say that
    a decoder reads what the encoder wrote. *)
Class Codec (T : Type) := {
  serialize : T → Buffer;
  deserialize : Buffer → option T;
}.

Class CodecLaws (T : Type) `{Codec T} := {
  codec_roundtrip : ∀ x : T, deserialize (serialize x) = Some x;
}.
