(* ===== verification/RouterSync.v ===== *)
(** * The router feature ([packages/network/src/features/router_sync.rs])

    The feature that owns the router: it links the connections the neighbour
    layer reports, sends the router's syncs to the neighbours, applies theirs,
    and translates the router's deltas for the workers, whose side only
    applies them to their shadow router.

    [HashMap<ConnId, _>] compares keys by direction and session, and keeps the
    key it already has when an equal one is inserted. *)

From S2P Require Import Prelude NodeId ConnId Metric Paths Dest Table Route Registry Router Shadow History ShadowSim Msg Base.

Definition INIT_RTT_MS : Z := 1000.
Definition INIT_BW : Z := 100000000.

Section feature.
Context {UserData Addr Secure : Type}.
Context {sync_codec : Codec RouterSync}.

Inductive Control := DumpRouter.

Abbreviation RouterDump := (NodeId * (list Z * gmap Z (option NodeId * gmap NodeId Metric)) *
                            list (Z * gmap Z (gmap NodeId Metric)))%type (only parsing).

Inductive Event := EvDumpRouter (dump : RouterDump).

Abbreviation ToWorker := (ShadowRouterDelta NetPair) (only parsing).
Abbreviation ToController := unit (only parsing).
Abbreviation Output := (FeatureOutput UserData Event ToWorker Addr).
Abbreviation WorkerOutput := (FeatureWorkerOutput UserData Control Event ToController).

Record ConnInfo := mkConnInfo {
  info_conn : ConnId;       (* the key of the map *)
  info_node : NodeId;
  info_pair : NetPair;
  info_metric : Metric;
}.

Abbreviation Conns := (gmap ConnKey ConnInfo) (only parsing).

Definition conns_insert (conns : Conns) (conn : ConnId) (node : NodeId) (pair : NetPair) (metric : Metric) : Conns :=
  let key := match conns !! conn_key conn with Some old => info_conn old | None => conn end in
  <[conn_key conn := mkConnInfo key node pair metric]> conns.

Record RouterSyncFeature := mkRouterSync {
  router : Router;
  conns : Conns;
  queue : list Output;
  services : list Z;
  shutdown : bool;
}.

Definition router_sync_new (node : NodeId) (services : list Z) : RouterSyncFeature :=
  mkRouterSync (router_new node) ∅ [] services false.

Definition send_sync_to (router : Router) (queue : list Output) (conn : ConnId) (node : NodeId)
    : outcome (list Output) :=
  sync ← create_sync router node;
  Done (queue ++ [OutSendDirect conn (mkOutgoing false 1 0 true) (serialize sync)]).

(** [on_shared_input]; [order] is the iteration order of [self.conns]. *)
Definition on_shared_input (order : HashOrder) (self : RouterSyncFeature)
    (input : FeatureSharedInput Secure) : outcome RouterSyncFeature :=
  match input with
  | Tick tick_count =>
      if tick_count <? 1 then Done self
      else
        (* [while let Some(service) = self.services.pop()] takes from the end *)
        let router := foldl register_service (router self) (reverse (services self)) in
        queue ← foldM (λ queue '(_, info), send_sync_to router queue (info_conn info) (info_node info))
                  (queue self) (hash_iter (conns self));
        Done (mkRouterSync router (conns self) queue [] (shutdown self))
  | Connection (Connected ctx _) =>
      let metric := mkMetric INIT_RTT_MS [ctx_node ctx] INIT_BW in
      let conns := conns_insert (conns self) (ctx_conn ctx) (ctx_node ctx) (ctx_pair ctx) metric in
      router ← set_direct (router self) (ctx_conn ctx) metric;
      queue ← send_sync_to router (queue self) (ctx_conn ctx) (ctx_node ctx);
      Done (mkRouterSync router conns queue (services self) (shutdown self))
  | Connection (Stats ctx stats) =>
      let metric := mkMetric (wrap 16 (rtt_ms stats)) [ctx_node ctx] INIT_BW in
      let conns := conns_insert (conns self) (ctx_conn ctx) (ctx_node ctx) (ctx_pair ctx) metric in
      router ← set_direct (router self) (ctx_conn ctx) metric;
      Done (mkRouterSync router conns (queue self) (services self) (shutdown self))
  | Connection (Disconnected ctx) =>
      Done (mkRouterSync (del_direct (router self) (ctx_conn ctx)) (delete (conn_key (ctx_conn ctx)) (conns self))
              (queue self) (services self) (shutdown self))
  end.

Definition on_input (self : RouterSyncFeature) (input : FeatureInput UserData Control ToController)
    : outcome RouterSyncFeature :=
  match input with
  | FromWorker _ => Done self
  | FControl actor DumpRouter =>
      dump ← router_dump (router self);
      Done (mkRouterSync (router self) (conns self) (queue self ++ [OutEvent actor (EvDumpRouter dump)])
              (services self) (shutdown self))
  | FNet ctx meta buf =>
      if negb (in_secure meta) then Done self
      else match conns self !! conn_key (ctx_conn ctx) with
           | Some info =>
               match deserialize buf with
               | Some sync =>
                   router ← apply_sync (router self) (ctx_conn ctx) (info_metric info) sync;
                   Done (mkRouterSync router (conns self) (queue self) (services self) (shutdown self))
               | None => Done self
               end
           | None => Done self
           end
  | FLocal _ _ => Done self
  end.

Definition on_shutdown (self : RouterSyncFeature) : RouterSyncFeature :=
  mkRouterSync (router self) (conns self) (queue self) (services self) true.

Definition feature_is_empty (self : RouterSyncFeature) : bool :=
  shutdown self && match queue self with [] => true | _ => false end.

(** The [match rule] of [pop_output]; a connection that is not (or no longer)
    known makes the whole function return [None] through the [?]. *)
Definition translate (conns : Conns) (rule : RouterDelta) : option ToWorker :=
  match rule with
  | RDTable layer (index, SetBestPath conn) =>
      info ← conns !! conn_key conn;
      Some (SetTable layer index (info_pair info))
  | RDTable layer (index, DelBestPath) => Some (DelTable layer index)
  | RDRegistry (SetServiceLocal service) => Some (ShadowSetServiceLocal service)
  | RDRegistry (DelServiceLocal service) => Some (ShadowDelServiceLocal service)
  | RDRegistry (ServiceRemote service (SetServicePath conn dest score)) =>
      info ← conns !! conn_key conn;
      Some (SetServiceRemote service (info_pair info) (info_node info) dest score)
  | RDRegistry (ServiceRemote service (DelServicePath conn)) =>
      info ← conns !! conn_key conn;
      Some (DelServiceRemote service (info_pair info))
  end.

Definition pop_output (self : RouterSyncFeature) : RouterSyncFeature * option Output :=
  match router_pop_delta (router self) with
  | (router, Some rule) =>
      let self := mkRouterSync router (conns self) (queue self) (services self) (shutdown self) in
      match translate (conns self) rule with
      | Some rule => (self, Some (OutToWorker true rule))
      | None => (self, None)
      end
  | (_, None) =>
      match queue self with
      | [] => (self, None)
      | out :: rest => (mkRouterSync (router self) (conns self) rest (services self) (shutdown self), Some out)
      end
  end.

(** ** The worker side *)

Record RouterSyncFeatureWorker := mkRouterSyncWorker {
  worker_queue : list WorkerOutput;
  worker_shutdown : bool;
}.

Context {H : Type} `{ShadowRouterHistory H}.

(** [on_input] also updates the router of the worker's context. *)
Definition worker_on_input (self : RouterSyncFeatureWorker) (ctx_router : ShadowRouter NetPair H)
    (input : FeatureWorkerInput UserData Control ToWorker)
    : outcome (RouterSyncFeatureWorker * ShadowRouter NetPair H) :=
  match input with
  | WControl service control =>
      Done (mkRouterSyncWorker (worker_queue self ++ [ForwardControlToController service control])
              (worker_shutdown self), ctx_router)
  | WNetwork conn header msg =>
      Done (mkRouterSyncWorker (worker_queue self ++ [ForwardNetworkToController conn header msg])
              (worker_shutdown self), ctx_router)
  | WFromController _ delta =>
      router ← apply_delta ctx_router delta;
      Done (self, router)
  | WLocal _ _ => Done (self, ctx_router)
  end.

Definition worker_on_shutdown (self : RouterSyncFeatureWorker) : RouterSyncFeatureWorker :=
  mkRouterSyncWorker (worker_queue self) true.

Definition worker_is_empty (self : RouterSyncFeatureWorker) : bool :=
  worker_shutdown self && match worker_queue self with [] => true | _ => false end.

Definition worker_pop_output (self : RouterSyncFeatureWorker) : RouterSyncFeatureWorker * option WorkerOutput :=
  match worker_queue self with
  | [] => (self, None)
  | out :: rest => (mkRouterSyncWorker rest (worker_shutdown self), Some out)
  end.
End feature.

Arguments RouterSyncFeature UserData Addr : clear implicits.

(** ** Invariant: the router only knows live connections *)

Section invariant.
Context {UserData Addr Secure : Type}.
Context {sync_codec : Codec RouterSync}.
(** What [bincode] returns for a [RouterSync] is one: four table syncs. *)
Hypothesis sync_decoded : ∀ buf sync, deserialize (T := RouterSync) buf = Some sync → length sync.2 = 4%nat.

Abbreviation Feature := (RouterSyncFeature UserData Addr) (only parsing).

Record feature_inv (f : Feature) : Prop := {
  fi_router : router_wf (router f);
  fi_paths : router_every (λ k _, is_Some (conns f !! k)) (router f);
  fi_conns : ∀ k info, conns f !! k = Some info →
    conn_key (info_conn info) = k ∧ hops (info_metric info) = [info_node info];
}.

Lemma router_sync_new_inv node services : feature_inv (router_sync_new node services).
Proof.
  split; [apply router_new_wf | apply router_new_all |]. intros k info Hk. cbn in Hk. by rewrite lookup_empty in Hk.
Qed.

Lemma conns_insert_inv cs conn node pair metric k info :
  hops metric = [node] →
  (∀ k info, cs !! k = Some info → conn_key (info_conn info) = k ∧ hops (info_metric info) = [info_node info]) →
  conns_insert cs conn node pair metric !! k = Some info →
  conn_key (info_conn info) = k ∧ hops (info_metric info) = [info_node info].
Proof.
  intros Hm Hcs. unfold conns_insert. rewrite lookup_insert_Some. intros [[<- <-]|[_ Hk]]; [|by apply Hcs].
  cbn. split; [|done]. destruct (cs !! conn_key conn) as [old|] eqn:E; [|done]. by destruct (Hcs _ _ E).
Qed.

Lemma conns_insert_lookup cs conn node pair metric k :
  is_Some (conns_insert cs conn node pair metric !! k) ↔ k = conn_key conn ∨ is_Some (cs !! k).
Proof.
  unfold conns_insert. destruct (decide (k = conn_key conn)) as [->|Hne].
  - rewrite lookup_insert_eq. split; [by left | done].
  - rewrite lookup_insert_ne by congruence. tauto.
Qed.

(** A new or better known connection: [Connected] and [Stats]. *)
Lemma link_inv (f : Feature) conn node pair rtt :
  let metric := mkMetric rtt [node] INIT_BW in
  let cs := conns_insert (conns f) conn node pair metric in
  feature_inv f →
  ∃ r, set_direct (router f) conn metric = Done r ∧
    ∀ q sv sd, feature_inv (mkRouterSync r cs q sv sd).
Proof.
  intros metric cs [Hwf Hp Hc]. assert (over_node metric = Done node) as Hov by done.
  destruct (set_direct_spec (router f) conn metric node Hwf Hov) as (r & Hr & Hwf' & _).
  exists r. split; [done|]. intros q sv sd. split; cbn [router conns].
  - done.
  - apply (set_direct_all _ (router f) conn metric node r Hwf Hov Hr); cbn.
    + apply conns_insert_lookup. by left.
    + eapply router_every_mono; [|done]. intros k m Hk. apply conns_insert_lookup. by right.
  - intros k info. by apply conns_insert_inv.
Qed.

Lemma send_sync_to_total r q conn node :
  router_wf r → ∃ q', send_sync_to (UserData := UserData) (Addr := Addr) r q conn node = Done q'.
Proof.
  intros Hwf. unfold send_sync_to. destruct (create_sync_spec r node Hwf) as (sync & -> & _). by eexists.
Qed.

Lemma register_all_inv (r : Router) svcs :
  router_wf r → Forall u8 svcs →
  let r' := foldl register_service r svcs in
  router_wf r' ∧ ∀ Q, router_every Q r → router_every Q r'.
Proof.
  intros Hwf Hs. revert r Hwf. induction Hs as [|s svcs Hs _ IH]; intros r Hwf; cbn [foldl]; [by split|].
  destruct (register_service_spec r s Hwf Hs) as (Hwf' & _ & Hq). destruct (IH _ Hwf') as [? ?]. split; auto.
Qed.

Lemma on_shared_input_inv order (f : Feature) (input : FeatureSharedInput Secure) :
  feature_inv f → Forall u8 (services f) →
  ∃ f', on_shared_input order f input = Done f' ∧ feature_inv f' ∧ Forall u8 (services f').
Proof.
  intros Hinv Hsv. destruct input as [tick|[ctx sec|ctx stats|ctx]]; cbn [on_shared_input].
  - case_match; [by eauto|].
    assert (Forall u8 (reverse (services f))) as Hrev by (by apply Forall_reverse).
    destruct (register_all_inv (router f) _ (fi_router _ Hinv) Hrev) as [Hwf Hq].
    set (r := foldl register_service (router f) (reverse (services f))) in *.
    assert (∀ l q, ∃ q', foldM (λ queue '(_, info), send_sync_to (UserData := UserData) (Addr := Addr) r queue (info_conn info) (info_node info))
      q (l : list (ConnKey * ConnInfo)) = Done q') as Hq'.
    { induction l as [|[k info] l IH]; intros q; [by eexists|]. cbn.
      destruct (send_sync_to_total r q (info_conn info) (info_node info) Hwf) as (q1 & ->). apply IH. }
    destruct (Hq' (hash_iter (conns f)) (queue f)) as (q & ->). cbn. eexists. split; [done|]. split; [|constructor].
    destruct Hinv as [_ Hp Hc]. split; cbn [router conns]; [done | by apply Hq | done].
  - destruct (link_inv f (ctx_conn ctx) (ctx_node ctx) (ctx_pair ctx) INIT_RTT_MS Hinv) as (r & -> & Hf).
    rewrite bind_Done.
    destruct (send_sync_to_total r (queue f) (ctx_conn ctx) (ctx_node ctx)) as (q & ->).
    { by destruct (Hf [] [] false). }
    rewrite bind_Done. eexists. split; [done|]. by split.
  - destruct (link_inv f (ctx_conn ctx) (ctx_node ctx) (ctx_pair ctx) (wrap 16 (rtt_ms stats)) Hinv) as (r & -> & Hf).
    rewrite bind_Done. eexists. split; [done|]. by split.
  - eexists. split; [done|]. split; [|done]. destruct Hinv as [Hwf Hp Hc].
    destruct (del_direct_spec (router f) (ctx_conn ctx) Hwf) as (Hwf' & _ & Ht & Hs).
    split; cbn [router conns]; [done| |].
    + eapply router_every_mono; [|apply router_every_and; [apply del_direct_keys | apply del_direct_all]]; [|done..].
      intros k m [Hne Hk]. by rewrite lookup_delete_ne.
    + intros k info. rewrite lookup_delete_Some. intros [_ ?]. by apply Hc.
Qed.

Lemma on_input_inv (f : Feature) (input : FeatureInput UserData Control unit) :
  feature_inv f →
  ∃ f', on_input f input = Done f' ∧ feature_inv f' ∧ services f' = services f.
Proof.
  intros Hinv. pose proof Hinv as [Hwf Hp Hc].
  destruct input as [?|actor []|ctx meta buf|]; cbn [on_input]; [by eauto| | |by eauto].
  - destruct (router_dump_total _ Hwf) as [d ->]. rewrite bind_Done. eexists. split_and!; [done | by split | done].
  - destruct (in_secure meta); cbn; [|by eauto]. destruct (conns f !! _) as [info|] eqn:Hi; [|by eauto].
    destruct (deserialize buf) as [sync|] eqn:Hd; [|by eauto]. destruct (Hc _ _ Hi) as [Hk Hh].
    assert (over_node (info_metric info) = Done (info_node info)) as Hov.
    { apply over_node_Done. by rewrite Hh. }
    destruct (apply_sync_spec (router f) (ctx_conn ctx) (info_metric info) _ sync Hwf Hov (sync_decoded _ _ Hd))
      as (r & -> & Hwf' & _ & Hq). rewrite bind_Done. eexists. split_and!; [done | | done]. split; cbn [router conns]; [done| |done].
    apply Hq; [|done]. split; intros; by eexists.
Qed.
End invariant.

(** ** The feature as a transition system *)

Section system.
Context {UserData Addr Secure : Type}.
Context {sync_codec : Codec RouterSync}.
Hypothesis sync_decoded : ∀ buf sync, deserialize (T := RouterSync) buf = Some sync → length sync.2 = 4%nat.

Abbreviation Feature := (RouterSyncFeature UserData Addr) (only parsing).

Inductive feature_step (f : Feature) : Feature → Prop :=
| fs_shared order (input : FeatureSharedInput Secure) f' : on_shared_input order f input = Done f' → feature_step f f'
| fs_input input f' : on_input f input = Done f' → feature_step f f'
| fs_pop : feature_step f (pop_output f).1
| fs_shutdown : feature_step f (on_shutdown f).

(** Popping a delta does not change the paths. *)
Lemma pops_every Q r r' d : router_wf r → router_every Q r → pops r r' d → router_every Q r'.
Proof.
  intros Hwf [Ht Hs] Hp. destruct Hp as [d ds _|l d ds Hl _|]; [done| |done].
  split; [|done]. intros l' i Hl' Hi. destruct (decide (l' = l)) as [->|Hne].
  - rewrite table_at_with_eq by (done || apply Hwf). by apply Ht.
  - rewrite table_at_with_ne by done. by apply Ht.
Qed.

Lemma pop_output_inv (f : Feature) :
  feature_inv f → feature_inv (pop_output f).1 ∧ services (pop_output f).1 = services f.
Proof.
  intros [Hwf Hp Hc]. pose proof (router_pop_delta_spec (router f)) as Hpop. unfold pop_output.
  destruct (router_pop_delta (router f)) as [r [rule|]]; cbn in Hpop.
  - pose proof (pops_wf _ _ _ Hwf Hpop) as Hwf'. pose proof (pops_every _ _ _ _ Hwf Hp Hpop) as Hp'.
    cbn. destruct (translate (conns f) rule); (split; [by split | done]).
  - destruct (queue f); (split; [by split | done]).
Qed.

Lemma feature_step_inv f f' :
  feature_inv f ∧ Forall u8 (services f) → feature_step f f' → feature_inv f' ∧ Forall u8 (services f').
Proof.
  intros [Hinv Hs] Hstep. destruct Hstep as [order input f' Hf|input f' Hf| |].
  - destruct (on_shared_input_inv order f input Hinv Hs) as (f'' & Hf'' & ?). rewrite Hf in Hf''. by injection Hf'' as <-.
  - destruct (on_input_inv sync_decoded f input Hinv) as (f'' & Hf'' & ? & Hsv). rewrite Hf in Hf''. injection Hf'' as <-.
    by rewrite Hsv.
  - destruct (pop_output_inv f Hinv) as [? ->]. done.
  - split; [|done]. by destruct Hinv.
Qed.

Lemma feature_reachable_inv node svcs f :
  Forall u8 svcs → rtc feature_step (router_sync_new node svcs) f → feature_inv f ∧ Forall u8 (services f).
Proof.
  intros Hsv Hr. remember (router_sync_new node svcs) as f0 eqn:E.
  assert (feature_inv f0 ∧ Forall u8 (services f0)) as Hinv by (subst; split; [apply router_sync_new_inv | done]).
  clear E. induction Hr as [|f1 f2 f3 H12 _ IH]; [done|]. apply IH. by eapply feature_step_inv.
Qed.

Lemma next_in_every (Q : ConnKey → Metric → Prop) excepts ps c n :
  every_path Q ps → next_in excepts ps = Done (Some (c, n)) → ∃ m, Q (conn_key c) m.
Proof.
  intros Hps [m Hm]%next_in_conn.
  destruct (paths_map ps !! conn_key c) eqn:E; [|done].
  destruct (decide (conn_key c ∈ path_key <$> ps)) as [Hin|Hni].
  - apply list_elem_of_fmap in Hin as (p & Hk & Hp). unfold every_path in Hps. rewrite Forall_forall in Hps.
    exists (path_metric p). rewrite Hk. by apply Hps.
  - apply paths_map_None in Hni. congruence.
Qed.

(** C10. The controller routes over live connections only, and its handlers
    never panic. In every state the feature can reach, whatever connects,
    disconnects, arrives from the network or is popped, each handler returns,
    and every connection the router answers is one the neighbour layer
    reported and has not reported as disconnected. *)
Theorem routes_use_live_connections (node : NodeId) (svcs : list Z) (f : Feature) :
  Forall u8 svcs → rtc feature_step (router_sync_new node svcs) f →
  (∀ order (input : FeatureSharedInput Secure), ∃ f', on_shared_input order f input = Done f') ∧
  (∀ input, ∃ f', on_input f input = Done f') ∧
  (∀ dest excepts c n, router_next (router f) dest excepts = Done (Some (c, n)) → is_Some (conns f !! conn_key c)) ∧
  (∀ key excepts c n l i, closest_node (router f) key excepts = Done (Some (c, n, l, i)) →
    is_Some (conns f !! conn_key c)) ∧
  (∀ service excepts c n, u8 service → service_next (router f) service excepts = Done (Some (DestRemote c n)) →
    is_Some (conns f !! conn_key c)).
Proof.
  intros Hsv Hr. destruct (feature_reachable_inv node svcs f Hsv Hr) as [Hinv Hs].
  pose proof Hinv as [Hwf [Ht Hsvc] _]. split_and!.
  - intros order input. destruct (on_shared_input_inv order f input Hinv Hs) as (f' & ? & _). eauto.
  - intros input. destruct (on_input_inv sync_decoded f input Hinv) as (f' & ? & _). eauto.
  - intros dest excepts c n. unfold router_next. cbn zeta.
    pose proof (eq_util_layer_range (router_node_id (router f)) dest).
    destruct (Z.eqb_spec (eq_util_layer (router_node_id (router f)) dest) 0) as [|Hnz]; [done|].
    set (l := eq_util_layer (router_node_id (router f)) dest - 1) in *.
    assert (is_layer l) as Hl by (unfold is_layer, l; lia).
    rewrite list_lookup_lookup_total_lt by (rewrite (rt_length _ Hwf); unfold is_layer in Hl; lia).
    fold (table_at (router f) l). unfold table_next. destruct (rt_table _ Hwf l Hl) as (_ & -> & _).
    rewrite layer_Done, bind_Done by (unfold is_layer in Hl; lia).
    intros Hn. by destruct (next_in_every _ _ _ _ _ (Ht l (byte_at dest l) Hl (byte_at_u8 _ _)) Hn).
  - intros key excepts c n l i Hc. destruct (closest_node_spec (router f) key excepts Hwf) as (res & Hres & Hans).
    rewrite Hc in Hres. injection Hres as <-. destruct Hans as (Hl & Hi & Hn & _).
    by destruct (next_in_every _ _ _ _ _ (Ht l i Hl Hi) Hn).
  - intros service excepts c n Hu. unfold service_next, registry_next. case_match; [done|].
    unfold rdest_next. destruct (next_in excepts _) as [[[c' n']|]|] eqn:Hn; cbn; [|done..].
    intros [= -> ->]. by destruct (next_in_every _ _ _ _ _ (Hsvc service Hu) Hn).
Qed.
End system.

(** ** Translation of the deltas *)

(** The connection a delta mentions. *)
Definition delta_conn (d : RouterDelta) : option ConnId :=
  match d with
  | RDTable _ (_, SetBestPath c) => Some c
  | RDRegistry (ServiceRemote _ (SetServicePath c _ _)) | RDRegistry (ServiceRemote _ (DelServicePath c)) => Some c
  | _ => None
  end.

Section translation.
Context {UserData Addr : Type}.

(** What the workers are told: [pop_output] takes the next delta of the
    router off its queue; if the delta mentions no connection, or a known one,
    the output is that delta with the connection replaced by its network pair
    and neighbour (the translation of the refinement between router and shadow
    router), broadcast to every worker; if the connection is unknown the delta
    is gone and there is no output. *)
Theorem pop_output_translates (f : RouterSyncFeature UserData Addr) (r' : Router) (d : RouterDelta)
    (remote_of : ConnKey → NetPair) (node_of : ConnKey → NodeId) :
  router_pop_delta (router f) = (r', Some d) →
  (∀ k info, conns f !! k = Some info → remote_of k = info_pair info ∧ node_of k = info_node info) →
  (pop_output f).1 = mkRouterSync r' (conns f) (queue f) (services f) (shutdown f) ∧
  (pop_output f).2 =
    match delta_conn d with
    | Some c => if decide (is_Some (conns f !! conn_key c))
                then Some (OutToWorker true (shadow_delta remote_of node_of d)) else None
    | None => Some (OutToWorker true (shadow_delta remote_of node_of d))
    end.
Proof.
  intros Hpop Hmap. unfold pop_output. rewrite Hpop. cbn [conns].
  assert (∀ k info, conns f !! k = Some info → info_pair info = remote_of k ∧ info_node info = node_of k) as Hm.
  { intros k info Hk. by destruct (Hmap k info Hk). }
  destruct d as [l [i [c|]]|[s [c dest sc|c]|s|s]]; cbn; try done;
    destruct (conns f !! conn_key c) as [info|] eqn:Hc; cbn; try done;
    (destruct (decide _) as [[]|Hn]; [|by destruct Hn]); by destruct (Hm _ _ Hc) as [Hp1 Hp2]; rewrite ?Hp1, ?Hp2.
Qed.
End translation.

(** ** A run *)

(** The outputs are popped until none is left, at most [n]; deltas go to one
    worker's shadow router. *)
Fixpoint deliver {UserData Addr} (n : nat) (f : RouterSyncFeature UserData Addr)
    (s : ShadowRouter NetPair DataWorkerHistory) : RouterSyncFeature UserData Addr * ShadowRouter NetPair DataWorkerHistory :=
  match n with
  | O => (f, s)
  | S n =>
      match pop_output f with
      | (f', Some (OutToWorker _ delta)) =>
          match apply_delta s delta with Done s' => deliver n f' s' | Panic => (f', s) end
      | (f', _) => deliver n f' s
      end
  end.

Definition demo_pair : NetPair := mkNetPair (SocketV4 1 10) (SocketV4 2 20).
Definition demo_ctx : ConnectionCtx := mkConnectionCtx (from_out 0 7) 5 demo_pair.

(** A neighbour that offers service 9, whatever the bytes. *)
Definition demo_codec : Codec RouterSync :=
  {| serialize _ := []; deserialize _ := Some ([(9, mkMetric 0 [] REGISTRY_LOCAL_BW)], [None; None; None; None]) |}.

Definition demo_start : RouterSyncFeature unit unit := router_sync_new 1 [3].

Definition demo_connected : RouterSyncFeature unit unit :=
  match on_shared_input (Secure := unit) (sync_codec := demo_codec) canonical_order demo_start (Connection (Connected demo_ctx ())) with
  | Done f => f | Panic => demo_start end.

Definition demo_synced : RouterSyncFeature unit unit :=
  match on_input (sync_codec := demo_codec) demo_connected (FNet demo_ctx (mkIncoming None 1 0 true) []) with
  | Done f => f | Panic => demo_start end.

Definition demo_caught_up := deliver 10 demo_synced (shadow_new 1 history_default).

Definition demo_disconnected : RouterSyncFeature unit unit :=
  match on_shared_input (Secure := unit) (sync_codec := demo_codec) canonical_order demo_caught_up.1 (Connection (Disconnected demo_ctx)) with
  | Done f => f | Panic => demo_start end.

Definition demo_final := deliver 10 demo_disconnected demo_caught_up.2.

Lemma routes_use_live_connections_witness :
  ∃ f', on_input (sync_codec := demo_codec) (UserData := unit) (Addr := unit) demo_start (FControl (ActorController ()) DumpRouter) = Done f'.
Proof.
  destruct (routes_use_live_connections (UserData := unit) (Addr := unit) (Secure := unit) (sync_codec := demo_codec)
    ltac:(intros buf sync [= <-]; reflexivity) 1 [3] demo_start) as (_ & Hin & _).
  - repeat constructor; lia.
  - apply rtc_refl.
  - apply Hin.
Defined.

Lemma pop_output_translates_witness :
  (pop_output demo_connected).2 = Some (OutToWorker true (SetTable 0 5 demo_pair)).
Proof.
  destruct (pop_output_translates demo_connected (router_pop_delta (router demo_connected)).1
    (RDTable 0 (5, SetBestPath (from_out 0 7))) (λ _, demo_pair) (λ _, 5)) as [_ Hout].
  - vm_compute. reflexivity.
  - intros k info Hk. change (conns demo_connected) with
      (<[(Outgoing, 7) := mkConnInfo (from_out 0 7) 5 demo_pair (mkMetric INIT_RTT_MS [5] INIT_BW)]> (∅ : gmap ConnKey ConnInfo)) in Hk.
    apply lookup_insert_Some in Hk as [[<- <-]|[_ Hk]]; [done|]. by rewrite lookup_empty in Hk.
  - rewrite Hout. reflexivity.
Defined.

(** A lost deletion: [Disconnected] removes the connection from [conns]
    before the router queues the deletion of its service paths, so
    [pop_output] cannot translate that delta and drops it. In this run
    everything that was queued has been popped and delivered, the controller
    has no route to service 9 any more, and the worker keeps forwarding the
    service's messages to the pair of the closed connection. *)
Theorem disconnect_leaks_service_route :
  pop_output demo_final.1 = (demo_final.1, None) ∧
  service_next (router demo_final.1) 9 [] = Done None ∧
  conns demo_final.1 = ∅ ∧
  shadow_path_to_service demo_final.2 9 = Next demo_pair ∧
  shadow_path_to_service demo_caught_up.2 9 = Next demo_pair ∧
  shadow_next demo_final.2 5 = Done None.
Proof. split_and!; vm_compute; reflexivity. Qed.
