(* ===== verification/WorkerRoutes.v ===== *)
(** * The workers follow the router feature ([features/router_sync.rs])

    The feature translates the deltas of its router from connections to network
    pairs before it broadcasts them, and drops a delta of a connection that it
    does not know any more. Here the feature runs with its own translation,
    together with the shadow router of a worker: what the worker knows once the
    deltas are delivered, and what the drops leave behind. *)

From S2P Require Import Prelude NodeId ConnId Metric Paths Dest Table Route Registry Router Shadow History ShadowSim Msg Base RouterSync.

(** ** The connections the queued deltas name *)

Definition rdelta_names (Q : ConnKey → Prop) (d : RegistryDestDelta) : Prop :=
  match d with SetServicePath c _ _ | DelServicePath c => Q (conn_key c) end.

Definition delta_names (Q : ConnKey → Prop) (d : RegistryDelta) : Prop :=
  match d with ServiceRemote _ d => rdelta_names Q d | _ => True end.

Record registry_names (Q : ConnKey → Prop) (g : Registry) : Prop := {
  rn_dests : Forall (λ d, Forall (rdelta_names Q) (rdest_deltas d)) (remote_destinations g);
  rn_deltas : Forall (delta_names Q) (registry_deltas g);
}.

Lemma registry_names_mono (P Q : ConnKey → Prop) g : (∀ k, P k → Q k) → registry_names P g → registry_names Q g.
Proof.
  intros Hi. assert (∀ d, rdelta_names P d → rdelta_names Q d) as Hr by (intros []; cbn; auto). intros [Hd Hq]. split.
  - eapply Forall_impl; [exact Hd|]. intros d Hd'. eapply Forall_impl; [exact Hd'|done].
  - eapply Forall_impl; [exact Hq|]. intros []; cbn; auto.
Qed.

Section names.
Context (Q : ConnKey → Prop).

Lemma registry_dest_names g i : registry_names Q g → Forall (rdelta_names Q) (rdest_deltas (registry_dest g i)).
Proof. intros [Hd _]. apply (Forall_get (λ d, Forall (rdelta_names Q) (rdest_deltas d))); [constructor|done]. Qed.

Lemma registry_poll_names g i d : registry_names Q g → Forall (rdelta_names Q) (rdest_deltas d) → registry_names Q (registry_poll g i d).
Proof. intros [Hd Hq] Hx. split; cbn; [by apply Forall_set|]. by eapply Forall_drain. Qed.

Lemma rdest_del_names d c : Q (conn_key c) → Forall (rdelta_names Q) (rdest_deltas d) → Forall (rdelta_names Q) (rdest_deltas (rdest_del_path d c).1).
Proof. intros Hc Hd. unfold rdest_del_path. case_match; [|done]. apply Forall_app. split; [done|by apply Forall_singleton]. Qed.

Lemma rdest_set_names d c m d' :
  Q (conn_key c) → Forall (rdelta_names Q) (rdest_deltas d) → rdest_set_path d c m = Done d' → Forall (rdelta_names Q) (rdest_deltas d').
Proof.
  intros Hc Hd. assert (∀ n sc, Forall (rdelta_names Q) (rdest_deltas d ++ [SetServicePath c n sc])) as Hp by (intros; by apply Forall_snoc).
  unfold rdest_set_path, mbind, outcome_bind. intros Hs. repeat case_match; simplify_eq; cbn; auto.
Qed.

Lemma registry_del_direct_names g c : Q (conn_key c) → registry_names Q g → registry_names Q (registry_del_direct g c).
Proof.
  intros Hc. apply (foldl_keeps (registry_names Q) (λ _, True)); [|by apply Forall_true]. intros s i _ Hs.
  apply registry_poll_names; [done|]. by apply rdest_del_names, registry_dest_names.
Qed.

Lemma registry_apply_sync_names g c m sync g' :
  Q (conn_key c) → registry_names Q g → registry_apply_sync g c m sync = Done g' → registry_names Q g'.
Proof.
  intros Hc Hg. unfold registry_apply_sync. destruct (over_node m) as [n|]; [|done]. rewrite bind_Done.
  apply (foldM_keeps (registry_names Q) (λ _, True)); [|by apply Forall_true|done]. intros s i s' _ Hs. unfold registry_apply_sync_step.
  destruct (sync_cached m sync !! i) as [x|].
  - destruct (rdest_set_path _ _ _) as [d|] eqn:Hd; [|done]. rewrite bind_Done. intros [= <-]. apply registry_poll_names; [done|].
    by eapply rdest_set_names; [|apply registry_dest_names|].
  - rewrite bind_Done. intros [= <-]. apply registry_poll_names; [done|]. by apply rdest_del_names, registry_dest_names.
Qed.

Lemma apply_sync_names r c m sync r' :
  Q (conn_key c) → registry_names Q (service_registry r) → apply_sync r c m sync = Done r' → registry_names Q (service_registry r').
Proof.
  intros Hc Hr. unfold apply_sync. destruct (registry_apply_sync _ _ _ _) as [g|] eqn:Hg; [|done]. rewrite bind_Done.
  apply (foldM_keeps (λ r, registry_names Q (service_registry r)) (λ _, True)); [|by apply Forall_true|by eapply registry_apply_sync_names].
  intros s [i [ts|]] s' _ Hs; cbn [apply_table_sync]; [|by intros [= <-]]. destruct (table_apply_sync _ _ _ _); [|done]. rewrite bind_Done. by intros [= <-].
Qed.

Lemma set_direct_registry r c m r' : set_direct r c m = Done r' → service_registry r' = service_registry r.
Proof.
  unfold set_direct. destruct (over_node m) as [n|]; [|done]. rewrite bind_Done. cbv zeta. destruct (_ <=? 4); [|done]. destruct (0 <? _); [|by intros [= <-]].
  destruct (add_direct _ _ _); [|done]. rewrite bind_Done. by intros [= <-].
Qed.

Lemma register_all_names svcs : ∀ r, registry_names Q (service_registry r) → registry_names Q (service_registry (foldl register_service r svcs)).
Proof.
  induction svcs as [|s svcs IH]; intros r Hr; [done|]. cbn. apply IH. destruct Hr as [Hd Hq]. split; cbn; [done|].
  apply Forall_app. split; [done|]. by apply Forall_singleton.
Qed.
End names.

(** ** Services without the connections that have ended *)

Section services.
Context (pair_of : ConnKey → NetPair).

(** No connection that has ended had this pair. *)
Definition unused (gone : list ConnKey) (p : NetPair) : Prop := p ∉ pair_of <$> gone.

#[global] Instance unused_dec gone p : Decision (unused gone p).
Proof. unfold unused. apply _. Defined.

Definition rdelta_key (d : RegistryDestDelta) : ConnKey :=
  match d with SetServicePath c _ _ | DelServicePath c => conn_key c end.

Abbreviation kept gone l := (filter (λ e : SvcEntry, unused gone (pair_of e.1)) l).
Abbreviation kept_deltas gone ds := (filter (λ d, unused gone (pair_of (rdelta_key d))) ds).
Abbreviation by_score l := (StronglySorted (key_le entry_score) l).

Lemma svc_apply_sorted l d : by_score l → by_score (svc_apply l d).
Proof. destruct d; cbn; [intros _; apply stable_sort_sorted|apply StronglySorted_filter]. Qed.

Lemma svc_view_sorted ps : paths_wf ps → by_score (svc_view ps).
Proof. intros [Hs _ _]. induction Hs as [|p ps Hs IH Hp]; constructor; [done|]. by apply Forall_fmap. Qed.

Lemma kept_kupsert gone (x : SvcEntry) l :
  kept gone (kupsert fst x l) = if decide (unused gone (pair_of x.1)) then kupsert fst x (kept gone l) else kept gone l.
Proof. exact (filter_kupsert fst (λ k, unused gone (pair_of k)) x l). Qed.

Lemma kept_kdel gone k (l : list SvcEntry) : kept gone (kdel fst k l) = kdel fst k (kept gone l).
Proof. exact (filter_kdel fst (λ k, unused gone (pair_of k)) k l). Qed.

Lemma kept_apply gone l d : by_score l →
  kept gone (svc_apply l d) = if decide (unused gone (pair_of (rdelta_key d))) then svc_apply (kept gone l) d else kept gone l.
Proof.
  intros Hl. destruct d as [c dest sc|c]; cbn [svc_apply rdelta_key].
  - rewrite filter_stable_sort, kept_kupsert. cbn [fst]. case_decide; [done|].
    by rewrite <- filter_stable_sort, stable_sort_id.
  - rewrite kept_kdel. case_decide as Hu; [done|]. exact (kdel_filtered fst (λ k, unused gone (pair_of k)) (conn_key c) l Hu).
Qed.

Lemma kept_follow gone ds : ∀ l, by_score l → kept gone (svc_follow l ds) = svc_follow (kept gone l) (kept_deltas gone ds).
Proof.
  induction ds as [|d ds IH]; intros l Hl; [done|]. cbn [svc_follow foldl]. fold (svc_follow (svc_apply l d) ds).
  rewrite IH by by apply svc_apply_sorted. rewrite filter_cons, kept_apply by done. by case_decide.
Qed.

(** More connections have ended. *)
Lemma unused_cons gone k k' : unused (k :: gone) k' → unused gone k'.
Proof. unfold unused. rewrite fmap_cons, not_elem_of_cons. tauto. Qed.

Lemma kept_kept gone k (l : list SvcEntry) : kept (k :: gone) (kept gone l) = kept (k :: gone) l.
Proof. rewrite list_filter_filter. apply list_filter_iff. intros e. split; [tauto|]. intros Hu. pose proof (unused_cons _ _ _ Hu). tauto. Qed.

Lemma kept_deltas_kept gone k (ds : list RegistryDestDelta) : kept_deltas (k :: gone) (kept_deltas gone ds) = kept_deltas (k :: gone) ds.
Proof. rewrite list_filter_filter. apply list_filter_iff. intros e. split; [tauto|]. intros Hu. pose proof (unused_cons _ _ _ Hu). tauto. Qed.

(** ** What a service of the shadow router does, by pair *)

Abbreviation entry_pair := (λ e : SvcEntry, pair_of e.1).

Definition pair_apply (l : list SvcEntry) (d : RegistryDestDelta) : list SvcEntry :=
  match d with
  | SetServicePath c dest sc => stable_sort entry_score (kupsert entry_pair (conn_key c, (dest, sc)) l)
  | DelServicePath c => kdel entry_pair (pair_of (conn_key c)) l
  end.

Lemma pair_apply_service (peer_of : ConnKey → NodeId) : service_apply pair_of peer_of pair_apply.
Proof.
  intros l c. split; [intros dest sc|]; cbn [pair_apply].
  - rewrite <- (stable_sort_map entry_score sc_score (to_service_conn pair_of peer_of)) by done.
    rewrite <- (kupsert_fmap entry_pair sc_conn (to_service_conn pair_of peer_of) id) by done. done.
  - by rewrite <- (kdel_fmap entry_pair sc_conn (to_service_conn pair_of peer_of) id).
Qed.

Lemma pair_apply_sorted l d : by_score l → by_score (pair_apply l d).
Proof. destruct d; cbn; [intros _; apply stable_sort_sorted|apply StronglySorted_filter]. Qed.

Lemma pair_apply_Forall (P : ConnKey → Prop) l d : P (rdelta_key d) → Forall (λ e, P e.1) l → Forall (λ e, P e.1) (pair_apply l d).
Proof.
  intros Hd Hl. destruct d as [c dest sc|c]; cbn in *; [|by apply Forall_filter]. rewrite stable_sort_perm. by apply Forall_kupsert.
Qed.

(** On the entries that are kept, a pair stands for one connection. *)
Lemma kept_pair_apply gone (Live : ConnKey → Prop) l d :
  (∀ k k', Live k → Live k' → pair_of k = pair_of k' → k = k') → Live (rdelta_key d) → by_score l →
  Forall (λ e, Live e.1 ∨ e.1 ∈ gone) l →
  kept gone (pair_apply l d) = if decide (unused gone (pair_of (rdelta_key d))) then svc_apply (kept gone l) d else kept gone l.
Proof.
  intros Hinj Hk Hs Hl. assert (∀ e, e ∈ kept gone l → pair_of e.1 = pair_of (rdelta_key d) ↔ e.1 = rdelta_key d) as Heq.
  { intros e [Hu He]%list_elem_of_filter. split; [|by intros ->]. apply Hinj; [|done]. rewrite Forall_forall in Hl.
    destruct (Hl e He) as [|Hg]; [done|]. destruct Hu. by apply list_elem_of_fmap_2. }
  destruct d as [c dest sc|c]; cbn [pair_apply svc_apply rdelta_key] in *.
  - rewrite filter_stable_sort, (filter_kupsert entry_pair (unused gone)). cbn [fst]. case_decide.
    + f_equal. by apply kupsert_key_ext.
    + by rewrite <- filter_stable_sort, stable_sort_id.
  - rewrite (filter_kdel entry_pair (unused gone)). case_decide as Hu.
    + by apply kdel_key_ext.
    + by apply (kdel_filtered entry_pair (unused gone)).
Qed.

(** ** What the worker shows and what is still queued *)

(** [Known]: the connections up or ended. A table entry without queued deltas
    is the router's; the service entries over connections that were never
    lost lead, by the queued deltas, to the router's. *)
Record view (Known : ConnKey → Prop) (gone : list ConnKey) (r : Router)
    (best : Z → Z → option ConnKey) (svc : Z → list SvcEntry) (loc : Z → bool) : Prop := {
  vi_best : ∀ l i, is_layer l → u8 i → let ds := deltas_at i (table_deltas (table_at r l)) in
    ∃ b, follow b ds = table_best (table_at r l) i ∧ (ds = [] → best l i = b);
  vi_svc : ∀ i, u8 i → by_score (svc i) ∧ Forall (λ e, Known e.1) (svc i) ∧
    svc_follow (kept gone (svc i)) (kept_deltas gone (service_deltas i (registry_deltas (service_registry r))))
    = kept gone (svc_view (rdest_paths (registry_dest (service_registry r) i)));
  vi_loc : ∀ i, u8 i → foldl (local_apply i) (loc i) (registry_deltas (service_registry r)) = registry_local (service_registry r) i;
  vi_table_deltas : ∀ l, is_layer l → Forall (λ d, u8 d.1) (table_deltas (table_at r l));
  vi_registry_deltas : Forall (λ d, u8 (delta_service d)) (registry_deltas (service_registry r));
}.

Lemma view_known (P Q : ConnKey → Prop) gone r best svc loc : (∀ k, P k → Q k) → view P gone r best svc loc → view Q gone r best svc loc.
Proof.
  intros Hpq [Hb Hs Hl Ht Hr]. split; try done. intros i Hi. destruct (Hs i Hi) as (? & Hf & ?). split_and!; [done| |done].
  eapply Forall_impl; [exact Hf|]. auto.
Qed.

(** The router is updated. *)
Lemma view_ext P gone r r' best svc loc :
  router_wf r → router_ext r r' → view P gone r best svc loc → view P gone r' best svc loc.
Proof.
  intros Hwf (_ & Htab & _ & rds & Hrds & Hru & Hrf & Hrl) [Hb Hs Hl Htd Hrd]. split.
  - intros l i Hlay Hi. destruct (Htab l Hlay) as (_ & _ & ds & Hds & _ & Hf). destruct (Hb l i Hlay Hi) as (b & Hfb & Hnil).
    rewrite Hds, deltas_at_app. cbv zeta. exists b. split; [|intros [? _]%app_nil; auto].
    unfold follow in *. by rewrite foldl_app, <- (Hf i Hi), Hfb.
  - intros i Hi. destruct (Hs i Hi) as (? & ? & Hfs). split_and!; [done..|]. rewrite Hrds. unfold service_deltas at 1.
    rewrite omap_app, filter_app. unfold svc_follow. rewrite foldl_app. fold (svc_follow (kept gone (svc i))).
    rewrite <- (Hrf i Hi), kept_follow by (apply svc_view_sorted, (rwf_paths _ (rt_registry _ Hwf)); done). by rewrite <- Hfs.
  - intros i Hi. by rewrite Hrds, foldl_app, <- (Hrl i Hi), Hl.
  - intros l Hlay. destruct (Htab l Hlay) as (_ & _ & ds & -> & Hu & _). apply Forall_app. auto.
  - rewrite Hrds. by apply Forall_app.
Qed.

(** A connection ends. *)
Lemma view_gone P gone k r best svc loc : router_wf r → view P gone r best svc loc → view P (k :: gone) r best svc loc.
Proof.
  intros Hwf [Hb Hs Hl Htd Hrd]. split; try done. intros i Hi. destruct (Hs i Hi) as (Hsort & Hk & Hf). split_and!; [done..|].
  apply (f_equal (λ l, kept (k :: gone) l)) in Hf. rewrite kept_follow in Hf by by apply StronglySorted_filter.
  by rewrite kept_deltas_kept, !kept_kept in Hf.
Qed.

(** A delta of a table is popped. *)
Lemma view_pop_table P gone r l i dd ds best best' svc loc :
  router_wf r → is_layer l → table_deltas (table_at r l) = (i, dd) :: ds →
  (∀ l' i', ¬ (l' = l ∧ i' = i) → best' l' i' = best l' i') →
  (deltas_at i ds = [] → best' l i = apply_dest_delta None dd) →
  view P gone r best svc loc → view P gone (with_table r l (pop_table (table_at r l))) best' svc loc.
Proof.
  intros Hwf Hlay Hq Hne Heq [Hb Hs Hl Htd Hrd].
  assert (table_at (with_table r l (pop_table (table_at r l))) l = pop_table (table_at r l)) as Hat by (apply table_at_with_eq; [apply Hwf|done]).
  split; try done.
  - intros l' j Hl' Hj. specialize (Hb l' j Hl' Hj). destruct (decide (l' = l)) as [->|Hll]; [|rewrite table_at_with_ne by done; rewrite Hne by tauto; done].
    rewrite Hat. cbn [table_deltas pop_table]. rewrite Hq in Hb |- *. cbn [tail]. destruct (decide (j = i)) as [->|Hji].
    + destruct Hb as (b & Hfb & _). change (deltas_at i ((i, dd) :: ds)) with (snd <$> filter (λ d : TableDelta, d.1 = i) ((i, dd) :: ds)) in Hfb.
      rewrite filter_cons_True in Hfb by done. cbn in Hfb. exists (apply_dest_delta b dd). split; [exact Hfb|]. intros Hnil. rewrite Heq by done. by destruct dd.
    + rewrite Hne by tauto. unfold deltas_at in Hb. rewrite filter_cons_False in Hb by (cbn; congruence). exact Hb.
  - intros l' Hl'. destruct (decide (l' = l)) as [->|]; [|rewrite table_at_with_ne by done; auto]. rewrite Hat. cbn. specialize (Htd l Hl').
    rewrite Hq in Htd |- *. by inversion Htd.
Qed.

(** A delta of the registry is popped. *)
Definition kept_after gone (g : RegistryDelta) (i : Z) (l : list SvcEntry) : list SvcEntry :=
  match g with
  | ServiceRemote j dd => if decide (j = i ∧ unused gone (pair_of (rdelta_key dd))) then svc_apply l dd else l
  | _ => l
  end.

Lemma view_pop_registry P gone r g ds best svc svc' loc loc' :
  registry_deltas (service_registry r) = g :: ds →
  (∀ i, u8 i → by_score (svc' i) ∧ Forall (λ e, P e.1) (svc' i) ∧ kept gone (svc' i) = kept_after gone g i (kept gone (svc i))) →
  (∀ i, u8 i → loc' i = local_apply i (loc i) g) →
  view P gone r best svc loc →
  view P gone (mkRouter (router_node_id r) (tables r) (pop_registry (service_registry r))) best svc' loc'.
Proof.
  intros Hq Hs' Hl' [Hb Hs Hl Htd Hrd]. rewrite Hq in *. split; try done; cbn; rewrite ?Hq.
  - intros i Hi. destruct (Hs' i Hi) as (? & ? & Hk). split_and!; [done..|]. destruct (Hs i Hi) as (_ & _ & Hf). rewrite Hk.
    etransitivity; [|exact Hf]. destruct g as [j dd|j|j]; cbn; [|done..]. destruct (decide (j = i)) as [->|Hji]; [|by rewrite (decide_False (P := j = i ∧ _)) by tauto].
    cbn. destruct (decide (unused _ _)); [by rewrite decide_True|by rewrite (decide_False (P := i = i ∧ _)) by tauto].
  - intros i Hi. rewrite Hl' by done. exact (Hl i Hi).
  - by inversion Hrd.
Qed.
End services.

(** ** The feature and a worker as a transition system *)

Section system.
Context {UserData Addr Secure H : Type} `{ShadowRouterHistory H}.
Context {sync_codec : Codec RouterSync}.
Hypothesis sync_decoded : ∀ buf sync, deserialize (T := RouterSync) buf = Some sync → length sync.2 = 4%nat.
(** The network pair and the peer of a connection, fixed by the neighbour
    layer when it opens the connection. *)
Context (pair_of : ConnKey → NetPair) (peer_of : ConnKey → NodeId).

Abbreviation Feature := (RouterSyncFeature UserData Addr) (only parsing).
Abbreviation Worker := (ShadowRouter NetPair H) (only parsing).

(** The connection of [ctx] as the neighbours manager reports it: the manager
    keeps its connections by pair, so no other live connection has this one. *)
Definition reported (f : Feature) (ctx : ConnectionCtx) : Prop :=
  ctx_pair ctx = pair_of (conn_key (ctx_conn ctx)) ∧ ctx_node ctx = peer_of (conn_key (ctx_conn ctx)) ∧
  ∀ k info, conns f !! k = Some info → info_pair info = ctx_pair ctx → k = conn_key (ctx_conn ctx).

(** [gone]: the connections reported as disconnected so far. What the feature
    pops for the workers is handed to the worker. *)
Inductive worker_step : Feature * Worker * list ConnKey → Feature * Worker * list ConnKey → Prop :=
| ws_connected order f f' s gone ctx sec :
    reported f ctx → on_shared_input (Secure := Secure) order f (Connection (Connected ctx sec)) = Done f' →
    worker_step (f, s, gone) (f', s, gone)
| ws_stats order f f' s gone ctx stats :
    reported f ctx → on_shared_input (Secure := Secure) order f (Connection (Stats ctx stats)) = Done f' →
    worker_step (f, s, gone) (f', s, gone)
| ws_disconnected order f f' s gone ctx :
    on_shared_input (Secure := Secure) order f (Connection (Disconnected ctx)) = Done f' →
    worker_step (f, s, gone) (f', s, conn_key (ctx_conn ctx) :: gone)
| ws_tick order f f' s gone n :
    on_shared_input (Secure := Secure) order f (Tick n) = Done f' → worker_step (f, s, gone) (f', s, gone)
| ws_input f f' s gone input : on_input f input = Done f' → worker_step (f, s, gone) (f', s, gone)
| ws_deliver f f' s s' gone broadcast delta wk wk' :
    pop_output f = (f', Some (OutToWorker broadcast delta)) →
    worker_on_input (UserData := UserData) wk s (WFromController broadcast delta) = Done (wk', s') →
    worker_step (f, s, gone) (f', s', gone)
| ws_pop f f' s gone out :
    pop_output f = (f', out) → (∀ broadcast delta, out ≠ Some (OutToWorker broadcast delta)) →
    worker_step (f, s, gone) (f', s, gone)
| ws_shutdown f s gone : worker_step (f, s, gone) (on_shutdown f, s, gone).

Definition known (f : Feature) (gone : list ConnKey) (k : ConnKey) : Prop := is_Some (conns f !! k) ∨ k ∈ gone.

Definition no_delta (o : FeatureOutput UserData Event (ShadowRouterDelta NetPair) Addr) : Prop :=
  match o with OutToWorker _ _ => False | _ => True end.

Record worker_inv (f : Feature) (s : Worker) (gone : list ConnKey) : Prop := {
  wi_feature : feature_inv f;
  wi_services : Forall u8 (services f);
  wi_conns : ∀ k info, conns f !! k = Some info → info_pair info = pair_of k ∧ info_node info = peer_of k;
  wi_pairs : ∀ k k', is_Some (conns f !! k) → is_Some (conns f !! k') → pair_of k = pair_of k' → k = k';
  wi_outputs : Forall no_delta (queue f);
  wi_names : registry_names (known f gone) (service_registry (router f));
  wi_node : sr_node_id s = router_node_id (router f);
  wi_view : ∃ best svc loc, shows pair_of peer_of s best svc loc ∧ view pair_of (known f gone) gone (router f) best svc loc;
}.

Lemma worker_inv_new node svcs h : Forall u8 svcs → worker_inv (router_sync_new node svcs) (shadow_new node h) [].
Proof.
  intros Hs. destruct (lags_new pair_of peer_of node h) as [Hwf _ (best & svc & loc & Hsh & Hb & Hsv & Hl) Ht Hr].
  split; try done.
  - apply router_sync_new_inv.
  - intros k k' [info Hk]. cbn in Hk. by rewrite lookup_empty in Hk.
  - split; [|constructor]. apply (Forall_replicate _ 256). constructor.
  - exists best, svc, loc. split; [done|]. split; try done.
    + intros l i Hl' Hi. exists (best l i). by split; [apply Hb|].
    + intros i Hi. specialize (Hsv i Hi). unfold registry_dest in Hsv |- *. cbn [service_registry router_new registry_new remote_destinations router_sync_new router] in *.
      rewrite arr_get_replicate in Hsv |- * by done. cbn in Hsv. rewrite Hsv. by split_and!; constructor.
Qed.

(** Connections come up or get better known, the router is updated. *)
Lemma worker_inv_update f f' s gone :
  worker_inv f s gone → feature_inv f' → Forall u8 (services f') → Forall no_delta (queue f') →
  (∀ k info, conns f' !! k = Some info → info_pair info = pair_of k ∧ info_node info = peer_of k) →
  (∀ k k', is_Some (conns f' !! k) → is_Some (conns f' !! k') → pair_of k = pair_of k' → k = k') →
  (∀ k, is_Some (conns f !! k) → is_Some (conns f' !! k)) →
  registry_names (known f' gone) (service_registry (router f')) → router_ext (router f) (router f') →
  worker_inv f' s gone.
Proof.
  intros [Hf Hsv Hc Hp Hq Hn Hid (best & svc & loc & Hsh & Hv)] Hf' Hsv' Hq' Hc' Hp' Hgrow Hn' Hext. split; try done.
  - destruct Hext as [-> _]. done.
  - exists best, svc, loc. split; [done|]. eapply view_known; [|eapply view_ext; [apply Hf|done..]]. unfold known. naive_solver.
Qed.

Lemma known_grow f f' gone k : (∀ k, is_Some (conns f !! k) → is_Some (conns f' !! k)) → known f gone k → known f' gone k.
Proof. unfold known. naive_solver. Qed.

Lemma send_sync_to_queue r q c n q' :
  Forall no_delta q → send_sync_to (UserData := UserData) (Addr := Addr) r q c n = Done q' → Forall no_delta q'.
Proof. intros Hq. unfold send_sync_to. destruct (create_sync r n); [|done]. rewrite bind_Done. intros [= <-]. by apply Forall_snoc. Qed.

(** [Connected] and [Stats]. *)
Lemma worker_inv_link f s gone ctx rtt r q :
  let metric := mkMetric rtt [ctx_node ctx] INIT_BW in
  worker_inv f s gone → reported f ctx → set_direct (router f) (ctx_conn ctx) metric = Done r → Forall no_delta q →
  worker_inv (mkRouterSync r (conns_insert (conns f) (ctx_conn ctx) (ctx_node ctx) (ctx_pair ctx) metric) q (services f) (shutdown f)) s gone.
Proof.
  intros metric Hi (Hpair & Hpeer & Huniq) Hr Hq. pose proof Hi as [Hf Hsv Hc Hp _ Hn Hid _].
  destruct (link_inv f (ctx_conn ctx) (ctx_node ctx) (ctx_pair ctx) rtt Hf) as (r' & Hr' & Hf'). fold metric in Hr', Hf'.
  rewrite Hr in Hr'. injection Hr' as <-. set (cs := conns_insert _ _ _ _ _) in *.
  assert (∀ k, is_Some (cs !! k) ↔ k = conn_key (ctx_conn ctx) ∨ is_Some (conns f !! k)) as Hcs by (intros; apply conns_insert_lookup).
  assert (∀ k, is_Some (conns f !! k) → pair_of k = pair_of (conn_key (ctx_conn ctx)) → k = conn_key (ctx_conn ctx)) as Hk.
  { intros k [info Hk] Heq. eapply Huniq; [done|]. destruct (Hc _ _ Hk) as [-> _]. congruence. }
  destruct (set_direct_spec (router f) (ctx_conn ctx) metric (ctx_node ctx) (fi_router _ Hf) eq_refl) as (r' & Hr' & _ & Hext & _).
  rewrite Hr in Hr'. injection Hr' as <-.
  apply (worker_inv_update f); cbn [conns router queue services]; try done.
  - intros k info. unfold cs, conns_insert. rewrite lookup_insert_Some. intros [[<- <-]|[_ Hk']]; [done|by apply Hc].
  - intros k k' [->|Hk1]%Hcs [->|Hk2]%Hcs Heq; [done| | |by apply Hp]; [symmetry; by apply Hk|by apply Hk].
  - intros k Hk'. apply Hcs. by right.
  - rewrite (set_direct_registry _ _ _ _ Hr). eapply registry_names_mono; [|exact Hn]. intros k. unfold known. cbn [conns]. rewrite Hcs. tauto.
Qed.

Lemma worker_inv_disconnected f s gone c q sv sd :
  worker_inv f s gone → Forall u8 sv → Forall no_delta q →
  feature_inv (mkRouterSync (del_direct (router f) c) (delete (conn_key c) (conns f)) q sv sd) →
  worker_inv (mkRouterSync (del_direct (router f) c) (delete (conn_key c) (conns f)) q sv sd) s (conn_key c :: gone).
Proof.
  intros [Hf _ Hc Hp _ Hn Hid (best & svc & loc & Hsh & Hv)] Hsv Hq Hf'.
  assert (∀ k, known f gone k → known (mkRouterSync (del_direct (router f) c) (delete (conn_key c) (conns f)) q sv sd) (conn_key c :: gone) k) as Hkn.
  { unfold known. cbn [conns]. intros k Hk. rewrite elem_of_cons. destruct (decide (k = conn_key c)) as [->|Hne]; [tauto|].
    rewrite lookup_delete_ne by congruence. tauto. }
  destruct (del_direct_spec (router f) c (fi_router _ Hf)) as (_ & Hext & _).
  assert (∀ k, is_Some (delete (conn_key c) (conns f) !! k) → is_Some (conns f !! k)) as Hsub.
  { intros k [info [_ Hk]%lookup_delete_Some]. by eexists. }
  split; try done; cbn [conns router].
  - intros k info [_ Hk]%lookup_delete_Some. by apply Hc.
  - intros k k' Hk1%Hsub Hk2%Hsub. by apply Hp.
  - cbn. apply registry_del_direct_names; [unfold known; cbn; right; left|]. by eapply registry_names_mono.
  - exists best, svc, loc. split; [done|]. eapply view_known; [exact Hkn|]. apply (view_ext _ _ _ (router f)); [apply Hf|done|].
    apply view_gone; [apply (fi_router _ Hf)|done].
Qed.

Lemma register_all_ext svcs : ∀ r, router_wf r → Forall u8 svcs → router_ext r (foldl register_service r svcs).
Proof.
  induction svcs as [|x svcs IH]; intros r Hwf Hs; [done|]. inversion_clear Hs as [|? ? Hx Hs']. cbn.
  destruct (register_service_spec r x Hwf Hx) as (Hwf' & Hext & _). etransitivity; [exact Hext|]. by apply IH.
Qed.

(** A popped delta that the feature translates is applied; one that it cannot
    translate is about a connection that has ended. *)
Lemma translate_eq (f : Feature) (d : RouterDelta) :
  (∀ k info, conns f !! k = Some info → info_pair info = pair_of k ∧ info_node info = peer_of k) →
  match translate (conns f) d with
  | Some d' => d' = shadow_delta pair_of peer_of d ∧ ∀ c, delta_conn d = Some c → is_Some (conns f !! conn_key c)
  | None => ∃ c, delta_conn d = Some c ∧ conns f !! conn_key c = None
  end.
Proof.
  intros Hc. destruct d as [l [i [c|]]|[i [c dest sc|c]|i|i]]; cbn; try (by split; [|intros ? [=]]);
    (destruct (conns f !! conn_key c) as [info|] eqn:Hk; cbn; [|by exists c]); destruct (Hc _ _ Hk) as [Hp Hn]; rewrite ?Hp, ?Hn;
    (split; [done|]); intros ? [= <-]; by eexists.
Qed.

Lemma pops_names Q r r' d : pops r r' (Some d) → registry_names Q (service_registry r) → registry_names Q (service_registry r').
Proof.
  intros Hp [Hd Hq]. inversion Hp as [g ds Hg|l d' ds Hl Ht|]; subst; [|by split]. split; cbn; [done|]. rewrite Hg in *. by inversion Hq.
Qed.

Lemma pops_feature_inv (f : Feature) r d (q : list (FeatureOutput UserData Event (ShadowRouterDelta NetPair) Addr)) : feature_inv f → pops (router f) r d → feature_inv (mkRouterSync r (conns f) q (services f) (shutdown f)).
Proof. intros [Hwf Hp Hc] Hpop. split; [by eapply pops_wf | by eapply pops_every | done]. Qed.

Lemma pops_node r r' d : pops r r' d → router_node_id r' = router_node_id r.
Proof. by destruct 1. Qed.

Lemma view_delta_ok P gone r r' d best svc loc : view pair_of P gone r best svc loc → pops r r' (Some d) → delta_ok d.
Proof.
  intros [_ _ _ Htd Hrd] Hp. inversion Hp as [g ds Hq|l [i dd] ds Hlay Hq|]; subst; cbn.
  - rewrite Hq in Hrd. by inversion Hrd.
  - specialize (Htd l Hlay). rewrite Hq in Htd. by inversion Htd.
Qed.

(** The delta is applied. *)
Lemma view_deliver f gone r' d best svc loc :
  feature_inv f → (∀ k k', is_Some (conns f !! k) → is_Some (conns f !! k') → pair_of k = pair_of k' → k = k') →
  (∀ c, delta_conn d = Some c → is_Some (conns f !! conn_key c)) → pops (router f) r' (Some d) →
  view pair_of (known f gone) gone (router f) best svc loc →
  view pair_of (known f gone) gone r' (best_after d best) (svc_after (pair_apply pair_of) d svc) (loc_after d loc).
Proof.
  intros Hf Hpairs Hlive Hp Hv. inversion Hp as [g ds Hq|l [i dd] ds Hlay Hq|]; subst.
  - eapply view_pop_registry; [exact Hq| |done|exact Hv]. intros i Hi. destruct (vi_svc _ _ _ _ _ _ _ Hv i Hi) as (Hs & Hk & _).
    destruct g as [j dd|j|j]; cbn [svc_after kept_after]; [|done..]. destruct (decide (j = i)) as [->|Hne]; [|by rewrite decide_False by tauto].
    assert (is_Some (conns f !! rdelta_key dd)) as Hdd by (destruct dd as [c ??|c]; by apply (Hlive c)).
    split_and!; [by apply pair_apply_sorted | apply pair_apply_Forall; [by left|done]|].
    rewrite (kept_pair_apply pair_of gone (λ k, is_Some (conns f !! k))) by done.
    destruct (decide (unused _ _ _)); [by rewrite decide_True|by rewrite (decide_False (P := i = i ∧ _)) by tauto].
  - eapply view_pop_table; [apply Hf|done|exact Hq| | |exact Hv]; cbn.
    + intros l' i' Hne. by rewrite decide_False.
    + intros _. rewrite decide_True by done. by destruct dd.
Qed.

(** The delta is about a connection that has ended, and dropped. *)
Lemma view_drop f gone r' d c best svc loc :
  feature_inv f → registry_names (known f gone) (service_registry (router f)) →
  delta_conn d = Some c → conns f !! conn_key c = None → pops (router f) r' (Some d) →
  view pair_of (known f gone) gone (router f) best svc loc → view pair_of (known f gone) gone r' best svc loc.
Proof.
  intros Hf Hn Hd Hc Hp Hv. inversion Hp as [g ds Hq|l [i dd] ds Hlay Hq|]; subst.
  - eapply view_pop_registry; [exact Hq| | |exact Hv]; intros i Hi; destruct (vi_svc _ _ _ _ _ _ _ Hv i Hi) as (Hs & Hk & _);
      destruct g as [j dd|j|j]; cbn [delta_conn] in Hd; try done. split_and!; [done..|]. cbn. rewrite decide_False; [done|]. intros [_ Hu].
    assert (conn_key c ∈ gone) as Hg.
    { destruct Hn as [_ Hn]. rewrite Hq in Hn. inversion Hn as [|? ? Hx]. destruct dd as [c' ??|c']; injection Hd as ->; destruct Hx as [[? Hx]|]; congruence. }
    apply Hu. destruct dd as [c' ??|c']; injection Hd as ->; by apply list_elem_of_fmap_2.
  - eapply view_pop_table; [apply Hf|done|exact Hq|done| |exact Hv]. intros Hnil. exfalso.
    destruct dd as [c'|]; [|done]. injection Hd as ->. pose proof (vi_table_deltas _ _ _ _ _ _ _ Hv l Hlay) as Hu. rewrite Hq in Hu.
    inversion Hu as [|? ? Hi]. cbn in Hi. destruct (vi_best _ _ _ _ _ _ _ Hv l i Hlay Hi) as (b & Hb & _). rewrite Hq in Hb.
    unfold deltas_at in Hb, Hnil. rewrite filter_cons_True in Hb by done. rewrite fmap_cons, Hnil in Hb. cbn in Hb.
    destruct (fi_paths _ Hf) as [Ht _]. specialize (Ht l i Hlay Hi). unfold table_best, best_key, best_conn in Hb.
    destruct (dest_paths _) as [|p ps]; [done|]. apply (inj Some) in Hb. inversion Ht as [|? ? [info Hx]]. unfold path_key in Hx. congruence.
Qed.

Lemma worker_inv_pop f s gone r' d :
  worker_inv f s gone → pops (router f) r' (Some d) →
  let f' := mkRouterSync r' (conns f) (queue f) (services f) (shutdown f) in
  match translate (conns f) d with
  | Some d' => ∃ s', apply_delta s d' = Done s' ∧ worker_inv f' s' gone
  | None => worker_inv f' s gone
  end.
Proof.
  intros [Hf Hsv Hc Hp Hq Hn Hid (best & svc & loc & Hsh & Hv)] Hpop f'. pose proof (translate_eq f d Hc) as Ht.
  pose proof (pops_feature_inv f r' (Some d) (queue f) Hf Hpop) as Hf'. pose proof (pops_names _ _ _ _ Hpop Hn) as Hn'.
  destruct (translate (conns f) d) as [d'|].
  - destruct Ht as [-> Hlive].
    destruct (apply_delta_shows pair_of peer_of _ s best svc loc d (pair_apply_service pair_of peer_of) Hsh (view_delta_ok _ _ _ _ _ _ _ _ Hv Hpop)) as (s' & Hs' & Hid' & _ & Hsh').
    exists s'. split; [done|]. split; try done; cbn [router f'].
    + rewrite (pops_node _ _ _ Hpop). congruence.
    + do 3 eexists. split; [exact Hsh'|]. by apply (view_deliver f).
  - destruct Ht as (c & Hd & Hnone). split; try done; cbn [router f'].
    + rewrite (pops_node _ _ _ Hpop). congruence.
    + exists best, svc, loc. split; [done|]. by apply (view_drop f _ _ d c).
Qed.

Lemma worker_inv_input f f' s gone input : worker_inv f s gone → on_input f input = Done f' → worker_inv f' s gone.
Proof.
  intros Hi Hr. pose proof Hi as [Hf Hsv Hc Hp Hq Hn Hid _]. destruct (on_input_inv sync_decoded f input Hf) as (f'' & Hr' & Hf' & Hsv'). rewrite Hr in Hr'. injection Hr' as <-.
  assert (router_ext (router f) (router f') ∧ conns f' = conns f ∧ Forall no_delta (queue f') ∧ registry_names (known f gone) (service_registry (router f'))) as (Hext & Hcs & Hq' & Hn').
  { destruct input as [?|actor []|ctx meta buf|]; cbn [on_input] in Hr; [by simplify_eq| | |by simplify_eq].
    - destruct (router_dump _); [|done]. rewrite bind_Done in Hr. injection Hr as <-. cbn. split_and!; [done|done| |done]. by apply Forall_snoc.
    - destruct (negb _); [by simplify_eq|]. destruct (conns f !! _) as [info|] eqn:Hk; [|by simplify_eq]. destruct (deserialize buf) as [sync|] eqn:Hd; [|by simplify_eq].
      destruct (fi_conns _ Hf _ _ Hk) as [_ Hh]. assert (over_node (info_metric info) = Done (info_node info)) as Hov by (apply over_node_Done; by rewrite Hh).
      destruct (apply_sync_spec (router f) (ctx_conn ctx) (info_metric info) _ sync (fi_router _ Hf) Hov (sync_decoded _ _ Hd)) as (r & Ha & _ & Hext & _).
      rewrite Ha, bind_Done in Hr. injection Hr as <-. cbn. split_and!; [done..|]. by eapply apply_sync_names; [left; eexists| |]. }
  apply (worker_inv_update f); rewrite ?Hcs, ?Hsv'; try done. eapply registry_names_mono; [|exact Hn']. unfold known. by rewrite Hcs.
Qed.

Lemma worker_inv_tick order f f' s gone n :
  worker_inv f s gone → on_shared_input (Secure := Secure) order f (Tick n) = Done f' → worker_inv f' s gone.
Proof.
  intros Hi Hr. pose proof Hi as [Hf Hsv Hc Hp Hq Hn Hid _]. destruct (on_shared_input_inv (Secure := Secure) order f (Tick n) Hf Hsv) as (f'' & Hr' & Hf' & Hsv').
  rewrite Hr in Hr'. injection Hr' as <-. cbn [on_shared_input] in Hr. destruct (n <? 1); [by simplify_eq|].
  destruct (foldM _ _ _) as [q|] eqn:Hs; [|done]. rewrite bind_Done in Hr. injection Hr as <-.
  apply (worker_inv_update f); cbn [conns router queue]; try done.
  - eapply (foldM_keeps (Forall no_delta) (λ _, True)); [|by apply Forall_true|exact Hq|exact Hs]. intros q0 [k info] q1 _. apply send_sync_to_queue.
  - by apply register_all_names.
  - apply register_all_ext; [apply (fi_router _ Hf)|by apply Forall_reverse].
Qed.

Lemma worker_step_inv x y : worker_inv x.1.1 x.1.2 x.2 → worker_step x y → worker_inv y.1.1 y.1.2 y.2.
Proof.
  intros Hi Hs. destruct Hs as [order f f' s gone ctx sec Hrep Hr|order f f' s gone ctx st Hrep Hr|order f f' s gone ctx Hr|order f f' s gone n Hr|f f' s gone input Hr|
    f f' s s' gone b d wk wk' Hpop Hw|f f' s gone out Hpop Hout|f s gone]; cbn [fst snd] in *.
  - cbn [on_shared_input] in Hr. destruct (set_direct _ _ _) as [r|] eqn:Hsd; [|done]. rewrite bind_Done in Hr.
    destruct (send_sync_to _ _ _ _) as [q|] eqn:Hq; [|done]. rewrite bind_Done in Hr. injection Hr as <-. apply worker_inv_link; try done.
    eapply send_sync_to_queue; [apply Hi|exact Hq].
  - cbn [on_shared_input] in Hr. destruct (set_direct _ _ _) as [r|] eqn:Hsd; [|done]. rewrite bind_Done in Hr. injection Hr as <-.
    apply worker_inv_link; try done. apply Hi.
  - destruct (on_shared_input_inv (Secure := Secure) order f (Connection (Disconnected ctx)) (wi_feature _ _ _ Hi) (wi_services _ _ _ Hi)) as (f'' & Hr' & Hf' & _).
    rewrite Hr in Hr'. injection Hr' as <-. injection Hr as <-. apply worker_inv_disconnected; [done|apply Hi..|done].
  - by eapply worker_inv_tick.
  - by eapply worker_inv_input.
  - pose proof (router_pop_delta_spec (router f)) as Hp. unfold pop_output in Hpop. destruct (router_pop_delta (router f)) as [r [rule|]]; cbn in Hp.
    + pose proof (worker_inv_pop _ _ _ _ _ Hi Hp) as Hv. cbn [conns] in Hpop. destruct (translate (conns f) rule) as [d'|]; [|done].
      simplify_eq. destruct Hv as (s1 & Hs1 & Hv). cbn in Hw. rewrite Hs1, bind_Done in Hw. by simplify_eq.
    + pose proof (wi_outputs _ _ _ Hi) as Hq. destruct (queue f) as [|o q]; [done|]. simplify_eq. by inversion Hq.
  - pose proof (router_pop_delta_spec (router f)) as Hp. unfold pop_output in Hpop. destruct (router_pop_delta (router f)) as [r [rule|]]; cbn in Hp.
    + pose proof (worker_inv_pop _ _ _ _ _ Hi Hp) as Hv. cbn [conns] in Hpop. destruct (translate (conns f) rule) as [d'|]; simplify_eq; [by edestruct Hout|done].
    + destruct Hi as [Hf Hsv Hc Hpr Hq Hn Hid Hv]. destruct (queue f) as [|o q] eqn:Hqf; simplify_eq; [split; try done; by rewrite Hqf|].
      split; try done; [by destruct Hf|by inversion Hq].
  - destruct Hi as [Hf Hsv Hc Hpr Hq Hn Hid Hv]. split; try done. by destruct Hf.
Qed.

Lemma worker_reachable_inv node svcs h f s gone :
  Forall u8 svcs → rtc worker_step (router_sync_new node svcs, shadow_new node h, []) (f, s, gone) → worker_inv f s gone.
Proof.
  intros Hsv Hr. assert (∀ x y, rtc worker_step x y → worker_inv x.1.1 x.1.2 x.2 → worker_inv y.1.1 y.1.2 y.2) as Hind.
  { induction 1 as [|x y z Hxy _ IH]; [done|]. intros Hi. by apply IH, (worker_step_inv x). }
  apply (Hind _ _ Hr). by apply worker_inv_new.
Qed.

Abbreviation kept gone l := (filter (λ e : SvcEntry, unused pair_of gone (pair_of e.1)) l).

(** Nothing is queued any more. *)
Lemma worker_inv_settled f s gone :
  worker_inv f s gone → (router_pop_delta (router f)).2 = None →
  routes_caught_up pair_of peer_of s (router f) ∧
  ∃ best svc, shows pair_of peer_of s best svc (registry_local (service_registry (router f))) ∧
    ∀ i, u8 i → kept gone (svc i) = kept gone (svc_view (rdest_paths (registry_dest (service_registry (router f)) i))).
Proof.
  intros [Hf _ _ _ _ _ Hid (best & svc & loc & Hsh & [Hb Hs Hl _ _])] Hnone.
  pose proof (router_pop_delta_spec (router f)) as Hp. rewrite Hnone in Hp. inversion Hp as [| |Hr Ht Hr1 Hr2].
  assert (shows pair_of peer_of s (λ l, table_best (table_at (router f) l)) svc (registry_local (service_registry (router f)))) as Hsh'.
  { eapply shows_ext; [exact Hsh| |done|].
    - intros l i Hlay Hi. destruct (Hb l i Hlay Hi) as (b & Hfb & Hnil). rewrite Ht in Hfb, Hnil by done. rewrite Hnil by done. exact Hfb.
    - intros i Hi. rewrite <- Hl by done. by rewrite Hr. }
  split; [split_and!; [apply (fi_router _ Hf)|done|by do 2 eexists]|]. do 2 eexists. split; [exact Hsh'|].
  intros i Hi. destruct (Hs i Hi) as (_ & _ & Hk). by rewrite Hr in Hk.
Qed.

(** The paths of the router are all kept when no live connection has the pair
    of one that has ended. *)
Lemma kept_view (f : Feature) gone i :
  feature_inv f → u8 i → (∀ k k', is_Some (conns f !! k) → k' ∈ gone → pair_of k ≠ pair_of k') →
  let v := svc_view (rdest_paths (registry_dest (service_registry (router f)) i)) in kept gone v = v.
Proof.
  intros Hf Hi Hre v. apply filter_all. destruct (fi_paths _ Hf) as [_ Hs]. specialize (Hs i Hi). apply Forall_fmap.
  eapply Forall_impl; [exact Hs|]. intros p Hp (k' & Heq & Hk')%list_elem_of_fmap. by apply (Hre _ k' Hp Hk').
Qed.

(** C5. The workers route as the controller decides. The router feature runs
    with its own translation of the deltas, which drops those of connections
    that have ended; connections come up, are measured and end (each with a
    pair and peer of its own, live ones with different pairs), the network and
    the clock are served, and deltas are popped and handed to a worker, in any
    order. What is popped for the worker is always applied. Once no delta
    is queued, the worker answers [next] and [closest_for] exactly like the
    controller's router, with each connection replaced by its network pair,
    whatever was dropped. For services, as long as no live connection has the
    pair of one that has ended, the worker delivers locally exactly what the
    router does, rejects only what the router rejects, and sends to the pair
    of the router's answer or to the pair of a connection that has ended,
    which is what a dropped deletion leaves behind. *)
Theorem workers_route_as_controller (node : NodeId) (svcs : list Z) (h : H) (f : Feature) (s : Worker) (gone : list ConnKey) :
  Forall u8 svcs →
  rtc worker_step (router_sync_new node svcs, shadow_new node h, []) (f, s, gone) →
  (∀ f' broadcast d, pop_output f = (f', Some (OutToWorker broadcast d)) → ∃ s', apply_delta s d = Done s') ∧
  ((router_pop_delta (router f)).2 = None →
   (∀ dest, shadow_next s dest
     = fmap (M := option) (λ a : ConnId * NodeId, pair_of (conn_key a.1)) <$> router_next (router f) dest []) ∧
   (∀ key, shadow_closest_for s key
     = fmap (M := option) (λ a : ConnId * NodeId * Z * NodeIndex, pair_of (conn_key a.1.1.1)) <$> closest_node (router f) key []) ∧
   ((∀ k k', is_Some (conns f !! k) → k' ∈ gone → pair_of k ≠ pair_of k') →
    ∀ service, u8 service → ∃ o, service_next (router f) service [] = Done o ∧
      match shadow_path_to_service s service with
      | Local => o = Some DestLocal
      | Reject => o = None
      | Next p => (∃ c n, o = Some (DestRemote c n) ∧ p = pair_of (conn_key c)) ∨
                  (o ≠ Some DestLocal ∧ ∃ k, k ∈ gone ∧ p = pair_of k)
      | Broadcast _ _ => False
      end)).
Proof.
  intros Hsv Hr. pose proof (worker_reachable_inv _ _ _ _ _ _ Hsv Hr) as Hi. split.
  { intros f' b d Hpop. pose proof (router_pop_delta_spec (router f)) as Hp. unfold pop_output in Hpop.
    destruct (router_pop_delta (router f)) as [r [rule|]]; cbn in Hp.
    - pose proof (worker_inv_pop _ _ _ _ _ Hi Hp) as Hv. cbn [conns] in Hpop. destruct (translate (conns f) rule); [|done].
      simplify_eq. destruct Hv as (s' & ? & _). by exists s'.
    - pose proof (wi_outputs _ _ _ Hi) as Hq. destruct (queue f); [done|]. simplify_eq. by inversion Hq. }
  intros Hnone. destruct (worker_inv_settled f s gone Hi Hnone) as [Hup (best & svc & Hsh & Hk)].
  split_and!; [intros; by eapply shadow_next_agrees|intros; by eapply shadow_closest_agrees|]. intros Hre i Hu.
  pose proof (wi_feature _ _ _ Hi) as Hf. specialize (Hk i Hu). rewrite (kept_view f gone i Hf Hu Hre) in Hk.
  unfold shadow_path_to_service, service_next, registry_next. rewrite (sh_local _ _ _ _ _ _ Hsh) by done.
  fold (registry_local (service_registry (router f)) i). destruct (registry_local (service_registry (router f)) i); [by eexists|].
  pose proof (wf_hops _ (rwf_paths _ (rt_registry _ (fi_router _ Hf)) i Hu)) as Hh. fold (registry_dest (service_registry (router f)) i).
  rewrite (sh_service _ _ _ _ _ _ Hsh) by done. unfold rdest_next. rewrite next_in_empty_excepts by done. rewrite bind_Done.
  eexists. split; [done|]. destruct (svc i) as [|e rest]; cbn.
  - destruct Hh; [done|]. cbn in Hk. done.
  - rewrite filter_cons in Hk. case_decide as Hun.
    + left. destruct Hh as [|p ps Hp Hps]; [done|]. cbn in Hk |- *. simplify_eq. destruct (over_node_nonempty _ Hp) as [n Hn].
      apply over_node_Done in Hn. rewrite Hn. cbn. by do 2 eexists.
    + right. apply dec_stable in Hun as (k & -> & Hg)%list_elem_of_fmap. split; [|by exists k]. by destruct (head _ ≫= _) as [[]|].
Qed.
End system.

(** ** A run in which a connection ends *)

Definition demo_pair_of (k : ConnKey) : NetPair := demo_pair.
Definition demo_peer_of (k : ConnKey) : NodeId := 5.

Definition demo_told : RouterSyncFeature unit unit * ShadowRouter NetPair DataWorkerHistory :=
  deliver 1 demo_connected (shadow_new 1 history_default).

Definition demo_ended : RouterSyncFeature unit unit :=
  match on_shared_input (Secure := unit) (sync_codec := demo_codec) canonical_order demo_told.1 (Connection (Disconnected demo_ctx)) with
  | Done f => f | Panic => demo_start end.

Definition demo_forgot := deliver 1 demo_ended demo_told.2.

Lemma workers_route_as_controller_witness :
  shadow_next demo_told.2 5 = Done (Some demo_pair) ∧ shadow_next demo_forgot.2 5 = Done None ∧
  shadow_next demo_forgot.2 5
  = fmap (M := option) (λ a : ConnId * NodeId, demo_pair_of (conn_key a.1)) <$> router_next (router demo_forgot.1) 5 [].
Proof.
  split_and!; [vm_compute; reflexivity..|].
  destruct (workers_route_as_controller (UserData := unit) (Addr := unit) (Secure := unit) (sync_codec := demo_codec)
    ltac:(intros buf sync [= <-]; reflexivity) demo_pair_of demo_peer_of 1 [3] history_default demo_forgot.1 demo_forgot.2 [(Outgoing, 7)])
    as [_ Hend].
  - repeat constructor; lia.
  - eapply rtc_l; [apply (ws_connected _ _ canonical_order demo_start demo_connected _ _ demo_ctx ())|].
    { split_and!; [reflexivity..|]. intros k info Hk. cbn in Hk. by rewrite lookup_empty in Hk. }
    { vm_compute. reflexivity. }
    eapply rtc_l; [apply (ws_deliver _ _ demo_connected demo_told.1 _ demo_told.2 _ true (SetTable 0 5 demo_pair) (mkRouterSyncWorker [] false) (mkRouterSyncWorker [] false)); vm_compute; reflexivity|].
    eapply rtc_l; [apply (ws_disconnected _ _ canonical_order demo_told.1 demo_ended _ _ demo_ctx); vm_compute; reflexivity|].
    eapply rtc_l; [apply (ws_deliver _ _ demo_ended demo_forgot.1 _ demo_forgot.2 _ true (DelTable 0 5) (mkRouterSyncWorker [] false) (mkRouterSyncWorker [] false)); vm_compute; reflexivity|].
    apply rtc_refl.
  - destruct Hend as [Hnext _]; [vm_compute; reflexivity|]. exact (Hnext 5).
Defined.
