(* ===== verification/RouterConverge.v ===== *)
(** * Routes converge and messages arrive

    The nodes of a network with fixed links exchange syncs as the router
    feature does ([features/router_sync.rs]): a node sends its routes over a
    link whenever it likes, the network delivers a sync at any time, several
    times or never, in any order. Here: when all links have carried syncs often
    enough, every node knows a cheapest route to everything it can reach, and a
    message that is passed from next hop to next hop arrives. *)

From S2P Require Import Prelude NodeId ConnId Metric Paths Dest Table Route Registry Router Shadow History ShadowSim Msg Base RouterSync.

Record Link := mkLink { link_conn : ConnId; link_peer : NodeId; link_rtt : Z }.

(** The metric [Stats] gives a connection. *)
Definition link_metric (lk : Link) : Metric := mkMetric (link_rtt lk) [link_peer lk] INIT_BW.
Definition link_key (lk : Link) : ConnKey := conn_key (link_conn lk).

(** The router sees a link come up: [Connected], then [Stats]. *)
Definition link_up (r : Router) (lk : Link) : outcome Router :=
  r ← set_direct r (link_conn lk) (mkMetric INIT_RTT_MS [link_peer lk] INIT_BW);
  set_direct r (link_conn lk) (link_metric lk).

(** The sync of a neighbour arrives over a link. *)
Definition receive_sync (r : Router) (lk : Link) (sync : RouterSync) : outcome Router :=
  apply_sync r (link_conn lk) (link_metric lk) sync.

(** What a router does besides: it hands out deltas and learns of services, its
    paths stay. *)
Record same_routes (r r' : Router) : Prop := {
  sr_wf : router_wf r → router_wf r';
  sr_node : router_node_id r' = router_node_id r;
  sr_paths : ∀ l i, is_layer l → u8 i → dest_paths (table_dest (table_at r' l) i) = dest_paths (table_dest (table_at r l) i);
}.

(** ** The network *)

Section net.
Context (nodes : gset NodeId) (links : NodeId → list Link).

Definition node_linked (n : NodeId) : outcome Router := foldM link_up (router_new n) (links n).

(** A sync on its way to a node, over a link of that node. *)
Record Flight := mkFlight { fl_to : NodeId; fl_link : Link; fl_sync : RouterSync }.

Record Net := mkNet {
  net_routers : gmap NodeId Router;
  net_flight : gmap nat Flight;     (* by the number of the sending *)
  net_next : nat;
}.

(** Every node knows its links, no sync has been sent. *)
Definition net_start (s : Net) : Prop :=
  dom (net_routers s) = nodes ∧ net_flight s = ∅ ∧ ∀ n r, net_routers s !! n = Some r → node_linked n = Done r.

(** The steps of the network, with the link over which a sync arrived. A sync
    that was delivered stays in flight until it is lost: the network may
    deliver it again. *)
Inductive net_step (s : Net) : option (NodeId * Link) → Net → Prop :=
| ns_send n lk peer sync :
    n ∈ nodes → lk ∈ links n → net_routers s !! link_peer lk = Some peer → create_sync peer n = Done sync →
    net_step s None (mkNet (net_routers s) (<[net_next s := mkFlight n lk sync]> (net_flight s)) (S (net_next s)))
| ns_deliver id fl r r' :
    net_flight s !! id = Some fl → net_routers s !! fl_to fl = Some r → receive_sync r (fl_link fl) (fl_sync fl) = Done r' →
    net_step s (Some (fl_to fl, fl_link fl)) (mkNet (<[fl_to fl := r']> (net_routers s)) (net_flight s) (net_next s))
| ns_lose id : net_step s None (mkNet (net_routers s) (delete id (net_flight s)) (net_next s))
| ns_idle n r r' :
    net_routers s !! n = Some r → same_routes r r' →
    net_step s None (mkNet (<[n := r']> (net_routers s)) (net_flight s) (net_next s)).

(** A run, with the deliveries in it. *)
Inductive net_run (s : Net) : list (NodeId * Link) → Net → Prop :=
| run_nil : net_run s [] s
| run_cons o tr s1 s2 : net_step s o s1 → net_run s1 tr s2 → net_run s (option_list o ++ tr) s2.

(** A period: a sync arrives over every link, and the syncs that were in flight
    when it began are gone when it ends. *)
Definition period (s s' : Net) : Prop :=
  ∃ tr, net_run s tr s' ∧ (∀ n lk, n ∈ nodes → lk ∈ links n → (n, lk) ∈ tr) ∧
    ∀ id fl, net_flight s' !! id = Some fl → (net_next s ≤ id)%nat.

Inductive periods (s : Net) : nat → Net → Prop :=
| periods_zero : periods s 0 s
| periods_succ k s1 s2 : periods s k s1 → period s1 s2 → periods s (S k) s2.
End net.

(** ** Topologies

    The links of a network: both ends are nodes of it, a node knows its links
    apart, and no path of it overflows the sixteen bits of a latency. *)
Record topology (nodes : gset NodeId) (links : NodeId → list Link) (max_rtt : Z) : Prop := {
  topo_id : ∀ n, n ∈ nodes → u32 n;
  topo_peer : ∀ n lk, n ∈ nodes → lk ∈ links n → link_peer lk ∈ nodes ∧ link_peer lk ≠ n;
  topo_keys : ∀ n, n ∈ nodes → NoDup (link_key <$> links n);
  topo_rtt : ∀ n lk, n ∈ nodes → lk ∈ links n → 0 ≤ link_rtt lk ≤ max_rtt;
  topo_max : 0 ≤ max_rtt ∧ max_rtt * Z.of_nat (size nodes) < 2 ^ 16 ∧ Z.of_nat (size nodes) < 2 ^ 16;
}.

Section zone.
Context (nodes : gset NodeId) (links : NodeId → list Link) (max_rtt : Z) (Htopo : topology nodes links max_rtt).
(** A destination: index [i] of layer [l]. *)
Context (l i : Z) (Hl : is_layer l) (Hi : u8 i).

(** Nodes that share everything above layer [l] exchange the table of it. *)
Definition zone (n p : NodeId) : Prop := eq_util_layer n p ≤ l + 1.
Definition sink (p : NodeId) : Prop := byte_at p l = i.

#[global] Instance zone_dec n p : Decision (zone n p).
Proof. unfold zone. apply _. Defined.
#[global] Instance sink_dec p : Decision (sink p).
Proof. unfold sink. apply _. Defined.

(** A route of node [n] to a node of the index, with the sum of the round trip
    times: over nodes of the zone, the first sink ends it. *)
Inductive route : NodeId → list NodeId → Z → Prop :=
| route_direct n lk : lk ∈ links n → zone n (link_peer lk) → sink (link_peer lk) → route n [link_peer lk] (link_rtt lk)
| route_step n lk ps lat :
    lk ∈ links n → zone n (link_peer lk) → ¬ sink (link_peer lk) → route (link_peer lk) ps lat →
    route n (link_peer lk :: ps) (link_rtt lk + lat).

Definition cost (ps : list NodeId) (lat : Z) : Z := lat + HOP_PLUS_RTT * Z.of_nat (length ps).

Definition dest (r : Router) : Dest := table_dest (table_at r l) i.

(** ** Lemmas on zones and routes *)

Lemma zone_sym n p : zone n p → zone p n.
Proof. unfold zone. by rewrite eq_util_layer_sym. Qed.

Lemma zone_trans n p q : zone n p → zone p q → zone n q.
Proof. unfold zone. pose proof (eq_util_layer_ultrametric n p q). lia. Qed.

Lemma route_length n ps lat : route n ps lat → ps ≠ [].
Proof. by destruct 1. Qed.

Lemma route_nodes n ps lat : n ∈ nodes → route n ps lat → (∀ p, p ∈ ps → p ∈ nodes ∧ zone n p) ∧ 0 ≤ lat ≤ max_rtt * Z.of_nat (length ps).
Proof.
  intros Hn Hr. induction Hr as [n lk Hlk Hz Hs|n lk ps lat Hlk Hz Hs Hr IH].
  - destruct (topo_peer _ _ _ Htopo n lk Hn Hlk) as [Hp _]. pose proof (topo_rtt _ _ _ Htopo n lk Hn Hlk). split; [|cbn; lia].
    intros p ->%list_elem_of_singleton. done.
  - destruct (topo_peer _ _ _ Htopo n lk Hn Hlk) as [Hp _]. pose proof (topo_rtt _ _ _ Htopo n lk Hn Hlk). destruct (IH Hp) as [Hin Hlat].
    split; [|cbn [length]; lia]. intros p [->|Hx]%elem_of_cons; [done|]. destruct (Hin p Hx). split; [done|]. by eapply zone_trans.
Qed.

(** The rest of a route from a node on it. *)
Lemma route_suffix n ps lat q : n ∈ nodes → route n ps lat → q ∈ ps → ¬ sink q →
  ∃ ps' lat', route q ps' lat' ∧ cost ps' lat' < cost ps lat ∧ q :: ps' `suffix_of` ps.
Proof.
  intros Hn Hr Hq Hs. induction Hr as [n lk Hlk Hz Hs'|n lk ps lat Hlk Hz Hs' Hr IH].
  - by apply list_elem_of_singleton in Hq as ->.
  - destruct (topo_peer _ _ _ Htopo n lk Hn Hlk) as [Hp _]. pose proof (topo_rtt _ _ _ Htopo n lk Hn Hlk).
    apply elem_of_cons in Hq as [->|Hq].
    + exists ps, lat. split; [done|]. split; [unfold cost, HOP_PLUS_RTT; cbn [length]; lia|]. done.
    + destruct (IH Hp Hq) as (ps' & lat' & Hr' & Hc & Hsuf). exists ps', lat'. split; [done|].
      split; [unfold cost, HOP_PLUS_RTT in *; cbn [length]; lia|]. by apply suffix_cons_r.
Qed.

(** A route without detours costs no more. *)
Lemma route_simple n ps lat : n ∈ nodes → ¬ sink n → route n ps lat →
  ∃ ps' lat', route n ps' lat' ∧ cost ps' lat' ≤ cost ps lat ∧ NoDup (n :: ps').
Proof.
  intros Hn Hns Hr. induction Hr as [n lk Hlk Hz Hs|n lk ps lat Hlk Hz Hs Hr IH]; destruct (topo_peer _ _ _ Htopo n lk Hn Hlk) as [Hp Hne].
  - exists [link_peer lk], (link_rtt lk). split; [by constructor|]. split; [done|]. apply NoDup_cons. split; [|apply NoDup_singleton].
    by intros ?%list_elem_of_singleton.
  - destruct (IH Hp Hs) as (ps' & lat' & Hr' & Hc & Hnd). assert (route n (link_peer lk :: ps') (link_rtt lk + lat')) as Hr'' by (by constructor).
    assert (cost (link_peer lk :: ps') (link_rtt lk + lat') ≤ cost (link_peer lk :: ps) (link_rtt lk + lat)) as Hc'.
    { unfold cost, HOP_PLUS_RTT in *. cbn [length]. lia. }
    destruct (decide (n ∈ link_peer lk :: ps')) as [Hin|Hin]; [|exists (link_peer lk :: ps'), (link_rtt lk + lat'); split; [done|]; split; [done|]; by apply NoDup_cons].
    destruct (route_suffix _ _ _ n Hn Hr'' Hin Hns) as (ps2 & lat2 & Hr2 & Hc2 & [pre Hsuf]). exists ps2, lat2. split; [done|]. split; [lia|].
    rewrite Hsuf in Hnd. by apply NoDup_app in Hnd as (_ & _ & Hnd).
Qed.

Lemma nodes_length (ps : list NodeId) : NoDup ps → (∀ p, p ∈ ps → p ∈ nodes) → (length ps ≤ size nodes)%nat.
Proof.
  intros Hnd Hsub. rewrite <- (size_list_to_set (C := gset NodeId) ps) by done. apply subseteq_size. intros x Hx. apply Hsub.
  by apply elem_of_list_to_set in Hx.
Qed.

(** ** Paths that are routes *)

(** A stored path is a route without a loop, with its metric. *)
Record sound_path (n : NodeId) (m : Metric) : Prop := {
  sp_route : route n (reverse (hops m)) (latency m);
  sp_bw : BANDWIDTH_LIMIT ≤ bandwidth m;
  sp_nodup : NoDup (hops m);
  sp_self : n ∉ hops m;
}.

(** The score of such a path is the cost of its route. *)
Lemma sound_latency n m : n ∈ nodes → sound_path n m → 0 ≤ latency m ∧ latency m + max_rtt < 2 ^ 16 ∧ Z.of_nat (length (hops m)) < 2 ^ 16.
Proof.
  intros Hn [Hr Hb Hnd Hs]. destruct (route_nodes _ _ _ Hn Hr) as [Hin Hlat]. rewrite length_reverse in Hlat.
  assert (length (n :: hops m) ≤ size nodes)%nat as Hlen.
  { apply nodes_length; [by apply NoDup_cons|]. intros p [->|Hp]%elem_of_cons; [done|]. apply Hin. by apply elem_of_reverse. }
  cbn [length] in Hlen. destruct (topo_max _ _ _ Htopo) as (Hm0 & Hm1 & Hm2). split; [lia|]. split; [nia|lia].
Qed.

Lemma sound_score n m : n ∈ nodes → sound_path n m → score m = cost (reverse (hops m)) (latency m).
Proof.
  intros Hn Hs. destruct (sound_latency _ _ Hn Hs) as (H0 & H1 & H2). destruct (topo_max _ _ _ Htopo) as (Hm0 & _).
  rewrite score_plain by (unfold u16; lia). rewrite (proj2 (Z.leb_le _ _)) by apply (sp_bw _ _ Hs).
  unfold cost, HOP_PLUS_RTT. rewrite length_reverse. lia.
Qed.

(** One hop more: the path a neighbour advertises. *)
Lemma sound_extend n lk m :
  n ∈ nodes → lk ∈ links n → zone n (link_peer lk) → ¬ sink (link_peer lk) → n ∉ hops m → sound_path (link_peer lk) m →
  sound_path n (metric_add m (link_metric lk)) ∧ score (metric_add m (link_metric lk)) = score m + link_rtt lk + HOP_PLUS_RTT.
Proof.
  intros Hn Hlk Hz Hns Hni Hs. destruct (topo_peer _ _ _ Htopo n lk Hn Hlk) as [Hp Hne]. pose proof (topo_rtt _ _ _ Htopo n lk Hn Hlk) as Hrtt.
  destruct (sound_latency _ _ Hp Hs) as (H0 & H1 & H2).
  assert (latency (metric_add m (link_metric lk)) = latency m + link_rtt lk) as Hlat by (cbn; apply wrap_small; lia).
  assert (sound_path n (metric_add m (link_metric lk))) as Hs'.
  { destruct Hs as [Hr Hb Hnd Hsf]. split.
    - rewrite Hlat, metric_add_hops. cbn [hops link_metric]. rewrite reverse_snoc, Z.add_comm. by constructor.
    - change (BANDWIDTH_LIMIT ≤ Z.min (bandwidth m) INIT_BW). apply Z.min_glb; [done|]. by vm_compute.
    - rewrite metric_add_hops. apply NoDup_app. split; [done|]. split; [|apply NoDup_singleton]. intros x Hx ->%list_elem_of_singleton. done.
    - rewrite metric_add_hops. cbn [hops link_metric]. intros [?|?%list_elem_of_singleton]%elem_of_app; [done|congruence]. }
  split; [done|]. rewrite (sound_score _ _ Hn Hs'), (sound_score _ _ Hp Hs), Hlat. unfold cost, HOP_PLUS_RTT.
  rewrite !length_reverse, metric_add_hops, length_app. cbn [hops link_metric length]. lia.
Qed.

Lemma sound_direct n lk : n ∈ nodes → lk ∈ links n → zone n (link_peer lk) → sink (link_peer lk) → sound_path n (link_metric lk).
Proof.
  intros Hn Hlk Hz Hs. destruct (topo_peer _ _ _ Htopo n lk Hn Hlk) as [Hp Hne]. split.
  - cbn. by constructor.
  - by vm_compute.
  - apply NoDup_singleton.
  - by intros ?%list_elem_of_singleton.
Qed.

(** ** What a sync changes *)

(** The metric a neighbour tells node [n]. *)
Definition advertised (peer : Router) (n : NodeId) : option Metric := path_metric <$> best_for (dest peer) n.

Definition hear (n : NodeId) (lk : Link) (peer : Router) (m : gmap ConnKey Metric) : gmap ConnKey Metric :=
  if decide (zone n (link_peer lk) ∧ ¬ sink (link_peer lk)) then
    partial_alter (λ _, (λ a, metric_add a (link_metric lk)) <$> advertised peer n) (link_key lk) m
  else m.

(** The entry of the destination in a sync. *)
Lemma cached_entry (peer : Router) (p n : NodeId) (lk : Link) (s : TableSync) :
  router_wf peer → router_node_id peer = p → table_sync_for (table_at peer l) n = Done (Some s) →
  sync_cached (link_metric lk) s !! i = if decide (sink p) then None else (λ a, metric_add a (link_metric lk)) <$> advertised peer n.
Proof.
  intros Hwf Hid Hs. destruct (rt_table _ Hwf l Hl) as (Ht & Hlay & Hnode). rewrite table_sync_for_eq, Hlay, Hnode, Hid in Hs by done.
  set (t := table_at peer l) in *.
  assert (s = omap (sync_entry t (byte_at p l) n) u8_all) as -> by (case_match; congruence).
  assert (∀ m, (i, m) ∈ omap (sync_entry t (byte_at p l) n) u8_all ↔ ¬ sink p ∧ advertised peer n = Some m) as Hin.
  { intros m. rewrite list_elem_of_omap. unfold sync_entry, advertised, sink, dest. fold t. split.
    - intros (j & Hj & He). destruct (negb _ && negb _) eqn:Hc; [|done]. apply andb_true_iff in Hc as [_ Hc].
      destruct (best_for (table_dest t j) n) as [q|] eqn:Hb; [|done]. injection He as -> <-. rewrite Hb. split; [|done].
      destruct (Z.eqb_spec i (byte_at p l)); [done|]. congruence.
    - intros [Hns Hb]. destruct (best_for (table_dest t i) n) as [q|] eqn:Hq; [|done]. injection Hb as <-. exists i. split; [by apply elem_of_u8_all|].
      rewrite Hq. replace (dest_is_empty (table_dest t i)) with false.
      + rewrite (proj2 (Z.eqb_neq _ _)) by congruence. done.
      + unfold best_for in Hq. unfold dest_is_empty. by destruct (dest_paths (table_dest t i)). }
  destruct (sync_cached _ _ !! i) as [m|] eqn:Hm.
  - apply sync_cached_source in Hm as (m0 & Hm0 & ->). apply Hin in Hm0 as [Hns ->]. by rewrite decide_False by done.
  - case_decide as Hsk; [done|]. destruct (advertised peer n) as [m0|] eqn:Ha; [|done].
    destruct (sync_cached_is_Some (link_metric lk) _ i m0 (proj2 (Hin m0) (conj Hsk eq_refl))) as [? Hx]. congruence.
Qed.

Lemma receive_dest n lk r peer sync :
  router_wf r → router_node_id r = n → router_wf peer → router_node_id peer = link_peer lk → create_sync peer n = Done sync →
  ∃ r', receive_sync r lk sync = Done r' ∧ router_wf r' ∧ router_node_id r' = n ∧
    (¬ sink n → dest_map (dest r') = hear n lk peer (dest_map (dest r))).
Proof.
  intros Hwf Hid Hpwf Hpid Hsync. unfold receive_sync.
  destruct (create_sync_spec peer n Hpwf) as (sync' & Hsync' & Hlen & _). rewrite Hsync in Hsync'. injection Hsync' as <-.
  destruct (apply_sync_dests r (link_conn lk) (link_metric lk) (link_peer lk) sync Hwf eq_refl Hlen) as (r' & Hr' & Hwf' & (Hid' & _) & Hd & _).
  exists r'. split; [done|]. split; [done|]. split; [congruence|]. intros Hns. unfold dest at 1. rewrite Hd by done. unfold sync_dest.
  rewrite decide_True, Nat.sub_0_r by lia. destruct (create_sync_tables _ _ _ l Hsync Hl) as (s & Hs & Ht). rewrite Hs.
  destruct (rt_table _ Hpwf l Hl) as (Hpt & Hlay & Hnode). destruct (rt_table _ Hwf l Hl) as (Hrt & _). pose proof (wf_dests _ Hrt i Hi) as Hdw.
  destruct s as [s|]; rewrite table_sync_for_eq, Hlay, Hnode, Hpid, eq_util_layer_sym in Ht by done; unfold hear.
  - destruct (Z.ltb_spec (l + 1) (eq_util_layer n (link_peer lk))) as [|Hz]; [done|]. fold (zone n (link_peer lk)) in Hz.
    unfold synced_dest. rewrite Hid, (proj2 (Z.eqb_neq i _)) by (unfold sink in Hns; congruence).
    rewrite (cached_entry peer (link_peer lk) n lk s Hpwf Hpid).
    2:{ rewrite table_sync_for_eq, Hlay, Hnode, Hpid, eq_util_layer_sym by done. rewrite (proj2 (Z.ltb_ge _ _)) by exact Hz. exact Ht. }
    destruct (decide (sink (link_peer lk))) as [Hsk|Hsk].
    + rewrite decide_False by tauto. unfold sink in Hsk. by rewrite Hsk, Z.eqb_refl.
    + rewrite decide_True by done. destruct (advertised peer n) as [m|]; cbn [fmap option_fmap option_map].
      * cbn [drained dest_paths]. by rewrite set_path_map.
      * rewrite (proj2 (Z.eqb_neq _ i)) by done. cbn [drained dest_paths]. by rewrite del_path_map.
  - destruct (Z.ltb_spec (l + 1) (eq_util_layer n (link_peer lk))) as [Hz|]; [|done]. rewrite decide_False; [done|]. unfold zone. lia.
Qed.

Lemma hear_lookup n lk peer m k :
  hear n lk peer m !! k =
    if decide (k = link_key lk ∧ zone n (link_peer lk) ∧ ¬ sink (link_peer lk))
    then (λ a, metric_add a (link_metric lk)) <$> advertised peer n else m !! k.
Proof.
  unfold hear. destruct (decide (k = link_key lk)) as [->|Hne].
  - destruct (decide (zone _ _ ∧ _)); [rewrite decide_True by done|by rewrite decide_False by tauto]. by rewrite lookup_partial_alter_eq.
  - rewrite (decide_False (P := k = _ ∧ _)) by tauto. case_decide; [|done]. by rewrite lookup_partial_alter_ne.
Qed.

(** A link is a path to an index only if its neighbour is a sink of the zone. *)
Lemma direct_dest n lk m r : hops m = [link_peer lk] → router_wf r → router_node_id r = n →
  ∃ r', set_direct r (link_conn lk) m = Done r' ∧ router_wf r' ∧ router_node_id r' = n ∧
    (¬ sink n → dest_map (dest r') =
      if decide (zone n (link_peer lk) ∧ sink (link_peer lk)) then <[link_key lk := m]> (dest_map (dest r)) else dest_map (dest r)).
Proof.
  intros Hm Hwf Hid. assert (over_node m = Done (link_peer lk)) as Hov by (apply over_node_Done; by rewrite Hm).
  destruct (set_direct_spec r (link_conn lk) m (link_peer lk) Hwf Hov)
    as (r' & Hr' & Hwf' & (Hid' & _) & _ & Hk0 & Hset & Hother).
  exists r'. split; [done|]. split; [done|]. split; [congruence|]. intros Hns. rewrite Hid in *. set (k := eq_util_layer n (link_peer lk)) in *.
  destruct (eq_util_layer_spec n (link_peer lk) k eq_refl) as [Heq Hne]. pose proof (eq_util_layer_range n (link_peer lk)) as Hk. fold k in Hk.
  case_decide as Hz.
  - destruct Hz as [Hz Hs]. unfold zone, sink in *. fold k in Hz. assert (k = l + 1) as Hkl.
    { destruct (Z.le_gt_cases k l) as [Hle|]; [|lia]. destruct Hns. rewrite <- Hs. apply Heq. unfold is_layer in Hl. lia. }
    unfold dest. replace (k - 1) with l in Hset by lia. rewrite Hs in Hset. rewrite Hset by (unfold is_layer in Hl; lia).
    cbn [drained dest_paths]. destruct (rt_table _ Hwf l Hl) as (Ht & _). by rewrite set_path_map by (by apply wf_dests).
  - destruct (decide (k = 0)) as [Hk0'|Hkn]; [by rewrite (Hk0 Hk0')|]. unfold dest. rewrite Hother; [done..|]. intros [= Hl' Hi']. apply Hz.
    unfold zone, sink. fold k. split; [lia|]. by rewrite Hl', Hi'.
Qed.

Lemma link_up_dest n lk r : router_wf r → router_node_id r = n →
  ∃ r', link_up r lk = Done r' ∧ router_wf r' ∧ router_node_id r' = n ∧
    (¬ sink n → dest_map (dest r') =
      if decide (zone n (link_peer lk) ∧ sink (link_peer lk)) then <[link_key lk := link_metric lk]> (dest_map (dest r)) else dest_map (dest r)).
Proof.
  intros Hwf Hid. destruct (direct_dest n lk (mkMetric INIT_RTT_MS [link_peer lk] INIT_BW) r eq_refl Hwf Hid) as (r1 & Hr1 & Hwf1 & Hid1 & Hd1).
  destruct (direct_dest n lk (link_metric lk) r1 eq_refl Hwf1 Hid1) as (r2 & Hr2 & Hwf2 & Hid2 & Hd2). exists r2. unfold link_up.
  rewrite Hr1, bind_Done. split; [done|]. split; [done|]. split; [done|]. intros Hns. rewrite (Hd2 Hns), (Hd1 Hns). case_decide; [|done].
  by rewrite insert_insert_eq.
Qed.

Lemma link_all n ls : ∀ r, router_wf r → router_node_id r = n → NoDup (link_key <$> ls) →
  ∃ r', foldM link_up r ls = Done r' ∧ router_wf r' ∧ router_node_id r' = n ∧
    (¬ sink n → ∀ k, (k ∉ link_key <$> ls → dest_map (dest r') !! k = dest_map (dest r) !! k) ∧
      ∀ lk, lk ∈ ls → k = link_key lk →
        dest_map (dest r') !! k = if decide (zone n (link_peer lk) ∧ sink (link_peer lk)) then Some (link_metric lk) else dest_map (dest r) !! k).
Proof.
  induction ls as [|lk ls IH]; intros r Hwf Hid Hnd.
  { exists r. split; [done|]. split; [done|]. split; [done|]. intros _ k. split; [done|]. by intros lk ?%elem_of_nil. }
  cbn [fmap list_fmap] in Hnd. apply NoDup_cons in Hnd as [Hk Hnd].
  destruct (link_up_dest n lk r Hwf Hid) as (r1 & Hr1 & Hwf1 & Hid1 & Hd1). destruct (IH r1 Hwf1 Hid1 Hnd) as (r' & Hr' & Hwf' & Hid' & Hd').
  exists r'. cbn [foldM]. rewrite Hr1, bind_Done. split; [done|]. split; [done|]. split; [done|]. intros Hns k.
  specialize (Hd1 Hns). destruct (Hd' Hns k) as [Hsame Hset]. cbn [fmap list_fmap].
  assert (k ≠ link_key lk → dest_map (dest r1) !! k = dest_map (dest r) !! k) as H1.
  { intros Hne. rewrite Hd1. case_decide; [by rewrite lookup_insert_ne|done]. }
  split.
  - intros [Hne Hnk]%not_elem_of_cons. rewrite Hsame by done. by apply H1.
  - intros lk' [->|Hlk']%elem_of_cons Hkey.
    + rewrite Hsame by (by rewrite Hkey). rewrite Hd1, Hkey. case_decide; [by rewrite lookup_insert_eq|done].
    + rewrite (Hset lk' Hlk' Hkey). destruct (decide (zone n (link_peer lk') ∧ sink (link_peer lk'))); [done|]. apply H1. intros Heq. apply Hk. rewrite <- Heq, Hkey. by apply list_elem_of_fmap_2.
Qed.

(** ** Cheapest routes *)

(** All routes of at most [k] hops. *)
Fixpoint routes_upto (k : nat) (n : NodeId) : list (list NodeId * Z) :=
  match k with
  | O => []
  | S k =>
      links n ≫= λ lk,
        if decide (zone n (link_peer lk)) then
          if decide (sink (link_peer lk)) then [([link_peer lk], link_rtt lk)]
          else (λ r, (link_peer lk :: r.1, link_rtt lk + r.2)) <$> routes_upto k (link_peer lk)
        else []
  end.

Lemma routes_upto_spec k : ∀ n ps lat, (ps, lat) ∈ routes_upto k n ↔ route n ps lat ∧ (length ps ≤ k)%nat.
Proof.
  induction k as [|k IH]; intros n ps lat; cbn [routes_upto].
  { split; [by intros ?%elem_of_nil|]. intros [Hr Hlen]. destruct (route_length _ _ _ Hr). destruct ps; [done|]. cbn in Hlen. lia. }
  rewrite list_elem_of_bind. split.
  - intros (lk & Hin & Hlk). destruct (decide (zone _ _)) as [Hz|]; [|by apply elem_of_nil in Hin]. destruct (decide (sink _)) as [Hs|Hs].
    + apply list_elem_of_singleton in Hin as [= -> ->]. split; [by constructor|cbn; lia].
    + apply list_elem_of_fmap in Hin as ([ps' lat'] & [= -> ->] & Hin). apply IH in Hin as [Hr Hlen]. split; [by constructor|cbn; lia].
  - intros [Hr Hlen]. destruct Hr as [n lk Hlk Hz Hs|n lk ps lat Hlk Hz Hs Hr]; exists lk; (split; [|done]); rewrite decide_True by done.
    + rewrite decide_True by done. by apply list_elem_of_singleton.
    + rewrite decide_False by done. apply list_elem_of_fmap. exists (ps, lat). split; [done|]. apply IH. split; [done|]. cbn in Hlen. lia.
Qed.

Definition cheapest (n : NodeId) (ps : list NodeId) (lat : Z) : Prop :=
  route n ps lat ∧ ∀ ps' lat', route n ps' lat' → cost ps lat ≤ cost ps' lat'.

Lemma cheapest_exists n ps lat : n ∈ nodes → ¬ sink n → route n ps lat → ∃ ps' lat', cheapest n ps' lat' ∧ (length ps' ≤ size nodes)%nat.
Proof.
  intros Hn Hns Hr.
  assert (∀ ps lat, route n ps lat → ∃ r, r ∈ routes_upto (size nodes) n ∧ cost r.1 r.2 ≤ cost ps lat) as Hshort.
  { intros ps' lat' Hr'. destruct (route_simple _ _ _ Hn Hns Hr') as (ps2 & lat2 & Hr2 & Hc & Hnd). exists (ps2, lat2). split; [|done].
    apply routes_upto_spec. split; [done|]. apply NoDup_cons in Hnd as [_ Hnd]. apply nodes_length; [done|]. intros p Hp. by apply (route_nodes _ _ _ Hn Hr2). }
  destruct (Hshort _ _ Hr) as (r & Hin & _).
  destruct (list_argmin (λ r, cost r.1 r.2) (routes_upto (size nodes) n)) as ([ps' lat'] & Hmin & Hle); [intros Hnil; rewrite Hnil in Hin; by apply elem_of_nil in Hin|].
  apply routes_upto_spec in Hmin as [Hr' Hlen]. exists ps', lat'. split; [|done]. split; [done|]. intros ps2 lat2 Hr2.
  destruct (Hshort _ _ Hr2) as (r2 & Hin2 & Hc2). specialize (Hle r2 Hin2). cbn in Hle. lia.
Qed.

Lemma cost_step lk ps lat : cost (link_peer lk :: ps) (link_rtt lk + lat) = cost ps lat + link_rtt lk + HOP_PLUS_RTT.
Proof. unfold cost, HOP_PLUS_RTT. cbn [length]. lia. Qed.

(** The rest of a cheapest route is one. *)
Lemma cheapest_rest n lk ps lat : lk ∈ links n → zone n (link_peer lk) → ¬ sink (link_peer lk) → route (link_peer lk) ps lat →
  cheapest n (link_peer lk :: ps) (link_rtt lk + lat) → cheapest (link_peer lk) ps lat.
Proof.
  intros Hlk Hz Hs Hr [_ Hmin]. split; [done|]. intros ps' lat' Hr'. specialize (Hmin _ _ (route_step n lk ps' lat' Hlk Hz Hs Hr')).
  rewrite !cost_step in Hmin. lia.
Qed.

Definition near (h : nat) (n : NodeId) : Prop := ∃ ps lat, cheapest n ps lat ∧ (length ps ≤ h)%nat.

Lemma near_mono h h' n : (h ≤ h')%nat → near h n → near h' n.
Proof. intros Hle (ps & lat & Hc & Hlen). exists ps, lat. split; [done|]. lia. Qed.

Lemma near_zero n : ¬ near 0 n.
Proof. intros (ps & lat & [Hr _] & Hlen). destruct (route_length _ _ _ Hr). destruct ps; [done|]. cbn in Hlen. lia. Qed.

(** ** What a node knows *)

(** Every path is a route over the link of its connection, and the links to
    sinks are paths. *)
Record node_sound (n : NodeId) (m : gmap ConnKey Metric) : Prop := {
  nd_entry : ∀ key a, m !! key = Some a → sound_path n a ∧ ∃ lk, lk ∈ links n ∧ key = link_key lk ∧ last (hops a) = Some (link_peer lk);
  nd_direct : ∀ lk, lk ∈ links n → zone n (link_peer lk) → sink (link_peer lk) → m !! link_key lk = Some (link_metric lk);
}.

(** A cheapest route over a link is known if the neighbour is [near]. *)
Definition heard (h : nat) (n : NodeId) (m : gmap ConnKey Metric) (lk : Link) : Prop :=
  zone n (link_peer lk) → ¬ sink (link_peer lk) → near h (link_peer lk) →
  ∀ ps lat, route (link_peer lk) ps lat → cheapest n (link_peer lk :: ps) (link_rtt lk + lat) →
  ∃ a, m !! link_key lk = Some a ∧ score a ≤ cost (link_peer lk :: ps) (link_rtt lk + lat).

Definition knows (h : nat) (n : NodeId) (r : Router) : Prop :=
  router_wf r ∧ router_node_id r = n ∧
  (¬ sink n → node_sound n (dest_map (dest r)) ∧ ∀ lk, lk ∈ links n → heard h n (dest_map (dest r)) lk).

Lemma heard_mono h h' n m lk : (h ≤ h')%nat → heard h' n m lk → heard h n m lk.
Proof. intros Hle Hh Hz Hs Hn. apply Hh; [done..|]. by eapply near_mono. Qed.

Lemma knows_mono h h' n r : (h ≤ h')%nat → knows h' n r → knows h n r.
Proof.
  intros Hle (Hwf & Hid & Hk). split; [done|]. split; [done|]. intros Hns. destruct (Hk Hns) as [Hs Hh]. split; [done|]. intros lk Hlk.
  eapply heard_mono; [done|]. by apply Hh.
Qed.

(** A node whose neighbours are near knows a cheapest route. *)
Lemma knows_cheapest h n r ps lat : n ∈ nodes → ¬ sink n → knows h n r → near (S h) n → route n ps lat →
  ∃ key a, dest_map (dest r) !! key = Some a ∧ score a ≤ cost ps lat.
Proof.
  intros Hn Hns (_ & _ & Hk) (ps0 & lat0 & Hc & Hlen) Hr. destruct (Hk Hns) as [Hs Hh]. pose proof (proj2 Hc _ _ Hr) as Hle.
  assert (∃ key a, dest_map (dest r) !! key = Some a ∧ score a ≤ cost ps0 lat0) as (key & a & Ha & Hsc); [|exists key, a; split; [done|lia]].
  destruct Hc as [Hr0 Hmin]. inversion Hr0 as [n' lk Hlk Hz Hsk|n' lk ps' lat' Hlk Hz Hsk Hr']; subst.
  - exists (link_key lk), (link_metric lk). split; [by apply (nd_direct _ _ Hs)|]. rewrite (sound_score n) by (done || by apply sound_direct). done.
  - destruct (Hh lk Hlk Hz Hsk) with (ps := ps') (lat := lat') as (a & Ha & Hsc); [|done|done|by exists (link_key lk), a].
    exists ps', lat'. split; [|cbn in Hlen; lia]. by apply (cheapest_rest n).
Qed.

Lemma link_key_inj n lk lk' : n ∈ nodes → lk ∈ links n → lk' ∈ links n → link_key lk = link_key lk' → lk = lk'.
Proof.
  intros Hn Hlk Hlk' Heq. pose proof (topo_keys _ _ _ Htopo n Hn) as Hnd. apply list_elem_of_lookup in Hlk as [a Ha], Hlk' as [b Hb].
  assert (a = b) as <-; [|congruence]. eapply NoDup_lookup; [exact Hnd|rewrite list_lookup_fmap, Ha; reflexivity|]. by rewrite list_lookup_fmap, Hb, Heq.
Qed.

(** The best path of a node is advertised unless it leads back. *)
Lemma advertised_best peer n key a : router_wf peer → dest_map (dest peer) !! key = Some a →
  ∃ key' b, dest_map (dest peer) !! key' = Some b ∧ score b ≤ score a ∧ (n ∉ hops b → advertised peer n = Some b).
Proof.
  intros Hwf Ha. destruct (rt_table _ Hwf l Hl) as (Ht & _). pose proof (wf_dests _ Ht i Hi) as Hd. fold (dest peer) in Hd.
  apply paths_map_lookup in Ha as (q & Hq & _ & <-); [|apply Hd]. unfold advertised, best_for.
  destruct (dest_paths (dest peer)) as [|hd t] eqn:Hps; [by apply elem_of_nil in Hq|]. exists (path_key hd), (path_metric hd). split_and!.
  - apply paths_map_lookup; [apply Hd|]. exists hd. split; [left|done].
  - pose proof (wf_sorted _ Hd) as Hs. inversion_clear Hs as [|? ? _ Hall]. apply elem_of_cons in Hq as [->|Hq]; [done|].
    rewrite Forall_forall in Hall. by apply Hall.
  - intros Hni. cbn. unfold contain_in_hops. by rewrite bool_decide_false.
Qed.

Lemma advertised_sound peer p n a : router_wf peer → node_sound p (dest_map (dest peer)) → advertised peer n = Some a → sound_path p a ∧ n ∉ hops a.
Proof.
  intros Hwf Hk Ha. destruct (rt_table _ Hwf l Hl) as (Ht & _). pose proof (wf_dests _ Ht i Hi) as Hd. fold (dest peer) in Hd. unfold advertised, best_for in Ha.
  destruct (best_for_in n (dest_paths (dest peer))) as [q|] eqn:Hq; [|done]. injection Ha as <-. apply best_for_in_Some in Hq as [Hq Hni].
  split; [|done]. apply (nd_entry _ _ Hk (path_key q)). apply paths_map_lookup; [apply Hd|]. by exists q.
Qed.

(** A sync of a node that knows its near neighbours tells of one hop more. *)
Lemma hear_heard h n lk peer m : n ∈ nodes → ¬ sink n → lk ∈ links n → knows h (link_peer lk) peer →
  heard (S h) n (hear n lk peer m) lk.
Proof.
  intros Hn Hns Hlk Hp Hz Hs Hnear ps lat Hr Hc. destruct (topo_peer _ _ _ Htopo n lk Hn Hlk) as [Hpn _]. pose proof (topo_rtt _ _ _ Htopo n lk Hn Hlk) as Hrtt.
  destruct (knows_cheapest h (link_peer lk) peer ps lat Hpn Hs Hp Hnear Hr) as (key & a & Ha & Hsc). destruct Hp as (Hwf & _ & Hk). destruct (Hk Hs) as [Hsound _].
  destruct (advertised_best peer n key a Hwf Ha) as (key' & b & Hb & Hba & Hadv). destruct (nd_entry _ _ Hsound _ _ Hb) as [Hsb _].
  assert (n ∉ hops b) as Hin.
  { intros Hin. destruct (route_suffix _ _ _ n Hpn (sp_route _ _ Hsb) (proj2 (elem_of_reverse _ _) Hin) Hns) as (ps2 & lat2 & Hr2 & Hc2 & _).
    rewrite <- (sound_score _ _ Hpn Hsb) in Hc2. pose proof (proj2 Hc _ _ Hr2) as Hmin. rewrite cost_step in Hmin. unfold HOP_PLUS_RTT in Hmin. lia. }
  destruct (sound_extend n lk b Hn Hlk Hz Hs Hin Hsb) as [_ Hscore]. exists (metric_add b (link_metric lk)).
  rewrite hear_lookup, decide_True, (Hadv Hin) by done. split; [done|]. rewrite Hscore, cost_step. lia.
Qed.

Lemma hear_sound n lk peer m : n ∈ nodes → ¬ sink n → lk ∈ links n → router_wf peer →
  (¬ sink (link_peer lk) → node_sound (link_peer lk) (dest_map (dest peer))) → node_sound n m → node_sound n (hear n lk peer m).
Proof.
  intros Hn Hns Hlk Hwf Hp [He Hd]. split.
  - intros key a Ha. rewrite hear_lookup in Ha. case_decide as Hz; [|by apply He]. destruct Hz as (-> & Hz & Hs).
    destruct (advertised peer n) as [b|] eqn:Hadv; [|done]. injection Ha as <-. destruct (advertised_sound _ _ _ _ Hwf (Hp Hs) Hadv) as [Hsb Hni].
    split; [by apply sound_extend|]. exists lk. rewrite metric_add_hops. cbn [hops link_metric]. by rewrite last_snoc.
  - intros lk' Hlk' Hz' Hs'. rewrite hear_lookup. rewrite decide_False; [by apply Hd|]. intros (Heq & _ & Hs).
    by rewrite (link_key_inj n lk' lk Hn Hlk' Hlk Heq) in Hs'.
Qed.

(** ** The invariant of the network *)

(** In state [s] the nodes know what their neighbours at distance [h] know, and
    over the links of [seen] one hop more. The syncs sent before number [old]
    are from nodes that knew one hop less. *)
Record net_inv (h : nat) (seen : list (NodeId * Link)) (old : nat) (s : Net) : Prop := {
  ni_dom : dom (net_routers s) = nodes;
  ni_routers : ∀ n r, net_routers s !! n = Some r → knows h n r;
  ni_seen : ∀ n r lk, net_routers s !! n = Some r → ¬ sink n → lk ∈ links n → (n, lk) ∈ seen → old = 0%nat → heard (S h) n (dest_map (dest r)) lk;
  ni_flight : ∀ id fl, net_flight s !! id = Some fl →
    (id < net_next s)%nat ∧ fl_to fl ∈ nodes ∧ fl_link fl ∈ links (fl_to fl) ∧
    ∃ peer, knows (if decide (id < old)%nat then pred h else h) (link_peer (fl_link fl)) peer ∧ create_sync peer (fl_to fl) = Done (fl_sync fl);
}.

Lemma ni_node h seen old s n r : net_inv h seen old s → net_routers s !! n = Some r → n ∈ nodes.
Proof. intros Hi' Hr. rewrite <- (ni_dom _ _ _ _ Hi'). by apply elem_of_dom_2 in Hr. Qed.

Lemma same_routes_map r r' : same_routes r r' → dest_map (dest r') = dest_map (dest r).
Proof. intros Hs. unfold dest_map, dest. by rewrite (sr_paths _ _ Hs l i Hl Hi). Qed.

(** A sync can be delivered, and what the receiver knows then. *)
Lemma deliver_knows h seen old s id fl r : net_inv h seen old s → net_flight s !! id = Some fl → net_routers s !! fl_to fl = Some r →
  ∃ r', receive_sync r (fl_link fl) (fl_sync fl) = Done r' ∧ knows h (fl_to fl) r' ∧
    (¬ sink (fl_to fl) → ∀ lk, lk ∈ links (fl_to fl) → (fl_to fl, lk) ∈ seen ++ [(fl_to fl, fl_link fl)] → old = 0%nat →
      heard (S h) (fl_to fl) (dest_map (dest r')) lk).
Proof.
  intros Hinv Hfl Hr. pose proof (ni_routers _ _ _ _ Hinv _ _ Hr) as (Hwf & Hid & Hk).
  destruct (ni_flight _ _ _ _ Hinv _ _ Hfl) as (_ & Hn & Hlk & peer & Hpk & Hsync).
  set (n := fl_to fl) in *. set (lk := fl_link fl) in *. pose proof Hpk as (Hpwf & Hpid & Hpsound).
  destruct (receive_dest n lk r peer (fl_sync fl) Hwf Hid Hpwf Hpid Hsync) as (r' & Hr' & Hwf' & Hid' & Hd). exists r'. split; [done|].
  assert (¬ sink n → ∀ h' lk', lk' ∈ links n → lk' ≠ lk → heard h' n (dest_map (dest r)) lk' → heard h' n (dest_map (dest r')) lk') as Hother.
  { intros Hns h' lk' Hlk' Hne Hh. rewrite (Hd Hns). intros Hz Hs Hnear ps lat Hroute Hc. rewrite hear_lookup, decide_False.
    - by apply Hh.
    - intros [Heq _]. by destruct Hne, (link_key_inj n lk' lk Hn Hlk' Hlk Heq). }
  assert (¬ sink n → ∀ h', knows h' (link_peer lk) peer → heard (S h') n (dest_map (dest r')) lk) as Hnew.
  { intros Hns h' Hp. rewrite (Hd Hns). by apply hear_heard. }
  split.
  - split; [done|]. split; [done|]. intros Hns. destruct (Hk Hns) as [Hsound Hh]. split.
    + rewrite (Hd Hns). apply hear_sound; [done..| |done]. intros Hs. by apply Hpsound.
    + intros lk' Hlk'. destruct (decide (link_key lk' = link_key lk)) as [Heq|Hne]; [|apply Hother; [done..|intros ->; done|by apply Hh]].
      rewrite (link_key_inj n lk' lk Hn Hlk' Hlk Heq). eapply heard_mono; [|by eapply Hnew]. case_decide; lia.
  - intros Hns lk' Hlk' Hin Hold. destruct (decide (link_key lk' = link_key lk)) as [Heq|Hne].
    + rewrite (link_key_inj n lk' lk Hn Hlk' Hlk Heq). apply (Hnew Hns). by rewrite decide_False in Hpk by lia.
    + apply Hother; [done..|intros ->; done|]. apply elem_of_app in Hin as [Hin|[= ->]%list_elem_of_singleton]; [|done].
      by apply (ni_seen _ _ _ _ Hinv _ _ _ Hr).
Qed.

Lemma step_inv h seen old s o s' : (old ≤ net_next s)%nat → net_inv h seen old s → net_step nodes links s o s' →
  net_inv h (seen ++ option_list o) old s' ∧ (net_next s ≤ net_next s')%nat.
Proof.
  intros Hold Hinv Hstep. destruct Hstep as [n lk peer sync Hn Hlk Hp Hsync|id fl r r' Hfl Hr Hr'|id|n r r' Hr Hsame]; cbn [option_list net_next]; rewrite ?app_nil_r;
    (split; [|lia]).
  - destruct Hinv as [Hdom Hro Hse Hf]. split; cbn [net_routers net_flight net_next]; [done..|]. intros id fl Hfl. apply lookup_insert_Some in Hfl as [[<- <-]|[Hne Hfl]].
    + cbn [fl_to fl_link fl_sync]. split; [lia|]. split; [done|]. split; [done|]. exists peer. split; [|done]. rewrite decide_False by lia. by apply Hro.
    + destruct (Hf id fl Hfl) as (Hlt & Hrest). split; [lia|done].
  - destruct (deliver_knows _ _ _ _ _ _ _ Hinv Hfl Hr) as (r2 & Hr2 & Hk & Hseen). rewrite Hr' in Hr2. injection Hr2 as <-.
    destruct Hinv as [Hdom Hro Hse Hf]. split; cbn [net_routers net_flight net_next].
    + rewrite dom_insert_lookup_L by done. done.
    + intros n r2 Hn. apply lookup_insert_Some in Hn as [[<- <-]|[_ Hn]]; [done|by apply Hro].
    + intros n r2 lk Hn Hns Hlk Hin H0. apply lookup_insert_Some in Hn as [[<- <-]|[Hne Hn]]; [by apply Hseen|].
      apply elem_of_app in Hin as [Hin|[= -> ->]%list_elem_of_singleton]; [by eapply Hse|done].
    + done.
  - destruct Hinv as [Hdom Hro Hse Hf]. split; cbn [net_routers net_flight net_next]; [done..|]. intros id' fl [_ Hfl]%lookup_delete_Some. by apply Hf.
  - pose proof (same_routes_map _ _ Hsame) as Hmap. destruct Hinv as [Hdom Hro Hse Hf]. split; cbn [net_routers net_flight net_next]; [| | |done].
    + rewrite dom_insert_lookup_L by done. done.
    + intros n' r2 Hn. apply lookup_insert_Some in Hn as [[<- <-]|[_ Hn]]; [|by apply Hro]. destruct (Hro n r Hr) as (Hwf & Hid & Hk).
      split; [by apply (sr_wf _ _ Hsame)|]. split; [by rewrite (sr_node _ _ Hsame)|]. by rewrite Hmap.
    + intros n' r2 lk Hn. apply lookup_insert_Some in Hn as [[<- <-]|[_ Hn]]; [|by apply Hse]. rewrite Hmap. by apply Hse.
Qed.

Lemma run_inv h s tr s' : net_run nodes links s tr s' → ∀ seen old, (old ≤ net_next s)%nat → net_inv h seen old s →
  net_inv h (seen ++ tr) old s' ∧ (net_next s ≤ net_next s')%nat.
Proof.
  induction 1 as [s|s o tr s1 s2 Hstep _ IH]; intros seen old Hold Hinv; [by rewrite app_nil_r|].
  destruct (step_inv _ _ _ _ _ _ Hold Hinv Hstep) as [Hinv1 Hle]. destruct (IH (seen ++ option_list o) old) as [Hinv2 Hle2]; [lia|done|].
  rewrite <- app_assoc in Hinv2. split; [done|lia].
Qed.

Lemma inv_weaken h seen s old : net_inv h seen 0 s → net_inv h [] old s.
Proof.
  intros [Hdom Hro Hse Hf]. split; [done..| |].
  - intros n r lk _ _ _ Hin. by apply elem_of_nil in Hin.
  - intros id fl Hfl. destruct (Hf id fl Hfl) as (? & ? & ? & peer & Hk & ?). rewrite decide_False in Hk by lia. split_and!; [done..|].
    exists peer. split; [|done]. eapply knows_mono; [|exact Hk]. case_decide; lia.
Qed.

(** The first of two periods: the nodes learn one hop more. *)
Lemma period_learns h s s' : net_inv h [] 0 s → period nodes links s s' → net_inv (S h) [] (net_next s') s'.
Proof.
  intros Hinv (tr & Hrun & Hall & _). destruct (run_inv _ _ _ _ Hrun [] 0 ltac:(lia) Hinv) as [[Hdom Hro Hse Hf] _]. cbn [app] in *. split; [done| | |].
  - intros n r Hr. assert (n ∈ nodes) as Hn by (rewrite <- Hdom; by apply elem_of_dom_2 in Hr). destruct (Hro n r Hr) as (Hwf & Hid & Hk).
    split; [done|]. split; [done|]. intros Hns. split; [by apply Hk|]. intros lk Hlk. apply (Hse n r lk Hr Hns Hlk); [by apply Hall|done].
  - intros n r lk _ _ _ Hin. by apply elem_of_nil in Hin.
  - intros id fl Hfl. destruct (Hf id fl Hfl) as (Hlt & Hrest). rewrite decide_False in Hrest by lia. by rewrite decide_True by done.
Qed.

(** The second: the syncs that do not tell of it yet are gone. *)
Lemma period_flushes h s s' : net_inv h [] (net_next s) s → period nodes links s s' → net_inv h [] 0 s'.
Proof.
  intros Hinv (tr & Hrun & _ & Hnew). destruct (run_inv _ _ _ _ Hrun [] (net_next s) ltac:(lia) Hinv) as [[Hdom Hro Hse Hf] _]. split; [done..| |].
  - intros n r lk _ _ _ Hin. by apply elem_of_nil in Hin.
  - intros id fl Hfl. destruct (Hf id fl Hfl) as (Hlt & Hrest). rewrite decide_False in Hrest by (specialize (Hnew id fl Hfl); lia). by rewrite decide_False by lia.
Qed.

Lemma start_inv s : net_start nodes links s → net_inv 0 [] 0 s.
Proof.
  intros (Hdom & Hfl & Hlinked). split; [done| | |].
  - intros n r Hr. assert (n ∈ nodes) as Hn by (rewrite <- Hdom; by apply elem_of_dom_2 in Hr). pose proof (topo_keys _ _ _ Htopo n Hn) as Hnd.
    destruct (link_all n (links n) (router_new n) (router_new_wf n) eq_refl Hnd) as (r' & Hr' & Hwf & Hid & Hd).
    pose proof (Hlinked n r Hr) as Hr2. unfold node_linked in Hr2. rewrite Hr2 in Hr'. injection Hr' as <-. split; [done|]. split; [done|]. intros Hns. specialize (Hd Hns).
    assert (dest_map (dest (router_new n)) = ∅) as Hempty.
    { unfold dest. rewrite router_new_table by done. replace (table_dest (table_new n l) i) with dest_default; [done|]. symmetry. by apply arr_get_replicate. }
    rewrite Hempty in Hd. split; [|intros lk Hlk _ _ Hnear; by apply near_zero in Hnear]. split.
    + intros key a Ha. destruct (Hd key) as [Hsame Hset]. destruct (decide (key ∈ link_key <$> links n)) as [Hin|Hin].
      * apply list_elem_of_fmap in Hin as (lk & -> & Hlk). rewrite (Hset lk Hlk eq_refl) in Ha. case_decide as Hz; [|by rewrite lookup_empty in Ha].
        injection Ha as <-. destruct Hz as [Hz Hs]. split; [by apply sound_direct|]. by exists lk.
      * by rewrite Hsame, lookup_empty in Ha by done.
    + intros lk Hlk Hz Hs. destruct (Hd (link_key lk)) as [_ Hset]. rewrite (Hset lk Hlk eq_refl). by rewrite decide_True.
  - intros n r lk _ _ _ Hin. by apply elem_of_nil in Hin.
  - intros id fl Hid. by rewrite Hfl, lookup_empty in Hid.
Qed.

Lemma periods_split s a b s' : periods nodes links s (a + b) s' → ∃ s1, periods nodes links s a s1 ∧ periods nodes links s1 b s'.
Proof.
  revert s'. induction b as [|b IH]; intros s' Hp; [rewrite Nat.add_0_r in Hp; exists s'; split; [done|constructor]|].
  rewrite Nat.add_succ_r in Hp. inversion Hp as [|k s1 s2 Hp' Hper]; subst. destruct (IH s1 Hp') as (s0 & Ha & Hb). exists s0. split; [done|]. by econstructor.
Qed.

Lemma periods_inv h k : ∀ s0 s, net_start nodes links s0 → periods nodes links s0 k s → (2 * h ≤ k)%nat → net_inv h [] 0 s.
Proof.
  intros s0 s Hst Hp Hk. replace k with (2 * h + (k - 2 * h))%nat in Hp by lia. destruct (periods_split _ _ _ _ Hp) as (s1 & Hp1 & Hp2).
  assert (net_inv h [] 0 s1) as Hinv.
  { clear - Hst Hp1 Htopo Hl Hi. revert s1 Hp1. induction h as [|h IH]; intros s1 Hp1.
    - cbn in Hp1. inversion Hp1; subst. by apply start_inv.
    - replace (2 * S h)%nat with (S (S (2 * h))) in Hp1 by lia. inversion Hp1 as [|k sb sc Hpb Hper2]; subst. inversion Hpb as [|k' sa sb' Hpa Hper1]; subst.
      eapply period_flushes; [|exact Hper2]. eapply period_learns; [|exact Hper1]. by apply IH. }
  clear Hp Hp1. revert Hp2. generalize (k - 2 * h)%nat. intros j Hp2. induction Hp2 as [|j s1' s2 _ IH Hper]; [done|]. destruct Hper as (tr & Hrun & _).
  destruct (run_inv _ _ _ _ Hrun [] 0 ltac:(lia) IH) as [Hinv' _]. by apply inv_weaken with (seen := tr).
Qed.
End zone.

(** ** Periods can always be run *)

Section running.
Context (nodes : gset NodeId) (links : NodeId → list Link) (max_rtt : Z) (Htopo : topology nodes links max_rtt).

Definition start_net : Net :=
  mkNet (omap (λ o, match o with Done r => Some r | Panic => None end) (map_imap (λ n _, Some (node_linked links n)) (gset_to_gmap () nodes))) ∅ 0.

(** A sync is sent over a link and delivered at once. *)
Definition sync_link (s : Net) (x : NodeId * Link) : Net :=
  match net_routers s !! link_peer x.2, net_routers s !! x.1 with
  | Some peer, Some r =>
      match create_sync peer x.1 with
      | Done sync =>
          match receive_sync r x.2 sync with
          | Done r' => mkNet (<[x.1 := r']> (net_routers s)) (delete (net_next s) (<[net_next s := mkFlight x.1 x.2 sync]> (net_flight s))) (S (net_next s))
          | Panic => s
          end
      | Panic => s
      end
  | _, _ => s
  end.

Definition all_links : list (NodeId * Link) := elements nodes ≫= λ n, pair n <$> links n.
Definition run_period (s : Net) : Net := foldl sync_link (mkNet (net_routers s) ∅ (net_next s)) all_links.

Lemma elem_of_all_links n lk : (n, lk) ∈ all_links ↔ n ∈ nodes ∧ lk ∈ links n.
Proof.
  unfold all_links. rewrite list_elem_of_bind. split.
  - intros (n' & Hin & Hn). apply list_elem_of_fmap in Hin as (lk' & [= -> ->] & Hlk). by apply elem_of_elements in Hn.
  - intros [Hn Hlk]. exists n. split; [by apply list_elem_of_fmap_2|by apply elem_of_elements].
Qed.

Lemma run_app s tr1 s1 tr2 s2 : net_run nodes links s tr1 s1 → net_run nodes links s1 tr2 s2 → net_run nodes links s (tr1 ++ tr2) s2.
Proof. induction 1 as [|? o tr ? ? Hstep _ IH]; intros H2; [done|]. rewrite <- app_assoc. econstructor; [done|]. by apply IH. Qed.

Lemma lose_all R next m : net_run nodes links (mkNet R m next) [] (mkNet R ∅ next).
Proof.
  induction m as [|id fl m Hid IH] using map_ind; [constructor|]. apply (run_cons _ _ _ None [] (mkNet R m next)); [|done].
  pose proof (ns_lose nodes links (mkNet R (<[id := fl]> m) next) id) as Hstep. cbn [net_routers net_flight net_next] in Hstep. by rewrite delete_insert_id in Hstep.
Qed.

Section state.
Context (l i : Z) (Hl : is_layer l) (Hi : u8 i).

Lemma sync_link_run h s n lk : net_inv nodes links l i h [] 0 s → net_flight s = ∅ → n ∈ nodes → lk ∈ links n →
  net_run nodes links s [(n, lk)] (sync_link s (n, lk)) ∧ net_flight (sync_link s (n, lk)) = ∅.
Proof.
  intros Hinv Hfl Hn Hlk. destruct (topo_peer _ _ _ Htopo n lk Hn Hlk) as [Hp _]. rewrite <- (ni_dom _ _ _ _ _ _ _ _ Hinv) in Hp, Hn.
  apply elem_of_dom in Hp as [peer Hp], Hn as [r Hr]. destruct (ni_routers _ _ _ _ _ _ _ _ Hinv _ _ Hp) as (Hpwf & _).
  destruct (create_sync_spec peer n Hpwf) as (sync & Hsync & _). pose proof (ni_node _ _ _ _ _ _ _ _ _ _ Hinv Hr) as Hn.
  pose proof (ns_send nodes links s n lk peer sync Hn Hlk Hp Hsync) as Hsend.
  destruct (step_inv nodes links max_rtt Htopo l i Hl Hi _ _ _ _ _ _ (Nat.le_0_l _) Hinv Hsend) as [Hinv1 _].
  destruct (deliver_knows nodes links max_rtt Htopo l i Hl Hi _ _ _ _ (net_next s) _ r Hinv1 (lookup_insert_eq _ _ _) Hr) as (r' & Hr' & _).
  cbn [fl_link fl_sync fl_to] in Hr'. unfold sync_link. cbn [fst snd]. rewrite Hp, Hr, Hsync, Hr'. split; [|cbn [net_flight]; rewrite Hfl, delete_insert_id; done].
  apply (run_cons _ _ _ None [(n, lk)] _ _ Hsend). eapply (run_cons _ _ _ (Some (n, lk)) []).
  { exact (ns_deliver nodes links (mkNet _ _ _) (net_next s) (mkFlight n lk sync) r r' (lookup_insert_eq _ _ _) Hr Hr'). }
  apply (run_cons _ _ _ None []  _ _ (ns_lose _ _ _ (net_next s))). constructor.
Qed.

Lemma run_period_period h s : net_inv nodes links l i h [] 0 s → period nodes links s (run_period s) ∧ net_inv nodes links l i h [] 0 (run_period s).
Proof.
  intros Hinv.
  assert (∀ ls s, (∀ x, x ∈ ls → x ∈ all_links) → net_inv nodes links l i h [] 0 s → net_flight s = ∅ →
    net_run nodes links s ls (foldl sync_link s ls) ∧ net_flight (foldl sync_link s ls) = ∅) as Hall.
  { induction ls as [|[n lk] ls IH]; intros s0 Hin Hinv0 Hfl0; cbn [foldl]; [split; [constructor|done]|].
    destruct (proj1 (elem_of_all_links n lk) (Hin _ ltac:(left))) as [Hn Hlk]. destruct (sync_link_run h s0 n lk Hinv0 Hfl0 Hn Hlk) as [Hrun Hfl1].
    destruct (run_inv nodes links max_rtt Htopo l i Hl Hi _ _ _ _ Hrun [] 0 ltac:(lia) Hinv0) as [Hinv1 _]. apply inv_weaken with (old := 0%nat) in Hinv1.
    destruct (IH (sync_link s0 (n, lk))) as [Hrun2 Hfl2]; [intros x Hx; apply Hin; by right|done|done|]. split; [|done]. exact (run_app _ [(n, lk)] _ ls _ Hrun Hrun2). }
  pose proof (lose_all (net_routers s) (net_next s) (net_flight s)) as Hlose. destruct s as [R F next]. cbn [net_routers net_flight net_next] in Hlose.
  destruct (run_inv nodes links max_rtt Htopo l i Hl Hi _ _ _ _ Hlose [] 0 ltac:(lia) Hinv) as [Hinv0 _].
  destruct (Hall all_links (mkNet R ∅ next) (λ x Hx, Hx) Hinv0 eq_refl) as [Hrun Hfl]. pose proof (run_app _ _ _ _ _ Hlose Hrun) as Hrun'. cbn [app] in Hrun'.
  change (net_flight (run_period (mkNet R F next)) = ∅) in Hfl. destruct (run_inv nodes links max_rtt Htopo l i Hl Hi _ _ _ _ Hrun' [] 0 ltac:(lia) Hinv) as [Hinv' _]. split.
  - exists all_links. split; [done|]. split; [intros n lk Hn Hlk; by apply elem_of_all_links|]. intros id fl Hid. by rewrite Hfl, lookup_empty in Hid.
  - by apply inv_weaken with (seen := all_links).
Qed.
End state.

Lemma start_net_start : net_start nodes links start_net.
Proof.
  assert (∀ n, net_routers start_net !! n = a ← (gset_to_gmap () nodes !! n : option ()); match node_linked links n with Done b => Some b | Panic => None end) as Hlk.
  { intros n. cbn [start_net net_routers]. rewrite lookup_omap, map_lookup_imap. by destruct (gset_to_gmap () nodes !! n). }
  split; [|split; [done|]].
  - apply set_eq. intros n. rewrite elem_of_dom, Hlk. rewrite lookup_gset_to_gmap. case_guard as Hn; cbn; [|split; [by intros [? [=]]|done]].
    pose proof (topo_keys _ _ _ Htopo n Hn) as Hnd.
    destruct (link_all 0 0 ltac:(done) ltac:(done) n (links n) (router_new n) (router_new_wf n) eq_refl Hnd) as (r & Hr & _).
    unfold node_linked. rewrite Hr. split; eauto.
  - intros n r Hr. rewrite Hlk in Hr. destruct (gset_to_gmap () nodes !! n); cbn in Hr; [|done]. destruct (node_linked links n); [|done]. by injection Hr as ->.
Qed.

Definition run_periods (k : nat) : Net := Nat.iter k run_period start_net.

(** From the start any number of periods can be run. *)
Lemma run_periods_periods k : periods nodes links start_net k (run_periods k).
Proof.
  assert (periods nodes links start_net k (run_periods k) ∧ net_inv nodes links 0 0 0 [] 0 (run_periods k)) as [? _]; [|done].
  unfold run_periods. induction k as [|k [IHp IHi]]; cbn [Nat.iter].
  - split; [constructor|]. apply (start_inv nodes links max_rtt); [done..|apply start_net_start].
  - destruct (run_period_period 0 0 ltac:(done) ltac:(done) 0 _ IHi) as [Hp Hinv]. split; [|done]. by econstructor.
Qed.
End running.

(** ** Convergence *)

Section converged.
Context (nodes : gset NodeId) (links : NodeId → list Link) (max_rtt : Z) (k : nat) (s0 s : Net).
Context (Htopo : topology nodes links max_rtt) (Hstart : net_start nodes links s0) (Hperiods : periods nodes links s0 k s) (Hk : (2 * size nodes ≤ k)%nat).

Abbreviation routers := (net_routers s) (only parsing).

Lemma converged_inv l i : is_layer l → u8 i → net_inv nodes links l i (size nodes) [] 0 s.
Proof. intros Hl Hi. by apply (periods_inv nodes links max_rtt Htopo l i Hl Hi (size nodes) k s0). Qed.

Lemma converged_knows l i n r : is_layer l → u8 i → routers !! n = Some r → n ∈ nodes ∧ knows links l i (size nodes) n r.
Proof.
  intros Hl Hi Hr. pose proof (converged_inv l i Hl Hi) as Hinv. split; [by apply (ni_node _ _ _ _ _ _ _ _ _ _ Hinv Hr)|by apply (ni_routers _ _ _ _ _ _ _ _ Hinv)].
Qed.

(** A cheapest route is short enough to be known. *)
Lemma known_route l i n r ps lat : is_layer l → u8 i → routers !! n = Some r → ¬ sink l i n → route links l i n ps lat →
  ∃ key a, dest_map (dest l i r) !! key = Some a ∧ score a ≤ cost ps lat.
Proof.
  intros Hl Hi Hr Hns Hroute. destruct (converged_knows l i n r Hl Hi Hr) as [Hn Hkn].
  destruct (cheapest_exists nodes links max_rtt Htopo l i n ps lat Hn Hns Hroute) as (ps' & lat' & Hc & Hlen).
  apply (knows_cheapest nodes links max_rtt Htopo l i (size nodes) n r ps lat Hn Hns Hkn); [|done]. exists ps', lat'. split; [done|lia].
Qed.

(** The head of the path list of a node. *)
Lemma best_path l i n r : is_layer l → u8 i → routers !! n = Some r → ¬ sink l i n →
  match dest_paths (dest l i r) with
  | [] => ∀ ps lat, ¬ route links l i n ps lat
  | best :: _ =>
      route links l i n (reverse (hops (path_metric best))) (latency (path_metric best)) ∧
      score (path_metric best) = cost (reverse (hops (path_metric best))) (latency (path_metric best)) ∧
      (∃ lk, lk ∈ links n ∧ path_key best = link_key lk ∧ last (hops (path_metric best)) = Some (link_peer lk)) ∧
      ∀ ps lat, route links l i n ps lat → score (path_metric best) ≤ cost ps lat
  end.
Proof.
  intros Hl Hi Hr Hns. destruct (converged_knows l i n r Hl Hi Hr) as [Hn (Hwf & _ & Hm)]. destruct (Hm Hns) as [Hsound _].
  destruct (rt_table _ Hwf l Hl) as (Ht & _). pose proof (wf_dests _ Ht i Hi) as Hd. fold (dest l i r) in Hd.
  destruct (dest_paths (dest l i r)) as [|best rest] eqn:Hps.
  - intros ps lat Hroute. destruct (known_route _ _ _ _ _ _ Hl Hi Hr Hns Hroute) as (key & a & Ha & _). rewrite Hps, (proj2 (paths_map_empty []) eq_refl) in Ha. by rewrite lookup_empty in Ha.
  - assert (paths_map (best :: rest) !! path_key best = Some (path_metric best)) as Hb.
    { apply paths_map_lookup; [apply Hd|]. exists best. split; [left|done]. }
    destruct (nd_entry _ _ _ _ _ Hsound _ _ Hb) as [Hs Hvia]. split; [apply Hs|]. split; [by apply (sound_score nodes links max_rtt Htopo l i n)|].
    split; [done|]. intros ps lat Hroute. destruct (known_route _ _ _ _ _ _ Hl Hi Hr Hns Hroute) as (key & a & Ha & Hsc).
    rewrite Hps in Ha. apply paths_map_lookup in Ha as (q & Hq & _ & <-); [|apply Hd]. etransitivity; [|exact Hsc].
    pose proof (wf_sorted _ Hd) as Hsort. inversion_clear Hsort as [|? ? _ Hall]. apply elem_of_cons in Hq as [->|Hq]; [done|].
    rewrite Forall_forall in Hall. by apply Hall.
Qed.

(** ** Messages *)

(** The way of a message for [d] from node [n]: each node hands it to the next
    hop its router names, over the link the router names. *)
Inductive delivered (d : NodeId) : NodeId → list NodeId → Prop :=
| delivered_here : delivered d d []
| delivered_over n r conn lk ps :
    routers !! n = Some r → router_next r d [] = Done (Some (conn, link_peer lk)) →
    lk ∈ links n → conn_key conn = link_key lk → delivered d (link_peer lk) ps → delivered d n (link_peer lk :: ps).

Lemma router_next_best n d r best rest : routers !! n = Some r → router_wf r → router_node_id r = n → 0 < eq_util_layer n d →
  dest_paths (dest (eq_util_layer n d - 1) (byte_at d (eq_util_layer n d - 1)) r) = best :: rest →
  ∀ p, last (hops (path_metric best)) = Some p → router_next r d [] = Done (Some (path_conn best, p)).
Proof.
  intros Hr Hwf Hid Hpos Hps p Hp. pose proof (eq_util_layer_range n d) as Hrange. assert (is_layer (eq_util_layer n d - 1)) as Hl by (unfold is_layer; lia).
  unfold router_next. rewrite Hid. rewrite (proj2 (Z.eqb_neq _ _)) by lia. destruct (rt_table _ Hwf _ Hl) as (Ht & Hlay & _).
  rewrite (list_lookup_lookup_total_lt (tables r)) by (rewrite (rt_length _ Hwf); lia). fold (table_at r (eq_util_layer n d - 1)).
  unfold table_next. rewrite Hlay, layer_Done, bind_Done by (unfold is_layer in Hl; lia). unfold dest_next.
  unfold dest in Hps. rewrite next_in_empty_excepts; [|apply (wf_hops _ (wf_dests _ Ht _ (byte_at_u8 _ _)))]. rewrite Hps. cbn. by rewrite Hp.
Qed.

Lemma zone_step l n p d : is_layer l → eq_util_layer n d = l + 1 → zone l n p →
  if decide (sink l (byte_at d l) p) then eq_util_layer p d ≤ l else eq_util_layer p d = l + 1.
Proof.
  intros Hl Hnd Hz. unfold zone, sink in *. unfold is_layer in Hl. destruct (eq_util_layer_spec n d _ Hnd) as [Habove _].
  destruct (eq_util_layer_spec n p _ eq_refl) as [Hnp _]. destruct (eq_util_layer_spec p d _ eq_refl) as [Hpd Hpne].
  pose proof (eq_util_layer_range p d). pose proof (eq_util_layer_range n p).
  assert (∀ j, l + 1 ≤ j ≤ 3 → byte_at p j = byte_at d j) as Hj by (intros j Hj; rewrite <- Hnp, Habove by lia; done).
  assert (eq_util_layer p d ≤ l + 1) as Hle.
  { destruct (Z.le_gt_cases (eq_util_layer p d) (l + 1)); [done|]. exfalso. apply Hpne; [lia|]. apply Hj. lia. }
  destruct (decide (byte_at p l = byte_at d l)) as [Heq|Hne].
  - destruct (Z.le_gt_cases (eq_util_layer p d) l); [done|]. assert (eq_util_layer p d = l + 1) as Hl1 by lia. rewrite Hl1 in Hpne.
    exfalso. apply Hpne; [lia|]. by replace (l + 1 - 1) with l by lia.
  - destruct (Z.eq_dec (eq_util_layer p d) (l + 1)); [done|]. exfalso. apply Hne. apply Hpd. lia.
Qed.

(** A node that has a route hands a message on to a neighbour that is in the
    zone of the destination or has a cheaper route. *)
Lemma best_hop l d n ps lat : is_layer l → n ∈ nodes → eq_util_layer n d = l + 1 → route links l (byte_at d l) n ps lat →
  ∃ r conn lk, routers !! n = Some r ∧ router_next r d [] = Done (Some (conn, link_peer lk)) ∧ lk ∈ links n ∧ conn_key conn = link_key lk ∧
    zone l n (link_peer lk) ∧
    (¬ sink l (byte_at d l) (link_peer lk) →
     ∃ ps' lat', route links l (byte_at d l) (link_peer lk) ps' lat' ∧ 0 ≤ cost ps' lat' < cost ps lat).
Proof.
  intros Hl Hn He Hroute. set (i := byte_at d l) in *. assert (u8 i) as Hi by apply byte_at_u8.
  assert (∃ r, routers !! n = Some r) as [r Hr].
  { apply elem_of_dom. by rewrite (ni_dom _ _ _ _ _ _ _ _ (converged_inv l i Hl Hi)). }
  assert (¬ sink l i n) as Hns.
  { unfold sink, i. destruct (eq_util_layer_spec n d _ He) as [_ Hb]. replace (l + 1 - 1) with l in Hb by lia. apply Hb. unfold is_layer in Hl. lia. }
  destruct (converged_knows l i n r Hl Hi Hr) as [_ (Hwf & Hid & _)]. pose proof (best_path l i n r Hl Hi Hr Hns) as Hbest.
  destruct (dest_paths (dest l i r)) as [|best rest] eqn:Hps; [by destruct (Hbest ps lat)|]. destruct Hbest as (Hbr & Hscore & (lk & Hlk & Hkey & Hlast) & Hmin).
  exists r, (path_conn best), lk. split; [done|]. split.
  { apply (router_next_best n d r best rest Hr Hwf Hid); rewrite ?He; [unfold is_layer in Hl; lia| |exact Hlast]. replace (l + 1 - 1) with l by lia. exact Hps. }
  split; [done|]. split; [done|]. destruct (topo_peer _ _ _ Htopo n lk Hn Hlk) as [Hpn _]. pose proof (Hmin ps lat Hroute) as Hle.
  assert (head (reverse (hops (path_metric best))) = Some (link_peer lk)) as Hhead by (by rewrite head_reverse).
  inversion Hbr as [n' lk' Hlk' Hz Hs Hn' Hhs' Hlat'|n' lk' ps' lat' Hlk' Hz Hs Hr' Hn' Hhs' Hlat']; subst n'; rewrite <- Hhs' in Hhead;
    cbn in Hhead; injection Hhead as Hpeer; rewrite Hpeer in *; (split; [done|]); [done|]. intros _. exists ps', lat'. split; [done|].
  pose proof (topo_rtt _ _ _ Htopo n lk' Hn Hlk') as Hrtt. destruct (route_nodes nodes links max_rtt Htopo l i _ _ _ Hpn Hr') as [_ Hlat2].
  rewrite Hscore, <- Hhs', <- Hlat' in Hle. unfold cost, HOP_PLUS_RTT in *. cbn [length] in Hle. lia.
Qed.

(** Every other node has a route to the part of the network that agrees with
    [d] on one byte more, inside the part that agrees so far. This is not the
    connectivity of the graph: ids are hierarchical, and a route leaves neither
    the zone of its node nor that of the destination. *)
Definition zones_lead_to (d : NodeId) : Prop :=
  ∀ n, n ∈ nodes → n ≠ d → ∃ ps lat, route links (eq_util_layer n d - 1) (byte_at d (eq_util_layer n d - 1)) n ps lat.

Lemma delivery d : d ∈ nodes → zones_lead_to d → ∀ e n, n ∈ nodes → eq_util_layer n d = e → ∃ ps, delivered d n ps.
Proof.
  intros Hd Hconn e. induction e as [e IHe] using (well_founded_induction (Z.lt_wf 0)). intros n Hn He.
  destruct (decide (n = d)) as [->|Hne]; [eexists; constructor|].
  assert (0 < e) as Hpos.
  { pose proof (eq_util_layer_range n d). pose proof (eq_util_layer_zero n d (topo_id _ _ _ Htopo n Hn) (topo_id _ _ _ Htopo d Hd)). lia. }
  destruct (Hconn n Hn Hne) as (ps & lat & Hroute). rewrite He in Hroute. set (l := e - 1) in *.
  assert (is_layer l) as Hl by (pose proof (eq_util_layer_range n d); unfold is_layer; lia).
  remember (cost ps lat) as W eqn:HW. clear Hne. revert n ps lat Hn He Hroute HW.
  induction W as [W IHW] using (well_founded_induction (Z.lt_wf 0)). intros n ps lat Hn He Hroute ->.
  destruct (best_hop l d n ps lat Hl Hn ltac:(lia) Hroute) as (r & conn & lk & Hr & Hnext & Hlk & Hkey & Hz & Hcloser).
  destruct (topo_peer _ _ _ Htopo n lk Hn Hlk) as [Hpn _]. pose proof (zone_step l n (link_peer lk) d Hl ltac:(lia) Hz) as Hstep.
  assert (∃ hs, delivered d (link_peer lk) hs) as [hs Hhs]; [|eexists; by eapply delivered_over]. case_decide as Hs.
  - pose proof (eq_util_layer_range (link_peer lk) d). eapply IHe; [|done|reflexivity]. lia.
  - destruct (Hcloser Hs) as (ps' & lat' & Hr' & Hlt). by eapply (IHW _ Hlt (link_peer lk) ps' lat'); [|lia|..].
Qed.

(** A node that hands a message on has a route. *)
Lemma delivered_route d n ps : d ∈ nodes → n ∈ nodes → n ≠ d → delivered d n ps →
  ∃ ps' lat, route links (eq_util_layer n d - 1) (byte_at d (eq_util_layer n d - 1)) n ps' lat.
Proof.
  intros Hd Hn Hne Hdel. destruct Hdel as [|n r conn lk ps Hr Hnext _ _ _]; [done|]. pose proof (eq_util_layer_range n d) as Hrange.
  assert (eq_util_layer n d ≠ 0) as Hnz by (by rewrite (eq_util_layer_zero n d (topo_id _ _ _ Htopo n Hn) (topo_id _ _ _ Htopo d Hd))).
  set (l := eq_util_layer n d - 1) in *. assert (is_layer l) as Hl by (unfold is_layer, l; lia).
  destruct (eq_util_layer_spec n d _ eq_refl) as [_ Hb]. specialize (Hb ltac:(lia)). fold l in Hb.
  assert (¬ sink l (byte_at d l) n) as Hns by (unfold sink; done).
  destruct (converged_knows l (byte_at d l) n r Hl (byte_at_u8 _ _) Hr) as [_ (Hwf & Hid & _)].
  pose proof (best_path l (byte_at d l) n r Hl (byte_at_u8 _ _) Hr Hns) as Hbest.
  destruct (dest_paths (dest l (byte_at d l) r)) as [|best rest] eqn:Hps; [|destruct Hbest as [Hroute _]; by eexists _, _].
  exfalso. unfold router_next in Hnext. rewrite Hid in Hnext. rewrite (proj2 (Z.eqb_neq _ _)) in Hnext by done. fold l in Hnext.
  destruct (rt_table _ Hwf _ Hl) as (_ & Hlay & _). rewrite (list_lookup_lookup_total_lt (tables r)) in Hnext by (rewrite (rt_length _ Hwf); unfold is_layer in Hl; lia).
  fold (table_at r l) in Hnext. unfold table_next in Hnext. rewrite Hlay, layer_Done, bind_Done in Hnext by (unfold is_layer in Hl; lia).
  unfold dest_next in Hnext. unfold dest in Hps. by rewrite Hps in Hnext.
Qed.
End converged.

(** C2. Routing converges to cheapest routes. In a network with fixed links,
    after twice as many periods as there are nodes, a node has a path to an
    index of a layer exactly if there is a route to it, and its best path is
    such a route, with no route cheaper than it, whenever the nodes send their
    syncs and whatever order the network delivers them in. *)
Theorem routes_converge (nodes : gset NodeId) (links : NodeId → list Link) (max_rtt : Z) (k : nat) (s0 s : Net)
    (l i : Z) (n : NodeId) (r : Router) :
  topology nodes links max_rtt → net_start nodes links s0 → periods nodes links s0 k s → (2 * size nodes ≤ k)%nat → is_layer l → u8 i →
  net_routers s !! n = Some r → byte_at n l ≠ i →
  match dest_paths (table_dest (table_at r l) i) with
  | [] => ∀ ps lat, ¬ route links l i n ps lat
  | best :: _ =>
      route links l i n (reverse (hops (path_metric best))) (latency (path_metric best)) ∧
      (∀ ps lat, route links l i n ps lat → score (path_metric best) ≤ cost ps lat)
  end.
Proof.
  intros Htopo Hstart Hp Hk Hl Hi Hr Hns. pose proof (best_path nodes links max_rtt k s0 s Htopo Hstart Hp Hk l i n r Hl Hi Hr Hns) as Hb.
  unfold dest in Hb. destruct (dest_paths _); [done|]. tauto.
Qed.

(** C1. Messages find their node exactly if the id zones lead to it. In a
    network with fixed links, after twice as many periods as there are nodes:
    a message for [d] that is handed from next hop to next hop, as the routers
    name them, arrives after finitely many hops from every node, if and only if
    every other node has a route, inside the part of the network that agrees
    with [d] on the leading bytes of the id that the node shares with [d], to a
    node that agrees on one byte more. A connected graph alone does not give
    this ([connected_is_not_enough]). *)
Theorem messages_find_their_node (nodes : gset NodeId) (links : NodeId → list Link) (max_rtt : Z) (k : nat) (s0 s : Net) (d : NodeId) :
  topology nodes links max_rtt → net_start nodes links s0 → periods nodes links s0 k s → (2 * size nodes ≤ k)%nat → d ∈ nodes →
  (∀ n, n ∈ nodes → ∃ ps, delivered links s d n ps) ↔ zones_lead_to nodes links d.
Proof.
  intros Htopo Hstart Hp Hk Hd. split.
  - intros Hall n Hn Hne. destruct (Hall n Hn) as [ps Hdel]. by eapply (delivered_route nodes links max_rtt k s0 s Htopo Hstart Hp Hk).
  - intros Hconn n Hn. by eapply (delivery nodes links max_rtt k s0 s Htopo Hstart Hp Hk d Hd Hconn _ n Hn).
Qed.

(** ** The router feature takes these steps *)

Section feature_steps.
Context {UserData Addr Secure : Type}.
Context {sync_codec : Codec RouterSync}.
Context (links : list Link).

Abbreviation Feature := (RouterSyncFeature UserData Addr) (only parsing).

(** The connections of the feature are the links of the node. *)
Record linked (f : Feature) : Prop := {
  lf_link : ∀ lk, lk ∈ links → ∃ pair, conns f !! link_key lk = Some (mkConnInfo (link_conn lk) (link_peer lk) pair (link_metric lk));
  lf_conn : ∀ key info, conns f !! key = Some info → ∃ lk, lk ∈ links ∧ key = link_key lk;
}.

(** What the feature does while its connections stay; the network names a
    connection as it did when it came up. *)
Inductive quiet_step (f : Feature) : Feature → Prop :=
| quiet_tick order t f' : on_shared_input (Secure := Secure) order f (Tick t) = Done f' → quiet_step f f'
| quiet_net ctx meta buf f' :
    (∀ lk, lk ∈ links → conn_key (ctx_conn ctx) = link_key lk → ctx_conn ctx = link_conn lk) →
    on_input f (FNet ctx meta buf) = Done f' → quiet_step f f'
| quiet_control actor c f' : on_input f (FControl actor c) = Done f' → quiet_step f f'
| quiet_pop : quiet_step f (pop_output f).1
| quiet_shutdown : quiet_step f (on_shutdown f).

(** The sync the feature queues for a link. *)
Definition sync_out (r : Router) (lk : Link) (out : FeatureOutput UserData Event (ShadowRouterDelta NetPair) Addr) : Prop :=
  ∃ sync, create_sync r (link_peer lk) = Done sync ∧ out = OutSendDirect (link_conn lk) (mkOutgoing false 1 0 true) (serialize sync).

Lemma same_routes_refl r : same_routes r r.
Proof. done. Qed.

Lemma pops_same_routes r r' d : length (tables r) = 4%nat → pops r r' d → same_routes r r'.
Proof.
  intros Hlen Hp. split; [intros Hwf; by eapply pops_wf|by destruct Hp|]. intros l i Hl Hi. destruct Hp as [d ds _|l' d ds Hl' _|]; [done| |done].
  destruct (decide (l = l')) as [->|Hne]; [by rewrite table_at_with_eq|by rewrite table_at_with_ne].
Qed.

Lemma register_same_routes svs : Forall u8 svs → ∀ r, router_wf r → same_routes r (foldl register_service r svs).
Proof.
  intros Hs r Hwf. split; [by intros _; apply register_all_inv|..].
  - clear. revert r. induction svs as [|sv svs IH]; intros r; cbn [foldl]; [done|]. by rewrite IH.
  - intros l i _ _. clear. revert r. induction svs as [|sv svs IH]; intros r; cbn [foldl]; [done|]. by rewrite IH.
Qed.

(** The syncs a tick queues. *)
Lemma tick_syncs (r : Router) (ls : list (ConnKey * ConnInfo)) : ∀ q q',
  foldM (λ queue '(_, info), send_sync_to (UserData := UserData) (Addr := Addr) r queue (info_conn info) (info_node info)) q ls = Done q' →
  (∀ out, out ∈ q → out ∈ q') ∧
  (∀ info key, (key, info) ∈ ls → ∃ sync, create_sync r (info_node info) = Done sync ∧ OutSendDirect (info_conn info) (mkOutgoing false 1 0 true) (serialize sync) ∈ q') ∧
  ∀ out, out ∈ q' → out ∈ q ∨ ∃ info key sync, (key, info) ∈ ls ∧ create_sync r (info_node info) = Done sync ∧
    out = OutSendDirect (info_conn info) (mkOutgoing false 1 0 true) (serialize sync).
Proof.
  induction ls as [|[key info] ls IH]; intros q q' Hq; cbn [foldM] in Hq.
  { injection Hq as <-. split; [done|]. split; [by intros ? ? ?%elem_of_nil|by left]. }
  cbv beta iota in Hq. destruct (send_sync_to r q (info_conn info) (info_node info)) as [q1|] eqn:Hq1; [|done]. rewrite bind_Done in Hq.
  unfold send_sync_to in Hq1. destruct (create_sync r (info_node info)) as [sync|] eqn:Hs; [|done]. rewrite bind_Done in Hq1. injection Hq1 as <-.
  destruct (IH _ _ Hq) as (Hkeep & Hall & Hsrc). split; [intros out Hout; apply Hkeep, elem_of_app; by left|]. split.
  - intros info' key' [[= -> ->]|Hin]%elem_of_cons; [|by eapply Hall]. exists sync. split; [done|]. apply Hkeep, elem_of_snoc.
  - intros out Hout. destruct (Hsrc out Hout) as [[Hin| -> %list_elem_of_singleton]%elem_of_app|(info' & key' & sync' & Hin & Hx)]; [by left| |].
    + right. exists info, key, sync. split; [left|done].
    + right. exists info', key', sync'. split; [by right|done].
Qed.

Lemma quiet_linked f f' : linked f → conns f' = conns f → linked f'.
Proof. intros [Hl Hc] Heq. split; rewrite Heq; done. Qed.

Lemma quiet_step_spec f f' : feature_inv f → Forall u8 (services f) → linked f → quiet_step f f' →
  linked f' ∧
  (same_routes (router f) (router f') ∨ ∃ lk sync, lk ∈ links ∧ receive_sync (router f) lk sync = Done (router f')) ∧
  (∀ conn meta buf, OutSendDirect conn meta buf ∈ queue f' →
    OutSendDirect conn meta buf ∈ queue f ∨ ∃ lk, lk ∈ links ∧ sync_out (router f') lk (OutSendDirect conn meta buf)).
Proof.
  intros Hinv Hsv Hlf Hstep. pose proof (fi_router _ Hinv) as Hwf.
  destruct Hstep as [order t f' Hs|ctx meta buf f' Hctx Hs|actor [] f' Hs| |]; try cbn [on_shared_input on_input] in Hs.
  - case_match; [injection Hs as <-; by split_and!; [|left|left]|]. destruct (foldM _ _ _) as [q|] eqn:Hq; [|done]. injection Hs as <-.
    split; [by eapply quiet_linked|]. split; [left; apply register_same_routes; [by apply Forall_reverse|done]|]. cbn [router queue].
    intros conn meta buf Hin. destruct (tick_syncs _ _ _ _ Hq) as (_ & _ & Hsrc). destruct (Hsrc _ Hin) as [?|(info & key & sync & Hi & Hsync & Hout)]; [by left|].
    right. apply elem_of_hash_iter in Hi. destruct (lf_conn _ Hlf _ _ Hi) as (lk & Hlk & ->). destruct (lf_link _ Hlf lk Hlk) as [pair Hpair].
    rewrite Hi in Hpair. injection Hpair as ->. exists lk. split; [done|]. by exists sync.
  - destruct (negb _); [injection Hs as <-; by split_and!; [|left|left]|]. destruct (conns f !! conn_key (ctx_conn ctx)) as [info|] eqn:Hi; [|injection Hs as <-; by split_and!; [|left|left]].
    destruct (deserialize buf) as [sync|]; [|injection Hs as <-; by split_and!; [|left|left]]. destruct (lf_conn _ Hlf _ _ Hi) as (lk & Hlk & Hkey).
    destruct (lf_link _ Hlf lk Hlk) as [pair Hpair]. rewrite <- Hkey, Hi in Hpair. injection Hpair as ->. cbn [info_metric] in Hs. rewrite (Hctx lk Hlk Hkey) in Hs.
    destruct (apply_sync _ _ _ _) as [r'|] eqn:Hr; [|done]. injection Hs as <-. split; [by eapply quiet_linked|]. split; [right; by exists lk, sync|by left].
  - destruct (router_dump _) as [d|]; [|done]. injection Hs as <-. split; [by eapply quiet_linked|]. split; [by left|]. cbn [queue].
    intros conn meta buf [Hin|Hin%list_elem_of_singleton]%elem_of_app; [by left|discriminate Hin].
  - pose proof (router_pop_delta_spec (router f)) as Hpop. unfold pop_output. destruct (router_pop_delta (router f)) as [r' [d|]]; cbn [fst snd] in Hpop.
    + apply pops_same_routes in Hpop; [|apply Hwf]. case_match; (split; [by eapply quiet_linked|]; split; by left).
    + destruct (queue f) as [|out rest] eqn:Hq; [cbn [fst]; rewrite Hq; split_and!; [done|by left|by left]|]. split; [by eapply quiet_linked|]. split; [by left|].
      cbn [fst queue]. left. by right.
  - split; [by eapply quiet_linked|]. split; by left.
Qed.

Lemma tick_sends f order t f' : linked f → 1 ≤ t → on_shared_input (Secure := Secure) order f (Tick t) = Done f' →
  ∀ lk, lk ∈ links → ∃ out, out ∈ queue f' ∧ sync_out (router f') lk out.
Proof.
  intros Hlf Ht Hs lk Hlk. cbn [on_shared_input] in Hs. rewrite (proj2 (Z.ltb_ge _ _)) in Hs by done.
  destruct (foldM _ _ _) as [q|] eqn:Hq; [|done]. injection Hs as <-. cbn [queue router]. destruct (tick_syncs _ _ _ _ Hq) as (_ & Hall & _).
  destruct (lf_link _ Hlf lk Hlk) as [pair Hpair]. apply elem_of_hash_iter in Hpair. destruct (Hall _ _ Hpair) as (sync & Hsync & Hin).
  eexists. split; [exact Hin|]. by exists sync.
Qed.

Lemma feature_link_up order (f : Feature) lk pair sec stats (f1 f2 : Feature) : conns f !! link_key lk = None → u16 (link_rtt lk) → rtt_ms stats = link_rtt lk →
  on_shared_input (Secure := Secure) order f (Connection (Connected (mkConnectionCtx (link_conn lk) (link_peer lk) pair) sec)) = Done f1 →
  on_shared_input (Secure := Secure) order f1 (Connection (Stats (mkConnectionCtx (link_conn lk) (link_peer lk) pair) stats)) = Done f2 →
  link_up (router f) lk = Done (router f2) ∧ conns f2 = <[link_key lk := mkConnInfo (link_conn lk) (link_peer lk) pair (link_metric lk)]> (conns f).
Proof.
  intros Hnone Hu Hrtt Hc Hs. cbn [on_shared_input ctx_conn ctx_node ctx_pair] in Hc, Hs. cbv zeta in Hc, Hs. unfold conns_insert in Hc, Hs. fold (link_key lk) in Hc, Hs. rewrite Hnone in Hc.
  unfold link_up. destruct (set_direct (router f) _ _) as [r1|]; [|done]. rewrite bind_Done in Hc. rewrite bind_Done.
  destruct (send_sync_to _ _ _ _) as [q|]; [|done]. injection Hc as <-. cbn [router conns] in Hs. rewrite Hrtt, wrap_small in Hs by exact Hu.
  fold (link_metric lk) in Hs. destruct (set_direct r1 _ _) as [r2|]; [|done]. injection Hs as <-. cbn [router conns]. split; [done|].
  by rewrite lookup_insert_eq, insert_insert_eq.
Qed.
End feature_steps.

(** C6. The router feature takes the steps of the network: a connection that
    comes up and reports its round trip time is a link, every later input that
    leaves the connections alone either keeps the routes or applies one sync of
    one link, the messages it queues are syncs of its routes for its links, and
    a tick queues one for every link. *)
Theorem router_feature_takes_net_steps {UserData Addr Secure : Type} {sync_codec : Codec RouterSync} (links : list Link)
    (f : RouterSyncFeature UserData Addr) :
  feature_inv f → Forall u8 (services f) → linked links f →
  (∀ f', quiet_step (Secure := Secure) links f f' →
    linked links f' ∧
    (same_routes (router f) (router f') ∨ ∃ lk sync, lk ∈ links ∧ receive_sync (router f) lk sync = Done (router f')) ∧
    (∀ conn meta buf, OutSendDirect conn meta buf ∈ queue f' →
      OutSendDirect conn meta buf ∈ queue f ∨ ∃ lk, lk ∈ links ∧ sync_out (UserData := UserData) (Addr := Addr) (router f') lk (OutSendDirect conn meta buf))) ∧
  (∀ order t f', 1 ≤ t → on_shared_input (Secure := Secure) order f (Tick t) = Done f' →
    ∀ lk, lk ∈ links → ∃ out, out ∈ queue f' ∧ sync_out (router f') lk out) ∧
  (∀ order lk pair sec stats f1 f2, conns f !! link_key lk = None → u16 (link_rtt lk) → rtt_ms stats = link_rtt lk →
    on_shared_input (Secure := Secure) order f (Connection (Connected (mkConnectionCtx (link_conn lk) (link_peer lk) pair) sec)) = Done f1 →
    on_shared_input (Secure := Secure) order f1 (Connection (Stats (mkConnectionCtx (link_conn lk) (link_peer lk) pair) stats)) = Done f2 →
    link_up (router f) lk = Done (router f2) ∧ linked (lk :: links) f2).
Proof.
  intros Hinv Hsv Hlf. split; [intros f'; by apply quiet_step_spec|]. split; [intros; by eapply tick_sends|].
  intros order lk pair sec stats f1 f2 Hnone Hu Hrtt Hc Hs. destruct (feature_link_up _ _ _ _ _ _ _ _ Hnone Hu Hrtt Hc Hs) as [Hup Hconns]. split; [done|].
  split; rewrite Hconns.
  - intros lk' [->|Hlk']%elem_of_cons; [rewrite lookup_insert_eq; by eexists|]. destruct (lf_link _ _ Hlf lk' Hlk') as [pair' Hp].
    rewrite lookup_insert_ne by congruence. by exists pair'.
  - intros key info [[<- _]|[_ Hk]]%lookup_insert_Some; [exists lk; split; [left|done]|]. destruct (lf_conn _ _ Hlf key info Hk) as (lk' & Hlk' & ->).
    exists lk'. split; [by right|done].
Qed.

(** ** A network to evaluate with

    Nodes 1, 2 and 3 of one group in a row, and node 257 of the next group
    behind node 3. *)

Fixpoint forward (fuel : nat) (routers : gmap NodeId Router) (n d : NodeId) : list NodeId :=
  match fuel, routers !! n with
  | S fuel, Some r =>
      match router_next r d [] with
      | Done (Some (_, p)) => p :: forward fuel routers p d
      | _ => []
      end
  | _, _ => []
  end.

Definition demo_edges : list (NodeId * NodeId * Z) := [(1, 2, 20); (2, 3, 30); (3, 257, 40); (1, 3, 90)].
Definition demo_links (n : NodeId) : list Link :=
  omap (λ e, if e.1.1 =? n then Some (mkLink (from_out 0 e.2) e.1.2 e.2) else if e.1.2 =? n then Some (mkLink (from_in 0 e.2) e.1.1 e.2) else None) demo_edges.
Definition demo_nodes : gset NodeId := {[1; 2; 3; 257]}.
Definition demo_net (k : nat) : Net := run_periods demo_nodes demo_links k.

Example demo_forward : forward 5 (net_routers (demo_net 8)) 1 257 = [2; 3; 257].
Proof. vm_compute. reflexivity. Qed.

Lemma demo_node_cases n : n ∈ demo_nodes → n = 1 ∨ n = 2 ∨ n = 3 ∨ n = 257.
Proof. unfold demo_nodes. rewrite !elem_of_union, !elem_of_singleton. tauto. Qed.

Lemma demo_topology : topology demo_nodes demo_links 90.
Proof.
  assert (∀ n lk, n ∈ demo_nodes → lk ∈ demo_links n →
    (link_peer lk ∈ demo_nodes ∧ link_peer lk ≠ n) ∧ 0 ≤ link_rtt lk ≤ 90) as Hlk.
  { intros n lk Hn. revert lk. apply Forall_forall. destruct (demo_node_cases n Hn) as [->|[->|[->| ->]]]; cbn;
      repeat (apply Forall_cons; split; [split; [split; [by vm_compute|done]|by vm_compute; split]|]); by apply Forall_nil. }
  split; [| |..|by vm_compute].
  - intros n Hn. destruct (demo_node_cases n Hn) as [->|[->|[->| ->]]]; done.
  - intros n lk Hn Hin. by apply Hlk.
  - intros n Hn. apply (bool_decide_unpack _). destruct (demo_node_cases n Hn) as [->|[->|[->| ->]]]; by vm_compute.
  - intros n lk Hn Hin. by apply (Hlk n lk).
Qed.

Lemma demo_net_connected : zones_lead_to demo_nodes demo_links 257.
Proof.
  assert (route demo_links 1 1 3 [257] 40) as H3 by (by apply (route_direct demo_links 1 1 3 (mkLink (from_out 0 40) 257 40)); [right; left|..]).
  assert (route demo_links 1 1 2 [3; 257] (30 + 40)) as H2 by (by apply (route_step demo_links 1 1 2 (mkLink (from_out 0 30) 3 30)); [right; left|..]).
  assert (route demo_links 1 1 1 [2; 3; 257] (20 + (30 + 40))) as H1 by (by apply (route_step demo_links 1 1 1 (mkLink (from_out 0 20) 2 20)); [left|..]).
  intros n Hn Hne. destruct (demo_node_cases n Hn) as [->|[->|[->| ->]]]; [by eexists _, _..|done].
Qed.

Lemma routes_converge_witness :
  ∃ r best rest, net_routers (demo_net 8) !! 1 = Some r ∧ dest_paths (table_dest (table_at r 1) 1) = best :: rest ∧
    hops (path_metric best) = [257; 3; 2] ∧
    ∀ ps lat, route demo_links 1 1 1 ps lat → score (path_metric best) ≤ cost ps lat.
Proof.
  assert (2 * size demo_nodes ≤ 8)%nat as Hsize by (by vm_compute). assert (is_layer 1) as Hl by done. assert (u8 1) as Hi by done.
  assert (byte_at 1 1 ≠ 1) as Hne by (vm_compute; discriminate).
  pose proof (λ r Hr, routes_converge demo_nodes demo_links 90 8 (start_net demo_nodes demo_links) (demo_net 8) 1 1 1 r demo_topology
    (start_net_start _ _ _ demo_topology) (run_periods_periods _ _ _ demo_topology 8) Hsize Hl Hi Hr Hne) as Hbest.
  assert ((λ r, hops ∘ path_metric <$> dest_paths (table_dest (table_at r 1) 1)) <$> net_routers (demo_net 8) !! 1 = Some [[257; 3; 2]; [257; 3]]) as Hhops
    by (vm_compute; reflexivity).
  revert Hhops Hbest. generalize (net_routers (demo_net 8)) as routers. intros routers Hhops Hbest.
  destruct (routers !! 1) as [r|] eqn:Hr; [|discriminate Hhops]. exists r. specialize (Hbest r eq_refl). cbn [fmap option_fmap option_map] in Hhops.
  destruct (dest_paths _) as [|best rest]; [discriminate Hhops|]. exists best, rest. injection Hhops as Hh _.
  split; [done|]. split; [done|]. split; [done|]. apply Hbest.
Defined.

Lemma messages_find_their_node_witness : ∃ ps, delivered demo_links (demo_net 8) 257 1 ps.
Proof.
  apply (messages_find_their_node demo_nodes demo_links 90 8 (start_net demo_nodes demo_links) (demo_net 8) 257 demo_topology
    (start_net_start _ _ _ demo_topology) (run_periods_periods _ _ _ demo_topology 8) ltac:(by vm_compute)
    ltac:(by vm_compute)); [exact demo_net_connected|by vm_compute].
Defined.

(** Nodes 1 and 2 of one group that are linked only over node 257 of another
    group: the graph is connected, the group is not, and node 1 has no next hop
    for node 2, however long the network runs. *)
Definition split_edges : list (NodeId * NodeId * Z) := [(1, 257, 20); (257, 2, 20)].
Definition split_links (n : NodeId) : list Link :=
  omap (λ e, if e.1.1 =? n then Some (mkLink (from_out 0 e.1.2) e.1.2 e.2) else if e.1.2 =? n then Some (mkLink (from_in 0 e.1.1) e.1.1 e.2) else None) split_edges.

Example connected_is_not_enough :
  let routers := net_routers (run_periods {[1; 2; 257]} split_links 6) in
  forward 3 routers 1 257 = [257] ∧ forward 3 routers 2 257 = [257] ∧ forward 3 routers 1 2 = [].
Proof. vm_compute. auto. Qed.

Definition demo_link : Link := mkLink (ctx_conn demo_ctx) (ctx_node demo_ctx) 30.

Lemma router_feature_takes_net_steps_witness :
  ∃ (f2 f3 : RouterSyncFeature unit unit) out,
    link_up (router demo_start) demo_link = Done (router f2) ∧
    on_shared_input (Secure := unit) (sync_codec := demo_codec) canonical_order f2 (Tick 1) = Done f3 ∧
    out ∈ queue f3 ∧ sync_out (sync_codec := demo_codec) (router f3) demo_link out.
Proof.
  assert (feature_inv demo_start) as Hinv0 by apply router_sync_new_inv. assert (Forall u8 (services demo_start)) as Hsv0 by (apply Forall_singleton; done).
  assert (linked [] demo_start) as Hl0 by (split; [by intros lk ?%elem_of_nil|intros key info Hk; cbn in Hk; by rewrite lookup_empty in Hk]).
  destruct (on_shared_input_inv (Secure := unit) (sync_codec := demo_codec) canonical_order demo_start (Connection (Connected demo_ctx ())) Hinv0 Hsv0) as (f1 & Hf1 & Hinv1 & Hsv1).
  destruct (on_shared_input_inv (Secure := unit) (sync_codec := demo_codec) canonical_order f1 (Connection (Stats demo_ctx (mkConnectionStats 30))) Hinv1 Hsv1) as (f2 & Hf2 & Hinv2 & Hsv2).
  destruct (on_shared_input_inv (Secure := unit) (sync_codec := demo_codec) canonical_order f2 (Tick 1) Hinv2 Hsv2) as (f3 & Hf3 & _).
  destruct (router_feature_takes_net_steps (Secure := unit) (sync_codec := demo_codec) [] demo_start Hinv0 Hsv0 Hl0) as (_ & _ & Hup).
  destruct (Hup canonical_order demo_link demo_pair () (mkConnectionStats 30) f1 f2 ltac:(done) ltac:(done) eq_refl Hf1 Hf2) as [Hlink Hl2].
  destruct (router_feature_takes_net_steps (Secure := unit) (sync_codec := demo_codec) [demo_link] f2 Hinv2 Hsv2 Hl2) as (_ & Htick & _).
  destruct (Htick canonical_order 1 f3 ltac:(done) Hf3 demo_link ltac:(left)) as (out & Hin & Hout). exists f2, f3, out. split_and!; assumption.
Defined.
