(* ===== verification/KeyOwner.v ===== *)
(** * Every key has one owner

    Messages for a key are handed from node to node by [closest_node]
    ([core/router.rs]). In a network whose routes have converged they all end
    at the same node, wherever they start: the one whose id is closest to the
    key. This is what the relays of a dht map and of a channel rely on. *)

From S2P Require Import Prelude NodeId ConnId Metric Paths Dest Table Registry Router RouterSync RouterConverge.

(** ** Distances *)

Lemma lxor_u8 a b : u8 a → u8 b → u8 (Z.lxor a b).
Proof.
  intros Ha Hb. rewrite <- (wrap_small 8 a), <- (wrap_small 8 b) by done. fold (byte_at a 0) (byte_at b 0).
  pose proof (byte_at_lxor a b 0 ltac:(lia)) as Hx. unfold byte_at in Hx |- *. cbn [Z.mul] in *. rewrite !Z.shiftr_0_r in *. rewrite <- Hx. apply wrap_range. lia.
Qed.

(** Of two nodes that agree above a layer, the one that is closer in the layer
    is closer. *)
Lemma closer_in_layer a b key l :
  u32 a → u32 b → u32 key → is_layer l → zone l a b →
  Z.lxor (byte_at a l) (byte_at key l) < Z.lxor (byte_at b l) (byte_at key l) → distance a key < distance b key.
Proof.
  intros Ha Hb Hk Hl Hz Hlt. pose proof (distance_u32 a key Ha Hk) as Hda. pose proof (distance_u32 b key Hb Hk) as Hdb. unfold distance in *.
  rewrite (id_bytes _ Hda), (id_bytes _ Hdb), !byte_at_lxor by lia. unfold zone in Hz. destruct (eq_util_layer_spec a b _ eq_refl) as [Heq _].
  assert (∀ j, u8 (Z.lxor (byte_at a j) (byte_at key j)) ∧ u8 (Z.lxor (byte_at b j) (byte_at key j))) as Hu by (intros j; split; apply lxor_u8; apply byte_at_u8).
  assert (∀ j, l < j ≤ 3 → byte_at a j = byte_at b j) as Hj by (intros j ?; apply Heq; lia).
  pose proof (Hu 0). pose proof (Hu 1). pose proof (Hu 2). pose proof (Hu 3). unfold u8 in *. change (2 ^ 8) with 256 in *. change (2 ^ 16) with 65536. change (2 ^ 24) with 16777216.
  apply is_layer_cases in Hl. destruct Hl as [->|[->|[->| ->]]]; rewrite ?(Hj 1), ?(Hj 2), ?(Hj 3) in * by lia; lia.
Qed.

Lemma lxor_inj a b k : Z.lxor a k = Z.lxor b k → a = b.
Proof. intros Heq. rewrite <- (Z.lxor_0_r a), <- (Z.lxor_0_r b), <- (Z.lxor_nilpotent k), <- !Z.lxor_assoc. by rewrite Heq. Qed.

Lemma route_sink links l i n ps lat : route links l i n ps lat → ∃ m, m ∈ ps ∧ sink l i m.
Proof.
  induction 1 as [n lk Hlk Hz Hs|n lk ps lat Hlk Hz Hs Hr (m & Hm & Hsm)]; [exists (link_peer lk); split; [left|done]|]. exists m. split; [by right|done].
Qed.

(** ** The owner of a key *)

Section owner.
Context (nodes : gset NodeId) (links : NodeId → list Link) (max_rtt : Z) (k : nat) (s0 s : Net).
Context (Htopo : topology nodes links max_rtt) (Hstart : net_start nodes links s0) (Hperiods : periods nodes links s0 k s) (Hk : (2 * size nodes ≤ k)%nat).
Context (key owner : NodeId) (Hkey : u32 key) (Howner : owner ∈ nodes) (Hclosest : ∀ m, m ∈ nodes → distance owner key ≤ distance m key).
Context (Hconn : zones_lead_to nodes links owner).

(** An index a node has a path to is that of a node of the zone. *)
Lemma known_index n r l i : net_routers s !! n = Some r → is_layer l → u8 i → i ≠ byte_at n l →
  dest_next (table_dest (table_at r l) i) [] ≠ Done None → ∃ m, m ∈ nodes ∧ zone l n m ∧ byte_at m l = i.
Proof.
  intros Hr Hl Hi Hne Hd. assert (¬ sink l i n) as Hns by (unfold sink; congruence).
  pose proof (best_path nodes links max_rtt k s0 s Htopo Hstart Hperiods Hk l i n r Hl Hi Hr Hns) as Hbest. unfold dest in Hbest.
  destruct (dest_paths (table_dest (table_at r l) i)) as [|best rest] eqn:Hps; [destruct Hd; unfold dest_next; by rewrite Hps|].
  destruct Hbest as (Hroute & _). destruct (route_sink _ _ _ _ _ _ Hroute) as (m & Hm & Hs).
  destruct (converged_knows nodes links max_rtt k s0 s Htopo Hstart Hperiods Hk l i n r Hl Hi Hr) as [Hn _].
  destruct (route_nodes nodes links max_rtt Htopo l i _ _ _ Hn Hroute) as [Hin _]. destruct (Hin m Hm) as [Hmn Hz]. by exists m.
Qed.

(** Nobody in the zone of the owner is closer in a layer. *)
Lemma owner_closest l m : is_layer l → m ∈ nodes → zone l owner m →
  Z.lxor (byte_at owner l) (byte_at key l) ≤ Z.lxor (byte_at m l) (byte_at key l).
Proof.
  intros Hl Hm Hz. destruct (Z.le_gt_cases (Z.lxor (byte_at owner l) (byte_at key l)) (Z.lxor (byte_at m l) (byte_at key l))) as [|Hlt]; [done|].
  exfalso. pose proof (Hclosest m Hm). pose proof (closer_in_layer m owner key l (topo_id _ _ _ Htopo m Hm) (topo_id _ _ _ Htopo _ Howner) Hkey Hl (zone_sym _ _ _ Hz) Hlt). lia.
Qed.

Lemma node_router n : n ∈ nodes → ∃ r, net_routers s !! n = Some r ∧ router_wf r ∧ router_node_id r = n.
Proof.
  intros Hn. pose proof (converged_inv nodes links max_rtt k s0 s Htopo Hstart Hperiods Hk 0 0 ltac:(done) ltac:(done)) as Hinv.
  rewrite <- (ni_dom _ _ _ _ _ _ _ _ Hinv) in Hn. apply elem_of_dom in Hn as [r Hr]. exists r. split; [done|].
  by destruct (ni_routers _ _ _ _ _ _ _ _ Hinv n r Hr) as (? & ? & _).
Qed.

(** A message for the key stays with the owner. *)
Lemma owner_keeps r : net_routers s !! owner = Some r → closest_node r key [] = Done None.
Proof.
  intros Hr. destruct (node_router owner Howner) as (r' & Hr' & Hwf & Hid). rewrite Hr in Hr'. injection Hr' as <-.
  destruct (closest_node_layers r key [] Hwf) as (res & Hres & Hans). rewrite Hres. destruct res as [[[[c n] l] i]|]; [|done]. exfalso.
  destruct Hans as (Hl & Hi & Hd & Hlt & _). rewrite Hid in Hlt.
  destruct (known_index owner r l i Hr Hl Hi ltac:(intros ->; lia)) as (m & Hm & Hz & Hb); [by rewrite Hd|].
  pose proof (owner_closest l m Hl Hm Hz). rewrite Hb in *. lia.
Qed.

(** Every other node hands it on as a message to the owner. *)
Lemma closest_is_next n r : n ∈ nodes → n ≠ owner → net_routers s !! n = Some r →
  ∃ c p l i, closest_node r key [] = Done (Some (c, p, l, i)) ∧ router_next r owner [] = Done (Some (c, p)).
Proof.
  intros Hn Hne Hr. destruct (node_router n Hn) as (r' & Hr' & Hwf & Hid). rewrite Hr in Hr'. injection Hr' as <-.
  pose proof (eq_util_layer_range n owner) as Hrange.
  assert (eq_util_layer n owner ≠ 0) as Hnz by (rewrite (eq_util_layer_zero n owner (topo_id _ _ _ Htopo n Hn) (topo_id _ _ _ Htopo _ Howner)); done).
  set (l := eq_util_layer n owner - 1) in *. assert (is_layer l) as Hl by (unfold is_layer, l; lia).
  assert (zone l n owner) as Hz by (unfold zone, l; lia). destruct (eq_util_layer_spec n owner _ eq_refl) as [_ Hdiff]. specialize (Hdiff ltac:(lia)). fold l in Hdiff.
  assert (dest_next (table_dest (table_at r l) (byte_at owner l)) [] = router_next r owner []) as Hnext.
  { unfold router_next. rewrite Hid. rewrite (proj2 (Z.eqb_neq _ _)) by done. destruct (rt_table _ Hwf _ Hl) as (_ & Hlay & _).
    rewrite (list_lookup_lookup_total_lt (tables r)) by (rewrite (rt_length _ Hwf); lia). fold l. fold (table_at r l). unfold table_next. rewrite Hlay, layer_Done, bind_Done by (unfold is_layer in Hl; lia). done. }
  assert (∃ c p, dest_next (table_dest (table_at r l) (byte_at owner l)) [] = Done (Some (c, p))) as (c0 & p0 & Hd0).
  { destruct (Hconn n Hn Hne) as (ps & lat & Hroute). fold l in Hroute. destruct (rt_table _ Hwf _ Hl) as (Ht & _).
    destruct (best_hop nodes links max_rtt k s0 s Htopo Hstart Hperiods Hk l owner n ps lat Hl Hn ltac:(unfold l; lia) Hroute) as (r2 & conn & lk & Hr2 & Hx & _).
    rewrite Hr in Hr2. injection Hr2 as <-. rewrite Hnext, Hx. by eexists _, _. }
  assert (Z.lxor (byte_at owner l) (byte_at key l) < Z.lxor (byte_at n l) (byte_at key l)) as Hcloser.
  { pose proof (owner_closest l n Hl Hn (zone_sym _ _ _ Hz)). assert (Z.lxor (byte_at owner l) (byte_at key l) ≠ Z.lxor (byte_at n l) (byte_at key l)); [|lia].
    intros Heq%lxor_inj. congruence. }
  assert (¬ stays r key [] l) as Hgo.
  { intros Hst. specialize (Hst _ (byte_at_u8 owner l)). rewrite Hid, Hd0 in Hst. specialize (Hst ltac:(done)). lia. }
  assert (∀ l' i, is_layer l' → u8 i → l ≤ l' → i ≠ byte_at n l' → dest_next (table_dest (table_at r l') i) [] ≠ Done None →
    Z.lxor (byte_at owner l') (byte_at key l') ≤ Z.lxor i (byte_at key l')) as Hmin.
  { intros l' i Hl' Hi Hle Hni Hd. destruct (known_index n r l' i Hr Hl' Hi Hni Hd) as (m & Hm & Hzm & <-). apply owner_closest; [done..|].
    eapply zone_trans; [|exact Hzm]. apply zone_sym. unfold zone in *. lia. }
  destruct (closest_node_layers r key [] Hwf) as (res & Hres & Hans). rewrite Hres. destruct res as [[[[c p] l'] i]|]; [|by destruct Hgo; apply Hans].
  destruct Hans as (Hl' & Hi & Hd & Hlt & Hbest & Habove). rewrite Hid in Hlt.
  assert (l ≤ l') as Hle by (destruct (Z.le_gt_cases l l'); [done|]; exfalso; apply Hgo, Habove; [done|lia]).
  pose proof (Hmin l' i Hl' Hi Hle ltac:(intros ->; lia) ltac:(by rewrite Hd)) as Hge.
  assert (l' = l) as ->.
  { destruct (Z.eq_dec l' l); [done|]. exfalso. destruct (eq_util_layer_spec n owner _ eq_refl) as [Heq _]. rewrite (Heq l') in Hlt by (unfold is_layer in Hl'; lia). lia. }
  assert (i = byte_at owner l) as ->.
  { apply (lxor_inj _ _ (byte_at key l)). specialize (Hbest _ (byte_at_u8 owner l)). rewrite Hd0 in Hbest. specialize (Hbest ltac:(done)). lia. }
  exists c, p, l, (byte_at owner l). split; [done|]. by rewrite <- Hnext.
Qed.

(** The way of a message for the key. *)
Inductive key_route : NodeId → list NodeId → Prop :=
| key_kept n r : net_routers s !! n = Some r → closest_node r key [] = Done None → key_route n []
| key_passed n r c p l i ps :
    net_routers s !! n = Some r → closest_node r key [] = Done (Some (c, p, l, i)) → key_route p ps → key_route n (p :: ps).

Lemma delivered_key n ps : n ∈ nodes → delivered links s owner n ps → key_route n ps ∧ (last ps = Some owner ∨ n = owner ∧ ps = []).
Proof.
  intros Hn Hd. induction Hd as [|n r conn lk ps Hr Hnext Hlk Hkey' Hd IH].
  - destruct (node_router owner Howner) as (r & Hr & _). split; [|by right]. eapply key_kept; [exact Hr|]. by apply owner_keeps.
  - assert (n ≠ owner) as Hne.
    { intros ->. unfold router_next in Hnext. destruct (node_router owner Howner) as (r' & Hr' & _ & Hid). rewrite Hr in Hr'. injection Hr' as <-.
      rewrite Hid in Hnext. rewrite (proj2 (eq_util_layer_zero owner owner (topo_id _ _ _ Htopo _ Howner) (topo_id _ _ _ Htopo _ Howner)) eq_refl) in Hnext. done. }
    destruct (topo_peer _ _ _ Htopo n lk Hn Hlk) as [Hp _]. destruct (IH Hp) as [Hk' Hlast].
    destruct (closest_is_next n r Hn Hne Hr) as (c & p & l & i & Hc & Hnext'). rewrite Hnext in Hnext'. injection Hnext' as <- <-. split.
    + by eapply key_passed.
    + left. destruct Hlast as [Hlast|[<- ->]]; [|done]. by destruct ps.
Qed.
End owner.

(** C3. Every key has one owner: the node whose id is closest to it, of which
    there is exactly one. In a network with fixed links, after twice as many
    periods as there are nodes, a message for the key that is handed on as
    [closest_node] says ends at the owner, from whatever node it starts, if the
    id zones lead to the owner: every other node has a route, inside the part of
    the network that shares its leading id bytes with the owner, to a node that
    shares one byte more. *)
Theorem keys_have_one_owner (nodes : gset NodeId) (links : NodeId → list Link) (max_rtt : Z) (k : nat) (s0 s : Net) (key : NodeId) :
  topology nodes links max_rtt → net_start nodes links s0 → periods nodes links s0 k s → (2 * size nodes ≤ k)%nat →
  u32 key → nodes ≠ ∅ →
  ∃ owner, owner ∈ nodes ∧ (∀ m, m ∈ nodes → m ≠ owner → distance owner key < distance m key) ∧
    (zones_lead_to nodes links owner → ∀ n, n ∈ nodes → ∃ ps, key_route s key n ps ∧ last (n :: ps) = Some owner).
Proof.
  intros Htopo Hstart Hp Hk Hkey Hne. destruct (list_argmin (λ m, distance m key) (elements nodes)) as (owner & Ho & Hmin).
  { intros He. apply Hne. by apply elements_empty_inv in He; apply leibniz_equiv. }
  apply elem_of_elements in Ho. assert (∀ m, m ∈ nodes → distance owner key ≤ distance m key) as Hclosest by (intros m Hm; apply Hmin; by apply elem_of_elements).
  exists owner. split; [done|]. split.
  - intros m Hm Hmo. specialize (Hclosest m Hm). assert (distance owner key ≠ distance m key); [|lia]. unfold distance. intros Heq%lxor_inj. congruence.
  - intros Hconn n Hn. destruct (delivery nodes links max_rtt k s0 s Htopo Hstart Hp Hk owner Ho Hconn _ n Hn eq_refl) as [ps Hd].
    destruct (delivered_key nodes links max_rtt k s0 s Htopo Hstart Hp Hk key owner Hkey Ho Hclosest Hconn n ps Hn Hd) as [Hkr Hlast].
    exists ps. split; [done|]. destruct Hlast as [Hlast|[-> ->]]; [|done]. destruct ps; [done|]. done.
Qed.

Lemma demo_all_connected d : d ∈ demo_nodes → zones_lead_to demo_nodes demo_links d.
Proof.
  assert (∀ l i n r, head (routes_upto demo_links l i 4 n) = Some r → ∃ ps lat, route demo_links l i n ps lat) as Hroute.
  { intros l i n [ps lat] Hh. exists ps, lat. apply (routes_upto_spec demo_links l i 4). destruct (routes_upto demo_links l i 4 n); [done|]. injection Hh as ->. left. }
  intros Hd n Hn Hne. destruct (demo_node_cases d Hd) as [->|[->|[->| ->]]]; destruct (demo_node_cases n Hn) as [->|[->|[->| ->]]]; try done;
    (eapply Hroute; vm_compute; reflexivity).
Qed.

Lemma keys_have_one_owner_witness :
  ∃ owner, (∀ m, m ∈ demo_nodes → m ≠ owner → distance owner 256 < distance m 256) ∧
    ∃ ps, key_route (demo_net 8) 256 1 ps ∧ last (1 :: ps) = Some owner.
Proof.
  destruct (keys_have_one_owner demo_nodes demo_links 90 8 (start_net demo_nodes demo_links) (demo_net 8) 256 demo_topology
    (start_net_start _ _ _ demo_topology) (run_periods_periods _ _ _ demo_topology 8) ltac:(by vm_compute) ltac:(done) ltac:(by vm_compute))
    as (owner & Ho & Hmin & Hall). exists owner. split; [exact Hmin|]. exact (Hall (demo_all_connected owner Ho) 1 ltac:(by vm_compute)).
Defined.
