(* ===== verification/Control.v ===== *)
(** * Signed control messages between neighbours ([packages/network/src/base/control.rs],
    [base/secure.rs], [secure/authorization/static_key.rs])

    A command travels as its encoding together with the time it was made,
    signed by an [Authorization]. The [bincode] codec, which refuses to encode
    or decode more than 1499 bytes here, and SHA-256 are parameters. *)

From S2P Require Import Prelude NodeId Msg Base.

Definition MSG_TIMEOUT_MS : Z := 10000.
Definition SIZE_LIMIT : Z := 1499.

Inductive NeighboursConnectError := AlreadyConnected | InvalidSignature | InvalidData | InvalidState.

Inductive NeighboursDisconnectReason := ReasonShutdown | ReasonOther.

Inductive NeighboursControlCmds :=
| ConnectRequest (to : NodeId) (session : Z) (handshake : Buffer)
| ConnectResponse (session : Z) (result : Buffer + NeighboursConnectError)
| Ping (session seq sent_ms : Z)
| Pong (session seq sent_ms : Z)
| DisconnectRequest (session : Z) (reason : NeighboursDisconnectReason)
| DisconnectResponse (session : Z).

Record NeighboursControl := mkControl {
  control_from : NodeId;
  control_cmd : Buffer;
  control_signature : Buffer;
}.

(** ** Interfaces *)

(** [bincode::DefaultOptions::new().with_limit(1499)] on one type. *)
Class LimitedCodec (T : Type) := {
  try_serialize : T → option Buffer;
  try_deserialize : Buffer → option T;
}.

Class LimitedCodecLaws (T : Type) `{LimitedCodec T} := {
  limited_roundtrip x buf : try_serialize x = Some buf → try_deserialize buf = Some x;
  limited_size x buf : try_serialize x = Some buf → Z.of_nat (length buf) ≤ SIZE_LIMIT;
}.

(** The [Authorization] trait. *)
Class Authorization := {
  sign : Buffer → Buffer;
  validate : NodeId → Buffer → Buffer → bool;
}.

(** What the neighbours need of it: signatures validate. *)
Class AuthorizationLaws `{Authorization} := {
  signed_valid node msg : validate node msg (sign msg) = true;
}.

(** ** Building and validating *)

Section control.
Context {auth : Authorization} {cmd_codec : LimitedCodec (Z * NeighboursControlCmds)} {control_codec : LimitedCodec NeighboursControl}.

Definition control_validate (self : NeighboursControl) (now : Z) : option NeighboursControlCmds :=
  if validate (control_from self) (control_cmd self) (control_signature self) then
    match try_deserialize (control_cmd self) with
    | Some (ts, cmd) => if wrap 64 (ts + MSG_TIMEOUT_MS) <? now then None else Some cmd
    | None => None
    end
  else None.

(** The encoding is [unwrap]ped. *)
Definition control_build (now : Z) (from : NodeId) (cmd : NeighboursControlCmds) : outcome NeighboursControl :=
  cmd ← expect (try_serialize (now, cmd));
  Done (mkControl from cmd (sign cmd)).

(** [TryFrom<&[u8]> for NeighboursControl] and its inverse: a first byte 255,
    which no transport message has. *)
Definition control_try_from (value : Buffer) : option NeighboursControl :=
  match value with
  | b :: rest => if b =? 255 then try_deserialize rest else None
  | [] => None
  end.

Definition control_try_into (self : NeighboursControl) : option Buffer :=
  match try_serialize self with
  | Some buf => Some (255 :: buf)
  | None => None
  end.
End control.

(** ** The static key *)

Section static_key.
(** SHA-256 of the [sha2] crate. *)
Context (sha256 : Buffer → Buffer).

Record StaticKeyAuthorization := mkStaticKey { key : Buffer }.

Definition static_sign (self : StaticKeyAuthorization) (msg : Buffer) : Buffer := sha256 (msg ++ key self).

Definition static_validate (self : StaticKeyAuthorization) (node_id : NodeId) (msg sign : Buffer) : bool :=
  bool_decide (sha256 (msg ++ key self) = sign).

#[local] Instance static_key_authorization (self : StaticKeyAuthorization) : Authorization :=
  { sign := static_sign self; validate := static_validate self }.

#[local] Instance static_key_laws (self : StaticKeyAuthorization) : @AuthorizationLaws (static_key_authorization self).
Proof. split. intros node msg. by apply bool_decide_eq_true_2. Qed.
End static_key.

(** ** Control messages are accepted while they are fresh *)

Section control_facts.
Context `{auth_laws : AuthorizationLaws}.
Context `{cmd_laws : LimitedCodecLaws (Z * NeighboursControlCmds), control_laws : LimitedCodecLaws NeighboursControl}.

Lemma control_build_validate t from cmd ctl now :
  control_build t from cmd = Done ctl →
  control_from ctl = from ∧
  control_validate ctl now = if wrap 64 (t + MSG_TIMEOUT_MS) <? now then None else Some cmd.
Proof.
  unfold control_build, control_validate. destruct (try_serialize (t, cmd)) as [buf|] eqn:Hs; cbn; [|done]. intros [= <-].
  cbn. rewrite signed_valid. by rewrite (limited_roundtrip _ _ Hs).
Qed.

Lemma control_bytes_roundtrip ctl buf : control_try_into ctl = Some buf → control_try_from buf = Some ctl.
Proof.
  unfold control_try_into. destruct (try_serialize ctl) as [b|] eqn:Hs; [|done]. intros [= <-]. cbn. by apply limited_roundtrip.
Qed.

(** A packet is a control message or a transport message, never both. *)
Lemma control_not_transport buf ctl h : control_try_from buf = Some ctl → try_from buf ≠ inl h.
Proof.
  destruct buf as [|b0 rest]; [done|]. cbn. destruct (Z.eqb_spec b0 255) as [->|]; [|done]. intros _.
  by destruct rest as [|b1 [|b2 [|b3 rest]]].
Qed.

(** A control message made by a node at time [t], written to the wire and
    read back, names its sender; it is validated to the command it was made
    of exactly while it is at most [MSG_TIMEOUT_MS] old, and rejected
    afterwards; its bytes are never taken for a transport message. *)
Theorem control_accepted_while_fresh (t now : Z) (from : NodeId) (cmd : NeighboursControlCmds)
    (ctl : NeighboursControl) (buf : Buffer) :
  control_build t from cmd = Done ctl → control_try_into ctl = Some buf → 0 ≤ t → t + MSG_TIMEOUT_MS < 2 ^ 64 →
  ∃ ctl', control_try_from buf = Some ctl' ∧ control_from ctl' = from ∧
    (now ≤ t + MSG_TIMEOUT_MS → control_validate ctl' now = Some cmd) ∧
    (t + MSG_TIMEOUT_MS < now → control_validate ctl' now = None) ∧
    (∀ h, try_from buf ≠ inl h) ∧ Z.of_nat (length buf) ≤ SIZE_LIMIT + 1.
Proof.
  intros Hb Hi Ht0 Hmax. exists ctl. pose proof (control_bytes_roundtrip _ _ Hi) as Hf.
  destruct (control_build_validate t from cmd ctl now Hb) as [Hfrom Hval].
  rewrite wrap_small in Hval by (unfold MSG_TIMEOUT_MS in *; lia). split_and!; [done..| | | |].
  - intros. rewrite Hval. by zcompare.
  - intros. rewrite Hval. by zcompare.
  - intros h. by eapply control_not_transport.
  - unfold control_try_into in Hi. destruct (try_serialize ctl) as [b|] eqn:Hs; [|done]. injection Hi as <-. cbn [length].
    pose proof (limited_size _ _ Hs). lia.
Qed.
End control_facts.

(** *** Codecs for one kind of command, and a hash, to evaluate with *)

Definition limited (buf : Buffer) : option Buffer := if Z.of_nat (length buf) <=? SIZE_LIMIT then Some buf else None.

#[local] Instance demo_cmd_codec : LimitedCodec (Z * NeighboursControlCmds) := {
  try_serialize x := match x with (t, Ping session seq sent_ms) => limited [t; session; seq; sent_ms] | _ => None end;
  try_deserialize buf := match buf with [t; session; seq; sent_ms] => Some (t, Ping session seq sent_ms) | _ => None end;
}.

#[local] Instance demo_control_codec : LimitedCodec NeighboursControl := {
  try_serialize c := limited (control_from c :: Z.of_nat (length (control_cmd c)) :: control_cmd c ++ control_signature c);
  try_deserialize buf := match buf with
                         | from :: n :: rest => Some (mkControl from (take (Z.to_nat n) rest) (drop (Z.to_nat n) rest))
                         | _ => None
                         end;
}.

Lemma limited_Some buf buf' : limited buf = Some buf' → buf' = buf ∧ Z.of_nat (length buf) ≤ SIZE_LIMIT.
Proof. unfold limited. destruct (Z.leb_spec (Z.of_nat (length buf)) SIZE_LIMIT); [|done]. by intros [= <-]. Qed.

#[local] Instance demo_cmd_laws : LimitedCodecLaws (Z * NeighboursControlCmds).
Proof. split; intros [t []] buf; try done; intros [-> ?]%limited_Some; done. Qed.

#[local] Instance demo_control_laws : LimitedCodecLaws NeighboursControl.
Proof.
  split; intros [from cmd sig] buf [-> ?]%limited_Some; [|done]. cbn.
  by rewrite Nat2Z.id, take_app_length, drop_app_length.
Qed.

Definition demo_key : StaticKeyAuthorization := mkStaticKey [1; 2; 3].
#[local] Instance demo_auth : Authorization := static_key_authorization (λ b, [foldl Z.add 0 b]) demo_key.
#[local] Instance demo_auth_laws : AuthorizationLaws := static_key_laws (λ b, [foldl Z.add 0 b]) demo_key.

Lemma control_accepted_while_fresh_witness :
  ∃ ctl buf, control_build 100 5 (Ping 7 1 100) = Done ctl ∧ control_try_into ctl = Some buf ∧
    ∃ ctl', control_try_from buf = Some ctl' ∧ control_validate ctl' 200 = Some (Ping 7 1 100).
Proof.
  exists (mkControl 5 [100; 7; 1; 100] [214]), [255; 5; 4; 100; 7; 1; 100; 214]. split; [reflexivity|]. split; [reflexivity|].
  destruct (control_accepted_while_fresh 100 200 5 (Ping 7 1 100) (mkControl 5 [100; 7; 1; 100] [214])
    [255; 5; 4; 100; 7; 1; 100; 214]) as (ctl' & Hf & _ & Hv & _); [by vm_compute..|].
  exists ctl'. split; [exact Hf|]. apply Hv. by vm_compute.
Defined.
