(* ===== verification/Neighbours.v ===== *)
(** * Neighbours ([controller_plane/neighbours.rs], [controller_plane/neighbours/connection.rs],
    handshake traits of [base/secure.rs])

    Opening, keeping alive and closing the connections to other nodes. The
    handshake objects are the traits of [base/secure.rs]; those that the
    builder hands out (with their random keys) are arguments of the operations
    that ask for one. Times are milliseconds as [u64]s, differences wrap. *)

From S2P Require Import Prelude NodeId ConnId Base Control.

Definition INIT_RTT_MS : Z := 1000.
Definition RETRY_CMD_MS : Z := 1000.
Definition CONNECT_TIMEOUT_MS : Z := 30000.
Definition CONNECTION_TIMEOUT_MS : Z := 10000.

Inductive HandshakeError := HsInvalidState | HsInvalidPublicKey.

(** [HandshakeRequester] and [HandshakeResponder] *)
Class Handshake (Requester Responder Encryptor Decryptor : Type) := {
  create_public_request : Requester → Buffer + HandshakeError;
  process_public_response : Requester → Buffer → (Encryptor * Decryptor) + HandshakeError;
  process_public_request : Responder → Buffer → (Encryptor * Decryptor * Buffer) + HandshakeError;
}.

(** What a handshake promises: a responder accepts the requests of requesters,
    and the requester that receives the answer holds the matching keys. *)
Class HandshakeLaws {Requester Responder Encryptor Decryptor : Type}
    `{Handshake Requester Responder Encryptor Decryptor} (paired : Encryptor → Decryptor → Prop) := {
  handshake_accepts rq rs req : create_public_request rq = inl req →
    ∃ enc dec res, process_public_request rs req = inl (enc, dec, res);
  handshake_agrees rq rs req enc dec res : create_public_request rq = inl req →
    process_public_request rs req = inl (enc, dec, res) →
    ∃ enc' dec', process_public_response rq res = inl (enc', dec') ∧ paired enc dec' ∧ paired enc' dec;
}.

Section connection.
Context {Requester Responder Encryptor Decryptor : Type} `{Handshake Requester Responder Encryptor Decryptor}.

Inductive State :=
| OutgoingWait (at_ms : Z) (requester : Requester)
| IncomingWait (at_ms : Z)
| ConnectError (err : NeighboursConnectError)
| ConnectTimeout
| StConnected (last_pong_ms ping_seq : Z) (stats : ConnectionStats) (handshake : option (Buffer * Buffer * Z))
| Disconnecting (at_ms : Z)
| StDisconnected.

Inductive ConnEvent :=
| EvConnected (encryptor : Encryptor) (decryptor : Decryptor)
| EvConnectError (err : NeighboursConnectError)
| EvConnectTimeout
| EvStats (stats : ConnectionStats)
| EvDisconnected.

Inductive ConnOutput :=
| ConnOutEvent (event : ConnEvent)
| ConnOutNet (now_ms : Z) (pair : NetPair) (cmd : NeighboursControlCmds).

Record NeighbourConnection := mkConnection {
  nc_conn : ConnId;
  nc_local : NodeId;
  nc_node : NodeId;
  nc_pair : NetPair;
  nc_state : State;
  nc_output : list ConnOutput;
}.

Definition with_conn_state (c : NeighbourConnection) (st : State) : NeighbourConnection :=
  mkConnection (nc_conn c) (nc_local c) (nc_node c) (nc_pair c) st (nc_output c).
Definition conn_push (c : NeighbourConnection) (out : ConnOutput) : NeighbourConnection :=
  mkConnection (nc_conn c) (nc_local c) (nc_node c) (nc_pair c) (nc_state c) (nc_output c ++ [out]).

Definition generate_control (c : NeighbourConnection) (now_ms : Z) (control : NeighboursControlCmds) : ConnOutput :=
  ConnOutNet now_ms (nc_pair c) control.

Definition send (c : NeighbourConnection) (now_ms : Z) (control : NeighboursControlCmds) : NeighbourConnection :=
  conn_push c (generate_control c now_ms control).
Definition fire (c : NeighbourConnection) (event : ConnEvent) : NeighbourConnection := conn_push c (ConnOutEvent event).

Definition new_outgoing (requester : Requester) (local node : NodeId) (session : Z) (pair : NetPair) (now_ms : Z)
    : outcome NeighbourConnection :=
  match create_public_request requester with
  | inl handshake =>
      Done (mkConnection (from_out 0 session) local node pair (OutgoingWait now_ms requester)
              [ConnOutNet now_ms pair (ConnectRequest node session handshake)])
  | inr _ => Panic
  end.

Definition new_incoming (local node : NodeId) (session : Z) (pair : NetPair) (now_ms : Z) : NeighbourConnection :=
  mkConnection (from_in 0 session) local node pair (IncomingWait now_ms) [].

Definition nc_session (c : NeighbourConnection) : Z := session (nc_conn c).

Definition conn_ctx (c : NeighbourConnection) : ConnectionCtx := mkConnectionCtx (nc_conn c) (nc_node c) (nc_pair c).

Definition disconnect (c : NeighbourConnection) (now_ms : Z) : NeighbourConnection :=
  match nc_state c with
  | OutgoingWait _ _ | StConnected _ _ _ _ =>
      send (with_conn_state c (Disconnecting now_ms)) now_ms (DisconnectRequest (nc_session c) ReasonOther)
  | _ => c
  end.

Definition elapsed (now at_ms : Z) : Z := wrap 64 (now - at_ms).

Definition conn_on_tick (c : NeighbourConnection) (now_ms : Z) : NeighbourConnection :=
  match nc_state c with
  | OutgoingWait at_ms requester =>
      if CONNECT_TIMEOUT_MS <=? elapsed now_ms at_ms then fire (with_conn_state c ConnectTimeout) EvConnectTimeout
      else if RETRY_CMD_MS <=? elapsed now_ms at_ms then
        match create_public_request requester with
        | inl request_buf => send c now_ms (ConnectRequest (nc_node c) (nc_session c) request_buf)
        | inr _ => c
        end
      else c
  | IncomingWait at_ms =>
      if CONNECT_TIMEOUT_MS <=? elapsed now_ms at_ms then fire (with_conn_state c ConnectTimeout) EvConnectTimeout else c
  | StConnected last_pong_ms ping_seq stats handshake =>
      if CONNECTION_TIMEOUT_MS <=? elapsed now_ms last_pong_ms then fire c EvDisconnected
      else
        let ping_seq := wrap 64 (ping_seq + 1) in
        send (with_conn_state c (StConnected last_pong_ms ping_seq stats handshake)) now_ms (Ping (nc_session c) ping_seq now_ms)
  | Disconnecting at_ms =>
      if CONNECTION_TIMEOUT_MS <=? elapsed now_ms at_ms then fire (with_conn_state c StDisconnected) EvDisconnected
      else send (with_conn_state c (Disconnecting now_ms)) now_ms (DisconnectRequest (nc_session c) ReasonOther)
  | _ => c
  end.

Definition switch_to_incoming (c : NeighbourConnection) (session : Z) : NeighbourConnection :=
  mkConnection (from_in 0 session) (nc_local c) (nc_node c) (nc_pair c) (nc_state c) (nc_output c).

(** Accepting a request with a responder: the same steps for a connection
    that waits for one and for one that gives up its own request. *)
Definition accept_request (c : NeighbourConnection) (responder : Responder) (now_ms session : Z) (handshake : Buffer)
    : NeighbourConnection * (Buffer + NeighboursConnectError) :=
  match process_public_request responder handshake with
  | inl (encryptor, decryptor, response) =>
      (with_conn_state (fire c (EvConnected encryptor decryptor))
         (StConnected now_ms 0 (mkConnectionStats INIT_RTT_MS) (Some (handshake, response, session))), inl response)
  | inr _ => (c, inr InvalidData)
  end.

(** [on_input]; [responder] is the one the builder makes for this call. *)
Definition conn_on_input (c : NeighbourConnection) (responder : Responder) (now_ms : Z) (from : NodeId)
    (cmd : NeighboursControlCmds) : NeighbourConnection :=
  match cmd with
  | ConnectRequest to session handshake =>
      let respond r := send r.1 now_ms (ConnectResponse session r.2) in
      if (nc_local c =? to) && (nc_node c =? from) then
        match nc_state c with
        | IncomingWait _ => respond (accept_request c responder now_ms session handshake)
        | OutgoingWait _ _ =>
            if session <=? nc_session c
            then respond (accept_request (switch_to_incoming c session) responder now_ms session handshake)
            else c
        | StConnected _ _ _ (Some (pre_req, pre_res, pre_session)) =>
            if bool_decide (handshake = pre_req) && (pre_session =? session) then respond (c, inl pre_res)
            else respond (c, inr InvalidData)
        | StConnected _ _ _ None => respond (c, inr InvalidData)
        | _ => respond (c, inr InvalidState)
        end
      else respond (c, inr InvalidData)
  | ConnectResponse session result =>
      if session =? nc_session c then
        match nc_state c, result with
        | OutgoingWait _ requester, inl handshake_res =>
            match process_public_response requester handshake_res with
            | inl (encryptor, decryptor) =>
                with_conn_state (fire c (EvConnected encryptor decryptor))
                  (StConnected now_ms 0 (mkConnectionStats INIT_RTT_MS) None)
            | inr _ => fire (with_conn_state c (ConnectError InvalidData)) (EvConnectError InvalidData)
            end
        | _, _ => c
        end
      else c
  | Ping session seq sent_ms =>
      if session =? nc_session c then
        match nc_state c with StConnected _ _ _ _ => send c now_ms (Pong session seq sent_ms) | _ => c end
      else c
  | Pong session _ sent_ms =>
      if session =? nc_session c then
        match nc_state c with
        | StConnected _ ping_seq stats handshake =>
            if sent_ms <=? now_ms then
              let stats := mkConnectionStats (wrap 32 (now_ms - sent_ms)) in
              fire (with_conn_state c (StConnected now_ms ping_seq stats handshake)) (EvStats stats)
            else with_conn_state c (StConnected now_ms ping_seq stats handshake)
        | _ => c
        end
      else c
  | DisconnectRequest session _ =>
      if session =? nc_session c
      then fire (send (with_conn_state c StDisconnected) now_ms (DisconnectResponse session)) EvDisconnected
      else c
  | DisconnectResponse session =>
      if session =? nc_session c then
        match nc_state c with
        | Disconnecting _ => fire (with_conn_state c StDisconnected) EvDisconnected
        | _ => c
        end
      else c
  end.

Definition conn_pop_output (c : NeighbourConnection) : NeighbourConnection * option ConnOutput :=
  match nc_output c with
  | [] => (c, None)
  | out :: rest => (mkConnection (nc_conn c) (nc_local c) (nc_node c) (nc_pair c) (nc_state c) rest, Some out)
  end.
End connection.

Arguments State Requester : clear implicits.
Arguments ConnEvent Encryptor Decryptor : clear implicits.
Arguments ConnOutput Encryptor Decryptor : clear implicits.
Arguments NeighbourConnection Requester Encryptor Decryptor : clear implicits.

(** ** The manager ([neighbours.rs]) *)

#[global] Instance SocketAddr_countable : Countable SocketAddr.
Proof.
  refine (inj_countable' (λ a, match a with SocketV4 ip port => inl (ip, port) | SocketV6 ip port f s => inr (ip, port, f, s) end)
    (λ x, match x with inl (ip, port) => SocketV4 ip port | inr (ip, port, f, s) => SocketV6 ip port f s end) _).
  by intros [].
Defined.

#[global] Instance NetPair_countable : Countable NetPair.
Proof.
  refine (inj_countable' (λ p, (pair_local p, pair_remote p)) (λ x, mkNetPair x.1 x.2) _). by intros [].
Defined.

Definition is_ipv4 (a : SocketAddr) : bool := match a with SocketV4 _ _ => true | SocketV6 _ _ _ _ => false end.

(** The parts of a multiaddress that are looked at. *)
Inductive Protocol := Ip4 (ip : Z) | Ip6 (ip : Z) | Udp (port : Z) | OtherProtocol.

(** [NodeAddr]: a node and the parts of its multiaddress. *)
Record NodeAddr := mkNodeAddr { addr_node : NodeId; multiaddr : list Protocol }.

(** [SocketAddr::new(ip, port)] *)
Definition socket_addr_new (v4 : bool) (ip port : Z) : SocketAddr := if v4 then SocketV4 ip port else SocketV6 ip port 0 0.

(** One step of the loop of [get_node_addr_dests]; [dest_ip] with its family. *)
Definition addr_part (acc : option (bool * Z) * list SocketAddr) (part : Protocol) : option (bool * Z) * list SocketAddr :=
  match part with
  | Ip4 i => (Some (true, i), acc.2)
  | Ip6 i => (Some (false, i), acc.2)
  | Udp port => match acc.1 with
                | Some (v4, ip) => (acc.1, acc.2 ++ [socket_addr_new v4 ip port])
                | None => acc
                end
  | OtherProtocol => acc
  end.

Definition get_node_addr_dests (addr : NodeAddr) : list SocketAddr := (foldl addr_part (None, []) (multiaddr addr)).2.

Section manager.
Context {Requester Responder Encryptor Decryptor : Type} `{Handshake Requester Responder Encryptor Decryptor}.
Context {auth : Authorization} {cmd_codec : LimitedCodec (Z * NeighboursControlCmds)}.
(** [rand::RngCore::next_u64] *)
Context {Rng : Type} (next_u64 : Rng → Z * Rng).

Abbreviation Conn := (NeighbourConnection Requester Encryptor Decryptor) (only parsing).

(** [SecureContext] *)
Abbreviation SecureContext := (Encryptor * Decryptor)%type (only parsing).

Inductive ManagerInput :=
| ConnectTo (addr : NodeAddr)
| DisconnectFrom (node : NodeId)
| InControl (pair : NetPair) (control : NeighboursControl).

Inductive ManagerOutput :=
| OutControl (pair : NetPair) (control : NeighboursControl)
| OutConnEvent (event : ConnectionEvent SecureContext)
| OnResourceEmpty.

Record NeighboursManager := mkManager {
  node_id : NodeId;
  bind_addrs : list SocketAddr;
  connections : gmap NetPair Conn;
  neighbours : gmap ConnKey ConnectionCtx;
  nm_queue : list ManagerOutput;
  nm_shutdown : bool;
  random : Rng;
}.

Definition manager_new (node_id : NodeId) (bind_addrs : list SocketAddr) (random : Rng) : NeighboursManager :=
  mkManager node_id bind_addrs ∅ ∅ [] false random.

Definition manager_conn (m : NeighboursManager) (conn : ConnId) : option ConnectionCtx := neighbours m !! conn_key conn.

Definition with_connections (m : NeighboursManager) (conns : gmap NetPair Conn) : NeighboursManager :=
  mkManager (node_id m) (bind_addrs m) conns (neighbours m) (nm_queue m) (nm_shutdown m) (random m).

Definition manager_on_tick (m : NeighboursManager) (now_ms : Z) : NeighboursManager :=
  with_connections m ((λ c, conn_on_tick c now_ms) <$> connections m).

(** The body of the two loops of [ConnectTo] for one pair of addresses. *)
Definition connect_pair (requesters : NetPair → Requester) (now_ms : Z) (dest_node : NodeId)
    (m : NeighboursManager) (addrs : SocketAddr * SocketAddr) : outcome NeighboursManager :=
  let '(local, remote) := addrs in
  if negb (Bool.eqb (is_ipv4 local) (is_ipv4 remote)) then Done m
  else
    let pair := mkNetPair local remote in
    match connections m !! pair with
    | Some _ => Done m
    | None =>
        let '(session_id, random) := next_u64 (random m) in
        conn ← new_outgoing (requesters pair) (node_id m) dest_node session_id pair now_ms;
        Done (mkManager (node_id m) (bind_addrs m) (<[pair := conn]> (connections m)) (neighbours m) (nm_queue m)
                (nm_shutdown m) random)
    end.

Definition manager_on_input (requesters : NetPair → Requester) (responder : Responder) (m : NeighboursManager) (now_ms : Z)
    (input : ManagerInput) : outcome NeighboursManager :=
  match input with
  | ConnectTo addr =>
      let dests := get_node_addr_dests addr in
      foldM (connect_pair requesters now_ms (addr_node addr)) m
        (local ← bind_addrs m; remote ← dests; [(local, remote)])
  | DisconnectFrom node =>
      Done (with_connections m ((λ c, if nc_node c =? node then disconnect c now_ms else c) <$> connections m))
  | InControl addr control =>
      match control_validate control now_ms with
      | None => Done m
      | Some cmd =>
          match connections m !! addr with
          | Some conn =>
              Done (with_connections m (<[addr := conn_on_input conn responder now_ms (control_from control) cmd]> (connections m)))
          | None =>
              match cmd with
              | ConnectRequest _ session _ =>
                  let conn := new_incoming (node_id m) (control_from control) session addr now_ms in
                  Done (with_connections m (<[addr := conn_on_input conn responder now_ms (control_from control) cmd]> (connections m)))
              | _ => Done m
              end
          end
      end
  end.

Definition manager_on_shutdown (m : NeighboursManager) (now_ms : Z) : NeighboursManager :=
  if nm_shutdown m then m
  else mkManager (node_id m) (bind_addrs m) ((λ c, disconnect c now_ms) <$> connections m) (neighbours m) (nm_queue m) true (random m).

Definition manager_is_empty (m : NeighboursManager) : bool :=
  nm_shutdown m && bool_decide (dom (connections m) = ∅) && match nm_queue m with [] => true | _ => false end.

(** One output of the connection [conn] kept under [remote]. *)
Definition drain_output (me : NodeId) (remote : NetPair) (ctx : ConnectionCtx)
    (acc : gmap ConnKey ConnectionCtx * list ManagerOutput * list NetPair) (out : ConnOutput Encryptor Decryptor)
    : outcome (gmap ConnKey ConnectionCtx * list ManagerOutput * list NetPair) :=
  let '(neighbours, queue, to_remove) := acc in
  match out with
  | ConnOutEvent (EvConnected encryptor decryptor) =>
      Done (<[conn_key (ctx_conn ctx) := ctx]> neighbours, queue ++ [OutConnEvent (Connected ctx (encryptor, decryptor))], to_remove)
  | ConnOutEvent (EvConnectError _) => Done (neighbours, queue, to_remove ++ [remote])
  | ConnOutEvent EvConnectTimeout => Done (neighbours, queue, to_remove ++ [remote])
  | ConnOutEvent (EvStats stats) => Done (neighbours, queue ++ [OutConnEvent (Stats ctx stats)], to_remove)
  | ConnOutEvent EvDisconnected =>
      Done (delete (conn_key (ctx_conn ctx)) neighbours, queue ++ [OutConnEvent (Disconnected ctx)], to_remove ++ [remote])
  | ConnOutNet now_ms remote cmd =>
      control ← control_build now_ms me cmd;
      Done (neighbours, queue ++ [OutControl remote control], to_remove)
  end.

(** The loop of [pop_output] over the connections; each is drained. *)
Definition drain_conn (me : NodeId) (acc : gmap ConnKey ConnectionCtx * list ManagerOutput * list NetPair)
    (entry : NetPair * Conn) : outcome (gmap ConnKey ConnectionCtx * list ManagerOutput * list NetPair) :=
  foldM (drain_output me entry.1 (conn_ctx entry.2)) acc (nc_output entry.2).

Definition drained_conn (c : Conn) : Conn := mkConnection (nc_conn c) (nc_local c) (nc_node c) (nc_pair c) (nc_state c) [].

Definition manager_pop_output (order : HashOrder) (m : NeighboursManager) : outcome (NeighboursManager * option ManagerOutput) :=
  match nm_queue m with
  | out :: rest =>
      Done (mkManager (node_id m) (bind_addrs m) (connections m) (neighbours m) rest (nm_shutdown m) (random m), Some out)
  | [] =>
      r ← foldM (drain_conn (node_id m)) (neighbours m, [], []) (hash_iter (connections m));
      let '(neighbours, queue, to_remove) := r in
      let conns := remove_all to_remove (drained_conn <$> connections m) in
      match queue with
      | [] => Done (mkManager (node_id m) (bind_addrs m) conns neighbours [] (nm_shutdown m) (random m), None)
      | out :: rest => Done (mkManager (node_id m) (bind_addrs m) conns neighbours rest (nm_shutdown m) (random m), Some out)
      end
  end.
End manager.

(** ** Opening a connection *)

Section conn_facts.
Context {Requester Responder Encryptor Decryptor : Type} (paired : Encryptor → Decryptor → Prop).
Context `{laws : HandshakeLaws Requester Responder Encryptor Decryptor paired}.
Implicit Types (c : NeighbourConnection Requester Encryptor Decryptor) (rq : Requester) (rs : Responder).

Definition is_connected (st : State Requester) : bool := match st with StConnected _ _ _ _ => true | _ => false end.

(** A connection that has just been confirmed to its user. *)
Definition opened c (conn : ConnId) (enc : Encryptor) (dec : Decryptor) : Prop :=
  is_connected (nc_state c) = true ∧ nc_conn c = conn ∧ ConnOutEvent (EvConnected enc dec) ∈ nc_output c.

Lemma response_opens c rq at_ms rs now from res enc dec :
  nc_state c = OutgoingWait at_ms rq → process_public_response rq res = inl (enc, dec) →
  opened (conn_on_input c rs now from (ConnectResponse (nc_session c) (inl res))) (nc_conn c) enc dec.
Proof.
  intros Hs Hp. cbn. rewrite Z.eqb_refl, Hs, Hp. split_and!; [done..|]. cbn. apply elem_of_snoc.
Qed.

(** Opening a connection. Node [a] starts an outgoing connection with a
    session; node [b] receives the request on a new incoming connection and
    answers; [a] receives the answer. Then both sides are connected, under
    connection ids with this session and opposite directions, each has told
    its user, and the keys of the two sides match. The request delivered to
    [b] again, at any later time while it is connected, is answered with the
    same answer and tells the user nothing. *)
Theorem open_handshake_agrees (a b : NodeId) (pa pb : NetPair) (sess t0 t1 t2 t3 : Z) (rq : Requester) (rs rs' : Responder)
    (req : Buffer) :
  create_public_request rq = inl req →
  ∃ ca enc_a dec_a enc_b dec_b res,
    new_outgoing rq a b sess pa t0 = Done ca ∧
    nc_output ca = [ConnOutNet t0 pa (ConnectRequest b sess req)] ∧
    let cb := conn_on_input (new_incoming b a sess pb t1) rs t1 a (ConnectRequest b sess req) in
    opened cb (from_in 0 sess) enc_b dec_b ∧
    ConnOutNet t1 pb (ConnectResponse sess (inl res)) ∈ nc_output cb ∧
    opened (conn_on_input ca rs' t2 b (ConnectResponse sess (inl res))) (from_out 0 sess) enc_a dec_a ∧
    paired enc_a dec_b ∧ paired enc_b dec_a ∧
    conn_on_input cb rs' t3 a (ConnectRequest b sess req) = send cb t3 (ConnectResponse sess (inl res)).
Proof.
  intros Hreq. destruct (handshake_accepts rq rs req Hreq) as (enc & dec & res & Hp).
  destruct (handshake_agrees rq rs req enc dec res Hreq Hp) as (enc' & dec' & Hr & Hp1 & Hp2).
  unfold new_outgoing. rewrite Hreq. eexists _, enc', dec', enc, dec, res. split; [done|]. split; [done|].
  assert (∃ cb, conn_on_input (new_incoming b a sess pb t1) rs t1 a (ConnectRequest b sess req) = cb ∧
    nc_state cb = StConnected t1 0 (mkConnectionStats INIT_RTT_MS) (Some (req, res, sess)) ∧ nc_local cb = b ∧ nc_node cb = a ∧
    nc_conn cb = from_in 0 sess ∧
    nc_output cb = [ConnOutEvent (EvConnected enc dec); ConnOutNet t1 pb (ConnectResponse sess (inl res))])
    as (cb & -> & Hst & Hl & Hn & Hc & Ho).
  { eexists. split; [done|]. cbn. rewrite !Z.eqb_refl. cbn. unfold accept_request. rewrite Hp. done. }
  cbn zeta. split_and!.
  - unfold opened. rewrite Hst, Ho. split_and!; [done..|left].
  - rewrite Ho. right. left.
  - eapply response_opens; [done|exact Hr].
  - done.
  - done.
  - cbn [conn_on_input]. rewrite Hl, Hn, !Z.eqb_refl, Hst. cbn [andb]. by rewrite bool_decide_eq_true_2, Z.eqb_refl by done.
Qed.

(** C13. Simultaneous open. Both nodes have started an outgoing connection on
    the same pair of addresses, with different sessions, and each receives
    the other's request. The node with the larger session gives up its own
    and answers; the other ignores the request it receives. When the answer
    arrives both are connected under the smaller session, with opposite
    directions and matching keys. *)
Theorem simultaneous_open_agrees (a b : NodeId) (pa pb : NetPair) (sa sb t0 t1 t2 : Z) (rq_a rq_b : Requester)
    (rs_a rs_b : Responder) (req_a req_b : Buffer) (ca cb : NeighbourConnection Requester Encryptor Decryptor) :
  sb < sa → create_public_request rq_b = inl req_b →
  new_outgoing rq_a a b sa pa t0 = Done ca → new_outgoing rq_b b a sb pb t0 = Done cb →
  conn_on_input cb rs_b t1 a (ConnectRequest b sa req_a) = cb ∧
  ∃ enc_a dec_a enc_b dec_b res,
    let ca' := conn_on_input ca rs_a t1 b (ConnectRequest a sb req_b) in
    opened ca' (from_in 0 sb) enc_a dec_a ∧
    ConnOutNet t1 pa (ConnectResponse sb (inl res)) ∈ nc_output ca' ∧
    opened (conn_on_input cb rs_b t2 a (ConnectResponse sb (inl res))) (from_out 0 sb) enc_b dec_b ∧
    paired enc_a dec_b ∧ paired enc_b dec_a.
Proof.
  intros Hlt Hreq Ha Hb. unfold new_outgoing in Ha, Hb. rewrite Hreq in Hb. injection Hb as <-.
  destruct (create_public_request rq_a) as [buf|]; [|done]. injection Ha as <-. split.
  - cbn. rewrite !Z.eqb_refl. cbn. by zcompare.
  - destruct (handshake_accepts rq_b rs_a req_b Hreq) as (enc & dec & res & Hp).
    destruct (handshake_agrees rq_b rs_a req_b enc dec res Hreq Hp) as (enc' & dec' & Hr & Hp1 & Hp2).
    exists enc, dec, enc', dec', res. cbn zeta. split_and!; [..|done|done].
    + cbn. rewrite !Z.eqb_refl. cbn. zcompare. unfold accept_request. rewrite Hp. cbn.
      split_and!; [done..|]. cbn. right. left.
    + cbn. rewrite !Z.eqb_refl. cbn. zcompare. unfold accept_request. rewrite Hp. cbn.
      right. right. left.
    + eapply response_opens; [done|exact Hr].
Qed.
End conn_facts.

(** ** The life of a connection *)

Section lifecycle.
Context {Requester Responder Encryptor Decryptor : Type} `{Handshake Requester Responder Encryptor Decryptor}.
Abbreviation Conn := (NeighbourConnection Requester Encryptor Decryptor) (only parsing).
Implicit Types (c : Conn).

Inductive conn_op :=
| OpTick (now : Z)
| OpInput (responder : Responder) (now : Z) (from : NodeId) (cmd : NeighboursControlCmds)
| OpDisconnect (now : Z).

Definition conn_apply c (op : conn_op) : Conn :=
  match op with
  | OpTick now => conn_on_tick c now
  | OpInput rs now from cmd => conn_on_input c rs now from cmd
  | OpDisconnect now => disconnect c now
  end.

Definition events_of (outs : list (ConnOutput Encryptor Decryptor)) : list (ConnEvent Encryptor Decryptor) :=
  omap (λ o, match o with ConnOutEvent ev => Some ev | ConnOutNet _ _ _ => None end) outs.

Lemma events_of_app o1 o2 : events_of (o1 ++ o2) = events_of o1 ++ events_of o2.
Proof. apply omap_app. Qed.

Definition ends (ev : ConnEvent Encryptor Decryptor) : Prop := match ev with EvDisconnected => True | _ => False end.
Definition runs (ev : ConnEvent Encryptor Decryptor) : Prop := match ev with EvStats _ | EvDisconnected => True | _ => False end.

(** A history: the first event tells how the attempt went. *)
Definition well_lived (evs : list (ConnEvent Encryptor Decryptor)) : Prop :=
  match evs with
  | [] => True
  | EvConnected _ _ :: rest => Forall runs rest
  | EvStats _ :: _ => False
  | EvConnectError _ :: rest | EvConnectTimeout :: rest | EvDisconnected :: rest => Forall ends rest
  end.

(** What was reported of a connection in this state. *)
Definition reported (st : State Requester) (evs : list (ConnEvent Encryptor Decryptor)) : Prop :=
  match st with
  | OutgoingWait _ _ | IncomingWait _ => evs = []
  | ConnectError e => evs = [EvConnectError e]
  | ConnectTimeout => evs = [EvConnectTimeout]
  | StConnected _ _ _ _ => ∃ enc dec rest, evs = EvConnected enc dec :: rest ∧ Forall runs rest
  | Disconnecting _ => evs = [] ∨ ∃ enc dec rest, evs = EvConnected enc dec :: rest ∧ Forall runs rest
  | StDisconnected => EvDisconnected ∈ evs ∧ well_lived evs
  end.

Lemma reported_well_lived st evs : reported st evs → well_lived evs.
Proof.
  assert ((∃ enc dec rest, evs = EvConnected enc dec :: rest ∧ Forall runs rest) → well_lived evs) as Hc by (by intros (enc & dec & rest & -> & ?)).
  destruct st; cbn; [intros ->..|done|intros [->|?]|intros [_ ?]]; try done; [by constructor..|auto].
Qed.

Lemma runs_snoc (evs : list (ConnEvent Encryptor Decryptor)) ev :
  runs ev → (∃ enc dec rest, evs = EvConnected enc dec :: rest ∧ Forall runs rest) →
  ∃ enc dec rest, evs ++ [ev] = EvConnected enc dec :: rest ∧ Forall runs rest.
Proof. intros Hev (enc & dec & rest & -> & Hr). exists enc, dec, (rest ++ [ev]). split; [done|]. by apply Forall_snoc. Qed.

Lemma end_snoc st evs : reported st evs → EvDisconnected ∈ evs ++ [EvDisconnected] ∧ well_lived (evs ++ [EvDisconnected]).
Proof.
  intros Hr%reported_well_lived. split; [apply elem_of_snoc|]. destruct evs as [|[] rest]; cbn in *; try done; by apply Forall_snoc || constructor.
Qed.

(** Every operation reports what its change of state says. *)
Lemma conn_apply_reported c op :
  reported (nc_state c) (events_of (nc_output c)) → let c' := conn_apply c op in reported (nc_state c') (events_of (nc_output c')).
Proof.
  destruct c as [conn local node pair st out]. cbn [nc_state nc_output]. intros Hr. pose proof (end_snoc _ _ Hr) as Hend.
  destruct op as [now|rs now from cmd|now]; cbn [conn_apply].
  - unfold conn_on_tick; destruct st; cbn in *; repeat case_match; cbn; rewrite ?events_of_app; cbn; rewrite ?app_nil_r; subst;
      try done; rewrite ?Hr; try done; by apply runs_snoc.
  - destruct cmd; cbn; unfold accept_request; repeat case_match; simplify_eq; cbn in *; rewrite ?events_of_app; cbn; rewrite ?app_nil_r;
      try done; rewrite ?Hr; cbn; try done; try (by apply runs_snoc); eauto 10.
  - unfold disconnect; destruct st; cbn in *; rewrite ?events_of_app; cbn; rewrite ?app_nil_r; try done; rewrite ?Hr; auto.
Qed.

(** C29. The life of a connection, as it reports it. From a fresh connection,
    outgoing or incoming, under any sequence of ticks, commands from the
    network and disconnects, drained or not: nothing is reported while it waits
    for its peer; the first event says how that ended, connected, failed, timed
    out or disconnected; only a connection reported as connected, once and
    first, is measured; after a failed attempt nothing but the end is reported.
    A connection that is up has been reported as connected, and one that is
    disconnected, failed or timed out has been reported as that. The end may
    be reported more than once, and a measurement may follow it
    ([end_reported_again]). *)
Theorem connection_lifecycle (c : Conn) (ops : list conn_op) (local node : NodeId) (sess now : Z) (pair : NetPair) (rq : Requester) :
  new_outgoing rq local node sess pair now = Done c ∨ c = new_incoming local node sess pair now →
  let c' := foldl conn_apply c ops in
  let evs := events_of (nc_output c') in
  match evs with
  | [] => True
  | EvConnected _ _ :: rest => Forall (λ ev, match ev with EvStats _ | EvDisconnected => True | _ => False end) rest
  | EvStats _ :: _ => False
  | EvConnectError _ :: rest | EvConnectTimeout :: rest | EvDisconnected :: rest => Forall (λ ev, ev = EvDisconnected) rest
  end ∧
  match nc_state c' with
  | OutgoingWait _ _ | IncomingWait _ => evs = []
  | ConnectError e => evs = [EvConnectError e]
  | ConnectTimeout => evs = [EvConnectTimeout]
  | StConnected _ _ _ _ => ∃ enc dec rest, evs = EvConnected enc dec :: rest
  | Disconnecting _ => evs = [] ∨ ∃ enc dec rest, evs = EvConnected enc dec :: rest
  | StDisconnected => EvDisconnected ∈ evs
  end.
Proof.
  intros Hnew. assert (reported (nc_state c) (events_of (nc_output c))) as Hr.
  { destruct Hnew as [Hn| ->]; [|done]. unfold new_outgoing in Hn. case_match; by simplify_eq. }
  clear Hnew. revert c Hr. induction ops as [|op ops IH]; intros c Hr; [|by apply IH, conn_apply_reported]. cbn zeta. cbn [foldl]. split.
  - apply reported_well_lived in Hr. destruct (events_of (nc_output c)) as [|[] rest]; try done; cbn in Hr;
      (eapply Forall_impl; [exact Hr|]); intros []; by cbn.
  - destruct (nc_state c); cbn in Hr; try done; [|destruct Hr as [->|Hr]; [by left|right]|apply Hr];
      destruct Hr as (enc & dec & rest & -> & _); by do 3 eexists.
Qed.

(** ** Disconnecting *)

(** Ticks at the given times. *)
Definition ticks c (times : list Z) : Conn := foldl conn_on_tick c times.

(** Consecutive times less than [CONNECTION_TIMEOUT_MS] apart. *)
Fixpoint dense (at_ms : Z) (times : list Z) : Prop :=
  match times with
  | [] => True
  | t :: times => at_ms ≤ t < at_ms + CONNECTION_TIMEOUT_MS ∧ dense t times
  end.

Lemma disconnecting_tick c at_ms t :
  nc_state c = Disconnecting at_ms → at_ms ≤ t < at_ms + CONNECTION_TIMEOUT_MS →
  conn_on_tick c t = send (with_conn_state c (Disconnecting t)) t (DisconnectRequest (nc_session c) ReasonOther).
Proof.
  intros Hs Ht. unfold conn_on_tick. rewrite Hs. unfold elapsed. rewrite wrap_small by (unfold CONNECTION_TIMEOUT_MS in *; lia).
  destruct (Z.leb_spec CONNECTION_TIMEOUT_MS (t - at_ms)); [unfold CONNECTION_TIMEOUT_MS in *; lia|done].
Qed.

(** The timeout of a disconnect does not fire. A connection that waits
    for the answer to its disconnect request, ticked at any times less than
    [CONNECTION_TIMEOUT_MS] apart (the node ticks about once a second), is
    never reported as disconnected, however long no answer comes: every tick
    restarts the timeout. It goes on sending requests. *)
Theorem disconnect_timeout_never_fires (c : Conn) (at_ms : Z) (times : list Z) :
  nc_state c = Disconnecting at_ms → dense at_ms times →
  events_of (nc_output (ticks c times)) = events_of (nc_output c) ∧
  nc_state (ticks c times) = Disconnecting (default at_ms (last times)) ∧
  nc_output (ticks c times) =
    nc_output c ++ ((λ t, ConnOutNet t (nc_pair c) (DisconnectRequest (nc_session c) ReasonOther)) <$> times).
Proof.
  revert c at_ms. induction times as [|t times IH]; intros c at_ms Hs Hd; [by rewrite app_nil_r|].
  destruct Hd as (Ht & Hd). change (ticks c (t :: times)) with (ticks (conn_on_tick c t) times).
  rewrite (disconnecting_tick c at_ms t Hs Ht).
  destruct (IH (send (with_conn_state c (Disconnecting t)) t (DisconnectRequest (nc_session c) ReasonOther)) t eq_refl Hd)
    as (He & Hst & Ho). split_and!.
  - rewrite He. cbn. rewrite events_of_app. cbn. by rewrite app_nil_r.
  - rewrite Hst, last_cons. by destruct (last times).
  - rewrite Ho. cbn. by rewrite <- app_assoc.
Qed.
End lifecycle.

(** ** The manager and its users agree on the neighbours *)

Section manager_facts.
Context {Requester Responder Encryptor Decryptor : Type} `{Handshake Requester Responder Encryptor Decryptor}.
Context {auth : Authorization} {cmd_codec : LimitedCodec (Z * NeighboursControlCmds)}.
Context {Rng : Type} (next_u64 : Rng → Z * Rng).
Abbreviation Manager := (NeighboursManager (Requester := Requester) (Encryptor := Encryptor) (Decryptor := Decryptor) (Rng := Rng)) (only parsing).
Abbreviation MOutput := (ManagerOutput (Encryptor := Encryptor) (Decryptor := Decryptor)) (only parsing).
Implicit Types (m : Manager).

(** The table a user keeps who follows the manager's outputs. *)
Definition follow_output (view : gmap ConnKey ConnectionCtx) (out : MOutput) : gmap ConnKey ConnectionCtx :=
  match out with
  | OutConnEvent (Connected ctx _) => <[conn_key (ctx_conn ctx) := ctx]> view
  | OutConnEvent (Disconnected ctx) => delete (conn_key (ctx_conn ctx)) view
  | _ => view
  end.

Definition conns_ok m : Prop := ∀ p c, connections m !! p = Some c → nc_pair c = p ∧ nc_local c = node_id m.

Lemma conn_op_keeps (c : NeighbourConnection Requester Encryptor Decryptor) (op : conn_op) :
  nc_pair (conn_apply c op) = nc_pair c ∧ nc_local (conn_apply c op) = nc_local c.
Proof.
  destruct op as [now|rs now from cmd|now]; cbn [conn_apply].
  - unfold conn_on_tick; repeat case_match; done.
  - destruct cmd; cbn; unfold accept_request; repeat case_match; done.
  - unfold disconnect; repeat case_match; done.
Qed.

Lemma conns_ok_fmap m f :
  (∀ c, nc_pair (f c) = nc_pair c ∧ nc_local (f c) = nc_local c) → conns_ok m → conns_ok (with_connections m (f <$> connections m)).
Proof.
  intros Hf Hok p c. cbn. rewrite lookup_fmap. destruct (connections m !! p) as [c0|] eqn:Hc; [|done]. intros [= <-].
  destruct (Hf c0) as [-> ->]. by apply Hok.
Qed.

Lemma connect_pair_ok requesters now dest m addrs m' :
  conns_ok m → connect_pair next_u64 requesters now dest m addrs = Done m' →
  conns_ok m' ∧ neighbours m' = neighbours m ∧ nm_queue m' = nm_queue m ∧ node_id m' = node_id m.
Proof.
  intros Hok. destruct addrs as [l r]. cbn. case_match; [by intros [= <-]|].
  destruct (connections m !! mkNetPair l r) eqn:Hp; [by intros [= <-]|].
  destruct (next_u64 (random m)) as [sid rng]. unfold new_outgoing.
  destruct (create_public_request _) as [hs|]; [|done]. rewrite bind_Done. intros [= <-]. split_and!; [|done..].
  map_update.
Qed.

Lemma connect_all_ok requesters now dest l : ∀ m m',
  conns_ok m → foldM (connect_pair next_u64 requesters now dest) m l = Done m' →
  conns_ok m' ∧ neighbours m' = neighbours m ∧ nm_queue m' = nm_queue m ∧ node_id m' = node_id m.
Proof.
  induction l as [|a l IH]; intros m m' Hok; cbn; [by intros [= <-]|].
  destruct (connect_pair next_u64 requesters now dest m a) as [m1|] eqn:Hc; cbn; [|done]. intros Hf.
  destruct (connect_pair_ok _ _ _ _ _ _ Hok Hc) as (Hok1 & Hn1 & Hq1 & Hi1).
  destruct (IH _ _ Hok1 Hf) as (? & ? & ? & ?). split_and!; [done|congruence..].
Qed.

Lemma manager_on_input_ok requesters responder m now input m' :
  conns_ok m → manager_on_input next_u64 requesters responder m now input = Done m' →
  conns_ok m' ∧ neighbours m' = neighbours m ∧ nm_queue m' = nm_queue m ∧ node_id m' = node_id m.
Proof.
  intros Hok. destruct input as [addr|node|addr control]; cbn [manager_on_input].
  - by apply connect_all_ok.
  - intros [= <-]. split_and!; [|done..]. apply conns_ok_fmap; [|done]. intros c. case_match; [|done].
    apply (conn_op_keeps c (OpDisconnect now)).
  - assert (∀ c cmd, nc_pair c = addr ∧ nc_local c = node_id m →
      conns_ok (with_connections m (<[addr := conn_on_input c responder now (control_from control) cmd]> (connections m)))) as Hput.
    { intros c cmd [Hp Hl] p c'. cbn. rewrite lookup_insert_Some. intros [[<- <-]|[_ ?]]; [|by apply Hok].
      destruct (conn_op_keeps c (OpInput responder now (control_from control) cmd)) as [Hp' Hl']. cbn in Hp', Hl'. by rewrite Hp', Hl'. }
    destruct (control_validate control now) as [cmd|]; [|by intros [= <-]]. destruct (connections m !! addr) as [c|] eqn:Hc.
    + intros [= <-]. split_and!; [|done..]. apply Hput. by apply Hok.
    + destruct cmd as [to sess hs| | | | |]; intros [= <-]; try done. split_and!; [|done..].
      exact (Hput (new_incoming (node_id m) (control_from control) sess addr now) (ConnectRequest to sess hs) (conj eq_refl eq_refl)).
Qed.

Lemma drain_outputs_follow me remote ctx (outs : list (ConnOutput Encryptor Decryptor)) : ∀ view nb q rm nb' q' rm',
  foldl follow_output view q = nb →
  foldM (drain_output me remote ctx) (nb, q, rm) outs = Done (nb', q', rm') → foldl follow_output view q' = nb'.
Proof.
  induction outs as [|out outs IH]; intros view nb q rm nb' q' rm' Hv; cbn [foldM].
  { by intros [= <- <- <-]. }
  destruct (drain_output me remote ctx (nb, q, rm) out) as [[[nb1 q1] rm1]|] eqn:Hd; cbn; [|done]. apply IH.
  destruct out as [[enc dec|e| |st|]|t p cmd]; cbn in Hd; try (injection Hd as <- <- <-; rewrite ?foldl_app; cbn; by rewrite ?Hv).
  destruct (control_build t me cmd); [|done]. rewrite bind_Done in Hd. injection Hd as <- <- <-. by rewrite foldl_app.
Qed.

Lemma drain_conns_follow me (l : list (NetPair * NeighbourConnection Requester Encryptor Decryptor)) : ∀ view nb q rm nb' q' rm',
  foldl follow_output view q = nb → foldM (drain_conn me) (nb, q, rm) l = Done (nb', q', rm') → foldl follow_output view q' = nb'.
Proof.
  induction l as [|e l IH]; intros view nb q rm nb' q' rm' Hv; cbn [foldM]; [by intros [= <- <- <-]|].
  destruct (drain_conn me (nb, q, rm) e) as [[[nb1 q1] rm1]|] eqn:Hd; cbn; [|done]. apply IH.
  unfold drain_conn in Hd. by eapply drain_outputs_follow.
Qed.

Lemma manager_pop_ok order m m' out view :
  conns_ok m → foldl follow_output view (nm_queue m) = neighbours m →
  manager_pop_output order m = Done (m', out) →
  conns_ok m' ∧ foldl follow_output (from_option (follow_output view) view out) (nm_queue m') = neighbours m'.
Proof.
  intros Hok Hv. unfold manager_pop_output. destruct (nm_queue m) as [|o rest] eqn:Hq.
  2:{ intros [= <- <-]. split; [exact Hok|done]. }
  destruct (foldM _ _ _) as [[[nb q] rm]|] eqn:Hf; [|done]. rewrite bind_Done.
  pose proof (drain_conns_follow _ _ view _ _ _ _ _ _ Hv Hf) as Hfol.
  assert (∀ nb q, conns_ok (mkManager (node_id m) (bind_addrs m) (remove_all rm (drained_conn <$> connections m)) nb q (nm_shutdown m) (random m))) as Hok'.
  { intros nb' q' p c. cbn. rewrite lookup_remove_all. case_decide; [done|]. rewrite lookup_fmap.
    destruct (connections m !! p) as [c0|] eqn:Hc; [|done]. intros [= <-]. exact (Hok _ _ Hc). }
  destruct q as [|o rest]; intros [= <- <-]; (split; [exact (Hok' _ _)|exact Hfol]).
Qed.

(** A run of the manager with the outputs taken from it so far. *)
Inductive manager_run (me : NodeId) (binds : list SocketAddr) (rng : Rng) : Manager → list MOutput → Prop :=
| run_new : manager_run me binds rng (manager_new me binds rng) []
| run_tick m outs now : manager_run me binds rng m outs → manager_run me binds rng (manager_on_tick m now) outs
| run_input m outs requesters responder now input m' :
    manager_run me binds rng m outs → manager_on_input next_u64 requesters responder m now input = Done m' →
    manager_run me binds rng m' outs
| run_shutdown m outs now : manager_run me binds rng m outs → manager_run me binds rng (manager_on_shutdown m now) outs
| run_pop m outs order m' out :
    manager_run me binds rng m outs → manager_pop_output order m = Done (m', out) →
    manager_run me binds rng m' (outs ++ option_list out).

Lemma manager_run_follows me binds rng m outs :
  manager_run me binds rng m outs → foldl follow_output ∅ (outs ++ nm_queue m) = neighbours m ∧ conns_ok m.
Proof.
  intros Hrun.
  induction Hrun as [|m outs now Hrun [Hv Hok]|m outs requesters responder now input m' Hrun [Hv Hok] Hin
                    |m outs now Hrun [Hv Hok]|m outs order m' out Hrun [Hv Hok] Hpop].
  - split; [done|]. intros p c Hc. cbn in Hc. by apply lookup_empty_Some in Hc.
  - split; [done|]. apply conns_ok_fmap; [|done]. intros c. apply (conn_op_keeps c (OpTick now)).
  - destruct (manager_on_input_ok _ _ _ _ _ _ Hok Hin) as (Hok' & Hn & Hq & _). split; [congruence|done].
  - unfold manager_on_shutdown. case_match; [done|]. split; [done|].
    apply (conns_ok_fmap m); [|done]. intros c. apply (conn_op_keeps c (OpDisconnect now)).
  - rewrite foldl_app in Hv. destruct (manager_pop_ok _ _ _ _ _ Hok Hv Hpop) as [Hok' Hv']. split; [|done].
    rewrite !foldl_app. by destruct out.
Qed.

(** The manager and its users agree on the neighbours. In every run of
    the manager, a user who follows the outputs taken from it and those still
    queued, entering a connection on [Connected] and removing it on
    [Disconnected], holds exactly the manager's table of neighbours; and every
    connection is kept under the pair of addresses it sends to, on behalf of
    this node. *)
Theorem manager_reports_neighbours (me : NodeId) (binds : list SocketAddr) (rng : Rng) (m : Manager) (outs : list MOutput) :
  manager_run me binds rng m outs →
  foldl follow_output ∅ (outs ++ nm_queue m) = neighbours m ∧
  ∀ p c, connections m !! p = Some c → nc_pair c = p ∧ nc_local c = node_id m.
Proof. apply manager_run_follows. Qed.
End manager_facts.

(** *** A handshake to evaluate with: the shared key is the sum of two numbers *)

#[local] Instance demo_handshake : Handshake Z Z Z Z := {
  create_public_request rq := inl [rq];
  process_public_response rq res := match res with [r] => inl (rq + r, rq + r) | _ => inr HsInvalidPublicKey end;
  process_public_request rs req := match req with [r] => inl (r + rs, r + rs, [rs]) | _ => inr HsInvalidPublicKey end;
}.

#[local] Instance demo_handshake_laws : HandshakeLaws (Requester := Z) (Responder := Z) (Encryptor := Z) (Decryptor := Z) eq.
Proof.
  split.
  - intros rq rs req [= <-]. by eexists _, _, _.
  - intros rq rs req enc dec res [= <-] [= <- <- <-]. eexists _, _. by split.
Qed.

Definition demo_addr (i : Z) : NetPair := mkNetPair (SocketV4 i 1) (SocketV4 i 2).

Lemma open_handshake_agrees_witness :
  ∃ ca res, new_outgoing 30 1 2 99 (demo_addr 1) 0 = Done ca ∧
    is_connected (nc_state (conn_on_input ca 0 7 2 (ConnectResponse 99 (inl res)))) = true ∧
    nc_session (conn_on_input (new_incoming (Requester := Z) 2 1 99 (demo_addr 2) 5) 12 5 1 (ConnectRequest 2 99 [30])) = 99.
Proof.
  destruct (open_handshake_agrees (Requester := Z) (Responder := Z) eq 1 2 (demo_addr 1) (demo_addr 2) 99 0 5 7 8 30 12 0 [30])
    as (ca & ea & da & eb & db & res & Hca & _ & Hb & _ & Ha & _); [reflexivity|]. exists ca, res. split; [exact Hca|].
  split; [apply Ha|]. reflexivity.
Defined.

Lemma simultaneous_open_agrees_witness :
  ∃ ca cb : NeighbourConnection Z Z Z, new_outgoing 30 1 2 99 (demo_addr 1) 0 = Done ca ∧ new_outgoing 40 2 1 50 (demo_addr 2) 0 = Done cb ∧
    nc_conn (conn_on_input ca 12 5 2 (ConnectRequest 1 50 [40])) = from_in 0 50 ∧
    conn_on_input cb 13 5 1 (ConnectRequest 2 99 [30]) = cb.
Proof.
  eexists _, _. split; [reflexivity|]. split; [reflexivity|].
  destruct (simultaneous_open_agrees (Requester := Z) (Responder := Z) eq 1 2 (demo_addr 1) (demo_addr 2) 99 50 0 5 6 30 40 12 13 [30] [40]
    (mkConnection (from_out 0 99) 1 2 (demo_addr 1) (OutgoingWait 0 30) [ConnOutNet 0 (demo_addr 1) (ConnectRequest 2 99 [30])])
    (mkConnection (from_out 0 50) 2 1 (demo_addr 2) (OutgoingWait 0 40) [ConnOutNet 0 (demo_addr 2) (ConnectRequest 1 50 [40])]))
    as [Hb (ea & da & eb & db & res & (_ & Ha & _) & _)]; [lia|reflexivity..|].
  split; [exact Ha|exact Hb].
Defined.

Lemma connection_lifecycle_witness :
  let c := new_incoming (Requester := Z) (Encryptor := Z) (Decryptor := Z) 2 1 99 (demo_addr 2) 5 in
  let ops := [OpTick 6; OpInput 12 7 1 (ConnectRequest 2 99 [30]); OpTick 8; OpInput 12 9 1 (Pong 99 1 8); OpInput 12 10 1 (DisconnectRequest 99 ReasonOther)] in
  events_of (nc_output (foldl conn_apply c ops)) = [EvConnected 42 42; EvStats (mkConnectionStats 1); EvDisconnected] ∧
  EvDisconnected ∈ events_of (nc_output (foldl conn_apply c ops)).
Proof.
  split; [reflexivity|].
  exact (proj2 (connection_lifecycle (Responder := Z) (new_incoming 2 1 99 (demo_addr 2) 5)
    [OpTick 6; OpInput 12 7 1 (ConnectRequest 2 99 [30]); OpTick 8; OpInput 12 9 1 (Pong 99 1 8); OpInput 12 10 1 (DisconnectRequest 99 ReasonOther)]
    2 1 99 5 (demo_addr 2) 30 (or_intror eq_refl))).
Defined.

(** Before the manager takes its events, a connection whose peer went silent
    reports its end at every tick, and is measured again when a pong arrives. *)
Example end_reported_again :
  let c := new_incoming (Requester := Z) (Encryptor := Z) (Decryptor := Z) 2 1 99 (demo_addr 2) 5 in
  let ops := [OpInput 12 7 1 (ConnectRequest 2 99 [30]); OpTick (7 + CONNECTION_TIMEOUT_MS); OpTick (8 + CONNECTION_TIMEOUT_MS);
              OpInput 12 (9 + CONNECTION_TIMEOUT_MS) 1 (Pong 99 0 7)] in
  events_of (nc_output (foldl conn_apply c ops))
  = [EvConnected 42 42; EvDisconnected; EvDisconnected; EvStats (mkConnectionStats (2 + CONNECTION_TIMEOUT_MS))].
Proof. reflexivity. Qed.

Lemma disconnect_timeout_never_fires_witness :
  let c := disconnect (mkConnection (from_in 0 99) 2 1 (demo_addr 2) (StConnected 0 0 (mkConnectionStats 1) None) []) 5 in
  let times := (λ i : nat, 5 + 1000 * Z.of_nat i) <$> seq 1 20 in
  nc_state c = Disconnecting (Requester := Z) 5 ∧ events_of (Encryptor := Z) (Decryptor := Z) (nc_output (ticks c times)) = [].
Proof.
  split; [reflexivity|].
  destruct (disconnect_timeout_never_fires (Requester := Z) (Encryptor := Z) (Decryptor := Z)
    (disconnect (mkConnection (from_in 0 99) 2 1 (demo_addr 2) (StConnected 0 0 (mkConnectionStats 1) None) []) 5) 5
    ((λ i : nat, 5 + 1000 * Z.of_nat i) <$> seq 1 20) eq_refl) as (He & _).
  - cbn. unfold CONNECTION_TIMEOUT_MS. repeat split; lia.
  - exact He.
Defined.

(** A codec for connect requests and responses, and signatures that always
    validate. *)
#[local] Instance demo_conn_codec : LimitedCodec (Z * NeighboursControlCmds) := {
  try_serialize x := match x with
                     | (t, ConnectRequest to sess hs) => Some (t :: 0 :: to :: sess :: hs)
                     | (t, ConnectResponse sess (inl res)) => Some (t :: 1 :: sess :: res)
                     | _ => None
                     end;
  try_deserialize buf := match buf with
                         | t :: 0 :: to :: sess :: hs => Some (t, ConnectRequest to sess hs)
                         | t :: 1 :: sess :: res => Some (t, ConnectResponse sess (inl res))
                         | _ => None
                         end;
}.
#[local] Instance demo_open_auth : Authorization := { sign _ := []; validate _ _ _ := true }.

Lemma manager_reports_neighbours_witness :
  ∃ m outs, manager_run (Requester := Z) (Responder := Z) (Encryptor := Z) (Decryptor := Z) (λ r : Z, (r, r + 1)) 2 [] 0 m outs ∧
    outs = [OutConnEvent (Connected (mkConnectionCtx (from_in 0 99) 1 (demo_addr 2)) (42, 42))] ∧
    foldl follow_output ∅ (outs ++ nm_queue m) = neighbours m ∧ neighbours m !! (Incoming, 99) ≠ None.
Proof.
  assert (∃ m1, manager_on_input (Responder := Z) (λ r : Z, (r, r + 1)) (λ _, 0) 12 (manager_new (Requester := Z) (Encryptor := Z) (Decryptor := Z) 2 [] 0) 7
    (InControl (demo_addr 2) (mkControl 1 [7; 0; 2; 99; 30] [])) = Done m1 ∧
    ∃ m2, manager_pop_output canonical_order m1 =
      Done (m2, Some (OutConnEvent (Connected (mkConnectionCtx (from_in 0 99) 1 (demo_addr 2)) (42, 42)))) ∧
      neighbours m2 !! (Incoming, 99) ≠ None) as (m1 & H1 & m2 & H2 & H3).
  { eexists. split; [vm_compute; reflexivity|]. eexists. split; [vm_compute; reflexivity|]. by vm_compute. }
  assert (manager_run (Requester := Z) (Responder := Z) (Encryptor := Z) (Decryptor := Z) (λ r : Z, (r, r + 1)) 2 [] 0 m2
    ([] ++ option_list (Some (OutConnEvent (Connected (mkConnectionCtx (from_in 0 99) 1 (demo_addr 2)) (42, 42)))))) as Hrun.
  { eapply run_pop; [|exact H2]. eapply run_input; [apply run_new|exact H1]. }
  exists m2, [OutConnEvent (Connected (mkConnectionCtx (from_in 0 99) 1 (demo_addr 2)) (42, 42))].
  split; [exact Hrun|]. split; [reflexivity|]. split; [|exact H3].
  exact (proj1 (manager_reports_neighbours _ _ _ _ _ _ Hrun)).
Defined.
