(* ===== verification/Hash.v ===== *)
(** * Hashes of strings ([core/utils/src/hash.rs])

    [hash_str] hashes the bytes of a string with the default hasher of the
    standard library: SipHash with one round per word and three at the end, and
    the key zero. A string is the list of its bytes. *)

From S2P Require Import Prelude.

Abbreviation Str := (list Z) (only parsing).

Definition rotl64 (x r : Z) : Z := Z.lor (wrap 64 (Z.shiftl x r)) (Z.shiftr x (64 - r)).

(** ** [DefaultHasher] *)

Record SipState := mkSip { v0 : Z; v1 : Z; v2 : Z; v3 : Z }.

Definition sip_round (s : SipState) : SipState :=
  let a := wrap 64 (v0 s + v1 s) in
  let b := Z.lxor (rotl64 (v1 s) 13) a in
  let a := rotl64 a 32 in
  let c := wrap 64 (v2 s + v3 s) in
  let d := Z.lxor (rotl64 (v3 s) 16) c in
  let a := wrap 64 (a + d) in
  let d := Z.lxor (rotl64 d 21) a in
  let c := wrap 64 (c + b) in
  let b := Z.lxor (rotl64 b 17) c in
  mkSip a b (rotl64 c 32) d.

Definition sip_new : SipState := mkSip 0x736f6d6570736575 0x646f72616e646f6d 0x6c7967656e657261 0x7465646279746573.

Definition sip_word (s : SipState) (m : Z) : SipState :=
  let s := sip_round (mkSip (v0 s) (v1 s) (v2 s) (Z.lxor (v3 s) m)) in
  mkSip (Z.lxor (v0 s) m) (v1 s) (v2 s) (v3 s).

(** The bytes in words of eight, the least significant byte first. *)
Fixpoint le_word (bytes : list Z) : Z :=
  match bytes with
  | [] => 0
  | b :: bytes => Z.lor b (Z.shiftl (le_word bytes) 8)
  end.

Fixpoint sip_write (s : SipState) (bytes : list Z) : SipState * Z :=
  match bytes with
  | b0 :: b1 :: b2 :: b3 :: b4 :: b5 :: b6 :: b7 :: rest => sip_write (sip_word s (le_word [b0; b1; b2; b3; b4; b5; b6; b7])) rest
  | tail => (s, le_word tail)
  end.

Definition sip_finish (s : SipState) (tail length : Z) : Z :=
  let s := sip_word s (Z.lor (Z.shiftl (wrap 8 length) 56) tail) in
  let s := sip_round (sip_round (sip_round (mkSip (v0 s) (v1 s) (Z.lxor (v2 s) 0xff) (v3 s)))) in
  Z.lxor (Z.lxor (v0 s) (v1 s)) (Z.lxor (v2 s) (v3 s)).

Definition hash_str (s : Str) : Z := let r := sip_write sip_new s in sip_finish r.1 r.2 (Z.of_nat (length s)).

(** The values of the unit tests of [hash.rs]. *)
Example hash_hello : hash_str [104; 101; 108; 108; 111] = 16350172494705860510.
Proof. vm_compute. reflexivity. Qed.

Example hash_world : hash_str [119; 111; 114; 108; 100] = 17970961829702799988.
Proof. vm_compute. reflexivity. Qed.

(** ** Range *)

Lemma lor_range w a b : 0 < w → 0 ≤ a < 2 ^ w → 0 ≤ b < 2 ^ w → 0 ≤ Z.lor a b < 2 ^ w.
Proof.
  intros Hw Ha Hb. split; [apply Z.lor_nonneg; lia|]. destruct (decide (Z.lor a b = 0)) as [->|Hne]; [lia|].
  assert (0 ≤ Z.lor a b) by (apply Z.lor_nonneg; lia). apply Z.log2_lt_pow2; [lia|]. rewrite Z.log2_lor by lia.
  assert (∀ x, 0 ≤ x < 2 ^ w → Z.log2 x < w) as Hlog; [|pose proof (Hlog a Ha); pose proof (Hlog b Hb); lia].
  intros x Hx. destruct (decide (x = 0)) as [->|]; [simpl; lia|]. apply Z.log2_lt_pow2; lia.
Qed.

Lemma wrap_u64 x : u64 (wrap 64 x).
Proof. by apply wrap_range. Qed.

Lemma lxor_u64 a b : u64 a → u64 b → u64 (Z.lxor a b).
Proof. by apply lxor_range. Qed.

Lemma rotl64_u64 x r : 0 ≤ r ≤ 64 → u64 x → u64 (rotl64 x r).
Proof.
  intros Hr [Hl Hh]. apply lor_range; [lia|apply wrap_u64|]. rewrite Z.shiftr_div_pow2 by lia. split; [apply Z.div_pos; lia|].
  apply Z.le_lt_trans with x; [|done]. apply Z.div_le_upper_bound; [lia|]. nia.
Qed.

(** Words built by the operations of the hasher. *)
Ltac u64_words :=
  repeat split_and; repeat first [assumption | apply wrap_u64 | apply lxor_u64 | apply rotl64_u64; [lia|] ].

Definition sip_ok (s : SipState) : Prop := u64 (v0 s) ∧ u64 (v1 s) ∧ u64 (v2 s) ∧ u64 (v3 s).

Lemma sip_round_ok s : sip_ok s → sip_ok (sip_round s).
Proof. intros (? & ? & ? & ?). unfold sip_ok, sip_round. cbn [v0 v1 v2 v3]. u64_words. Qed.

Lemma sip_word_ok s m : sip_ok s → u64 m → sip_ok (sip_word s m).
Proof.
  intros (? & ? & ? & ?) Hm. unfold sip_word. set (s' := mkSip _ _ _ _). assert (sip_ok (sip_round s')) as (? & ? & ? & ?).
  { apply sip_round_ok. unfold s', sip_ok. cbn [v0 v1 v2 v3]. u64_words. }
  unfold sip_ok. cbn [v0 v1 v2 v3]. u64_words.
Qed.

Lemma le_word_range bytes : Forall u8 bytes → 0 ≤ le_word bytes < 2 ^ (8 * Z.of_nat (length bytes)).
Proof.
  induction 1 as [|b bytes Hb _ IH]; [done|]. cbn [le_word length]. rewrite Z.lor_comm, lor_shiftl_add by (unfold u8 in Hb; lia).
  replace (8 * Z.of_nat (S (length bytes))) with (8 * Z.of_nat (length bytes) + 8) by lia. rewrite Z.pow_add_r by lia. unfold u8 in Hb. nia.
Qed.

Lemma le_word_u64 bytes : (length bytes ≤ 8)%nat → Forall u8 bytes → u64 (le_word bytes).
Proof.
  intros Hl Hb. pose proof (le_word_range bytes Hb). split; [lia|]. eapply Z.lt_le_trans; [apply H|]. apply Z.pow_le_mono_r; lia.
Qed.

Lemma le_word_tail bytes : (length bytes < 8)%nat → Forall u8 bytes → 0 ≤ le_word bytes < 2 ^ 56.
Proof.
  intros Hl Hb. pose proof (le_word_range bytes Hb). split; [lia|]. eapply Z.lt_le_trans; [apply H|]. apply Z.pow_le_mono_r; lia.
Qed.

Lemma sip_write_ok n : ∀ bytes s, (length bytes ≤ n)%nat → sip_ok s → Forall u8 bytes →
  sip_ok (sip_write s bytes).1 ∧ 0 ≤ (sip_write s bytes).2 < 2 ^ 56.
Proof.
  induction n as [|n IH]; intros bytes s Hl Hs Hb.
  { destruct bytes; [|cbn in Hl; lia]. by split. }
  destruct bytes as [|b0 [|b1 [|b2 [|b3 [|b4 [|b5 [|b6 [|b7 rest]]]]]]]];
    try (split; [done|]; apply le_word_tail; [cbn; lia|done]).
  cbn [sip_write]. apply (Forall_app _ [b0; b1; b2; b3; b4; b5; b6; b7] rest) in Hb as [H8 Hr]. apply IH; [cbn in Hl; lia| |done].
  apply sip_word_ok; [done|]. apply le_word_u64; [cbn; lia|done].
Qed.

(** The hash of a string is a [u64]: a [Map] of the key-value store. *)
Lemma hash_str_u64 s : Forall u8 s → u64 (hash_str s).
Proof.
  intros Hs. unfold hash_str, sip_finish. destruct (sip_write_ok _ s sip_new (le_n _) ltac:(by vm_compute) Hs) as [Hok Ht].
  set (w := Z.lor _ _). assert (u64 w) as Hw.
  { apply lor_range; [lia| |lia]. pose proof (wrap_range 8 (Z.of_nat (length s)) ltac:(lia)). rewrite Z.shiftl_mul_pow2 by lia. lia. }
  pose proof (sip_word_ok _ w Hok Hw) as (? & ? & ? & ?). set (s1 := mkSip _ _ _ _).
  assert (sip_ok s1) as Hs1%sip_round_ok%sip_round_ok%sip_round_ok.
  { unfold s1, sip_ok. cbn [v0 v1 v2 v3]. u64_words. by vm_compute. }
  destruct Hs1 as (? & ? & ? & ?). u64_words.
Qed.
