(* ===== verification/NodeAddr.v ===== *)
(** * Node addresses ([core/identity/src/node_addr.rs],
    [generate_node_addr] of [runner/src/builder.rs])

    How the address of a node is made from its sockets, and its two encodings:
    bytes, as manual discovery stores it, and text, as an operator hands it to
    another node. The [multiaddr] crate is a parameter; a string is the list of
    its bytes. *)

From S2P Require Import Prelude NodeId ConnId Msg Base Control Neighbours.

(** The bytes and the text of a multiaddress ([multiaddr] crate). *)
Class MultiaddrBytes := {
  multiaddr_to_vec : list Protocol → Buffer;
  multiaddr_try_from : Buffer → option (list Protocol);
}.

Class MultiaddrText := {
  multiaddr_print : list Protocol → list Z;
  multiaddr_parse : list Z → option (list Protocol);
}.

(** ** Numbers as text *)

(** [Display] of a [u32]: its decimal digits. *)
Fixpoint print_digits (fuel : nat) (n : Z) (acc : list Z) : list Z :=
  match fuel with
  | O => acc
  | S fuel => if n <? 10 then 48 + n :: acc else print_digits fuel (n / 10) (48 + n mod 10 :: acc)
  end.

Definition print_u32 (n : Z) : list Z := print_digits 10 n [].

(** [u32::from_str] *)
Fixpoint parse_digits (acc : Z) (s : list Z) : option Z :=
  match s with
  | [] => Some acc
  | c :: s =>
      if (48 <=? c) && (c <=? 57) then
        let acc := acc * 10 + (c - 48) in
        if acc <? 2 ^ 32 then parse_digits acc s else None
      else None
  end.

Definition parse_u32 (s : list Z) : option Z :=
  match s with
  | [] => None
  | [c] => if (c =? 43) || (c =? 45) then None else parse_digits 0 s
  | c :: rest => if c =? 43 then parse_digits 0 rest else parse_digits 0 s
  end.

(** [str::split]: the pieces between the separators, at least one. *)
Fixpoint split (sep : Z) (s : list Z) : list (list Z) :=
  match s with
  | [] => [[]]
  | c :: s =>
      if c =? sep then [] :: split sep s
      else match split sep s with piece :: pieces => (c :: piece) :: pieces | [] => [[c]] end
  end.

(** ** [NodeAddr] *)

Definition AT : Z := 64.

Definition node_addr_empty (node_id : NodeId) : NodeAddr := mkNodeAddr node_id [].

Definition node_addr_from_iter (node_id : NodeId) (iter : list Protocol) : NodeAddr := mkNodeAddr node_id iter.

Section encodings.
Context `{MultiaddrBytes} `{MultiaddrText}.

Definition node_addr_to_vec (self : NodeAddr) : Buffer := to_be_bytes32 (addr_node self) ++ multiaddr_to_vec (multiaddr self).

(** The first four bytes are read by index. *)
Definition node_addr_from_vec (buf : Buffer) : outcome (option NodeAddr) :=
  match buf with
  | b0 :: b1 :: b2 :: b3 :: rest => Done (mkNodeAddr (from_be_bytes32 b0 b1 b2 b3) <$> multiaddr_try_from rest)
  | _ => Panic
  end.

(** The errors of [from_str], which are told apart by their text. *)
Inductive NodeAddrError := MissingNodeId | BadNodeId | BadMultiaddr.

Definition node_addr_from_str (s : list Z) : NodeAddr + NodeAddrError :=
  match split AT s with
  | [] => inr MissingNodeId
  | first :: pieces =>
      match parse_u32 first with
      | None => inr BadNodeId
      | Some node_id =>
          match multiaddr_parse (default [] (head pieces)) with
          | None => inr BadMultiaddr
          | Some multiaddr => inl (mkNodeAddr node_id multiaddr)
          end
      end
  end.

Definition node_addr_display (self : NodeAddr) : list Z :=
  match multiaddr self with
  | [] => print_u32 (addr_node self)
  | _ => print_u32 (addr_node self) ++ [AT] ++ multiaddr_print (multiaddr self)
  end.
End encodings.

(** ** [NodeAddrBuilder] *)

Record NodeAddrBuilder := mkNodeAddrBuilder { builder_node_id : NodeId; builder_addr : list Protocol }.

Definition builder_new (node_id : NodeId) : NodeAddrBuilder := mkNodeAddrBuilder node_id [].

Definition add_protocol (self : NodeAddrBuilder) (protocol : Protocol) : NodeAddrBuilder :=
  mkNodeAddrBuilder (builder_node_id self) (builder_addr self ++ [protocol]).

Definition builder_build (self : NodeAddrBuilder) : NodeAddr := mkNodeAddr (builder_node_id self) (builder_addr self).

(** One socket: the two loops of [generate_node_addr] do the same. *)
Definition add_socket (self : NodeAddrBuilder) (addr : SocketAddr) : NodeAddrBuilder :=
  match addr with
  | SocketV4 ip port => add_protocol (add_protocol self (Ip4 ip)) (Udp port)
  | SocketV6 ip port _ _ => add_protocol (add_protocol self (Ip6 ip)) (Udp port)
  end.

Definition generate_node_addr (node_id : NodeId) (bind_addrs custom_ips : list SocketAddr) : NodeAddr :=
  builder_build (foldl add_socket (foldl add_socket (builder_new node_id) bind_addrs) custom_ips).

(** ** Numbers *)

Lemma parse_print_digits fuel : ∀ n acc, 0 ≤ n < 2 ^ 32 → n < 10 ^ Z.of_nat fuel → parse_digits 0 (print_digits fuel n acc) = parse_digits n acc.
Proof.
  induction fuel as [|fuel IH]; intros n acc Hn Hf; cbn [print_digits].
  - replace n with 0 by (cbn in Hf; lia). done.
  - rewrite Nat2Z.inj_succ, Z.pow_succ_r in Hf by lia. destruct (Z.ltb_spec n 10) as [Hlt|Hge].
    + cbn [parse_digits]. rewrite (proj2 (Z.leb_le _ _)), (proj2 (Z.leb_le _ _)) by lia. cbn [andb].
      replace (0 * 10 + (48 + n - 48)) with n by lia. by rewrite (proj2 (Z.ltb_lt _ _)) by lia.
    + pose proof (Z.div_mod n 10 ltac:(lia)). pose proof (Z.mod_pos_bound n 10 ltac:(lia)).
      rewrite IH by lia. cbn [parse_digits]. rewrite (proj2 (Z.leb_le _ _)), (proj2 (Z.leb_le _ _)) by lia. cbn [andb].
      replace (n / 10 * 10 + (48 + n mod 10 - 48)) with n by lia. by rewrite (proj2 (Z.ltb_lt _ _)) by lia.
Qed.

(** The first character is a digit and no sign. *)
Lemma print_digits_head fuel : ∀ n acc, 0 ≤ n → ∃ c s, print_digits (S fuel) n acc = c :: s ∧ (n < 10 ^ Z.of_nat (S fuel) → 48 ≤ c ≤ 57).
Proof.
  induction fuel as [|fuel IH]; intros n acc Hn; cbn [print_digits].
  - destruct (Z.ltb_spec n 10); do 2 eexists; (split; [done|]); cbn; lia.
  - destruct (Z.ltb_spec n 10); [do 2 eexists; (split; [done|]); lia|].
    destruct (IH (n / 10) (48 + n mod 10 :: acc)) as (c & s & Heq & Hc); [apply Z.div_pos; lia|]. exists c, s. split; [exact Heq|].
    intros Hlt. apply Hc. apply Z.div_lt_upper_bound; [lia|]. by rewrite <- Z.pow_succ_r, <- Nat2Z.inj_succ by lia.
Qed.

Lemma parse_print_u32 n : u32 n → parse_u32 (print_u32 n) = Some n.
Proof.
  intros Hn. assert (n < 10 ^ Z.of_nat 10) as Hf by (unfold u32 in Hn; lia). pose proof (parse_print_digits 10 n [] Hn Hf) as Hp.
  unfold print_u32. destruct (print_digits_head 9 n [] ltac:(apply Hn)) as (c & s & Heq & Hc). specialize (Hc Hf). rewrite Heq in *.
  cbn [parse_u32]. rewrite (proj2 (Z.eqb_neq c 43)), (proj2 (Z.eqb_neq c 45)) by lia. by destruct s.
Qed.

Lemma print_digits_chars fuel : ∀ n acc, 0 ≤ n → Forall (λ c, 48 ≤ c ≤ 57) acc → Forall (λ c, 48 ≤ c ≤ 57) (print_digits fuel n acc).
Proof.
  induction fuel as [|fuel IH]; intros n acc Hn Ha; cbn [print_digits]; [done|]. destruct (Z.ltb_spec n 10).
  - constructor; [lia|done].
  - pose proof (Z.mod_pos_bound n 10 ltac:(lia)). apply IH; [apply Z.div_pos; lia|]. constructor; [lia|done].
Qed.

Lemma print_u32_no_at n : 0 ≤ n → AT ∉ print_u32 n.
Proof.
  intros Hn Hin. pose proof (print_digits_chars 10 n [] Hn (Forall_nil_2 _)) as Hc. rewrite Forall_forall in Hc. specialize (Hc _ Hin).
  unfold AT in Hc. lia.
Qed.

(** ** Splitting *)

Lemma split_none sep s : sep ∉ s → split sep s = [s].
Proof.
  induction s as [|c s IH]; intros Hn; [done|]. apply not_elem_of_cons in Hn as [Hc Hs]. cbn [split].
  by rewrite (proj2 (Z.eqb_neq c sep)), IH by congruence.
Qed.

Lemma split_first sep s t : sep ∉ s → split sep (s ++ sep :: t) = s :: split sep t.
Proof.
  induction s as [|c s IH]; intros Hn; cbn [app split]; [by rewrite Z.eqb_refl|]. apply not_elem_of_cons in Hn as [Hc Hs].
  by rewrite (proj2 (Z.eqb_neq c sep)), IH by congruence.
Qed.

(** ** Encodings *)

Section roundtrips.
Context `{MultiaddrBytes} `{MultiaddrText}.

Lemma node_addr_roundtrip (a : NodeAddr) :
  u32 (addr_node a) → multiaddr_try_from (multiaddr_to_vec (multiaddr a)) = Some (multiaddr a) →
  node_addr_from_vec (node_addr_to_vec a) = Done (Some a).
Proof. intros Hu Hm. cbn. rewrite Hm, be32_roundtrip by done. by destruct a. Qed.

(** The crate prints a multiaddress without [@] and reads it back; the empty
    text is the empty address. *)
Definition prints_back (m : list Protocol) : Prop :=
  multiaddr_parse (multiaddr_print m) = Some m ∧ (AT ∉ multiaddr_print m) ∧ multiaddr_parse [] = Some [].

Lemma node_addr_text_roundtrip (a : NodeAddr) :
  u32 (addr_node a) → prints_back (multiaddr a) → node_addr_from_str (node_addr_display a) = inl a.
Proof.
  intros Hu (Hp & Hat & He). pose proof (print_u32_no_at (addr_node a) (proj1 Hu)) as Hn. destruct a as [n m]. cbn in *.
  unfold node_addr_display, node_addr_from_str. cbn [addr_node multiaddr]. destruct m as [|p m].
  - rewrite split_none, parse_print_u32 by done. cbn. by rewrite He.
  - cbn [app]. rewrite split_first, split_none, parse_print_u32 by done. cbn. by rewrite Hp.
Qed.
End roundtrips.

(** ** Sockets *)

(** The socket a multiaddress can tell: without flow and scope. *)
Definition plain_socket (addr : SocketAddr) : SocketAddr :=
  match addr with SocketV4 ip port => SocketV4 ip port | SocketV6 ip port _ _ => SocketV6 ip port 0 0 end.

Definition socket_parts (addr : SocketAddr) : list Protocol :=
  match addr with SocketV4 ip port => [Ip4 ip; Udp port] | SocketV6 ip port _ _ => [Ip6 ip; Udp port] end.

Lemma add_sockets l : ∀ b, foldl add_socket b l = mkNodeAddrBuilder (builder_node_id b) (builder_addr b ++ (l ≫= socket_parts)).
Proof.
  induction l as [|a l IH]; intros b; cbn [foldl]; [rewrite app_nil_r; by destruct b|]. rewrite IH.
  destruct a; cbn; by rewrite <- !app_assoc.
Qed.

Lemma generate_node_addr_parts n l1 l2 : generate_node_addr n l1 l2 = mkNodeAddr n ((l1 ++ l2) ≫= socket_parts).
Proof. unfold generate_node_addr. rewrite !add_sockets. unfold builder_build. cbn. by rewrite bind_app. Qed.

Lemma socket_parts_dests l : ∀ acc, (foldl addr_part acc (l ≫= socket_parts)).2 = acc.2 ++ (plain_socket <$> l).
Proof.
  induction l as [|a l IH]; intros acc; [by rewrite app_nil_r|]. rewrite bind_cons, foldl_app, IH. destruct a; cbn; by rewrite <- app_assoc.
Qed.

Lemma generated_dests n l1 l2 : get_node_addr_dests (generate_node_addr n l1 l2) = plain_socket <$> (l1 ++ l2).
Proof. rewrite generate_node_addr_parts. apply socket_parts_dests. Qed.

(** A socket without flow and scope, which a multiaddress cannot tell. *)
Definition is_plain (addr : SocketAddr) : Prop := plain_socket addr = addr.

Lemma plain_sockets l : Forall is_plain l → plain_socket <$> l = l.
Proof. induction 1 as [|a l Ha _ IH]; [done|]. cbn. by rewrite Ha, IH. Qed.

(** ** Connecting to them *)

Section connect.
Context {Requester Responder Encryptor Decryptor : Type} `{Handshake Requester Responder Encryptor Decryptor}.
Context {auth : Authorization} {cmd_codec : LimitedCodec (Z * NeighboursControlCmds)}.
Context {Rng : Type} (next_u64 : Rng → Z * Rng) (requesters : NetPair → Requester).
Hypothesis requests : ∀ p, ∃ req, create_public_request (requesters p) = inl req.

Abbreviation Manager := (NeighboursManager (Requester := Requester) (Encryptor := Encryptor) (Decryptor := Decryptor) (Rng := Rng)) (only parsing).

(** The pairs of addresses that can be tried. *)
Definition tries (l : list (SocketAddr * SocketAddr)) (p : NetPair) : Prop :=
  (pair_local p, pair_remote p) ∈ l ∧ is_ipv4 (pair_local p) = is_ipv4 (pair_remote p).

(** [m'] has the connections of [m] and an attempt for every other pair. *)
Record tried (now : Z) (dest : NodeId) (l : list (SocketAddr * SocketAddr)) (m m' : Manager) : Prop := {
  tried_node : node_id m' = node_id m;
  tried_keeps : ∀ p c, connections m !! p = Some c → connections m' !! p = Some c;
  tried_new : ∀ p, connections m !! p = None →
    match connections m' !! p with
    | Some c => tries l p ∧ ∃ sess, new_outgoing (requesters p) (node_id m) dest sess p now = Done c
    | None => ¬ tries l p
    end;
}.

Lemma connect_pair_tried now dest m x : ∃ m', connect_pair next_u64 requesters now dest m x = Done m' ∧ tried now dest [x] m m'.
Proof.
  destruct x as [local remote]. unfold connect_pair. assert (∀ p, tries [(local, remote)] p ↔ p = mkNetPair local remote ∧ is_ipv4 local = is_ipv4 remote) as Ht.
  { intros [pl pr]. unfold tries. cbn. rewrite list_elem_of_singleton. split; [by intros [[= -> ->] ?]|by intros [[= -> ->] ?]]. }
  destruct (Bool.eqb (is_ipv4 local) (is_ipv4 remote)) eqn:He; cbn [negb].
  - apply eqb_prop in He. destruct (connections m !! mkNetPair local remote) as [c|] eqn:Hc.
    + exists m. split; [done|]. split; [done..|]. intros p Hp. rewrite Hp, Ht. intros [-> _]. congruence.
    + destruct (next_u64 (random m)) as [sess rng]. destruct (requests (mkNetPair local remote)) as [req Hreq].
      unfold new_outgoing at 1. rewrite Hreq, bind_Done. eexists. split; [done|]. split; cbn [connections node_id]; [done|..].
      * intros p c Hpc. rewrite lookup_insert_ne; congruence.
      * intros p Hp. destruct (decide (p = mkNetPair local remote)) as [->|Hne].
        -- rewrite lookup_insert_eq, Ht. split; [done|]. exists sess. unfold new_outgoing. by rewrite Hreq.
        -- rewrite lookup_insert_ne, Hp, Ht by done. tauto.
  - exists m. split; [done|]. split; [done..|]. intros p Hp. rewrite Hp, Ht. intros [_ Heq]. rewrite Heq, eqb_reflx in He. done.
Qed.

Lemma connect_all_tried now dest l : ∀ m, ∃ m', foldM (connect_pair next_u64 requesters now dest) m l = Done m' ∧ tried now dest l m m'.
Proof.
  induction l as [|x l IH]; intros m; cbn [foldM].
  - exists m. split; [done|]. split; [done..|]. intros p ->. by intros [?%elem_of_nil _].
  - destruct (connect_pair_tried now dest m x) as (m1 & Hm1 & [Hn1 Hk1 Hx1]). rewrite Hm1, bind_Done. destruct (IH m1) as (m2 & Hm2 & [Hn2 Hk2 Hx2]).
    exists m2. split; [done|]. assert (∀ p, tries (x :: l) p ↔ tries [x] p ∨ tries l p) as Ht.
    { intros p. unfold tries. rewrite elem_of_cons, list_elem_of_singleton. tauto. }
    split; [congruence|auto|]. intros p Hp. specialize (Hx1 p Hp). destruct (connections m1 !! p) as [c|] eqn:Hc.
    + rewrite (Hk2 p c Hc), Ht. destruct Hx1 as [? ?]. split; [by left|done].
    + specialize (Hx2 p Hc). destruct (connections m2 !! p); rewrite Ht; [|tauto]. destruct Hx2 as [? Hs]. split; [by right|]. by rewrite <- Hn1.
Qed.
End connect.

(** C38. The address a node prints at its start can be handed to another node
    as a seed. It reads back as text and as bytes, keeps the id, and names the
    sockets the node listens on and those it was told to announce, in this
    order, for any id and any IPv4 and IPv6 sockets without flow and scope.
    The neighbours manager that is asked to connect to it keeps the connections
    it has, and has in addition exactly one fresh outgoing attempt to the node
    from each of its own sockets to each of the named ones of the same address
    family, except where it has a connection between the two already. *)
Theorem seed_names_sockets `{MultiaddrBytes} `{MultiaddrText} {Requester Responder Encryptor Decryptor Rng : Type}
    `{Handshake Requester Responder Encryptor Decryptor} `{Authorization} `{LimitedCodec (Z * NeighboursControlCmds)}
    (seed : NodeId) (binds custom_ips : list SocketAddr) (a : NodeAddr)
    (next_u64 : Rng → Z * Rng) (requesters : NetPair → Requester) (responder : Responder)
    (m : NeighboursManager (Requester := Requester) (Encryptor := Encryptor) (Decryptor := Decryptor) (Rng := Rng)) (now : Z) :
  u32 seed → a = generate_node_addr seed binds custom_ips → Forall is_plain (binds ++ custom_ips) →
  prints_back (multiaddr a) → multiaddr_try_from (multiaddr_to_vec (multiaddr a)) = Some (multiaddr a) →
  (∀ p, ∃ req, create_public_request (requesters p) = inl req) →
  node_addr_from_str (node_addr_display a) = inl a ∧ node_addr_from_vec (node_addr_to_vec a) = Done (Some a) ∧
  addr_node a = seed ∧ get_node_addr_dests a = binds ++ custom_ips ∧
  ∃ m', manager_on_input next_u64 requesters responder m now (ConnectTo a) = Done m' ∧
    (∀ p c, connections m !! p = Some c → connections m' !! p = Some c) ∧
    (∀ p, connections m !! p = None →
      let tries := pair_local p ∈ bind_addrs m ∧ pair_remote p ∈ binds ++ custom_ips ∧ is_ipv4 (pair_local p) = is_ipv4 (pair_remote p) in
      match connections m' !! p with
      | Some c => tries ∧ ∃ sess, new_outgoing (requesters p) (node_id m) seed sess p now = Done c
      | None => ¬ tries
      end).
Proof.
  intros Hu -> Hpl Ht Hb Hreq. set (a := generate_node_addr seed binds custom_ips) in *.
  assert (addr_node a = seed) as Hn by (unfold a; by rewrite generate_node_addr_parts).
  assert (get_node_addr_dests a = binds ++ custom_ips) as Hd by (unfold a; rewrite generated_dests; by apply plain_sockets).
  split; [apply node_addr_text_roundtrip; [by rewrite Hn|done]|]. split; [apply node_addr_roundtrip; [by rewrite Hn|done]|].
  split; [done|]. split; [done|]. cbn [manager_on_input]. rewrite Hn, Hd.
  destruct (connect_all_tried next_u64 requesters Hreq now seed (local ← bind_addrs m; remote ← binds ++ custom_ips; [(local, remote)]) m)
    as (m' & Hm' & [_ Hk Hx]). exists m'. split; [done|]. split; [done|]. intros p Hp. cbn zeta. specialize (Hx p Hp). unfold tries in Hx.
  assert ((pair_local p, pair_remote p) ∈ (local ← bind_addrs m; remote ← binds ++ custom_ips; [(local, remote)])
    ↔ pair_local p ∈ bind_addrs m ∧ pair_remote p ∈ binds ++ custom_ips) as Hin.
  { rewrite list_elem_of_bind. setoid_rewrite list_elem_of_bind. setoid_rewrite list_elem_of_singleton. naive_solver. }
  destruct (connections m' !! p); [destruct Hx as [? ?]; split; [|done]|]; tauto.
Qed.

(** Text after a second [@] is not looked at. *)
Lemma second_at_ignored `{MultiaddrText} (s t rest : list Z) :
  AT ∉ s → AT ∉ t → node_addr_from_str (s ++ AT :: t ++ AT :: rest) = node_addr_from_str (s ++ AT :: t).
Proof. intros Hs Ht. unfold node_addr_from_str. by rewrite !split_first, (split_none _ t) by done. Qed.

(** ** An example

    ["1@/ip4/127.0.0.1/udp/80"], with a crate that knows this address. *)

Definition demo_multiaddr : list Protocol := [Ip4 2130706433; Udp 80].
Definition demo_text : list Z := [47; 105; 112; 52; 47; 49; 50; 55; 46; 48; 46; 48; 46; 49; 47; 117; 100; 112; 47; 56; 48].
Definition demo_bytes : list Z := [4; 127; 0; 0; 1; 145; 2; 0; 80].

#[local] Instance demo_multiaddr_bytes : MultiaddrBytes := {
  multiaddr_to_vec _ := demo_bytes;
  multiaddr_try_from buf := if bool_decide (buf = demo_bytes) then Some demo_multiaddr else None;
}.

#[local] Instance demo_multiaddr_text : MultiaddrText := {
  multiaddr_print _ := demo_text;
  multiaddr_parse s := if bool_decide (s = []) then Some [] else if bool_decide (s = demo_text) then Some demo_multiaddr else None;
}.

#[local] Instance demo_seed_handshake : Handshake unit unit unit unit := {
  create_public_request _ := inl [];
  process_public_response _ _ := inl ((), ());
  process_public_request _ _ := inl ((), (), []);
}.
#[local] Instance demo_seed_auth : Authorization := { sign _ := []; validate _ _ _ := true }.
#[local] Instance demo_seed_codec : LimitedCodec (Z * NeighboursControlCmds) := { try_serialize _ := Some []; try_deserialize _ := None }.

(** A manager with an IPv4 and an IPv6 socket. *)
Definition demo_manager : NeighboursManager (Requester := unit) (Encryptor := unit) (Decryptor := unit) (Rng := Z) :=
  manager_new 2 [SocketV4 1 90; SocketV6 1 90 0 0] 5.

Lemma seed_names_sockets_witness :
  node_addr_from_str (49 :: AT :: demo_text) = inl (mkNodeAddr 1 demo_multiaddr) ∧
  get_node_addr_dests (mkNodeAddr 1 demo_multiaddr) = [SocketV4 2130706433 80] ∧
  ∃ m', manager_on_input (Responder := unit) (λ r, (r, r + 1)) (λ _, ()) () demo_manager 10 (ConnectTo (mkNodeAddr 1 demo_multiaddr)) = Done m' ∧
    connections m' !! mkNetPair (SocketV6 1 90 0 0) (SocketV4 2130706433 80) = None.
Proof.
  assert (prints_back demo_multiaddr) as Hp.
  { split; [vm_compute; reflexivity|]. split; [|vm_compute; reflexivity]. apply (bool_decide_unpack _). vm_compute. exact I. }
  destruct (seed_names_sockets (Responder := unit) 1 [SocketV4 2130706433 80] [] (mkNodeAddr 1 demo_multiaddr) (λ r : Z, (r, r + 1)) (λ _, ()) () demo_manager 10
    ltac:(by vm_compute) ltac:(vm_compute; reflexivity) ltac:(repeat constructor) Hp ltac:(vm_compute; reflexivity) ltac:(by eexists))
    as (Htext & _ & _ & Hd & m' & Hm & _ & Hnew).
  split; [exact Htext|]. split; [exact Hd|]. exists m'. split; [exact Hm|].
  specialize (Hnew (mkNetPair (SocketV6 1 90 0 0) (SocketV4 2130706433 80)) eq_refl). cbn zeta in Hnew.
  destruct (connections m' !! _); [|reflexivity]. destruct Hnew as [(_ & _ & Hf) _]. discriminate Hf.
Defined.
