(* ===== verification/Secure.v ===== *)
(** * Encryption of packets ([base/secure.rs],
    [secure/encryption/x25519_dalek_aes.rs])

    The traits the data plane encrypts with, and their implementation: an
    x25519 key exchange and AES-256-GCM with the time of sending in the nonce.
    The two crates are parameters with their documented laws; the
    implementation is shown to keep the promises of both interfaces. *)

From S2P Require Import Prelude NodeId Msg Base Neighbours.

Inductive EncryptionError := EncryptFailed.
Inductive DecryptionError := DecryptTooSmall | TooOld | DecryptError.

(** [Encryptor] and [Decryptor] *)
Class Encryption (Encryptor Decryptor : Type) := {
  encryptor_encrypt : Encryptor → Z → Buffer → Encryptor * (Buffer + EncryptionError);
  decryptor_decrypt : Decryptor → Z → Buffer → Decryptor * (Buffer + DecryptionError);
}.

(** What the data plane relies on: packets of the size of a datagram are
    encrypted, and the other side reads them while they are fresh, whatever
    was sent, lost or received before. *)
Class EncryptionLaws {Encryptor Decryptor : Type} `{Encryption Encryptor Decryptor}
    (paired : Encryptor → Decryptor → Prop) (lifetime : Z) := {
  encrypt_total enc now data : Z.of_nat (length data) < 2 ^ 16 →
    ∃ enc' cipher, encryptor_encrypt enc now data = (enc', inl cipher);
  decrypt_fresh enc dec t now data enc' cipher :
    paired enc dec → encryptor_encrypt enc t data = (enc', inl cipher) → 0 ≤ t → t + lifetime < 2 ^ 64 → now ≤ t + lifetime →
    ∃ dec', decryptor_decrypt dec now cipher = (dec', inl data);
  encrypt_keeps_paired enc dec now data : paired enc dec → paired (encryptor_encrypt enc now data).1 dec;
  decrypt_keeps_paired enc dec now cipher : paired enc dec → paired enc (decryptor_decrypt dec now cipher).1;
}.

(** ** x25519 and AES-256-GCM *)

(** [x25519_dalek]: [Secret] is [EphemeralSecret]. *)
Class X25519 (Secret : Type) := {
  public_key : Secret → Buffer;
  diffie_hellman : Secret → Buffer → Buffer;
}.

Class X25519Laws (Secret : Type) `{X25519 Secret} := {
  public_key_length s : length (public_key s) = 32%nat;
  diffie_hellman_agrees a b : diffie_hellman a (public_key b) = diffie_hellman b (public_key a);
}.

(** [aes_gcm]: key, nonce and text. *)
Class AesGcm := {
  encrypt_in_place : Buffer → Buffer → Buffer → option Buffer;
  decrypt_in_place : Buffer → Buffer → Buffer → option Buffer;
}.

Class AesGcmLaws `{AesGcm} := {
  aes_encrypts key nonce text : Z.of_nat (length text) < 2 ^ 16 → is_Some (encrypt_in_place key nonce text);
  aes_roundtrip key nonce text cipher : encrypt_in_place key nonce text = Some cipher → decrypt_in_place key nonce cipher = Some text;
}.

Definition XDA_MSG_TIMEOUT_MS : Z := 5000.

(** [u64::to_be_bytes], [u64::from_be_bytes] *)
Definition to_be_bytes64 (x : Z) : Buffer := to_be_bytes32 (x / 2 ^ 32) ++ to_be_bytes32 x.
Definition from_be_bytes64 (bytes : Buffer) : Z := foldl (λ acc b, acc * 2 ^ 8 + b) 0 bytes.

Section xda.
Context {Secret : Type} `{X25519 Secret} `{AesGcm}.

Record HandshakeRequesterXDA := mkRequesterXDA { requester_key : option Secret }.
Record HandshakeResponderXDA := mkResponderXDA { responder_key : option Secret }.

(** [OsRng] is the random bytes the encryptor will draw. *)
Record EncryptorXDA := mkEncryptorXDA { enc_key : Buffer; enc_random : nat → Z }.
Record DecryptorXDA := mkDecryptorXDA { dec_key : Buffer }.

Definition encryptor_new (random : nat → Z) (shared_key : Buffer) : EncryptorXDA := mkEncryptorXDA shared_key random.
Definition decryptor_new (shared_key : Buffer) : DecryptorXDA := mkDecryptorXDA shared_key.

Definition requester_request (self : HandshakeRequesterXDA) : Buffer + HandshakeError :=
  match requester_key self with
  | Some key => inl (public_key key)
  | None => inr HsInvalidState
  end.

Definition requester_response (random : nat → Z) (self : HandshakeRequesterXDA) (response : Buffer)
    : HandshakeRequesterXDA * ((EncryptorXDA * DecryptorXDA) + HandshakeError) :=
  if bool_decide (length response = 32%nat) then
    match requester_key self with
    | Some key =>
        let shared_key := diffie_hellman key response in
        (mkRequesterXDA None, inl (encryptor_new random shared_key, decryptor_new shared_key))
    | None => (mkRequesterXDA None, inr HsInvalidState)
    end
  else (self, inr HsInvalidPublicKey).

Definition responder_request (random : nat → Z) (self : HandshakeResponderXDA) (request : Buffer)
    : HandshakeResponderXDA * ((EncryptorXDA * DecryptorXDA * Buffer) + HandshakeError) :=
  if bool_decide (length request = 32%nat) then
    match responder_key self with
    | Some key =>
        let response := public_key key in
        let shared_key := diffie_hellman key request in
        (mkResponderXDA None, inl (encryptor_new random shared_key, decryptor_new shared_key, response))
    | None => (mkResponderXDA None, inr HsInvalidState)
    end
  else (self, inr HsInvalidPublicKey).

Definition xda_encrypt (self : EncryptorXDA) (now_ms : Z) (buf : Buffer) : EncryptorXDA * (Buffer + EncryptionError) :=
  let nonce := take 4 (enc_random self <$> seq 0 12) ++ to_be_bytes64 now_ms in
  (mkEncryptorXDA (enc_key self) (λ n, enc_random self (12 + n)%nat),
   match encrypt_in_place (enc_key self) nonce buf with
   | Some cipher => inl (cipher ++ nonce)
   | None => inr EncryptFailed
   end).

Definition xda_decrypt (self : DecryptorXDA) (now_ms : Z) (data : Buffer) : DecryptorXDA * (Buffer + DecryptionError) :=
  (self,
   if bool_decide (length data < 12)%nat then inr DecryptTooSmall
   else
     let nonce := drop (length data - 12) data in
     let data := take (length data - 12) data in
     let sent_ts := from_be_bytes64 (drop 4 nonce) in
     if wrap 64 (sent_ts + XDA_MSG_TIMEOUT_MS) <? now_ms then inr TooOld
     else match decrypt_in_place (dec_key self) nonce data with
          | Some text => inl text
          | None => inr DecryptError
          end).

(** The interfaces. A connection creates a requester or a responder for one
    handshake and drops it once it holds the keys. *)
#[export] Instance xda_encryption : Encryption EncryptorXDA DecryptorXDA := {
  encryptor_encrypt := xda_encrypt;
  decryptor_decrypt := xda_decrypt;
}.

#[export] Instance xda_handshake : Handshake (Secret * (nat → Z)) (Secret * (nat → Z)) EncryptorXDA DecryptorXDA := {
  create_public_request rq := requester_request (mkRequesterXDA (Some rq.1));
  process_public_response rq res := (requester_response rq.2 (mkRequesterXDA (Some rq.1)) res).2;
  process_public_request rs req := (responder_request rs.2 (mkResponderXDA (Some rs.1)) req).2;
}.
End xda.

Arguments HandshakeRequesterXDA Secret : clear implicits.
Arguments HandshakeResponderXDA Secret : clear implicits.

(** ** Facts *)

Lemma be64_roundtrip x : u64 x → from_be_bytes64 (to_be_bytes64 x) = x.
Proof.
  intros Hx. unfold u64 in Hx. assert (u32 (x / 2 ^ 32)) as Hhi.
  { split; [apply Z.div_pos; lia | apply Z.div_lt_upper_bound; lia]. }
  assert (u32 (x mod 2 ^ 32)) as Hlo by (apply Z.mod_pos_bound; lia).
  pose proof (be32_roundtrip _ Hhi) as Ehi. pose proof (be32_roundtrip _ Hlo) as Elo.
  assert (∀ i, 0 ≤ i ≤ 3 → byte_at (x mod 2 ^ 32) i = byte_at x i) as Hb.
  { intros i Hi. unfold byte_at, wrap. rewrite <- !Z.land_ones by lia. apply Z.bits_inj'. intros n Hn.
    rewrite !Z.land_spec, !Z.shiftr_spec, !Z.land_spec, !Z.testbit_ones by lia. destruct (Z.ltb_spec n 8).
    - rewrite (proj2 (Z.ltb_lt (n + 8 * i) 32)), (proj2 (Z.leb_le 0 (n + 8 * i))) by lia. by rewrite !andb_true_r.
    - by rewrite !andb_false_r. }
  rewrite !Hb in Elo by lia. unfold from_be_bytes64, to_be_bytes64, to_be_bytes32. cbn [app foldl]. unfold from_be_bytes32 in *.
  pose proof (Z.div_mod x (2 ^ 32)). lia.
Qed.

Section xda_facts.
Context {Secret : Type} `{X25519Laws Secret} `{AesGcmLaws}.

Definition same_key (enc : EncryptorXDA) (dec : DecryptorXDA) : Prop := enc_key enc = dec_key dec.

Lemma xda_encrypted enc t data enc' cipher :
  xda_encrypt enc t data = (enc', inl cipher) →
  ∃ text nonce, cipher = text ++ nonce ∧ length nonce = 12%nat ∧ drop 4 nonce = to_be_bytes64 t ∧
    encrypt_in_place (enc_key enc) nonce data = Some text.
Proof.
  unfold xda_encrypt. set (nonce := take 4 _ ++ _). destruct (encrypt_in_place _ nonce data) as [text|] eqn:He; [|done].
  intros [= _ <-]. by exists text, nonce.
Qed.

(** What the receiver makes of a packet of its peer, at any time. *)
Lemma xda_decrypted enc dec t now data enc' cipher :
  same_key enc dec → xda_encrypt enc t data = (enc', inl cipher) → 0 ≤ t → t + XDA_MSG_TIMEOUT_MS < 2 ^ 64 →
  xda_decrypt dec now cipher = (dec, if t + XDA_MSG_TIMEOUT_MS <? now then inr TooOld else inl data).
Proof.
  intros Hk (text & nonce & -> & Hn & Ht & He)%xda_encrypted Hlo Hhi. unfold xda_decrypt. f_equal.
  rewrite bool_decide_false by (rewrite length_app; lia).
  assert (length (text ++ nonce) - 12 = length text)%nat as -> by (rewrite length_app; lia).
  rewrite drop_app_length, take_app_length, Ht, be64_roundtrip by (unfold u64, XDA_MSG_TIMEOUT_MS in *; lia).
  rewrite wrap_small by (unfold XDA_MSG_TIMEOUT_MS in *; lia). rewrite <- Hk. destruct (_ <? now); [done|].
  by rewrite (aes_roundtrip _ _ _ _ He).
Qed.

(** The implementation keeps what the interfaces promise. *)
#[export] Instance xda_encryption_laws : EncryptionLaws (Encryptor := EncryptorXDA) (Decryptor := DecryptorXDA) same_key XDA_MSG_TIMEOUT_MS.
Proof.
  split; try done.
  - intros enc now data Hl. cbn [encryptor_encrypt xda_encryption]. unfold xda_encrypt.
    set (nonce := take 4 _ ++ _). destruct (aes_encrypts (enc_key enc) nonce data Hl) as [c ->]. by eexists _, _.
  - intros enc dec t now data enc' cipher Hk He Hlo Hhi Hn. exists dec. cbn [decryptor_decrypt xda_encryption] in *.
    rewrite (xda_decrypted _ _ _ _ _ _ _ Hk He Hlo Hhi). by destruct (Z.ltb_spec (t + XDA_MSG_TIMEOUT_MS) now); [lia|].
Qed.

#[export] Instance xda_handshake_laws :
  HandshakeLaws (Requester := Secret * (nat → Z)) (Responder := Secret * (nat → Z)) (Encryptor := EncryptorXDA) (Decryptor := DecryptorXDA) same_key.
Proof.
  split.
  - intros rq rs req [= <-]. cbn. unfold responder_request. rewrite bool_decide_true by apply public_key_length. by eexists _, _, _.
  - intros rq rs req enc dec res [= <-]. cbn. unfold responder_request. rewrite bool_decide_true by apply public_key_length.
    intros [= <- <- <-]. cbn. unfold requester_response. rewrite bool_decide_true by apply public_key_length.
    eexists _, _. split; [done|]. unfold same_key. cbn. split; [|symmetry]; apply diffie_hellman_agrees.
Qed.

(** C17. After a handshake of a fresh requester and a fresh responder, a packet
    encrypted by either side is opened by the other exactly while it is at
    most [XDA_MSG_TIMEOUT_MS] old and refused as too old afterwards, whatever
    either side has encrypted or decrypted before. *)
Theorem packets_open_while_fresh (a b : Secret) (ra rb : nat → Z) :
  ∃ req res enc_a dec_a enc_b dec_b,
    requester_request (mkRequesterXDA (Some a)) = inl req ∧
    responder_request rb (mkResponderXDA (Some b)) req = (mkResponderXDA None, inl (enc_b, dec_b, res)) ∧
    requester_response ra (mkRequesterXDA (Some a)) res = (mkRequesterXDA None, inl (enc_a, dec_a)) ∧
    ∀ (t now : Z) (data : Buffer) (before : list (Z * Buffer)) (enc : EncryptorXDA) (dec : DecryptorXDA),
      0 ≤ t → t + XDA_MSG_TIMEOUT_MS < 2 ^ 64 → Z.of_nat (length data) < 2 ^ 16 →
      (enc = enc_a ∧ dec = dec_b ∨ enc = enc_b ∧ dec = dec_a) →
      let enc1 := foldl (λ e p, (xda_encrypt e p.1 p.2).1) enc before in
      let dec1 := foldl (λ d p, (xda_decrypt d p.1 p.2).1) dec before in
      ∃ enc2 cipher, xda_encrypt enc1 t data = (enc2, inl cipher) ∧
        (now ≤ t + XDA_MSG_TIMEOUT_MS → xda_decrypt dec1 now cipher = (dec1, inl data)) ∧
        (t + XDA_MSG_TIMEOUT_MS < now → xda_decrypt dec1 now cipher = (dec1, inr TooOld)).
Proof.
  assert (create_public_request (Handshake := xda_handshake) (a, ra) = inl (public_key a)) as Hreq by done.
  destruct (handshake_accepts (a, ra) (b, rb) (public_key a) Hreq) as (enc_b & dec_b & res & Hb).
  destruct (handshake_agrees (a, ra) (b, rb) (public_key a) enc_b dec_b res Hreq Hb) as (enc_a & dec_a & Ha & Hba & Hab).
  exists (public_key a), res, enc_a, dec_a, enc_b, dec_b. cbn in Ha, Hb. split_and!; [done| | |].
  { unfold responder_request in *. rewrite bool_decide_true in * by apply public_key_length. cbn in *. by simplify_eq. }
  { unfold requester_response in *. case_bool_decide; cbn in *; by simplify_eq. }
  intros t now data before enc dec Hlo Hhi Hl Hside enc1 dec1.
  assert (same_key enc1 dec1) as Hk.
  { assert (same_key enc dec) as Hk by (destruct Hside as [[-> ->]|[-> ->]]; done). unfold enc1, dec1. clear -Hk.
    revert enc dec Hk. induction before as [|p l IH]; intros enc dec Hk; [done|]. cbn [foldl]. by apply IH. }
  destruct (encrypt_total enc1 t data Hl) as (enc2 & cipher & He). exists enc2, cipher. split; [done|].
  rewrite (xda_decrypted _ _ _ _ _ _ _ Hk He Hlo Hhi).
  split; intros; destruct (Z.ltb_spec (t + XDA_MSG_TIMEOUT_MS) now); (done || lia).
Qed.
End xda_facts.

(** *** A key exchange and a cipher, to evaluate with *)

#[local] Instance demo_x25519 : X25519 Z := {
  public_key s := replicate 31 0 ++ [s];
  diffie_hellman s p := [s + p !!! 31%nat];
}.

#[local] Instance demo_x25519_laws : X25519Laws Z.
Proof. split; [done|]. intros a b. cbn. by rewrite Z.add_comm. Qed.

#[local] Instance demo_aes : AesGcm := {
  encrypt_in_place key _ text := Some (key ++ text);
  decrypt_in_place key _ cipher := if bool_decide (take (length key) cipher = key) then Some (drop (length key) cipher) else None;
}.

#[local] Instance demo_aes_laws : AesGcmLaws.
Proof.
  split; [done|]. intros key nonce text cipher [= <-]. cbn. by rewrite take_app_length, bool_decide_true, drop_app_length by done.
Qed.

Lemma packets_open_while_fresh_witness :
  ∃ enc dec enc2 cipher, xda_encrypt enc 100 [1; 2; 3] = (enc2, inl cipher) ∧
    xda_decrypt dec 5100 cipher = (dec, inl [1; 2; 3]) ∧ xda_decrypt dec 5101 cipher = (dec, inr TooOld).
Proof.
  destruct (packets_open_while_fresh 7 9 (λ _, 1) (λ _, 2)) as (req & res & ea & da & eb & db & _ & _ & _ & Hopen).
  destruct (Hopen 100 5100 [1; 2; 3] [] ea db) as (e2 & c & He & Hfresh & _); [lia|unfold XDA_MSG_TIMEOUT_MS; lia|vm_compute; reflexivity|by left|].
  destruct (Hopen 100 5101 [1; 2; 3] [] ea db) as (e3 & c3 & He3 & _ & Hold); [lia|unfold XDA_MSG_TIMEOUT_MS; lia|vm_compute; reflexivity|by left|].
  cbn [foldl] in *. rewrite He in He3. injection He3 as <- <-.
  exists ea, db, e2, c. split_and!; [exact He|apply Hfresh|apply Hold]; unfold XDA_MSG_TIMEOUT_MS; lia.
Defined.
