(* ===== verification/DhtMsg.v ===== *)
(** * Messages of the key-value store ([features/dht_kv/msg.rs], types of [features/dht_kv/mod.rs])

    A map is stored on the node that owns its key in the id space (the relay);
    every sub-key of it is written by its source nodes and watched by the
    subscribers. Values are byte lists, versions and ids are [u64]s. *)

From S2P Require Import Prelude NodeId.

Abbreviation Map := Z (only parsing).
Abbreviation Key := Z (only parsing).
Abbreviation Version := Z (only parsing).
Abbreviation Bytes := (list Z) (only parsing).

(** [NodeSession(pub NodeId, pub u64)] *)
Abbreviation NodeSession := (NodeId * Z)%type (only parsing).

Inductive ClientMapCommand :=
| CSet (key : Key) (version : Version) (data : Bytes)
| CDel (key : Key) (version : Version)
| CSub (id : Z) (locked : option NodeSession)
| CUnsub (id : Z)
| COnSetAck (key : Key) (source : NodeSession) (version : Version)
| COnDelAck (key : Key) (source : NodeSession) (version : Version).

Definition client_is_creator (c : ClientMapCommand) : bool :=
  match c with CSet _ _ _ | CSub _ _ => true | _ => false end.

Inductive ClientCommand :=
| ClientMapCmd (map : Map) (cmd : ClientMapCommand)
| ClientMapGet (map : Map) (id : Z).

Inductive ServerMapEvent :=
| SSetOk (key : Key) (version : Version)
| SDelOk (key : Key) (version : Version)
| SSubOk (id : Z)
| SUnsubOk (id : Z)
| SOnSet (key : Key) (source : NodeSession) (version : Version) (data : Bytes)
| SOnDel (key : Key) (source : NodeSession) (version : Version).

Inductive ServerEvent :=
| ServerMapEv (map : Map) (event : ServerMapEvent)
| ServerMapGetRes (map : Map) (id : Z) (values : list (Key * NodeSession * Version * Bytes)).

Inductive RemoteCommand :=
| RemoteClient (session : NodeSession) (cmd : ClientCommand)
| RemoteServer (session : NodeSession) (event : ServerEvent).

(** ** The interface of the feature *)

Inductive MapControl := MSet (key : Key) (data : Bytes) | MDel (key : Key) | MSub | MUnsub.

Definition is_creator (c : MapControl) : bool :=
  match c with MSet _ _ | MSub => true | _ => false end.

Inductive Control := MapCmd (map : Map) (control : MapControl) | MapGet (map : Map).

Inductive GetError := GetTimeout | GetNotFound.

Inductive MapEvent :=
| EvOnSet (key : Key) (source : NodeId) (data : Bytes)
| EvOnDel (key : Key) (source : NodeId)
| EvOnRelaySelected (node : NodeId).

Inductive Event :=
| EvMapEvent (map : Map) (event : MapEvent)
| EvMapGetRes (map : Map) (res : list (Key * NodeSession * Version * Bytes) + GetError).

#[global] Instance ServerMapEvent_eq_dec : EqDecision ServerMapEvent.
Proof. solve_decision. Defined.
#[global] Instance ClientMapCommand_eq_dec : EqDecision ClientMapCommand.
Proof. solve_decision. Defined.
