(* ===== verification/DhtServer.v ===== *)
(** * The relay of the key-value store ([features/dht_kv/server.rs], [server/map.rs])

    Per map: one slot per sub-key and source, the subscribers with the time
    they were last heard of, and the events that wait for acknowledgements.
    Iterations over hash maps take their order as an argument. *)

From S2P Require Import Prelude NodeId DhtMsg.

Definition RESEND_MS : Z := 200.
Definition TIMEOUT_MS : Z := 10000.

Inductive MapSlot :=
| Unspecific
| SlotSet (data : Bytes) (version : Version) (live_at : Z).

Definition slot_new : MapSlot := Unspecific.

Definition slot_set (s : MapSlot) (now : Z) (new_version : Version) (new_data : Bytes) : MapSlot * bool :=
  match s with
  | Unspecific => (SlotSet new_data new_version now, true)
  | SlotSet _ version _ =>
      if version <=? new_version then (SlotSet new_data new_version now, true) else (s, false)
  end.

Definition slot_del (s : MapSlot) (version : Version) : MapSlot * option Version :=
  match s with
  | Unspecific => (s, None)
  | SlotSet _ current_version _ =>
      if current_version <=? version then (Unspecific, Some current_version) else (s, None)
  end.

Definition slot_dump (s : MapSlot) : option (Version * Bytes) :=
  match s with
  | Unspecific => None
  | SlotSet data version _ => Some (version, data)
  end.

Record WaitAcksEvent := mkWait {
  wait_event : ServerMapEvent;
  wait_remotes : list NodeSession;
  created_at : Z;
  last_send_ms : Z;
}.

Record SubSlot := mkSubSlot { sub_id : Z; last_ts : Z }.

Abbreviation SlotKey := (Key * NodeSession)%type (only parsing).

Record RemoteMap := mkRemoteMap {
  rm_session : NodeSession;
  rm_slots : gmap SlotKey MapSlot;
  slots_event : gmap SlotKey WaitAcksEvent;
  subs : gmap NodeSession SubSlot;
  rm_queue : list (NodeSession * ServerMapEvent);
}.

Definition remote_map_new (session : NodeSession) : RemoteMap := mkRemoteMap session ∅ ∅ ∅ [].

Definition with_slots (m : RemoteMap) (slots : gmap SlotKey MapSlot) : RemoteMap :=
  mkRemoteMap (rm_session m) slots (slots_event m) (subs m) (rm_queue m).
Definition with_events (m : RemoteMap) (events : gmap SlotKey WaitAcksEvent) : RemoteMap :=
  mkRemoteMap (rm_session m) (rm_slots m) events (subs m) (rm_queue m).
Definition with_subs (m : RemoteMap) (subs : gmap NodeSession SubSlot) : RemoteMap :=
  mkRemoteMap (rm_session m) (rm_slots m) (slots_event m) subs (rm_queue m).

(** The first loop of [on_tick]: subscribers that went silent. *)
Definition stale_sub (now : Z) (slot : SubSlot) : bool := wrap 64 (last_ts slot + TIMEOUT_MS) <=? now.

(** The body of the second loop of [on_tick] for one waiting event. *)
Definition tick_event (now : Z) (acc : gmap SlotKey WaitAcksEvent * list SlotKey * list (NodeSession * ServerMapEvent))
    (entry : SlotKey * WaitAcksEvent) : gmap SlotKey WaitAcksEvent * list SlotKey * list (NodeSession * ServerMapEvent) :=
  let '(events, to_remove, queue) := acc in
  let '(key, slot) := entry in
  if wrap 64 (TIMEOUT_MS + created_at slot) <=? now then (events, to_remove ++ [key], queue)
  else if wrap 64 (RESEND_MS + last_send_ms slot) <=? now then
    (* [last_send_ms] is only written inside the loop over the remotes *)
    match wait_remotes slot with
    | [] => acc
    | remotes => (<[key := mkWait (wait_event slot) remotes (created_at slot) now]> events, to_remove,
                  queue ++ ((λ r, (r, wait_event slot)) <$> remotes))
    end
  else acc.

Definition remote_on_tick (order : HashOrder) (m : RemoteMap) (now : Z) : RemoteMap :=
  let to_remove := fst <$> filter (λ e, stale_sub now e.2 = true) (hash_iter (subs m)) in
  let subs := remove_all to_remove (subs m) in
  let '(events, to_remove, queue) :=
    foldl (tick_event now) (slots_event m, [], rm_queue m) (hash_iter (slots_event m)) in
  mkRemoteMap (rm_session m) (rm_slots m) (remove_all to_remove events) subs queue.

Definition remote_dump (order : HashOrder) (m : RemoteMap) : list (Key * NodeSession * Version * Bytes) :=
  omap (λ '((key, session), slot),
          match slot_dump slot with
          | Some (version, data) => Some (key, session, version, data)
          | None => None
          end) (hash_iter (rm_slots m)).

(** [fire_event]: to every subscriber but the source. *)
Definition fire_event (order : HashOrder) (m : RemoteMap) (now : Z) (key : Key) (source : NodeSession)
    (event : ServerMapEvent) : RemoteMap :=
  if bool_decide (subs m = ∅) then m
  else
    let remotes := filter (λ r, r ≠ source) (fst <$> hash_iter (subs m)) in
    mkRemoteMap (rm_session m) (rm_slots m)
      (<[(key, source) := mkWait event remotes now now]> (slots_event m)) (subs m)
      (rm_queue m ++ ((λ r, (r, event)) <$> remotes)).

(** The body of the loop of [fire_sub_events] for one slot. *)
Definition fire_sub_step (now : Z) (remote : NodeSession) (m : RemoteMap) (entry : SlotKey * MapSlot) : RemoteMap :=
  let '((key, source), slot) := entry in
  if bool_decide (source = remote) then m
  else match slot_dump slot with
       | Some (version, data) =>
           let event := SOnSet key source version data in
           let wait := default (mkWait event [] now now) (slots_event m !! (key, source)) in
           let remotes := if bool_decide (remote ∈ wait_remotes wait) then wait_remotes wait
                          else wait_remotes wait ++ [remote] in
           mkRemoteMap (rm_session m) (rm_slots m)
             (<[(key, source) := mkWait (wait_event wait) remotes (created_at wait) (last_send_ms wait)]> (slots_event m))
             (subs m) (rm_queue m ++ [(remote, event)])
       | None => m
       end.

Definition fire_sub_events (order : HashOrder) (m : RemoteMap) (now : Z) (remote : NodeSession) : RemoteMap :=
  foldl (fire_sub_step now remote) m (hash_iter (rm_slots m)).

(** The common part of the two acknowledgements: the acked version is the
    one that waits. *)
Definition acked (m : RemoteMap) (remote : NodeSession) (sk : SlotKey) (slot : WaitAcksEvent) : RemoteMap :=
  let remotes := filter (λ r, r ≠ remote) (wait_remotes slot) in
  match remotes with
  | [] => with_events m (delete sk (slots_event m))
  | _ => with_events m (<[sk := mkWait (wait_event slot) remotes (created_at slot) (last_send_ms slot)]> (slots_event m))
  end.

(** [on_client]. The [expect] of [Set] follows a [get_slot] that creates the
    slot, so it cannot fail: a missing slot counts as a new one. *)
Definition on_client (order : HashOrder) (m : RemoteMap) (now : Z) (remote : NodeSession) (cmd : ClientMapCommand)
    : RemoteMap * option ServerMapEvent :=
  match cmd with
  | CSet key version data =>
      let '(slot, changed) := slot_set (default slot_new (rm_slots m !! (key, remote))) now version data in
      let m := with_slots m (<[(key, remote) := slot]> (rm_slots m)) in
      if changed : bool then (fire_event order m now key remote (SOnSet key remote version data), Some (SSetOk key version))
      else (m, None)
  | CDel key req_version =>
      match rm_slots m !! (key, remote) with
      | None => (m, None)
      | Some slot =>
          match slot_del slot req_version with
          | (_, Some version) =>
              let m := with_slots m (delete (key, remote) (rm_slots m)) in
              (fire_event order m now key remote (SOnDel key remote version), Some (SDelOk key version))
          | (slot, None) => (with_slots m (<[(key, remote) := slot]> (rm_slots m)), None)
          end
      end
  | CSub id locked_session =>
      let old := subs m !! remote in
      let m := with_subs m (<[remote := mkSubSlot id now]> (subs m)) in
      if bool_decide (old = None ∨ locked_session ≠ Some (rm_session m))
      then (fire_sub_events order m now remote, Some (SSubOk id))
      else (m, Some (SSubOk id))
  | CUnsub id =>
      match subs m !! remote with
      | None => (m, None)
      | Some sub => if sub_id sub =? id then (with_subs m (delete remote (subs m)), Some (SUnsubOk id)) else (m, None)
      end
  | COnSetAck key session acked_version =>
      match slots_event m !! (key, session) with
      | Some slot =>
          match wait_event slot with
          | SOnSet _ _ version _ => if acked_version =? version then (acked m remote (key, session) slot, None) else (m, None)
          | _ => (m, None)
          end
      | None => (m, None)
      end
  | COnDelAck key session acked_version =>
      match slots_event m !! (key, session) with
      | Some slot =>
          match wait_event slot with
          | SOnDel _ _ version => if acked_version =? version then (acked m remote (key, session) slot, None) else (m, None)
          | _ => (m, None)
          end
      | None => (m, None)
      end
  end.

Definition remote_pop_action (m : RemoteMap) : RemoteMap * option (NodeSession * ServerMapEvent) :=
  match rm_queue m with
  | [] => (m, None)
  | a :: rest => (mkRemoteMap (rm_session m) (rm_slots m) (slots_event m) (subs m) rest, Some a)
  end.

Definition should_clean (m : RemoteMap) : bool :=
  bool_decide (rm_slots m = ∅) && bool_decide (subs m = ∅) && bool_decide (slots_event m = ∅).

(** ** [server.rs] *)

Record RemoteStorage := mkRemoteStorage {
  rst_session : NodeSession;
  rst_maps : gmap Map RemoteMap;
  rst_queue : list (NodeSession * ServerEvent);
}.

Definition remote_storage_new (session : NodeSession) : RemoteStorage := mkRemoteStorage session ∅ [].

(** [while let Some(..) = map.pop_action()]: everything queued, in order. *)
Definition drain_map (key : Map) (m : RemoteMap) (queue : list (NodeSession * ServerEvent))
    : RemoteMap * list (NodeSession * ServerEvent) :=
  (mkRemoteMap (rm_session m) (rm_slots m) (slots_event m) (subs m) [],
   drain_into (λ '(session, event), (session, ServerMapEv key event)) (rm_queue m) queue).

Definition tick_map (order : HashOrder) (now : Z) (acc : gmap Map RemoteMap * list Map * list (NodeSession * ServerEvent))
    (entry : Map * RemoteMap) : gmap Map RemoteMap * list Map * list (NodeSession * ServerEvent) :=
  let '(maps, to_remove, queue) := acc in
  let '(key, map) := entry in
  let '(map, queue) := drain_map key (remote_on_tick order map now) queue in
  (<[key := map]> maps, if should_clean map then to_remove ++ [key] else to_remove, queue).

Definition storage_on_tick (order : HashOrder) (s : RemoteStorage) (now : Z) : RemoteStorage :=
  let '(maps, to_remove, queue) := foldl (tick_map order now) (rst_maps s, [], rst_queue s) (hash_iter (rst_maps s)) in
  mkRemoteStorage (rst_session s) (remove_all to_remove maps) queue.

Definition storage_on_remote (order : HashOrder) (s : RemoteStorage) (now : Z) (remote : NodeSession) (cmd : ClientCommand)
    : RemoteStorage :=
  match cmd with
  | ClientMapCmd key cmd =>
      match match rst_maps s !! key with
            | Some map => Some map
            | None => if client_is_creator cmd then Some (remote_map_new (rst_session s)) else None
            end with
      | None => s
      | Some map =>
          match on_client order map now remote cmd with
          | (map, Some event) =>
              let queue := rst_queue s ++ [(remote, ServerMapEv key event)] in
              let '(map, queue) := drain_map key map queue in
              mkRemoteStorage (rst_session s) (<[key := map]> (rst_maps s)) queue
          | (map, None) => mkRemoteStorage (rst_session s) (<[key := map]> (rst_maps s)) (rst_queue s)
          end
      end
  | ClientMapGet key id =>
      let values := match rst_maps s !! key with Some map => remote_dump order map | None => [] end in
      mkRemoteStorage (rst_session s) (rst_maps s) (rst_queue s ++ [(remote, ServerMapGetRes key id values)])
  end.

Definition storage_pop_action (s : RemoteStorage) : RemoteStorage * option (NodeSession * ServerEvent) :=
  match rst_queue s with
  | [] => (s, None)
  | a :: rest => (mkRemoteStorage (rst_session s) (rst_maps s) rest, Some a)
  end.

(** ** The store: last writer wins, per source *)

Definition store (m : RemoteMap) : gmap SlotKey (Version * Bytes) := omap slot_dump (rm_slots m).

(** What a client command means for the store, without the bookkeeping. *)
Definition store_apply (st : gmap SlotKey (Version * Bytes)) (remote : NodeSession) (cmd : ClientMapCommand)
    : gmap SlotKey (Version * Bytes) :=
  match cmd with
  | CSet key version data =>
      match st !! (key, remote) with
      | Some (v, _) => if v <=? version then <[(key, remote) := (version, data)]> st else st
      | None => <[(key, remote) := (version, data)]> st
      end
  | CDel key version =>
      match st !! (key, remote) with
      | Some (v, _) => if v <=? version then delete (key, remote) st else st
      | None => st
      end
  | _ => st
  end.

(** The acknowledgement of a write: sent exactly when the write took effect,
    with the version that was stored or deleted. *)
Definition store_reply (st : gmap SlotKey (Version * Bytes)) (remote : NodeSession) (cmd : ClientMapCommand)
    : option ServerMapEvent :=
  match cmd with
  | CSet key version _ =>
      match st !! (key, remote) with
      | Some (v, _) => if v <=? version then Some (SSetOk key version) else None
      | None => Some (SSetOk key version)
      end
  | CDel key version =>
      match st !! (key, remote) with
      | Some (v, _) => if v <=? version then Some (SDelOk key v) else None
      | None => None
      end
  | _ => None
  end.

Lemma fire_event_slots order m now key source event : rm_slots (fire_event order m now key source event) = rm_slots m.
Proof. unfold fire_event. by case_match. Qed.

Lemma fire_sub_step_slots now remote m e :
  rm_slots (fire_sub_step now remote m e) = rm_slots m ∧ subs (fire_sub_step now remote m e) = subs m.
Proof. destruct e as [[key source] slot]. cbn. repeat case_match; done. Qed.

Lemma fire_sub_events_slots order m now remote :
  rm_slots (fire_sub_events order m now remote) = rm_slots m ∧ subs (fire_sub_events order m now remote) = subs m.
Proof.
  unfold fire_sub_events. generalize (hash_iter (rm_slots m)). intros l. revert m.
  induction l as [|e l IH]; intros m; [done|]. cbn [foldl]. destruct (IH (fire_sub_step now remote m e)) as [-> ->].
  apply fire_sub_step_slots.
Qed.

Lemma acked_slots m remote sk slot : rm_slots (acked m remote sk slot) = rm_slots m.
Proof. unfold acked. by case_match. Qed.

Lemma store_insert m sk slot :
  store (with_slots m (<[sk := slot]> (rm_slots m))) =
  match slot_dump slot with Some vd => <[sk := vd]> (store m) | None => delete sk (store m) end.
Proof. unfold store. cbn. rewrite omap_insert. by destruct (slot_dump slot). Qed.

Lemma on_client_store order m now remote cmd :
  store (on_client order m now remote cmd).1 = store_apply (store m) remote cmd ∧
  match cmd with
  | CSet _ _ _ | CDel _ _ => (on_client order m now remote cmd).2 = store_reply (store m) remote cmd
  | _ => True
  end.
Proof.
  destruct cmd as [key version data|key version|id lk|id|key s v|key s v]; cbn [on_client store_apply store_reply].
  - assert (store m !! (key, remote) = slot_dump (default slot_new (rm_slots m !! (key, remote)))) as ->.
    { unfold store. rewrite lookup_omap. by destruct (rm_slots m !! (key, remote)). }
    unfold slot_set. destruct (default slot_new (rm_slots m !! (key, remote))) as [|d v l] eqn:Hs; cbn [slot_dump fst snd].
    + split; [|done]. unfold store at 1. rewrite fire_event_slots. exact (store_insert m (key, remote) (SlotSet data version now)).
    + destruct (v <=? version); cbn [fst snd]; (split; [|done]).
      * unfold store at 1. rewrite fire_event_slots. exact (store_insert m (key, remote) (SlotSet data version now)).
      * rewrite store_insert. cbn. apply insert_id. unfold store. rewrite lookup_omap.
        revert Hs. destruct (rm_slots m !! (key, remote)); cbn; [by intros -> | done].
  - destruct (rm_slots m !! (key, remote)) as [slot|] eqn:Hs.
    2:{ unfold store. by rewrite lookup_omap, Hs. }
    assert (store m !! (key, remote) = slot_dump slot) as -> by (unfold store; by rewrite lookup_omap, Hs).
    unfold slot_del. destruct slot as [|d v l]; cbn [slot_dump fst snd].
    + split; [|done]. by rewrite store_insert, delete_id by (unfold store; by rewrite lookup_omap, Hs).
    + destruct (v <=? version); cbn [fst snd]; (split; [|done]).
      * unfold store at 1. rewrite fire_event_slots. cbn. by rewrite omap_delete.
      * rewrite store_insert. cbn. apply insert_id. unfold store. by rewrite lookup_omap, Hs.
  - split; [|done]. case_match; [|done]. unfold store. cbn.
    by destruct (fire_sub_events_slots order (with_subs m (<[remote := mkSubSlot id now]> (subs m))) now remote) as [-> _].
  - split; [|done]. repeat case_match; done.
  - split; [|done]. repeat case_match; cbn; try done; unfold store; by rewrite acked_slots.
  - split; [|done]. repeat case_match; cbn; try done; unfold store; by rewrite acked_slots.
Qed.

Lemma elem_of_remote_dump order m key source version data :
  (key, source, version, data) ∈ remote_dump order m ↔ store m !! (key, source) = Some (version, data).
Proof.
  unfold remote_dump, store. rewrite list_elem_of_omap, lookup_omap. split.
  - intros ([[k s] slot] & Hin & Heq). apply elem_of_hash_iter in Hin.
    destruct (slot_dump slot) as [[v d]|] eqn:Hd; [|done]. injection Heq as -> -> -> ->. by rewrite Hin.
  - destruct (rm_slots m !! (key, source)) as [slot|] eqn:Hs; [|done]. cbn. intros Hd.
    exists ((key, source), slot). split; [by apply elem_of_hash_iter|]. by rewrite Hd.
Qed.

(** C19. The relay is a last-writer-wins store with one slot per key and
    source: a write takes effect exactly when its version is not older than
    the stored one, it only touches the writer's own slot, and it is
    acknowledged exactly when it took effect; subscriptions and
    acknowledgements leave the store alone; [dump] (the answer to a get) is
    the content of the store. *)
Theorem relay_is_lww_store (order : HashOrder) (m : RemoteMap) (now : Z) (remote : NodeSession)
    (cmd : ClientMapCommand) :
  store (on_client order m now remote cmd).1 = store_apply (store m) remote cmd ∧
  match cmd with
  | CSet _ _ _ | CDel _ _ => (on_client order m now remote cmd).2 = store_reply (store m) remote cmd
  | _ => True
  end ∧
  (∀ key source, source ≠ remote →
    store (on_client order m now remote cmd).1 !! (key, source) = store m !! (key, source)) ∧
  ∀ key source version data,
    (key, source, version, data) ∈ remote_dump order m ↔ store m !! (key, source) = Some (version, data).
Proof.
  destruct (on_client_store order m now remote cmd) as [Hst Hre]. split_and!; [done..| |].
  - intros key source Hne. rewrite Hst. destruct cmd; cbn; repeat case_match; try done;
      (rewrite lookup_insert_ne || rewrite lookup_delete_ne); congruence.
  - intros. apply elem_of_remote_dump.
Qed.

(** ** Reordered writes *)

(** Writes that agree on the data of equal versions. *)
Definition writes_agree (ws : list (Z * NodeSession * (Key * Version * Bytes))) : Prop :=
  ∀ t1 s k v d1 t2 d2, (t1, s, (k, v, d1)) ∈ ws → (t2, s, (k, v, d2)) ∈ ws → d1 = d2.

Definition write (order : HashOrder) (m : RemoteMap) (w : Z * NodeSession * (Key * Version * Bytes)) : RemoteMap :=
  let '(now, remote, (key, version, data)) := w in (on_client order m now remote (CSet key version data)).1.

Definition write_store (st : gmap SlotKey (Version * Bytes)) (w : Z * NodeSession * (Key * Version * Bytes)) :=
  let '(_, remote, (key, version, data)) := w in store_apply st remote (CSet key version data).

Lemma store_writes order ws m : store (foldl (write order) m ws) = foldl write_store (store m) ws.
Proof.
  revert m. induction ws as [|[[t r] [[k v] d]] ws IH]; intros m; [done|]. cbn [foldl]. rewrite IH. f_equal.
  apply on_client_store.
Qed.

Lemma write_store_lookup st t r k v d sk :
  write_store st (t, r, (k, v, d)) !! sk =
  if decide (sk = (k, r)) then match st !! (k, r) with
                               | Some (v0, d0) => if v0 <=? v then Some (v, d) else Some (v0, d0)
                               | None => Some (v, d)
                               end
  else st !! sk.
Proof.
  cbn. case_decide as Hd; [subst|]; destruct (st !! (k, r)) as [[v0 d0]|] eqn:E; try case_match;
    rewrite ?lookup_insert_eq, ?lookup_insert_ne by congruence; done.
Qed.

Lemma write_store_comm st w1 w2 :
  writes_agree [w1; w2] → write_store (write_store st w1) w2 = write_store (write_store st w2) w1.
Proof.
  destruct w1 as [[t1 r1] [[k1 v1] d1]], w2 as [[t2 r2] [[k2 v2] d2]]. intros Hag. apply map_eq. intros sk.
  rewrite !write_store_lookup.
  destruct (decide ((k1, r1) = (k2, r2))) as [[= <- <-]|Hne]; [|repeat case_decide; congruence].
  destruct (decide (sk = (k1, r1))) as [->|?]; [|done]. rewrite !decide_True by done.
  assert (v1 = v2 → d1 = d2) as Heq by (intros ->; eapply (Hag t1 r1 k1 v2 d1 t2 d2); set_solver).
  destruct (st !! (k1, r1)) as [[v0 d0]|];
    repeat (match goal with |- context [?a <=? ?b] => destruct (Z.leb_spec a b) end; try lia); try done;
    assert (v1 = v2) as Hv by lia; by rewrite (Heq Hv), Hv.
Qed.

Lemma writes_agree_incl ws ws' : (∀ w, w ∈ ws' → w ∈ ws) → writes_agree ws → writes_agree ws'.
Proof. intros Hincl Hag t1 s k v d1 t2 d2 H1 H2. apply (Hag t1 s k v d1 t2 d2); by apply Hincl. Qed.

Lemma write_store_perm ws ws' st : ws ≡ₚ ws' → writes_agree ws → foldl write_store st ws = foldl write_store st ws'.
Proof.
  intros Hp. revert st. induction Hp as [|w ws ws' Hp IH|w1 w2 ws|ws1 ws2 ws3 H12 IH12 H23 IH23]; intros st Hag; cbn [foldl].
  - done.
  - apply IH. eapply writes_agree_incl; [|done]. intros w' Hw. by right.
  - f_equal. apply write_store_comm. eapply writes_agree_incl; [|done]. set_solver.
  - rewrite IH12 by done. apply IH23. eapply writes_agree_incl; [|done]. intros w. by rewrite H12.
Qed.

Lemma write_store_idem st w : write_store (write_store st w) w = write_store st w.
Proof.
  destruct w as [[t r] [[k v] d]]. apply map_eq. intros sk. rewrite !write_store_lookup.
  destruct (decide (sk = (k, r))) as [->|?]; [|done]. rewrite decide_True by done.
  destruct (st !! (k, r)) as [[v0 d0]|]; [destruct (Z.leb_spec v0 v)|]; rewrite ?Z.leb_refl; try done.
  destruct (Z.leb_spec v0 v); [lia|done].
Qed.

(** A write that is among those already applied changes nothing. *)
Lemma write_store_again ws w st :
  writes_agree ws → w ∈ ws → write_store (foldl write_store st ws) w = foldl write_store st ws.
Proof.
  intros Hag (ws1 & ws2 & ->)%list_elem_of_split.
  rewrite (write_store_perm (ws1 ++ w :: ws2) ((ws1 ++ ws2) ++ [w])); [|solve_Permutation | done].
  rewrite foldl_app. apply write_store_idem.
Qed.

(** The version of one slot, which does not depend on the data. *)
Definition write_version (sk : SlotKey) (o : option Version) (w : Z * NodeSession * (Key * Version * Bytes)) : option Version :=
  let '(_, remote, (key, version, _)) := w in
  if decide (sk = (key, remote)) then Some (match o with Some v0 => Z.max v0 version | None => version end) else o.

Lemma write_store_version st ws sk : fst <$> foldl write_store st ws !! sk = foldl (write_version sk) (fst <$> st !! sk) ws.
Proof.
  revert st. induction ws as [|[[t r] [[k v] d]] ws IH]; intros st; [done|]. cbn [foldl]. rewrite IH. f_equal. rewrite write_store_lookup. cbn.
  case_decide as Hd; [subst|done]. destruct (st !! (k, r)) as [[v0 d0]|]; cbn; [|done]. destruct (Z.leb_spec v0 v); cbn; f_equal; lia.
Qed.

Lemma write_version_perm sk ws ws' o : ws ≡ₚ ws' → foldl (write_version sk) o ws = foldl (write_version sk) o ws'.
Proof.
  intros Hp. revert o. induction Hp as [|w ws ws' Hp IH|[[t1 r1] [[k1 v1] d1]] [[t2 r2] [[k2 v2] d2]] ws|ws1 ws2 ws3 H12 IH12 H23 IH23]; intros o; cbn [foldl].
  - done.
  - apply IH.
  - f_equal. cbn. repeat case_decide; try done. f_equal. destruct o; lia.
  - by rewrite IH12.
Qed.

(** C34. Reordering [Set]s does not matter: [Set]s that arrive in any order,
    at any times, leave the same version of every key and source; and the same
    store, also when any of them are repeated later, as long as equal versions
    of a key and source carry equal data. (A client takes the time in
    milliseconds as the version, so two [Set]s of a key in one millisecond do
    not: of those the last one to arrive stays, [equal_versions_last_stays].) *)
Theorem relay_writes_commute (order : HashOrder) (m : RemoteMap)
    (ws ws' again : list (Z * NodeSession * (Key * Version * Bytes))) :
  ws ≡ₚ ws' → (∀ w, w ∈ again → w ∈ ws) →
  fst <$> store (foldl (write order) m ws) = fst <$> store (foldl (write order) m ws') ∧
  (writes_agree ws →
   store (foldl (write order) m ws) = store (foldl (write order) m ws') ∧
   store (foldl (write order) m (ws ++ again)) = store (foldl (write order) m ws)).
Proof.
  intros Hp Hagain. rewrite !store_writes. split.
  { apply map_eq. intros sk. rewrite !lookup_fmap, !write_store_version. by apply write_version_perm. }
  intros Hag. split; [by apply write_store_perm|].
  rewrite foldl_app. induction again as [|w again IH]; [done|]. cbn [foldl].
  rewrite write_store_again by (done || apply Hagain; left). apply IH. intros w' Hw. apply Hagain. by right.
Qed.

Example equal_versions_last_stays (order : HashOrder) (m : RemoteMap) (now now' : Z) (source : NodeSession) (key : Key) (v : Version) (d d' : Bytes) :
  store m !! (key, source) = None →
  store (foldl (write order) m [(now, source, (key, v, d)); (now', source, (key, v, d'))]) !! (key, source) = Some (v, d').
Proof.
  intros Hnone. rewrite store_writes. cbn [foldl]. rewrite !write_store_lookup, !decide_True by done. rewrite Hnone. by rewrite Z.leb_refl.
Qed.

Lemma relay_writes_commute_witness :
  store (foldl (write canonical_order) (remote_map_new (1, 1)) [(5, (2, 2), (7, 10, [1])); (6, (2, 2), (7, 11, [2]))])
  = store (foldl (write canonical_order) (remote_map_new (1, 1)) [(6, (2, 2), (7, 11, [2])); (5, (2, 2), (7, 10, [1]))]).
Proof.
  apply (relay_writes_commute canonical_order (remote_map_new (1, 1))
    [(5, (2, 2), (7, 10, [1])); (6, (2, 2), (7, 11, [2]))] [(6, (2, 2), (7, 11, [2])); (5, (2, 2), (7, 10, [1]))] []).
  - apply perm_swap.
  - intros w Hw. by apply not_elem_of_nil in Hw.
  - intros t1 s k v d1 t2 d2 H1 H2. rewrite !elem_of_cons in H1, H2.
    destruct H1 as [[= -> -> -> -> ->]|[[= -> -> -> -> ->]|H1]], H2 as [H2|[H2|H2]]; try done;
      try (by apply not_elem_of_nil in H1); try (by apply not_elem_of_nil in H2); by injection H2.
Defined.

(** ** Delivery of events: resend until acknowledged *)

Definition expired (now : Z) (slot : WaitAcksEvent) : bool := wrap 64 (TIMEOUT_MS + created_at slot) <=? now.
Definition due (now : Z) (slot : WaitAcksEvent) : bool := wrap 64 (RESEND_MS + last_send_ms slot) <=? now.

(** What a tick sends again, and the entry it leaves. *)
Definition resends (now : Z) (slot : WaitAcksEvent) : list (NodeSession * ServerMapEvent) :=
  if expired now slot then [] else if due now slot then (λ r, (r, wait_event slot)) <$> wait_remotes slot else [].

Definition touched (now : Z) (slot : WaitAcksEvent) : WaitAcksEvent :=
  if due now slot && negb (bool_decide (wait_remotes slot = [])) then
    mkWait (wait_event slot) (wait_remotes slot) (created_at slot) now
  else slot.

Lemma tick_event_eq now events rm q key slot :
  events !! key = Some slot →
  tick_event now (events, rm, q) (key, slot) =
  if expired now slot then (events, rm ++ [key], q)
  else (<[key := touched now slot]> events, rm, q ++ resends now slot).
Proof.
  intros Hk. unfold tick_event, touched, resends. fold (expired now slot) (due now slot).
  destruct (expired now slot); [done|]. destruct (due now slot); cbn [andb].
  - destruct (wait_remotes slot) as [|r rs] eqn:Hr; [rewrite bool_decide_eq_true_2 by done|rewrite bool_decide_eq_false_2 by done]; cbn.
    + by rewrite app_nil_r, insert_id.
    + done.
  - by rewrite app_nil_r, insert_id.
Qed.

Lemma tick_events_spec now (l : list (SlotKey * WaitAcksEvent)) events rm q :
  NoDup l.*1 → (∀ k s, (k, s) ∈ l → events !! k = Some s) →
  let '(events', rm', q') := foldl (tick_event now) (events, rm, q) l in
  q' = q ++ mjoin (resends now ∘ snd <$> l) ∧
  rm' = rm ++ (fst <$> filter (λ e, expired now e.2 = true) l) ∧
  ∀ k, events' !! k = match events !! k with
                      | Some s => Some (if decide (k ∈ l.*1) then if expired now s then s else touched now s else s)
                      | None => None
                      end.
Proof.
  revert events rm q. induction l as [|[k s] l IH]; intros events rm q Hnd Hl; cbn [foldl].
  { cbn. rewrite !app_nil_r. split_and!; [done..|]. intros k. destruct (events !! k); [|done].
    by rewrite decide_False by apply not_elem_of_nil. }
  apply NoDup_cons in Hnd as [Hni Hnd]. rewrite tick_event_eq by (apply Hl; left).
  assert (∀ k' s', (k', s') ∈ l → k' ≠ k) as Hne.
  { intros k' s' Hin ->. apply Hni. apply list_elem_of_fmap. by exists (k, s'). }
  assert (Hks : events !! k = Some s) by (apply Hl; left).
  destruct (expired now s) eqn:He.
  - specialize (IH events (rm ++ [k]) q Hnd ltac:(intros; apply Hl; by right)).
    destruct (foldl _ _ l) as [[events' rm'] q']. destruct IH as (-> & -> & Hlk). split_and!.
    + cbn. unfold resends at 2. by rewrite He.
    + rewrite filter_cons_True by done. cbn. by rewrite <- app_assoc.
    + intros k'. rewrite Hlk. cbn. destruct (decide (k' = k)) as [->|Hkk].
      * rewrite Hks, He, decide_False by done. by case_decide.
      * destruct (events !! k'); [|done]. f_equal.
        destruct (decide (k' ∈ l.*1)), (decide (k' ∈ k :: l.*1)); try done; set_solver.
  - specialize (IH (<[k := touched now s]> events) rm (q ++ resends now s) Hnd).
    destruct (foldl _ _ l) as [[events' rm'] q']. destruct IH as (-> & -> & Hlk).
    { intros k' s' Hin. rewrite lookup_insert_ne by (intros <-; by eapply Hne). apply Hl. by right. }
    split_and!.
    + cbn. by rewrite <- app_assoc.
    + rewrite filter_cons_False by (cbn; congruence). done.
    + intros k'. rewrite Hlk. cbn. destruct (decide (k' = k)) as [->|Hkk].
      * rewrite lookup_insert_eq, Hks, He, (decide_False (P := k ∈ l.*1)) by done.
        by rewrite decide_True by left.
      * rewrite lookup_insert_ne by done. destruct (events !! k'); [|done]. f_equal.
        destruct (decide (k' ∈ l.*1)), (decide (k' ∈ k :: l.*1)); try done; set_solver.
Qed.

Lemma remote_on_tick_spec order m now :
  let m' := remote_on_tick order m now in
  rm_slots m' = rm_slots m ∧ rm_session m' = rm_session m ∧
  (∀ r, subs m' !! r = match subs m !! r with Some s => if stale_sub now s then None else Some s | None => None end) ∧
  (∀ k, slots_event m' !! k = match slots_event m !! k with
                              | Some s => if expired now s then None else Some (touched now s)
                              | None => None
                              end) ∧
  rm_queue m' = rm_queue m ++ mjoin (resends now ∘ snd <$> hash_iter (slots_event m)).
Proof.
  unfold remote_on_tick.
  pose proof (tick_events_spec now (hash_iter (slots_event m)) (slots_event m) [] (rm_queue m)
    (NoDup_hash_iter_keys _) (λ k s H, proj1 (elem_of_hash_iter _ _ _) H)) as Hspec.
  destruct (foldl (tick_event now) _ _) as [[events rm] q]. destruct Hspec as (-> & -> & Hk).
  cbn [rm_slots rm_session subs slots_event rm_queue]. split_and!; [done | done | | | done].
  - intros r. rewrite lookup_remove_all. destruct (subs m !! r) as [s|] eqn:Hr; [|by case_decide].
    destruct (stale_sub now s) eqn:Hs.
    + rewrite decide_True; [done|]. apply list_elem_of_fmap. exists (r, s). split; [done|].
      apply list_elem_of_filter. split; [done|]. by apply elem_of_hash_iter.
    + rewrite decide_False; [done|]. intros ([r' s'] & -> & [Hst Hin]%list_elem_of_filter)%list_elem_of_fmap.
      apply elem_of_hash_iter in Hin. cbn in *. congruence.
  - intros k. rewrite lookup_remove_all, Hk. destruct (slots_event m !! k) as [s|] eqn:Hs; [|by case_decide].
    assert (k ∈ (hash_iter (slots_event m)).*1) as Hin.
    { apply list_elem_of_fmap. exists (k, s). split; [done|]. by apply elem_of_hash_iter. }
    rewrite (decide_True (P := k ∈ (hash_iter (slots_event m)).*1)) by done.
    destruct (expired now s) eqn:He.
    + rewrite decide_True; [done|]. apply list_elem_of_fmap. exists (k, s). split; [done|].
      apply list_elem_of_filter. split; [done|]. by apply elem_of_hash_iter.
    + rewrite decide_False; [done|]. intros ([k' s'] & -> & [Hst Hin']%list_elem_of_filter)%list_elem_of_fmap.
      apply elem_of_hash_iter in Hin'. cbn in *. congruence.
Qed.

(** The acknowledgement of an event. *)
Definition ack_of (event : ServerMapEvent) : option ClientMapCommand :=
  match event with
  | SOnSet key source version _ => Some (COnSetAck key source version)
  | SOnDel key source version => Some (COnDelAck key source version)
  | _ => None
  end.

(** The events of a map wait under their own key. *)
Definition events_keyed (m : RemoteMap) : Prop :=
  ∀ key source slot, slots_event m !! (key, source) = Some slot →
    (∃ v d, wait_event slot = SOnSet key source v d) ∨ (∃ v, wait_event slot = SOnDel key source v).

Lemma acked_lookup m remote sk slot :
  slots_event (acked m remote sk slot) !! sk =
  match filter (λ r, r ≠ remote) (wait_remotes slot) with
  | [] => None
  | rs => Some (mkWait (wait_event slot) rs (created_at slot) (last_send_ms slot))
  end.
Proof. unfold acked. case_match; cbn; by rewrite ?lookup_delete_eq, ?lookup_insert_eq. Qed.

(** C40. An event is sent again until it is acknowledged. For an event that
    waits for a subscriber: a tick sends it to that subscriber again when the
    last sending is at least [RESEND_MS] old, and keeps it waiting; a tick
    gives it up when it is [TIMEOUT_MS] old; the subscriber's acknowledgement
    of this version takes exactly this subscriber off the list, and ends the
    wait when it was the last one. *)
Theorem relay_resends_until_acked (order : HashOrder) (m : RemoteMap) (now : Z) (key : Key) (source r : NodeSession)
    (slot : WaitAcksEvent) (ack : ClientMapCommand) :
  events_keyed m → slots_event m !! (key, source) = Some slot → r ∈ wait_remotes slot →
  ack_of (wait_event slot) = Some ack →
  (expired now slot = true → slots_event (remote_on_tick order m now) !! (key, source) = None) ∧
  (expired now slot = false →
    ∃ slot', slots_event (remote_on_tick order m now) !! (key, source) = Some slot' ∧
      wait_event slot' = wait_event slot ∧ wait_remotes slot' = wait_remotes slot ∧
      (due now slot = true →
        (r, wait_event slot) ∈ rm_queue (remote_on_tick order m now) ∧ last_send_ms slot' = now)) ∧
  (let m' := (on_client order m now r ack).1 in
   match slots_event m' !! (key, source) with
   | Some slot' => wait_event slot' = wait_event slot ∧
       ∀ r', r' ∈ wait_remotes slot' ↔ r' ∈ wait_remotes slot ∧ r' ≠ r
   | None => ∀ r', r' ∈ wait_remotes slot → r' = r
   end).
Proof.
  intros Hkeyed Hslot Hr Hack. destruct (remote_on_tick_spec order m now) as (_ & _ & _ & Hev & Hq).
  split_and!.
  - intros He. by rewrite Hev, Hslot, He.
  - intros He. rewrite Hev, Hslot, He. exists (touched now slot). split; [done|].
    assert (bool_decide (wait_remotes slot = []) = false) as Hne.
    { apply bool_decide_eq_false_2. intros Hnil. rewrite Hnil in Hr. by apply not_elem_of_nil in Hr. }
    unfold touched. rewrite Hne, andb_true_r. split_and!; [by case_match..|]. intros Hd. rewrite Hd. split; [|done].
    rewrite Hq. apply elem_of_app. right. apply list_elem_of_join. exists (resends now slot). split.
    + unfold resends. rewrite He, Hd. apply list_elem_of_fmap. by exists r.
    + apply list_elem_of_fmap. exists ((key, source), slot). split; [done|]. by apply elem_of_hash_iter.
  - assert ((on_client order m now r ack).1 = acked m r (key, source) slot) as ->.
    { destruct (Hkeyed _ _ _ Hslot) as [(v & d & He)|(v & He)]; rewrite He in Hack; cbn in Hack; injection Hack as <-;
        cbn; rewrite Hslot, He, Z.eqb_refl; done. }
    cbn zeta. rewrite acked_lookup.
    destruct (filter (λ r', r' ≠ r) (wait_remotes slot)) as [|r1 rs] eqn:Hf.
    + intros r' Hr'. destruct (decide (r' = r)) as [|Hne]; [done|].
      assert (r' ∈ filter (λ r', r' ≠ r) (wait_remotes slot)) as Hin by (by apply list_elem_of_filter).
      rewrite Hf in Hin. by apply not_elem_of_nil in Hin.
    + cbn. split; [done|]. intros r'. rewrite <- Hf, list_elem_of_filter. tauto.
Qed.

(** ** Invariant of a relay map *)

Record relay_inv (m : RemoteMap) : Prop := {
  ri_events : events_keyed m;
  ri_slots : ∀ sk slot, rm_slots m !! sk = Some slot → slot ≠ Unspecific;
}.

Lemma remote_map_new_inv session : relay_inv (remote_map_new session).
Proof. split; intros ? **; cbn in *; by rewrite lookup_empty in *. Qed.

Lemma events_keyed_insert m key source w m' :
  events_keyed m → slots_event m' = <[(key, source) := w]> (slots_event m) →
  ((∃ v d, wait_event w = SOnSet key source v d) ∨ (∃ v, wait_event w = SOnDel key source v)) → events_keyed m'.
Proof.
  intros Hk Heq Hw k s slot. rewrite Heq, lookup_insert_Some. intros [[[= <- <-] <-]|[_ Hs]]; [done|]. by apply Hk.
Qed.

Lemma fire_event_keyed order m now key source event :
  events_keyed m → ((∃ v d, event = SOnSet key source v d) ∨ (∃ v, event = SOnDel key source v)) →
  events_keyed (fire_event order m now key source event).
Proof.
  intros Hk He. unfold fire_event. case_match; [done|]. by eapply events_keyed_insert.
Qed.

Lemma fire_sub_step_keyed now remote m e : events_keyed m → events_keyed (fire_sub_step now remote m e).
Proof.
  intros Hk. destruct e as [[key source] slot]. cbn. case_match; [done|]. destruct (slot_dump slot) as [[v d]|]; [|done].
  eapply events_keyed_insert; [done|done|]. cbn.
  destruct (slots_event m !! (key, source)) as [w|] eqn:Hw; [by apply Hk|]. left. by exists v, d.
Qed.

Lemma acked_keyed m remote key source slot :
  events_keyed m → slots_event m !! (key, source) = Some slot → events_keyed (acked m remote (key, source) slot).
Proof.
  intros Hk Hs. unfold acked. case_match.
  - intros k s w. cbn. rewrite lookup_delete_Some. intros [_ ?]. by apply Hk.
  - eapply events_keyed_insert; [done|done|]. by apply (Hk _ _ _ Hs).
Qed.

Lemma on_client_inv order m now remote cmd : relay_inv m → relay_inv (on_client order m now remote cmd).1.
Proof.
  intros [Hk Hs]. destruct cmd as [key version data|key version|id lk|id|key s v|key s v]; cbn [on_client].
  - destruct (slot_set (default slot_new (rm_slots m !! (key, remote))) now version data) as [slot changed] eqn:Hset.
    assert (slot ≠ Unspecific) as Hne.
    { unfold slot_set in Hset. repeat case_match; by simplify_eq. }
    assert (∀ sk s, <[(key, remote) := slot]> (rm_slots m) !! sk = Some s → s ≠ Unspecific) as Hs'.
    { intros sk s. rewrite lookup_insert_Some. intros [[_ <-]|[_ ?]]; [done|by eapply Hs]. }
    destruct changed; cbn [fst]; (split; [|try rewrite fire_event_slots; done]); [|done].
    apply fire_event_keyed; [done|]. left. by exists version, data.
  - destruct (rm_slots m !! (key, remote)) as [slot|] eqn:Hslot; [|by split].
    destruct (slot_del slot version) as [slot' [v|]] eqn:Hdel; cbn [fst]; split.
    + apply fire_event_keyed; [done|]. right. by exists v.
    + rewrite fire_event_slots. intros sk s. cbn. rewrite lookup_delete_Some. intros [_ ?]. by eapply Hs.
    + done.
    + intros sk s. cbn. rewrite lookup_insert_Some. intros [[_ <-]|[_ ?]]; [|by eapply Hs].
      unfold slot_del in Hdel. pose proof (Hs _ _ Hslot). destruct slot; [done|]. case_match; by simplify_eq.
  - assert (∀ l m', events_keyed m' → events_keyed (foldl (fire_sub_step now remote) m' l)) as Hfold.
    { induction l as [|e l IH]; intros m' Hm'; [done|]. apply IH. by apply fire_sub_step_keyed. }
    case_match; cbn [fst]; (split; [|try (destruct (fire_sub_events_slots order (with_subs m (<[remote := mkSubSlot id now]> (subs m))) now remote) as [-> _]); done]); [|done].
    by apply Hfold.
  - repeat case_match; by split.
  - destruct (slots_event m !! (key, s)) as [w|] eqn:Hw; [|by split].
    destruct (wait_event w); try (by split). case_match; cbn [fst]; [|by split].
    split; [by apply acked_keyed|]. by rewrite acked_slots.
  - destruct (slots_event m !! (key, s)) as [w|] eqn:Hw; [|by split].
    destruct (wait_event w); try (by split). case_match; cbn [fst]; [|by split].
    split; [by apply acked_keyed|]. by rewrite acked_slots.
Qed.

Lemma remote_on_tick_inv order m now : relay_inv m → relay_inv (remote_on_tick order m now).
Proof.
  intros [Hk Hs]. destruct (remote_on_tick_spec order m now) as (Hsl & _ & _ & Hev & _). split.
  - intros key source slot. rewrite Hev. destruct (slots_event m !! (key, source)) as [w|] eqn:Hw; [|done].
    destruct (expired now w); [done|]. intros [= <-]. unfold touched. case_match; by apply (Hk _ _ _ Hw).
  - intros sk slot. rewrite Hsl. apply Hs.
Qed.

(** A map with a subscriber that waits for one event. *)
Definition demo_relay : RemoteMap :=
  (on_client canonical_order (on_client canonical_order (remote_map_new (1, 1)) 5 (3, 3) (CSub 5 None)).1
     10 (2, 2) (CSet 7 10 [9])).1.

Lemma demo_relay_inv : relay_inv demo_relay.
Proof. apply on_client_inv, on_client_inv, remote_map_new_inv. Qed.

Lemma relay_resends_until_acked_witness :
  slots_event demo_relay !! (7, (2, 2)) = Some (mkWait (SOnSet 7 (2, 2) 10 [9]) [(3, 3)] 10 10) ∧
  slots_event (on_client canonical_order demo_relay 20 (3, 3) (COnSetAck 7 (2, 2) 10)).1 !! (7, (2, 2)) = None ∧
  ∃ slot', slots_event (remote_on_tick canonical_order demo_relay 300) !! (7, (2, 2)) = Some slot'.
Proof.
  split; [reflexivity|]. split; [reflexivity|].
  destruct (relay_resends_until_acked canonical_order demo_relay 300 7 (2, 2) (3, 3)
    (mkWait (SOnSet 7 (2, 2) 10 [9]) [(3, 3)] 10 10) (COnSetAck 7 (2, 2) 10)) as (_ & Htick & _).
  - apply demo_relay_inv.
  - reflexivity.
  - left.
  - reflexivity.
  - destruct (Htick eq_refl) as (slot' & Hs & _). by exists slot'.
Defined.
