(* ===== verification/DhtClient.v ===== *)
(** * The clients of the key-value store ([features/dht_kv/client.rs], [client/map.rs])

    Every node keeps, per map it uses, the slots it writes itself ([LLocal]),
    the slots other sources wrote ([LRemote]), its subscribers and the state
    of its subscription at the relay. Iterations over hash maps take their
    order as an argument. *)

From S2P Require Import Prelude NodeId Route Msg Base DhtMsg.

Definition RESEND_MS : Z := 200.
Definition SYNC_MS : Z := 1500.
Definition UNSUB_TIMEOUT_MS : Z := 10000.

(** ** One sub-key of one source *)

Inductive MapSlot :=
| LUnspecific (key : Key)
| LRemote (key : Key) (version : Version) (value : option Bytes)
| LLocal (key : Key) (value : option Bytes) (version : Version) (syncing : bool) (last_sync : Z).

Definition slot_new (key : Key) : MapSlot := LUnspecific key.

Definition slot_data (s : MapSlot) : option Bytes :=
  match s with
  | LUnspecific _ => None
  | LRemote _ _ value => value
  | LLocal _ value _ _ _ => value
  end.

Definition slot_key (s : MapSlot) : Key :=
  match s with LUnspecific key | LRemote key _ _ | LLocal key _ _ _ _ => key end.

Definition slot_set (s : MapSlot) (now : Z) (new_data : Bytes) : MapSlot * option ClientMapCommand :=
  match s with
  | LUnspecific key | LRemote key _ _ =>
      (LLocal key (Some new_data) now true now, Some (CSet key now new_data))
  | LLocal key _ _ _ _ =>
      (LLocal key (Some new_data) now true now, Some (CSet key now new_data))
  end.

Definition slot_del (s : MapSlot) (now : Z) : MapSlot * option ClientMapCommand :=
  match s with
  | LUnspecific _ | LRemote _ _ _ => (s, None)
  | LLocal key _ version _ _ => (LLocal key None version true now, Some (CDel key version))
  end.

Definition slot_sync (s : MapSlot) (now : Z) (force : bool) : MapSlot * option ClientMapCommand :=
  match s with
  | LUnspecific _ | LRemote _ _ _ => (s, None)
  | LLocal key value version syncing last_sync =>
      if (syncing && (wrap 64 (last_sync + RESEND_MS) <=? now)) || (wrap 64 (last_sync + SYNC_MS) <=? now) || force
      then (LLocal key value version syncing now,
            Some (match value with Some value => CSet key version value | None => CDel key version end))
      else (s, None)
  end.

Definition slot_set_ok (s : MapSlot) (version : Version) : MapSlot :=
  match s with
  | LLocal key (Some value) slot_version syncing last_sync =>
      if slot_version =? version then LLocal key (Some value) slot_version false last_sync else s
  | _ => s
  end.

Definition slot_del_ok (s : MapSlot) (version : Version) : MapSlot :=
  match s with
  | LLocal key None slot_version syncing last_sync =>
      if slot_version =? version then LLocal key None slot_version false last_sync else s
  | _ => s
  end.

Definition slot_on_set (s : MapSlot) (key : Key) (source : NodeSession) (version : Version) (data : Bytes)
    : MapSlot * option (ClientMapCommand * bool) :=
  match s with
  | LUnspecific _ => (LRemote key version (Some data), Some (COnSetAck key source version, true))
  | LRemote _ old_version _ =>
      match old_version ?= version with
      | Lt => (LRemote key version (Some data), Some (COnSetAck key source version, true))
      | Eq => (s, Some (COnSetAck key source version, false))
      | Gt => (s, None)
      end
  | LLocal _ _ _ _ _ => (s, None)
  end.

Definition slot_on_del (s : MapSlot) (key : Key) (source : NodeSession) (version : Version)
    : MapSlot * option ClientMapCommand :=
  match s with
  | LRemote _ old_version _ =>
      if old_version <=? version then (LUnspecific key, Some (COnDelAck key source version)) else (s, None)
  | _ => (s, None)
  end.

Definition slot_should_cleanup (s : MapSlot) : bool :=
  match s with
  | LUnspecific _ => true
  | LRemote _ _ value => match value with None => true | Some _ => false end
  | LLocal _ value _ syncing _ => match value with None => negb syncing | Some _ => false end
  end.

(** ** One map *)

Inductive SubState :=
| NotSub
| Subscribing (id sent_ts : Z)
| Subscribed (id : Z) (remote : NodeSession) (sync_ts : Z)
| Unsubscribing (id started_at : Z) (remote : option NodeSession) (sent_ts : Z).

Section local_map.
Context {UserData : Type} `{EqDecision UserData}.

Abbreviation Actor := (FeatureControlActor UserData) (only parsing).
Abbreviation SlotKey := (Key * NodeSession)%type (only parsing).

Inductive LocalMapOutput :=
| ToRemote (cmd : ClientMapCommand)
| ToLocal (actor : Actor) (event : MapEvent).

Record LocalMap := mkLocalMap {
  lm_session : NodeSession;
  lm_slots : gmap SlotKey MapSlot;
  subscribers : list Actor;
  sub_state : SubState;
  lm_queue : list LocalMapOutput;
}.

Definition local_map_new (session : NodeSession) : LocalMap := mkLocalMap session ∅ [] NotSub [].

Definition put_slot (m : LocalMap) (sk : SlotKey) (slot : MapSlot) : LocalMap :=
  mkLocalMap (lm_session m) (<[sk := slot]> (lm_slots m)) (subscribers m) (sub_state m) (lm_queue m).
Definition with_state (m : LocalMap) (st : SubState) : LocalMap :=
  mkLocalMap (lm_session m) (lm_slots m) (subscribers m) st (lm_queue m).
Definition push (m : LocalMap) (outs : list LocalMapOutput) : LocalMap :=
  mkLocalMap (lm_session m) (lm_slots m) (subscribers m) (sub_state m) (lm_queue m ++ outs).

(** [get_slot(.., true)]: the slot, created when missing. *)
Definition slot_or_new (m : LocalMap) (key : Key) (source : NodeSession) : MapSlot :=
  default (slot_new key) (lm_slots m !! (key, source)).

Definition fire_event (m : LocalMap) (event : MapEvent) : LocalMap :=
  push m ((λ sub, ToLocal sub event) <$> subscribers m).

Definition restore_events (order : HashOrder) (m : LocalMap) (actor : Actor) (only_local : bool) : LocalMap :=
  push m (omap (λ '((key, source), slot),
    if only_local && negb (bool_decide (lm_session m = source)) then None
    else match slot_data slot with
         | Some data => Some (ToLocal actor (EvOnSet key source.1 data))
         | None => None
         end) (hash_iter (lm_slots m))).

(** The body of [sync_slots] for one slot. *)
Definition sync_step (now : Z) (force : bool) (m : LocalMap) (entry : SlotKey * MapSlot) : LocalMap :=
  match slot_sync entry.2 now force with
  | (slot, Some cmd) => push (put_slot m entry.1 slot) [ToRemote cmd]
  | (slot, None) => put_slot m entry.1 slot
  end.

Definition sync_slots (order : HashOrder) (m : LocalMap) (now : Z) (force : bool) : LocalMap :=
  foldl (sync_step now force) m (hash_iter (lm_slots m)).

Definition tick_sub_state (m : LocalMap) (now : Z) : LocalMap :=
  match sub_state m with
  | NotSub => m
  | Subscribing id sent_ts =>
      if wrap 64 (sent_ts + RESEND_MS) <=? now
      then with_state (push m [ToRemote (CSub id None)]) (Subscribing id now) else m
  | Subscribed id remote sync_ts =>
      if wrap 64 (sync_ts + SYNC_MS) <=? now
      then with_state (push m [ToRemote (CSub id (Some remote))]) (Subscribed id remote now) else m
  | Unsubscribing id started_at remote sent_ts =>
      if wrap 64 (started_at + UNSUB_TIMEOUT_MS) <=? now then with_state m NotSub
      else if wrap 64 (sent_ts + RESEND_MS) <=? now
      then with_state (push m [ToRemote (CUnsub id)]) (Unsubscribing id started_at remote now) else m
  end.

(** Removing the slots that are done. *)
Definition cleanup_slots (order : HashOrder) (m : LocalMap) : LocalMap :=
  let to_remove := fst <$> filter (λ e, slot_should_cleanup e.2 = true) (hash_iter (lm_slots m)) in
  mkLocalMap (lm_session m) (remove_all to_remove (lm_slots m)) (subscribers m) (sub_state m) (lm_queue m).

Definition local_on_tick (order : HashOrder) (m : LocalMap) (now : Z) : LocalMap :=
  cleanup_slots order (sync_slots order (tick_sub_state m now) now false).

Definition on_control (order : HashOrder) (m : LocalMap) (now : Z) (actor : Actor) (control : MapControl)
    : outcome (LocalMap * option ClientMapCommand) :=
  match control with
  | MSet key data =>
      match slot_set (slot_or_new m key (lm_session m)) now data with
      | (slot, Some out) =>
          Done (fire_event (put_slot m (key, lm_session m) slot) (EvOnSet key (lm_session m).1 data), Some out)
      | (slot, None) => Done (put_slot m (key, lm_session m) slot, None)
      end
  | MDel key =>
      match lm_slots m !! (key, lm_session m) with
      | None => Done (m, None)
      | Some slot =>
          match slot_del slot now with
          | (slot, Some out) =>
              Done (fire_event (put_slot m (key, lm_session m) slot) (EvOnDel key (lm_session m).1), Some out)
          | (slot, None) => Done (put_slot m (key, lm_session m) slot, None)
          end
      end
  | MSub =>
      let send_sub := match subscribers m with [] => true | _ => false end in
      if bool_decide (actor ∈ subscribers m) then Done (m, None)
      else
        let m := mkLocalMap (lm_session m) (lm_slots m) (subscribers m ++ [actor]) (sub_state m) (lm_queue m) in
        if send_sub : bool
        then Done (restore_events order (with_state m (Subscribing now now)) actor true, Some (CSub now None))
        else Done (restore_events order m actor false, None)
  | MUnsub =>
      if bool_decide (actor ∉ subscribers m) || bool_decide (subscribers m = []) then Done (m, None)
      else
        let m := mkLocalMap (lm_session m) (lm_slots m) (filter (λ x, x ≠ actor) (subscribers m)) (sub_state m) (lm_queue m) in
        match subscribers m with
        | [] =>
            match sub_state m with
            | Subscribed id remote _ => Done (with_state m (Unsubscribing id now (Some remote) now), Some (CUnsub id))
            | Subscribing id _ => Done (with_state m (Unsubscribing id now None now), Some (CUnsub id))
            | _ => Panic
            end
        | _ => Done (m, None)
        end
  end.

(** Only from the locked remote, while subscribed. *)
Definition accept_event (m : LocalMap) (remote : NodeSession) : bool :=
  match sub_state m with
  | Subscribed _ locked_remote _ => bool_decide (locked_remote = remote)
  | _ => false
  end.

Definition on_server (order : HashOrder) (m : LocalMap) (now : Z) (remote : NodeSession) (cmd : ServerMapEvent)
    : LocalMap * option ClientMapCommand :=
  match cmd with
  | SSetOk key version =>
      match lm_slots m !! (key, lm_session m) with
      | Some slot => (put_slot m (key, lm_session m) (slot_set_ok slot version), None)
      | None => (m, None)
      end
  | SDelOk key version =>
      match lm_slots m !! (key, lm_session m) with
      | Some slot => (put_slot m (key, lm_session m) (slot_del_ok slot version), None)
      | None => (m, None)
      end
  | SSubOk id =>
      match sub_state m with
      | Subscribing sub_id _ =>
          if sub_id =? id
          then (fire_event (with_state m (Subscribed id remote now)) (EvOnRelaySelected remote.1), None)
          else (m, None)
      | Subscribed sub_id locked _ =>
          if sub_id =? id then
            let m := with_state m (Subscribed sub_id remote now) in
            if negb (locked.1 =? remote.1)
            then (fire_event (sync_slots order m now true) (EvOnRelaySelected remote.1), None)
            else (m, None)
          else (m, None)
      | _ => (m, None)
      end
  | SUnsubOk id =>
      match sub_state m with
      | Unsubscribing sub_id _ locked _ =>
          if (sub_id =? id) && bool_decide (default remote locked = remote) then (with_state m NotSub, None) else (m, None)
      | _ => (m, None)
      end
  | SOnSet key source version data =>
      if negb (accept_event m remote) then (m, None)
      else match slot_on_set (slot_or_new m key source) key source version data with
           | (slot, Some (event, updated)) =>
               let m := put_slot m (key, source) slot in
               (if updated : bool then fire_event m (EvOnSet key source.1 data) else m, Some event)
           | (slot, None) => (put_slot m (key, source) slot, None)
           end
  | SOnDel key source version =>
      if negb (accept_event m remote) then (m, None)
      else match slot_on_del (slot_or_new m key source) key source version with
           | (slot, Some event) => (fire_event (put_slot m (key, source) slot) (EvOnDel key source.1), Some event)
           | (slot, None) => (put_slot m (key, source) slot, None)
           end
  end.

Definition local_pop_action (m : LocalMap) : LocalMap * option LocalMapOutput :=
  match lm_queue m with
  | [] => (m, None)
  | a :: rest => (mkLocalMap (lm_session m) (lm_slots m) (subscribers m) (sub_state m) rest, Some a)
  end.

Definition should_cleanup (m : LocalMap) : bool :=
  bool_decide (lm_slots m = ∅) && match subscribers m with [] => true | _ => false end &&
  match sub_state m with NotSub => true | _ => false end.
End local_map.

Arguments LocalMap UserData : clear implicits.
Arguments LocalMapOutput UserData : clear implicits.

(** ** All maps of a node ([client.rs]) *)

Definition MAP_GET_TIMEOUT_MS : Z := 5000.

Definition route (key : Map) : RouteRule := ToKey (wrap 32 key).

Section local_storage.
Context {UserData : Type} `{EqDecision UserData}.

Abbreviation Actor := (FeatureControlActor UserData) (only parsing).

Inductive LocalStorageOutput :=
| StorageLocal (actor : Actor) (event : Event)
| StorageRemote (rule : RouteRule) (cmd : ClientCommand).

Record LocalStorage := mkLocalStorage {
  ls_session : NodeSession;
  ls_maps : gmap Map (LocalMap UserData);
  map_get_waits : gmap (Map * Z) (Actor * Z);
  ls_queue : list LocalStorageOutput;
  req_id_seed : Z;
}.

Definition local_storage_new (session : NodeSession) : LocalStorage := mkLocalStorage session ∅ ∅ [] 0.

(** [pop_map_actions]: everything the map has queued, in order. *)
Definition pop_map_actions (key : Map) (m : LocalMap UserData) (queue : list LocalStorageOutput)
    : LocalMap UserData * list LocalStorageOutput :=
  (mkLocalMap (lm_session m) (lm_slots m) (subscribers m) (sub_state m) [],
   drain_into (λ out, match out with
                      | ToLocal actor event => StorageLocal actor (EvMapEvent key event)
                      | ToRemote cmd => StorageRemote (route key) (ClientMapCmd key cmd)
                      end) (lm_queue m) queue).

Definition tick_local_map (order : HashOrder) (now : Z)
    (acc : gmap Map (LocalMap UserData) * list Map * list LocalStorageOutput) (entry : Map * LocalMap UserData)
    : gmap Map (LocalMap UserData) * list Map * list LocalStorageOutput :=
  let '(maps, to_remove, queue) := acc in
  let '(key, map) := entry in
  let '(map, queue) := pop_map_actions key (local_on_tick order map now) queue in
  (<[key := map]> maps, if should_cleanup map then to_remove ++ [key] else to_remove, queue).

Definition local_storage_on_tick (order : HashOrder) (s : LocalStorage) (now : Z) : LocalStorage :=
  let '(maps, to_remove, queue) := foldl (tick_local_map order now) (ls_maps s, [], ls_queue s) (hash_iter (ls_maps s)) in
  let get_remove := fst <$> filter (λ e, wrap 64 (e.2.2 + MAP_GET_TIMEOUT_MS) ≤ now) (hash_iter (map_get_waits s)) in
  mkLocalStorage (ls_session s) (remove_all to_remove maps) (remove_all get_remove (map_get_waits s)) queue (req_id_seed s).

Definition on_local (order : HashOrder) (s : LocalStorage) (now : Z) (actor : Actor) (control : Control)
    : outcome LocalStorage :=
  match control with
  | MapCmd key control =>
      match match ls_maps s !! key with
            | Some map => Some map
            | None => if is_creator control then Some (local_map_new (ls_session s)) else None
            end with
      | None => Done s
      | Some map =>
          r ← on_control order map now actor control;
          let queue := match r.2 with
                       | Some event => ls_queue s ++ [StorageRemote (route key) (ClientMapCmd key event)]
                       | None => ls_queue s
                       end in
          let '(map, queue) := pop_map_actions key r.1 queue in
          Done (mkLocalStorage (ls_session s) (<[key := map]> (ls_maps s)) (map_get_waits s) queue (req_id_seed s))
      end
  | MapGet key =>
      let req_id := req_id_seed s in
      Done (mkLocalStorage (ls_session s) (ls_maps s) (<[(key, req_id) := (actor, req_id)]> (map_get_waits s))
              (ls_queue s ++ [StorageRemote (route key) (ClientMapGet key req_id)]) (wrap 64 (req_id_seed s + 1)))
  end.

Definition storage_on_server (order : HashOrder) (s : LocalStorage) (now : Z) (remote : NodeSession) (cmd : ServerEvent)
    : LocalStorage :=
  match cmd with
  | ServerMapEv key cmd =>
      match ls_maps s !! key with
      | Some map =>
          let '(map, out) := on_server order map now remote cmd in
          let queue := match out with
                       | Some cmd => ls_queue s ++ [StorageRemote (route key) (ClientMapCmd key cmd)]
                       | None => ls_queue s
                       end in
          let '(map, queue) := pop_map_actions key map queue in
          mkLocalStorage (ls_session s) (<[key := map]> (ls_maps s)) (map_get_waits s) queue (req_id_seed s)
      | None => s
      end
  | ServerMapGetRes key req_id res =>
      match map_get_waits s !! (key, req_id) with
      | Some (actor, _) =>
          mkLocalStorage (ls_session s) (ls_maps s) (delete (key, req_id) (map_get_waits s))
            (ls_queue s ++ [StorageLocal actor (EvMapGetRes key (inl res))]) (req_id_seed s)
      | None => s
      end
  end.

Definition local_storage_pop_action (s : LocalStorage) : LocalStorage * option LocalStorageOutput :=
  match ls_queue s with
  | [] => (s, None)
  | a :: rest => (mkLocalStorage (ls_session s) (ls_maps s) (map_get_waits s) rest (req_id_seed s), Some a)
  end.
End local_storage.

Arguments LocalStorage UserData : clear implicits.
Arguments LocalStorageOutput UserData : clear implicits.

(** ** Synchronisation of the slots *)

Section client_facts.
Context {UserData : Type} `{EqDecision UserData}.
Implicit Types (m : LocalMap UserData) (actor : FeatureControlActor UserData).

Definition sync_outputs (now : Z) (force : bool) (l : list ((Key * NodeSession) * MapSlot)) : list (LocalMapOutput UserData) :=
  omap (λ e, ToRemote <$> (slot_sync e.2 now force).2) l.

Lemma sync_step_eq now force m e :
  sync_step now force m e =
  mkLocalMap (lm_session m) (<[e.1 := (slot_sync e.2 now force).1]> (lm_slots m)) (subscribers m) (sub_state m)
    (lm_queue m ++ sync_outputs now force [e]).
Proof.
  unfold sync_step, sync_outputs. cbn. destruct (slot_sync e.2 now force) as [slot [cmd|]]; cbn; [done|].
  unfold put_slot. by rewrite app_nil_r.
Qed.

Lemma sync_fold_spec now force (l : list ((Key * NodeSession) * MapSlot)) m :
  NoDup l.*1 → (∀ k s, (k, s) ∈ l → lm_slots m !! k = Some s) →
  let m' := foldl (sync_step now force) m l in
  lm_session m' = lm_session m ∧ subscribers m' = subscribers m ∧ sub_state m' = sub_state m ∧
  lm_queue m' = lm_queue m ++ sync_outputs now force l ∧
  ∀ k, lm_slots m' !! k = match lm_slots m !! k with
                          | Some s => Some (if decide (k ∈ l.*1) then (slot_sync s now force).1 else s)
                          | None => None
                          end.
Proof.
  revert m. induction l as [|[k s] l IH]; intros m Hnd Hl; cbn [foldl].
  { cbn. rewrite app_nil_r. split_and!; [done..|]. intros k. destruct (lm_slots m !! k); [|done].
    by rewrite decide_False by apply not_elem_of_nil. }
  apply NoDup_cons in Hnd as [Hni Hnd]. rewrite sync_step_eq. cbn [fst snd].
  assert (lm_slots m !! k = Some s) as Hks by (apply Hl; left).
  destruct (IH (mkLocalMap (lm_session m) (<[k := (slot_sync s now force).1]> (lm_slots m)) (subscribers m) (sub_state m)
    (lm_queue m ++ sync_outputs now force [(k, s)])) Hnd) as (-> & -> & -> & -> & Hlk).
  { intros k' s' Hin. cbn. rewrite lookup_insert_ne; [apply Hl; by right|]. intros <-. apply Hni.
    apply list_elem_of_fmap. by exists (k, s'). }
  cbn [lm_session subscribers sub_state lm_queue lm_slots] in *. split_and!; [done..| |].
  { rewrite <- app_assoc. f_equal. unfold sync_outputs. change ((k, s) :: l) with ([(k, s)] ++ l). by rewrite omap_app. }
  intros k'. rewrite Hlk. cbn. destruct (decide (k' = k)) as [->|Hne].
  - rewrite lookup_insert_eq, Hks, (decide_False (P := k ∈ l.*1)) by done. by rewrite decide_True by left.
  - rewrite lookup_insert_ne by done. destruct (lm_slots m !! k'); [|done]. f_equal.
    destruct (decide (k' ∈ l.*1)), (decide (k' ∈ k :: l.*1)); try done; set_solver.
Qed.

Lemma sync_slots_spec order m now force :
  let m' := sync_slots order m now force in
  lm_session m' = lm_session m ∧ subscribers m' = subscribers m ∧ sub_state m' = sub_state m ∧
  lm_queue m' = lm_queue m ++ sync_outputs now force (hash_iter (lm_slots m)) ∧
  ∀ k, lm_slots m' !! k = (λ s, (slot_sync s now force).1) <$> lm_slots m !! k.
Proof.
  destruct (sync_fold_spec now force (hash_iter (lm_slots m)) m (NoDup_hash_iter_keys _)
    (λ k s Hin, proj1 (elem_of_hash_iter _ _ _) Hin)) as (H1 & H2 & H3 & H4 & Hk).
  split_and!; [done..|]. intros k. unfold sync_slots. rewrite Hk. destruct (lm_slots m !! k) as [s|] eqn:Hs; [|done].
  rewrite decide_True; [done|]. apply list_elem_of_fmap. exists (k, s). split; [done|]. by apply elem_of_hash_iter.
Qed.

(** ** Subscriptions *)

Definition active (st : SubState) : bool :=
  match st with Subscribing _ _ | Subscribed _ _ _ => true | _ => false end.

(** The relay is asked for events exactly while somebody listens. *)
Definition sub_inv m : Prop := NoDup (subscribers m) ∧ (active (sub_state m) = true ↔ subscribers m ≠ []).

Lemma sub_inv_ext m m' :
  subscribers m' = subscribers m → active (sub_state m') = active (sub_state m) → sub_inv m → sub_inv m'.
Proof. unfold sub_inv. by intros -> ->. Qed.

Lemma local_map_new_sub session : sub_inv (local_map_new session).
Proof. by split; [apply NoDup_nil_2|]. Qed.

Lemma sync_slots_sub order m now force : sub_inv m → sub_inv (sync_slots order m now force).
Proof. destruct (sync_slots_spec order m now force) as (_ & H1 & H2 & _). apply sub_inv_ext; [done|by rewrite H2]. Qed.

Lemma tick_sub_state_sub m now : sub_inv m → sub_inv (tick_sub_state m now).
Proof.
  apply sub_inv_ext; unfold tick_sub_state; destruct (sub_state m) eqn:Hst; repeat case_match; cbn; by rewrite ?Hst.
Qed.

Lemma local_on_tick_sub order m now : sub_inv m → sub_inv (local_on_tick order m now).
Proof. intros. apply (sub_inv_ext (sync_slots order (tick_sub_state m now) now false)); auto using sync_slots_sub, tick_sub_state_sub. Qed.

Lemma on_server_sub order m now remote cmd : sub_inv m → sub_inv (on_server order m now remote cmd).1.
Proof.
  intros Hinv. destruct cmd as [key v|key v|id|id|key src v d|key src v]; cbn [on_server].
  - case_match; [by eapply sub_inv_ext|done].
  - case_match; [by eapply sub_inv_ext|done].
  - destruct (sub_state m) as [|sid ts|sid locked ts|] eqn:Hst; cbn [fst]; try done.
    + case_match; [|done]. eapply sub_inv_ext, Hinv; cbn; [done|by rewrite Hst].
    + case_match; [|done]. assert (sub_inv (with_state m (Subscribed sid remote now))) as Hinv'.
      { eapply sub_inv_ext, Hinv; cbn; [done|by rewrite Hst]. }
      case_match; [|done]. by eapply sub_inv_ext, (sync_slots_sub order _ now true), Hinv'.
  - destruct (sub_state m) as [| | |sid st locked ts] eqn:Hst; cbn [fst]; try done.
    case_match; [|done]. eapply sub_inv_ext, Hinv; cbn; [done|by rewrite Hst].
  - repeat case_match; cbn [fst]; try done; by eapply sub_inv_ext.
  - repeat case_match; cbn [fst]; try done; by eapply sub_inv_ext.
Qed.

(** [on_control] on a map with the invariant: it returns, and keeps it. *)
Lemma on_control_sub order m now actor control :
  sub_inv m → ∃ r, on_control order m now actor control = Done r ∧ sub_inv r.1.
Proof.
  intros Hinv. destruct control as [key data|key| |]; cbn [on_control].
  - case_match; case_match; eexists; (split; [done|]); by eapply sub_inv_ext.
  - case_match; [|by eexists]. case_match; case_match; eexists; (split; [done|]); by eapply sub_inv_ext.
  - case_bool_decide as Hin; [by eexists|]. destruct Hinv as [Hnd Hact].
    assert (NoDup (subscribers m ++ [actor])) as Hnd'.
    { apply NoDup_app. split_and!; [done| |apply NoDup_singleton]. intros x Hx ->%list_elem_of_singleton. done. }
    destruct (subscribers m) as [|a l] eqn:Hs; eexists; (split; [done|]); split; cbn; try done.
    split; [intros _; by destruct l|]. intros _. by apply Hact.
  - destruct (bool_decide _ || bool_decide _) eqn:Hb; [by eexists|].
    apply orb_false_iff in Hb as [Hin Hne]. apply bool_decide_eq_false in Hin, Hne.
    destruct Hinv as [Hnd Hact]. pose proof (proj2 Hact Hne) as Ha. cbn [subscribers sub_state with_state].
    destruct (filter (λ x, x ≠ actor) (subscribers m)) as [|a l] eqn:Hf.
    + destruct (sub_state m); try done; eexists; (split; [done|]); by (split; [apply NoDup_nil_2|]).
    + eexists. split; [done|]. split; cbn; rewrite ?Hf; [|done]. rewrite <- Hf. by apply NoDup_filter.
Qed.

(** ** Reachable clients *)

Definition storage_inv (s : LocalStorage UserData) : Prop := ∀ k m, ls_maps s !! k = Some m → sub_inv m.

(** Everything a node does with its client. *)
Inductive client_step (s : LocalStorage UserData) : LocalStorage UserData → Prop :=
| step_tick order now : client_step s (local_storage_on_tick order s now)
| step_local order now actor control s' : on_local order s now actor control = Done s' → client_step s s'
| step_server order now remote ev : client_step s (storage_on_server order s now remote ev)
| step_pop : client_step s (local_storage_pop_action s).1.

Inductive client_reachable (session : NodeSession) : LocalStorage UserData → Prop :=
| reach_new : client_reachable session (local_storage_new session)
| reach_step s s' : client_reachable session s → client_step s s' → client_reachable session s'.

Lemma tick_fold_inv order now (l : list (Map * LocalMap UserData)) maps rm q :
  (∀ k m, (k, m) ∈ l → sub_inv m) → (∀ k m, maps !! k = Some m → sub_inv m) →
  ∀ k m, (foldl (tick_local_map order now) (maps, rm, q) l).1.1 !! k = Some m → sub_inv m.
Proof.
  revert maps rm q. induction l as [|[k m] l IH]; intros maps rm q Hl Hm; [done|]. cbn [foldl]. apply IH.
  { intros k' m' ?. apply (Hl k'). by right. }
  intros k' m'. cbn. rewrite lookup_insert_Some. intros [[_ <-]|[_ ?]]; [|by eapply Hm].
  eapply sub_inv_ext, (local_on_tick_sub order m now), (Hl k); [done..|left].
Qed.

Lemma tick_storage_inv order s now : storage_inv s → storage_inv (local_storage_on_tick order s now).
Proof.
  intros Hinv k m. unfold local_storage_on_tick.
  pose proof (tick_fold_inv order now (hash_iter (ls_maps s)) (ls_maps s) [] (ls_queue s)
    (λ k m Hin, Hinv k m (proj1 (elem_of_hash_iter _ _ _) Hin)) Hinv) as Hfold.
  destruct (foldl _ _ _) as [[maps rm] q]. cbn in *. rewrite lookup_remove_all. case_decide; [done|]. apply Hfold.
Qed.

Lemma on_local_inv order s now actor control :
  storage_inv s → ∃ s', on_local order s now actor control = Done s' ∧ storage_inv s'.
Proof.
  intros Hinv. destruct control as [key control|key]; [|by eexists]. cbn [on_local].
  destruct (match ls_maps s !! key with Some _ => _ | None => _ end) as [m|] eqn:Hm; [|by eexists].
  assert (sub_inv m) as Hsub.
  { destruct (ls_maps s !! key) eqn:Hk; simplify_eq; [by eapply Hinv|]. case_match; simplify_eq. apply local_map_new_sub. }
  destruct (on_control_sub order m now actor control Hsub) as ([m' out] & Hr & Hsub'). rewrite Hr, bind_Done.
  eexists. split; [done|]. intros k m''. cbn. rewrite lookup_insert_Some. intros [[_ <-]|[_ ?]]; [|by eapply Hinv].
  by eapply sub_inv_ext, Hsub'.
Qed.

Lemma storage_on_server_inv order s now remote ev : storage_inv s → storage_inv (storage_on_server order s now remote ev).
Proof.
  intros Hinv. destruct ev as [key ev|key id res]; cbn [storage_on_server].
  - destruct (ls_maps s !! key) as [m|] eqn:Hm; [|done].
    pose proof (on_server_sub order m now remote ev (Hinv _ _ Hm)) as Hsub.
    destruct (on_server order m now remote ev) as [m' out]. intros k m''. cbn.
    rewrite lookup_insert_Some. intros [[_ <-]|[_ ?]]; [|by eapply Hinv]. by eapply sub_inv_ext, Hsub.
  - by repeat case_match.
Qed.

Lemma client_step_inv s s' : client_step s s' → storage_inv s → storage_inv s'.
Proof.
  intros [order now|order now actor control s'' Hs|order now remote ev|] Hinv.
  - by apply tick_storage_inv.
  - destruct (on_local_inv order s now actor control Hinv) as (s1 & Heq & ?).
    rewrite Hs in Heq. by injection Heq as ->.
  - by apply storage_on_server_inv.
  - unfold local_storage_pop_action. by case_match.
Qed.

Lemma client_reachable_inv session s : client_reachable session s → storage_inv s.
Proof. induction 1; [done|by eapply client_step_inv]. Qed.

(** C27. The subscription state machine of the client. In every state a
    client can reach, whatever its users, the relay and the network do: no
    control panics, a map is being subscribed or subscribed exactly while it
    has subscribers, and no subscriber is listed twice. *)
Theorem client_subscription_sound (session : NodeSession) (s : LocalStorage UserData) :
  client_reachable session s →
  (∀ order now actor control, on_local order s now actor control ≠ Panic) ∧
  (∀ k m, ls_maps s !! k = Some m →
    NoDup (subscribers m) ∧ (active (sub_state m) = true ↔ subscribers m ≠ [])).
Proof.
  intros Hr%client_reachable_inv. split; [|exact Hr]. intros order now actor control Hp.
  destruct (on_local_inv order s now actor control Hr) as (s' & Heq & _). congruence.
Qed.

(** ** Events from the relay *)

Lemma on_server_set order m now remote key source v d slot ack updated :
  accept_event m remote = true → slot_on_set (slot_or_new m key source) key source v d = (slot, Some (ack, updated)) →
  on_server order m now remote (SOnSet key source v d) =
  ((if updated : bool then fire_event (put_slot m (key, source) slot) (EvOnSet key source.1 d) else put_slot m (key, source) slot),
   Some ack).
Proof. intros Ha Hs. cbn [on_server]. by rewrite Ha, Hs. Qed.

Lemma on_server_set_newer order m now remote key source v0 v old d :
  accept_event m remote = true → lm_slots m !! (key, source) = Some (LRemote key v0 old) → v0 < v →
  on_server order m now remote (SOnSet key source v d) =
  (fire_event (put_slot m (key, source) (LRemote key v (Some d))) (EvOnSet key source.1 d), Some (COnSetAck key source v)).
Proof.
  intros Ha Hs Hv. apply (on_server_set _ _ _ _ _ _ _ _ _ _ true Ha). unfold slot_or_new. rewrite Hs. cbn.
  by replace (v0 ?= v)%Z with Lt by (symmetry; by apply Z.compare_lt_iff).
Qed.

Lemma on_server_set_same order m now remote key source v old d :
  accept_event m remote = true → lm_slots m !! (key, source) = Some (LRemote key v old) →
  on_server order m now remote (SOnSet key source v d) = (m, Some (COnSetAck key source v)).
Proof.
  intros Ha Hs. erewrite (on_server_set _ _ _ _ _ _ _ _ (LRemote key v old) _ false Ha).
  - f_equal. unfold put_slot. rewrite insert_id by done. by destruct m.
  - unfold slot_or_new. rewrite Hs. cbn. by rewrite Z.compare_refl.
Qed.

Lemma on_server_del_covered order m now remote key source v0 v old :
  accept_event m remote = true → lm_slots m !! (key, source) = Some (LRemote key v0 old) → v0 ≤ v →
  on_server order m now remote (SOnDel key source v) =
  (fire_event (put_slot m (key, source) (LUnspecific key)) (EvOnDel key source.1), Some (COnDelAck key source v)).
Proof.
  intros Ha Hs Hv. cbn [on_server]. rewrite Ha. unfold slot_or_new. rewrite Hs. cbn.
  by zcompare.
Qed.

Lemma on_server_del_gone order m now remote key source v :
  accept_event m remote = true → lm_slots m !! (key, source) = Some (LUnspecific key) →
  on_server order m now remote (SOnDel key source v) = (m, None).
Proof.
  intros Ha Hs. cbn [on_server]. rewrite Ha. unfold slot_or_new. rewrite Hs. cbn.
  f_equal. unfold put_slot. rewrite insert_id by done. by destruct m.
Qed.

(** Redelivery of the relay's events, from the relay the map is locked
    to. A value newer than the slot's is stored, told to every subscriber and
    acknowledged; delivered again it is acknowledged again and told to nobody.
    A deletion is told and acknowledged once; delivered again it is not
    acknowledged (the relay goes on resending it until it gives up). *)
Theorem relay_events_redelivered (order : HashOrder) (m : LocalMap UserData) (now t : Z) (remote source : NodeSession)
    (key : Key) (v0 v : Version) (old : option Bytes) (d : Bytes) :
  accept_event m remote = true → lm_slots m !! (key, source) = Some (LRemote key v0 old) → v0 < v →
  (let r := on_server order m now remote (SOnSet key source v d) in
   r.2 = Some (COnSetAck key source v) ∧ lm_slots r.1 !! (key, source) = Some (LRemote key v (Some d)) ∧
   lm_queue r.1 = lm_queue m ++ ((λ sub, ToLocal sub (EvOnSet key source.1 d)) <$> subscribers m) ∧
   let r' := on_server order r.1 t remote (SOnSet key source v d) in
   r'.2 = Some (COnSetAck key source v) ∧ lm_queue r'.1 = lm_queue r.1 ∧
   lm_slots r'.1 = lm_slots r.1) ∧
  (let r := on_server order m now remote (SOnDel key source v) in
   r.2 = Some (COnDelAck key source v) ∧ lm_slots r.1 !! (key, source) = Some (LUnspecific key) ∧
   lm_queue r.1 = lm_queue m ++ ((λ sub, ToLocal sub (EvOnDel key source.1)) <$> subscribers m) ∧
   let r' := on_server order r.1 t remote (SOnDel key source v) in
   r'.2 = None ∧ lm_queue r'.1 = lm_queue r.1 ∧ lm_slots r'.1 = lm_slots r.1).
Proof.
  intros Hacc Hslot Hv. split.
  - rewrite (on_server_set_newer order m now remote key source v0 v old d) by done. cbn [fst snd].
    split; [done|]. split; [apply lookup_insert_eq|]. split; [done|].
    rewrite (on_server_set_same order _ t remote key source v (Some d) d); [done|done|apply lookup_insert_eq].
  - rewrite (on_server_del_covered order m now remote key source v0 v old) by (done || lia). cbn [fst snd].
    split; [done|]. split; [apply lookup_insert_eq|]. split; [done|].
    rewrite on_server_del_gone; [done|done|apply lookup_insert_eq].
Qed.

(** A new first subscriber is not told a value that the map already
    knows from an earlier subscription. The map has no subscriber but still
    holds another node's value; an actor subscribes, the relay confirms and
    sends the value (as it does for every new subscription): the value is
    acknowledged, the actor is subscribed, and no [OnSet] for it has been
    queued to the actor. *)
Theorem resubscriber_misses_known_value (order : HashOrder) (m m1 : LocalMap UserData)
    (out : option ClientMapCommand) (now t1 t2 : Z)
    (remote source : NodeSession) (actor : FeatureControlActor UserData) (key : Key) (v : Version) (d : Bytes) :
  subscribers m = [] → lm_queue m = [] → source.1 ≠ (lm_session m).1 →
  lm_slots m !! (key, source) = Some (LRemote key v (Some d)) →
  on_control order m now actor MSub = Done (m1, out) →
  let m2 := (on_server order m1 t1 remote (SSubOk now)).1 in
  let r := on_server order m2 t2 remote (SOnSet key source v d) in
  r.2 = Some (COnSetAck key source v) ∧ subscribers r.1 = [actor] ∧ sub_state r.1 = Subscribed now remote t1 ∧
  lm_slots r.1 !! (key, source) = Some (LRemote key v (Some d)) ∧
  ToLocal actor (EvOnSet key source.1 d) ∉ lm_queue r.1.
Proof.
  intros Hsubs Hq Hsrc Hslot Hctl. cbn [on_control] in Hctl. rewrite Hsubs in Hctl.
  rewrite bool_decide_eq_false_2 in Hctl by apply not_elem_of_nil. injection Hctl as <- <-.
  intros m2 r. subst r.
  assert (m2 = fire_event (with_state (restore_events order (with_state (mkLocalMap (lm_session m) (lm_slots m) ([] ++ [actor])
    (sub_state m) (lm_queue m)) (Subscribing now now)) actor true) (Subscribed now remote t1)) (EvOnRelaySelected remote.1)) as ->.
  { subst m2. cbn [on_server restore_events push with_state sub_state]. by rewrite Z.eqb_refl. }
  rewrite (on_server_set_same order _ t2 remote key source v (Some d) d);
    [|by apply bool_decide_eq_true_2|done].
  cbn [fst snd]. split_and!; [done..|]. cbn [lm_queue fire_event push with_state restore_events app lm_slots lm_session subscribers].
  rewrite Hq. cbn [app]. intros [Hin|Hin]%elem_of_app.
  - apply list_elem_of_omap in Hin as ([[k src] slot] & Hin & Heq). cbn in Heq. case_bool_decide; cbn in Heq; [|done].
    subst src. destruct (slot_data slot); [|done]. injection Heq as ? ?; subst. done.
  - cbn in Hin. apply list_elem_of_singleton in Hin. done.
Qed.

(** ** Reading a map *)

Lemma tick_forgets_waits order (s : LocalStorage UserData) now k :
  map_get_waits (local_storage_on_tick order s now) !! k =
  match map_get_waits s !! k with
  | Some (actor, t) => if bool_decide (wrap 64 (t + MAP_GET_TIMEOUT_MS) ≤ now) then None else Some (actor, t)
  | None => None
  end.
Proof.
  unfold local_storage_on_tick. destruct (foldl _ _ _) as [[maps rm] q]. cbn [map_get_waits]. rewrite lookup_remove_all.
  destruct (map_get_waits s !! k) as [[actor t]|] eqn:Hk; [|by case_decide]. case_bool_decide as Ht.
  - rewrite decide_True; [done|]. apply list_elem_of_fmap. exists (k, (actor, t)). split; [done|].
    apply list_elem_of_filter. split; [done|]. by apply elem_of_hash_iter.
  - rewrite decide_False; [done|]. intros ([k' w] & -> & [Hw Hin]%list_elem_of_filter)%list_elem_of_fmap.
    apply elem_of_hash_iter in Hin. cbn in *. rewrite Hk in Hin. injection Hin as <-. done.
Qed.

(** A [MapGet] is answered only if the answer comes before the next
    tick: the request is remembered with its number where the time belongs,
    so at any clock [MAP_GET_TIMEOUT_MS] past the request's number the first
    tick, however soon after the request, forgets it; the answer that comes
    later changes nothing, and the user hears neither the values nor the
    [Timeout] error the interface has. *)
Theorem map_get_forgotten_by_first_tick (order : HashOrder) (s s1 : LocalStorage UserData) (now tick t : Z)
    (actor : FeatureControlActor UserData) (key : Map) (remote : NodeSession) res :
  0 ≤ req_id_seed s → req_id_seed s + MAP_GET_TIMEOUT_MS < 2 ^ 64 → req_id_seed s + MAP_GET_TIMEOUT_MS ≤ tick →
  on_local order s now actor (MapGet key) = Done s1 →
  map_get_waits s1 !! (key, req_id_seed s) = Some (actor, req_id_seed s) ∧
  map_get_waits (local_storage_on_tick order s1 tick) !! (key, req_id_seed s) = None ∧
  storage_on_server order (local_storage_on_tick order s1 tick) t remote (ServerMapGetRes key (req_id_seed s) res) =
    local_storage_on_tick order s1 tick.
Proof.
  intros H0 Hmax Htick [= <-].
  assert (map_get_waits (local_storage_on_tick order (mkLocalStorage (ls_session s) (ls_maps s)
    (<[(key, req_id_seed s) := (actor, req_id_seed s)]> (map_get_waits s))
    (ls_queue s ++ [StorageRemote (route key) (ClientMapGet key (req_id_seed s))]) (wrap 64 (req_id_seed s + 1))) tick)
    !! (key, req_id_seed s) = None) as Hnone.
  { rewrite tick_forgets_waits. cbn [map_get_waits]. rewrite lookup_insert_eq, bool_decide_eq_true_2; [done|].
    rewrite wrap_small; unfold MAP_GET_TIMEOUT_MS in *; lia. }
  split_and!; [cbn; by rewrite lookup_insert_eq|done|]. cbn [storage_on_server]. by rewrite Hnone.
Qed.
End client_facts.

(** A client of node 1 with a subscriber that has learned a value of node 2. *)
Definition demo_map : LocalMap Z :=
  mkLocalMap (1, 1) {[ (7, (2, 2)) := LRemote 7 10 (Some [9]) ]} [ActorController 0] (Subscribed 5 (3, 3) 6) [].

Lemma client_subscription_sound_witness :
  ∃ s : LocalStorage Z, on_local canonical_order (local_storage_new (1, 1)) 5 (ActorController 0) (MapCmd 4 MSub) = Done s ∧
    on_local canonical_order s 6 (ActorController 0) (MapCmd 4 MUnsub) ≠ Panic ∧
    ∃ m, ls_maps s !! 4 = Some m ∧ subscribers m ≠ [] ∧ active (sub_state m) = true.
Proof.
  destruct (on_local canonical_order (local_storage_new (1, 1)) 5 (ActorController 0) (MapCmd 4 MSub)) as [s|] eqn:Hs;
    [|by vm_compute in Hs].
  destruct (client_subscription_sound (UserData := Z) (1, 1) s) as [Hnp Hinv].
  { eapply reach_step; [apply reach_new|]. by eapply step_local. }
  exists s. split; [done|]. split; [apply Hnp|]. vm_compute in Hs. injection Hs as <-. eexists. split; [reflexivity|].
  destruct (Hinv 4 _ eq_refl) as [_ Hiff]. split; [discriminate|]. by apply Hiff.
Defined.

Lemma relay_events_redelivered_witness :
  (on_server canonical_order demo_map 20 (3, 3) (SOnSet 7 (2, 2) 11 [8])).2 = Some (COnSetAck 7 (2, 2) 11) ∧
  (on_server canonical_order demo_map 20 (3, 3) (SOnDel 7 (2, 2) 11)).2 = Some (COnDelAck 7 (2, 2) 11).
Proof.
  destruct (relay_events_redelivered canonical_order demo_map 20 30 (3, 3) (2, 2) 7 10 11 (Some [9]) [8]) as [Hset Hdel].
  - reflexivity.
  - reflexivity.
  - lia.
  - split; [apply Hset|apply Hdel].
Defined.

Lemma resubscriber_misses_known_value_witness :
  ∃ m1 out, on_control canonical_order (mkLocalMap (1, 1) (lm_slots demo_map) [] NotSub []) 40 (ActorController 0) MSub = Done (m1, out) ∧
    ToLocal (ActorController 0) (EvOnSet 7 2 [9]) ∉
      lm_queue (on_server canonical_order (on_server canonical_order m1 41 (3, 3) (SSubOk 40)).1 42 (3, 3) (SOnSet 7 (2, 2) 10 [9])).1.
Proof.
  eexists _, _. split; [reflexivity|].
  refine (proj2 (proj2 (proj2 (proj2 (resubscriber_misses_known_value canonical_order
    (mkLocalMap (1, 1) (lm_slots demo_map) [] NotSub []) _ _ 40 41 42 (3, 3) (2, 2) (ActorController 0) 7 10 [9]
    eq_refl eq_refl _ eq_refl eq_refl))))). discriminate.
Defined.

Lemma map_get_forgotten_by_first_tick_witness :
  ∃ s1, on_local canonical_order (local_storage_new (1, 1)) 100000 (ActorController 0) (MapGet 4) = Done s1 ∧
    map_get_waits s1 !! (4, 0) ≠ None ∧ map_get_waits (local_storage_on_tick canonical_order s1 100001) !! (4, 0) = None.
Proof.
  eexists. split; [reflexivity|]. split; [discriminate|].
  apply (map_get_forgotten_by_first_tick canonical_order (local_storage_new (1, 1)) _ 100000 100001 100002
    (ActorController 0) 4 (3, 3) []); [by vm_compute..|reflexivity].
Defined.
