(* ===== verification/Dht.v ===== *)
(** * The key-value feature of a node ([features/dht_kv/internal.rs], [features/dht_kv/mod.rs])

    A node is a client of every map and the relay of the maps whose key it
    owns; [DhtKvInternal] joins the two, [DhtKvFeature] connects them to the
    network, where every command travels as an encoded [RemoteCommand]. *)

From S2P Require Import Prelude NodeId ConnId Route Msg Base DhtMsg DhtServer DhtClient.

Section internal.
Context {UserData : Type} `{EqDecision UserData}.

Abbreviation Actor := (FeatureControlActor UserData) (only parsing).

Inductive InternalOutput :=
| InternalLocal (actor : Actor) (event : Event)
| InternalRemote (rule : RouteRule) (cmd : RemoteCommand).

Record DhtKvInternal := mkDhtKv {
  session : NodeSession;
  local : LocalStorage UserData;
  remote : RemoteStorage;
}.

Definition internal_new (session : NodeSession) : DhtKvInternal :=
  mkDhtKv session (local_storage_new session) (remote_storage_new session).

Definition internal_on_tick (order : HashOrder) (s : DhtKvInternal) (now : Z) : DhtKvInternal :=
  mkDhtKv (session s) (local_storage_on_tick order (local s) now) (storage_on_tick order (remote s) now).

Definition internal_on_local (order : HashOrder) (s : DhtKvInternal) (now : Z) (actor : Actor) (control : Control)
    : outcome DhtKvInternal :=
  l ← on_local order (local s) now actor control;
  Done (mkDhtKv (session s) l (remote s)).

Definition internal_on_remote (order : HashOrder) (s : DhtKvInternal) (now : Z) (cmd : RemoteCommand) : DhtKvInternal :=
  match cmd with
  | RemoteClient from cmd => mkDhtKv (session s) (local s) (storage_on_remote order (remote s) now from cmd)
  | RemoteServer from cmd => mkDhtKv (session s) (storage_on_server order (local s) now from cmd) (remote s)
  end.

Definition internal_pop_action (s : DhtKvInternal) : DhtKvInternal * option InternalOutput :=
  match local_storage_pop_action (local s) with
  | (l, Some (StorageRemote rule cmd)) =>
      (mkDhtKv (session s) l (remote s), Some (InternalRemote rule (RemoteClient (session s) cmd)))
  | (l, Some (StorageLocal actor event)) =>
      (mkDhtKv (session s) l (remote s), Some (InternalLocal actor event))
  | (_, None) =>
      match storage_pop_action (remote s) with
      | (r, Some (to, cmd)) =>
          (mkDhtKv (session s) (local s) r, Some (InternalRemote (ToNode to.1) (RemoteServer (session s) cmd)))
      | (_, None) => (s, None)
      end
  end.
End internal.

Arguments DhtKvInternal UserData : clear implicits.
Arguments InternalOutput UserData : clear implicits.

(** ** The feature *)

Section feature.
Context {UserData : Type} `{EqDecision UserData} {Addr Secure : Type}.
Context {cmd_codec : Codec RemoteCommand}.

Abbreviation ToWorker := unit (only parsing).
Abbreviation ToController := unit (only parsing).
Abbreviation Output := (FeatureOutput UserData Event ToWorker Addr) (only parsing).
Abbreviation WorkerOutput := (FeatureWorkerOutput UserData Control Event ToController) (only parsing).

Record DhtKvFeature := mkDhtKvFeature {
  internal : DhtKvInternal UserData;
  feature_shutdown : bool;
}.

Definition feature_new (node_id : NodeId) (session : Z) : DhtKvFeature :=
  mkDhtKvFeature (internal_new (node_id, session)) false.

Definition feature_on_shared_input (order : HashOrder) (self : DhtKvFeature) (now : Z) (input : FeatureSharedInput Secure)
    : DhtKvFeature :=
  match input with
  | Tick _ => mkDhtKvFeature (internal_on_tick order (internal self) now) (feature_shutdown self)
  | Connection _ => self
  end.

(** A command that decodes is applied, anything else is dropped. *)
Definition feature_on_buf (order : HashOrder) (self : DhtKvFeature) (now : Z) (buf : Buffer) : DhtKvFeature :=
  match deserialize (T := RemoteCommand) buf with
  | Some cmd => mkDhtKvFeature (internal_on_remote order (internal self) now cmd) (feature_shutdown self)
  | None => self
  end.

Definition feature_on_input (order : HashOrder) (self : DhtKvFeature) (now : Z)
    (input : FeatureInput UserData Control ToController) : outcome DhtKvFeature :=
  match input with
  | FControl actor control =>
      i ← internal_on_local order (internal self) now actor control;
      Done (mkDhtKvFeature i (feature_shutdown self))
  | FLocal _ buf => Done (feature_on_buf order self now buf)
  | FNet _ meta buf => if negb (in_secure meta) then Done self else Done (feature_on_buf order self now buf)
  | FromWorker _ => Done self
  end.

Definition feature_on_shutdown (self : DhtKvFeature) : DhtKvFeature := mkDhtKvFeature (internal self) true.

Definition dht_is_empty (self : DhtKvFeature) : bool := feature_shutdown self.

Definition feature_pop_output (self : DhtKvFeature) : DhtKvFeature * option Output :=
  match internal_pop_action (internal self) with
  | (i, Some (InternalLocal service event)) =>
      (mkDhtKvFeature i (feature_shutdown self), Some (OutEvent service event))
  | (i, Some (InternalRemote rule cmd)) =>
      (mkDhtKvFeature i (feature_shutdown self),
       Some (OutSendRoute rule (mkOutgoing false DEFAULT_MSG_TTL 0 true) (serialize cmd)))
  | (i, None) => (mkDhtKvFeature i (feature_shutdown self), None)
  end.

(** *** The worker side: everything goes to the controller *)

Record DhtKvFeatureWorker := mkDhtKvWorker {
  dht_worker_queue : list WorkerOutput;
  dht_worker_shutdown : bool;
}.

Definition dht_worker_on_input (self : DhtKvFeatureWorker) (input : FeatureWorkerInput UserData Control ToWorker)
    : DhtKvFeatureWorker :=
  let forward out := mkDhtKvWorker (dht_worker_queue self ++ [out]) (dht_worker_shutdown self) in
  match input with
  | WControl actor control => forward (ForwardControlToController actor control)
  | WNetwork conn header buf => forward (ForwardNetworkToController conn header buf)
  | WFromController _ _ => self
  | WLocal header buf => forward (ForwardLocalToController header buf)
  end.

Definition dht_worker_on_shutdown (self : DhtKvFeatureWorker) : DhtKvFeatureWorker :=
  mkDhtKvWorker (dht_worker_queue self) true.

Definition dht_worker_is_empty (self : DhtKvFeatureWorker) : bool :=
  dht_worker_shutdown self && match dht_worker_queue self with [] => true | _ => false end.

Definition dht_worker_pop_output (self : DhtKvFeatureWorker) : DhtKvFeatureWorker * option WorkerOutput :=
  match dht_worker_queue self with
  | [] => (self, None)
  | out :: rest => (mkDhtKvWorker rest (dht_worker_shutdown self), Some out)
  end.
End feature.

Arguments DhtKvFeature UserData : clear implicits.
