(* ===== verification/DhtNet.v ===== *)
(** * A network of key-value nodes

    Nodes exchange commands over a network that may lose, duplicate, reorder
    and misroute them: a node may receive, at any time, any command that was
    ever sent. Two groups of theorems: what users and relays hold was written
    by the node it is attributed to; and one synchronisation period repairs
    a relay and a subscriber that lost a value. *)

From S2P Require Import Prelude NodeId ConnId Route Msg Base DhtMsg DhtServer DhtClient Dht.

(** ** The network *)

Section net.
Context {UserData : Type} `{EqDecision UserData}.

Record write_op := mkWrite {
  w_map : Map;
  w_key : Key;
  w_source : NodeSession;
  w_version : Version;
  w_data : Bytes;
}.

Record net := mkNet {
  nodes : gmap NodeSession (DhtKvInternal UserData);
  sent : list RemoteCommand;
  told : list (NodeSession * FeatureControlActor UserData * Event);
  written : list write_op;
  subscribed : list (NodeSession * FeatureControlActor UserData * Map);
}.

Definition net_empty : net := mkNet ∅ [] [] [] [].

Definition put_node (N : net) (s : NodeSession) (n : DhtKvInternal UserData) : net :=
  mkNet (<[s := n]> (nodes N)) (sent N) (told N) (written N) (subscribed N).

(** The write a control makes, if it is one. *)
Definition control_write (s : NodeSession) (now : Z) (c : Control) : list write_op :=
  match c with MapCmd map (MSet key data) => [mkWrite map key s now data] | _ => [] end.

(** The subscription it makes. *)
Definition control_sub (s : NodeSession) (actor : FeatureControlActor UserData) (c : Control) : list (NodeSession * FeatureControlActor UserData * Map) :=
  match c with MapCmd map MSub => [(s, actor, map)] | _ => [] end.

Inductive dht_step (N : net) : net → Prop :=
| dht_join s : nodes N !! s = None → dht_step N (put_node N s (internal_new s))
| dht_leave s : dht_step N (mkNet (delete s (nodes N)) (sent N) (told N) (written N) (subscribed N))
| dht_tick s n order now : nodes N !! s = Some n → dht_step N (put_node N s (internal_on_tick order n now))
| dht_control s n order now actor control n' :
    nodes N !! s = Some n → internal_on_local order n now actor control = Done n' →
    dht_step N (mkNet (<[s := n']> (nodes N)) (sent N) (told N) (written N ++ control_write s now control) (subscribed N ++ control_sub s actor control))
| dht_receive s n order now cmd :
    nodes N !! s = Some n → cmd ∈ sent N → dht_step N (put_node N s (internal_on_remote order n now cmd))
| dht_send s n n' rule cmd :
    nodes N !! s = Some n → internal_pop_action n = (n', Some (InternalRemote rule cmd)) →
    dht_step N (mkNet (<[s := n']> (nodes N)) (sent N ++ [cmd]) (told N) (written N) (subscribed N))
| dht_tell s n n' actor event :
    nodes N !! s = Some n → internal_pop_action n = (n', Some (InternalLocal actor event)) →
    dht_step N (mkNet (<[s := n']> (nodes N)) (sent N) (told N ++ [(s, actor, event)]) (written N) (subscribed N)).

Inductive dht_reachable : net → Prop :=
| dht_reach_empty : dht_reachable net_empty
| dht_reach_step N N' : dht_reachable N → dht_step N N' → dht_reachable N'.
End net.

Arguments net UserData : clear implicits.

(** ** Attribution: what is read was written *)

Section attribution.
Context {UserData : Type} `{EqDecision UserData}.
(** The writes and the subscriptions that count. *)
Variable W : Map → Key → NodeSession → Version → Bytes → Prop.
Variable S : NodeSession → FeatureControlActor UserData → Map → Prop.

Definition sev_ok (map : Map) (ev : ServerMapEvent) : Prop :=
  match ev with SOnSet key source v d => W map key source v d | _ => True end.

Definition ccmd_ok (map : Map) (from : NodeSession) (cmd : ClientMapCommand) : Prop :=
  match cmd with CSet key v d => W map key from v d | _ => True end.

Definition values_ok (map : Map) (values : list (Key * NodeSession * Version * Bytes)) : Prop :=
  ∀ key source v d, (key, source, v, d) ∈ values → W map key source v d.

Definition client_cmd_ok (from : NodeSession) (cmd : ClientCommand) : Prop :=
  match cmd with ClientMapCmd map cmd => ccmd_ok map from cmd | ClientMapGet _ _ => True end.

Definition server_event_ok (ev : ServerEvent) : Prop :=
  match ev with ServerMapEv map ev => sev_ok map ev | ServerMapGetRes map _ values => values_ok map values end.

Definition remote_cmd_ok (cmd : RemoteCommand) : Prop :=
  match cmd with RemoteClient from cmd => client_cmd_ok from cmd | RemoteServer _ ev => server_event_ok ev end.

Definition map_event_ok (map : Map) (ev : MapEvent) : Prop :=
  match ev with EvOnSet key n d => ∃ s v, s.1 = n ∧ W map key s v d | _ => True end.

Definition event_ok (ev : Event) : Prop :=
  match ev with
  | EvMapEvent map ev => map_event_ok map ev
  | EvMapGetRes map (inl values) => values_ok map values
  | EvMapGetRes _ (inr _) => True
  end.

(** *** The relay *)

Definition relay_slot_ok (map : Map) (sk : Key * NodeSession) (slot : DhtServer.MapSlot) : Prop :=
  match slot with SlotSet d v _ => W map sk.1 sk.2 v d | Unspecific => True end.

Record relay_ok (map : Map) (m : RemoteMap) : Prop := {
  rok_slots : ∀ sk slot, rm_slots m !! sk = Some slot → relay_slot_ok map sk slot;
  rok_events : ∀ sk w, slots_event m !! sk = Some w → sev_ok map (wait_event w);
  rok_queue : Forall (λ e, sev_ok map e.2) (rm_queue m);
}.

Lemma relay_new_ok map s : relay_ok map (remote_map_new s).
Proof. split; cbn; [intros ?? []%lookup_empty_Some..|constructor]. Qed.

Lemma relay_slots_ok map m sk slot :
  relay_ok map m → relay_slot_ok map sk slot → relay_ok map (with_slots m (<[sk := slot]> (rm_slots m))).
Proof.
  intros [] Hs. split; cbn; [|done..]. map_update.
Qed.

Lemma to_all_ok map (f : NodeSession → NodeSession * ServerMapEvent) ev l :
  sev_ok map ev → (∀ r, (f r).2 = ev) → Forall (λ e, sev_ok map e.2) (f <$> l).
Proof. intros Hev Hf. apply Forall_fmap, Forall_true. intros r. cbn. by rewrite Hf. Qed.

Lemma fire_event_ok order map m now key source ev :
  relay_ok map m → sev_ok map ev → relay_ok map (DhtServer.fire_event order m now key source ev).
Proof.
  intros [] Hev. unfold DhtServer.fire_event. case_match; [done|]. split; cbn; [done| |].
  - map_update.
  - apply Forall_app. split; [done|]. by eapply to_all_ok.
Qed.

Lemma fire_sub_events_ok order map m now remote : relay_ok map m → relay_ok map (fire_sub_events order m now remote).
Proof.
  intros Hok. unfold fire_sub_events.
  assert (∀ sk slot, (sk, slot) ∈ hash_iter (rm_slots m) → relay_slot_ok map sk slot) as Hl.
  { intros sk slot Hin%elem_of_hash_iter. by eapply rok_slots. }
  revert Hl Hok. generalize (hash_iter (rm_slots m)) as l. intros l. revert m.
  induction l as [|[[key source] slot] l IH]; intros m Hl Hok; [done|]. cbn [foldl]. apply IH; [intros; apply Hl; by right|].
  pose proof (Hl (key, source) slot ltac:(left)) as Hslot. cbn. case_match; [done|].
  destruct slot as [|d v t]; cbn; [done|]. destruct Hok. split; cbn; [done| |].
  - intros sk w. rewrite lookup_insert_Some. intros [[_ <-]|[_ ?]]; [|eauto].
    cbn. destruct (slots_event m !! (key, source)) eqn:Hw; cbn; eauto.
  - by apply Forall_snoc.
Qed.

Lemma acked_ok map m remote sk w :
  relay_ok map m → slots_event m !! sk = Some w → relay_ok map (acked m remote sk w).
Proof.
  intros [Hs He Hq] Hw. unfold acked. case_match; split; cbn; try done; map_update; exact (He _ _ Hw).
Qed.

Lemma on_client_ok order map m now from cmd :
  relay_ok map m → ccmd_ok map from cmd →
  relay_ok map (on_client order m now from cmd).1 ∧ from_option (sev_ok map) True (on_client order m now from cmd).2.
Proof.
  intros Hok Hcmd. destruct cmd as [key v d|key v|id lk|id|key s v|key s v]; cbn [on_client].
  - unfold DhtServer.slot_set. destruct (default _ _) as [|d0 v0 t0] eqn:Hs.
    + cbn. split; [|done]. by apply fire_event_ok, Hcmd; apply relay_slots_ok.
    + destruct (v0 <=? v); cbn; (split; [|done]).
      * by apply fire_event_ok, Hcmd; apply relay_slots_ok.
      * apply relay_slots_ok; [done|]. destruct (rm_slots m !! (key, from)) eqn:Hl; cbn in Hs; [|done]. subst.
        by eapply rok_slots in Hl.
  - destruct (rm_slots m !! (key, from)) as [slot|] eqn:Hl; [|done]. unfold DhtServer.slot_del.
    pose proof (rok_slots _ _ Hok _ _ Hl) as Hslot. destruct slot as [|d0 v0 t0]; [|destruct (v0 <=? v)]; cbn; (split; [|done]).
    + by apply relay_slots_ok.
    + apply fire_event_ok; [|done]. destruct Hok. split; cbn; try done. map_update.
    + by apply relay_slots_ok.
  - destruct Hok. repeat case_match; cbn; (split; [|done]); [apply fire_sub_events_ok|]; by split.
  - destruct Hok. repeat case_match; cbn; (split; [|done]); by split.
  - destruct (slots_event m !! (key, s)) as [w|] eqn:Hw; [|done].
    destruct (wait_event w); try done. case_match; cbn; (split; [|done]); [|done]. by apply acked_ok.
  - destruct (slots_event m !! (key, s)) as [w|] eqn:Hw; [|done].
    destruct (wait_event w); try done. case_match; cbn; (split; [|done]); [|done]. by apply acked_ok.
Qed.

Lemma remote_on_tick_ok order map m now : relay_ok map m → relay_ok map (remote_on_tick order m now).
Proof.
  intros []. destruct (remote_on_tick_spec order m now) as (Hs & _ & _ & Hev & Hq). split.
  - rewrite Hs. done.
  - intros sk w. rewrite Hev. destruct (slots_event m !! sk) as [w0|] eqn:Hw; [|done]. case_match; [done|].
    intros [= <-]. unfold touched. case_match; cbn; eauto.
  - rewrite Hq. apply Forall_app. split; [done|]. apply Forall_forall. intros e Hin.
    apply list_elem_of_join in Hin as (l & Hin & Hl). apply list_elem_of_fmap in Hl as ([sk w] & -> & Hw%elem_of_hash_iter).
    unfold resends in Hin. cbn in Hin. repeat case_match; try by apply not_elem_of_nil in Hin.
    apply list_elem_of_fmap in Hin as (r & -> & _). cbn. eauto.
Qed.

Record relays_ok (s : RemoteStorage) : Prop := {
  rso_maps : ∀ map m, rst_maps s !! map = Some m → relay_ok map m;
  rso_queue : Forall (λ e, server_event_ok e.2) (rst_queue s);
}.

Lemma drain_map_ok key m q :
  relay_ok key m → Forall (λ e, server_event_ok e.2) q →
  relay_ok key (drain_map key m q).1 ∧ Forall (λ e, server_event_ok e.2) (drain_map key m q).2.
Proof.
  intros [] Hq. split; [by split; cbn|]. cbn. rewrite drain_into_eq. apply Forall_app. split; [done|].
  apply Forall_fmap. eapply Forall_impl; [done|]. by intros [].
Qed.

Lemma storage_on_tick_ok order s now : relays_ok s → relays_ok (storage_on_tick order s now).
Proof.
  intros [Hm Hq]. unfold storage_on_tick.
  assert (∀ l maps rm q, (∀ k m, (k, m) ∈ l → relay_ok k m) → (∀ k m, maps !! k = Some m → relay_ok k m) →
    Forall (λ e, server_event_ok e.2) q →
    let r := foldl (tick_map order now) (maps, rm, q) l in
    (∀ k m, r.1.1 !! k = Some m → relay_ok k m) ∧ Forall (λ e, server_event_ok e.2) r.2) as Hfold.
  { induction l as [|[k m] l IH]; intros maps rm q Hl Hmaps Hq'; [done|]. cbn [foldl tick_map].
    destruct (drain_map_ok k (remote_on_tick order m now) q) as [Hm' Hq''];
      [apply remote_on_tick_ok, Hl; left|done|].
    destruct (drain_map k _ q) as [m' q']. apply IH; [intros; apply Hl; by right| |done].
    map_update. }
  destruct (Hfold (hash_iter (rst_maps s)) (rst_maps s) [] (rst_queue s)) as [Hm' Hq'];
    [intros k m Hin%elem_of_hash_iter; eauto|done|done|].
  destruct (foldl _ _ _) as [[maps rm] q]. split; cbn in *; [|done].
  intros k m. rewrite lookup_remove_all. case_decide; [done|]. apply Hm'.
Qed.

Lemma storage_on_remote_ok order s now from cmd :
  relays_ok s → client_cmd_ok from cmd → relays_ok (storage_on_remote order s now from cmd).
Proof.
  intros [Hm Hq] Hcmd. destruct cmd as [key cmd|key id]; cbn [storage_on_remote].
  - destruct (match rst_maps s !! key with Some _ => _ | None => _ end) as [m|] eqn:Hl; [|by split].
    assert (relay_ok key m) as Hok.
    { destruct (rst_maps s !! key) eqn:Hk; simplify_eq; [by eapply Hm|]. case_match; simplify_eq. apply relay_new_ok. }
    destruct (on_client_ok order key m now from cmd Hok Hcmd) as [Hok' Hev].
    destruct (on_client order m now from cmd) as [m' [ev|]]; cbn in Hok', Hev.
    + destruct (drain_map_ok key m' (rst_queue s ++ [(from, ServerMapEv key ev)])) as [Hok'' Hq']; [done| |].
      { by apply Forall_snoc. }
      destruct (drain_map key m' _) as [m'' q']. split; cbn in *; [|done].
      map_update.
    + split; cbn; [|done]. map_update.
  - split; cbn; [done|]. apply Forall_snoc; [done|]. cbn. intros k src v d Hin.
    destruct (rst_maps s !! key) as [m|] eqn:Hl; [|by apply not_elem_of_nil in Hin].
    apply elem_of_remote_dump in Hin. unfold store in Hin. rewrite lookup_omap in Hin.
    destruct (rm_slots m !! (k, src)) as [slot|] eqn:Hslot; [|done]. cbn in Hin.
    pose proof (rok_slots _ _ (Hm _ _ Hl) _ _ Hslot) as Hok. destruct slot; [done|]. cbn in *. by simplify_eq.
Qed.

(** *** The client *)

(** A slot of the client with session [me]: only its own slots are written
    locally. *)
Definition slot_ok (map : Map) (me : NodeSession) (sk : Key * NodeSession) (slot : DhtClient.MapSlot) : Prop :=
  slot_key slot = sk.1 ∧
  match slot with
  | LUnspecific _ => True
  | LRemote _ v value => from_option (W map sk.1 sk.2 v) True value
  | LLocal _ value v _ _ => sk.2 = me ∧ from_option (W map sk.1 sk.2 v) True value
  end.

Definition map_out_ok (map : Map) (me : NodeSession) (out : LocalMapOutput UserData) : Prop :=
  match out with ToRemote cmd => ccmd_ok map me cmd | ToLocal actor ev => S me actor map ∧ map_event_ok map ev end.

Record client_ok (map : Map) (me : NodeSession) (m : LocalMap UserData) : Prop := {
  cok_session : lm_session m = me;
  cok_subs : ∀ actor, actor ∈ subscribers m → S me actor map;
  cok_slots : ∀ sk slot, lm_slots m !! sk = Some slot → slot_ok map me sk slot;
  cok_queue : Forall (map_out_ok map me) (lm_queue m);
}.

Lemma client_new_ok map me : client_ok map me (local_map_new me).
Proof. split; cbn; [done|by intros ? ?%elem_of_nil|intros ?? []%lookup_empty_Some|constructor]. Qed.

Lemma put_slot_ok map me m sk slot :
  client_ok map me m → slot_ok map me sk slot → client_ok map me (put_slot m sk slot).
Proof.
  intros [] Hs. split; cbn; [done..| |done]. map_update.
Qed.

Lemma push_ok map me m outs : client_ok map me m → Forall (map_out_ok map me) outs → client_ok map me (push m outs).
Proof. intros [] Ho. split; cbn; [done..|]. by apply Forall_app. Qed.

Lemma with_state_ok map me m st : client_ok map me m → client_ok map me (with_state m st).
Proof. intros []. by split. Qed.

Lemma fire_ok map me m ev : client_ok map me m → map_event_ok map ev → client_ok map me (DhtClient.fire_event m ev).
Proof. intros Hm Hev. apply push_ok; [done|]. apply Forall_fmap, Forall_forall. intros actor Ha. split; [by apply Hm|done]. Qed.

Lemma slot_or_new_ok map me m key source :
  client_ok map me m → slot_ok map me (key, source) (slot_or_new m key source).
Proof.
  intros []. unfold slot_or_new. destruct (lm_slots m !! (key, source)) eqn:Hs; cbn; [eauto|by split].
Qed.

Lemma slot_sync_ok map me sk slot now force :
  slot_ok map me sk slot →
  slot_ok map me sk (slot_sync slot now force).1 ∧ from_option (ccmd_ok map me) True (slot_sync slot now force).2.
Proof.
  intros [Hk Hs]. destruct slot as [key|key v value|key value v sy ls]; cbn; [by split..|].
  destruct Hs as [Hme Hv]. case_match; cbn; (split; [by split|]); [|done].
  destruct value; cbn in *; [|done]. cbn in Hk. subst. done.
Qed.

Lemma sync_slots_ok order map me m now force : client_ok map me m → client_ok map me (sync_slots order m now force).
Proof.
  intros Hok. destruct (sync_slots_spec order m now force) as (Hse & Hsubs & _ & Hq & Hsl). destruct Hok as [Hme Hsu Hslots Hqu]. split.
  - congruence.
  - by rewrite Hsubs.
  - intros sk slot. rewrite Hsl. destruct (lm_slots m !! sk) eqn:Hs; [|done]. intros [= <-].
    eapply slot_sync_ok; eauto.
  - rewrite Hq. apply Forall_app. split; [done|]. apply Forall_forall. intros out Hin.
    apply list_elem_of_omap in Hin as ([sk slot] & Hin%elem_of_hash_iter & Heq). cbn in Heq.
    destruct (slot_sync_ok map me sk slot now force) as [_ Hc]; [eauto|].
    destruct (slot_sync slot now force).2; cbn in Heq, Hc; [|done]. by injection Heq as <-.
Qed.

Lemma restore_events_ok order map me m actor only_local :
  client_ok map me m → S me actor map → client_ok map me (restore_events order m actor only_local).
Proof.
  intros Hok Ha. apply push_ok; [done|]. apply Forall_forall. intros out Hin.
  apply list_elem_of_omap in Hin as ([[key source] slot] & Hin%elem_of_hash_iter & Heq).
  case_match; [done|]. apply (cok_slots _ _ _ Hok) in Hin as [_ Hin].
  destruct slot as [k|k v value|k value v sy ls]; cbn in Heq; [done|..]; destruct value; simplify_eq; cbn in *;
    (split; [done|]); exists source, v; [done|split; [done|apply Hin]].
Qed.

Lemma local_on_tick_ok order map me m now : client_ok map me m → client_ok map me (local_on_tick order m now).
Proof.
  intros Hok. assert (client_ok map me (sync_slots order (tick_sub_state m now) now false)) as [].
  { apply sync_slots_ok. unfold tick_sub_state.
    repeat case_match; try done; apply with_state_ok; try done; apply push_ok; try done; by apply Forall_singleton. }
  split; cbn; [done..| |done]. intros sk slot. rewrite lookup_remove_all. case_decide; [done|]. eauto.
Qed.

(** The write or the subscription of a control is one that counts. *)
Definition control_ok (map : Map) (me : NodeSession) (now : Z) (actor : FeatureControlActor UserData) (c : MapControl) : Prop :=
  match c with MSet key data => W map key me now data | MSub => S me actor map | _ => True end.

Lemma on_control_ok order map me m now actor c m' out :
  client_ok map me m → control_ok map me now actor c → on_control order m now actor c = Done (m', out) →
  client_ok map me m' ∧ from_option (ccmd_ok map me) True out.
Proof.
  intros Hok Hc. pose proof (cok_session _ _ _ Hok) as Hme. destruct c as [key data|key| |]; cbn [on_control]; cbn in Hc.
  - pose proof (slot_or_new_ok map me m key (lm_session m) Hok) as [Hk Hs]. rewrite Hme in *.
    destruct (slot_or_new m key me) as [k|k v value|k value v sy ls]; cbn; intros [= <- <-]; cbn in Hk; subst k;
      (split; [apply fire_ok; [apply put_slot_ok; [done|by split]|by exists me, now]|done]).
  - destruct (lm_slots m !! (key, lm_session m)) as [slot|] eqn:Hl; [|by intros [= <- <-]].
    pose proof (cok_slots _ _ _ Hok _ _ Hl) as Hs. destruct slot as [k|k v value|k value v sy ls]; cbn; intros [= <- <-].
    + split; [by apply put_slot_ok|done].
    + split; [by apply put_slot_ok|done].
    + split; [|done]. apply fire_ok; [|done]. apply put_slot_ok; [done|]. destruct Hs as [Hk [Hsrc _]]. by split.
  - case_bool_decide; [by intros [= <- <-]|].
    assert (client_ok map me (mkLocalMap (lm_session m) (lm_slots m) (subscribers m ++ [actor]) (sub_state m) (lm_queue m))) as Hok'
      by (destruct Hok; split; cbn; [done|intros a [?| ->%list_elem_of_singleton]%elem_of_app; [eauto|done]|done|done]).
    case_match; intros [= <- <-]; (split; [|done]); (apply restore_events_ok; [by try apply with_state_ok|done]).
  - case_match; [by intros [= <- <-]|]. cbn [subscribers sub_state].
    assert (client_ok map me (mkLocalMap (lm_session m) (lm_slots m) (filter (λ x, x ≠ actor) (subscribers m)) (sub_state m) (lm_queue m)))
      as Hok' by (destruct Hok; split; cbn; [done|intros a [_ ?]%list_elem_of_filter; eauto|done|done]).
    case_match; [case_match|]; intros [= <- <-]; (split; [|done]); by try apply with_state_ok.
Qed.

Lemma client_on_server_ok order map me m now from ev :
  client_ok map me m → sev_ok map ev →
  client_ok map me (on_server order m now from ev).1 ∧ from_option (ccmd_ok map me) True (on_server order m now from ev).2.
Proof.
  intros Hok Hev. destruct ev as [key v|key v|id|id|key src v d|key src v]; cbn [on_server]; cbn in Hev.
  - destruct (lm_slots m !! (key, lm_session m)) as [slot|] eqn:Hl; [|done]. cbn. split; [|done]. apply put_slot_ok; [done|].
    apply (cok_slots _ _ _ Hok) in Hl as [? ?]. unfold slot_set_ok. repeat case_match; by split.
  - destruct (lm_slots m !! (key, lm_session m)) as [slot|] eqn:Hl; [|done]. cbn. split; [|done]. apply put_slot_ok; [done|].
    apply (cok_slots _ _ _ Hok) in Hl as [? ?]. unfold slot_del_ok. repeat case_match; by split.
  - repeat case_match; cbn; (split; [|done]); try done; try apply fire_ok; try done; try apply sync_slots_ok; by apply with_state_ok.
  - repeat case_match; cbn; (split; [|done]); try done; by apply with_state_ok.
  - case_match; [done|]. pose proof (slot_or_new_ok map me m key src Hok) as Hs. unfold slot_on_set.
    assert (map_event_ok map (EvOnSet key src.1 d)) as He by (by exists src, v).
    destruct (slot_or_new m key src) as [k|k v0 value|k value v0 sy ls]; cbn.
    + split; [|done]. apply fire_ok; [|done]. apply put_slot_ok; [done|by split].
    + destruct (v0 ?= v)%Z; cbn; (split; [|done]); [by apply put_slot_ok| |by apply put_slot_ok].
      apply fire_ok; [|done]. apply put_slot_ok; [done|by split].
    + split; [|done]. by apply put_slot_ok.
  - case_match; [done|]. pose proof (slot_or_new_ok map me m key src Hok) as Hs. unfold slot_on_del.
    destruct (slot_or_new m key src) as [k|k v0 value|k value v0 sy ls]; cbn; [split; [by apply put_slot_ok|done]| |split; [by apply put_slot_ok|done]].
    destruct (v0 <=? v); cbn; (split; [|done]); [|by apply put_slot_ok]. apply fire_ok; [|done].
    apply put_slot_ok; [done|by split].
Qed.

(** What a user is told: of a map it subscribed to. *)
Definition told_ok (me : NodeSession) (actor : FeatureControlActor UserData) (ev : Event) : Prop :=
  event_ok ev ∧ match ev with EvMapEvent map _ => S me actor map | EvMapGetRes _ _ => True end.

Definition storage_out_ok (me : NodeSession) (out : LocalStorageOutput UserData) : Prop :=
  match out with StorageLocal actor ev => told_ok me actor ev | StorageRemote _ cmd => client_cmd_ok me cmd end.

Record clients_ok (me : NodeSession) (s : LocalStorage UserData) : Prop := {
  cso_session : ls_session s = me;
  cso_maps : ∀ map m, ls_maps s !! map = Some m → client_ok map me m;
  cso_queue : Forall (storage_out_ok me) (ls_queue s);
}.

Lemma pop_map_actions_ok key me m q :
  client_ok key me m → Forall (storage_out_ok me) q →
  client_ok key me (pop_map_actions key m q).1 ∧ Forall (storage_out_ok me) (pop_map_actions key m q).2.
Proof.
  intros [] Hq. split; [by split; cbn|]. cbn. rewrite drain_into_eq. apply Forall_app. split; [done|].
  apply Forall_fmap. eapply Forall_impl; [done|]. intros [cmd|actor ev]; [done|]. by intros [].
Qed.

(** Storing a map back, its answer queued. *)
Lemma clients_store_ok me s key m (out : option ClientMapCommand) waits seed :
  clients_ok me s → client_ok key me m → from_option (ccmd_ok key me) True out →
  let queue := match out with
               | Some c => ls_queue s ++ [StorageRemote (route key) (ClientMapCmd key c)]
               | None => ls_queue s
               end in
  let r := pop_map_actions key m queue in
  clients_ok me (mkLocalStorage (ls_session s) (<[key := r.1]> (ls_maps s)) waits r.2 seed).
Proof.
  intros [Hse Hm Hq] Hok Hout queue r. destruct (pop_map_actions_ok key me m queue Hok) as [Hok' Hq'].
  { subst queue. destruct out; [|done]. by apply Forall_snoc. }
  split; cbn; [done| |done]. map_update.
Qed.

Lemma local_storage_on_tick_ok order me s now : clients_ok me s → clients_ok me (local_storage_on_tick order s now).
Proof.
  intros [Hse Hm Hq]. unfold local_storage_on_tick.
  assert (∀ l maps rm q, (∀ k m, (k, m) ∈ l → client_ok k me m) → (∀ k m, maps !! k = Some m → client_ok k me m) →
    Forall (storage_out_ok me) q →
    let r := foldl (tick_local_map order now) (maps, rm, q) l in
    (∀ k m, r.1.1 !! k = Some m → client_ok k me m) ∧ Forall (storage_out_ok me) r.2) as Hfold.
  { induction l as [|[k m] l IH]; intros maps rm q Hl Hmaps Hq'; [done|]. cbn [foldl tick_local_map].
    destruct (pop_map_actions_ok k me (local_on_tick order m now) q) as [Hm' Hq''];
      [apply local_on_tick_ok, Hl; left|done|].
    destruct (pop_map_actions k _ q) as [m' q']. apply IH; [intros; apply Hl; by right| |done].
    map_update. }
  destruct (Hfold (hash_iter (ls_maps s)) (ls_maps s) [] (ls_queue s)) as [Hm' Hq'];
    [intros k m Hin%elem_of_hash_iter; eauto|done|done|].
  destruct (foldl _ _ _) as [[maps rm] q]. split; cbn in *; [done| |done].
  intros k m. rewrite lookup_remove_all. case_decide; [done|]. apply Hm'.
Qed.

Lemma on_local_ok order me s now actor c s' :
  clients_ok me s → match c with MapCmd map c => control_ok map me now actor c | MapGet _ => True end →
  on_local order s now actor c = Done s' → clients_ok me s'.
Proof.
  intros Hok Hc. destruct c as [key c|key]; cbn [on_local].
  - destruct (match ls_maps s !! key with Some _ => _ | None => _ end) as [m|] eqn:Hl; [|by intros [= <-]].
    assert (client_ok key me m) as Hm.
    { destruct Hok as [Hse Hm _]. destruct (ls_maps s !! key) eqn:Hk; simplify_eq; [by eapply Hm|].
      case_match; simplify_eq. apply client_new_ok. }
    destruct (on_control order m now actor c) as [[m' out]|] eqn:Hr; [|done]. rewrite bind_Done. intros [= <-].
    destruct (on_control_ok _ _ _ _ _ _ _ _ _ Hm Hc Hr) as [Hm' Hout]. by apply (clients_store_ok me s key m' out).
  - intros [= <-]. destruct Hok. split; cbn; [done..|]. by apply Forall_snoc.
Qed.

Lemma storage_on_server_ok order me s now from ev :
  clients_ok me s → server_event_ok ev → clients_ok me (storage_on_server order s now from ev).
Proof.
  intros Hok Hev. destruct ev as [key ev|key id values]; cbn [storage_on_server].
  - destruct (ls_maps s !! key) as [m|] eqn:Hl; [|done].
    destruct (client_on_server_ok order key me m now from ev) as [Hm' Hout]; [by eapply cso_maps|done|].
    destruct (on_server order m now from ev) as [m' out]. by apply (clients_store_ok me s key m' out).
  - case_match; [|done]. case_match. destruct Hok. split; cbn; [done..|]. by apply Forall_snoc.
Qed.
End attribution.

Section net_facts.
Context {UserData : Type} `{EqDecision UserData}.
Implicit Types (N : net UserData) (W : Map → Key → NodeSession → Version → Bytes → Prop) (S : NodeSession → FeatureControlActor UserData → Map → Prop).

Definition node_ok W S (s : NodeSession) (n : DhtKvInternal UserData) : Prop :=
  session n = s ∧ clients_ok W S s (local n) ∧ relays_ok W (remote n).

Record net_ok W S N : Prop := {
  nok_nodes : ∀ s n, nodes N !! s = Some n → node_ok W S s n;
  nok_sent : Forall (remote_cmd_ok W) (sent N);
  nok_told : Forall (λ e, told_ok W S e.1.1 e.1.2 e.2) (told N);
}.

Lemma node_new_ok W S s : node_ok W S s (internal_new s).
Proof. split_and!; [done|..]; split; cbn; try done; try (intros ?? []%lookup_empty_Some). Qed.

Lemma node_pop_ok W S s n n' out :
  node_ok W S s n → internal_pop_action n = (n', Some out) →
  node_ok W S s n' ∧ match out with InternalRemote _ cmd => remote_cmd_ok W cmd | InternalLocal actor ev => told_ok W S s actor ev end.
Proof.
  intros (Hs & [Hse Hm Hq] & [Hrm Hrq]). unfold internal_pop_action, local_storage_pop_action, storage_pop_action.
  destruct (ls_queue (local n)) as [|o q] eqn:Hql.
  - destruct (rst_queue (remote n)) as [|[to ev] q]; [done|]. apply Forall_cons in Hrq as [Hev Hrq]. intros [= <- <-].
    split; [split_and!; [done|split; cbn; [done..|by rewrite Hql]|by split]|done].
  - apply Forall_cons in Hq as [Ho Hq]. destruct o as [actor ev|rule cmd]; intros [= <- <-]; cbn in *; subst;
      (split; [split_and!; [done|by split|by split]|done]).
Qed.

Lemma node_receive_ok W S order s n now cmd :
  node_ok W S s n → remote_cmd_ok W cmd → node_ok W S s (internal_on_remote order n now cmd).
Proof.
  intros (Hs & Hl & Hr) Hc. destruct cmd; cbn; split_and!; cbn; auto using storage_on_remote_ok, storage_on_server_ok.
Qed.

Lemma put_node_ok W S (ns : gmap NodeSession (DhtKvInternal UserData)) s n :
  (∀ s n, ns !! s = Some n → node_ok W S s n) → node_ok W S s n → ∀ s' n', <[s := n]> ns !! s' = Some n' → node_ok W S s' n'.
Proof. intros Hns Hn. map_update. Qed.

Lemma dht_step_written N N' : dht_step N N' → (∀ w, w ∈ written N → w ∈ written N') ∧ ∀ x, x ∈ subscribed N → x ∈ subscribed N'.
Proof. intros []; cbn; split; intros w Hw; try done; apply elem_of_app; by left. Qed.

(** All writes and subscriptions of the network count. *)
Definition counts W S N : Prop :=
  (∀ w, w ∈ written N → W (w_map w) (w_key w) (w_source w) (w_version w) (w_data w)) ∧ ∀ s actor map, (s, actor, map) ∈ subscribed N → S s actor map.

Lemma dht_step_ok W S N N' : counts W S N' → net_ok W S N → dht_step N N' → net_ok W S N'.
Proof.
  intros HW [Hn Hs Ht] Hstep. revert HW.
  destruct Hstep as [s Hnew|s|s n order now Hl|s n order now actor c n' Hl Hc|s n order now cmd Hl Hin
                    |s n n' rule cmd Hl Hp|s n n' actor ev Hl Hp]; intros [HW HS]; split; cbn in *; try done.
  - apply put_node_ok; [done|apply node_new_ok].
  - map_update.
  - apply put_node_ok; [done|]. destruct (Hn _ _ Hl) as (Hs' & Hlo & Hre).
    split_and!; cbn; auto using local_storage_on_tick_ok, storage_on_tick_ok.
  - apply put_node_ok; [done|]. destruct (Hn _ _ Hl) as (Hs' & Hlo & Hre). unfold internal_on_local in Hc.
    destruct (on_local order (local n) now actor c) as [l|] eqn:Hr; [|done]. rewrite bind_Done in Hc. injection Hc as <-.
    split_and!; cbn; [done| |done]. eapply on_local_ok; [done| |done]. destruct c as [map [key data|key| |]|map]; try done.
    + exact (HW (mkWrite map key s now data) (elem_of_snoc _ _)).
    + exact (HS s actor map (elem_of_snoc _ _)).
  - apply put_node_ok; [done|]. apply node_receive_ok; [eauto|]. by eapply Forall_forall in Hs.
  - apply put_node_ok; [done|]. by eapply node_pop_ok, Hp; eauto.
  - apply Forall_snoc; [done|]. by eapply (node_pop_ok W S s n n' (InternalRemote rule cmd)); eauto.
  - apply put_node_ok; [done|]. by eapply node_pop_ok, Hp; eauto.
  - apply Forall_snoc; [done|]. by eapply (node_pop_ok W S s n n' (InternalLocal actor ev)); eauto.
Qed.

Lemma dht_reachable_ok N :
  dht_reachable N → ∀ W S, counts W S N → net_ok W S N.
Proof.
  induction 1 as [|N N' HN IH Hstep]; intros W S HW.
  - split; cbn; [intros ?? []%lookup_empty_Some|constructor..].
  - eapply dht_step_ok; [done| |done]. apply IH. destruct (dht_step_written _ _ Hstep) as [Hw Hs]. split; [intros w Hx|intros s actor map Hx]; [by apply HW, Hw|by apply HW, Hs].
Qed.

(** What holds of everything written and everything subscribed to. *)
Lemma dht_reachable_written N :
  dht_reachable N → net_ok (λ map key s v d, mkWrite map key s v d ∈ written N) (λ s actor map, (s, actor, map) ∈ subscribed N) N.
Proof. intros HN. apply dht_reachable_ok; [done|]. split; [by intros []|done]. Qed.

(** C7. Values come from their source. In every state a network of
    key-value nodes can reach, with commands lost, duplicated, reordered and
    misrouted: every value a user is told by an [OnSet] was set, in this map
    under this key, by a user of the node it is attributed to, and the user
    has subscribed to the map; every entry of
    a [MapGet] answer, and every entry of a relay's store, was set by exactly
    that source under exactly that version. *)
Theorem values_come_from_their_source N :
  dht_reachable N →
  (∀ me actor map key n d, (me, actor, EvMapEvent map (EvOnSet key n d)) ∈ told N →
    (me, actor, map) ∈ subscribed N ∧ ∃ s v, s.1 = n ∧ mkWrite map key s v d ∈ written N) ∧
  (∀ me actor map values key s v d, (me, actor, EvMapGetRes map (inl values)) ∈ told N → (key, s, v, d) ∈ values →
    mkWrite map key s v d ∈ written N) ∧
  (∀ me n map m key s v d, nodes N !! me = Some n → rst_maps (remote n) !! map = Some m →
    store m !! (key, s) = Some (v, d) → mkWrite map key s v d ∈ written N).
Proof.
  intros HN. destruct (dht_reachable_written N HN) as [Hn _ Ht].
  rewrite Forall_forall in Ht. split_and!.
  - intros me actor map key n d Hin. destruct (Ht _ Hin) as [Hev Hsub]. by split.
  - intros me actor map values key s v d Hin Hv. exact (proj1 (Ht _ Hin) key s v d Hv).
  - intros me n map m key s v d Hl Hm Hst. destruct (Hn _ _ Hl) as (_ & _ & [Hr _]).
    unfold store in Hst. rewrite lookup_omap in Hst. destruct (rm_slots m !! (key, s)) as [slot|] eqn:Hs; [|done].
    pose proof (rok_slots _ _ _ (Hr _ _ Hm) _ _ Hs) as Hok. destruct slot; [done|]. cbn in *. by simplify_eq.
Qed.
End net_facts.

(** A node whose user subscribes to a map and writes to it: its states, and
    what it sends and tells. *)
Definition demo_control (n : DhtKvInternal Z) (now : Z) (c : MapControl) : DhtKvInternal Z :=
  match internal_on_local canonical_order n now (ActorController 0) (MapCmd 4 c) with Done n' => n' | Panic => n end.

Definition demo_node (i : nat) : DhtKvInternal Z :=
  let n0 := internal_new (1, 1) in
  let n1 := demo_control n0 5 MSub in
  let n2 := demo_control n1 6 (MSet 7 [9]) in
  let n3 := (internal_pop_action n2).1 in
  let n4 := (internal_pop_action n3).1 in
  match i with 0%nat => n0 | 1%nat => n1 | 2%nat => n2 | 3%nat => n3 | 4%nat => n4 | _ => (internal_pop_action n4).1 end.

Lemma kv_net_reachable :
  dht_reachable (mkNet (<[(1, 1) := demo_node 5]> (<[(1, 1) := demo_node 4]> (<[(1, 1) := demo_node 3]>
      (<[(1, 1) := demo_node 2]> (<[(1, 1) := demo_node 1]> (<[(1, 1) := demo_node 0]> ∅))))))
    [RemoteClient (1, 1) (ClientMapCmd 4 (CSub 5 None)); RemoteClient (1, 1) (ClientMapCmd 4 (CSet 7 6 [9]))]
    [((1, 1), ActorController 0, EvMapEvent 4 (EvOnSet 7 1 [9]))] [mkWrite 4 7 (1, 1) 6 [9]] [((1, 1), ActorController 0, 4)]).
Proof.
  pose proof (dht_reach_step _ _ dht_reach_empty (dht_join (UserData := Z) net_empty (1, 1) eq_refl)) as R.
  eapply dht_reach_step in R; [|apply (dht_control _ (1, 1) (demo_node 0) canonical_order 5 (ActorController 0) (MapCmd 4 MSub) (demo_node 1));
    [apply lookup_insert_eq|by vm_compute]].
  eapply dht_reach_step in R; [|apply (dht_control _ (1, 1) (demo_node 1) canonical_order 6 (ActorController 0) (MapCmd 4 (MSet 7 [9])) (demo_node 2));
    [apply lookup_insert_eq|by vm_compute]].
  eapply dht_reach_step in R; [|apply (dht_send _ (1, 1) (demo_node 2) (demo_node 3) (ToKey 4) (RemoteClient (1, 1) (ClientMapCmd 4 (CSub 5 None))));
    [apply lookup_insert_eq|by vm_compute]].
  eapply dht_reach_step in R; [|apply (dht_send _ (1, 1) (demo_node 3) (demo_node 4) (ToKey 4) (RemoteClient (1, 1) (ClientMapCmd 4 (CSet 7 6 [9]))));
    [apply lookup_insert_eq|by vm_compute]].
  eapply dht_reach_step in R; [|apply (dht_tell _ (1, 1) (demo_node 4) (demo_node 5) (ActorController 0) (EvMapEvent 4 (EvOnSet 7 1 [9])));
    [apply lookup_insert_eq|by vm_compute]].
  exact R.
Qed.

Lemma values_come_from_their_source_witness :
  ∃ N : net Z, dht_reachable N ∧ ((1, 1), ActorController 0, EvMapEvent 4 (EvOnSet 7 1 [9])) ∈ told N ∧
    ∃ s v, s.1 = 1 ∧ mkWrite 4 7 s v [9] ∈ written N.
Proof.
  eexists. split; [exact kv_net_reachable|]. destruct (values_come_from_their_source _ kv_net_reachable) as [Htold _].
  assert (((1, 1), ActorController 0, EvMapEvent 4 (EvOnSet 7 1 [9])) ∈ [((1, 1), ActorController 0, EvMapEvent 4 (EvOnSet 7 1 [9]))]) as Hin by left.
  split; [exact Hin|]. exact (proj2 (Htold _ _ _ _ _ _ Hin)).
Defined.

(** ** One synchronisation period repairs the copies *)

Section healing.
Context {UserData : Type} `{EqDecision UserData}.
Implicit Types (m : LocalMap UserData).

Lemma local_on_tick_queue order m now :
  lm_queue (local_on_tick order m now) =
  lm_queue (tick_sub_state m now) ++ sync_outputs now false (hash_iter (lm_slots m)).
Proof.
  unfold local_on_tick, cleanup_slots. cbn [lm_queue].
  destruct (sync_slots_spec order (tick_sub_state m now) now false) as (_ & _ & _ & -> & _). f_equal. f_equal. f_equal.
  unfold tick_sub_state. by repeat case_match.
Qed.

Lemma fire_event_sends order (m : RemoteMap) now key source event r sub :
  subs m !! r = Some sub → r ≠ source → (r, event) ∈ rm_queue (DhtServer.fire_event order m now key source event).
Proof.
  intros Hr Hne. unfold DhtServer.fire_event. rewrite bool_decide_eq_false_2.
  2:{ intros Hem. rewrite Hem in Hr. by apply lookup_empty_Some in Hr. }
  cbn. apply elem_of_app. right. apply list_elem_of_fmap. exists r. split; [done|]. apply list_elem_of_filter.
  split; [done|]. apply list_elem_of_fmap. exists (r, sub). split; [done|]. by apply elem_of_hash_iter.
Qed.

(** What the subscriber knows of the slot is not newer than [(v, d)]. *)
Definition behind (v : Version) (d : Bytes) (slot : option DhtClient.MapSlot) : Prop :=
  match slot with
  | None | Some (LUnspecific _) => True
  | Some (LRemote _ v' value) => v' < v ∨ (v' = v ∧ value = Some d)
  | Some (LLocal _ _ _ _ _) => False
  end.

(** It is already up to date. *)
Definition current (v : Version) (slot : option DhtClient.MapSlot) : bool :=
  match slot with Some (LRemote _ v' _) => v' =? v | _ => false end.

Lemma on_server_set_behind order m now remote key source v d :
  accept_event m remote = true → behind v d (lm_slots m !! (key, source)) →
  let r := on_server order m now remote (SOnSet key source v d) in
  r.2 = Some (COnSetAck key source v) ∧
  (∃ k, lm_slots r.1 !! (key, source) = Some (LRemote k v (Some d))) ∧
  (current v (lm_slots m !! (key, source)) = false →
    ∀ actor, actor ∈ subscribers m → ToLocal actor (EvOnSet key source.1 d) ∈ lm_queue r.1).
Proof.
  intros Ha Hb. cbn [on_server]. rewrite Ha. cbn [negb]. unfold slot_or_new.
  assert (∀ slot, let m' := DhtClient.fire_event (put_slot m (key, source) slot) (EvOnSet key source.1 d) in
    lm_slots m' !! (key, source) = Some slot ∧
    ∀ actor, actor ∈ subscribers m → ToLocal actor (EvOnSet key source.1 d) ∈ lm_queue m') as Hfire.
  { intros slot. cbn. split; [by rewrite lookup_insert_eq|]. intros actor Hin. apply elem_of_app. right.
    apply list_elem_of_fmap. by exists actor. }
  destruct (lm_slots m !! (key, source)) as [[k|k v' value|]|] eqn:Hs; cbn in Hb; cbn [default from_option id slot_new slot_on_set current];
    try done.
  - split; [done|]. split; [eexists; apply Hfire|]. intros _. apply Hfire.
  - destruct (Z.compare_spec v' v) as [->|Hlt|Hgt].
    + cbn. split; [done|]. split; [|by rewrite Z.eqb_refl]. exists k. rewrite lookup_insert_eq. by destruct Hb as [?|[_ ->]]; [lia|].
    + split; [done|]. split; [eexists; apply Hfire|]. intros _. apply Hfire.
    + lia.
  - split; [done|]. split; [eexists; apply Hfire|]. intros _. apply Hfire.
Qed.

(** C15. One synchronisation period repairs the copies of a value. A source
    holds a value it last sent [SYNC_MS] ago; the relay of the map has lost
    it or holds an older one; a subscriber of the relay has lost it too. The
    next tick of the source sends the value; the relay that receives it
    stores it, acknowledges it and sends it to the subscriber; the subscriber
    stores it, acknowledges it and tells its users unless they know it; and
    the source that receives the relay's acknowledgement is no longer
    syncing. *)
Theorem one_sync_period_heals (order : HashOrder) (src sub : LocalMap UserData) (relay : RemoteMap)
    (now t1 t2 t3 : Z) (key : Key) (v : Version) (d : Bytes) (syncing : bool) (last_sync : Z)
    (source subscriber : NodeSession) (sub_slot : SubSlot) :
  lm_session src = source → lm_slots src !! (key, source) = Some (LLocal key (Some d) v syncing last_sync) →
  wrap 64 (last_sync + SYNC_MS) ≤ now →
  (∀ v' d', store relay !! (key, source) = Some (v', d') → v' ≤ v) →
  subs relay !! subscriber = Some sub_slot → subscriber ≠ source →
  accept_event sub (rm_session relay) = true → behind v d (lm_slots sub !! (key, source)) →
  ToRemote (CSet key v d) ∈ lm_queue (local_on_tick order src now) ∧
  (let r := on_client order relay t1 source (CSet key v d) in
   r.2 = Some (SSetOk key v) ∧ store r.1 !! (key, source) = Some (v, d) ∧
   (subscriber, SOnSet key source v d) ∈ rm_queue r.1) ∧
  (let r := on_server order sub t2 (rm_session relay) (SOnSet key source v d) in
   r.2 = Some (COnSetAck key source v) ∧
   (∃ k, lm_slots r.1 !! (key, source) = Some (LRemote k v (Some d))) ∧
   (current v (lm_slots sub !! (key, source)) = false →
     ∀ actor, actor ∈ subscribers sub → ToLocal actor (EvOnSet key source.1 d) ∈ lm_queue r.1)) ∧
  lm_slots (on_server order src t3 (rm_session relay) (SSetOk key v)).1 !! (key, source) =
    Some (LLocal key (Some d) v false last_sync).
Proof.
  intros Hse Hsrc Hdue Hold Hsub Hne Hacc Hbeh. split_and!.
  - rewrite local_on_tick_queue. apply elem_of_app. right. apply list_elem_of_omap.
    exists ((key, source), LLocal key (Some d) v syncing last_sync). split; [by apply elem_of_hash_iter|]. cbn.
    zcompare; by rewrite orb_true_r.
  - destruct (on_client_store order relay t1 source (CSet key v d)) as [Hst Hre].
    assert (store_apply (store relay) source (CSet key v d) !! (key, source) = Some (v, d) ∧
      store_reply (store relay) source (CSet key v d) = Some (SSetOk key v)) as [Ha Hr].
    { cbn. destruct (store relay !! (key, source)) as [[v' d']|] eqn:Hs.
      - specialize (Hold _ _ eq_refl). zcompare. by rewrite lookup_insert_eq.
      - by rewrite lookup_insert_eq. }
    intros r. subst r. rewrite Hst, Hre. split_and!; [done..|].
    rewrite Hr in Hre. clear Hst Hr. cbn [on_client] in *.
    destruct (DhtServer.slot_set _ t1 v d) as [slot [|]]; [|done]. cbn [fst]. by apply (fire_event_sends _ _ _ _ _ _ _ sub_slot).
  - by apply on_server_set_behind.
  - cbn [on_server]. rewrite Hse, Hsrc. cbn. by rewrite Z.eqb_refl, lookup_insert_eq.
Qed.

(** The relay has sent the subscriber [r] a slot's value and waits for its
    acknowledgement. *)
Definition informed (r : NodeSession) (key : Key) (source : NodeSession) (v : Version) (d : Bytes) (m : RemoteMap) : Prop :=
  (r, SOnSet key source v d) ∈ rm_queue m ∧
  ∃ w, slots_event m !! (key, source) = Some w ∧ r ∈ wait_remotes w.

Lemma fire_sub_step_informs now r (m : RemoteMap) key source v d t :
  source ≠ r → informed r key source v d (fire_sub_step now r m ((key, source), SlotSet d v t)).
Proof.
  intros Hne. cbn. rewrite bool_decide_eq_false_2 by done. split; cbn.
  - apply elem_of_snoc.
  - rewrite lookup_insert_eq. eexists. split; [done|]. cbn. case_bool_decide; [done|]. apply elem_of_snoc.
Qed.

Lemma fire_sub_step_keeps now r (m : RemoteMap) e key source v d :
  informed r key source v d m → informed r key source v d (fire_sub_step now r m e).
Proof.
  intros [Hq (w & Hw & Hin)]. destruct e as [[k s] slot]. cbn. case_match; [by split; eauto|].
  destruct slot as [|d' v' t]; cbn; [by split; eauto|]. split; cbn.
  - apply elem_of_app. by left.
  - destruct (decide ((k, s) = (key, source))) as [[= -> ->]|Hne].
    + rewrite lookup_insert_eq. eexists. split; [done|]. cbn. rewrite Hw. cbn. by rewrite bool_decide_eq_true_2.
    + rewrite lookup_insert_ne by done. eauto.
Qed.

Lemma fire_sub_events_informs order (m : RemoteMap) now r key source v d :
  source ≠ r → store m !! (key, source) = Some (v, d) → informed r key source v d (fire_sub_events order m now r).
Proof.
  intros Hne Hst. unfold store in Hst. rewrite lookup_omap in Hst.
  destruct (rm_slots m !! (key, source)) as [[|d' v' t]|] eqn:Hs; [done| |done]. cbn in Hst. injection Hst as -> ->.
  unfold fire_sub_events. apply elem_of_hash_iter in Hs. revert Hs. generalize (hash_iter (rm_slots m)) as l. intros l. revert m.
  assert (∀ l (m : RemoteMap), informed r key source v d m → informed r key source v d (foldl (fire_sub_step now r) m l)) as Hkeep.
  { clear l. induction l as [|e l IH]; intros m Hi; [done|]. by apply IH, fire_sub_step_keeps. }
  induction l as [|e l IH]; intros m Hin; [by apply not_elem_of_nil in Hin|]. cbn [foldl].
  apply elem_of_cons in Hin as [<-|Hin]; [|by apply IH]. by apply Hkeep, fire_sub_step_informs.
Qed.

(** C33. A new relay takes over a subscription. The relay of a map changes
    (another node owns the key now, or the node restarted under a new
    session). The subscriber's periodic [Sub] reaches the new relay, which
    registers it, confirms, and sends it every value of other sources it
    holds, waiting for acknowledgements; the confirmation locks the
    subscriber to the new relay, so that the old one is no longer listened
    to; when the relay is another node, the subscriber at once sends all
    values it has written itself. *)
Theorem new_relay_takes_over (order : HashOrder) (sub : LocalMap UserData) (relay : RemoteMap)
    (now t1 t2 id sync_ts : Z) (locked subscriber : NodeSession) :
  sub_state sub = Subscribed id locked sync_ts → wrap 64 (sync_ts + SYNC_MS) ≤ now → rm_session relay ≠ locked →
  ToRemote (CSub id (Some locked)) ∈ lm_queue (local_on_tick order sub now) ∧
  (let r := on_client order relay t1 subscriber (CSub id (Some locked)) in
   r.2 = Some (SSubOk id) ∧ subs r.1 !! subscriber = Some (mkSubSlot id t1) ∧
   ∀ key source v d, source ≠ subscriber → store relay !! (key, source) = Some (v, d) →
     informed subscriber key source v d r.1) ∧
  (let s := (on_server order sub t2 (rm_session relay) (SSubOk id)).1 in
   accept_event s (rm_session relay) = true ∧ accept_event s locked = false ∧
   (locked.1 ≠ (rm_session relay).1 → ∀ key d v syncing last_sync,
     lm_slots sub !! (key, lm_session sub) = Some (LLocal key (Some d) v syncing last_sync) →
     ToRemote (CSet key v d) ∈ lm_queue s)).
Proof.
  intros Hst Hdue Hne. split_and!.
  - rewrite local_on_tick_queue. apply elem_of_app. left. unfold tick_sub_state. rewrite Hst.
    zcompare. cbn. apply elem_of_snoc.
  - cbn [on_client]. rewrite bool_decide_eq_true_2 by (right; cbn; congruence). cbn [fst snd]. split; [done|].
    destruct (fire_sub_events_slots order (with_subs relay (<[subscriber := mkSubSlot id t1]> (subs relay))) t1 subscriber) as [_ Hsu].
    rewrite Hsu. cbn [subs with_subs]. rewrite lookup_insert_eq. split; [done|].
    intros key source v d Hsrc Hv. by apply fire_sub_events_informs.
  - cbn [on_server]. rewrite Hst, Z.eqb_refl.
    destruct (sync_slots_spec order (with_state sub (Subscribed id (rm_session relay) t2)) t2 true) as (_ & Hsub & Hss & Hq & _).
    assert (∀ s : LocalMap UserData, sub_state s = Subscribed id (rm_session relay) t2 →
      accept_event s (rm_session relay) = true ∧ accept_event s locked = false) as Hacc.
    { intros s Hs. unfold accept_event. rewrite Hs. split; [by apply bool_decide_eq_true_2|by apply bool_decide_eq_false_2]. }
    destruct (negb (locked.1 =? (rm_session relay).1)) eqn:Hn; cbn [fst].
    + destruct (Hacc (DhtClient.fire_event (sync_slots order (with_state sub (Subscribed id (rm_session relay) t2)) t2 true)
        (EvOnRelaySelected (rm_session relay).1)) Hss) as [Ha Hb]. split_and!; [done..|].
      intros _ key d v sy ls Hl. cbn [lm_queue DhtClient.fire_event push]. rewrite Hq. apply elem_of_app. left.
      apply elem_of_app. right. apply list_elem_of_omap. exists ((key, lm_session sub), LLocal key (Some d) v sy ls).
      split; [by apply elem_of_hash_iter|]. cbn. by rewrite orb_true_r.
    + destruct (Hacc (with_state sub (Subscribed id (rm_session relay) t2)) eq_refl) as [Ha Hb]. split_and!; [done..|].
      intros Hd. apply negb_false_iff, Z.eqb_eq in Hn. done.
Qed.
End healing.

(** A source that wrote a value, a subscriber locked to relay 3, the relay
    without the value. *)
Definition heal_src : LocalMap Z := mkLocalMap (2, 2) {[ (7, (2, 2)) := LLocal 7 (Some [9]) 10 false 10 ]} [] NotSub [].
Definition heal_sub : LocalMap Z := mkLocalMap (1, 1) {[ (8, (1, 1)) := LLocal 8 (Some [5]) 11 false 11 ]} [ActorController 0] (Subscribed 5 (3, 3) 6) [].
Definition heal_relay : RemoteMap := (on_client canonical_order (remote_map_new (3, 3)) 6 (1, 1) (CSub 5 None)).1.
Definition heal_relay2 : RemoteMap := (on_client canonical_order (remote_map_new (4, 4)) 6 (2, 2) (CSet 7 10 [9])).1.

Lemma one_sync_period_heals_witness :
  store heal_relay !! (7, (2, 2)) = None ∧
  ToRemote (CSet 7 10 [9]) ∈ lm_queue (local_on_tick canonical_order heal_src 2000) ∧
  ((1, 1), SOnSet 7 (2, 2) 10 [9]) ∈ rm_queue (on_client canonical_order heal_relay 2001 (2, 2) (CSet 7 10 [9])).1 ∧
  ToLocal (ActorController 0) (EvOnSet 7 2 [9]) ∈ lm_queue (on_server canonical_order heal_sub 2002 (3, 3) (SOnSet 7 (2, 2) 10 [9])).1.
Proof.
  destruct (one_sync_period_heals canonical_order heal_src heal_sub heal_relay 2000 2001 2002 2003 7 10 [9] false 10
    (2, 2) (1, 1) (mkSubSlot 5 6)) as (Hsend & (_ & _ & Hrelay) & (_ & _ & Htell) & _).
  - reflexivity.
  - reflexivity.
  - by vm_compute.
  - intros v' d' Hs. by vm_compute in Hs.
  - reflexivity.
  - discriminate.
  - reflexivity.
  - exact I.
  - split; [reflexivity|]. split; [exact Hsend|]. split; [exact Hrelay|]. apply (Htell eq_refl). left.
Defined.

Lemma new_relay_takes_over_witness :
  ToRemote (CSub 5 (Some (3, 3))) ∈ lm_queue (local_on_tick canonical_order heal_sub 2000) ∧
  informed (1, 1) 7 (2, 2) 10 [9] (on_client canonical_order heal_relay2 2001 (1, 1) (CSub 5 (Some (3, 3)))).1 ∧
  ToRemote (CSet 8 11 [5]) ∈ lm_queue (on_server canonical_order heal_sub 2002 (4, 4) (SSubOk 5)).1.
Proof.
  destruct (new_relay_takes_over canonical_order heal_sub heal_relay2 2000 2001 2002 5 6 (3, 3) (1, 1))
    as (Hsend & (_ & _ & Hinf) & (_ & _ & Hsync)).
  - reflexivity.
  - by vm_compute.
  - discriminate.
  - split; [exact Hsend|]. split; [apply Hinf; [discriminate|reflexivity]|].
    apply (Hsync ltac:(discriminate) 8 [5] 11 false 11). reflexivity.
Defined.
