(* ===== verification/PubsubMsg.v ===== *)
(** * Messages of publish/subscribe ([features/pubsub/mod.rs], [features/pubsub/msg.rs])

    A channel has sources (the nodes that publish to it); a relay is one
    source of one channel, as it is passed on by the nodes between the source
    and its subscribers. *)

From S2P Require Import Prelude NodeId Route Msg Base.

Definition PUBSUB_FEATURE_ID : Z := 5.

Abbreviation ChannelId := Z (only parsing).

(** [RelayId(pub ChannelId, pub NodeId)] *)
Abbreviation RelayId := (ChannelId * NodeId)%type (only parsing).

Record Feedback := mkFeedback {
  fb_kind : Z;
  fb_count : Z;
  fb_max : Z;
  fb_min : Z;
  fb_sum : Z;
  fb_interval_ms : Z;
  fb_timeout_ms : Z;
}.

Definition feedback_simple (kind value interval_ms timeout_ms : Z) : Feedback :=
  mkFeedback kind 1 value value value interval_ms timeout_ms.

(** [impl Add for Feedback]; the two sums are [u64]s. *)
Definition feedback_add (self rhs : Feedback) : Feedback :=
  mkFeedback (fb_kind self) (wrap 64 (fb_count self + fb_count rhs)) (Z.max (fb_max self) (fb_max rhs))
    (Z.min (fb_min self) (fb_min rhs)) (wrap 64 (fb_sum self + fb_sum rhs))
    (Z.min (fb_interval_ms self) (fb_interval_ms rhs)) (Z.max (fb_timeout_ms self) (fb_timeout_ms rhs)).

Inductive RelayControl :=
| RelaySub (uuid : Z)
| RelayUnsub (uuid : Z)
| RelaySubOK (uuid : Z)
| RelayUnsubOK (uuid : Z)
| RelayRouteChanged (uuid : Z)
| RelayFeedback (fb : Feedback).

Definition relay_should_create (c : RelayControl) : bool :=
  match c with RelaySub _ => true | _ => false end.

Inductive SourceHint :=
| HintRegister (source : NodeId) (to_root : bool)
| HintUnregister (source : NodeId) (to_root : bool)
| HintSubscribe (session : Z)
| HintSubscribeOk (session : Z)
| HintUnsubscribe (session : Z)
| HintUnsubscribeOk (session : Z)
| HintSources (sources : list NodeId).

Definition hint_should_create (h : SourceHint) : bool :=
  match h with HintRegister _ _ | HintSubscribe _ => true | _ => false end.

Inductive PubsubMessageError := PubsubTransportError (e : TransportMsgHeaderError) | PubsubDeserializeError.

Inductive PubsubMessage :=
| PubsubControl (relay : RelayId) (control : RelayControl)
| PubsubSourceHint (channel : ChannelId) (hint : SourceHint)
| PubsubData (relay : RelayId) (data : Buffer).

(** ** On the wire *)

Section wire.
Context {msg_codec : Codec PubsubMessage}.

Definition pubsub_try_from (value : Buffer) : PubsubMessage + PubsubMessageError :=
  match msg_try_from value with
  | inl msg => match deserialize (payload msg) with Some m => inl m | None => inr PubsubDeserializeError end
  | inr e => inr (PubsubTransportError e)
  end.

(** [From<PubsubMessage> for Buffer]: a direct header in front of the encoding. *)
Definition pubsub_header : TransportMsgHeader := header_build PUBSUB_FEATURE_ID 0 Direct.

(** A direct header has no unused bytes, so the fresh buffer does not matter;
    its printing cannot fail. *)
Definition pubsub_into (val : PubsubMessage) : Buffer :=
  match build_msg pubsub_header (replicate (serialize_size pubsub_header) 0) (serialize val) with
  | Done m => take_buf m
  | Panic => []
  end.
End wire.

Lemma pubsub_roundtrip `{CodecLaws PubsubMessage} (m : PubsubMessage) : pubsub_try_from (pubsub_into m) = inl m.
Proof.
  unfold pubsub_into, pubsub_try_from.
  destruct (build_msg_received pubsub_header (replicate (serialize_size pubsub_header) 0) (serialize m)) as (msg & -> & -> & _ & ->).
  - by split.
  - done.
  - by rewrite codec_roundtrip.
Qed.

(** ** The interface of the feature ([mod.rs]) *)

Inductive ChannelControl :=
| SubAuto
| FeedbackAuto (fb : Feedback)
| UnsubAuto
| SubSource (source : NodeId)
| UnsubSource (source : NodeId)
| PubStart
| PubData (data : Buffer)
| PubStop.

(** [Control(pub ChannelId, pub ChannelControl)] *)
Abbreviation Control := (ChannelId * ChannelControl)%type (only parsing).

Inductive ChannelEvent :=
| EvRouteChanged (source : NodeId)
| EvSourceData (source : NodeId) (data : Buffer)
| EvFeedbackData (fb : Feedback).

(** [Event(pub ChannelId, pub ChannelEvent)] *)
Abbreviation Event := (ChannelId * ChannelEvent)%type (only parsing).

Inductive RelayWorkerControl (UserData : Type) :=
| SendSub (uuid : Z) (remote : option NetPair)
| SendUnsub (uuid : Z) (remote : NetPair)
| SendSubOk (uuid : Z) (remote : NetPair)
| SendUnsubOk (uuid : Z) (remote : NetPair)
| SendRouteChanged
| SendFeedback (fb : Feedback) (remote : NetPair)
| RouteSetSource (source : NetPair)
| RouteDelSource (source : NetPair)
| RouteSetLocal (actor : FeatureControlActor UserData)
| RouteDelLocal (actor : FeatureControlActor UserData)
| RouteSetRemote (remote : NetPair) (uuid : Z)
| RouteDelRemote (remote : NetPair).
Arguments SendSub {_} _ _.
Arguments SendUnsub {_} _ _.
Arguments SendSubOk {_} _ _.
Arguments SendUnsubOk {_} _ _.
Arguments SendRouteChanged {_}.
Arguments SendFeedback {_} _ _.
Arguments RouteSetSource {_} _.
Arguments RouteDelSource {_} _.
Arguments RouteSetLocal {_} _.
Arguments RouteDelLocal {_} _.
Arguments RouteSetRemote {_} _ _.
Arguments RouteDelRemote {_} _.

Definition is_broadcast {U} (c : RelayWorkerControl U) : bool :=
  match c with
  | SendSub _ _ | SendUnsub _ _ | SendSubOk _ _ | SendUnsubOk _ _ | SendRouteChanged => false
  | _ => true
  end.

Inductive ToWorker (UserData : Type) :=
| ToWRelayControl (relay : RelayId) (control : RelayWorkerControl UserData)
| ToWSourceHint (channel : ChannelId) (dest : option NetPair) (hint : SourceHint)
| ToWRelayData (relay : RelayId) (data : Buffer).
Arguments ToWRelayControl {_} _ _.
Arguments ToWSourceHint {_} _ _ _.
Arguments ToWRelayData {_} _ _.

Inductive ToController :=
| ToCRelayControl (remote : NetPair) (relay : RelayId) (control : RelayControl)
| ToCSourceHint (remote : NetPair) (channel : ChannelId) (hint : SourceHint).

(** *** A codec to evaluate with

    One integer per field; [bincode] itself is a parameter. *)

Definition demo_control_enc (c : RelayControl) : Buffer :=
  match c with
  | RelaySub u => [0; u]
  | RelayUnsub u => [1; u]
  | RelaySubOK u => [2; u]
  | RelayUnsubOK u => [3; u]
  | RelayRouteChanged u => [4; u]
  | RelayFeedback (mkFeedback a b c d e f g) => [5; a; b; c; d; e; f; g]
  end.

Definition demo_control_dec (l : Buffer) : option RelayControl :=
  match l with
  | [0; u] => Some (RelaySub u)
  | [1; u] => Some (RelayUnsub u)
  | [2; u] => Some (RelaySubOK u)
  | [3; u] => Some (RelayUnsubOK u)
  | [4; u] => Some (RelayRouteChanged u)
  | [5; a; b; c; d; e; f; g] => Some (RelayFeedback (mkFeedback a b c d e f g))
  | _ => None
  end.

Definition demo_hint_enc (h : SourceHint) : Buffer :=
  match h with
  | HintRegister s b => [0; s; Z.b2z b]
  | HintUnregister s b => [1; s; Z.b2z b]
  | HintSubscribe s => [2; s]
  | HintSubscribeOk s => [3; s]
  | HintUnsubscribe s => [4; s]
  | HintUnsubscribeOk s => [5; s]
  | HintSources l => 6 :: l
  end.

Definition demo_hint_dec (l : Buffer) : option SourceHint :=
  match l with
  | [0; s; b] => Some (HintRegister s (b =? 1))
  | [1; s; b] => Some (HintUnregister s (b =? 1))
  | [2; s] => Some (HintSubscribe s)
  | [3; s] => Some (HintSubscribeOk s)
  | [4; s] => Some (HintUnsubscribe s)
  | [5; s] => Some (HintUnsubscribeOk s)
  | 6 :: l => Some (HintSources l)
  | _ => None
  end.

Definition demo_pubsub_codec : Codec PubsubMessage := {|
  serialize m := match m with
                 | PubsubControl (c, n) control => 0 :: c :: n :: demo_control_enc control
                 | PubsubSourceHint c hint => 1 :: c :: demo_hint_enc hint
                 | PubsubData (c, n) data => 2 :: c :: n :: data
                 end;
  deserialize l := match l with
                   | 0 :: c :: n :: l => PubsubControl (c, n) <$> demo_control_dec l
                   | 1 :: c :: l => PubsubSourceHint c <$> demo_hint_dec l
                   | 2 :: c :: n :: l => Some (PubsubData (c, n) l)
                   | _ => None
                   end;
|}.

Lemma demo_pubsub_laws : @CodecLaws PubsubMessage demo_pubsub_codec.
Proof.
  split. intros [[c n] control|c hint|[c n] data]; [| |done].
  - by destruct control as [| | | | |[]].
  - by destruct hint as [s []|s []| | | | |].
Qed.
