(* ===== verification/PubsubRelay.v ===== *)
(** * Relays of publish/subscribe ([features/pubsub/controller/]: [consumers.rs],
    [feedbacks.rs], [local_relay.rs], [remote_relay.rs], the trait of [controller.rs])

    A relay keeps its consumers (local actors and remote nodes), aggregates
    their feedback towards the source, and tells the workers which data goes
    where. The relay of a source on this node has publishers; the relay of a
    remote source subscribes at the next node towards the source. *)

From S2P Require Import Prelude NodeId Base Neighbours PubsubMsg.

Definition RELAY_TIMEOUT : Z := 10000.
Definition RELAY_STICKY_MS : Z := 5 * 60 * 1000.

Section relay.
Context {UserData : Type} `{EqDecision UserData}.

Abbreviation Actor := (FeatureControlActor UserData) (only parsing).
Abbreviation WorkerControl := (RelayWorkerControl UserData) (only parsing).

Inductive GenericRelayOutput :=
| GToWorker (control : WorkerControl)
| GRouteChanged (actor : Actor)
| GFeedback (actors : list Actor) (fb : Feedback).

(** ** Consumers *)

Record RelayRemote := mkRelayRemote { remote_uuid : Z; last_sub : Z }.

Record RelayConsumers := mkConsumers {
  remotes : gmap NetPair RelayRemote;
  locals : list Actor;
  cons_queue : list WorkerControl;
}.

Definition consumers_default : RelayConsumers := mkConsumers ∅ [] [].

Definition consumers_on_tick (order : HashOrder) (c : RelayConsumers) (now : Z) : RelayConsumers :=
  let timeout := fst <$> filter (λ e, wrap 64 (last_sub e.2 + RELAY_TIMEOUT) ≤ now) (hash_iter (remotes c)) in
  mkConsumers (remove_all timeout (remotes c)) (locals c) (cons_queue c ++ (RouteDelRemote <$> timeout)).

Definition consumers_on_local_sub (c : RelayConsumers) (actor : Actor) : RelayConsumers :=
  if bool_decide (actor ∈ locals c) then c
  else mkConsumers (remotes c) (locals c ++ [actor]) (cons_queue c ++ [RouteSetLocal actor]).

Definition consumers_on_local_unsub (c : RelayConsumers) (actor : Actor) : RelayConsumers :=
  match list_find (actor =.) (locals c) with
  | Some (pos, _) => mkConsumers (remotes c) (swap_remove (locals c) pos) (cons_queue c ++ [RouteDelLocal actor])
  | None => c
  end.

Definition consumers_on_remote (c : RelayConsumers) (now : Z) (remote : NetPair) (control : RelayControl) : RelayConsumers :=
  match control with
  | RelaySub uuid =>
      match remotes c !! remote with
      | Some slot =>
          if uuid =? remote_uuid slot
          then mkConsumers (<[remote := mkRelayRemote (remote_uuid slot) now]> (remotes c)) (locals c)
                 (cons_queue c ++ [SendSubOk uuid remote])
          else c
      | None =>
          mkConsumers (<[remote := mkRelayRemote uuid now]> (remotes c)) (locals c)
            (cons_queue c ++ [SendSubOk uuid remote; RouteSetRemote remote uuid])
      end
  | RelayUnsub uuid =>
      match remotes c !! remote with
      | Some slot =>
          if remote_uuid slot =? uuid
          then mkConsumers (delete remote (remotes c)) (locals c)
                 (cons_queue c ++ [SendUnsubOk uuid remote; RouteDelRemote remote])
          else c
      | None => c
      end
  | _ => c
  end.

Definition consumers_disconnected (c : RelayConsumers) (remote : NetPair) : RelayConsumers :=
  match remotes c !! remote with
  | Some _ => mkConsumers (delete remote (remotes c)) (locals c) (cons_queue c ++ [RouteDelRemote remote])
  | None => c
  end.

Definition consumers_should_clear (c : RelayConsumers) : bool :=
  match locals c with [] => bool_decide (remotes c = ∅) | _ => false end.

Definition consumers_relay_dests (c : RelayConsumers) : list Actor * bool :=
  (locals c, negb (bool_decide (remotes c = ∅))).

Definition consumers_pop_output (c : RelayConsumers) : RelayConsumers * option WorkerControl :=
  match cons_queue c with
  | [] => (c, None)
  | out :: rest => (mkConsumers (remotes c) (locals c) rest, Some out)
  end.

(** ** Feedback *)

Inductive FeedbackSource := FbLocal (actor : Actor) | FbRemote (remote : NetPair).

#[global] Instance FeedbackSource_eq_dec : EqDecision FeedbackSource.
Proof. solve_decision. Defined.

Record SingleFeedbackKind := mkFbKind {
  kind : Z;
  feedbacks : list (FeedbackSource * Feedback * Z);
  feedbacks_updated : bool;
  last_feedback_ts : option Z;
}.

Definition fb_source (e : FeedbackSource * Feedback * Z) : FeedbackSource := e.1.1.

(** [on_local_feedback] and [on_remote_feedback] of one kind, which differ in
    the source they make: replace the entry of the source or push one. *)
Definition kind_on_feedback (k : SingleFeedbackKind) (now : Z) (source : FeedbackSource) (fb : Feedback) : SingleFeedbackKind :=
  mkFbKind (kind k) (kupsert fb_source (source, fb, now) (feedbacks k)) true (last_feedback_ts k).

Definition fb_alive (now : Z) (e : FeedbackSource * Feedback * Z) : Prop := now < wrap 64 (e.2 + fb_timeout_ms e.1.2).
#[global] Instance fb_alive_dec now e : Decision (fb_alive now e).
Proof. unfold fb_alive. apply _. Defined.

Definition fb_aggregate (acc : option Feedback) (e : FeedbackSource * Feedback * Z) : option Feedback :=
  match acc with
  | Some a => Some (feedback_add a e.1.2)
  | None => Some e.1.2
  end.

Definition kind_process (k : SingleFeedbackKind) (now : Z) : SingleFeedbackKind * option Feedback :=
  let kept := filter (fb_alive now) (feedbacks k) in
  if negb (feedbacks_updated k) then (mkFbKind (kind k) kept (feedbacks_updated k) (last_feedback_ts k), None)
  else
    let aggerated_fb := foldl fb_aggregate None (feedbacks k) in
    let k := mkFbKind (kind k) kept false (last_feedback_ts k) in
    match last_feedback_ts k, aggerated_fb with
    | Some last_fb_ts, Some fb =>
        if now <? wrap 64 (last_fb_ts + fb_interval_ms fb) then (k, None) else (k, aggerated_fb)
    | _, _ => (k, aggerated_fb)
    end.

Record FeedbacksAggerator := mkAggerator { kinds : list SingleFeedbackKind; fb_queue : list Feedback }.

Definition aggerator_default : FeedbacksAggerator := mkAggerator [] [].

(** [while let Some(fb) = kind.process_feedbacks(now)]; the second call never
    returns a feedback, so the bound on the iterations is not reached. *)
Fixpoint process_loop (fuel : nat) (k : SingleFeedbackKind) (now : Z) (queue : list Feedback) : SingleFeedbackKind * list Feedback :=
  match fuel with
  | O => (k, queue)
  | S fuel => match kind_process k now with
              | (k, Some fb) => process_loop fuel k now (queue ++ [fb])
              | (k, None) => (k, queue)
              end
  end.

Definition process_step (now : Z) (acc : list SingleFeedbackKind * list Feedback) (k : SingleFeedbackKind)
    : list SingleFeedbackKind * list Feedback :=
  let '(k, queue) := process_loop 2 k now acc.2 in (acc.1 ++ [k], queue).

Definition aggerator_on_tick (a : FeedbacksAggerator) (now : Z) : FeedbacksAggerator :=
  let '(kinds, queue) := foldl (process_step now) ([], fb_queue a) (kinds a) in
  mkAggerator (filter (λ k, feedbacks k ≠ []) kinds) queue.

(** [get_fb_kind]: the index of the kind, after pushing it when it is new. *)
Definition get_fb_kind (a : FeedbacksAggerator) (k : Z) : nat * SingleFeedbackKind * list SingleFeedbackKind :=
  match list_find (λ x, kind x = k) (kinds a) with
  | Some (index, x) => (index, x, kinds a)
  | None => let new := mkFbKind k [] false None in (length (kinds a), new, kinds a ++ [new])
  end.

Definition aggerator_on_feedback (a : FeedbacksAggerator) (now : Z) (source : FeedbackSource) (fb : Feedback) : FeedbacksAggerator :=
  let '(index, k, kinds) := get_fb_kind a (fb_kind fb) in
  match kind_process (kind_on_feedback k now source fb) now with
  | (k, Some out) => mkAggerator (<[index := k]> kinds) (fb_queue a ++ [out])
  | (k, None) => mkAggerator (<[index := k]> kinds) (fb_queue a)
  end.

Definition aggerator_pop_output (a : FeedbacksAggerator) : FeedbacksAggerator * option Feedback :=
  match fb_queue a with
  | [] => (a, None)
  | fb :: rest => (mkAggerator (kinds a) rest, Some fb)
  end.

(** ** The relay of a source on this node *)

Record LocalRelay := mkLocalRelay {
  lr_consumers : RelayConsumers;
  lr_feedbacks : FeedbacksAggerator;
  publishers : list Actor;
}.

Definition local_relay_default : LocalRelay := mkLocalRelay consumers_default aggerator_default [].

Definition lr_on_tick (order : HashOrder) (r : LocalRelay) (now : Z) : LocalRelay :=
  mkLocalRelay (consumers_on_tick order (lr_consumers r) now) (aggerator_on_tick (lr_feedbacks r) now) (publishers r).

Definition lr_on_pub_start (r : LocalRelay) (actor : Actor) : LocalRelay :=
  mkLocalRelay (lr_consumers r) (lr_feedbacks r) (vec_insert actor (publishers r)).

Definition lr_on_pub_stop (r : LocalRelay) (actor : Actor) : LocalRelay :=
  mkLocalRelay (lr_consumers r) (lr_feedbacks r) (vec_remove actor (publishers r)).

Definition lr_on_local_sub (r : LocalRelay) (actor : Actor) : LocalRelay :=
  mkLocalRelay (consumers_on_local_sub (lr_consumers r) actor) (lr_feedbacks r) (publishers r).

Definition lr_on_local_feedback (r : LocalRelay) (now : Z) (actor : Actor) (fb : Feedback) : LocalRelay :=
  mkLocalRelay (lr_consumers r) (aggerator_on_feedback (lr_feedbacks r) now (FbLocal actor) fb) (publishers r).

Definition lr_on_local_unsub (r : LocalRelay) (actor : Actor) : LocalRelay :=
  mkLocalRelay (consumers_on_local_unsub (lr_consumers r) actor) (lr_feedbacks r) (publishers r).

Definition lr_on_remote (r : LocalRelay) (now : Z) (remote : NetPair) (control : RelayControl) : LocalRelay :=
  match control with
  | RelayFeedback fb =>
      mkLocalRelay (lr_consumers r) (aggerator_on_feedback (lr_feedbacks r) now (FbRemote remote) fb) (publishers r)
  | _ => mkLocalRelay (consumers_on_remote (lr_consumers r) now remote control) (lr_feedbacks r) (publishers r)
  end.

Definition lr_disconnected (r : LocalRelay) (remote : NetPair) : LocalRelay :=
  mkLocalRelay (consumers_disconnected (lr_consumers r) remote) (lr_feedbacks r) (publishers r).

Definition lr_should_clear (r : LocalRelay) : bool :=
  consumers_should_clear (lr_consumers r) && match publishers r with [] => true | _ => false end.

Definition lr_relay_dests (r : LocalRelay) : option (list Actor * bool) := Some (consumers_relay_dests (lr_consumers r)).

Definition lr_pop_output (r : LocalRelay) : LocalRelay * option GenericRelayOutput :=
  match aggerator_pop_output (lr_feedbacks r) with
  | (a, Some fb) => (mkLocalRelay (lr_consumers r) a (publishers r), Some (GFeedback (publishers r) fb))
  | (a, None) =>
      let '(c, out) := consumers_pop_output (lr_consumers r) in
      (mkLocalRelay c a (publishers r), GToWorker <$> out)
  end.
End relay.

Arguments RelayConsumers UserData : clear implicits.
Arguments FeedbacksAggerator UserData : clear implicits.
Arguments SingleFeedbackKind UserData : clear implicits.
Arguments FeedbackSource UserData : clear implicits.
Arguments LocalRelay UserData : clear implicits.
Arguments GenericRelayOutput UserData : clear implicits.

(** ** The relay of a remote source *)

Section remote_relay.
Context {UserData : Type} `{EqDecision UserData}.

Abbreviation Actor := (FeatureControlActor UserData) (only parsing).
Abbreviation Consumers := (RelayConsumers UserData) (only parsing).
Abbreviation Aggerator := (FeedbacksAggerator UserData) (only parsing).
Abbreviation RelayOutput := (GenericRelayOutput UserData) (only parsing).

Inductive RelayState :=
| RelayNew
| Binding (consumers : Consumers) (feedbacks : Aggerator)
| Bound (consumers : Consumers) (feedbacks : Aggerator) (next : NetPair) (sticky_session_at : Z)
| Unbinding (next : NetPair) (started_at : Z)
| Unbound.

Record RemoteRelay := mkRemoteRelay {
  rr_uuid : Z;
  rr_state : RelayState;
  rr_queue : list RelayOutput;
}.

Definition remote_relay_new (uuid : Z) : RemoteRelay := mkRemoteRelay uuid RelayNew [].

(** [pop_consumers_out] and [pop_feedbacks_out]: everything queued, in order. *)
Definition pop_consumers_out (c : Consumers) (queue : list RelayOutput) : Consumers * list RelayOutput :=
  (mkConsumers (remotes c) (locals c) [], drain_into GToWorker (cons_queue c) queue).

Definition pop_feedbacks_out (remote : NetPair) (a : Aggerator) (queue : list RelayOutput) : Aggerator * list RelayOutput :=
  (mkAggerator (kinds a) [], drain_into (λ fb, GToWorker (SendFeedback fb remote)) (fb_queue a) queue).

(** The two messages of a bound relay that lost its last consumer. *)
Definition leave_next (uuid : Z) (next : NetPair) : list RelayOutput :=
  [GToWorker (SendUnsub uuid next); GToWorker (RouteDelSource next)].

Definition rr_on_tick (order : HashOrder) (r : RemoteRelay) (now : Z) : RemoteRelay :=
  let uuid := rr_uuid r in
  match rr_state r with
  | Bound consumers feedbacks next sticky_session_at =>
      let dest := if wrap 64 (sticky_session_at + RELAY_STICKY_MS) <=? now then None else Some next in
      let queue := rr_queue r ++ [GToWorker (SendSub uuid dest)] in
      let consumers := consumers_on_tick order consumers now in
      let feedbacks := aggerator_on_tick feedbacks now in
      let '(consumers, queue) := pop_consumers_out consumers queue in
      let '(feedbacks, queue) := pop_feedbacks_out next feedbacks queue in
      if consumers_should_clear consumers
      then mkRemoteRelay uuid (Unbinding next now) (queue ++ leave_next uuid next)
      else mkRemoteRelay uuid (Bound consumers feedbacks next sticky_session_at) queue
  | Binding consumers feedbacks =>
      let queue := rr_queue r ++ [GToWorker (SendSub uuid None)] in
      let '(consumers, queue) := pop_consumers_out (consumers_on_tick order consumers now) queue in
      if consumers_should_clear consumers then mkRemoteRelay uuid Unbound queue
      else mkRemoteRelay uuid (Binding consumers feedbacks) queue
  | Unbinding next started_at =>
      if wrap 64 (started_at + RELAY_TIMEOUT) <=? now then mkRemoteRelay uuid Unbound (rr_queue r)
      else mkRemoteRelay uuid (Unbinding next started_at) (rr_queue r ++ [GToWorker (SendUnsub uuid next)])
  | _ => r
  end.

Definition rr_disconnected (r : RemoteRelay) (now : Z) (remote : NetPair) : RemoteRelay :=
  let uuid := rr_uuid r in
  match rr_state r with
  | Bound consumers feedbacks next sticky_session_at =>
      let '(consumers, queue) := pop_consumers_out (consumers_disconnected consumers remote) (rr_queue r) in
      if bool_decide (next = remote)
      then mkRemoteRelay uuid (Binding consumers feedbacks) (queue ++ [GToWorker (SendSub uuid None)])
      else if consumers_should_clear consumers
      then mkRemoteRelay uuid (Unbinding next now) (queue ++ leave_next uuid next)
      else mkRemoteRelay uuid (Bound consumers feedbacks next sticky_session_at) queue
  | Binding consumers feedbacks =>
      let '(consumers, queue) := pop_consumers_out (consumers_disconnected consumers remote) (rr_queue r) in
      if consumers_should_clear consumers then mkRemoteRelay uuid Unbound queue
      else mkRemoteRelay uuid (Binding consumers feedbacks) queue
  | _ => r
  end.

Definition rr_on_local_sub (r : RemoteRelay) (actor : Actor) : RemoteRelay :=
  let uuid := rr_uuid r in
  let '(fresh, fresh_queue) := pop_consumers_out (consumers_on_local_sub consumers_default actor) (rr_queue r) in
  match rr_state r with
  | RelayNew | Unbound =>
      mkRemoteRelay uuid (Binding fresh aggerator_default) (fresh_queue ++ [GToWorker (SendSub uuid None)])
  | Unbinding next _ =>
      mkRemoteRelay uuid (Binding fresh aggerator_default) (fresh_queue ++ [GToWorker (SendSub uuid (Some next))])
  | Binding consumers feedbacks =>
      let '(consumers, queue) := pop_consumers_out (consumers_on_local_sub consumers actor) (rr_queue r) in
      mkRemoteRelay uuid (Binding consumers feedbacks) queue
  | Bound consumers feedbacks next sticky_session_at =>
      let '(consumers, queue) := pop_consumers_out (consumers_on_local_sub consumers actor) (rr_queue r) in
      mkRemoteRelay uuid (Bound consumers feedbacks next sticky_session_at) queue
  end.

(** [on_local_feedback] and the [Feedback] case of [on_remote]. *)
Definition rr_feedback (r : RemoteRelay) (now : Z) (source : FeedbackSource UserData) (fb : Feedback) : RemoteRelay :=
  let uuid := rr_uuid r in
  match rr_state r with
  | Binding consumers feedbacks =>
      mkRemoteRelay uuid (Binding consumers (aggerator_on_feedback feedbacks now source fb)) (rr_queue r)
  | Bound consumers feedbacks next sticky_session_at =>
      let '(feedbacks, queue) := pop_feedbacks_out next (aggerator_on_feedback feedbacks now source fb) (rr_queue r) in
      mkRemoteRelay uuid (Bound consumers feedbacks next sticky_session_at) queue
  | _ => r
  end.

Definition rr_on_local_feedback (r : RemoteRelay) (now : Z) (actor : Actor) (fb : Feedback) : RemoteRelay :=
  rr_feedback r now (FbLocal actor) fb.

(** A consumer may have left: the relay gives up when it was the last. *)
Definition after_leave (r : RemoteRelay) (now : Z) (consumers : Consumers) : RemoteRelay :=
  let uuid := rr_uuid r in
  let '(consumers, queue) := pop_consumers_out consumers (rr_queue r) in
  match rr_state r with
  | Binding _ feedbacks =>
      if consumers_should_clear consumers then mkRemoteRelay uuid Unbound queue
      else mkRemoteRelay uuid (Binding consumers feedbacks) queue
  | Bound _ feedbacks next sticky_session_at =>
      if consumers_should_clear consumers
      then mkRemoteRelay uuid (Unbinding next now) (queue ++ leave_next uuid next)
      else mkRemoteRelay uuid (Bound consumers feedbacks next sticky_session_at) queue
  | _ => r
  end.

Definition rr_on_local_unsub (r : RemoteRelay) (now : Z) (actor : Actor) : RemoteRelay :=
  match rr_state r with
  | Binding consumers _ | Bound consumers _ _ _ => after_leave r now (consumers_on_local_unsub consumers actor)
  | _ => r
  end.

(** The answer of the next node. *)
Definition rr_on_sub_ok (r : RemoteRelay) (now : Z) (remote : NetPair) : RemoteRelay :=
  let uuid := rr_uuid r in
  match rr_state r with
  | Binding consumers feedbacks =>
      mkRemoteRelay uuid (Bound consumers feedbacks remote now) (rr_queue r ++ [GToWorker (RouteSetSource remote)])
  | Bound consumers feedbacks next sticky_session_at =>
      if bool_decide (next = remote) then mkRemoteRelay uuid (Bound consumers feedbacks next now) (rr_queue r)
      else
        let '(locals, has_remote) := consumers_relay_dests consumers in
        mkRemoteRelay uuid (Bound consumers feedbacks remote sticky_session_at)
          (rr_queue r ++ [GToWorker (SendUnsub uuid next)] ++ (if has_remote : bool then [GToWorker SendRouteChanged] else []) ++
           [GToWorker (RouteSetSource remote)] ++ (GRouteChanged <$> locals))
  | _ => r
  end.

Definition rr_on_route_changed (r : RemoteRelay) : RemoteRelay :=
  match rr_state r with
  | Bound consumers _ _ _ =>
      let '(locals, has_remote) := consumers_relay_dests consumers in
      mkRemoteRelay (rr_uuid r) (rr_state r)
        (rr_queue r ++ (if has_remote : bool then [GToWorker SendRouteChanged] else []) ++ (GRouteChanged <$> locals))
  | _ => r
  end.

Definition rr_on_remote (r : RemoteRelay) (now : Z) (remote : NetPair) (control : RelayControl) : RemoteRelay :=
  let uuid := rr_uuid r in
  match control with
  | RelaySubOK u => if u =? uuid then rr_on_sub_ok r now remote else r
  | RelayUnsubOK u =>
      if u =? uuid then
        match rr_state r with Unbinding _ _ => mkRemoteRelay uuid Unbound (rr_queue r) | _ => r end
      else r
  | RelayRouteChanged u => if u =? uuid then rr_on_route_changed r else r
  | RelayFeedback fb => rr_feedback r now (FbRemote remote) fb
  | RelaySub _ | RelayUnsub _ =>
      let '(fresh, fresh_queue) := pop_consumers_out (consumers_on_remote consumers_default now remote control) (rr_queue r) in
      match rr_state r with
      | RelayNew | Unbound =>
          mkRemoteRelay uuid (Binding fresh aggerator_default) (fresh_queue ++ [GToWorker (SendSub uuid None)])
      | Unbinding next _ =>
          mkRemoteRelay uuid (Binding fresh aggerator_default) (fresh_queue ++ [GToWorker (SendSub uuid (Some next))])
      | Binding consumers _ | Bound consumers _ _ _ => after_leave r now (consumers_on_remote consumers now remote control)
      end
  end.

Definition rr_pop_output (r : RemoteRelay) : RemoteRelay * option RelayOutput :=
  match rr_queue r with
  | [] => (r, None)
  | out :: rest => (mkRemoteRelay (rr_uuid r) (rr_state r) rest, Some out)
  end.

Definition rr_relay_dests (r : RemoteRelay) : option (list Actor * bool) :=
  match rr_state r with
  | Bound consumers _ _ _ | Binding consumers _ => Some (consumers_relay_dests consumers)
  | _ => None
  end.

Definition rr_should_clear (r : RemoteRelay) : bool := match rr_state r with Unbound => true | _ => false end.

(** ** [Box<dyn GenericRelay>] *)

Inductive GenericRelay := LocalR (r : LocalRelay UserData) | RemoteR (r : RemoteRelay).

Definition relay_on_tick (order : HashOrder) (g : GenericRelay) (now : Z) : GenericRelay :=
  match g with LocalR r => LocalR (lr_on_tick order r now) | RemoteR r => RemoteR (rr_on_tick order r now) end.

(** A remote relay panics when it is asked to publish. *)
Definition relay_on_pub_start (g : GenericRelay) (actor : Actor) : outcome GenericRelay :=
  match g with LocalR r => Done (LocalR (lr_on_pub_start r actor)) | RemoteR _ => Panic end.

Definition relay_on_pub_stop (g : GenericRelay) (actor : Actor) : outcome GenericRelay :=
  match g with LocalR r => Done (LocalR (lr_on_pub_stop r actor)) | RemoteR _ => Panic end.

Definition relay_on_local_sub (g : GenericRelay) (actor : Actor) : GenericRelay :=
  match g with LocalR r => LocalR (lr_on_local_sub r actor) | RemoteR r => RemoteR (rr_on_local_sub r actor) end.

Definition relay_on_local_feedback (g : GenericRelay) (now : Z) (actor : Actor) (fb : Feedback) : GenericRelay :=
  match g with
  | LocalR r => LocalR (lr_on_local_feedback r now actor fb)
  | RemoteR r => RemoteR (rr_on_local_feedback r now actor fb)
  end.

Definition relay_on_local_unsub (g : GenericRelay) (now : Z) (actor : Actor) : GenericRelay :=
  match g with LocalR r => LocalR (lr_on_local_unsub r actor) | RemoteR r => RemoteR (rr_on_local_unsub r now actor) end.

Definition relay_on_remote (g : GenericRelay) (now : Z) (remote : NetPair) (control : RelayControl) : GenericRelay :=
  match g with
  | LocalR r => LocalR (lr_on_remote r now remote control)
  | RemoteR r => RemoteR (rr_on_remote r now remote control)
  end.

Definition relay_disconnected (g : GenericRelay) (now : Z) (remote : NetPair) : GenericRelay :=
  match g with LocalR r => LocalR (lr_disconnected r remote) | RemoteR r => RemoteR (rr_disconnected r now remote) end.

Definition relay_should_clear (g : GenericRelay) : bool :=
  match g with LocalR r => lr_should_clear r | RemoteR r => rr_should_clear r end.

Definition relay_dests (g : GenericRelay) : option (list Actor * bool) :=
  match g with LocalR r => lr_relay_dests r | RemoteR r => rr_relay_dests r end.

Definition relay_pop_output (g : GenericRelay) : GenericRelay * option RelayOutput :=
  match g with
  | LocalR r => let '(r, out) := lr_pop_output r in (LocalR r, out)
  | RemoteR r => let '(r, out) := rr_pop_output r in (RemoteR r, out)
  end.
End remote_relay.

Arguments RemoteRelay UserData : clear implicits.
Arguments RelayState UserData : clear implicits.
Arguments GenericRelay UserData : clear implicits.

(** ** Draining a relay *)

Section drain.
Context {UserData : Type} `{EqDecision UserData}.
Implicit Types g : GenericRelay UserData.

(** What [while let Some(out) = relay.pop_output()] takes, and what it leaves. *)
Definition relay_outputs g : list (GenericRelayOutput UserData) :=
  match g with
  | LocalR r => (GFeedback (publishers r) <$> fb_queue (lr_feedbacks r)) ++ (GToWorker <$> cons_queue (lr_consumers r))
  | RemoteR r => rr_queue r
  end.

Definition relay_drained g : GenericRelay UserData :=
  match g with
  | LocalR r => LocalR (mkLocalRelay (mkConsumers (remotes (lr_consumers r)) (locals (lr_consumers r)) [])
                          (mkAggerator (kinds (lr_feedbacks r)) []) (publishers r))
  | RemoteR r => RemoteR (mkRemoteRelay (rr_uuid r) (rr_state r) [])
  end.

(** The loop takes exactly these outputs, in this order, and ends. *)
Lemma relay_pop_output_drains g :
  match relay_pop_output g with
  | (g', Some out) => relay_outputs g = out :: relay_outputs g' ∧ relay_drained g' = relay_drained g
  | (g', None) => relay_outputs g = [] ∧ g' = g ∧ g = relay_drained g
  end.
Proof.
  destruct g as [[[rm l cq] [ks fq] pubs]|[uuid st q]]; cbn.
  - unfold lr_pop_output, aggerator_pop_output. cbn. destruct fq as [|fb fq]; cbn; [|done].
    unfold consumers_pop_output. cbn. by destruct cq.
  - unfold rr_pop_output. cbn. by destruct q.
Qed.
End drain.

(** ** A defect: repeated unsubscriptions *)

Section repeated_unsub.
Context {UserData : Type} `{EqDecision UserData}.

(** A relay that is leaving its next node and receives an [Unsub] (a node that
    leaves sends it again on every tick until it is answered) subscribes again
    with no consumer, and does not answer. *)
Lemma repeated_unsub_resubscribes (r : RemoteRelay UserData) next at_ now remote uuid :
  rr_state r = Unbinding next at_ →
  rr_on_remote r now remote (RelayUnsub uuid) =
    mkRemoteRelay (rr_uuid r) (Binding consumers_default aggerator_default)
      (rr_queue r ++ [GToWorker (SendSub (rr_uuid r) (Some next))]).
Proof. intros Hst. unfold rr_on_remote. cbn. by rewrite Hst. Qed.
End repeated_unsub.
