(* ===== verification/PubsubFeedback.v ===== *)
(** * What the feedback of a relay says, and when it is sent

    The consumers of a relay report feedback, which the relay aggregates by
    kind and passes on towards the source. *)

From S2P Require Import Prelude NodeId Base Neighbours PubsubMsg PubsubRelay.

Section aggregate.
Context {UserData : Type} `{EqDecision UserData}.
Abbreviation Entry := (FeedbackSource UserData * Feedback * Z)%type (only parsing).
Implicit Types (l : list Entry) (k : SingleFeedbackKind UserData) (a : FeedbacksAggerator UserData).

Definition sum_of (field : Feedback → Z) l : Z := foldr (λ e, Z.add (field e.1.2)) 0 l.

(** The aggregate of the entries: counts and sums add up (as [u64]s), extrema
    are taken over all of them, and so are the interval and the timeout. *)
Record aggregates l (fb : Feedback) : Prop := {
  agg_count : fb_count fb = wrap 64 (sum_of fb_count l);
  agg_sum : fb_sum fb = wrap 64 (sum_of fb_sum l);
  agg_max : ∀ m, fb_max fb ≤ m ↔ Forall (λ e, fb_max e.1.2 ≤ m) l;
  agg_min : ∀ m, m ≤ fb_min fb ↔ Forall (λ e, m ≤ fb_min e.1.2) l;
  agg_interval : ∀ m, m ≤ fb_interval_ms fb ↔ Forall (λ e, m ≤ fb_interval_ms e.1.2) l;
  agg_timeout : ∀ m, fb_timeout_ms fb ≤ m ↔ Forall (λ e, fb_timeout_ms e.1.2 ≤ m) l;
}.

(** The [u64] fields that add up. *)
Definition feedback_ok (fb : Feedback) : Prop := u64 (fb_count fb) ∧ u64 (fb_sum fb).

Lemma sum_of_snoc field l e : sum_of field (l ++ [e]) = sum_of field l + field e.1.2.
Proof. induction l as [|x l IH]; cbn; [lia|]. unfold sum_of in *. cbn. rewrite IH. lia. Qed.

Lemma wrap_add_wrap (w x y : Z) : wrap w (wrap w x + y) = wrap w (x + y).
Proof. apply Zplus_mod_idemp_l. Qed.

Lemma aggregates_one (e : Entry) : feedback_ok e.1.2 → aggregates [e] e.1.2.
Proof.
  intros [Hc Hs]. split; try (intros m; by rewrite Forall_singleton).
  - cbn. by rewrite Z.add_0_r, wrap_small.
  - cbn. by rewrite Z.add_0_r, wrap_small.
Qed.

Lemma aggregates_snoc l acc (e : Entry) : aggregates l acc → aggregates (l ++ [e]) (feedback_add acc e.1.2).
Proof.
  intros [Hc Hs Hmax Hmin Hi Ht].
  split; cbn; [by rewrite Hc, sum_of_snoc, wrap_add_wrap|by rewrite Hs, sum_of_snoc, wrap_add_wrap|..]; intros m;
    rewrite Forall_app, Forall_singleton, ?Z.max_lub_iff, ?Z.min_glb_iff, ?Hmax, ?Hmin, ?Hi, ?Ht; done.
Qed.

Lemma foldl_aggregate l : ∀ pre acc, aggregates pre acc → ∃ out, foldl fb_aggregate (Some acc) l = Some out ∧ aggregates (pre ++ l) out.
Proof.
  induction l as [|e l IH]; intros pre acc Hacc; cbn; [exists acc; by rewrite app_nil_r|].
  destruct (IH (pre ++ [e]) (feedback_add acc e.1.2)) as (out & Hout & Hagg); [by apply aggregates_snoc|].
  exists out. by rewrite <- app_assoc in Hagg.
Qed.

Lemma aggregate_spec l : l ≠ [] → Forall (λ e, feedback_ok e.1.2) l → ∃ out, foldl fb_aggregate None l = Some out ∧ aggregates l out.
Proof.
  destruct l as [|e l]; [done|]. intros _ [He _]%Forall_cons. cbn. by apply (foldl_aggregate l [e]), aggregates_one.
Qed.

(** ** The entries of a kind *)

Record kind_ok k : Prop := {
  kind_sources : NoDup (fb_source <$> feedbacks k);
  kind_entries : Forall (λ e, fb_kind e.1.2 = kind k ∧ feedback_ok e.1.2) (feedbacks k);
  kind_settled : feedbacks_updated k = false;
  kind_unthrottled : last_feedback_ts k = None;
}.

Lemma kupsert_ok (P : Entry → Prop) (e : Entry) l :
  NoDup (fb_source <$> l) → Forall P l → P e →
  NoDup (fb_source <$> kupsert fb_source e l) ∧ Forall P (kupsert fb_source e l) ∧ e ∈ kupsert fb_source e l.
Proof.
  intros Hnd Hall He. destruct (kupsert_spec fb_source e l) as [[Hni ->]|(l1 & y & l2 & -> & Hy & Hni & ->)].
  - split_and!; [|by apply Forall_snoc|apply elem_of_snoc]. rewrite fmap_app. apply NoDup_app. split_and!; [done| |apply NoDup_singleton].
    by intros x Hx ->%list_elem_of_singleton.
  - rewrite Forall_app, Forall_cons in *. rewrite fmap_app, fmap_cons in *. rewrite Hy in Hnd. split_and!; [done|naive_solver..|].
    apply elem_of_app. right. left.
Qed.

Lemma NoDup_fmap_filter (P : Entry → Prop) `{∀ e, Decision (P e)} l :
  NoDup (fb_source <$> l) → NoDup (fb_source <$> filter P l).
Proof. intros Hnd. eapply sublist_NoDup; [exact Hnd|]. apply fmap_sublist, sublist_filter. Qed.

(** An update is passed on at once, whatever the interval asks for. *)
Lemma kind_feedback_emits k now source fb :
  kind_ok k → kind k = fb_kind fb → feedback_ok fb →
  ∃ k' out, kind_process (kind_on_feedback k now source fb) now = (k', Some out) ∧ kind_ok k' ∧ kind k' = kind k ∧
            feedbacks k' = filter (fb_alive now) (kupsert fb_source (source, fb, now) (feedbacks k)) ∧
            aggregates (kupsert fb_source (source, fb, now) (feedbacks k)) out.
Proof.
  intros [Hnd Hall Hu Ht] Hk Hfb.
  destruct (kupsert_ok (λ e, fb_kind e.1.2 = kind k ∧ feedback_ok e.1.2) (source, fb, now) (feedbacks k)) as (Hnd' & Hall' & Hin); [done..|].
  destruct (aggregate_spec (kupsert fb_source (source, fb, now) (feedbacks k))) as (out & Hout & Hagg).
  { intros Heq. rewrite Heq in Hin. by apply not_elem_of_nil in Hin. }
  { eapply Forall_impl; [exact Hall'|]. by intros ? []. }
  unfold kind_process, kind_on_feedback. cbn. rewrite Hout, Ht. eexists _, out. split; [done|]. split_and!; [|done..].
  split; cbn; [|by apply Forall_filter|done|done].
  by apply NoDup_fmap_filter.
Qed.

(** What a tick leaves of a kind. *)
Definition forget (now : Z) k : SingleFeedbackKind UserData := mkFbKind (kind k) (filter (fb_alive now) (feedbacks k)) false None.

Lemma kind_process_settled k now : kind_ok k → kind_process k now = (forget now k, None) ∧ kind_ok (forget now k).
Proof.
  intros [Hnd Hall Hu Ht]. unfold kind_process. rewrite Hu, Ht. split; [done|]. split; cbn; [|by apply Forall_filter|done|done].
  by apply NoDup_fmap_filter.
Qed.

(** ** The aggregator *)

Record aggerator_ok a : Prop := {
  ag_kinds : Forall kind_ok (kinds a);
  ag_unique : NoDup (kind <$> kinds a);
}.

(** The entries of a kind; a kind the aggregator does not have has none. *)
Definition entries_of a (x : Z) : list Entry :=
  match list_find (λ k, kind k = x) (kinds a) with Some (_, k) => feedbacks k | None => [] end.

Lemma entries_of_elem a k : NoDup (kind <$> kinds a) → k ∈ kinds a → entries_of a (kind k) = feedbacks k.
Proof.
  intros Hnd [i Hi]%list_elem_of_lookup. unfold entries_of. destruct (list_find _ _) as [[j k']|] eqn:Hf.
  - apply list_find_Some in Hf as (Hj & Hk & _). assert (i = j) as ->; [|congruence].
    eapply NoDup_lookup; [exact Hnd|rewrite list_lookup_fmap, Hi; done|rewrite list_lookup_fmap, Hj; cbn; by rewrite Hk].
  - apply list_find_None in Hf. rewrite Forall_forall in Hf. by destruct (Hf k (list_elem_of_lookup_2 _ _ _ Hi)).
Qed.

Lemma entries_of_none a x : (∀ k, k ∈ kinds a → kind k ≠ x) → entries_of a x = [].
Proof. intros Hn. unfold entries_of. destruct (list_find _ _) as [[j k']|] eqn:Hf; [|done]. apply list_find_Some in Hf as (Hj & Hk & _). by destruct (Hn k' (list_elem_of_lookup_2 _ _ _ Hj)). Qed.

Lemma entries_of_cases a x : aggerator_ok a → (∃ k, k ∈ kinds a ∧ kind k = x ∧ entries_of a x = feedbacks k) ∨ (∀ k, k ∈ kinds a → kind k ≠ x).
Proof.
  intros [_ Hnd]. destruct (list_find (λ k, kind k = x) (kinds a)) as [[j k]|] eqn:Hf.
  - left. apply list_find_Some in Hf as (Hj & <- & _). exists k. apply list_elem_of_lookup_2 in Hj. split_and!; [done..|]. by apply entries_of_elem.
  - right. apply list_find_None in Hf. by rewrite Forall_forall in Hf.
Qed.

Lemma entries_of_ok a x : aggerator_ok a → NoDup (fb_source <$> entries_of a x) ∧ Forall (λ e, fb_kind e.1.2 = x ∧ feedback_ok e.1.2) (entries_of a x).
Proof.
  intros Hok. destruct (entries_of_cases a x Hok) as [(k & Hk & <- & ->)|Hn]; [|rewrite entries_of_none by done; by split; constructor].
  destruct Hok as [Hall _]. rewrite Forall_forall in Hall. by destruct (Hall k Hk).
Qed.

Lemma get_fb_kind_spec a x i k ks :
  get_fb_kind a x = (i, k, ks) → aggerator_ok a →
  kind_ok k ∧ kind k = x ∧ feedbacks k = entries_of a x ∧ Forall kind_ok ks ∧ NoDup (kind <$> ks) ∧ ks !! i = Some k ∧
  ∀ k', kind k' ≠ x → k' ∈ ks ↔ k' ∈ kinds a.
Proof.
  unfold get_fb_kind, entries_of. destruct (list_find (λ k, kind k = x) (kinds a)) as [[j y]|] eqn:Hf; intros [= <- <- <-] [Hok Hnd].
  - apply list_find_Some in Hf as (Hj & <- & _). split_and!; try done. by eapply Forall_lookup_1.
  - assert (kind_ok (mkFbKind x [] false None)) as Hnew by (split; constructor).
    split_and!; [done..|by apply Forall_snoc| |by apply list_lookup_middle|].
    + rewrite fmap_app. apply NoDup_app. split_and!; [done| |apply NoDup_singleton]. intros y Hy ->%list_elem_of_singleton.
      apply list_elem_of_fmap in Hy as (k & Hk & Hin). apply list_find_None in Hf. rewrite Forall_forall in Hf. by apply (Hf k Hin).
    + intros k' Hk'. rewrite elem_of_app, list_elem_of_singleton. split; [intros [?| ->]; done|by left].
Qed.

Lemma fmap_insert_same {B C} (g : B → C) (l : list B) i x y : l !! i = Some x → g y = g x → g <$> <[i := y]> l = g <$> l.
Proof. intros Hi Hg. rewrite list_fmap_insert, Hg. apply list_insert_id. by rewrite list_lookup_fmap, Hi. Qed.

(** What one feedback does. *)
Lemma on_feedback_spec a now source fb :
  aggerator_ok a → feedback_ok fb →
  let reports := kupsert fb_source (source, fb, now) (entries_of a (fb_kind fb)) in
  let a' := aggerator_on_feedback a now source fb in
  aggerator_ok a' ∧ (∃ out, fb_queue a' = fb_queue a ++ [out] ∧ aggregates reports out) ∧
  (∀ x, entries_of a' x = if decide (x = fb_kind fb) then filter (fb_alive now) reports else entries_of a x).
Proof.
  intros Hok Hfb reports a'. unfold a', aggerator_on_feedback. destruct (get_fb_kind a (fb_kind fb)) as [[i k] ks] eqn:Hget.
  destruct (get_fb_kind_spec _ _ _ _ _ Hget Hok) as (Hk & Hkk & Hent & Hks & Hnd & Hi & Hother).
  destruct (kind_feedback_emits k now source fb) as (k' & out & Hp & Hk' & Hkk' & Hfs & Hagg); [done..|]. rewrite Hp.
  assert (NoDup (kind <$> <[i := k']> ks)) as Hnd' by by rewrite (fmap_insert_same _ _ _ _ _ Hi Hkk').
  assert (aggerator_ok (mkAggerator (<[i := k']> ks) (fb_queue a ++ [out]))) as Hok' by (split; [by apply Forall_insert|done]).
  rewrite Hent in Hagg, Hfs. split_and!; [done|by eexists|]. intros x. case_decide as Hx.
  - subst x. rewrite <- Hkk, <- Hkk', entries_of_elem; [done|done|]. apply (list_elem_of_lookup_2 _ i). apply list_lookup_insert_eq. by eapply lookup_lt_Some.
  - assert (∀ k2, kind k2 = x → k2 ∈ <[i := k']> ks ↔ k2 ∈ kinds a) as Hsame.
    { intros k2 Hk2. rewrite <- Hother by congruence. split; intros [j Hj]%list_elem_of_lookup.
      - apply list_lookup_insert_Some in Hj as [(-> & <- & _)|[_ Hj]]; [congruence|by eapply list_elem_of_lookup_2].
      - apply (list_elem_of_lookup_2 _ j). rewrite list_lookup_insert_ne; [done|]. congruence. }
    destruct (entries_of_cases a x Hok) as [(k2 & Hin & <- & ->)|Hn].
    + apply (entries_of_elem (mkAggerator (<[i := k']> ks) (fb_queue a ++ [out]))); [done|]. by apply Hsame.
    + rewrite (entries_of_none a) by done. apply entries_of_none. intros k2 Hin Hk2. apply Hsame in Hin; [|done]. by apply (Hn k2).
Qed.
Lemma process_kinds now ks : Forall kind_ok ks → ∀ acc : list (SingleFeedbackKind UserData) * list Feedback,
  foldl (process_step now) acc ks = (acc.1 ++ (forget now <$> ks), acc.2).
Proof.
  induction 1 as [|k ks Hk _ IH]; intros [ks' q]; [by rewrite app_nil_r|]. destruct (kind_process_settled k now Hk) as [Hp _]. cbn [foldl].
  assert (process_step now (ks', q) k = (ks' ++ [forget now k], q)) as -> by (unfold process_step; cbn [process_loop]; by rewrite Hp).
  rewrite IH. cbn. by rewrite <- app_assoc.
Qed.

(** A tick only forgets. *)
Lemma on_tick_spec a now : aggerator_ok a → let a' := aggerator_on_tick a now in
  aggerator_ok a' ∧ fb_queue a' = fb_queue a ∧ ∀ x, entries_of a' x = filter (fb_alive now) (entries_of a x).
Proof.
  intros Hok a'. pose proof Hok as [Hall Hnd]. assert (a' = mkAggerator (filter (λ k, feedbacks k ≠ []) (forget now <$> kinds a)) (fb_queue a)) as ->.
  { unfold a', aggerator_on_tick. by rewrite process_kinds. }
  assert (NoDup (kind <$> filter (λ k, feedbacks k ≠ []) (forget now <$> kinds a))) as Hnd'.
  { eapply sublist_NoDup; [exact Hnd|]. etransitivity; [apply fmap_sublist, sublist_filter|]. by rewrite <- list_fmap_compose. }
  split_and!; [|done|].
  - split; [|done]. apply Forall_filter, Forall_fmap. eapply Forall_impl; [exact Hall|]. intros k Hk. by apply kind_process_settled.
  - intros x. destruct (entries_of_cases a x Hok) as [(k & Hin & <- & ->)|Hn].
    + destruct (decide (filter (fb_alive now) (feedbacks k) = [])) as [He|He].
      * rewrite He. apply entries_of_none. intros k' [Hne (k2 & -> & Hk2)%list_elem_of_fmap]%list_elem_of_filter Heq. cbn in Heq, Hne.
        rewrite <- (entries_of_elem a k2), Heq, (entries_of_elem a k) in Hne by done. done.
      * change (kind k) with (kind (forget now k)). rewrite entries_of_elem; [done|done|]. apply list_elem_of_filter. split; [done|]. by apply list_elem_of_fmap_2.
    + rewrite (entries_of_none a) by done. apply entries_of_none. intros k' [_ (k2 & -> & Hk2)%list_elem_of_fmap]%list_elem_of_filter. exact (Hn k2 Hk2).
Qed.

(** ** The history of an aggregator *)

Inductive fb_op := FbReport (now : Z) (source : FeedbackSource UserData) (fb : Feedback) | FbTick (now : Z).

(** A state after the given reports and ticks, and any number of outputs
    taken. *)
Inductive fb_run : list fb_op → FeedbacksAggerator UserData → Prop :=
| run_start : fb_run [] aggerator_default
| run_report h a now source fb : fb_run h a → feedback_ok fb → fb_run (h ++ [FbReport now source fb]) (aggerator_on_feedback a now source fb)
| run_tick h a now : fb_run h a → fb_run (h ++ [FbTick now]) (aggerator_on_tick a now)
| run_pop h a a' out : fb_run h a → aggerator_pop_output a = (a', out) → fb_run h a'.

(** [op] leaves the report [e] in place: its source does not report this kind
    again, and it has not timed out when the kind is looked through. *)
Definition spares (e : Entry) (op : fb_op) : Prop :=
  match op with
  | FbReport now source fb => fb_kind fb = fb_kind e.1.2 → source ≠ e.1.1 ∧ fb_alive now e
  | FbTick now => fb_alive now e
  end.

(** The report [e] was made, had not timed out when it was, and is still in
    place. *)
Definition counts (h : list fb_op) (e : Entry) : Prop :=
  ∃ h1 h2, h = h1 ++ FbReport e.2 e.1.1 e.1.2 :: h2 ∧ fb_alive e.2 e ∧ Forall (spares e) h2.

Lemma counts_snoc h op e : counts (h ++ [op]) e ↔ (counts h e ∧ spares e op) ∨ (op = FbReport e.2 e.1.1 e.1.2 ∧ fb_alive e.2 e).
Proof.
  split.
  - intros (h1 & h2 & Heq & Hal & Hs). destruct h2 as [|op' h2 _] using rev_ind.
    + apply app_inj_tail in Heq as [_ ->]. by right.
    + rewrite app_comm_cons, app_assoc in Heq. apply app_inj_tail in Heq as [-> ->]. apply Forall_app in Hs as [Hs Hop]. rewrite Forall_singleton in Hop.
      left. split; [by exists h1, h2|done].
  - intros [[(h1 & h2 & -> & Hal & Hs) Hop]|[-> Hal]].
    + exists h1, (h2 ++ [op]). split_and!; [by rewrite <- app_assoc|done|by apply Forall_snoc].
    + exists h, []. by split_and!; [|..|constructor].
Qed.

Lemma elem_of_kupsert (e x : Entry) l : NoDup (fb_source <$> l) → x ∈ kupsert fb_source e l ↔ x = e ∨ (x ∈ l ∧ fb_source x ≠ fb_source e).
Proof.
  intros Hnd. destruct (kupsert_spec fb_source e l) as [[Hni ->]|(l1 & y & l2 & -> & Hy & Hni & ->)].
  - rewrite elem_of_app, list_elem_of_singleton. split; [|tauto]. intros [Hx|Hx]; [right|by left]. split; [done|].
    intros Heq. apply Hni. rewrite <- Heq. by apply list_elem_of_fmap_2.
  - rewrite fmap_app, fmap_cons, Hy in Hnd. apply NoDup_app in Hnd as (_ & _ & [Hni2 _]%NoDup_cons).
    assert (∀ z, z ∈ l1 ∨ z ∈ l2 → fb_source z ≠ fb_source e) as Hne.
    { intros z [Hz|Hz] Heq; [apply Hni|apply Hni2]; rewrite <- Heq; by apply list_elem_of_fmap_2. }
    rewrite !elem_of_app, !elem_of_cons. split; [naive_solver|]. intros [->|[[Hx|[->|Hx]] Hs]]; tauto.
Qed.

(** What the aggregator keeps is what the history says. *)
Lemma fb_run_entries h a : fb_run h a → aggerator_ok a ∧ ∀ e, e ∈ entries_of a (fb_kind e.1.2) ↔ counts h e.
Proof.
  induction 1 as [|h a now source fb _ [Hok IH] Hfb|h a now _ [Hok IH]|h a a' out _ [Hok IH] Hp].
  - split; [split; constructor|]. intros e. split; [by intros ?%elem_of_nil|]. intros (h1 & h2 & Heq & _). by destruct h1.
  - destruct (on_feedback_spec a now source fb Hok Hfb) as (Hok' & _ & Hent). split; [done|]. intros e. rewrite counts_snoc, <- IH, Hent. cbn [spares].
    case_decide as Hx; [|split; [intros He; left; split; [done|congruence]|intros [[? _]|[Heq _]]; [done|congruence]]].
    rewrite list_elem_of_filter, elem_of_kupsert by by apply entries_of_ok. rewrite Hx. destruct e as [[src fb'] t]. cbn in *. split.
    + intros [Hal [[= -> -> ->]|[Hin Hne]]]; [by right|]. left. split; [done|]. intros _. split; [congruence|done].
    + intros [[Hin Hs]|[[= -> -> ->] Hal]]; [|tauto]. destruct (Hs eq_refl) as [Hne Hal]. split; [done|]. right. split; [done|]. congruence.
  - destruct (on_tick_spec a now Hok) as (Hok' & _ & Hent). split; [done|]. intros e. rewrite counts_snoc, <- IH, Hent, list_elem_of_filter. cbn [spares].
    split; [intros []; by left|]. intros [[]|[? _]]; [tauto|done].
  - unfold aggerator_pop_output in Hp. destruct (fb_queue a); simplify_eq; [done|]. split; [by destruct Hok|done].
Qed.

(** C32. Each feedback a relay receives makes it pass on one aggregate, in
    which the last report of every consumer of that kind counts exactly once:
    the new report, and for every other source the report it made last, unless
    that had timed out when the kind was looked through since, at a tick or at
    a feedback. Counts and sums add up, extrema are those of all the
    reports. *)
Theorem feedback_counts_every_consumer_once h a now source fb :
  fb_run h a → feedback_ok fb →
  ∃ reports out,
    fb_queue (aggerator_on_feedback a now source fb) = fb_queue a ++ [out] ∧
    aggregates reports out ∧ NoDup (fb_source <$> reports) ∧
    ∀ e, e ∈ reports ↔ e = (source, fb, now) ∨ (counts h e ∧ fb_kind e.1.2 = fb_kind fb ∧ fb_source e ≠ source).
Proof.
  intros [Hok Hent]%fb_run_entries Hfb. destruct (on_feedback_spec a now source fb Hok Hfb) as (_ & (out & Hq & Hagg) & _).
  destruct (entries_of_ok a (fb_kind fb) Hok) as [Hnd Hall].
  exists (kupsert fb_source (source, fb, now) (entries_of a (fb_kind fb))), out. split_and!; try done.
  - by destruct (kupsert_ok (λ _, True) (source, fb, now) _ Hnd (Forall_true _ _ (λ _, I)) I) as [? _].
  - intros e. rewrite elem_of_kupsert by done. rewrite Forall_forall in Hall. split; (intros [->|He]; [by left|right]).
    + destruct He as [Hin Hne]. pose proof (proj1 (Hall _ Hin)) as Hk. rewrite <- Hk in Hin. split_and!; [by apply Hent|done..].
    + destruct He as (Hc' & Hk & Hne). split; [|done]. rewrite <- Hk. by apply Hent.
Qed.

(** The interval the consumers ask for is not kept: a feedback is passed on
    at once, and a tick passes nothing on. *)
Theorem tick_passes_nothing_on h a now : fb_run h a → fb_queue (aggerator_on_tick a now) = fb_queue a.
Proof. intros [Hok _]%fb_run_entries. by apply on_tick_spec. Qed.
End aggregate.

Lemma feedback_counts_every_consumer_once_witness :
  let report v := feedback_simple 1 v 1000 2000 in
  let a := aggerator_on_feedback aggerator_default 0 (FbLocal (ActorController 1)) (report 10) in
  ∃ out, fb_queue (aggerator_on_feedback a 1 (FbLocal (ActorController 2)) (report 20)) = fb_queue a ++ [out] ∧
         out = mkFeedback 1 2 20 10 30 1000 2000.
Proof.
  cbn zeta. destruct (feedback_counts_every_consumer_once ([] ++ [FbReport 0 (FbLocal (ActorController 1)) (feedback_simple 1 10 1000 2000)])
    (aggerator_on_feedback aggerator_default 0 (FbLocal (ActorController 1)) (feedback_simple 1 10 1000 2000))
    1 (FbLocal (ActorController 2)) (feedback_simple 1 20 1000 2000)) as (reports & out & Hq & _).
  - apply run_report; [apply run_start|by vm_compute].
  - by vm_compute.
  - exists out. split; [exact Hq|]. vm_compute in Hq. by injection Hq as <-.
Defined.
