(* ===== verification/PubsubHint.v ===== *)
(** * Source hints of a channel ([features/pubsub/controller/source_hint.rs])

    Every node on the way to the root of a channel (the node closest to its
    id) keeps the sources it has heard of and the subscribers below it, and
    passes registrations up to the root and down to the subscribers. The
    subscribers on the node itself are told each source as it comes and goes.

    [BTreeMap] iterations take their order as an argument like those of hash
    maps: the order of the keys is one of the orders covered. *)

From S2P Require Import Prelude NodeId Base Neighbours PubsubMsg.

Definition TIMEOUT_MS : Z := 10000.

Inductive LocalCmd := LRegister | LUnregister | LSubscribe | LUnsubscribe.

Section hint.
Context {UserData : Type} `{EqDecision UserData}.

Abbreviation Actor := (FeatureControlActor UserData) (only parsing).

Inductive HintOutput :=
| SendRemote (dest : option NetPair) (hint : SourceHint)
| SubscribeSource (actors : list Actor) (source : NodeId)
| UnsubscribeSource (actors : list Actor) (source : NodeId).

Record SourceHintLogic := mkHint {
  sh_node_id : NodeId;
  session_id : Z;
  remote_sources : gmap NodeId Z;
  remote_subscribers : gmap NetPair Z;
  local_sources : list Actor;
  local_subscribers : list Actor;
  next_hop : option NetPair;
  sh_queue : list HintOutput;
}.

Definition hint_new (node_id : NodeId) (session_id : Z) : SourceHintLogic := mkHint node_id session_id ∅ ∅ [] [] None [].

Definition hint_push (s : SourceHintLogic) (outs : list HintOutput) : SourceHintLogic :=
  mkHint (sh_node_id s) (session_id s) (remote_sources s) (remote_subscribers s) (local_sources s) (local_subscribers s)
    (next_hop s) (sh_queue s ++ outs).
Definition with_sources (s : SourceHintLogic) (m : gmap NodeId Z) : SourceHintLogic :=
  mkHint (sh_node_id s) (session_id s) m (remote_subscribers s) (local_sources s) (local_subscribers s) (next_hop s) (sh_queue s).
Definition with_subscribers (s : SourceHintLogic) (m : gmap NetPair Z) : SourceHintLogic :=
  mkHint (sh_node_id s) (session_id s) (remote_sources s) m (local_sources s) (local_subscribers s) (next_hop s) (sh_queue s).
Definition with_local_sources (s : SourceHintLogic) (l : list Actor) : SourceHintLogic :=
  mkHint (sh_node_id s) (session_id s) (remote_sources s) (remote_subscribers s) l (local_subscribers s) (next_hop s) (sh_queue s).
Definition with_local_subscribers (s : SourceHintLogic) (l : list Actor) : SourceHintLogic :=
  mkHint (sh_node_id s) (session_id s) (remote_sources s) (remote_subscribers s) (local_sources s) l (next_hop s) (sh_queue s).
Definition with_next_hop (s : SourceHintLogic) (h : option NetPair) : SourceHintLogic :=
  mkHint (sh_node_id s) (session_id s) (remote_sources s) (remote_subscribers s) (local_sources s) (local_subscribers s) h (sh_queue s).

Definition nonempty {A} (l : list A) : bool := match l with [] => false | _ => true end.
Definition map_empty `{Countable K} {V} (m : gmap K V) : bool := bool_decide (m = ∅).

Definition sources (order : HashOrder) (s : SourceHintLogic) : list NodeId :=
  (hash_iter (remote_sources s)).*1 ++ (if nonempty (local_sources s) then [sh_node_id s] else []).

(** [if !self.local_subscribers.is_empty()] around a notification of them. *)
Definition notify_subscribe (s : SourceHintLogic) (source : NodeId) : list HintOutput :=
  if nonempty (local_subscribers s) then [SubscribeSource (local_subscribers s) source] else [].
Definition notify_unsubscribe (s : SourceHintLogic) (source : NodeId) : list HintOutput :=
  if nonempty (local_subscribers s) then [UnsubscribeSource (local_subscribers s) source] else [].

(** A message to every remote subscriber that satisfies [P]. *)
Definition to_subscribers (order : HashOrder) (s : SourceHintLogic) (P : NetPair → bool) (hint : SourceHint) : list HintOutput :=
  (λ r, SendRemote (Some r) hint) <$> filter (λ r, P r = true) (hash_iter (remote_subscribers s)).*1.

(** One timed out subscriber, one timed out source. *)
Definition expire_subscriber (s : SourceHintLogic) (subscriber : NetPair) : SourceHintLogic :=
  let s := with_subscribers s (delete subscriber (remote_subscribers s)) in
  if negb (nonempty (local_subscribers s)) && map_empty (remote_subscribers s)
  then hint_push s [SendRemote None (HintUnsubscribe (session_id s))] else s.

Definition expire_source (s : SourceHintLogic) (source : NodeId) : SourceHintLogic :=
  let s := with_sources s (delete source (remote_sources s)) in
  hint_push s (notify_unsubscribe s source).

Definition timed_out `{Countable K} (order : HashOrder) (m : gmap K Z) (now_ms : Z) : list K :=
  fst <$> filter (λ e, TIMEOUT_MS ≤ wrap 64 (now_ms - e.2)) (hash_iter m).

Definition hint_on_tick (order : HashOrder) (s : SourceHintLogic) (now_ms : Z) : SourceHintLogic :=
  let s := foldl expire_subscriber s (timed_out order (remote_subscribers s) now_ms) in
  let s := foldl expire_source s (timed_out order (remote_sources s) now_ms) in
  let s := if nonempty (local_sources s)
           then hint_push s (SendRemote None (HintRegister (sh_node_id s) true) ::
                             to_subscribers order s (λ _, true) (HintRegister (sh_node_id s) false))
           else s in
  if nonempty (local_subscribers s) || negb (map_empty (remote_subscribers s))
  then hint_push s [SendRemote None (HintSubscribe (session_id s))] else s.

Definition hint_on_local (order : HashOrder) (s : SourceHintLogic) (actor : Actor) (cmd : LocalCmd) : SourceHintLogic :=
  match cmd with
  | LRegister =>
      if bool_decide (actor ∈ local_sources s) then s
      else
        let s := with_local_sources s (local_sources s ++ [actor]) in
        let first := (length (local_sources s) =? 1)%nat in
        let s := if first && map_empty (remote_sources s)
                 then hint_push s [SendRemote None (HintRegister (sh_node_id s) true)] else s in
        if first
        then hint_push s (to_subscribers order s (λ _, true) (HintRegister (sh_node_id s) false) ++
                          notify_subscribe s (sh_node_id s))
        else s
  | LUnregister =>
      match list_find (actor =.) (local_sources s) with
      | Some (index, _) =>
          let s := with_local_sources s (swap_remove (local_sources s) index) in
          let s := if negb (nonempty (local_sources s)) && map_empty (remote_sources s)
                   then hint_push s [SendRemote None (HintUnregister (sh_node_id s) true)] else s in
          if negb (nonempty (local_sources s))
          then hint_push s (to_subscribers order s (λ _, true) (HintUnregister (sh_node_id s) false) ++
                            notify_unsubscribe s (sh_node_id s))
          else s
      | None => s
      end
  | LSubscribe =>
      if bool_decide (actor ∈ local_subscribers s) then s
      else
        let s := with_local_subscribers s (local_subscribers s ++ [actor]) in
        let s := if (length (local_subscribers s) =? 1)%nat && map_empty (remote_subscribers s)
                 then hint_push s [SendRemote None (HintSubscribe (session_id s))] else s in
        hint_push s ((SubscribeSource [actor] <$> (hash_iter (remote_sources s)).*1) ++
                     (if nonempty (local_sources s) then [SubscribeSource [actor] (sh_node_id s)] else []))
  | LUnsubscribe =>
      match list_find (actor =.) (local_subscribers s) with
      | Some (index, _) =>
          let s := with_local_subscribers s (swap_remove (local_subscribers s) index) in
          let s := if negb (nonempty (local_subscribers s)) && map_empty (remote_subscribers s)
                   then hint_push s [SendRemote None (HintUnsubscribe (session_id s))] else s in
          hint_push s ((UnsubscribeSource [actor] <$> (hash_iter (remote_sources s)).*1) ++
                       (if nonempty (local_sources s) then [UnsubscribeSource [actor] (sh_node_id s)] else []))
      | None => s
      end
  end.

(** The loop of [Sources] for one source. *)
Definition learn_source (order : HashOrder) (now_ms : Z) (s : SourceHintLogic) (source : NodeId) : SourceHintLogic :=
  if source =? sh_node_id s then s
  else
    let known := remote_sources s !! source in
    let s := with_sources s (<[source := now_ms]> (remote_sources s)) in
    match known with
    | None => hint_push s (to_subscribers order s (λ _, true) (HintRegister source false) ++ notify_subscribe s source)
    | Some _ => s
    end.

Definition hint_on_remote (order : HashOrder) (s : SourceHintLogic) (now_ms : Z) (remote : NetPair) (cmd : SourceHint)
    : SourceHintLogic :=
  match cmd with
  | HintRegister source to_root =>
      if source =? sh_node_id s then s
      else if negb to_root && negb (bool_decide (next_hop s = Some remote)) then s
      else
        let s := if to_root : bool then hint_push s [SendRemote None (HintRegister source true)] else s in
        let s := hint_push s (to_subscribers order s (λ r, negb (bool_decide (r = remote))) (HintRegister source false)) in
        let known := remote_sources s !! source in
        let s := with_sources s (<[source := now_ms]> (remote_sources s)) in
        match known with
        | None => hint_push s (notify_subscribe s source)
        | Some _ => s
        end
  | HintUnregister source to_root =>
      if source =? sh_node_id s then s
      else if negb to_root && negb (bool_decide (next_hop s = Some remote)) then s
      else
        let s := if to_root : bool then hint_push s [SendRemote None (HintUnregister source true)] else s in
        let s := hint_push s (to_subscribers order s (λ r, negb (bool_decide (r = remote))) (HintUnregister source false)) in
        match remote_sources s !! source with
        | Some _ =>
            let s := with_sources s (delete source (remote_sources s)) in
            hint_push s (notify_unsubscribe s source)
        | None => s
        end
  | HintSubscribe session =>
      let known := remote_subscribers s !! remote in
      let s := with_subscribers s (<[remote := now_ms]> (remote_subscribers s)) in
      match known with
      | None =>
          let s := hint_push s [SendRemote (Some remote) (HintSubscribeOk session)] in
          let s := if (size (remote_subscribers s) =? 1)%nat && negb (nonempty (local_subscribers s))
                   then hint_push s [SendRemote None (HintSubscribe (session_id s))] else s in
          let srcs := (hash_iter (remote_sources s)).*1 ++ (if nonempty (local_sources s) then [sh_node_id s] else []) in
          if nonempty srcs then hint_push s [SendRemote (Some remote) (HintSources srcs)] else s
      | Some _ => hint_push s [SendRemote (Some remote) (HintSubscribeOk session)]
      end
  | HintSubscribeOk session => if session =? session_id s then with_next_hop s (Some remote) else s
  | HintUnsubscribe session =>
      match remote_subscribers s !! remote with
      | Some _ =>
          let s := with_subscribers s (delete remote (remote_subscribers s)) in
          let s := hint_push s [SendRemote (Some remote) (HintUnsubscribeOk session)] in
          if negb (nonempty (local_subscribers s)) && map_empty (remote_subscribers s)
          then hint_push s [SendRemote None (HintUnsubscribe (session_id s))] else s
      | None => hint_push s [SendRemote (Some remote) (HintUnsubscribeOk session)]
      end
  | HintUnsubscribeOk session => if session =? session_id s then with_next_hop s None else s
  | HintSources srcs => foldl (learn_source order now_ms) s srcs
  end.

Definition hint_pop_output (s : SourceHintLogic) : SourceHintLogic * option HintOutput :=
  match sh_queue s with
  | [] => (s, None)
  | out :: rest =>
      (mkHint (sh_node_id s) (session_id s) (remote_sources s) (remote_subscribers s) (local_sources s)
         (local_subscribers s) (next_hop s) rest, Some out)
  end.

Definition hint_should_clear (s : SourceHintLogic) : bool :=
  negb (nonempty (local_sources s)) && map_empty (remote_sources s) && negb (nonempty (local_subscribers s)) &&
  map_empty (remote_subscribers s).
End hint.

Arguments SourceHintLogic UserData : clear implicits.
Arguments HintOutput UserData : clear implicits.
