(* ===== verification/PubsubHintSpec.v ===== *)
(** * What the subscribers of a channel are told of its sources

    The subscribers of a channel on a node hear of its sources through the
    outputs of the source hint alone. Here: once the outputs are taken, each
    subscriber has been told exactly the sources the hint knows, and no one
    else keeps a subscription. *)

From S2P Require Import Prelude NodeId Base Neighbours PubsubMsg PubsubHint.

Section spec.
Context {UserData : Type} `{EqDecision UserData}.
Abbreviation Actor := (FeatureControlActor UserData) (only parsing).
Implicit Types (h : SourceHintLogic UserData) (order : HashOrder).

(** Who subscribes to what, and what an output changes. *)
Abbreviation Subscriptions := (Actor → NodeId → bool) (only parsing).

Definition tell (subs : Subscriptions) (out : HintOutput UserData) : Subscriptions := λ a s,
  match out with
  | SubscribeSource actors source => if bool_decide (s = source ∧ a ∈ actors) then true else subs a s
  | UnsubscribeSource actors source => if bool_decide (s = source ∧ a ∈ actors) then false else subs a s
  | SendRemote _ _ => subs a s
  end.

Definition tell_all (subs : Subscriptions) (outs : list (HintOutput UserData)) : Subscriptions := foldl tell subs outs.

Lemma tell_all_app (subs : Subscriptions) o1 o2 : tell_all subs (o1 ++ o2) = tell_all (tell_all subs o1) o2.
Proof. apply foldl_app. Qed.

Definition is_source h (s : NodeId) : Prop := is_Some (remote_sources h !! s) ∨ (s = sh_node_id h ∧ local_sources h ≠ []).

(** The abstract state: the subscribers times the sources. *)
Definition informed h (subs : Subscriptions) : Prop :=
  ∀ a s, subs a s = true ↔ a ∈ local_subscribers h ∧ is_source h s.

Record hint_ok h : Prop := {
  ok_remote : remote_sources h !! sh_node_id h = None;
  ok_sources : NoDup (local_sources h);
  ok_subscribers : NoDup (local_subscribers h);
}.

Definition advances h h' : Prop :=
  hint_ok h → hint_ok h' ∧ ∃ outs, sh_queue h' = sh_queue h ++ outs ∧ ∀ subs, informed h subs → informed h' (tell_all subs outs).

#[global] Instance advances_preorder : PreOrder advances.
Proof.
  split.
  - intros h Hok. split; [done|]. exists []. by rewrite app_nil_r.
  - intros h1 h2 h3 H12 H23 Hok. destruct (H12 Hok) as (Hok2 & o1 & Hq1 & Hi1). destruct (H23 Hok2) as (Hok3 & o2 & Hq2 & Hi2).
    split; [done|]. exists (o1 ++ o2). split; [by rewrite Hq2, Hq1, app_assoc|].
    intros subs Hs. rewrite tell_all_app. by apply Hi2, Hi1.
Qed.

(** ** Outputs that tell the subscribers nothing *)

Definition is_send (out : HintOutput UserData) : Prop := match out with SendRemote _ _ => True | _ => False end.

Lemma tell_sends outs (subs : Subscriptions) : Forall is_send outs → tell_all subs outs = subs.
Proof. intros Hs. revert subs. induction Hs as [|out outs Hout _ IH]; intros subs; [done|]. destruct out; [|done..]. apply IH. Qed.

Lemma to_subscribers_sends order h P hint : Forall is_send (to_subscribers order h P hint).
Proof. apply Forall_fmap, Forall_true. done. Qed.

Lemma push_sends h outs : Forall is_send outs → advances h (hint_push h outs).
Proof.
  intros Hs [H1 H2 H3]. split; [by split|]. exists outs. split; [done|]. intros subs Hi. by rewrite tell_sends.
Qed.

Lemma push_sends_if h (b : bool) outs : Forall is_send outs → advances h (if b then hint_push h outs else h).
Proof. intros. destruct b; [by apply push_sends|done]. Qed.

(** Changes of the parts the subscribers do not see. *)
Lemma advances_same h h' :
  sh_node_id h' = sh_node_id h → remote_sources h' = remote_sources h → local_sources h' = local_sources h →
  local_subscribers h' = local_subscribers h → sh_queue h' = sh_queue h → advances h h'.
Proof.
  intros E1 E2 E3 E4 E5 [H1 H2 H3]. split; [split; congruence|]. exists []. rewrite app_nil_r. split; [done|].
  intros subs Hi a s. unfold is_source. rewrite E1, E2, E3, E4. apply Hi.
Qed.

(** ** Sources that come and go *)

(** The subscribers of [h] are told of a source, in the outputs [outs]. *)
Lemma tell_notify (subs : Subscriptions) outs h h' s a x :
  local_subscribers h' = local_subscribers h → Forall is_send outs →
  (tell_all subs (outs ++ notify_subscribe h' s) a x = if bool_decide (x = s ∧ a ∈ local_subscribers h) then true else subs a x) ∧
  (tell_all subs (outs ++ notify_unsubscribe h' s) a x = if bool_decide (x = s ∧ a ∈ local_subscribers h) then false else subs a x).
Proof.
  intros <- Hs. rewrite !tell_all_app, (tell_sends _ _ Hs).
  unfold notify_subscribe, notify_unsubscribe. destruct (local_subscribers h') eqn:E; [|done]. cbn.
  split; (rewrite bool_decide_false; [done|]; by intros [_ ?%not_elem_of_nil]).
Qed.

(** A source appears: afterwards it is one, the others are as before. *)
Lemma source_appears h h' s outs :
  (∀ x, is_source h' x ↔ is_source h x ∨ x = s) → (hint_ok h → hint_ok h') → local_subscribers h' = local_subscribers h →
  Forall is_send outs → sh_queue h' = sh_queue h ++ outs ++ notify_subscribe h' s → advances h h'.
Proof.
  intros Hsrc Hok Hl Hs Hq Hh. split; [by apply Hok|]. eexists. split; [exact Hq|]. intros subs Hi a x.
  destruct (tell_notify subs outs h h' s a x Hl Hs) as [-> _]. rewrite Hsrc, Hl. case_bool_decide as Hd; [tauto|].
  rewrite (Hi a x). naive_solver.
Qed.

Lemma source_leaves h h' s outs :
  (hint_ok h → ∀ x, is_source h' x ↔ is_source h x ∧ x ≠ s) → (hint_ok h → hint_ok h') → local_subscribers h' = local_subscribers h →
  Forall is_send outs → sh_queue h' = sh_queue h ++ outs ++ notify_unsubscribe h' s → advances h h'.
Proof.
  intros Hsrc Hok Hl Hs Hq Hh. split; [by apply Hok|]. eexists. split; [exact Hq|]. intros subs Hi a x.
  destruct (tell_notify subs outs h h' s a x Hl Hs) as [_ ->]. rewrite (Hsrc Hh), Hl. case_bool_decide as Hd; [naive_solver|].
  rewrite (Hi a x). naive_solver.
Qed.

(** A known source is refreshed: nothing changes. *)
Lemma source_known h m : (∀ x, is_Some (m !! x) ↔ is_Some (remote_sources h !! x)) → advances h (with_sources h m).
Proof.
  intros Hm [H1 H2 H3]. split; [split; [|done..]|].
  - cbn. apply eq_None_not_Some. rewrite Hm, H1. by intros [].
  - exists []. rewrite app_nil_r. split; [done|]. intros subs Hi a x. unfold is_source. cbn. rewrite Hm. apply Hi.
Qed.

(** One source learned from the network: the subscribers are told when it is new. *)
Lemma learn_advances h s now outs :
  s ≠ sh_node_id h → Forall is_send outs →
  let h1 := with_sources h (<[s := now]> (remote_sources h)) in
  advances h (match remote_sources h !! s with None => hint_push h1 (outs ++ notify_subscribe h1 s) | Some _ => h1 end).
Proof.
  intros Hne Hs. cbn zeta. destruct (remote_sources h !! s) as [t|] eqn:Hlk.
  - apply source_known. intros x. rewrite lookup_insert_is_Some'. naive_solver.
  - apply (source_appears h _ s outs); [| |done..].
    + intros x. unfold is_source. cbn. rewrite lookup_insert_is_Some'. naive_solver.
    + intros [H1 H2 H3]. split; cbn; [|done..]. by rewrite lookup_insert_ne.
Qed.

(** One source forgotten. *)
Lemma expire_source_advances h s : s ≠ sh_node_id h → advances h (expire_source h s).
Proof.
  intros Hne. apply (source_leaves h _ s []); [| |done|constructor|done].
  - intros _ x. unfold is_source. cbn. rewrite lookup_delete_is_Some. naive_solver.
  - intros [H1 H2 H3]. split; cbn; [|done..]. by rewrite lookup_delete_ne.
Qed.

Lemma foldl_advances {A} (step : SourceHintLogic UserData → A → SourceHintLogic UserData) (P : SourceHintLogic UserData → A → Prop) l :
  (∀ h x, P h x → advances h (step h x)) → (∀ h x y, P h y → P (step h x) y) →
  ∀ h, (∀ x, x ∈ l → P h x) → advances h (foldl step h l).
Proof.
  intros Hstep Hkeep. induction l as [|x l IH]; intros h HP; [done|]. cbn. etrans; [apply Hstep, HP; left|].
  apply IH. intros y Hy. apply Hkeep, HP. by right.
Qed.

Lemma expire_subscriber_advances h r : advances h (expire_subscriber h r).
Proof.
  unfold expire_subscriber. etrans; [by apply (advances_same h (with_subscribers h (delete r (remote_subscribers h))))|].
  destruct (_ && _); [|done]. apply push_sends. by apply Forall_singleton.
Qed.

(** ** The operations *)

Lemma hint_on_tick_advances order h now : advances h (hint_on_tick order h now).
Proof.
  unfold hint_on_tick. cbv zeta.
  set (h1 := foldl expire_subscriber h (timed_out order (remote_subscribers h) now)).
  trans h1; [apply (foldl_advances expire_subscriber (λ _ _, True)); auto using expire_subscriber_advances|].
  assert (advances h1 (foldl expire_source h1 (timed_out order (remote_sources h1) now))) as H1.
  { intros Hok. apply (foldl_advances expire_source (λ h x, x ≠ sh_node_id h)); auto using expire_source_advances.
    intros x Hx Heq. unfold timed_out in Hx. apply list_elem_of_fmap in Hx as ([y t] & Hy & [_ Hin]%list_elem_of_filter).
    apply elem_of_hash_iter in Hin. cbn in Hin, Hy. destruct Hok as [Hr _ _]. congruence. }
  etrans; [exact H1|]. generalize (foldl expire_source h1 (timed_out order (remote_sources h1) now)). intros h2.
  etrans; [|apply push_sends_if; by apply Forall_singleton].
  apply push_sends_if. apply Forall_cons. split; [done|]. apply to_subscribers_sends.
Qed.

Lemma elem_of_sources order h x : x ∈ sources order h ↔ is_source h x.
Proof.
  unfold sources, is_source. rewrite elem_of_app. split; (intros [Hx|Hx]; [left|right]).
  - apply list_elem_of_fmap in Hx as ([y t] & -> & Hin%elem_of_hash_iter). eauto.
  - destruct (local_sources h); [by apply not_elem_of_nil in Hx|]. by apply list_elem_of_singleton in Hx as ->.
  - destruct Hx as [t Hx]. apply list_elem_of_fmap. exists (x, t). by rewrite elem_of_hash_iter.
  - destruct Hx as [-> Hl]. destruct (local_sources h); [done|]. by apply list_elem_of_singleton.
Qed.

Lemma tell_sources (subs : Subscriptions) actor srcs a x :
  (tell_all subs (SubscribeSource [actor] <$> srcs) a x = if bool_decide (a = actor ∧ x ∈ srcs) then true else subs a x) ∧
  (tell_all subs (UnsubscribeSource [actor] <$> srcs) a x = if bool_decide (a = actor ∧ x ∈ srcs) then false else subs a x).
Proof.
  revert subs. induction srcs as [|s srcs IH]; intros subs.
  { split; (rewrite bool_decide_false; [done|]; by intros [_ ?%not_elem_of_nil]). }
  split; cbn [fmap list_fmap]; unfold tell_all; cbn [foldl]; [rewrite (proj1 (IH _))|rewrite (proj2 (IH _))]; cbn [tell];
    repeat case_bool_decide; try done; exfalso; set_solver.
Qed.

(** What [sources] says of a hint with other subscribers. *)
Lemma is_source_subscribers h l x : is_source (with_local_subscribers h l) x ↔ is_source h x.
Proof. done. Qed.

Lemma subscribe_advances order h actor outs :
  actor ∉ local_subscribers h → Forall is_send outs →
  let h1 := with_local_subscribers h (local_subscribers h ++ [actor]) in
  advances h (hint_push h1 (outs ++ (SubscribeSource [actor] <$> sources order h))).
Proof.
  intros Hni Hs h1 [H1 H2 H3]. split; [split; cbn; [done..|]|].
  { apply NoDup_app. split_and!; [done| |apply NoDup_singleton]. by intros x Hx ->%list_elem_of_singleton. }
  eexists. split; [done|]. intros subs Hi a x. rewrite tell_all_app, (tell_sends outs subs Hs).
  rewrite (proj1 (tell_sources subs actor (sources order h) a x)). cbn [local_subscribers h1 with_local_subscribers hint_push].
  rewrite elem_of_app, list_elem_of_singleton. change (is_source (hint_push h1 _) x) with (is_source h x).
  case_bool_decide as Hd; rewrite elem_of_sources in Hd; [naive_solver|]. rewrite (Hi a x). naive_solver.
Qed.

Lemma unsubscribe_advances order h actor outs :
  Forall is_send outs →
  let h1 := with_local_subscribers h (vec_remove actor (local_subscribers h)) in
  advances h (hint_push h1 (outs ++ (UnsubscribeSource [actor] <$> sources order h))).
Proof.
  intros Hs h1 [H1 H2 H3]. split; [split; cbn; auto with sdn|].
  eexists. split; [done|]. intros subs Hi a x. rewrite tell_all_app, (tell_sends outs subs Hs).
  rewrite (proj2 (tell_sources subs actor (sources order h) a x)). cbn [local_subscribers h1 with_local_subscribers hint_push].
  rewrite elem_of_vec_remove by done. change (is_source (hint_push h1 _) x) with (is_source h x).
  case_bool_decide as Hd; rewrite elem_of_sources in Hd; [naive_solver|]. rewrite (Hi a x). naive_solver.
Qed.

Lemma local_sources_advances h l : (l = [] ↔ local_sources h = []) → (hint_ok h → NoDup l) → advances h (with_local_sources h l).
Proof.
  intros Hl Hnd Hok. split; [destruct Hok as [H1 H2 H3]; split; cbn; auto; apply Hnd; by split|].
  exists []. rewrite app_nil_r. split; [done|]. intros subs Hi a x. unfold is_source. cbn. rewrite Hl. apply Hi.
Qed.

(** [position] and [swap_remove] together are [vec_remove]. *)
Lemma position_remove {A} `{EqDecision A} (x y : A) l i : list_find (x =.) l = Some (i, y) → swap_remove l i = vec_remove x l ∧ x ∈ l.
Proof.
  intros Hf. split; [unfold vec_remove; by rewrite Hf|]. apply list_find_Some in Hf as (Hi & -> & _). by eapply list_elem_of_lookup_2.
Qed.

Lemma hint_push_push h o1 o2 : hint_push (hint_push h o1) o2 = hint_push h (o1 ++ o2).
Proof. unfold hint_push. cbn. by rewrite app_assoc. Qed.

Lemma hint_push_if h (b : bool) outs : (if b then hint_push h outs else h) = hint_push h (if b then outs else []).
Proof. destruct b, h; cbn; [done|]. unfold hint_push. cbn. by rewrite app_nil_r. Qed.

Lemma notify_sources order h (f : NodeId → HintOutput UserData) :
  (f <$> (hash_iter (remote_sources h)).*1) ++ (if nonempty (local_sources h) then [f (sh_node_id h)] else []) = f <$> sources order h.
Proof. unfold sources. rewrite fmap_app. by destruct (nonempty _). Qed.

(** The first source of the node, and the last one. *)
Lemma register_advances order h actor :
  local_sources h = [] →
  let h1 := with_local_sources h [actor] in
  advances h (hint_on_local order h actor LRegister).
Proof.
  intros Hl h1. cbn [hint_on_local]. rewrite Hl. rewrite bool_decide_false by apply not_elem_of_nil. cbn [app length].
  change (length (local_sources (with_local_sources h [actor])) =? 1)%nat with true. cbn [andb].
  apply (source_appears h _ (sh_node_id h)
    ((if map_empty (remote_sources h) then [SendRemote None (HintRegister (sh_node_id h) true)] else []) ++
     to_subscribers order h (λ _, true) (HintRegister (sh_node_id h) false))).
  - intros x. unfold is_source. rewrite Hl. destruct (map_empty _); cbn; naive_solver.
  - intros [H1 H2 H3]. destruct (map_empty _); (split; cbn; [done|apply NoDup_singleton|done]).
  - by destruct (map_empty _).
  - apply Forall_app. split; [|apply to_subscribers_sends]. destruct (map_empty _); [by apply Forall_singleton|constructor].
  - cbn [remote_sources with_local_sources]. destruct (map_empty (remote_sources h)); cbn; by rewrite <- ?app_assoc.
Qed.

Lemma unregister_advances order h actor :
  actor ∈ local_sources h → vec_remove actor (local_sources h) = [] → advances h (hint_on_local order h actor LUnregister).
Proof.
  intros Hin Hl. cbn [hint_on_local].
  destruct (list_find (actor =.) (local_sources h)) as [[i y]|] eqn:Hf.
  2: { apply list_find_None in Hf. rewrite Forall_forall in Hf. by destruct (Hf actor Hin). }
  destruct (position_remove _ _ _ _ Hf) as [-> _]. rewrite Hl. cbv zeta. cbn [nonempty local_sources with_local_sources negb andb].
  apply (source_leaves h _ (sh_node_id h)
    ((if map_empty (remote_sources h) then [SendRemote None (HintUnregister (sh_node_id h) true)] else []) ++
     to_subscribers order h (λ _, true) (HintUnregister (sh_node_id h) false))).
  - intros [H1 _ _] x. unfold is_source.
    assert (local_sources h ≠ []) by (intros Heq; rewrite Heq in Hin; by apply not_elem_of_nil in Hin).
    destruct (map_empty _); cbn; (split; [|naive_solver]); intros [Hx|[_ ?]]; try done; (split; [by left|]); intros ->; rewrite H1 in Hx; by destruct Hx.
  - intros [H1 H2 H3]. destruct (map_empty _); (split; cbn; [done|constructor|done]).
  - by destruct (map_empty _).
  - apply Forall_app. split; [|apply to_subscribers_sends]. destruct (map_empty _); [by apply Forall_singleton|constructor].
  - cbn [remote_sources with_local_sources]. destruct (map_empty (remote_sources h)); cbn; by rewrite <- ?app_assoc.
Qed.

Lemma hint_on_local_advances order h actor cmd : advances h (hint_on_local order h actor cmd).
Proof.
  destruct cmd.
  - destruct (local_sources h) as [|y l] eqn:Hl; [by apply register_advances|]. cbn [hint_on_local]. case_bool_decide as Hin; [done|].
    cbn [local_sources with_local_sources]. rewrite Hl. cbn [app length]. rewrite length_app. cbn [length].
    replace (S (length l + 1) =? 1)%nat with false by (symmetry; apply Nat.eqb_neq; lia). cbn [andb].
    apply (local_sources_advances h ((y :: l) ++ [actor])); [by rewrite Hl|].
    intros [_ Hnd _]. rewrite Hl in *. apply NoDup_app. split_and!; [done| |apply NoDup_singleton]. by intros x Hx ->%list_elem_of_singleton.
  - destruct (list_find (actor =.) (local_sources h)) as [[i y]|] eqn:Hf; [|cbn; by rewrite Hf].
    destruct (position_remove _ _ _ _ Hf) as [Hsw Hin].
    destruct (vec_remove actor (local_sources h)) as [|z l] eqn:Hv; [by apply unregister_advances|].
    cbn [hint_on_local]. rewrite Hf, Hsw. cbn [nonempty local_sources with_local_sources negb andb]. apply local_sources_advances.
    + split; [done|]. intros Heq. rewrite Heq in Hin. by apply not_elem_of_nil in Hin.
    + intros [_ Hnd _]. rewrite <- Hv. by apply NoDup_vec_remove.
  - cbn [hint_on_local]. case_bool_decide as Hin; [done|]. cbv zeta.
    rewrite hint_push_if, hint_push_push. cbn [remote_sources local_sources sh_node_id with_local_subscribers hint_push].
    rewrite (notify_sources order h (SubscribeSource [actor])). apply (subscribe_advances order h actor); [done|].
    destruct (_ && _); [by apply Forall_singleton|constructor].
  - cbn [hint_on_local]. destruct (list_find (actor =.) (local_subscribers h)) as [[i y]|] eqn:Hf; [|done].
    destruct (position_remove _ _ _ _ Hf) as [-> _]. cbv zeta.
    rewrite hint_push_if, hint_push_push. cbn [remote_sources local_sources sh_node_id with_local_subscribers hint_push].
    rewrite (notify_sources order h (UnsubscribeSource [actor])). apply (unsubscribe_advances order h actor).
    destruct (_ && _); [by apply Forall_singleton|constructor].
Qed.

Lemma hint_on_remote_advances order h now remote cmd : advances h (hint_on_remote order h now remote cmd).
Proof.
  destruct cmd as [s to_root|s to_root|session|session|session|session|srcs]; cbn [hint_on_remote].
  - destruct (Z.eqb_spec s (sh_node_id h)) as [|Hne]; [done|]. destruct (_ && _); [done|]. cbv zeta.
    rewrite hint_push_if, hint_push_push. set (outs := (if to_root then _ else _) ++ _).
    assert (Forall is_send outs) as Hs by (apply Forall_app; split; [destruct to_root; [by apply Forall_singleton|constructor]|apply to_subscribers_sends]).
    etrans; [by apply (push_sends h outs)|]. apply (learn_advances (hint_push h outs) s now []); [done|constructor].
  - destruct (Z.eqb_spec s (sh_node_id h)) as [|Hne]; [done|]. destruct (_ && _); [done|]. cbv zeta.
    rewrite hint_push_if, hint_push_push. set (outs := (if to_root then _ else _) ++ _).
    assert (Forall is_send outs) as Hs by (apply Forall_app; split; [destruct to_root; [by apply Forall_singleton|constructor]|apply to_subscribers_sends]).
    etrans; [by apply (push_sends h outs)|]. destruct (remote_sources _ !! s); [|done]. by apply (expire_source_advances (hint_push h outs)).
  - cbv zeta. etrans; [by apply (advances_same h (with_subscribers h (<[remote := now]> (remote_subscribers h))))|].
    destruct (remote_subscribers h !! remote); [by apply push_sends, Forall_singleton|].
    etrans; [|apply push_sends_if; by apply Forall_singleton]. etrans; [|apply push_sends_if; by apply Forall_singleton].
    by apply push_sends, Forall_singleton.
  - destruct (_ =? _); [by apply advances_same|done].
  - destruct (remote_subscribers h !! remote); [|by apply push_sends, Forall_singleton]. cbv zeta.
    etrans; [by apply (advances_same h (with_subscribers h (delete remote (remote_subscribers h))))|].
    etrans; [|apply push_sends_if; by apply Forall_singleton]. by apply push_sends, Forall_singleton.
  - destruct (_ =? _); [by apply advances_same|done].
  - apply (foldl_advances _ (λ _ _, True)); [|done..]. intros h1 s _. unfold learn_source.
    destruct (Z.eqb_spec s (sh_node_id h1)) as [|Hne]; [done|]. apply learn_advances; [done|]. apply to_subscribers_sends.
Qed.

(** ** All histories *)

(** The inputs of a hint, and its outputs as the controller takes them. *)
Inductive hint_step : SourceHintLogic UserData * Subscriptions → SourceHintLogic UserData * Subscriptions → Prop :=
| hint_ticks order now h subs : hint_step (h, subs) (hint_on_tick order h now, subs)
| hint_locals order actor cmd h subs : hint_step (h, subs) (hint_on_local order h actor cmd, subs)
| hint_remotes order now remote cmd h subs : hint_step (h, subs) (hint_on_remote order h now remote cmd, subs)
| hint_pops h h' out subs : hint_pop_output h = (h', Some out) → hint_step (h, subs) (h', tell subs out).

Lemma reachable_informed n session x :
  rtc hint_step (hint_new n session, λ _ _, false) x → hint_ok x.1 ∧ informed x.1 (tell_all x.2 (sh_queue x.1)).
Proof.
  assert (∀ h h' subs, advances h h' → hint_ok h ∧ informed h (tell_all subs (sh_queue h)) →
            hint_ok h' ∧ informed h' (tell_all subs (sh_queue h'))) as Hadv.
  { intros h h' subs Ha [Hok Hi]. destruct (Ha Hok) as (Hok' & outs & -> & Hi'). split; [done|]. rewrite tell_all_app. by apply Hi'. }
  apply (rtc_ind_r (λ x, hint_ok x.1 ∧ informed x.1 (tell_all x.2 (sh_queue x.1)))).
  - split; [split; constructor|]. intros a s. unfold is_source. cbn. rewrite lookup_empty. split; [done|]. by intros [?%not_elem_of_nil _].
  - intros x1 x2 _ [order now h subs|order actor cmd h subs|order now remote cmd h subs|h h' out subs Hp]; cbn [fst snd].
    + by apply Hadv, hint_on_tick_advances.
    + by apply Hadv, hint_on_local_advances.
    + by apply Hadv, hint_on_remote_advances.
    + unfold hint_pop_output in Hp. destruct (sh_queue h) as [|o q] eqn:Hq; simplify_eq. intros [[H1 H2 H3] Hi]. split; [by split|done].
Qed.

(** C18. Whatever the node and its neighbours do in whatever order, once the
    outputs of the hint are taken an actor is subscribed to a source exactly
    when it subscribes to the channel and the source is one of [sources]: no
    subscriber misses a source, keeps one that left, or stays subscribed after
    it unsubscribed. *)
Theorem subscribers_know_sources order n session h subs :
  rtc hint_step (hint_new n session, λ _ _, false) (h, subs) → sh_queue h = [] →
  ∀ a s, subs a s = true ↔ a ∈ local_subscribers h ∧ s ∈ sources order h.
Proof.
  intros [_ Hi]%reachable_informed Hq a s. cbn [fst snd] in Hi. rewrite Hq in Hi. rewrite elem_of_sources. apply Hi.
Qed.
End spec.

Definition demo_hint_pair : NetPair := mkNetPair (SocketV4 1 10000) (SocketV4 2 10000).

Lemma subscribers_know_sources_witness :
  ∃ h subs, rtc hint_step (hint_new (UserData := Z) 1 0, λ _ _, false) (h, subs) ∧
    subs (ActorController 1) 5 = true ∧ subs (ActorController 1) 6 = false.
Proof.
  assert (∃ h subs, rtc hint_step (hint_new (UserData := Z) 1 0, λ _ _, false) (h, subs) ∧ sh_queue h = [] ∧
    local_subscribers h = [ActorController 1] ∧ sources canonical_order h = [5]) as (h & subs & Hr & Hq & Hl & Hs).
  { eexists _, _. split.
    - eapply rtc_l; [apply (hint_locals canonical_order (ActorController 1) LSubscribe)|].
      eapply rtc_l; [apply (hint_remotes canonical_order 7 demo_hint_pair (HintRegister 5 true))|].
      eapply rtc_l; [eapply hint_pops; vm_compute; reflexivity|].
      eapply rtc_l; [eapply hint_pops; vm_compute; reflexivity|].
      eapply rtc_l; [eapply hint_pops; vm_compute; reflexivity|].
      apply rtc_refl.
    - by vm_compute. }
  pose proof (subscribers_know_sources canonical_order 1 0 h subs Hr Hq (ActorController 1)) as Hk.
  rewrite Hl, Hs in Hk. exists h, subs. split; [done|]. split; [apply Hk; split; left|].
  destruct (subs (ActorController 1) 6) eqn:E; [|done]. apply Hk in E as [_ ?%list_elem_of_singleton]. done.
Defined.
