(* ===== verification/Pubsub.v ===== *)
(** * The publish/subscribe feature ([features/pubsub/controller.rs], [features/pubsub/worker.rs])

    The controller keeps the relays and the source hints of a node and tells
    the workers how to pass data on; a worker keeps one entry per relay and
    moves the data. *)

From S2P Require Import Prelude NodeId ConnId Route Msg Base Neighbours PubsubMsg PubsubRelay PubsubHint.

(** ** The controller *)

Section feature.
Context {UserData : Type} `{EqDecision UserData} {Addr Secure : Type}.

Abbreviation Actor := (FeatureControlActor UserData) (only parsing).
Abbreviation Relay := (GenericRelay UserData) (only parsing).
Abbreviation Output := (FeatureOutput UserData Event (ToWorker UserData) Addr) (only parsing).

Record PubSubFeature := mkPubSub {
  ps_relays : gmap RelayId Relay;
  source_hints : gmap ChannelId (SourceHintLogic UserData);
  ps_queue : list Output;
  ps_shutdown : bool;
}.

Definition pubsub_new : PubSubFeature := mkPubSub ∅ ∅ [] false.

Definition with_relays (self : PubSubFeature) (m : gmap RelayId Relay) : PubSubFeature :=
  mkPubSub m (source_hints self) (ps_queue self) (ps_shutdown self).
Definition with_hints (self : PubSubFeature) (m : gmap ChannelId (SourceHintLogic UserData)) : PubSubFeature :=
  mkPubSub (ps_relays self) m (ps_queue self) (ps_shutdown self).
Definition ps_push (self : PubSubFeature) (outs : list Output) : PubSubFeature :=
  mkPubSub (ps_relays self) (source_hints self) (ps_queue self ++ outs) (ps_shutdown self).

Definition get_relay (ctx : FeatureContext) (self : PubSubFeature) (relay_id : RelayId) (auto_create : bool)
    : PubSubFeature * option Relay :=
  match ps_relays self !! relay_id with
  | Some relay => (self, Some relay)
  | None =>
      if auto_create then
        let relay := if fctx_node_id ctx =? relay_id.2 then LocalR local_relay_default
                     else RemoteR (remote_relay_new (fctx_session ctx)) in
        (with_relays self (<[relay_id := relay]> (ps_relays self)), Some relay)
      else (self, None)
  end.

Definition get_source_hint (ctx : FeatureContext) (self : PubSubFeature) (channel : ChannelId) (auto_create : bool)
    : PubSubFeature * option (SourceHintLogic UserData) :=
  match source_hints self !! channel with
  | Some sh => (self, Some sh)
  | None =>
      if auto_create then
        let sh := hint_new (fctx_node_id ctx) (fctx_session ctx) in
        (with_hints self (<[channel := sh]> (source_hints self)), Some sh)
      else (self, None)
  end.

(** What one output of a relay becomes. *)
Definition relay_output (relay_id : RelayId) (out : GenericRelayOutput UserData) : list Output :=
  match out with
  | GToWorker control => [OutToWorker true (ToWRelayControl relay_id control)]
  | GRouteChanged actor => [OutEvent actor (relay_id.1, EvRouteChanged relay_id.2)]
  | GFeedback actors fb => (λ actor, OutEvent actor (relay_id.1, EvFeedbackData fb)) <$> actors
  end.

(** Store a relay after [pop_single_relay] took all its outputs
    ([relay_pop_output_drains]). *)
Definition pop_single_relay (self : PubSubFeature) (relay_id : RelayId) (relay : Relay) : PubSubFeature :=
  ps_push (with_relays self (<[relay_id := relay_drained relay]> (ps_relays self)))
    (relay_outputs relay ≫= relay_output relay_id).

(** [if relay.should_clear() { self.relays.remove(&relay_id); }] *)
Definition clear_relay (self : PubSubFeature) (relay_id : RelayId) (relay : Relay) : PubSubFeature :=
  if relay_should_clear relay then with_relays self (delete relay_id (ps_relays self)) else self.

Definition on_sub_source (ctx : FeatureContext) (self : PubSubFeature) (actor : Actor) (channel : ChannelId) (source : NodeId)
    : outcome PubSubFeature :=
  let '(self, r) := get_relay ctx self (channel, source) true in
  relay ← expect r;
  Done (pop_single_relay self (channel, source) (relay_on_local_sub relay actor)).

Definition on_unsub_source (self : PubSubFeature) (now : Z) (actor : Actor) (channel : ChannelId) (source : NodeId)
    : PubSubFeature :=
  match ps_relays self !! (channel, source) with
  | Some relay =>
      let relay := relay_on_local_unsub relay now actor in
      clear_relay (pop_single_relay self (channel, source) relay) (channel, source) relay
  | None => self
  end.

(** One output of a source hint. *)
Definition hint_output (ctx : FeatureContext) (now : Z) (channel : ChannelId) (self : PubSubFeature)
    (out : HintOutput UserData) : outcome PubSubFeature :=
  match out with
  | SendRemote dest control => Done (ps_push self [OutToWorker true (ToWSourceHint channel dest control)])
  | SubscribeSource actors source => foldM (λ self actor, on_sub_source ctx self actor channel source) self actors
  | UnsubscribeSource actors source => Done (foldl (λ self actor, on_unsub_source self now actor channel source) self actors)
  end.

(** The loop of [pop_single_source_hint]; a run that needs more iterations
    than [fuel] counts as a panic. *)
Fixpoint pop_hint_loop (fuel : nat) (ctx : FeatureContext) (now : Z) (channel : ChannelId) (self : PubSubFeature)
    : outcome PubSubFeature :=
  match fuel with
  | O => Panic
  | S fuel =>
      sh ← expect (source_hints self !! channel);
      match hint_pop_output sh with
      | (sh, Some out) =>
          self ← hint_output ctx now channel (with_hints self (<[channel := sh]> (source_hints self))) out;
          pop_hint_loop fuel ctx now channel self
      | (_, None) => Done self
      end
  end.

(** One iteration per queued output and the last one, which finds none. *)
Definition pop_single_source_hint (ctx : FeatureContext) (self : PubSubFeature) (now : Z) (channel : ChannelId)
    : outcome PubSubFeature :=
  let queued := match source_hints self !! channel with Some sh => length (sh_queue sh) | None => 0%nat end in
  pop_hint_loop (S queued) ctx now channel self.

(** A local command to a source hint, with its outputs. *)
Definition hint_local (order : HashOrder) (ctx : FeatureContext) (self : PubSubFeature) (now : Z) (actor : Actor)
    (channel : ChannelId) (sh : SourceHintLogic UserData) (cmd : LocalCmd) : outcome PubSubFeature :=
  pop_single_source_hint ctx
    (with_hints self (<[channel := hint_on_local order sh actor cmd]> (source_hints self))) now channel.

Definition on_local (order : HashOrder) (ctx : FeatureContext) (self : PubSubFeature) (now : Z) (actor : Actor)
    (channel : ChannelId) (control : ChannelControl) : outcome PubSubFeature :=
  let relay_id := (channel, fctx_node_id ctx) in
  match control with
  | SubAuto =>
      let '(self, sh) := get_source_hint ctx self channel true in
      sh ← expect sh;
      hint_local order ctx self now actor channel sh LSubscribe
  | UnsubAuto =>
      match get_source_hint ctx self channel false with
      | (self, Some sh) => hint_local order ctx self now actor channel sh LUnsubscribe
      | (self, None) => Done self
      end
  | PubStart =>
      let '(self, r) := get_relay ctx self relay_id true in
      relay ← expect r;
      relay ← relay_on_pub_start relay actor;
      let '(self, sh) := get_source_hint ctx (pop_single_relay self relay_id relay) channel true in
      sh ← expect sh;
      hint_local order ctx self now actor channel sh LRegister
  | PubStop =>
      self ← match ps_relays self !! relay_id with
             | Some relay => relay ← relay_on_pub_stop relay actor; Done (pop_single_relay self relay_id relay)
             | None => Done self
             end;
      match get_source_hint ctx self channel false with
      | (self, Some sh) => hint_local order ctx self now actor channel sh LUnregister
      | (self, None) => Done self
      end
  | SubSource source => on_sub_source ctx self actor channel source
  | FeedbackAuto fb =>
      match get_source_hint ctx self channel false with
      | (self, Some sh) =>
          foldM (λ self source,
                   let '(self, r) := get_relay ctx self (channel, source) true in
                   relay ← expect r;
                   Done (pop_single_relay self (channel, source) (relay_on_local_feedback relay now actor fb)))
            self (sources order sh)
      | (self, None) => Done self
      end
  | UnsubSource source => Done (on_unsub_source self now actor channel source)
  | PubData data =>
      match ps_relays self !! relay_id with
      | Some relay =>
          match relay_dests relay with
          | Some (locals, has_remote) =>
              Done (ps_push self
                (((λ l, OutEvent l (channel, EvSourceData (fctx_node_id ctx) data)) <$> locals) ++
                 (if has_remote : bool then [OutToWorker true (ToWRelayData relay_id data)] else [])))
          | None => Done self
          end
      | None => Done self
      end
  end.

Definition on_remote_relay_control (ctx : FeatureContext) (self : PubSubFeature) (now : Z) (remote : NetPair)
    (relay_id : RelayId) (control : RelayControl) : PubSubFeature :=
  match get_relay ctx self relay_id (relay_should_create control) with
  | (self, Some relay) =>
      let relay := relay_on_remote relay now remote control in
      clear_relay (pop_single_relay self relay_id relay) relay_id relay
  | (self, None) => self
  end.

Definition on_remote_source_hint_control (order : HashOrder) (ctx : FeatureContext) (self : PubSubFeature) (now : Z)
    (remote : NetPair) (channel : ChannelId) (control : SourceHint) : outcome PubSubFeature :=
  match get_source_hint ctx self channel (hint_should_create control) with
  | (self, Some sh) =>
      let sh := hint_on_remote order sh now remote control in
      self ← pop_single_source_hint ctx (with_hints self (<[channel := sh]> (source_hints self))) now channel;
      sh ← expect (source_hints self !! channel);
      Done (if hint_should_clear sh then with_hints self (delete channel (source_hints self)) else self)
  | (self, None) => Done self
  end.

(** The loops of a tick, for one relay and for one source hint. Relays and
    hints to clear are kept during a loop and removed after it. *)
Definition tick_relay (order : HashOrder) (now : Z) (acc : PubSubFeature * list RelayId) (e : RelayId * Relay)
    : PubSubFeature * list RelayId :=
  let '(self, clears) := acc in
  let '(relay_id, relay) := e in
  if relay_should_clear relay then (self, clears ++ [relay_id])
  else (pop_single_relay self relay_id (relay_on_tick order relay now), clears).

Definition tick_hint (order : HashOrder) (now : Z) (acc : PubSubFeature * list ChannelId * list ChannelId)
    (e : ChannelId * SourceHintLogic UserData) : PubSubFeature * list ChannelId * list ChannelId :=
  let '(self, clears, not_clears) := acc in
  let '(channel, sh) := e in
  if hint_should_clear sh then (self, clears ++ [channel], not_clears)
  else (with_hints self (<[channel := hint_on_tick order sh now]> (source_hints self)), clears, not_clears ++ [channel]).

Definition pubsub_on_tick (order : HashOrder) (ctx : FeatureContext) (self : PubSubFeature) (now : Z) : outcome PubSubFeature :=
  let '(self, clears) := foldl (tick_relay order now) (self, []) (hash_iter (ps_relays self)) in
  let self := with_relays self (remove_all clears (ps_relays self)) in
  let '(self, clears, not_clears) := foldl (tick_hint order now) (self, [], []) (hash_iter (source_hints self)) in
  let self := with_hints self (remove_all clears (source_hints self)) in
  foldM (λ self channel, pop_single_source_hint ctx self now channel) self not_clears.

Definition pubsub_on_shared_input (order : HashOrder) (ctx : FeatureContext) (self : PubSubFeature) (now : Z)
    (input : FeatureSharedInput Secure) : outcome PubSubFeature :=
  match input with
  | Tick _ => pubsub_on_tick order ctx self now
  | Connection (Disconnected c) =>
      Done (foldl (λ self e, pop_single_relay self e.1 (relay_disconnected e.2 now (ctx_pair c))) self
              (hash_iter (ps_relays self)))
  | Connection _ => Done self
  end.

Definition pubsub_on_input (order : HashOrder) (ctx : FeatureContext) (self : PubSubFeature) (now_ms : Z)
    (input : FeatureInput UserData Control ToController) : outcome PubSubFeature :=
  match input with
  | FromWorker (ToCRelayControl remote relay_id control) =>
      Done (on_remote_relay_control ctx self now_ms remote relay_id control)
  | FromWorker (ToCSourceHint remote channel control) =>
      on_remote_source_hint_control order ctx self now_ms remote channel control
  | FControl actor (channel, control) => on_local order ctx self now_ms actor channel control
  | FNet _ _ _ | FLocal _ _ => Panic
  end.

Definition pubsub_on_shutdown (self : PubSubFeature) : PubSubFeature :=
  mkPubSub (ps_relays self) (source_hints self) (ps_queue self) true.

Definition pubsub_is_empty (self : PubSubFeature) : bool :=
  ps_shutdown self && match ps_queue self with [] => true | _ => false end.

Definition pubsub_pop_output (self : PubSubFeature) : PubSubFeature * option Output :=
  match ps_queue self with
  | [] => (self, None)
  | out :: rest => (mkPubSub (ps_relays self) (source_hints self) rest (ps_shutdown self), Some out)
  end.
End feature.

Arguments PubSubFeature UserData Addr : clear implicits.

(** ** The workers *)

Section worker.
Context {UserData : Type} `{EqDecision UserData} {msg_codec : Codec PubsubMessage}.
Context {T : Type} `{RouterTable T NetPair}.

Abbreviation Actor := (FeatureControlActor UserData) (only parsing).
Abbreviation WorkerOutput := (FeatureWorkerOutput UserData Control Event ToController) (only parsing).

Record WorkerRelay := mkWorkerRelay {
  wr_source : option NetPair;
  wr_locals : list Actor;
  wr_remotes : list NetPair;
  wr_remotes_uuid : gmap NetPair Z;
}.

Definition worker_relay_empty : WorkerRelay := mkWorkerRelay None [] [] ∅.

Definition wr_is_empty (r : WorkerRelay) : bool :=
  match wr_locals r, wr_remotes r with [], [] => true | _, _ => false end.

Record PubSubFeatureWorker := mkPubSubWorker {
  pw_relays : gmap RelayId WorkerRelay;
  pw_queue : list WorkerOutput;
  pw_shutdown : bool;
}.

Definition pubsub_worker_default : PubSubFeatureWorker := mkPubSubWorker ∅ [] false.

(** [FeatureWorkerContext] *)
Record FeatureWorkerContext := mkWorkerContext { wctx_node_id : NodeId; wctx_router : T }.

Definition pw_push (self : PubSubFeatureWorker) (outs : list WorkerOutput) : PubSubFeatureWorker :=
  mkPubSubWorker (pw_relays self) (pw_queue self ++ outs) (pw_shutdown self).

Definition send_to (dest : NetPair) (msg : PubsubMessage) : WorkerOutput := WOutRawDirect2 dest (pubsub_into msg).
Definition send_all (dests : list NetPair) (msg : PubsubMessage) : list WorkerOutput :=
  match dests with [] => [] | _ => [WOutRawBroadcast2 dests (pubsub_into msg)] end.

(** Data of a relay: an event for every local consumer, one broadcast to the
    remote ones. *)
Definition relay_data (relay_id : RelayId) (relay : WorkerRelay) (data : Buffer) : list WorkerOutput :=
  ((λ actor, WOutEvent actor (relay_id.1, EvSourceData relay_id.2 data)) <$> wr_locals relay) ++
  send_all (wr_remotes relay) (PubsubData relay_id data).

Definition worker_on_network_raw (self : PubSubFeatureWorker) (remote : NetPair) (buf : Buffer) : PubSubFeatureWorker :=
  match pubsub_try_from buf with
  | inl (PubsubControl relay_id control) => pw_push self [WOutToController (ToCRelayControl remote relay_id control)]
  | inl (PubsubSourceHint channel control) => pw_push self [WOutToController (ToCSourceHint remote channel control)]
  | inl (PubsubData relay_id data) =>
      match pw_relays self !! relay_id with
      | Some relay =>
          if bool_decide (wr_source relay = Some remote) then pw_push self (relay_data relay_id relay data) else self
      | None => self
      end
  | inr _ => self
  end.

(** [if entry.is_empty() { self.relays.remove(&relay_id); }] *)
Definition keep_nonempty (r : WorkerRelay) : option WorkerRelay := if wr_is_empty r then None else Some r.

(** What a [Route..] command does to the entry of its relay; the [Send..]
    commands leave it. *)
Definition route_update (entry : option WorkerRelay) (control : RelayWorkerControl UserData) : option WorkerRelay :=
  let or_insert := default worker_relay_empty entry in
  match control with
  | RouteSetSource source => Some (mkWorkerRelay (Some source) (wr_locals or_insert) (wr_remotes or_insert) (wr_remotes_uuid or_insert))
  | RouteDelSource source =>
      (λ e, if bool_decide (wr_source e = Some source)
            then mkWorkerRelay None (wr_locals e) (wr_remotes e) (wr_remotes_uuid e) else e) <$> entry
  | RouteSetLocal actor =>
      Some (mkWorkerRelay (wr_source or_insert) (wr_locals or_insert ++ [actor]) (wr_remotes or_insert) (wr_remotes_uuid or_insert))
  | RouteDelLocal actor =>
      e ← entry;
      keep_nonempty (mkWorkerRelay (wr_source e) (vec_remove actor (wr_locals e)) (wr_remotes e) (wr_remotes_uuid e))
  | RouteSetRemote remote uuid =>
      Some (mkWorkerRelay (wr_source or_insert) (wr_locals or_insert) (wr_remotes or_insert ++ [remote])
              (<[remote := uuid]> (wr_remotes_uuid or_insert)))
  | RouteDelRemote remote =>
      e ← entry;
      keep_nonempty (mkWorkerRelay (wr_source e) (wr_locals e) (vec_remove remote (wr_remotes e)) (wr_remotes_uuid e))
  | _ => entry
  end.

Definition worker_route (self : PubSubFeatureWorker) (relay_id : RelayId) (control : RelayWorkerControl UserData)
    : PubSubFeatureWorker :=
  mkPubSubWorker (partial_alter (λ e, route_update e control) relay_id (pw_relays self)) (pw_queue self) (pw_shutdown self).

Definition worker_relay_control (order : HashOrder) (ctx : FeatureWorkerContext) (self : PubSubFeatureWorker)
    (relay_id : RelayId) (control : RelayWorkerControl UserData) : outcome PubSubFeatureWorker :=
  let send dest msg := pw_push self [send_to dest (PubsubControl relay_id msg)] in
  match control with
  | SendSub uuid (Some remote) => Done (send remote (RelaySub uuid))
  | SendSub uuid None =>
      next ← rt_next (wctx_router ctx) relay_id.2;
      Done (match next with Some next => send next (RelaySub uuid) | None => self end)
  | SendFeedback fb remote => Done (send remote (RelayFeedback fb))
  | SendUnsub uuid remote => Done (send remote (RelayUnsub uuid))
  | SendSubOk uuid remote => Done (send remote (RelaySubOK uuid))
  | SendUnsubOk uuid remote => Done (send remote (RelayUnsubOK uuid))
  | SendRouteChanged =>
      Done (match pw_relays self !! relay_id with
            | Some relay =>
                pw_push self ((λ e, send_to e.1 (PubsubControl relay_id (RelayRouteChanged e.2))) <$>
                              hash_iter (wr_remotes_uuid relay))
            | None => self
            end)
  | RouteSetSource _ | RouteDelSource _ | RouteSetLocal _ | RouteDelLocal _ | RouteSetRemote _ _ | RouteDelRemote _ =>
      Done (worker_route self relay_id control)
  end.

Definition pubsub_worker_on_input (order : HashOrder) (ctx : FeatureWorkerContext) (self : PubSubFeatureWorker)
    (input : FeatureWorkerInput UserData Control (ToWorker UserData)) : outcome PubSubFeatureWorker :=
  match input with
  | WFromController _ (ToWRelayControl relay_id control) => worker_relay_control order ctx self relay_id control
  | WFromController _ (ToWSourceHint channel (Some remote) data) =>
      Done (pw_push self [send_to remote (PubsubSourceHint channel data)])
  | WFromController _ (ToWSourceHint channel None data) =>
      next ← rt_path_to_key (wctx_router ctx) (wrap 32 channel);
      Done (match next with
            | Next remote => pw_push self [send_to remote (PubsubSourceHint channel data)]
            | _ => self
            end)
  | WFromController _ (ToWRelayData relay_id data) =>
      Done (match pw_relays self !! relay_id with
            | Some relay => pw_push self (send_all (wr_remotes relay) (PubsubData relay_id data))
            | None => self
            end)
  | WControl actor (channel, PubData data) =>
      let relay_id := (channel, wctx_node_id ctx) in
      Done (match pw_relays self !! relay_id with
            | Some relay => pw_push self (relay_data relay_id relay data)
            | None => self
            end)
  | WControl actor control => Done (pw_push self [ForwardControlToController actor control])
  | WNetwork _ _ _ | WLocal _ _ => Done self
  end.

Definition pubsub_worker_on_shutdown (self : PubSubFeatureWorker) : PubSubFeatureWorker :=
  mkPubSubWorker (pw_relays self) (pw_queue self) true.

Definition pubsub_worker_is_empty (self : PubSubFeatureWorker) : bool :=
  pw_shutdown self && match pw_queue self with [] => true | _ => false end.

Definition pubsub_worker_pop_output (self : PubSubFeatureWorker) : PubSubFeatureWorker * option WorkerOutput :=
  match pw_queue self with
  | [] => (self, None)
  | out :: rest => (mkPubSubWorker (pw_relays self) rest (pw_shutdown self), Some out)
  end.
End worker.

Arguments WorkerRelay UserData : clear implicits.
Arguments PubSubFeatureWorker UserData : clear implicits.
Arguments FeatureWorkerContext T : clear implicits.

(** A remote consumer that left is still sent [RouteChanged]: the entry keeps
    its uuid. *)
Lemma left_remote_keeps_uuid {UserData : Type} `{EqDecision UserData} (w : WorkerRelay UserData) remote uuid :
  wr_locals w ≠ [] →
  ∃ w', route_update (route_update (Some w) (RouteSetRemote remote uuid)) (RouteDelRemote remote) = Some w' ∧
        wr_remotes_uuid w' !! remote = Some uuid.
Proof.
  intros Hl. exists (mkWorkerRelay (wr_source w) (wr_locals w) (vec_remove remote (wr_remotes w ++ [remote]))
                       (<[remote := uuid]> (wr_remotes_uuid w))).
  split; [|apply lookup_insert_eq]. cbn. unfold keep_nonempty, wr_is_empty. cbn. by destruct (wr_locals w).
Qed.
