(* ===== verification/PubsubSim.v ===== *)
(** * The workers of publish/subscribe follow its controller

    The controller decides who receives a relay; the workers only see the
    commands it sends. Here: a worker that has carried out the commands of a
    relay passes data on to exactly the consumers of the relay, and takes it
    from the next node of the relay only. *)

From S2P Require Import Prelude NodeId ConnId Route Msg Base Neighbours PubsubMsg PubsubRelay PubsubHint Pubsub.

(** ** The entry of a worker *)

Section entry.
Context {UserData : Type} `{EqDecision UserData}.
Implicit Types (e : option (WorkerRelay UserData)) (c : RelayConsumers UserData) (w : WorkerRelay UserData).

Definition entry_locals e : list (FeatureControlActor UserData) := match e with Some r => wr_locals r | None => [] end.
Definition entry_remotes e : list NetPair := match e with Some r => wr_remotes r | None => [] end.
Definition entry_source e : option NetPair := e ≫= wr_source.

(** The entry serves the consumers: the same local actors, and every remote
    consumer exactly once. *)
Record serves c e : Prop := {
  serves_locals : entry_locals e = locals c;
  serves_locals_once : NoDup (locals c);
  serves_remotes : ∀ r, r ∈ entry_remotes e ↔ is_Some (remotes c !! r);
  serves_remotes_once : NoDup (entry_remotes e);
}.

Definition replay e (controls : list (RelayWorkerControl UserData)) : option (WorkerRelay UserData) :=
  foldl route_update e controls.

Lemma replay_app e l1 l2 : replay e (l1 ++ l2) = replay (replay e l1) l2.
Proof. apply foldl_app. Qed.

(** Changing the consumers queues the commands that make an entry follow; an
    entry that still has a consumer keeps its source. *)
Definition evolves c c' : Prop :=
  ∃ outs, cons_queue c' = cons_queue c ++ outs ∧
    ∀ e, serves c e → serves c' (replay e outs) ∧
         (consumers_should_clear c' = false → entry_source (replay e outs) = entry_source e).

Lemma evolves_refl c : evolves c c.
Proof. exists []. rewrite app_nil_r. by split. Qed.

Lemma serves_nothing : serves consumers_default None.
Proof. split; cbn; [done|constructor| |constructor]. intros r. rewrite lookup_empty. split; [by intros ?%not_elem_of_nil|by intros []]. Qed.

Lemma serves_default e c : serves c e → consumers_should_clear c = true → serves consumers_default e.
Proof.
  intros [Hl Hln Hr Hrn] Hc. unfold consumers_should_clear in Hc. destruct (locals c) eqn:E; [|done].
  apply bool_decide_eq_true in Hc. rewrite Hc in Hr. split; cbn; [done|constructor|done|done].
Qed.

Lemma entry_keep_locals w : entry_locals (keep_nonempty w) = wr_locals w.
Proof. unfold keep_nonempty, wr_is_empty. by destruct (wr_locals w) eqn:E, (wr_remotes w). Qed.

Lemma entry_keep_remotes w : entry_remotes (keep_nonempty w) = wr_remotes w.
Proof. unfold keep_nonempty, wr_is_empty. by destruct (wr_locals w), (wr_remotes w) eqn:E. Qed.

Lemma entry_keep_source c w :
  serves c (keep_nonempty w) → consumers_should_clear c = false → entry_source (keep_nonempty w) = wr_source w.
Proof.
  intros Hs Hc. unfold keep_nonempty in *. destruct (wr_is_empty w); [|done].
  destruct Hs as [Hl _ Hr _]. unfold consumers_should_clear in Hc. cbn in Hl. rewrite <- Hl in Hc.
  apply bool_decide_eq_false in Hc. destruct Hc. apply map_eq. intros r. rewrite lookup_empty.
  destruct (remotes c !! r) eqn:E; [|done]. cbn in Hr. by destruct (not_elem_of_nil r); apply Hr.
Qed.

(** The remote consumers that leave. *)
Lemma serves_del_remote c e r q :
  serves c e →
  let c' := mkConsumers (delete r (remotes c)) (locals c) q in
  serves c' (route_update e (RouteDelRemote r)) ∧
  (consumers_should_clear c' = false → entry_source (route_update e (RouteDelRemote r)) = entry_source e).
Proof.
  intros [Hl Hln Hr Hrn]. cbn zeta.
  assert (∀ x : NetPair, x ∈ vec_remove r (entry_remotes e) ↔ is_Some (delete r (remotes c) !! x)) as Hr'.
  { intros x. rewrite elem_of_vec_remove by done. rewrite Hr, lookup_delete_is_Some. naive_solver. }
  assert (serves (mkConsumers (delete r (remotes c)) (locals c) q) (route_update e (RouteDelRemote r))) as Hs.
  { destruct e as [w|]; cbn [route_update mbind option_bind] in *.
    - split; cbn; rewrite ?entry_keep_locals, ?entry_keep_remotes; cbn; auto with sdn.
    - split; auto. }
  split; [done|]. intros Hc. destruct e as [w|]; [|done]. apply (entry_keep_source _ _ Hs Hc).
Qed.

Lemma should_clear_remotes (c : RelayConsumers UserData) m q :
  consumers_should_clear c = true → m ⊆ remotes c → consumers_should_clear (mkConsumers m (locals c) q) = true.
Proof.
  unfold consumers_should_clear. cbn. destruct (locals c); [|done]. intros ->%bool_decide_eq_true Hm.
  apply bool_decide_eq_true. apply (anti_symm (⊆)); [done|apply map_empty_subseteq].
Qed.

Lemma serves_del_remotes rs : ∀ c e q, serves c e →
  let c' := mkConsumers (remove_all rs (remotes c)) (locals c) q in
  serves c' (replay e (RouteDelRemote <$> rs)) ∧
  (consumers_should_clear c' = false → entry_source (replay e (RouteDelRemote <$> rs)) = entry_source e).
Proof.
  induction rs as [|r rs IH]; intros c e q Hs; cbn zeta.
  - split; [|done]. by destruct Hs.
  - destruct (serves_del_remote c e r q Hs) as [Hs1 Hsrc1]. destruct (IH _ _ q Hs1) as [Hs2 Hsrc2]. split; [done|].
    intros Hc. cbn [fmap list_fmap replay foldl]. etrans; [by apply Hsrc2|]. apply Hsrc1. destruct (consumers_should_clear _) eqn:E; [|done].
    rewrite <- Hc. symmetry. apply (should_clear_remotes (mkConsumers (delete r (remotes c)) (locals c) q)); [done|].
    cbn. clear. generalize (delete r (remotes c)). induction rs as [|x rs IH]; intros m; cbn; [done|].
    etrans; [apply IH|]. apply delete_subseteq.
Qed.

(** ** The operations on the consumers *)

Lemma consumers_on_tick_evolves (order : HashOrder) c now : evolves c (consumers_on_tick order c now).
Proof. eexists. split; [done|]. intros e Hs. exact (serves_del_remotes _ c e _ Hs). Qed.

Lemma consumers_on_local_sub_evolves c actor : evolves c (consumers_on_local_sub c actor).
Proof.
  unfold consumers_on_local_sub. case_bool_decide; [apply evolves_refl|].
  eexists. split; [done|]. intros e [Hl Hln Hr Hrn]. split; [|by destruct e].
  split; cbn; [by destruct e as [w|]; cbn in *; rewrite <- Hl| |by destruct e|by destruct e].
  apply NoDup_app. split_and!; [done| |apply NoDup_singleton]. by intros x Hx ->%list_elem_of_singleton.
Qed.

Lemma consumers_on_local_unsub_evolves c actor : evolves c (consumers_on_local_unsub c actor).
Proof.
  unfold consumers_on_local_unsub. destruct (list_find (actor =.) (locals c)) as [[pos x]|] eqn:Hf; [|apply evolves_refl].
  eexists. split; [done|]. intros e [Hl Hln Hr Hrn].
  assert (swap_remove (locals c) pos = vec_remove actor (locals c)) as Heq by (unfold vec_remove; by rewrite Hf).
  rewrite Heq. destruct e as [w|]; cbn [replay foldl route_update mbind option_bind]; cbn in Hl, Hr, Hrn.
  - rewrite Hl. assert (serves (mkConsumers (remotes c) (vec_remove actor (locals c)) (cons_queue c ++ [RouteDelLocal actor]))
      (keep_nonempty (mkWorkerRelay (wr_source w) (vec_remove actor (locals c)) (wr_remotes w) (wr_remotes_uuid w)))) as Hs.
    { split; rewrite ?entry_keep_locals, ?entry_keep_remotes; cbn; auto with sdn. }
    split; [done|]. intros Hc. apply (entry_keep_source _ _ Hs Hc).
  - rewrite <- Hl in Hf. done.
Qed.

Lemma consumers_disconnected_evolves c remote : evolves c (consumers_disconnected c remote).
Proof.
  unfold consumers_disconnected. destruct (remotes c !! remote); [|apply evolves_refl].
  eexists. split; [done|]. intros e Hs. exact (serves_del_remote c e remote _ Hs).
Qed.

Lemma serves_same_keys c m q e :
  serves c e → (∀ r, is_Some (m !! r) ↔ is_Some (remotes c !! r)) → serves (mkConsumers m (locals c) q) e.
Proof. intros [Hl Hln Hr Hrn] Hm. split; cbn; auto. intros r. by rewrite Hm. Qed.

Lemma consumers_on_remote_evolves c now remote control : evolves c (consumers_on_remote c now remote control).
Proof.
  destruct control; cbn; try apply evolves_refl.
  - destruct (remotes c !! remote) as [slot|] eqn:Hlk.
    + destruct (uuid =? _); [|apply evolves_refl]. eexists. split; [done|]. intros e Hs. split; [|done].
      apply (serves_same_keys _ _ _ _ Hs). intros r. rewrite lookup_insert_is_Some'. naive_solver.
    + eexists. split; [done|]. intros e [Hl Hln Hr Hrn]. cbn. split; [|by destruct e].
      assert (entry_remotes e ++ [remote] = entry_remotes (route_update e (RouteSetRemote remote uuid))) as He by by destruct e.
      split; cbn; [by destruct e|done| |]; unfold route_update in He; cbn in He; rewrite <- He.
      * intros r. rewrite elem_of_app, list_elem_of_singleton, lookup_insert_is_Some', Hr. naive_solver.
      * apply NoDup_app. split_and!; [done| |apply NoDup_singleton].
        intros x Hx ->%list_elem_of_singleton. apply Hr in Hx as [? ?]. congruence.
  - destruct (remotes c !! remote) as [slot|] eqn:Hlk; [|apply evolves_refl].
    destruct (_ =? uuid); [|apply evolves_refl]. eexists. split; [done|]. intros e Hs. exact (serves_del_remote c e remote _ Hs).
Qed.
End entry.

(** ** The relays *)

Section relay.
Context {UserData : Type} `{EqDecision UserData}.
Implicit Types (e : option (WorkerRelay UserData)) (c : RelayConsumers UserData) (r : RemoteRelay UserData)
  (g : GenericRelay UserData).

Definition worker_control (out : GenericRelayOutput UserData) : option (RelayWorkerControl UserData) :=
  match out with GToWorker control => Some control | _ => None end.
Definition worker_controls (outs : list (GenericRelayOutput UserData)) : list (RelayWorkerControl UserData) :=
  omap worker_control outs.

(** What the state of the relay of a remote source demands of an entry; one
    that is not bound or binding has no consumer left. *)
Definition tracks_state (s : RelayState UserData) e : Prop :=
  match s with
  | Binding c _ => cons_queue c = [] ∧ serves c e
  | Bound c _ next _ => cons_queue c = [] ∧ serves c e ∧ entry_source e = Some next
  | _ => serves consumers_default e
  end.

(** The entry, once it has carried out the commands the relay has queued. *)
Definition follows g e : Prop :=
  match g with
  | LocalR r => serves (lr_consumers r) (replay e (cons_queue (lr_consumers r)))
  | RemoteR r => tracks_state (rr_state r) (replay e (worker_controls (rr_queue r)))
  end.

Lemma worker_controls_app l1 l2 : worker_controls (l1 ++ l2) = worker_controls l1 ++ worker_controls l2.
Proof. apply omap_app. Qed.

Lemma worker_controls_to_worker l : worker_controls (GToWorker <$> l) = l.
Proof. induction l as [|x l IH]; cbn; [done|]. by rewrite <- IH at 2. Qed.

Lemma worker_controls_route_changed l : worker_controls (GRouteChanged <$> l) = [].
Proof. by induction l. Qed.

Lemma replay_feedbacks e fbs next :
  replay e (worker_controls ((λ fb, GToWorker (SendFeedback fb next)) <$> fbs)) = e.
Proof. by induction fbs. Qed.

Lemma serves_cleared c e : serves c e → serves (mkConsumers (remotes c) (locals c) []) e.
Proof. by intros []. Qed.

Lemma serves_evolves c c' e :
  evolves c c' → serves c (replay e (cons_queue c)) → serves c' (replay e (cons_queue c')).
Proof. intros (outs & -> & Hev) Hs. rewrite replay_app. by apply Hev. Qed.

Lemma evolves_idle c c' e :
  evolves c c' → cons_queue c = [] → serves c e →
  serves c' (replay e (cons_queue c')) ∧
  (consumers_should_clear c' = false → entry_source (replay e (cons_queue c')) = entry_source e).
Proof. intros (outs & -> & Hev) -> Hs. by apply Hev. Qed.

Lemma leave_next_serves e uuid next :
  serves consumers_default e → serves consumers_default (replay e (worker_controls (leave_next uuid next))).
Proof. intros [Hl Hln Hr Hrn]. cbn. destruct e as [w|]; cbn in *; [|by split]. case_bool_decide; by split. Qed.

Lemma should_clear_cleared c q :
  consumers_should_clear (mkConsumers (remotes c) (locals c) q) = consumers_should_clear c.
Proof. done. Qed.
End relay.

(** Push the queues of a remote relay through [replay]. *)
Create Rewrite HintDb replay.
#[export] Hint Rewrite @drain_into_eq @worker_controls_app @worker_controls_to_worker @worker_controls_route_changed
  @replay_app @replay_feedbacks @should_clear_cleared : replay.

Ltac follow := cbn [follows rr_state rr_queue tracks_state]; autorewrite with replay.

Section remote_relay.
Context {UserData : Type} `{EqDecision UserData}.
Implicit Types (e : option (WorkerRelay UserData)) (c : RelayConsumers UserData) (r : RemoteRelay UserData)
  (g : GenericRelay UserData).

(** The consumers changed and nothing else did. *)
Lemma binding_follows c c' fbs e :
  evolves c c' → tracks_state (Binding c fbs) e →
  ∀ fbs', tracks_state (Binding (mkConsumers (remotes c') (locals c') []) fbs') (replay e (cons_queue c')) ∧
  (consumers_should_clear c' = true → serves consumers_default (replay e (cons_queue c'))).
Proof.
  intros Hev [Hq Hs] fbs'. destruct (evolves_idle _ _ _ Hev Hq Hs) as [Hs' _].
  split; [by split; [|apply serves_cleared]|]. intros Hc. by apply (serves_default _ c').
Qed.

Lemma bound_follows c c' fbs next at_ e :
  evolves c c' → tracks_state (Bound c fbs next at_) e →
  (∀ fbs' at', consumers_should_clear c' = false →
     tracks_state (Bound (mkConsumers (remotes c') (locals c') []) fbs' next at') (replay e (cons_queue c'))) ∧
  (∀ fbs', tracks_state (Binding (mkConsumers (remotes c') (locals c') []) fbs') (replay e (cons_queue c'))) ∧
  (consumers_should_clear c' = true → serves consumers_default (replay e (cons_queue c'))).
Proof.
  intros Hev (Hq & Hs & Hsrc). destruct (evolves_idle _ _ _ Hev Hq Hs) as [Hs' Hsrc'].
  split_and!.
  - intros fbs' at' Hc. split_and!; [done|by apply serves_cleared|by rewrite Hsrc'].
  - intros fbs'. by split; [|apply serves_cleared].
  - intros Hc. by apply (serves_default _ c').
Qed.

Lemma fresh_follows c' fbs e :
  evolves consumers_default c' → serves consumers_default e →
  tracks_state (Binding (mkConsumers (remotes c') (locals c') []) fbs) (replay e (cons_queue c')).
Proof. intros Hev Hs. by apply (binding_follows consumers_default c' fbs e). Qed.

Lemma rr_on_tick_follows (order : HashOrder) r now e :
  follows (RemoteR r) e → follows (RemoteR (rr_on_tick order r now)) e.
Proof.
  destruct r as [uuid st q]. cbn [follows rr_state rr_queue]. unfold rr_on_tick. cbn [rr_state rr_uuid rr_queue].
  destruct st as [|c fbs|c fbs next at_|next at_|]; intros Ht; try done.
  - destruct (binding_follows c (consumers_on_tick order c now) fbs _ (consumers_on_tick_evolves _ _ _) Ht fbs) as [H1 H2].
    cbn [pop_consumers_out]. destruct (consumers_should_clear _) eqn:Hc; follow; eauto.
  - destruct (bound_follows c (consumers_on_tick order c now) fbs next at_ _ (consumers_on_tick_evolves _ _ _) Ht) as (H1 & _ & H2).
    cbn [pop_consumers_out pop_feedbacks_out]. destruct (consumers_should_clear _) eqn:Hc; cbn [follows rr_state rr_queue tracks_state];
      autorewrite with replay.
    + apply leave_next_serves. by apply H2.
    + by apply H1.
  - destruct (_ <=? now); by follow.
Qed.

Lemma rr_disconnected_follows r now remote e :
  follows (RemoteR r) e → follows (RemoteR (rr_disconnected r now remote)) e.
Proof.
  destruct r as [uuid st q]. cbn [follows rr_state rr_queue]. unfold rr_disconnected. cbn [rr_state rr_uuid rr_queue].
  destruct st as [|c fbs|c fbs next at_|next at_|]; intros Ht; try done; cbn [pop_consumers_out].
  - destruct (binding_follows c _ fbs _ (consumers_disconnected_evolves c remote) Ht fbs) as [H1 H2].
    destruct (consumers_should_clear _) eqn:Hc; follow; eauto.
  - destruct (bound_follows c _ fbs next at_ _ (consumers_disconnected_evolves c remote) Ht) as (H1 & H3 & H2).
    case_bool_decide; [|destruct (consumers_should_clear _) eqn:Hc]; follow; [apply (H3 fbs)| |by apply (H1 fbs at_)].
    apply leave_next_serves. by apply H2.
Qed.

Lemma rr_on_local_sub_follows r actor e : follows (RemoteR r) e → follows (RemoteR (rr_on_local_sub r actor)) e.
Proof.
  destruct r as [uuid st q]. cbn [follows rr_state rr_queue]. unfold rr_on_local_sub. cbn [rr_state rr_uuid rr_queue].
  pose proof (consumers_on_local_sub_evolves consumers_default actor) as Hf.
  destruct st as [|c fbs|c fbs next at_|next at_|]; intros Ht; cbn [pop_consumers_out];
    try (follow; exact (fresh_follows _ aggerator_default _ Hf Ht)).
  - follow. by apply (binding_follows c _ fbs _ (consumers_on_local_sub_evolves c actor) Ht fbs).
  - follow. destruct (bound_follows c _ fbs next at_ _ (consumers_on_local_sub_evolves c actor) Ht) as [H1 _].
    apply (H1 fbs at_). unfold consumers_on_local_sub, consumers_should_clear. case_bool_decide as Hin; cbn; [|by destruct (locals c)].
    destruct (locals c); [by apply not_elem_of_nil in Hin|done].
Qed.

Lemma after_leave_follows r now c' e :
  match rr_state r with Binding c _ | Bound c _ _ _ => evolves c c' | _ => True end →
  follows (RemoteR r) e → follows (RemoteR (after_leave r now c')) e.
Proof.
  destruct r as [uuid st q]. cbn [follows rr_state rr_queue]. unfold after_leave. cbn [rr_state rr_uuid rr_queue].
  destruct st as [|c fbs|c fbs next at_|next at_|]; intros Hev Ht; try done; cbn [pop_consumers_out].
  - destruct (binding_follows c _ fbs _ Hev Ht fbs) as [H1 H2]. destruct (consumers_should_clear _) eqn:Hc; follow; eauto.
  - destruct (bound_follows c _ fbs next at_ _ Hev Ht) as (H1 & _ & H2).
    destruct (consumers_should_clear _) eqn:Hc; follow; [|by apply H1]. apply leave_next_serves. by apply H2.
Qed.

Lemma rr_on_local_unsub_follows r now actor e :
  follows (RemoteR r) e → follows (RemoteR (rr_on_local_unsub r now actor)) e.
Proof.
  intros Ht. unfold rr_on_local_unsub. destruct (rr_state r) eqn:Hst; try done;
    (apply after_leave_follows; [rewrite Hst; apply consumers_on_local_unsub_evolves|done]).
Qed.

Lemma rr_feedback_follows r now source fb e : follows (RemoteR r) e → follows (RemoteR (rr_feedback r now source fb)) e.
Proof. destruct r as [uuid [] q]; intros Ht; try done. unfold rr_feedback; cbn [rr_state rr_uuid rr_queue pop_feedbacks_out]; by follow. Qed.

Lemma source_follows (c : RelayConsumers UserData) next e :
  serves c e → serves c (route_update e (RouteSetSource next)) ∧ entry_source (route_update e (RouteSetSource next)) = Some next.
Proof. intros [Hl Hln Hr Hrn]. split; [|done]. by split; destruct e. Qed.

Lemma rr_on_sub_ok_follows r now remote e : follows (RemoteR r) e → follows (RemoteR (rr_on_sub_ok r now remote)) e.
Proof.
  destruct r as [uuid [|c fbs|c fbs next at_|next at_|] q]; intros Ht; try done; unfold rr_on_sub_ok; cbn [rr_state rr_uuid rr_queue].
  - follow. destruct Ht as [Hq Hs]. split; [done|]. by apply source_follows.
  - destruct Ht as (Hq & Hs & Hsrc). case_bool_decide; [by subst|]. unfold consumers_relay_dests.
    destruct (negb _); follow; (split; [done|by apply source_follows]).
Qed.

Lemma rr_on_route_changed_follows r e : follows (RemoteR r) e → follows (RemoteR (rr_on_route_changed r)) e.
Proof.
  destruct r as [uuid [|c fbs|c fbs next at_|next at_|] q]; intros Ht; try done; unfold rr_on_route_changed, consumers_relay_dests.
  cbn [rr_state rr_uuid rr_queue]. by destruct (negb _); follow.
Qed.

Lemma rr_on_remote_follows r now remote control e :
  follows (RemoteR r) e → follows (RemoteR (rr_on_remote r now remote control)) e.
Proof.
  intros Ht.
  assert (∀ control', match control' with RelaySub _ | RelayUnsub _ => True | _ => False end →
            follows (RemoteR (rr_on_remote r now remote control')) e) as Hcons.
  { intros control' Hc. pose proof (consumers_on_remote_evolves (UserData := UserData) consumers_default now remote control') as Hf.
    destruct control'; try done; unfold rr_on_remote; cbn [pop_consumers_out];
      destruct (rr_state r) eqn:Hst; unfold follows in Ht; rewrite Hst in Ht;
      try (follow; exact (fresh_follows _ aggerator_default _ Hf Ht));
      (apply after_leave_follows; [rewrite Hst; apply consumers_on_remote_evolves|unfold follows; by rewrite Hst]). }
  destruct control; try (by apply Hcons); unfold rr_on_remote.
  - destruct (_ =? _); [by apply rr_on_sub_ok_follows|done].
  - destruct (_ =? _); [|done]. destruct (rr_state r) eqn:Hst; try done. unfold follows in *. by rewrite Hst in Ht.
  - destruct (_ =? _); [by apply rr_on_route_changed_follows|done].
  - by apply rr_feedback_follows.
Qed.
End remote_relay.

(** ** Any relay *)

Section generic.
Context {UserData : Type} `{EqDecision UserData}.
Implicit Types (e : option (WorkerRelay UserData)) (g : GenericRelay UserData).

Lemma relay_on_tick_follows (order : HashOrder) g now e : follows g e → follows (relay_on_tick order g now) e.
Proof. destruct g; [apply serves_evolves, consumers_on_tick_evolves|apply rr_on_tick_follows]. Qed.

Lemma relay_on_local_sub_follows g actor e : follows g e → follows (relay_on_local_sub g actor) e.
Proof. destruct g; [apply serves_evolves, consumers_on_local_sub_evolves|apply rr_on_local_sub_follows]. Qed.

Lemma relay_on_local_unsub_follows g now actor e : follows g e → follows (relay_on_local_unsub g now actor) e.
Proof. destruct g; [apply serves_evolves, consumers_on_local_unsub_evolves|apply rr_on_local_unsub_follows]. Qed.

Lemma relay_on_local_feedback_follows g now actor fb e : follows g e → follows (relay_on_local_feedback g now actor fb) e.
Proof. destruct g; [done|apply rr_feedback_follows]. Qed.

Lemma relay_disconnected_follows g now remote e : follows g e → follows (relay_disconnected g now remote) e.
Proof. destruct g; [apply serves_evolves, consumers_disconnected_evolves|apply rr_disconnected_follows]. Qed.

Lemma relay_on_remote_follows g now remote control e : follows g e → follows (relay_on_remote g now remote control) e.
Proof.
  destruct g as [r|]; [|apply rr_on_remote_follows]. cbn [relay_on_remote]. unfold lr_on_remote.
  destruct control; try done; apply serves_evolves, consumers_on_remote_evolves.
Qed.

Lemma relay_on_pub_start_follows g g' actor e : relay_on_pub_start g actor = Done g' → follows g e → follows g' e.
Proof. destruct g; [|done]. by intros [= <-]. Qed.

Lemma relay_on_pub_stop_follows g g' actor e : relay_on_pub_stop g actor = Done g' → follows g e → follows g' e.
Proof. destruct g; [|done]. by intros [= <-]. Qed.

(** The outputs of a relay, once carried out. *)
Lemma relay_drained_follows g e : follows g e → follows (relay_drained g) (replay e (worker_controls (relay_outputs g))).
Proof.
  destruct g as [r|r]; cbn [follows relay_drained relay_outputs]; [|done]. cbn. intros Hs.
  rewrite worker_controls_app, replay_app, worker_controls_to_worker.
  assert (worker_controls (GFeedback (publishers r) <$> fb_queue (lr_feedbacks r)) = []) as -> by by induction (fb_queue _).
  by apply serves_cleared.
Qed.

(** A cleared relay leaves no consumer behind, a new one has none. *)
Lemma relay_clear_follows g e : follows g e → relay_outputs g = [] → relay_should_clear g = true → serves consumers_default e.
Proof.
  destruct g as [r|r]; cbn [follows relay_outputs relay_should_clear].
  - intros Hs [_ Hq%fmap_nil_inv]%app_eq_nil Hc. rewrite Hq in Hs. unfold lr_should_clear in Hc. apply andb_true_iff in Hc as [Hc _].
    by apply (serves_default _ (lr_consumers r)).
  - intros Ht Hq Hc. rewrite Hq in Ht. unfold rr_should_clear in Hc. by destruct (rr_state r).
Qed.
End generic.

(** ** The feature *)

Section feature.
Context {UserData : Type} `{EqDecision UserData} {Addr Secure : Type}.
Abbreviation WorkerRelays := (gmap RelayId (WorkerRelay UserData)) (only parsing).
Abbreviation Output := (FeatureOutput UserData Event (ToWorker UserData) Addr) (only parsing).
Implicit Types (f : PubSubFeature UserData Addr) (ws : WorkerRelays) (g : GenericRelay UserData) (id : RelayId).

(** The commands about one relay among the outputs of the feature. *)
Definition control_for id (out : Output) : option (RelayWorkerControl UserData) :=
  match out with
  | OutToWorker _ (ToWRelayControl id' control) => if bool_decide (id' = id) then Some control else None
  | _ => None
  end.
Definition controls_for id (q : list Output) : list (RelayWorkerControl UserData) := omap (control_for id) q.

(** The entry of a relay in a worker that has carried out what is queued. *)
Definition entry f ws id : option (WorkerRelay UserData) := replay (ws !! id) (controls_for id (ps_queue f)).

Definition mirrors ws f : Prop :=
  ∀ id, match ps_relays f !! id with
        | Some g => relay_outputs g = [] ∧ follows g (entry f ws id)
        | None => serves consumers_default (entry f ws id)
        end.

(** The relay of a source is local on the node of the source only. *)
Definition homed (node_id : NodeId) f : Prop :=
  ∀ id g, ps_relays f !! id = Some g →
    match g with LocalR _ => id.2 = node_id | RemoteR _ => id.2 ≠ node_id end.

Record coherent (node_id : NodeId) ws f : Prop := {
  coherent_mirrors : mirrors ws f;
  coherent_homed : homed node_id f;
}.

Lemma controls_for_app id (q1 q2 : list Output) : controls_for id (q1 ++ q2) = controls_for id q1 ++ controls_for id q2.
Proof. apply omap_app. Qed.

Lemma controls_for_relay id id' (outs : list (GenericRelayOutput UserData)) :
  controls_for id' (outs ≫= relay_output id) = if bool_decide (id = id') then worker_controls outs else [].
Proof.
  induction outs as [|out outs IH]; [by case_bool_decide|]. cbn [mbind list_bind].
  rewrite controls_for_app, IH.
  destruct out as [control|actor|actors fb].
  - cbn. by case_bool_decide.
  - cbn. by case_bool_decide.
  - assert (∀ l, controls_for id' (relay_output id (GFeedback l fb)) = []) as Hnil by (by induction l).
    setoid_rewrite Hnil. by case_bool_decide.
Qed.

(** A relay that follows is stored and its outputs are queued. *)
Lemma pop_single_relay_coherent node_id ws f id g :
  coherent node_id ws f → follows g (entry f ws id) →
  match g with LocalR _ => id.2 = node_id | RemoteR _ => id.2 ≠ node_id end →
  coherent node_id ws (pop_single_relay f id g).
Proof.
  intros [Hm Hh] Hf Hg. split.
  - intros id'. unfold entry. cbn [pop_single_relay ps_push with_relays ps_queue ps_relays]. rewrite controls_for_app, replay_app, controls_for_relay. case_bool_decide as Heq.
    + subst id'. rewrite lookup_insert_eq. split; [by destruct g|]. by apply relay_drained_follows.
    + rewrite lookup_insert_ne by done. apply Hm.
  - intros id' g' Hlk'. cbn [pop_single_relay ps_push with_relays ps_relays] in Hlk'. apply lookup_insert_Some in Hlk' as [[<- <-]|[_ Hlk]]; [by destruct g|]. by apply Hh.
Qed.

Lemma ps_push_coherent node_id ws f outs :
  coherent node_id ws f → (∀ id, controls_for id outs = []) → coherent node_id ws (ps_push f outs).
Proof.
  intros [Hm Hh] Ho. split; [|done]. intros id. unfold entry. cbn [ps_push ps_queue ps_relays]. rewrite controls_for_app, Ho, app_nil_r. apply Hm.
Qed.

Lemma with_hints_coherent node_id ws f m : coherent node_id ws f → coherent node_id ws (with_hints f m).
Proof. by intros [Hm Hh]. Qed.

Lemma get_relay_coherent ctx ws f id create f' o :
  get_relay ctx f id create = (f', o) → coherent (fctx_node_id ctx) ws f →
  coherent (fctx_node_id ctx) ws f' ∧ source_hints f' = source_hints f ∧ (create = true → is_Some o) ∧
  ∀ g, o = Some g → ps_relays f' !! id = Some g.
Proof.
  unfold get_relay. intros Hget [Hm Hh]. destruct (ps_relays f !! id) as [g|] eqn:Hlk; simplify_eq.
  { split_and!; [by split|done|eauto|by intros ? [= <-]]. }
  destruct create; simplify_eq; [|by split_and!].
  split_and!; [|done|eauto|intros ? [= <-]; apply lookup_insert_eq]. pose proof (Hm id) as Hid. rewrite Hlk in Hid. split.
  - intros id'. unfold entry. cbn [with_relays ps_queue ps_relays]. destruct (decide (id = id')) as [<-|Hne].
    + rewrite lookup_insert_eq. by destruct (_ =? _).
    + rewrite lookup_insert_ne by done. apply Hm.
  - intros id' g' Hlk'. cbn [pop_single_relay ps_push with_relays ps_relays] in Hlk'. apply lookup_insert_Some in Hlk' as [[<- <-]|[_ Hlk']]; [|by apply Hh].
    destruct (Z.eqb_spec (fctx_node_id ctx) id.2); auto.
Qed.

Lemma clear_relay_coherent node_id ws f id g :
  coherent node_id ws f → ps_relays f !! id = Some g → relay_should_clear g = true →
  coherent node_id ws (with_relays f (delete id (ps_relays f))).
Proof.
  intros [Hm Hh] Hlk Hc. split.
  - intros id'. unfold entry. cbn [with_relays ps_queue ps_relays]. destruct (decide (id = id')) as [<-|Hne].
    + rewrite lookup_delete_eq. pose proof (Hm id) as Hid. rewrite Hlk in Hid. destruct Hid as [Ho Hf].
      by apply (relay_clear_follows g).
    + rewrite lookup_delete_ne by done. apply Hm.
  - intros id' g' Hlk'. cbn [pop_single_relay ps_push with_relays ps_relays] in Hlk'. apply lookup_delete_Some in Hlk' as [_ Hlk']. by apply Hh.
Qed.

(** One operation on a relay the feature has: the relay follows, its outputs
    are queued, and it may be cleared. *)
Lemma relay_op_coherent node_id ws f id g g' :
  coherent node_id ws f → ps_relays f !! id = Some g →
  (∀ e, follows g e → follows g' e) →
  match g, g' with LocalR _, LocalR _ | RemoteR _, RemoteR _ => True | _, _ => False end →
  coherent node_id ws (pop_single_relay f id g') ∧
  coherent node_id ws (clear_relay (pop_single_relay f id g') id g').
Proof.
  intros Hc Hlk Hop Hsame. assert (coherent node_id ws (pop_single_relay f id g')) as Hp.
  { destruct Hc as [Hm Hh]. pose proof (Hm id) as Hid. pose proof (Hh id g Hlk) as Hg. rewrite Hlk in Hid.
    apply pop_single_relay_coherent; [by split|apply Hop, Hid|]. by destruct g, g'. }
  split; [done|]. unfold clear_relay. destruct (relay_should_clear g') eqn:Hcl; [|done].
  eapply clear_relay_coherent; [done|apply lookup_insert_eq|]. by destruct g'.
Qed.

(** *** Sources of a hint *)

Lemma on_sub_source_coherent ctx ws f actor channel source :
  coherent (fctx_node_id ctx) ws f →
  returns (on_sub_source ctx f actor channel source)
    (λ f', coherent (fctx_node_id ctx) ws f' ∧ source_hints f' = source_hints f).
Proof.
  intros Hc. unfold on_sub_source. destruct (get_relay _ _ _ _) as [f1 o] eqn:Hget.
  destruct (get_relay_coherent _ _ _ _ _ _ _ Hget Hc) as (Hc1 & Hh1 & [g ->] & Hlk); [done|]. cbn. split; [|done].
  eapply relay_op_coherent; [done|by apply Hlk|apply relay_on_local_sub_follows|by destruct g].
Qed.

Lemma on_unsub_source_coherent node_id ws f now actor channel source :
  coherent node_id ws f →
  coherent node_id ws (on_unsub_source f now actor channel source) ∧
  source_hints (on_unsub_source f now actor channel source) = source_hints f.
Proof.
  intros Hc. unfold on_unsub_source. destruct (ps_relays f !! _) as [g|] eqn:Hlk; [|done]. split.
  - eapply relay_op_coherent; [done|done|intros; by apply relay_on_local_unsub_follows|by destruct g].
  - unfold clear_relay. by destruct (relay_should_clear _).
Qed.

Lemma hint_output_coherent ctx ws f now channel out :
  coherent (fctx_node_id ctx) ws f →
  returns (hint_output ctx now channel f out)
    (λ f', coherent (fctx_node_id ctx) ws f' ∧ source_hints f' = source_hints f).
Proof.
  intros Hc. destruct out as [dest control|actors source|actors source]; cbn.
  - split; [|done]. by apply ps_push_coherent.
  - apply foldM_returns; [|done]. intros s x _ [Hs <-]. by apply on_sub_source_coherent.
  - apply (foldl_invariant _ (λ _ f', coherent (fctx_node_id ctx) ws f' ∧ source_hints f' = source_hints f)); [|done].
    intros x l s [Hs <-]. by apply on_unsub_source_coherent.
Qed.

Definition hint_drained (sh : SourceHintLogic UserData) : SourceHintLogic UserData :=
  mkHint (sh_node_id sh) (session_id sh) (remote_sources sh) (remote_subscribers sh) (local_sources sh)
    (local_subscribers sh) (next_hop sh) [].

(** The loop takes every output of the hint and ends. *)
Lemma pop_hint_loop_coherent ctx ws now channel sh : ∀ fuel f,
  coherent (fctx_node_id ctx) ws f → source_hints f !! channel = Some sh → (length (sh_queue sh) < fuel)%nat →
  returns (pop_hint_loop fuel ctx now channel f)
    (λ f', coherent (fctx_node_id ctx) ws f' ∧ source_hints f' = <[channel := hint_drained sh]> (source_hints f)).
Proof.
  destruct sh as [n ses rs rsub ls lsub nh q]. induction q as [|out q IH]; intros [|fuel] f Hc Hlk Hfuel; cbn in Hfuel; try lia;
    cbn; rewrite Hlk; cbn.
  - split; [done|]. symmetry. by apply insert_id.
  - eapply returns_bind; [apply hint_output_coherent; by apply with_hints_coherent|]. intros f1 [Hc1 Hh1].
    eapply returns_mono; [apply IH; [done| |cbn; lia]|].
    + rewrite Hh1. apply lookup_insert_eq.
    + cbn. intros f2 [Hc2 ->]. split; [done|]. rewrite Hh1. cbn. by rewrite insert_insert_eq.
Qed.

Lemma pop_single_source_hint_coherent ctx ws f now channel :
  coherent (fctx_node_id ctx) ws f → is_Some (source_hints f !! channel) →
  returns (pop_single_source_hint ctx f now channel)
    (λ f', coherent (fctx_node_id ctx) ws f' ∧
           ∃ sh, source_hints f !! channel = Some sh ∧ source_hints f' = <[channel := hint_drained sh]> (source_hints f)).
Proof.
  intros Hc [sh Hsh]. unfold pop_single_source_hint. rewrite Hsh.
  eapply returns_mono; [eapply pop_hint_loop_coherent; [done|done|lia]|]. intros f' [Hc' Hh']. eauto.
Qed.

Lemma hint_local_coherent (order : HashOrder) ctx ws f now actor channel sh cmd :
  coherent (fctx_node_id ctx) ws f → returns (hint_local order ctx f now actor channel sh cmd) (coherent (fctx_node_id ctx) ws).
Proof.
  intros Hc. unfold hint_local. eapply returns_mono; [apply pop_single_source_hint_coherent|].
  - by apply with_hints_coherent.
  - cbn. rewrite lookup_insert_eq. eauto.
  - by intros f' [Hc' _].
Qed.

Lemma get_source_hint_coherent ctx ws f channel create f' o :
  get_source_hint ctx f channel create = (f', o) → coherent (fctx_node_id ctx) ws f →
  coherent (fctx_node_id ctx) ws f' ∧ (create = true → is_Some o).
Proof.
  unfold get_source_hint. intros Hget Hc. destruct (source_hints f !! channel); simplify_eq; [eauto|].
  destruct create; simplify_eq; [|done]. eauto using with_hints_coherent.
Qed.

(** *** Commands of the node's users *)

(** The feedback of a consumer goes to the relay of every source. *)
Lemma feedback_auto_coherent ctx ws f now actor channel fb srcs :
  coherent (fctx_node_id ctx) ws f →
  returns
    (foldM (λ self source,
              let '(self, r) := get_relay ctx self (channel, source) true in
              relay ← expect r;
              Done (pop_single_relay self (channel, source) (relay_on_local_feedback relay now actor fb))) f srcs)
    (coherent (fctx_node_id ctx) ws).
Proof.
  apply foldM_returns. intros f1 source _ Hc. destruct (get_relay _ _ _ _) as [f2 o] eqn:Hget.
  destruct (get_relay_coherent _ _ _ _ _ _ _ Hget Hc) as (Hc2 & _ & [g ->] & Hlk); [done|]. cbn.
  eapply relay_op_coherent; [done|by apply Hlk|apply relay_on_local_feedback_follows|by destruct g].
Qed.

Lemma pub_data_coherent node_id ws f (l : list (FeatureControlActor UserData)) ev b id data :
  coherent node_id ws f →
  coherent node_id ws (ps_push f (((λ a, OutEvent a ev) <$> l) ++ (if b : bool then [OutToWorker true (ToWRelayData id data)] else []))).
Proof.
  intros Hc. apply ps_push_coherent; [done|]. intros id'. rewrite controls_for_app.
  assert (∀ l', controls_for id' ((λ a, OutEvent a ev) <$> l') = []) as -> by (by induction l'). by destruct b.
Qed.

Lemma on_local_coherent (order : HashOrder) ctx ws f now actor channel control :
  coherent (fctx_node_id ctx) ws f →
  returns (on_local order ctx f now actor channel control) (coherent (fctx_node_id ctx) ws).
Proof.
  intros Hc. destruct control as [|fb| |source|source| |data|]; cbn [on_local].
  - destruct (get_source_hint _ _ _ _) as [f1 o] eqn:Hget.
    destruct (get_source_hint_coherent _ _ _ _ _ _ _ Hget Hc) as [Hc1 [sh ->]]; [done|]. by apply hint_local_coherent.
  - destruct (get_source_hint _ _ _ _) as [f1 o] eqn:Hget.
    destruct (get_source_hint_coherent _ _ _ _ _ _ _ Hget Hc) as [Hc1 _]. destruct o; [|done]. by apply feedback_auto_coherent.
  - destruct (get_source_hint _ _ _ _) as [f1 o] eqn:Hget.
    destruct (get_source_hint_coherent _ _ _ _ _ _ _ Hget Hc) as [Hc1 _]. destruct o; [by apply hint_local_coherent|done].
  - eapply returns_mono; [by apply on_sub_source_coherent|]. by intros f' [Hc' _].
  - by apply on_unsub_source_coherent.
  - destruct (get_relay _ _ _ _) as [f1 o] eqn:Hget.
    destruct (get_relay_coherent _ _ _ _ _ _ _ Hget Hc) as (Hc1 & _ & [g ->] & Hlk); [done|]. specialize (Hlk g eq_refl).
    pose proof (coherent_homed _ _ _ Hc1 _ _ Hlk) as Hg. destruct g as [r|r]; [|done]. cbn [expect mbind outcome_bind relay_on_pub_start].
    destruct (get_source_hint _ _ _ _) as [f2 o] eqn:Hget2.
    destruct (get_source_hint_coherent ctx ws _ _ _ _ _ Hget2) as [Hc2 [sh ->]]; [|done|by apply hint_local_coherent].
    by eapply (relay_op_coherent _ _ _ _ (LocalR r) (LocalR (lr_on_pub_start r actor))).
  - destruct (ps_relays f !! _) as [g|]; [|done]. destruct (relay_dests g) as [[l b]|]; [|done]. by apply pub_data_coherent.
  - eapply returns_bind with (P := coherent (fctx_node_id ctx) ws).
    + destruct (ps_relays f !! _) as [g|] eqn:Hlk; [|done]. pose proof (coherent_homed _ _ _ Hc _ _ Hlk) as Hg.
      destruct g as [r|r]; [|done]. by eapply (relay_op_coherent _ _ _ _ (LocalR r) (LocalR (lr_on_pub_stop r actor))).
    + intros f1 Hc1. destruct (get_source_hint _ _ _ _) as [f2 o] eqn:Hget.
      destruct (get_source_hint_coherent _ _ _ _ _ _ _ Hget Hc1) as [Hc2 _]. destruct o; [by apply hint_local_coherent|done].
Qed.

(** *** Messages of other nodes *)

Lemma on_remote_relay_control_coherent ctx ws f now remote id control :
  coherent (fctx_node_id ctx) ws f → coherent (fctx_node_id ctx) ws (on_remote_relay_control ctx f now remote id control).
Proof.
  intros Hc. unfold on_remote_relay_control. destruct (get_relay _ _ _ _) as [f1 o] eqn:Hget.
  destruct (get_relay_coherent _ _ _ _ _ _ _ Hget Hc) as (Hc1 & _ & _ & Hlk). destruct o as [g|]; [|done].
  eapply relay_op_coherent; [done|by apply Hlk|intros; by apply relay_on_remote_follows|by destruct g].
Qed.

Lemma on_remote_source_hint_control_coherent (order : HashOrder) ctx ws f now remote channel control :
  coherent (fctx_node_id ctx) ws f →
  returns (on_remote_source_hint_control order ctx f now remote channel control) (coherent (fctx_node_id ctx) ws).
Proof.
  intros Hc. unfold on_remote_source_hint_control. destruct (get_source_hint _ _ _ _) as [f1 o] eqn:Hget.
  destruct (get_source_hint_coherent _ _ _ _ _ _ _ Hget Hc) as [Hc1 _]. destruct o as [sh|]; [|done].
  eapply returns_bind; [apply pop_single_source_hint_coherent; [by apply with_hints_coherent|cbn; rewrite lookup_insert_eq; eauto]|].
  intros f2 (Hc2 & sh2 & _ & ->). rewrite lookup_insert_eq. cbn. destruct (hint_should_clear _); [|done]. by apply with_hints_coherent.
Qed.

(** *** Ticks and disconnections *)

Lemma remove_relays_coherent node_id ws ids : ∀ f,
  coherent node_id ws f → (∀ id, id ∈ ids → ∃ g, ps_relays f !! id = Some g ∧ relay_should_clear g = true) →
  coherent node_id ws (with_relays f (remove_all ids (ps_relays f))).
Proof.
  induction ids as [|id ids IH]; intros f Hc Hids; [by destruct f|].
  destruct (decide (id ∈ ids)) as [Hin|Hni].
  - assert (remove_all (id :: ids) (ps_relays f) = remove_all ids (ps_relays f)) as ->.
    { apply map_eq. intros id'. rewrite !lookup_remove_all. repeat case_decide; set_solver. }
    apply IH; [done|]. intros id' Hid'. apply Hids. by right.
  - destruct (Hids id) as (g & Hlk & Hg); [left|].
    apply (IH (with_relays f (delete id (ps_relays f)))); [by eapply clear_relay_coherent|].
    intros id' Hid'. cbn. rewrite lookup_delete_ne by set_solver. apply Hids. by right.
Qed.

Lemma tick_relays_coherent (order : HashOrder) node_id ws f now :
  coherent node_id ws f →
  let '(f', clears) := foldl (tick_relay order now) (f, []) (hash_iter (ps_relays f)) in
  coherent node_id ws (with_relays f' (remove_all clears (ps_relays f'))).
Proof.
  intros Hc.
  pose (I := λ (l : list (RelayId * GenericRelay UserData)) (s : PubSubFeature UserData Addr * list RelayId),
    coherent node_id ws s.1 ∧ NoDup (l.*1) ∧ (∀ id g, (id, g) ∈ l → ps_relays s.1 !! id = Some g) ∧
    (∀ id, id ∈ s.2 → (id ∉ l.*1) ∧ ∃ g, ps_relays s.1 !! id = Some g ∧ relay_should_clear g = true)).
  assert (I [] (foldl (tick_relay order now) (f, []) (hash_iter (ps_relays f)))) as HI.
  { apply foldl_invariant; [|split_and!; cbn; auto with sdn].
    - intros [id g] l [f1 clears] (Hc1 & Hnd & Hl & Hcl). cbn in *. apply NoDup_cons in Hnd as [Hni Hnd].
      assert (ps_relays f1 !! id = Some g) as Hlk by (apply Hl; left).
      destruct (relay_should_clear g) eqn:Hclr.
      + split_and!; cbn; [done|done|intros; apply Hl; by right|].
        intros id' [Hin| ->%list_elem_of_singleton]%elem_of_app; [|eauto]. destruct (Hcl id' Hin) as [Hn Hg].
        split; [set_solver|done].
      + split_and!; cbn; [|done| |].
        * eapply relay_op_coherent; [done|done|intros; by apply relay_on_tick_follows|by destruct g].
        * intros id' g' Hin. rewrite lookup_insert_ne; [apply Hl; by right|]. intros <-. by apply Hni, (list_elem_of_fmap_2 fst _ (id, g')).
        * intros id' Hin. destruct (Hcl id' Hin) as [Hn Hg]. rewrite lookup_insert_ne by set_solver. split; [set_solver|done].
    - intros id g Hin. by apply elem_of_hash_iter in Hin.
    - intros id Hin. by apply not_elem_of_nil in Hin. }
  destruct (foldl _ _ _) as [f' clears]. destruct HI as (Hc' & _ & _ & Hcl). apply remove_relays_coherent; [done|].
  intros id Hin. by apply Hcl.
Qed.

Lemma tick_hints_coherent (order : HashOrder) node_id ws f now :
  coherent node_id ws f →
  let '(f', clears, not_clears) := foldl (tick_hint order now) (f, [], []) (hash_iter (source_hints f)) in
  coherent node_id ws (with_hints f' (remove_all clears (source_hints f'))) ∧
  ∀ channel, channel ∈ not_clears → is_Some (remove_all clears (source_hints f') !! channel).
Proof.
  intros Hc.
  pose (I := λ (l : list (ChannelId * SourceHintLogic UserData)) (s : PubSubFeature UserData Addr * list ChannelId * list ChannelId),
    coherent node_id ws s.1.1 ∧ NoDup (l.*1) ∧ (∀ ch, ch ∈ s.1.2 → ch ∉ l.*1) ∧ (∀ ch, ch ∈ s.2 → ch ∉ l.*1) ∧
    (∀ ch, ch ∈ s.2 → (ch ∉ s.1.2) ∧ is_Some (source_hints s.1.1 !! ch))).
  assert (I [] (foldl (tick_hint order now) (f, [], []) (hash_iter (source_hints f)))) as HI.
  { apply foldl_invariant; [|split_and!; cbn; auto with sdn; intros ch Hin; by apply not_elem_of_nil in Hin].
    intros [ch sh] l [[f1 clears] not_clears] (Hc1 & Hnd & Hcl & Hncl & Hn). cbn in *. apply NoDup_cons in Hnd as [Hni Hnd].
    assert (∀ cs : list Z, (∀ c, c ∈ cs → c ∉ ch :: l.*1) → ∀ c, c ∈ cs → c ∉ l.*1) as Hr.
    { intros cs Hcs c Hin Hl. apply (Hcs c Hin). by right. }
    assert (∀ cs : list Z, (∀ c, c ∈ cs → c ∉ ch :: l.*1) → ∀ c, c ∈ cs ++ [ch] → c ∉ l.*1) as Hs.
    { intros cs Hcs c [Hin| ->%list_elem_of_singleton]%elem_of_app; [by apply (Hr cs)|done]. }
    assert (∀ (cs : list Z) c, (∀ c, c ∈ cs → c ∉ ch :: l.*1) → c ∈ cs → c ≠ ch) as Hne.
    { intros cs c Hcs Hin ->. apply (Hcs ch Hin). left. }
    destruct (hint_should_clear sh); split_and!; cbn; [done|done|by apply Hs|by apply Hr| |by apply with_hints_coherent|done|by apply Hr|by apply Hs|].
    - intros ch' Hin. destruct (Hn ch' Hin). split; [|done].
      intros [?| ->%list_elem_of_singleton]%elem_of_app; [done|]. by apply (Hne not_clears ch).
    - intros ch' [Hin| ->%list_elem_of_singleton]%elem_of_app.
      + destruct (Hn ch' Hin) as [? ?]. rewrite lookup_insert_ne by (intros <-; by apply (Hne not_clears ch)). done.
      + rewrite lookup_insert_eq. split; [|eauto]. intros Hin. by apply (Hne clears ch). }
  destruct (foldl _ _ _) as [[f' clears] not_clears]. destruct HI as (Hc' & _ & _ & _ & Hn). split; [by apply with_hints_coherent|].
  intros ch Hin. destruct (Hn ch Hin) as [Hni Hs]. by rewrite lookup_remove_all, decide_False.
Qed.

Lemma pubsub_on_tick_coherent (order : HashOrder) ctx ws f now :
  coherent (fctx_node_id ctx) ws f → returns (pubsub_on_tick order ctx f now) (coherent (fctx_node_id ctx) ws).
Proof.
  intros Hc. unfold pubsub_on_tick. pose proof (tick_relays_coherent order _ ws f now Hc) as H1.
  destruct (foldl (tick_relay order now) _ _) as [f1 clears]. pose proof (tick_hints_coherent order _ ws _ now H1) as H2.
  destruct (foldl (tick_hint order now) _ _) as [[f2 clears2] not_clears]. destruct H2 as [Hc2 Hn].
  apply (returns_mono _ (λ f', coherent (fctx_node_id ctx) ws f' ∧
    ∀ channel, channel ∈ not_clears → is_Some (source_hints f' !! channel))); [|by intros ? [? _]].
  apply foldM_returns; [|done].
  intros f3 ch Hin [Hc3 Hn3]. eapply returns_mono; [by apply (pop_single_source_hint_coherent _ ws); auto|].
  intros f4 (Hc4 & sh & _ & ->). split; [done|]. intros ch' Hin'. apply lookup_insert_is_Some'. auto.
Qed.

Lemma disconnect_relays_coherent (order : HashOrder) node_id ws f now pair :
  coherent node_id ws f →
  coherent node_id ws (foldl (λ self e, pop_single_relay self e.1 (relay_disconnected e.2 now pair)) f (hash_iter (ps_relays f))).
Proof.
  intros Hc.
  pose (I := λ (l : list (RelayId * GenericRelay UserData)) (s : PubSubFeature UserData Addr),
    coherent node_id ws s ∧ NoDup (l.*1) ∧ (∀ id g, (id, g) ∈ l → ps_relays s !! id = Some g)).
  apply (foldl_invariant _ I); [|split_and!; auto with sdn; intros id g Hin; by apply elem_of_hash_iter in Hin].
  intros [id g] l f1 (Hc1 & Hnd & Hl). cbn in *. apply NoDup_cons in Hnd as [Hni Hnd]. split_and!; [|done|].
  - eapply relay_op_coherent; [done|apply Hl; left|intros; by apply relay_disconnected_follows|by destruct g].
  - intros id' g' Hin. cbn. rewrite lookup_insert_ne; [apply Hl; by right|]. intros <-. by apply Hni, (list_elem_of_fmap_2 fst _ (id, g')).
Qed.
End feature.
