(* ===== verification/PubsubNode.v ===== *)
(** * Publish/subscribe on one node: the controller and a worker together

    The controller and a worker of a node take their inputs in any order, and
    the worker carries out the commands of the controller some time after they
    were queued. A node has several workers, each of which gets the same
    commands; what is shown of one holds of each. *)

From S2P Require Import Prelude NodeId ConnId Route Msg Base Neighbours PubsubMsg PubsubRelay PubsubHint Pubsub PubsubSim.

Section node.
Context {UserData : Type} `{EqDecision UserData} {Addr Secure : Type} `{CodecLaws PubsubMessage}.
Context {T : Type} `{RouterTable T NetPair} (ctx : FeatureContext).

Abbreviation PubSub := (PubSubFeature UserData Addr) (only parsing).
Abbreviation Worker := (PubSubFeatureWorker UserData) (only parsing).
Abbreviation Output := (FeatureOutput UserData Event (ToWorker UserData) Addr) (only parsing).
Abbreviation WorkerOutput := (FeatureWorkerOutput UserData Control Event ToController) (only parsing).
Implicit Types (f : PubSub) (w : Worker) (order : HashOrder) (wctx : FeatureWorkerContext T).

(** An output of the controller, as a worker sees it. *)
Definition carry_out order wctx w (out : Output) : outcome Worker :=
  match out with
  | OutToWorker broadcast msg => pubsub_worker_on_input order wctx w (WFromController broadcast msg)
  | _ => Done w
  end.

Inductive node_step : PubSub * Worker → PubSub * Worker → Prop :=
| node_input order now input f f' w :
    pubsub_on_input order ctx f now input = Done f' → node_step (f, w) (f', w)
| node_shared order now (input : FeatureSharedInput Secure) f f' w :
    pubsub_on_shared_input order ctx f now input = Done f' → node_step (f, w) (f', w)
| node_shutdown f w : node_step (f, w) (pubsub_on_shutdown f, w)
| node_command order wctx f f' w w' out :
    pubsub_pop_output f = (f', Some out) → carry_out order wctx w out = Done w' → node_step (f, w) (f', w')
| node_network remote buf f w : node_step (f, w) (f, worker_on_network_raw w remote buf)
| node_worker_control order wctx actor control f w w' :
    pubsub_worker_on_input order wctx w (WControl actor control) = Done w' → node_step (f, w) (f, w')
| node_worker_pop f w w' out : pubsub_worker_pop_output w = (w', out) → node_step (f, w) (f, w')
| node_worker_shutdown f w : node_step (f, w) (f, pubsub_worker_on_shutdown w).

Definition node_reachable (s : PubSub * Worker) : Prop := rtc node_step (pubsub_new, pubsub_worker_default) s.

(** ** The worker follows *)

(** A worker hands control messages to the controller, never raw messages. *)
Definition no_raw_forward (out : WorkerOutput) : Prop :=
  match out with ForwardNetworkToController _ _ _ | ForwardLocalToController _ _ => False | _ => True end.

Lemma relay_data_no_raw_forward id (r : WorkerRelay UserData) data : Forall no_raw_forward (relay_data id r data).
Proof.
  apply Forall_app. split; [apply Forall_fmap, Forall_true; done|]. unfold send_all.
  destruct (wr_remotes r); [constructor|by apply Forall_singleton].
Qed.

Lemma pw_push_no_raw_forward w outs :
  Forall no_raw_forward (pw_queue w) → Forall no_raw_forward outs → Forall no_raw_forward (pw_queue (pw_push w outs)).
Proof. intros. by apply Forall_app. Qed.

Lemma worker_relay_control_effect order wctx w id control w' :
  worker_relay_control order wctx w id control = Done w' →
  (∀ id', pw_relays w' !! id' = if bool_decide (id = id') then route_update (pw_relays w !! id) control else pw_relays w !! id') ∧
  (Forall no_raw_forward (pw_queue w) → Forall no_raw_forward (pw_queue w')).
Proof.
  assert (∀ w1, pw_relays w1 = pw_relays w → (∀ e, route_update e control = e) → ∀ id',
            pw_relays w1 !! id' = if bool_decide (id = id') then route_update (pw_relays w !! id) control else pw_relays w !! id') as Hsend.
  { intros w1 -> Hid id'. case_bool_decide; by subst; rewrite ?Hid. }
  assert (∀ dest msg, Forall no_raw_forward [send_to (UserData := UserData) dest msg]) as Hone by (by intros; apply Forall_singleton).
  assert (∀ c, worker_route w id c = w' → control = c → (∀ id',
            pw_relays w' !! id' = if bool_decide (id = id') then route_update (pw_relays w !! id) control else pw_relays w !! id') ∧
            (Forall no_raw_forward (pw_queue w) → Forall no_raw_forward (pw_queue w'))) as Hroute.
  { intros c <- ->. split; [|done]. intros id'. cbn. case_bool_decide; subst; [by rewrite lookup_partial_alter_eq|by rewrite lookup_partial_alter_ne]. }
  destruct control as [uuid [remote|]| | | | | | | | | | | ]; cbn [worker_relay_control]; intros Hdone;
    try (injection Hdone as <-; by eauto using pw_push_no_raw_forward); try (injection Hdone as Hdone; by eapply Hroute).
  - destruct (rt_next _ _) as [[next|]|]; [| |done]; cbn in Hdone; injection Hdone as <-; eauto using pw_push_no_raw_forward.
  - injection Hdone as <-. destruct (pw_relays w !! id); [|by eauto]. split; [by apply Hsend|]. intros Hw.
    apply pw_push_no_raw_forward; [done|]. apply Forall_fmap, Forall_true. done.
Qed.

Lemma worker_on_input_effect order wctx w input w' :
  pubsub_worker_on_input order wctx w input = Done w' →
  match input with
  | WFromController _ (ToWRelayControl id control) => worker_relay_control order wctx w id control = Done w'
  | _ => pw_relays w' = pw_relays w ∧ (Forall no_raw_forward (pw_queue w) → Forall no_raw_forward (pw_queue w'))
  end.
Proof.
  assert (∀ o : option (WorkerRelay UserData), ∀ g : WorkerRelay UserData → list WorkerOutput, (∀ r, Forall no_raw_forward (g r)) →
    match o with Some r => pw_push w (g r) | None => w end = w' →
    pw_relays w' = pw_relays w ∧ (Forall no_raw_forward (pw_queue w) → Forall no_raw_forward (pw_queue w'))) as Hpush.
  { intros [r|] g Hg <-; [|done]. split; [done|]. intros. by apply pw_push_no_raw_forward. }
  assert (∀ out, no_raw_forward out → Done (pw_push w [out]) = Done w' →
    pw_relays w' = pw_relays w ∧ (Forall no_raw_forward (pw_queue w) → Forall no_raw_forward (pw_queue w'))) as Hone.
  { intros out Ho [= <-]. apply (Hpush (Some worker_relay_empty) (λ _, [out])); [|done]. intros. by apply Forall_singleton. }
  destruct input as [b [id control|channel [remote|] hint|id data]|actor [channel control]|conn meta buf|meta buf];
    cbn [pubsub_worker_on_input]; intros Hdone.
  - done.
  - by (eapply Hone; [|exact Hdone]).
  - destruct (rt_path_to_key _ _) as [[]|]; cbn in Hdone; try (by simplify_eq). by (eapply Hone; [|exact Hdone]).
  - injection Hdone as Hdone. apply (Hpush (pw_relays w !! id) (λ r, send_all (wr_remotes r) (PubsubData id data))); [|done].
    intros r. unfold send_all. destruct (wr_remotes r); [constructor|by apply Forall_singleton].
  - destruct control; try (by (eapply Hone; [|exact Hdone])). injection Hdone as Hdone.
    apply (Hpush (pw_relays w !! (channel, wctx_node_id wctx)) (λ r, relay_data (channel, wctx_node_id wctx) r data)); [|done].
    intros r. apply relay_data_no_raw_forward.
  - by simplify_eq.
  - by simplify_eq.
Qed.

Record node_ok (s : PubSub * Worker) : Prop := {
  node_coherent : coherent (fctx_node_id ctx) (pw_relays s.2) s.1;
  node_no_raw_forward : Forall no_raw_forward (pw_queue s.2);
}.

Lemma pubsub_on_input_coherent order ws f now input :
  coherent (fctx_node_id ctx) ws f →
  match input with
  | FControl _ _ | FromWorker _ => returns (pubsub_on_input order ctx f now input) (coherent (fctx_node_id ctx) ws)
  | _ => pubsub_on_input order ctx f now input = Panic
  end.
Proof.
  intros Hc. destruct input as [[remote id control|remote channel control]|actor [channel control]| |]; cbn; [| | |done|done].
  - by apply on_remote_relay_control_coherent.
  - by apply on_remote_source_hint_control_coherent.
  - by apply on_local_coherent.
Qed.

Lemma pubsub_on_shared_input_coherent order ws f now (input : FeatureSharedInput Secure) :
  coherent (fctx_node_id ctx) ws f → returns (pubsub_on_shared_input order ctx f now input) (coherent (fctx_node_id ctx) ws).
Proof.
  intros Hc. destruct input as [n|[c s|c st|c]]; cbn; [by apply pubsub_on_tick_coherent|done|done|].
  by apply disconnect_relays_coherent.
Qed.

(** A command changes the entry of its relay now instead of later. *)
Lemma carry_out_coherent order wctx f f' w w' out :
  pubsub_pop_output f = (f', Some out) → carry_out order wctx w out = Done w' →
  node_ok (f, w) → node_ok (f', w').
Proof.
  unfold pubsub_pop_output. destruct (ps_queue f) as [|o q] eqn:Hq; [done|]. intros [= <- <-] Hw [[Hm Hh] Hn]. cbn in *.
  assert ((∀ id, pw_relays w' !! id = replay (pw_relays w !! id) (controls_for id [o])) ∧ Forall no_raw_forward (pw_queue w')) as [He Hn'].
  { destruct o as [b msg| | | | | |]; cbn [carry_out] in Hw; try (by simplify_eq).
    pose proof (worker_on_input_effect _ _ _ _ _ Hw) as Heff. destruct msg as [id control| |]; cbn in Heff; [|destruct Heff as [-> ?]; by auto..].
    destruct (worker_relay_control_effect _ _ _ _ _ _ Heff) as [Hr ?]. split; [|by auto].
    intros id'. rewrite Hr. cbn. case_bool_decide; by subst. }
  split; [|done]. split; [|done]. intros id. pose proof (Hm id) as Hid. unfold entry in *. cbn [fst snd ps_relays ps_queue] in *.
  rewrite Hq in Hid. change (o :: q) with ([o] ++ q) in Hid. rewrite controls_for_app, replay_app, <- He in Hid. done.
Qed.

Lemma reachable_ok s : node_reachable s → node_ok s.
Proof.
  unfold node_reachable. apply (rtc_ind_r node_ok).
  - split; [|constructor]. split; [|intros id g Hlk; cbn in Hlk; by apply lookup_empty_Some in Hlk].
    intros id. unfold entry. cbn. rewrite !lookup_empty. cbn. apply serves_nothing.
  - intros s1 s2 _ Hstep Hok. destruct Hstep as [order now input f f' w Hin|order now input f f' w Hin|f w|order wctx f f' w w' out Hp Hc
      |remote buf f w|order wctx actor control f w w' Hin|f w w' out Hin|f w].
    + pose proof (pubsub_on_input_coherent order _ _ now input (node_coherent _ Hok)) as Hi. cbn in Hi.
      destruct Hok. destruct input; try congruence; rewrite Hin in Hi; by split.
    + pose proof (pubsub_on_shared_input_coherent order _ _ now input (node_coherent _ Hok)) as Hi. cbn in Hi.
      destruct Hok. rewrite Hin in Hi. by split.
    + destruct Hok as [[]]. by split.
    + by eapply carry_out_coherent.
    + destruct Hok as [Hc Hn]. cbn in *. assert (pw_relays (worker_on_network_raw w remote buf) = pw_relays w ∧
        Forall no_raw_forward (pw_queue (worker_on_network_raw w remote buf))) as [Hr Hn'].
      { unfold worker_on_network_raw. destruct (pubsub_try_from buf) as [[id control|ch hint|id data]|]; [| | |done].
        - split; [done|]. by apply Forall_snoc.
        - split; [done|]. by apply Forall_snoc.
        - destruct (pw_relays w !! id); [|done]. case_bool_decide; [|done]. split; [done|].
          apply pw_push_no_raw_forward; [done|]. apply relay_data_no_raw_forward. }
      split; cbn; [by rewrite Hr|done].
    + destruct Hok as [Hc Hn]. cbn [fst snd] in *. destruct (worker_on_input_effect _ _ _ _ _ Hin) as [Hr Hn'].
      split; cbn; [by rewrite Hr|auto].
    + destruct Hok as [Hc Hn]. unfold pubsub_worker_pop_output in Hin. destruct (pw_queue w) eqn:Hq; simplify_eq; [by split|].
      cbn in Hn. rewrite Hq in Hn. apply Forall_cons in Hn as [_ Hn]. by split.
    + destruct Hok. by split.
Qed.

(** What the consumers of a relay are due: one event per local actor, one
    message to every remote node. *)
Definition passed_on (id : RelayId) (c : RelayConsumers UserData) (data : Buffer) (outs : list WorkerOutput) : Prop :=
  ∃ dests : list NetPair,
    outs = ((λ actor, WOutEvent actor (id.1, EvSourceData id.2 data)) <$> locals c) ++ send_all dests (PubsubData id data) ∧
    NoDup (locals c) ∧ NoDup dests ∧ ∀ r, r ∈ dests ↔ is_Some (remotes c !! r).

Lemma serves_passed_on id c data e :
  serves c e → passed_on id c data (match e with Some r => relay_data id r data | None => [] end).
Proof.
  intros [Hl Hln Hr Hrn]. exists (entry_remotes e). split_and!; [|done..]. rewrite <- Hl. by destruct e.
Qed.

Lemma pw_push_nil w : pw_push w [] = w.
Proof. destruct w. unfold pw_push. cbn. by rewrite app_nil_r. Qed.

(** The entry of a relay none of whose commands is under way. *)
Lemma settled_entry f w id : controls_for id (ps_queue f) = [] → entry f (pw_relays w) id = pw_relays w !! id.
Proof. intros Hq. unfold entry. by rewrite Hq. Qed.

(** What a relay none of whose commands is under way is to its worker. *)
Lemma settled_relay f w id :
  node_reachable (f, w) → controls_for id (ps_queue f) = [] →
  homed (fctx_node_id ctx) f ∧
  match ps_relays f !! id with
  | Some g => relay_outputs g = [] ∧ follows g (pw_relays w !! id)
  | None => serves consumers_default (pw_relays w !! id)
  end.
Proof.
  intros Hok%reachable_ok Hq. destruct Hok as [[Hm Hh] _]. split; [done|].
  pose proof (Hm id) as Hid. cbn [fst snd] in Hid. by rewrite settled_entry in Hid.
Qed.

(** The worker carries out the commands [q1] at the head of the queue. *)
Lemma carry_out_all order wctx q1 q2 : ∀ f w w',
  node_reachable (f, w) → ps_queue f = q1 ++ q2 → foldM (carry_out order wctx) w q1 = Done w' →
  ∃ f', node_reachable (f', w') ∧ ps_relays f' = ps_relays f ∧ ps_queue f' = q2.
Proof.
  induction q1 as [|o q1 IH]; intros f w w' Hr Hq; cbn [foldM]; [intros [= <-]; by exists f|].
  destruct (carry_out order wctx w o) as [w1|] eqn:Hw; [|done]. rewrite bind_Done. intros Hf.
  assert (∃ f1, pubsub_pop_output f = (f1, Some o) ∧ ps_relays f1 = ps_relays f ∧ ps_queue f1 = q1 ++ q2) as (f1 & Hp & <- & Hq1).
  { unfold pubsub_pop_output. rewrite Hq. cbn. by eexists. }
  apply (IH f1 w1 w'); [|done..]. unfold node_reachable in *. eapply rtc_r; [exact Hr|]. by eapply node_command.
Qed.

(** C12. Whatever the node went through before: when the controller's relay is
    bound to a node, and once the worker has carried out the commands about the
    relay that are still queued, data that comes from the node the relay is
    bound to reaches every consumer of the relay exactly once, and data that
    comes from anyone else is dropped. *)
Theorem relay_passes_on_data f w id r c fbs next at_ :
  node_reachable (f, w) → ps_relays f !! id = Some (RemoteR r) → rr_state r = Bound c fbs next at_ →
  ∀ order wctx q1 q2 w', ps_queue f = q1 ++ q2 → controls_for id q2 = [] → foldM (carry_out order wctx) w q1 = Done w' →
  ∀ remote data, ∃ outs,
    worker_on_network_raw w' remote (pubsub_into (PubsubData id data)) = pw_push w' outs ∧
    if decide (remote = next) then passed_on id c data outs else outs = [].
Proof.
  intros Hok Hlk Hst order wctx q1 q2 w' Hsplit Hq2 Hw' remote data.
  destruct (carry_out_all order wctx q1 q2 f w w' Hok Hsplit Hw') as (f' & Hok' & Hrel & Hq).
  rewrite <- Hq in Hq2. destruct (settled_relay _ _ _ Hok' Hq2) as [_ Hid].
  rewrite Hrel, Hlk in Hid. destruct Hid as [Ho Hf].
  cbn [follows relay_outputs] in *. rewrite Ho, Hst in Hf. destruct Hf as (_ & Hs & Hsrc). cbn in Hs, Hsrc.
  unfold worker_on_network_raw. rewrite pubsub_roundtrip.
  destruct (pw_relays w' !! id) as [wr|] eqn:Hw; [|done]. cbn in Hsrc. rewrite Hsrc. case_bool_decide as Heq; simplify_eq.
  - eexists. split; [done|]. rewrite decide_True by done. by apply (serves_passed_on _ _ _ (Some wr)).
  - exists []. rewrite pw_push_nil, decide_False by congruence. done.
Qed.

(** Data published on the node itself reaches every consumer of its relay
    exactly once, whether the publisher talks to a worker or to the
    controller. *)
Theorem published_data_reaches_consumers f w channel g :
  let id := (channel, fctx_node_id ctx) in
  node_reachable (f, w) → ps_relays f !! id = Some g → controls_for id (ps_queue f) = [] →
  ∃ r, g = LocalR r ∧
  ∀ order wctx now actor data, wctx_node_id wctx = fctx_node_id ctx →
    (∃ outs, pubsub_worker_on_input order wctx w (WControl actor (channel, PubData data)) = Done (pw_push w outs) ∧
             passed_on id (lr_consumers r) data outs) ∧
    (∃ more outs, on_local order ctx f now actor channel (PubData data) =
                    Done (ps_push f (((λ a, OutEvent a (channel, EvSourceData (fctx_node_id ctx) data)) <$> locals (lr_consumers r)) ++ more)) ∧
             foldM (carry_out order wctx) w more = Done (pw_push w outs) ∧
             passed_on id (lr_consumers r) data
               (((λ a, WOutEvent a (channel, EvSourceData (fctx_node_id ctx) data)) <$> locals (lr_consumers r)) ++ outs)).
Proof.
  intros id Hok Hlk Hq. destruct (settled_relay _ _ _ Hok Hq) as [Hh Hid].
  rewrite Hlk in Hid. destruct Hid as [Ho Hf]. pose proof (Hh _ _ Hlk) as Hg.
  destruct g as [r|r]; [|done]. exists r. split; [done|]. intros order wctx now actor data Hwctx.
  cbn [follows relay_outputs] in *. apply app_eq_nil in Ho as [_ Ho%fmap_nil_inv]. rewrite Ho in Hf. cbn in Hf.
  pose proof (serves_passed_on id _ data _ Hf) as Hp. split.
  - cbn [pubsub_worker_on_input]. rewrite Hwctx. fold id. eexists. split; [|exact Hp].
    destruct (pw_relays w !! id); [done|]. by rewrite pw_push_nil.
  - cbn [on_local]. fold id. rewrite Hlk. cbn [relay_dests lr_relay_dests consumers_relay_dests].
    eexists _, (send_all (entry_remotes (pw_relays w !! id)) (PubsubData id data)). split; [done|]. split.
    + case_bool_decide as He; cbn.
      * destruct Hf as [_ _ Hr _]. rewrite He in Hr. assert (entry_remotes (pw_relays w !! id) = []) as ->.
        { destruct (entry_remotes _) as [|x l]; [done|]. destruct (proj1 (Hr x)) as [? Hx]; [left|]. by rewrite lookup_empty in Hx. }
        by rewrite pw_push_nil.
      * fold id. destruct (pw_relays w !! id); [done|]. by rewrite pw_push_nil.
    + destruct Hf as [Hl Hln Hr Hrn]. by exists (entry_remotes (pw_relays w !! id)).
Qed.

(** C30. The controller never panics on what its users and its workers hand
    it, nor on ticks and connection events; it would on raw messages, and the
    workers never hand those over. *)
Theorem pubsub_never_panics f w :
  node_reachable (f, w) →
  (∀ order now input,
     match input with FControl _ _ | FromWorker _ => ∃ f', pubsub_on_input order ctx f now input = Done f' | _ => True end) ∧
  (∀ order now (input : FeatureSharedInput Secure), ∃ f', pubsub_on_shared_input order ctx f now input = Done f') ∧
  Forall no_raw_forward (pw_queue w).
Proof.
  intros Hok%reachable_ok. destruct Hok as [Hc Hn]. cbn [fst snd] in *. split_and!; [| |done].
  - intros order now input. pose proof (pubsub_on_input_coherent order _ _ now input Hc) as Hi.
    destruct input; try done; destruct (pubsub_on_input _ _ _ _ _); eauto; done.
  - intros order now input. pose proof (pubsub_on_shared_input_coherent order _ _ now input Hc) as Hi.
    destruct (pubsub_on_shared_input _ _ _ _ _); eauto; done.
Qed.
End node.

(** ** A node that runs *)

Section run.
Context {UserData : Type} `{EqDecision UserData} {Addr Secure : Type} {msg_codec : Codec PubsubMessage}.
Context {T : Type} `{RouterTable T NetPair} (order : HashOrder) (ctx : FeatureContext) (router : T).

(** A schedule: inputs of the controller, and the worker carrying out the
    oldest command, taking a message from the network or handing over an
    output. *)
Inductive NodeEvent :=
| RunInput (now : Z) (input : FeatureInput UserData Control ToController)
| RunCommand
| RunNetwork (remote : NetPair) (buf : Buffer)
| RunPop.

Definition node_run (s : PubSubFeature UserData Addr * PubSubFeatureWorker UserData) (ev : NodeEvent)
    : outcome (PubSubFeature UserData Addr * PubSubFeatureWorker UserData) :=
  let '(f, w) := s in
  match ev with
  | RunInput now input => f ← pubsub_on_input order ctx f now input; Done (f, w)
  | RunCommand =>
      match pubsub_pop_output f with
      | (f, Some out) => w ← carry_out order (mkWorkerContext (fctx_node_id ctx) router) w out; Done (f, w)
      | (f, None) => Done (f, w)
      end
  | RunNetwork remote buf => Done (f, worker_on_network_raw w remote buf)
  | RunPop => Done (f, (pubsub_worker_pop_output w).1)
  end.

Lemma node_run_step s ev s' : node_run s ev = Done s' → rtc (node_step (T := T) (Secure := Secure) ctx) s s'.
Proof.
  destruct s as [f w]. destruct ev as [now input| |remote buf|]; cbn [node_run].
  - destruct (pubsub_on_input _ _ _ _ _) eqn:Hi; [|done]. intros [= <-]. apply rtc_once. by eapply node_input.
  - destruct (pubsub_pop_output f) as [f1 [out|]] eqn:Hp.
    + destruct (carry_out _ _ _ _) eqn:Hw; [|done]. intros [= <-]. apply rtc_once. by eapply node_command.
    + intros [= <-]. unfold pubsub_pop_output in Hp. destruct (ps_queue f); simplify_eq. apply rtc_refl.
  - intros [= <-]. apply rtc_once. by eapply node_network.
  - intros [= <-]. apply rtc_once. eapply node_worker_pop. apply surjective_pairing.
Qed.

Lemma node_run_reachable evs s :
  foldM node_run (pubsub_new, pubsub_worker_default) evs = Done s → node_reachable (T := T) (Secure := Secure) ctx s.
Proof.
  unfold node_reachable. generalize (pubsub_new (UserData := UserData) (Addr := Addr), pubsub_worker_default (UserData := UserData)) as s0.
  induction evs as [|ev evs IH]; intros s0; cbn; [intros [= <-]; apply rtc_refl|].
  destruct (node_run s0 ev) as [s1|] eqn:Hs; [|done]. intros Hr. etrans; [by eapply node_run_step|by apply IH].
Qed.
End run.

Arguments NodeEvent UserData : clear implicits.

(** ** Two nodes that run

    Node 1 publishes on channel 7, an actor of node 2 subscribes to it. *)

#[local] Existing Instance demo_pubsub_codec.
#[local] Existing Instance demo_pubsub_laws.

Definition demo_addr (n : Z) : SocketAddr := SocketV4 n 10000.
(** The pair of node [a] towards node [b]. *)
Definition demo_pair (a b : Z) : NetPair := mkNetPair (demo_addr a) (demo_addr b).

(** The router of node [a]: it reaches every other node directly. *)
#[local] Instance demo_router : RouterTable Z NetPair := {
  rt_closest_for a key := Done None;
  rt_next a dest := Done (if dest =? a then None else Some (demo_pair a dest));
  rt_path_to_node a dest := Done (if dest =? a then Local else Next (demo_pair a dest));
  rt_path_to_key a key := Done Local;
  rt_path_to_service a s := Reject;
  rt_path_to_services a s _ _ _ _ := (a, Reject);
}.

Definition demo_ctx (n : Z) : FeatureContext := mkFeatureContext n (100 + n).

Definition demo_run (n : Z) (evs : list (NodeEvent Z)) : outcome (PubSubFeature Z unit * PubSubFeatureWorker Z) :=
  foldM (node_run canonical_order (demo_ctx n) n) (pubsub_new, pubsub_worker_default) evs.

(** What the two nodes do, message by message. *)
Definition demo_subscriber : list (NodeEvent Z) :=
  [RunInput 0 (FControl (ActorService 5) (7, SubSource 1)); RunCommand; RunCommand;
   RunInput 1 (FromWorker (ToCRelayControl (demo_pair 2 1) (7, 1) (RelaySubOK 102))); RunCommand].
Definition demo_publisher : list (NodeEvent Z) :=
  [RunInput 0 (FControl (ActorService 9) (7, PubStart)); RunInput 0 (FControl (ActorService 8) (7, SubAuto));
   RunInput 1 (FromWorker (ToCRelayControl (demo_pair 1 2) (7, 1) (RelaySub 102)));
   RunCommand; RunCommand; RunCommand; RunCommand; RunCommand].

Definition demo_state (n : Z) (evs : list (NodeEvent Z)) : PubSubFeature Z unit * PubSubFeatureWorker Z :=
  match demo_run n evs with Done s => s | Panic => (pubsub_new, pubsub_worker_default) end.

Lemma demo_state_reachable n evs s :
  demo_run n evs = Done s → node_reachable (T := Z) (Secure := unit) (demo_ctx n) s.
Proof. apply node_run_reachable. Qed.

Definition demo_consumers (l : list (FeatureControlActor Z)) (rs : list (NetPair * RelayRemote)) : RelayConsumers Z :=
  mkConsumers (list_to_map rs) l [].

(** The relay is bound, the command that says so still queued. *)
Definition demo_binding : list (NodeEvent Z) :=
  [RunInput 0 (FControl (ActorService 5) (7, SubSource 1)); RunCommand; RunCommand;
   RunInput 1 (FromWorker (ToCRelayControl (demo_pair 2 1) (7, 1) (RelaySubOK 102)))].

Lemma relay_passes_on_data_witness :
  let '(f, w) := demo_state 2 demo_binding in
  length (ps_queue f) = 1%nat ∧
  match foldM (carry_out canonical_order (mkWorkerContext 2 2)) w (ps_queue f) with
  | Done w' => ∃ outs, worker_on_network_raw w' (demo_pair 2 1) (pubsub_into (PubsubData (7, 1) [1; 2; 3])) = pw_push w' outs ∧
      passed_on (7, 1) (demo_consumers [ActorService 5] []) [1; 2; 3] outs
  | Panic => False
  end.
Proof.
  split; [vm_compute; reflexivity|].
  pose (r := mkRemoteRelay (UserData := Z) 102 (Bound (demo_consumers [ActorService 5] []) aggerator_default (demo_pair 2 1) 1) []).
  pose (w' := (demo_state 2 demo_subscriber).2).
  exact (relay_passes_on_data (T := Z) (Secure := unit) (demo_ctx 2) (demo_state 2 demo_binding).1 (demo_state 2 demo_binding).2
    (7, 1) r (demo_consumers [ActorService 5] []) aggerator_default (demo_pair 2 1) 1
    (demo_state_reachable 2 demo_binding _ ltac:(vm_compute; reflexivity))
    ltac:(vm_compute; reflexivity) eq_refl canonical_order (mkWorkerContext 2 2) (ps_queue (demo_state 2 demo_binding).1) [] w'
    ltac:(vm_compute; reflexivity) ltac:(vm_compute; reflexivity) ltac:(vm_compute; reflexivity) (demo_pair 2 1) [1; 2; 3]).
Defined.

Lemma published_data_reaches_consumers_witness :
  let '(f, w) := demo_state 1 demo_publisher in
  ∃ outs, pubsub_worker_on_input canonical_order (mkWorkerContext 1 1) w (WControl (ActorService 9) (7, PubData [1; 2; 3])) = Done (pw_push w outs) ∧
          passed_on (7, 1) (demo_consumers [ActorService 8] [(demo_pair 1 2, mkRelayRemote 102 1)]) [1; 2; 3] outs.
Proof.
  pose (r := mkLocalRelay (demo_consumers [ActorService 8] [(demo_pair 1 2, mkRelayRemote 102 1)]) aggerator_default [ActorService 9]).
  destruct (published_data_reaches_consumers (T := Z) (Secure := unit) (demo_ctx 1) (demo_state 1 demo_publisher).1
    (demo_state 1 demo_publisher).2 7 (LocalR r)
    (demo_state_reachable 1 demo_publisher _ ltac:(vm_compute; reflexivity))
    ltac:(vm_compute; reflexivity) ltac:(vm_compute; reflexivity)) as (r' & [= <-] & Hd).
  exact (proj1 (Hd canonical_order (mkWorkerContext 1 1) 0 (ActorService 9) [1; 2; 3] eq_refl)).
Defined.

Lemma pubsub_never_panics_witness :
  ∃ f', pubsub_on_shared_input (Secure := unit) canonical_order (demo_ctx 2) (demo_state 2 demo_subscriber).1 20000 (Tick 1) = Done f'.
Proof.
  apply (pubsub_never_panics (T := Z) (Secure := unit) (demo_ctx 2) (demo_state 2 demo_subscriber).1 (demo_state 2 demo_subscriber).2
    (demo_state_reachable 2 demo_subscriber _ ltac:(vm_compute; reflexivity))).
Defined.

(** The message of the publisher's worker is an event for the subscriber. *)
Example demo_delivery :
  let '(_, wa) := demo_state 1 (demo_publisher ++ [RunInput 2 (FControl (ActorService 9) (7, PubData [42])); RunCommand; RunCommand]) in
  let buf := pubsub_into (PubsubData (7, 1) [42]) in
  last (pw_queue wa) = Some (WOutRawBroadcast2 [demo_pair 1 2] buf) ∧
  let '(_, wb) := demo_state 2 (demo_subscriber ++ [RunNetwork (demo_pair 2 1) buf]) in
  last (pw_queue wb) = Some (WOutEvent (ActorService 5) (7, EvSourceData 1 [42])).
Proof. vm_compute. by split. Qed.
