(* ===== verification/PubsubTree.v ===== *)
(** * Publish/subscribe over many nodes: the tree of relays of one source

    The relays of a source on the nodes of a network form a tree: the source
    has a local relay, and every other node is bound to the node its data
    comes from. Data travels along the tree while the tree stands still: a
    worker takes it from the network, tells its local consumers and sends it to
    the nodes that subscribed. Workers and links interleave in any way, and
    links may lose messages. Shown is that every local consumer of every bound
    node is told of everything that is published, once each. *)

From S2P Require Import Prelude NodeId ConnId Route Msg Base Neighbours PubsubMsg PubsubRelay PubsubHint Pubsub PubsubSim PubsubNode.

(** ** The network *)

Section net.
Context {UserData : Type} `{EqDecision UserData} `{Codec PubsubMessage}.
Context {T : Type} `{RouterTable T NetPair}.
(** The node at the other end of a connection, and the pair the connection has
    there. *)
Context (id : RelayId) (link : NodeId → NetPair → option (NodeId * NetPair)).

Abbreviation Worker := (PubSubFeatureWorker UserData) (only parsing).
Abbreviation WorkerOutput := (FeatureWorkerOutput UserData Control Event ToController) (only parsing).
Abbreviation Actor := (FeatureControlActor UserData) (only parsing).

(** A message on its way: to which node, over which of its connections. *)
Abbreviation Flight := (NodeId * NetPair * Buffer)%type (only parsing).

(** What happened at a node: a message came in, an output went out, a local
    consumer was told of data. *)
Inductive Mark :=
| Arrived (node : NodeId)
| Sent (node : NodeId)
| Told (node : NodeId) (actor : Actor) (data : Buffer).

Record Net := mkNet {
  workers : gmap NodeId Worker;
  flights : list Flight;
  lost : list Flight;
  published : list Buffer;
  history : list Mark;
}.

(** The messages an output puts on the links of a node. *)
Definition sends (node : NodeId) (out : WorkerOutput) : list Flight :=
  match out with
  | WOutRawBroadcast2 dests buf => (λ e, (e, buf)) <$> omap (link node) dests
  | WOutRawDirect2 dest buf => (λ e, (e, buf)) <$> omap (link node) [dest]
  | _ => []
  end.

Definition mark (node : NodeId) (out : WorkerOutput) : Mark :=
  match out with
  | WOutEvent actor (_, EvSourceData _ data) => Told node actor data
  | _ => Sent node
  end.

(** What the consumers on a node were told. *)
Definition told_at (node : NodeId) (m : Mark) : option (Actor * Buffer) :=
  match m with Told node' actor data => if bool_decide (node' = node) then Some (actor, data) else None | _ => None end.

Definition told (node : NodeId) (marks : list Mark) : list (Actor * Buffer) := omap (told_at node) marks.

(** A worker takes a message, or hands over its oldest output. *)
Inductive travel : Net → Net → Prop :=
| travel_arrive ws l1 node remote buf l2 ls pub hist w :
    ws !! node = Some w →
    travel (mkNet ws (l1 ++ (node, remote, buf) :: l2) ls pub hist)
           (mkNet (<[node := worker_on_network_raw w remote buf]> ws) (l1 ++ l2) ls pub (hist ++ [Arrived node]))
| travel_leave ws fl ls pub hist node w w' out :
    ws !! node = Some w → pubsub_worker_pop_output w = (w', Some out) →
    travel (mkNet ws fl ls pub hist)
           (mkNet (<[node := w']> ws) (fl ++ sends node out) ls pub (hist ++ [mark node out])).

Inductive net_step : Net → Net → Prop :=
| net_travel s s' : travel s s' → net_step s s'
| net_publish order (router : T) actor data ws fl ls pub hist w w' :
    ws !! id.2 = Some w →
    pubsub_worker_on_input order (mkWorkerContext id.2 router) w (WControl actor (id.1, PubData data)) = Done w' →
    net_step (mkNet ws fl ls pub hist) (mkNet (<[id.2 := w']> ws) fl ls (pub ++ [data]) hist)
| net_lose ws l1 flight l2 ls pub hist :
    net_step (mkNet ws (l1 ++ flight :: l2) ls pub hist) (mkNet ws (l1 ++ l2) (flight :: ls) pub hist).

(** Nothing is under way. *)
Definition quiet (s : Net) : Prop := flights s = [] ∧ ∀ node w, workers s !! node = Some w → pw_queue w = [].
End net.

Arguments Mark UserData : clear implicits.
Arguments Net UserData : clear implicits.

(** ** The tree *)

Section tree.
Context {UserData : Type} `{EqDecision UserData} {Addr Secure : Type} `{CodecLaws PubsubMessage}.
Context {T : Type} `{RouterTable T NetPair}.
Context (id : RelayId) (link : NodeId → NetPair → option (NodeId * NetPair)).
Context (nodes : gmap NodeId (PubSubFeature UserData Addr * PubSubFeatureWorker UserData)).
Context (session : NodeId → Z) (depth : NodeId → nat).

Abbreviation WorkerOutput := (FeatureWorkerOutput UserData Control Event ToController) (only parsing).
Implicit Types (f : PubSubFeature UserData Addr) (w : PubSubFeatureWorker UserData) (s : Net UserData) (v u : NodeId)
  (c : RelayConsumers UserData) (m : Mark UserData) (out : WorkerOutput).

(** The consumers of a relay that is bound, and the connection it is bound to;
    the relay of the source has none. *)
Definition live f : option (RelayConsumers UserData * option NetPair) :=
  match ps_relays f !! id with
  | Some (LocalR r) => Some (lr_consumers r, None)
  | Some (RemoteR r) => match rr_state r with Bound c _ next _ => Some (c, Some next) | _ => None end
  | None => None
  end.

Definition consumers v : option (RelayConsumers UserData) := s ← nodes !! v; l ← live s.1; Some l.1.
Definition upstream v : option NetPair := s ← nodes !! v; l ← live s.1; l.2.

(** Every node came about by the steps of its controller and its worker, and
    its worker has carried out the commands about the relay. Who subscribed at
    a node is who is bound to it, and following the bindings leads upwards. *)
Record settled_tree : Prop := {
  tree_node v f w : nodes !! v = Some (f, w) →
    node_reachable (T := T) (Secure := Secure) (mkFeatureContext v (session v)) (f, w) ∧
    controls_for id (ps_queue f) = [] ∧ pw_queue w = [];
  tree_link v p u q : link v p = Some (u, q) → link u q = Some (v, p);
  tree_down v c p : consumers v = Some c → is_Some (remotes c !! p) →
    ∃ u q, link v p = Some (u, q) ∧ upstream u = Some q;
  tree_up u q : upstream u = Some q →
    ∃ v p c, link u q = Some (v, p) ∧ consumers v = Some c ∧ is_Some (remotes c !! p) ∧ depth u = S (depth v);
}.

Definition start : Net UserData := mkNet (snd <$> nodes) [] [] [] [].

(** What the local consumers of a node are due. *)
Definition served v : RelayConsumers UserData := default consumers_default (consumers v).
Definition due v (pub : list Buffer) : list (FeatureControlActor UserData * Buffer) :=
  pub ≫= λ data, (λ actor, (actor, data)) <$> locals (served v).

(** The entry of the relay in the worker of a node. *)
Definition table v : option (WorkerRelay UserData) := s ← nodes !! v; pw_relays s.2 !! id.
Definition kids v : list (NodeId * NetPair) := omap (link v) (entry_remotes (table v)).

(** The nodes data goes to. *)
Definition takes v : Prop := v = id.2 ∨ is_Some (upstream v).

Context (Htree : settled_tree).

Lemma upstream_consumers v q : upstream v = Some q → ∃ c, consumers v = Some c ∧ serves c (table v) ∧ entry_source (table v) = Some q.
Proof.
  unfold upstream, consumers, table. destruct (nodes !! v) as [[f w]|] eqn:Hv; [|done]. cbn. unfold live.
  destruct (tree_node Htree _ _ _ Hv) as (Hr & Hq & _). destruct (settled_relay _ _ _ _ Hr Hq) as [_ Hid].
  destruct (ps_relays f !! id) as [[r|r]|]; cbn; [done| |done]. destruct Hid as [Ho Hf].
  destruct (rr_state r) as [| |c fbs next at_| |] eqn:Hst; cbn; intros [= <-]. exists c. split; [done|].
  cbn [follows relay_outputs] in *. rewrite Ho, Hst in Hf. cbn in Hf. tauto.
Qed.

Lemma source_serves : serves (served id.2) (table id.2).
Proof.
  unfold served, consumers, table. destruct (nodes !! id.2) as [[f w]|] eqn:Hv; cbn; [|apply serves_nothing]. unfold live.
  destruct (tree_node Htree _ _ _ Hv) as (Hr & Hq & _). destruct (settled_relay _ _ _ _ Hr Hq) as [Hh Hid].
  destruct (ps_relays f !! id) as [[r|r]|] eqn:Hlk; cbn; [|by destruct (Hh _ _ Hlk)|done]. destruct Hid as [Ho Hf].
  cbn [follows relay_outputs] in *. apply app_eq_nil in Ho as [_ Ho%fmap_nil_inv]. by rewrite Ho in Hf.
Qed.

Lemma takes_serves v : takes v → serves (served v) (table v).
Proof.
  intros [->|[q Hq]]; [apply source_serves|]. destruct (upstream_consumers _ _ Hq) as (c & Hc & Hs & _).
  unfold served. by rewrite Hc.
Qed.

(** A node with consumers is the source or bound. *)
Lemma consumers_takes v c : consumers v = Some c → takes v.
Proof.
  unfold consumers, takes, upstream. destruct (nodes !! v) as [[f w]|] eqn:Hv; [|done]. cbn. unfold live.
  destruct (tree_node Htree _ _ _ Hv) as (Hr & Hq & _). destruct (settled_relay _ _ _ _ Hr Hq) as [Hh _].
  destruct (ps_relays f !! id) as [[r|r]|] eqn:Hlk; cbn; [|destruct (rr_state r); cbn; try done; by eauto|done].
  intros _. left. symmetry. apply (Hh _ _ Hlk).
Qed.

Lemma kids_elem v e : takes v → e ∈ kids v → upstream e.1 = Some e.2 ∧ depth e.1 = S (depth v).
Proof.
  intros Ht (p & Hp & Hl)%list_elem_of_omap. destruct e as [u q]. destruct (takes_serves _ Ht) as [_ _ Hr _].
  apply Hr in Hp. unfold served in Hp. destruct (consumers v) as [c|] eqn:Hc; [|by destruct Hp as [? Hp]; cbn in Hp; rewrite lookup_empty in Hp].
  destruct (tree_down Htree _ _ _ Hc Hp) as (u' & q' & Hl' & Hu). simplify_eq. split; [done|]. cbn.
  destruct (tree_up Htree _ _ Hu) as (v' & p' & c' & Hl' & _ & _ & Hd). apply (tree_link Htree) in Hl. by simplify_eq.
Qed.

Lemma upstream_kid u q : upstream u = Some q → ∃ v, takes v ∧ (u, q) ∈ kids v ∧ depth u = S (depth v).
Proof.
  intros Hu. destruct (tree_up Htree _ _ Hu) as (v & p & c & Hl & Hc & Hp & Hd). exists v.
  assert (takes v) as Ht by (by eapply consumers_takes). split_and!; [done| |done].
  apply list_elem_of_omap. exists p. split; [|by apply (tree_link Htree)]. destruct (takes_serves _ Ht) as [_ _ Hr _]. apply Hr.
  unfold served. by rewrite Hc.
Qed.

Lemma kids_nodup v : takes v → NoDup (kids v).*1.
Proof.
  intros Ht. destruct (takes_serves _ Ht) as [_ _ _ Hn]. unfold kids in *.
  assert (∀ e, e ∈ omap (link v) (entry_remotes (table v)) → upstream e.1 = Some e.2) as Hk by (intros e He; by apply (kids_elem v)).
  induction (entry_remotes (table v)) as [|p l IH]; [constructor|]. apply NoDup_cons in Hn as [Hp Hn]. cbn in Hk |- *.
  destruct (link v p) as [[u q]|] eqn:Hl; [|by apply IH]. cbn. constructor; [|apply IH; [done|]; intros; apply Hk; by right].
  intros ([u' q'] & Hu & He)%list_elem_of_fmap. cbn in Hu. subst u'. pose proof (Hk (u, q) ltac:(left)) as Hq.
  pose proof (Hk (u, q') ltac:(by right)) as Hq'. cbn in Hq, Hq'. assert (q' = q) as -> by congruence.
  apply list_elem_of_omap in He as (p' & Hp' & Hl'). apply (tree_link Htree) in Hl, Hl'. by simplify_eq.
Qed.

(** The nodes below a node, itself included; no chain of bindings is longer
    than the deepest node. *)
Definition hops : nat := max_list (depth <$> (map_to_list nodes).*1).
Definition height v : nat := S (hops - depth v).

Fixpoint visits_fuel (fuel : nat) v : list NodeId :=
  match fuel with O => [] | S fuel => v :: (kids v ≫= λ e, visits_fuel fuel e.1) end.
Definition visits v : list NodeId := visits_fuel (height v) v.

Lemma upstream_hops v q : upstream v = Some q → (depth v ≤ hops)%nat.
Proof.
  unfold upstream. destruct (nodes !! v) as [x|] eqn:Hv; [|done]. intros _. apply max_list_elem_of_le, list_elem_of_fmap.
  exists v. split; [done|]. apply list_elem_of_fmap. exists (v, x). split; [done|]. by apply elem_of_map_to_list.
Qed.

Lemma kid_height v e : takes v → e ∈ kids v → height v = S (height e.1).
Proof. intros Ht He. destruct (kids_elem _ _ Ht He) as [Hu Hd]. apply upstream_hops in Hu. unfold height. lia. Qed.

Lemma visits_unfold v : takes v → visits v = v :: (kids v ≫= λ e, visits e.1).
Proof.
  intros Ht. unfold visits at 1. cbn. f_equal. apply Forall_bind_ext, Forall_forall. intros e He.
  unfold visits. pose proof (kid_height _ _ Ht He) as Hh. unfold height in *. by injection Hh as ->.
Qed.

Lemma kid_takes v e : takes v → e ∈ kids v → takes e.1.
Proof. intros Ht He. right. eexists. by apply (kids_elem v). Qed.

(** Induction along the tree. *)
Lemma tree_ind (P : NodeId → Prop) :
  (∀ v, takes v → (∀ e, e ∈ kids v → P e.1) → P v) → ∀ v, takes v → P v.
Proof.
  intros Hstep v. remember (height v) as k eqn:Hk. revert v Hk. induction k as [k IH] using lt_wf_ind. intros v -> Ht.
  apply Hstep; [done|]. intros e He. pose proof (kid_height _ _ Ht He). eapply IH; [|done|by eapply kid_takes]. lia.
Qed.

(** A node above another one is found by going up from it. *)
Definition parent v : option NodeId := q ← upstream v; e ← link v q; Some e.1.
Fixpoint ancestor (n : nat) v : option NodeId :=
  match n with O => Some v | S n => u ← ancestor n v; parent u end.

Lemma kid_parent v e : takes v → e ∈ kids v → parent e.1 = Some v.
Proof.
  intros Ht He. destruct (kids_elem _ _ Ht He) as [Hu _]. unfold parent. rewrite Hu. cbn.
  apply list_elem_of_omap in He as (p & _ & Hl). destruct e as [u q]. apply (tree_link Htree) in Hl. cbn. by rewrite Hl.
Qed.

Lemma visits_depth v u : takes v → u ∈ visits v → (depth v ≤ depth u)%nat ∧ ancestor (depth u - depth v) u = Some v.
Proof.
  intros Ht. revert v Ht. apply (tree_ind (λ v, u ∈ visits v → (depth v ≤ depth u)%nat ∧ ancestor (depth u - depth v) u = Some v)).
  intros v Ht IH. rewrite visits_unfold by done. intros [->|(e & Hu & He)%list_elem_of_bind]%elem_of_cons.
  - by rewrite Nat.sub_diag.
  - destruct (IH e He Hu) as [Hle Ha]. destruct (kids_elem _ _ Ht He) as [_ Hd]. split; [lia|].
    replace (depth u - depth v)%nat with (S (depth u - depth e.1)) by lia. cbn. rewrite Ha. cbn. by apply kid_parent.
Qed.

(** No node is reached twice. *)
Lemma visits_nodup v : takes v → NoDup (visits v).
Proof.
  revert v. apply tree_ind. intros v Ht IH. rewrite visits_unfold by done. constructor.
  - intros (e & Hv & He)%list_elem_of_bind. apply visits_depth in Hv as [Hle _]; [|by eapply kid_takes].
    destruct (kids_elem _ _ Ht He) as [_ Hd]. lia.
  - pose proof (kids_nodup _ Ht) as Hn. apply NoDup_fmap_1 in Hn as Hk. apply NoDup_bind; [|done|done].
    intros e1 e2 u He1 He2 Hu1 Hu2.
    apply visits_depth in Hu1 as [_ Ha1], Hu2 as [_ Ha2]; [|by eapply kid_takes..].
    destruct (kids_elem _ _ Ht He1) as [Hq1 Hd1], (kids_elem _ _ Ht He2) as [Hq2 Hd2].
    rewrite Hd1, <- Hd2, Ha2 in Ha1. destruct e1, e2. cbn in *. congruence.
Qed.

(** Every bound node is reached from the source. *)
Lemma visits_closed v u e : takes v → u ∈ visits v → takes u → e ∈ kids u → e.1 ∈ visits v.
Proof.
  intros Ht. revert v Ht. apply (tree_ind (λ v, u ∈ visits v → takes u → e ∈ kids u → e.1 ∈ visits v)).
  intros v Ht IH Hu Htu He. rewrite visits_unfold in Hu |- * by done. apply elem_of_cons in Hu as [->|(k & Hu & Hk)%list_elem_of_bind].
  - right. apply list_elem_of_bind. exists e. split; [|done]. rewrite visits_unfold by (by eapply kid_takes). left.
  - right. apply list_elem_of_bind. exists k. split; [|done]. by apply IH.
Qed.

Lemma source_takes : takes id.2.
Proof. by left. Qed.

Lemma takes_visited v : takes v → v ∈ visits id.2.
Proof.
  remember (depth v) as n eqn:Hn. revert v Hn. induction n as [n IH] using lt_wf_ind. intros v -> [->|[q Hq]].
  - rewrite visits_unfold by apply source_takes. left.
  - destruct (upstream_kid _ _ Hq) as (u & Hu & Hk & Hd). apply (visits_closed _ u (v, q)); [apply source_takes| |done|done].
    eapply IH; [|done|done]. lia.
Qed.

(** ** What is still to happen *)

(** What a node that data reaches does with it, and what the nodes below it
    do. *)
Definition at_node (data : Buffer) v : list (Mark UserData) :=
  ((λ actor, Told v actor data) <$> locals (served v)) ++
  match entry_remotes (table v) with [] => [] | _ => Sent v :: ((λ e, Arrived e.1) <$> kids v) end.
Definition spread (data : Buffer) v : list (Mark UserData) := visits v ≫= at_node data.

Definition flight_future (flight : NodeId * NetPair * Buffer) : list (Mark UserData) :=
  Arrived flight.1.1 ::
  match pubsub_try_from flight.2 with inl (PubsubData _ data) => spread data flight.1.1 | _ => [] end.
Definition out_future v out : list (Mark UserData) := mark v out :: (sends link v out ≫= flight_future).
Definition queue_future (e : NodeId * PubSubFeatureWorker UserData) : list (Mark UserData) := pw_queue e.2 ≫= out_future e.1.

Definition pending s : list (Mark UserData) :=
  (lost s ≫= flight_future) ++ (flights s ≫= flight_future) ++ (map_to_list (workers s) ≫= queue_future).

(** Nothing but data of the relay is under way, towards nodes that take it. *)
Definition data_flight (flight : NodeId * NetPair * Buffer) : Prop :=
  upstream flight.1.1 = Some flight.1.2 ∧ ∃ data, flight.2 = pubsub_into (PubsubData id data).

Definition data_out v out : Prop := Forall data_flight (sends link v out).

Record workers_ok (ws : gmap NodeId (PubSubFeatureWorker UserData)) : Prop := {
  ok_table v w : ws !! v = Some w → pw_relays w !! id = table v;
  ok_nodes v : is_Some (nodes !! v) → is_Some (ws !! v);
  ok_queues v w : ws !! v = Some w → Forall (data_out v) (pw_queue w);
}.

Record net_ok s : Prop := {
  ok_workers : workers_ok (workers s);
  ok_flights : Forall data_flight (flights s);
  ok_marks : history s ++ pending s ≡ₚ (published s ≫= λ data, spread data id.2);
}.

(** The outputs a worker makes of data are what the node does with it. *)
Definition data_outputs (data : Buffer) v : list WorkerOutput :=
  match table v with Some r => relay_data id r data | None => [] end.

Lemma data_sends data v dests :
  sends link v (WOutRawBroadcast2 (UserData := UserData) (Control := Control) (Event := Event) (ToController := ToController)
    dests (pubsub_into (PubsubData id data))) ≫= flight_future =
  omap (link v) dests ≫= λ e, Arrived e.1 :: spread data e.1.
Proof.
  cbn [sends]. induction (omap (link v) dests) as [|e l IH]; [done|]. rewrite fmap_cons, !bind_cons, IH. f_equal.
  unfold flight_future. cbn. by rewrite pubsub_roundtrip.
Qed.

Lemma arrivals_perm data (l : list (NodeId * NetPair)) :
  (l ≫= λ e, Arrived e.1 :: spread data e.1) ≡ₚ ((λ e, Arrived e.1) <$> l) ++ (l ≫= λ e, spread data e.1).
Proof. induction l as [|e l IH]; [done|]. cbn. rewrite IH. solve_Permutation. Qed.

Lemma spread_unfold data v : takes v → spread data v = at_node data v ++ (kids v ≫= λ e, spread data e.1).
Proof. intros Ht. unfold spread. rewrite visits_unfold by done. rewrite bind_cons. f_equal. apply list_bind_assoc. Qed.

Lemma data_outputs_future data v : takes v → (data_outputs data v ≫= out_future v) ≡ₚ spread data v.
Proof.
  intros Ht. rewrite spread_unfold by done. unfold data_outputs, at_node. destruct (takes_serves _ Ht) as [<- _ _ _].
  unfold kids. destruct (table v) as [r|]; [|done]. cbn [entry_locals entry_remotes]. unfold relay_data. rewrite bind_app, <- (assoc_L (++)).
  f_equiv.
  - clear. induction (wr_locals r) as [|a l IH]; [done|]. rewrite !fmap_cons, bind_cons. by apply Permutation_cons.
  - unfold send_all. destruct (wr_remotes r) as [|p l] eqn:Hr; [done|]. rewrite bind_singleton. unfold out_future.
    rewrite data_sends. cbn [mark]. constructor. apply arrivals_perm.
Qed.

Lemma data_outputs_out data v : takes v → Forall (data_out v) (data_outputs data v).
Proof.
  intros Ht. unfold data_outputs. destruct (table v) as [r|] eqn:Hv; [|constructor]. apply Forall_app. split.
  - apply Forall_fmap, Forall_true. intros. constructor.
  - unfold send_all. destruct (wr_remotes r) eqn:Hr; [constructor|]. rewrite <- Hr. apply Forall_singleton, Forall_forall.
    intros flight (e & -> & He)%list_elem_of_fmap. assert (e ∈ kids v) as Hk by (unfold kids; by rewrite Hv).
    destruct (kids_elem _ _ Ht Hk) as [Hu _]. split; [done|]. by eexists.
Qed.

Lemma arrive_outputs w v remote data :
  upstream v = Some remote → pw_relays w !! id = table v →
  worker_on_network_raw w remote (pubsub_into (PubsubData id data)) = pw_push w (data_outputs data v).
Proof.
  intros Hu Hw. destruct (upstream_consumers _ _ Hu) as (c & _ & _ & Hs). unfold worker_on_network_raw, data_outputs.
  rewrite pubsub_roundtrip, Hw. destruct (table v) as [r|]; [|done]. cbn in Hs. by rewrite bool_decide_true.
Qed.

Lemma publish_outputs order (router : T) actor w data w' :
  pw_relays w !! id = table id.2 →
  pubsub_worker_on_input order (mkWorkerContext id.2 router) w (WControl actor (id.1, PubData data)) = Done w' →
  w' = pw_push w (data_outputs data id.2).
Proof.
  intros Hw. cbn [pubsub_worker_on_input wctx_node_id]. rewrite <- surjective_pairing. unfold data_outputs. rewrite <- Hw.
  intros [= <-]. destruct (pw_relays w !! id); [done|]. by rewrite pw_push_nil.
Qed.

Lemma workers_ok_insert ws v w w' :
  workers_ok ws → ws !! v = Some w → pw_relays w' = pw_relays w → Forall (data_out v) (pw_queue w') →
  workers_ok (<[v := w']> ws).
Proof.
  intros [Ht Hn Hq] Hv Hr Hw. split.
  - intros u x [[<- <-]|[_ Hu]]%lookup_insert_Some; [rewrite Hr|]; by apply Ht.
  - intros u Hu. apply lookup_insert_is_Some'. right. by apply Hn.
  - intros u x [[<- <-]|[_ Hu]]%lookup_insert_Some; [done|by apply Hq].
Qed.

(** The futures of the queues when one of them changes. *)
Lemma queue_replaced ws v w w' :
  ws !! v = Some w →
  (map_to_list (<[v := w']> ws) ≫= queue_future) ++ queue_future (v, w) ≡ₚ
  (map_to_list ws ≫= queue_future) ++ queue_future (v, w').
Proof.
  intros Hv. rewrite <- (map_to_list_delete ws v w Hv), <- (map_to_list_delete (<[v := w']> ws) v w') by apply lookup_insert_eq.
  rewrite delete_insert_eq, !bind_cons. solve_Permutation.
Qed.

Lemma queue_pushed ws v w outs :
  ws !! v = Some w →
  (map_to_list (<[v := pw_push w outs]> ws) ≫= queue_future) ≡ₚ (map_to_list ws ≫= queue_future) ++ (outs ≫= out_future v).
Proof.
  intros Hv. apply (Permutation_app_inv_r (queue_future (v, w))). rewrite (queue_replaced _ _ _ _ Hv).
  unfold queue_future at 2. cbn [pw_push pw_queue fst snd]. rewrite bind_app. unfold queue_future at 3. cbn. solve_Permutation.
Qed.

Lemma queue_popped ws v w w' out :
  ws !! v = Some w → pw_queue w = out :: pw_queue w' →
  (map_to_list ws ≫= queue_future) ≡ₚ out_future v out ++ (map_to_list (<[v := w']> ws) ≫= queue_future).
Proof.
  intros Hv Hq. apply (Permutation_app_inv_r (queue_future (v, w'))). rewrite <- (queue_replaced _ _ _ _ Hv).
  unfold queue_future at 2. cbn [fst snd]. rewrite Hq, bind_cons. unfold queue_future at 3. cbn [fst snd]. solve_Permutation.
Qed.

(** ** The invariant *)

Lemma quiet_queues (ws : gmap NodeId (PubSubFeatureWorker UserData)) :
  (∀ v w, ws !! v = Some w → pw_queue w = []) → map_to_list ws ≫= queue_future = [].
Proof.
  intros Hq. assert (Forall (λ e, pw_queue e.2 = []) (map_to_list ws)) as Hl.
  { apply Forall_forall. intros [v w] Hv%elem_of_map_to_list. by apply (Hq v). }
  induction Hl as [|e l He _ IH]; [done|]. rewrite bind_cons, IH. unfold queue_future. by rewrite He.
Qed.

Lemma start_ok : net_ok start.
Proof.
  split.
  - split; cbn; intros v.
    + intros w. rewrite lookup_fmap. unfold table. destruct (nodes !! v); cbn; [|done]. by intros [= <-].
    + rewrite lookup_fmap. by destruct (nodes !! v); cbn.
    + intros w ([f w'] & Hw & Hv)%lookup_fmap_Some. destruct (tree_node Htree _ _ _ Hv) as (_ & _ & Hq). cbn in Hw. subst. by rewrite Hq.
  - constructor.
  - cbn. rewrite quiet_queues; [done|]. intros v w ([f w'] & <- & Hv)%lookup_fmap_Some.
    by destruct (tree_node Htree _ _ _ Hv) as (_ & _ & ?).
Qed.

Lemma arrive_ok ws l1 v remote buf l2 ls pub hist w :
  net_ok (mkNet ws (l1 ++ (v, remote, buf) :: l2) ls pub hist) → ws !! v = Some w →
  net_ok (mkNet (<[v := worker_on_network_raw w remote buf]> ws) (l1 ++ l2) ls pub (hist ++ [Arrived v])).
Proof.
  intros [Hw Hf Hm] Hv. cbn [workers flights lost published history] in *. apply Forall_app in Hf as [Hf1 [[Hu [data Hb]] Hf2]%Forall_cons]. cbn in Hu, Hb. subst buf.
  assert (takes v) as Ht by (right; by eexists). rewrite (arrive_outputs _ v) by (by eauto using ok_table). split; cbn.
  - apply (workers_ok_insert _ _ w); [done..|]. apply Forall_app. split; [by apply (ok_queues _ Hw)|by apply data_outputs_out].
  - by apply Forall_app.
  - rewrite <- Hm. unfold pending. cbn [lost flights workers]. rewrite (queue_pushed _ _ _ _ Hv), (data_outputs_future _ _ Ht).
    rewrite !bind_app, bind_cons. unfold flight_future at 6. cbn [fst snd]. rewrite pubsub_roundtrip. solve_Permutation.
Qed.

Lemma leave_ok ws fl ls pub hist v w w' out :
  net_ok (mkNet ws fl ls pub hist) → ws !! v = Some w → pubsub_worker_pop_output w = (w', Some out) →
  net_ok (mkNet (<[v := w']> ws) (fl ++ sends link v out) ls pub (hist ++ [mark v out])).
Proof.
  intros [Hw Hf Hm] Hv Hp. unfold pubsub_worker_pop_output in Hp. destruct (pw_queue w) as [|o q] eqn:Hq; [done|]. injection Hp as <- <-.
  cbn [workers flights lost published history] in *. pose proof (ok_queues _ Hw _ _ Hv) as Ho. rewrite Hq in Ho. apply Forall_cons in Ho as [Ho Hos]. split; cbn.
  - by apply (workers_ok_insert _ _ w).
  - by apply Forall_app.
  - rewrite <- Hm. unfold pending. cbn [lost flights workers]. rewrite (queue_popped ws v w (mkPubSubWorker (pw_relays w) q (pw_shutdown w)) o Hv Hq). unfold out_future.
    rewrite !bind_app. solve_Permutation.
Qed.

Lemma publish_ok order (router : T) actor data ws fl ls pub hist w w' :
  net_ok (mkNet ws fl ls pub hist) → ws !! id.2 = Some w →
  pubsub_worker_on_input order (mkWorkerContext id.2 router) w (WControl actor (id.1, PubData data)) = Done w' →
  net_ok (mkNet (<[id.2 := w']> ws) fl ls (pub ++ [data]) hist).
Proof.
  intros [Hw Hf Hm] Hv Hp. cbn [workers flights lost published history] in *. apply publish_outputs in Hp as ->; [|by eauto using ok_table]. split; cbn; [|done|].
  - apply (workers_ok_insert _ _ w); [done..|]. apply Forall_app. split; [by apply (ok_queues _ Hw)|]. apply data_outputs_out, source_takes.
  - rewrite bind_app, bind_singleton, <- Hm. unfold pending. cbn [lost flights workers].
    rewrite (queue_pushed _ _ _ _ Hv), (data_outputs_future _ _ source_takes). solve_Permutation.
Qed.

Lemma step_ok s s' : net_step (T := T) id link s s' → net_ok s → net_ok s'.
Proof.
  intros [? ? [ws l1 v remote buf l2 ls pub hist w Hv|ws fl ls pub hist v w w' out Hv Hp]
    |order router actor data ws fl ls pub hist w w' Hv Hp|ws l1 flight l2 ls pub hist] Hok.
  - by apply arrive_ok.
  - by eapply leave_ok.
  - by eapply publish_ok.
  - destruct Hok as [Hw Hf Hm]. cbn [workers flights lost published history] in *. apply Forall_app in Hf as [Hf1 [_ Hf2]%Forall_cons]. split; cbn; [done|by apply Forall_app|].
    rewrite <- Hm. unfold pending. cbn [lost flights workers]. rewrite !bind_app, !bind_cons. solve_Permutation.
Qed.

(** ** What the consumers are told *)

Lemma told_at_node data v u :
  told v (at_node data u) = if bool_decide (u = v) then (λ actor, (actor, data)) <$> locals (served v) else [].
Proof.
  unfold told, at_node. rewrite omap_app.
  assert (omap (told_at v) match entry_remotes (table u) with
          | [] => [] | _ => Sent u :: ((λ e, Arrived e.1) <$> kids u) end = []) as ->.
  { destruct (entry_remotes (table u)); [done|]. cbn. by induction (kids u). }
  rewrite app_nil_r. case_bool_decide as Hu.
  - subst u. induction (locals (served v)) as [|a l IH]; [done|]. rewrite !fmap_cons. cbn. rewrite bool_decide_true by done. by f_equal.
  - induction (locals (served u)) as [|a l IH]; [done|]. rewrite fmap_cons. cbn. by rewrite bool_decide_false.
Qed.

Lemma told_spread data v : told v (spread data id.2) = (λ actor, (actor, data)) <$> locals (served v).
Proof.
  unfold told, spread. rewrite omap_bind. etrans; [|apply (bind_pick (visits id.2) v); [by apply visits_nodup, source_takes|]].
  - apply Forall_bind_ext, Forall_true. intros u. apply told_at_node.
  - intros Hv. unfold served. destruct (consumers v) as [c|] eqn:Hc; [|done]. destruct Hv. eapply takes_visited, consumers_takes, Hc.
Qed.

Lemma told_due v pub : told v (pub ≫= λ data, spread data id.2) = due v pub.
Proof. unfold told. rewrite omap_bind. apply list_bind_ext; [|done]. intros data. apply told_spread. Qed.

Lemma travel_pending s s' n :
  nsteps (travel link) n s s' → net_ok s → net_ok s' ∧ (n + length (history s) = length (history s'))%nat ∧ published s' = published s.
Proof.
  induction 1 as [s|n s1 s2 s3 Ht _ IH]; [done|]. intros Hok. assert (net_ok s2) as Hok2 by (by eapply step_ok; [apply net_travel|]).
  destruct (IH Hok2) as (Hok3 & Hn & Hp). split; [done|]. destruct Ht; cbn in *; rewrite length_app in Hn; cbn in Hn; split; [lia|done|lia|done].
Qed.

Lemma quiet_or_travel s : net_ok s → quiet s ∨ ∃ s', travel link s s'.
Proof.
  intros [Hw Hf _]. destruct s as [ws [|[[v remote] buf] fl] ls pub hist]; cbn in *.
  - destruct (decide (map_Exists (λ _ w, pw_queue w ≠ []) ws)) as [(v & w & Hv & Hq)|Hq].
    + right. destruct (pw_queue w) as [|out q] eqn:Hwq; [done|].
      eexists. eapply travel_leave; [done|]. unfold pubsub_worker_pop_output. by rewrite Hwq.
    + left. split; [done|]. intros v w Hv. destruct (pw_queue w) as [|out q] eqn:Hwq; [done|]. destruct Hq. exists v, w. by rewrite Hwq.
  - right. apply Forall_cons in Hf as [[Hu _] _]. cbn in Hu. destruct (ok_nodes _ Hw v) as [w Hv].
    { unfold upstream in Hu. by destruct (nodes !! v). }
    eexists. by apply (travel_arrive link ws []).
Qed.

(** C11. While the relays of a source stand as a tree, each local consumer of
    every bound node is told of what is published at most once per
    publication, however workers and links interleave and whatever is lost;
    when nothing is lost and nothing is under way any more, exactly once, and
    nobody else is told anything. Data that is under way always comes to rest:
    the number of steps it can still take is bounded, and as long as it is not
    at rest there is a step to take. *)
Theorem tree_delivers_once s :
  rtc (net_step (T := T) id link) start s →
  (∀ v, told v (history s) ⊆+ due v (published s)) ∧
  (quiet s → lost s = [] → ∀ v, told v (history s) ≡ₚ due v (published s)) ∧
  (∃ bound, ∀ n s', nsteps (travel link) n s s' → (n ≤ bound)%nat ∧ (quiet s' ∨ ∃ s'', travel link s' s'')).
Proof.
  intros Hr. assert (net_ok s) as Hok.
  { revert Hr. apply (rtc_ind_r net_ok); [apply start_ok|]. intros s1 s2 _ Hs. by apply step_ok. }
  assert (∀ v, told v (history s) ++ told v (pending s) ≡ₚ due v (published s)) as Hd.
  { intros v. rewrite <- told_due. unfold told. rewrite <- omap_app. by rewrite (ok_marks _ Hok). }
  split_and!.
  - intros v. rewrite <- Hd. apply submseteq_inserts_r. done.
  - intros [Hf Hq] Hl v. rewrite <- Hd. assert (pending s = []) as ->; [|by rewrite app_nil_r].
    unfold pending. rewrite Hf, Hl. cbn. by apply quiet_queues.
  - exists (length (pending s)). intros n s' Hn. destruct (travel_pending _ _ _ Hn Hok) as (Hok' & Hlen & Hp).
    split; [|by apply quiet_or_travel]. pose proof (Permutation_length (ok_marks _ Hok)) as Hl.
    pose proof (Permutation_length (ok_marks _ Hok')) as Hl'. rewrite Hp, <- Hl, !length_app in Hl'. lia.
Qed.
End tree.

(** ** A network that runs *)

Section run.
Context {UserData : Type} `{EqDecision UserData} `{Codec PubsubMessage}.
Context {T : Type} `{RouterTable T NetPair} (order : HashOrder) (router : T).
Context (id : RelayId) (link : NodeId → NetPair → option (NodeId * NetPair)).

(** A schedule: data is published, the oldest message arrives or is lost, a
    node hands over its oldest output. *)
Inductive NetEvent :=
| NetPublish (actor : FeatureControlActor UserData) (data : Buffer)
| NetArrive
| NetLose
| NetLeave (node : NodeId).

Definition net_run (s : Net UserData) (ev : NetEvent) : option (Net UserData) :=
  match ev with
  | NetPublish actor data =>
      w ← workers s !! id.2;
      match pubsub_worker_on_input order (mkWorkerContext id.2 router) w (WControl actor (id.1, PubData data)) with
      | Done w => Some (mkNet (<[id.2 := w]> (workers s)) (flights s) (lost s) (published s ++ [data]) (history s))
      | Panic => None
      end
  | NetArrive =>
      match flights s with
      | (node, remote, buf) :: rest =>
          w ← workers s !! node;
          Some (mkNet (<[node := worker_on_network_raw w remote buf]> (workers s)) rest (lost s) (published s)
                  (history s ++ [Arrived node]))
      | [] => None
      end
  | NetLose =>
      match flights s with
      | flight :: rest => Some (mkNet (workers s) rest (flight :: lost s) (published s) (history s))
      | [] => None
      end
  | NetLeave node =>
      w ← workers s !! node;
      match pubsub_worker_pop_output w with
      | (w, Some out) => Some (mkNet (<[node := w]> (workers s)) (flights s ++ sends link node out) (lost s) (published s)
                                 (history s ++ [mark node out]))
      | (_, None) => None
      end
  end.

Lemma net_run_step s ev s' : net_run s ev = Some s' → net_step (T := T) id link s s'.
Proof.
  destruct s as [ws fl ls pub hist]. destruct ev as [actor data| | |node]; cbn [net_run workers flights lost published history].
  - destruct (ws !! id.2) as [w|] eqn:Hw; [|done]. cbn [mbind option_bind].
    destruct (pubsub_worker_on_input _ _ _ _) eqn:Hi; [|done]. intros [= <-]. by eapply net_publish.
  - destruct fl as [|[[node remote] buf] rest]; [done|]. destruct (ws !! node) as [w|] eqn:Hw; [|done]. intros [= <-].
    apply net_travel. by apply (travel_arrive link ws []).
  - destruct fl as [|flight rest]; [done|]. intros [= <-]. apply (net_lose id link ws []).
  - destruct (ws !! node) as [w|] eqn:Hw; [|done]. cbn [mbind option_bind].
    destruct (pubsub_worker_pop_output w) as [w' [out|]] eqn:Hp; [|done]. intros [= <-]. apply net_travel. by eapply travel_leave.
Qed.

Fixpoint net_runs (s : Net UserData) (evs : list NetEvent) : option (Net UserData) :=
  match evs with [] => Some s | ev :: evs => s ← net_run s ev; net_runs s evs end.

Lemma net_runs_steps evs s s' : net_runs s evs = Some s' → rtc (net_step (T := T) id link) s s'.
Proof.
  revert s. induction evs as [|ev evs IH]; intros s; cbn; [intros [= <-]; apply rtc_refl|].
  destruct (net_run s ev) as [s1|] eqn:Hs; [|done]. intros Hr. eapply rtc_l; [by eapply net_run_step|by apply IH].
Qed.
End run.

Arguments NetEvent UserData : clear implicits.

(** ** Three nodes that run

    Node 1 publishes on channel 7, node 2 is bound to it and node 3 to node 2;
    each of them has a local consumer. *)

#[local] Existing Instance demo_pubsub_codec.
#[local] Existing Instance demo_pubsub_laws.
#[local] Existing Instance demo_router.

Definition demo_link (v : NodeId) (p : NetPair) : option (NodeId * NetPair) :=
  match pair_remote p with
  | SocketV4 u _ => if bool_decide (p = demo_pair v u) then Some (u, demo_pair u v) else None
  | _ => None
  end.

Definition demo_pops : list (NodeEvent Z) := [RunPop; RunPop; RunPop; RunPop].
Definition demo_middle : list (NodeEvent Z) :=
  demo_subscriber ++ [RunInput 2 (FromWorker (ToCRelayControl (demo_pair 2 3) (7, 1) (RelaySub 103))); RunCommand; RunCommand].
Definition demo_leaf : list (NodeEvent Z) :=
  [RunInput 0 (FControl (ActorService 6) (7, SubSource 1)); RunCommand; RunCommand;
   RunInput 1 (FromWorker (ToCRelayControl (demo_pair 3 2) (7, 1) (RelaySubOK 103))); RunCommand].

Definition demo_nodes : gmap NodeId (PubSubFeature Z unit * PubSubFeatureWorker Z) :=
  <[1 := demo_state 1 (demo_publisher ++ demo_pops)]> (<[2 := demo_state 2 (demo_middle ++ demo_pops)]>
  {[3 := demo_state 3 (demo_leaf ++ demo_pops)]}).

Lemma demo_nodes_lookup v s :
  demo_nodes !! v = Some s →
  (v = 1 ∧ s = demo_state 1 (demo_publisher ++ demo_pops)) ∨ (v = 2 ∧ s = demo_state 2 (demo_middle ++ demo_pops)) ∨
  (v = 3 ∧ s = demo_state 3 (demo_leaf ++ demo_pops)).
Proof.
  unfold demo_nodes. intros [[<- <-]|[_ [[<- <-]|[_ [<- <-]%lookup_singleton_Some]]%lookup_insert_Some]]%lookup_insert_Some; tauto.
Qed.

Lemma demo_live v s : demo_nodes !! v = Some s →
  live (7, 1) s.1 =
    match v with
    | 1 => Some (demo_consumers [ActorService 8] [(demo_pair 1 2, mkRelayRemote 102 1)], None)
    | 2 => Some (demo_consumers [ActorService 5] [(demo_pair 2 3, mkRelayRemote 103 2)], Some (demo_pair 2 1))
    | _ => Some (demo_consumers [ActorService 6] [], Some (demo_pair 3 2))
    end.
Proof. intros [[-> ->]|[[-> ->]|[-> ->]]]%demo_nodes_lookup; vm_compute; reflexivity. Qed.

Lemma demo_settled v s : demo_nodes !! v = Some s →
  node_reachable (T := Z) (Secure := unit) (demo_ctx v) s ∧ controls_for (7, 1) (ps_queue s.1) = [] ∧ pw_queue s.2 = [].
Proof.
  intros [[-> ->]|[[-> ->]|[-> ->]]]%demo_nodes_lookup; (split; [|split; vm_compute; reflexivity]).
  - apply (demo_state_reachable 1 (demo_publisher ++ demo_pops)). vm_compute. reflexivity.
  - apply (demo_state_reachable 2 (demo_middle ++ demo_pops)). vm_compute. reflexivity.
  - apply (demo_state_reachable 3 (demo_leaf ++ demo_pops)). vm_compute. reflexivity.
Qed.

Lemma demo_tree : settled_tree (T := Z) (Secure := unit) (7, 1) demo_link demo_nodes (λ v, 100 + v) Z.to_nat.
Proof.
  assert (∀ v p u q, demo_link v p = Some (u, q) → demo_link u q = Some (v, p)) as Hlink.
  { intros v p u q. unfold demo_link. destruct (pair_remote p) as [x port|]; [|done]. case_bool_decide; [|done]. intros [= -> <-].
    cbn. rewrite bool_decide_true by done. by subst. }
  split.
  - intros v f w Hv. destruct (demo_settled _ _ Hv) as (Hr & Hc & Hq). by split_and!.
  - done.
  - intros v c p. unfold consumers, upstream. destruct (demo_nodes !! v) as [s|] eqn:Hv; [|done]. cbn. rewrite (demo_live _ _ Hv).
    destruct (demo_nodes_lookup _ _ Hv) as [[-> _]|[[-> _]|[-> _]]]; cbn; intros [= <-] [x Hp]; cbn in Hp.
    + apply lookup_insert_Some in Hp as [[<- _]|[_ Hp]]; [|by rewrite lookup_empty in Hp]. exists 2, (demo_pair 2 1). by split.
    + apply lookup_insert_Some in Hp as [[<- _]|[_ Hp]]; [|by rewrite lookup_empty in Hp]. exists 3, (demo_pair 3 2). by split.
    + by rewrite lookup_empty in Hp.
  - intros u q. unfold upstream. destruct (demo_nodes !! u) as [s|] eqn:Hu; [|done]. cbn. rewrite (demo_live _ _ Hu).
    destruct (demo_nodes_lookup _ _ Hu) as [[-> _]|[[-> _]|[-> _]]]; cbn; intros [= <-].
    + exists 1, (demo_pair 1 2). eexists. split_and!; [done|done|by eexists|done].
    + exists 2, (demo_pair 2 3). eexists. split_and!; [done|done|by eexists|done].
Qed.

(** Two publications reach the consumers of the three nodes. *)
Definition demo_schedule : list (NetEvent Z) :=
  [NetPublish (ActorService 9) [1]; NetPublish (ActorService 9) [2]; NetLeave 1; NetLeave 1; NetLeave 1; NetLeave 1;
   NetArrive; NetLeave 2; NetArrive; NetLeave 2; NetLeave 2; NetLeave 2; NetArrive; NetLeave 3; NetArrive; NetLeave 3].
Definition demo_end : Net Z :=
  default (start demo_nodes) (net_runs canonical_order 1 (7, 1) demo_link (start demo_nodes) demo_schedule).

Lemma demo_reach : rtc (net_step (T := Z) (7, 1) demo_link) (start demo_nodes) demo_end.
Proof. apply (net_runs_steps canonical_order 1 (7, 1) demo_link demo_schedule (start demo_nodes) demo_end). vm_compute. reflexivity. Qed.

Lemma demo_quiet : quiet demo_end.
Proof.
  split; [vm_compute; reflexivity|].
  apply (bool_decide_unpack (map_Forall (λ _ w, pw_queue w = []) (workers demo_end))). vm_compute. exact I.
Qed.

Lemma tree_delivers_once_witness :
  told 3 (history demo_end) ≡ₚ [(ActorService 6, [1]); (ActorService 6, [2])].
Proof.
  destruct (tree_delivers_once (T := Z) (Secure := unit) (7, 1) demo_link demo_nodes (λ v, 100 + v) Z.to_nat demo_tree demo_end demo_reach)
    as (_ & Hd & _).
  rewrite (Hd demo_quiet ltac:(vm_compute; reflexivity) 3). vm_compute. reflexivity.
Defined.
