(* ===== verification/Alias.v ===== *)
(** * The alias feature ([features/alias.rs])

    A node registers aliases and queries where an alias is. A query is
    answered from the node itself or from a fresh hint; otherwise an old hint
    is checked, then all nodes of a service are scanned. *)

From S2P Require Import Prelude NodeId ConnId Route Msg Base.

Definition HINT_TIMEOUT_MS : Z := 2000.
Definition SCAN_TIMEOUT_MS : Z := 5000.

Inductive AliasControl :=
| Register (alias service : Z) (level : ServiceBroadcastLevel)
| Query (alias service : Z) (level : ServiceBroadcastLevel)
| Unregister (alias : Z).

Inductive FoundLocation :=
| FoundLocal
| FoundNotify (node : NodeId)
| FoundCachedHint (node : NodeId)
| FoundRemoteHint (node : NodeId)
| FoundRemoteScan (node : NodeId).

Inductive AliasEvent := QueryResult (alias : Z) (found : option FoundLocation).

Inductive AliasMessage :=
| MsgNotify (alias : Z)
| MsgScan (alias : Z)
| MsgCheck (alias : Z)
| MsgFound (alias : Z) (found : bool).

Inductive QueryState :=
| CheckHint (node : NodeId) (started_at : Z)
| Scan (started_at : Z).

Record HintSlot := mkHintSlot { hint_node : NodeId; hint_ts : Z }.

Section feature.
Context {UserData Addr Secure : Type} {msg_codec : Codec AliasMessage}.

Abbreviation Actor := (FeatureControlActor UserData) (only parsing).
Abbreviation Output := (FeatureOutput UserData AliasEvent unit Addr) (only parsing).
Abbreviation WorkerOutput := (FeatureWorkerOutput UserData AliasControl AliasEvent unit) (only parsing).

Record QuerySlot := mkQuerySlot {
  waiters : list Actor;
  query_state : QueryState;
  query_service : Z;
  query_level : ServiceBroadcastLevel;
}.

Record AliasFeature := mkAlias {
  queries : gmap Z QuerySlot;
  hint_slots : gmap Z HintSlot;
  local_slots : gmap Z Z;
  alias_queue : list Output;
  scan_seq : Z;
  alias_shutdown : bool;
}.

Definition alias_default : AliasFeature := mkAlias ∅ ∅ ∅ [] 0 false.

(** [send_to]: with the sender, encrypted. *)
Definition alias_send_to (rule : RouteRule) (msg : AliasMessage) : Output :=
  OutSendRoute rule (mkOutgoing true DEFAULT_MSG_TTL 0 true) (serialize msg).

(** [gen_seq], written out where the slot is borrowed. *)
Definition next_seq (seq : Z) : Z := wrap 16 (seq + 1).

Definition answer (alias : Z) (found : option FoundLocation) (actors : list Actor) : list Output :=
  (λ actor, OutEvent actor (QueryResult alias found)) <$> actors.

Definition process_control (self : AliasFeature) (now_ms : Z) (actor : Actor) (control : AliasControl) : AliasFeature :=
  let '(mkAlias qs hints locals queue seq down) := self in
  match control with
  | Register alias service level =>
      mkAlias qs hints (<[alias := now_ms]> locals) (queue ++ [alias_send_to (ToServices service level seq) (MsgNotify alias)])
        (next_seq seq) down
  | Query alias service level =>
      if bool_decide (is_Some (locals !! alias))
      then mkAlias qs hints locals (queue ++ answer alias (Some FoundLocal) [actor]) seq down
      else match qs !! alias with
      | Some slot =>
          let slot := mkQuerySlot (waiters slot ++ [actor]) (query_state slot) (query_service slot) (query_level slot) in
          mkAlias (<[alias := slot]> qs) hints locals queue seq down
      | None =>
          match hints !! alias with
          | Some slot =>
              if now_ms <=? wrap 64 (hint_ts slot + HINT_TIMEOUT_MS)
              then mkAlias qs hints locals (queue ++ answer alias (Some (FoundCachedHint (hint_node slot))) [actor]) seq down
              else mkAlias (<[alias := mkQuerySlot [actor] (CheckHint (hint_node slot) now_ms) service level]> qs) hints locals
                     (queue ++ [alias_send_to (ToNode (hint_node slot)) (MsgCheck alias)]) seq down
          | None =>
              mkAlias (<[alias := mkQuerySlot [actor] (Scan now_ms) service level]> qs) hints locals
                (queue ++ [alias_send_to (ToServices service level seq) (MsgScan alias)]) (next_seq seq) down
          end
      end
  | Unregister alias => mkAlias qs hints (delete alias locals) queue seq down
  end.

Definition process_remote (self : AliasFeature) (now_ms : Z) (from : NodeId) (msg : AliasMessage) : AliasFeature :=
  let '(mkAlias qs hints locals queue seq down) := self in
  match msg with
  | MsgNotify alias =>
      let hints := <[alias := mkHintSlot from now_ms]> hints in
      match qs !! alias with
      | Some slot => mkAlias (delete alias qs) hints locals (queue ++ answer alias (Some (FoundNotify from)) (waiters slot)) seq down
      | None => mkAlias qs hints locals queue seq down
      end
  | MsgScan alias =>
      if bool_decide (is_Some (locals !! alias))
      then mkAlias qs hints locals (queue ++ [alias_send_to (ToNode from) (MsgFound alias true)]) seq down
      else self
  | MsgCheck alias =>
      let found := bool_decide (is_Some (locals !! alias)) in
      mkAlias qs hints locals (queue ++ [alias_send_to (ToNode from) (MsgFound alias found)]) seq down
  | MsgFound alias found =>
      let hints := if found : bool then <[alias := mkHintSlot from now_ms]> hints else hints in
      match qs !! alias with
      | Some slot =>
          match query_state slot with
          | CheckHint node _ =>
              if negb (node =? from) then mkAlias qs hints locals queue seq down
              else if found : bool
              then mkAlias (delete alias qs) hints locals (queue ++ answer alias (Some (FoundRemoteHint from)) (waiters slot)) seq down
              else
                let slot := mkQuerySlot (waiters slot) (Scan now_ms) (query_service slot) (query_level slot) in
                mkAlias (<[alias := slot]> qs) hints locals
                  (queue ++ [alias_send_to (ToServices (query_service slot) (query_level slot) seq) (MsgScan alias)]) (next_seq seq) down
          | Scan _ =>
              if negb found then mkAlias qs hints locals queue seq down
              else mkAlias (delete alias qs) hints locals (queue ++ answer alias (Some (FoundRemoteScan from)) (waiters slot)) seq down
          end
      | None => mkAlias qs hints locals queue seq down
      end
  end.

(** The first loop of a tick, for one query: a check that takes too long
    becomes a scan, a scan that takes too long is collected. *)
Definition tick_query (now : Z) (acc : AliasFeature * list Z) (e : Z * QuerySlot) : AliasFeature * list Z :=
  let '(mkAlias qs hints locals queue seq down, timeout) := acc in
  let '(alias, slot) := e in
  match query_state slot with
  | CheckHint _ started_at =>
      if wrap 64 (started_at + HINT_TIMEOUT_MS) <=? now then
        let slot := mkQuerySlot (waiters slot) (Scan now) (query_service slot) (query_level slot) in
        (mkAlias (<[alias := slot]> qs) hints locals
           (queue ++ [alias_send_to (ToServices (query_service slot) (query_level slot) seq) (MsgScan alias)]) (next_seq seq) down, timeout)
      else acc
  | Scan started_at => if wrap 64 (started_at + SCAN_TIMEOUT_MS) <=? now then (acc.1, timeout ++ [alias]) else acc
  end.

(** The second loop, for one collected query. *)
Definition tick_timeout (self : AliasFeature) (alias : Z) : outcome AliasFeature :=
  slot ← expect (queries self !! alias);
  Done (mkAlias (delete alias (queries self)) (hint_slots self) (local_slots self)
          (alias_queue self ++ answer alias None (waiters slot)) (scan_seq self) (alias_shutdown self)).

Definition alias_on_shared_input (order : HashOrder) (self : AliasFeature) (now : Z) (input : FeatureSharedInput Secure)
    : outcome AliasFeature :=
  match input with
  | Tick _ =>
      let '(self, timeout) := foldl (tick_query now) (self, []) (hash_iter (queries self)) in
      foldM tick_timeout self timeout
  | Connection _ => Done self
  end.

Definition alias_on_msg (self : AliasFeature) (now_ms : Z) (meta : NetIncomingMeta) (buf : Buffer) : AliasFeature :=
  if negb (in_secure meta) then self
  else match in_source meta, deserialize (T := AliasMessage) buf with
       | Some from, Some msg => process_remote self now_ms from msg
       | _, _ => self
       end.

Definition alias_on_input (self : AliasFeature) (now_ms : Z) (input : FeatureInput UserData AliasControl unit) : AliasFeature :=
  match input with
  | FControl actor control => process_control self now_ms actor control
  | FLocal meta msg => alias_on_msg self now_ms meta msg
  | FNet _ meta msg => alias_on_msg self now_ms meta msg
  | FromWorker _ => self
  end.

Definition alias_on_shutdown (self : AliasFeature) : AliasFeature :=
  mkAlias (queries self) (hint_slots self) (local_slots self) (alias_queue self) (scan_seq self) true.

Definition alias_is_empty (self : AliasFeature) : bool :=
  alias_shutdown self && match alias_queue self with [] => true | _ => false end.

Definition alias_pop_output (self : AliasFeature) : AliasFeature * option Output :=
  match alias_queue self with
  | [] => (self, None)
  | out :: rest =>
      (mkAlias (queries self) (hint_slots self) (local_slots self) rest (scan_seq self) (alias_shutdown self), Some out)
  end.

(** ** The worker side: everything goes to the controller *)

Record AliasFeatureWorker := mkAliasWorker { aw_queue : list WorkerOutput; aw_shutdown : bool }.

Definition alias_worker_on_input (self : AliasFeatureWorker) (input : FeatureWorkerInput UserData AliasControl unit)
    : AliasFeatureWorker :=
  let forward out := mkAliasWorker (aw_queue self ++ [out]) (aw_shutdown self) in
  match input with
  | WControl actor control => forward (ForwardControlToController actor control)
  | WNetwork conn header buf => forward (ForwardNetworkToController conn header buf)
  | WFromController _ _ => self
  | WLocal header buf => forward (ForwardLocalToController header buf)
  end.

Definition alias_worker_on_shutdown (self : AliasFeatureWorker) : AliasFeatureWorker := mkAliasWorker (aw_queue self) true.

Definition alias_worker_is_empty (self : AliasFeatureWorker) : bool :=
  aw_shutdown self && match aw_queue self with [] => true | _ => false end.

Definition alias_worker_pop_output (self : AliasFeatureWorker) : AliasFeatureWorker * option WorkerOutput :=
  match aw_queue self with
  | [] => (self, None)
  | out :: rest => (mkAliasWorker rest (aw_shutdown self), Some out)
  end.
End feature.

Arguments QuerySlot UserData : clear implicits.
Arguments AliasFeature UserData Addr : clear implicits.
Arguments AliasFeatureWorker UserData : clear implicits.
