(* ===== verification/AliasNet.v ===== *)
(** * What alias queries promise

    Every query is answered exactly once, two timely ticks after it was asked
    at the latest, and an answer that names a node names one that registered
    the alias, over a network that loses, repeats, reorders and misroutes
    messages. *)

From S2P Require Import Prelude NodeId ConnId Route Msg Base Alias.

(** ** One answer per query *)

Section balance.
Context {UserData Addr Secure : Type} {msg_codec : Codec AliasMessage}.
Abbreviation Actor := (FeatureControlActor UserData) (only parsing).
Abbreviation Feature := (AliasFeature UserData Addr) (only parsing).
Abbreviation Output := (FeatureOutput UserData AliasEvent unit Addr) (only parsing).
Implicit Types (f : Feature) (m : gmap Z (QuerySlot UserData)) (s : QuerySlot UserData) (x : Actor * Z) (l : list (Actor * Z)).

Definition asking alias (actors : list Actor) : list (Actor * Z) := (λ a, (a, alias)) <$> actors.

(** The queries that wait, and those whose answer is queued. *)
Definition waiting m : list (Actor * Z) := map_to_list m ≫= λ e, asking e.1 (waiters e.2).

Definition answered_by (out : Output) : option (Actor * Z) :=
  match out with OutEvent actor (QueryResult alias _) => Some (actor, alias) | _ => None end.
Definition answered (q : list Output) : list (Actor * Z) := omap answered_by q.

Definition balance f : list (Actor * Z) := waiting (queries f) ++ answered (alias_queue f).

Lemma answered_app q1 q2 : answered (q1 ++ q2) = answered q1 ++ answered q2.
Proof. apply omap_app. Qed.

Lemma answered_answer alias found actors : answered (answer alias found actors) = asking alias actors.
Proof. induction actors as [|a l IH]; [done|]. cbn. unfold answered in IH. unfold answer in IH. by rewrite IH. Qed.

Lemma waiting_fresh m k s : m !! k = None → waiting (<[k := s]> m) ≡ₚ asking k (waiters s) ++ waiting m.
Proof. intros Hk. unfold waiting. by rewrite map_to_list_insert. Qed.

Lemma waiting_delete m k s : m !! k = Some s → waiting m ≡ₚ asking k (waiters s) ++ waiting (delete k m).
Proof. intros Hk. rewrite <- (insert_delete_id m k s Hk) at 1. apply waiting_fresh, lookup_delete_eq. Qed.

Lemma waiting_update m k s s' : m !! k = Some s → waiting (<[k := s']> m) ≡ₚ asking k (waiters s') ++ waiting (delete k m).
Proof. intros Hk. rewrite <- insert_delete_eq. apply waiting_fresh, lookup_delete_eq. Qed.

Lemma waiting_same m k s s' : m !! k = Some s → waiters s' = waiters s → waiting (<[k := s']> m) ≡ₚ waiting m.
Proof. intros Hk Hw. rewrite (waiting_update m k s s' Hk), Hw. symmetry. by apply waiting_delete. Qed.

(** A query leaves the map and its waiters are answered. *)
Lemma balance_answer m k s found (q : list Output) :
  m !! k = Some s → waiting (delete k m) ++ answered (q ++ answer k found (waiters s)) ≡ₚ waiting m ++ answered q.
Proof.
  intros Hk. rewrite (waiting_delete m k s Hk), answered_app, answered_answer.
  rewrite (app_assoc (waiting _)), (Permutation_app_comm _ (asking k _)). by rewrite app_assoc.
Qed.

Definition asked (input : FeatureInput UserData AliasControl unit) : list (Actor * Z) :=
  match input with FControl actor (Query alias _ _) => [(actor, alias)] | _ => [] end.

Lemma process_control_balance f now actor control :
  balance (process_control f now actor control) ≡ₚ asked (FControl actor control) ++ balance f.
Proof.
  destruct f as [qs hints locals q seq down]. unfold balance. destruct control as [alias service level|alias service level|alias]; cbn.
  - by rewrite answered_app, app_nil_r.
  - case_bool_decide; cbn; [rewrite answered_app; cbn; by rewrite app_assoc, <- Permutation_cons_append|].
    destruct (qs !! alias) as [s|] eqn:Hs; cbn.
    + rewrite (waiting_update _ _ s), (waiting_delete _ _ s Hs) by done. cbn. unfold asking. rewrite fmap_app. cbn.
      rewrite <- !app_assoc. symmetry. apply Permutation_middle.
    + destruct (hints !! alias) as [h|]; [destruct (_ <=? _)|]; cbn; rewrite ?waiting_fresh, answered_app by done; cbn; rewrite ?app_nil_r; try done.
      by rewrite app_assoc, <- Permutation_cons_append.
  - done.
Qed.

Lemma process_remote_balance f now from msg : balance (process_remote f now from msg) ≡ₚ balance f.
Proof.
  destruct f as [qs hints locals q seq down]. unfold balance.
  destruct msg as [alias|alias|alias|alias found]; cbn.
  - destruct (qs !! alias) as [s|] eqn:Hs; cbn; [by apply balance_answer|done].
  - case_bool_decide; cbn; [by rewrite answered_app, app_nil_r|done].
  - by rewrite answered_app, app_nil_r.
  - destruct (qs !! alias) as [s|] eqn:Hs; cbn; [|done].
    destruct (query_state s) as [node at_|at_]; cbn.
    + destruct (negb _); cbn; [done|]. destruct found; cbn; [by apply balance_answer|].
      rewrite (waiting_same _ _ s), answered_app by done. cbn. by rewrite app_nil_r.
    + destruct (negb _); cbn; [done|]. by apply balance_answer.
Qed.

Lemma alias_on_input_balance f now input : balance (alias_on_input f now input) ≡ₚ asked input ++ balance f.
Proof.
  assert (∀ meta buf, balance (alias_on_msg f now meta buf) ≡ₚ balance f) as Hmsg.
  { intros meta buf. unfold alias_on_msg. destruct (negb _); [done|]. destruct (in_source meta); [|done].
    destruct (deserialize buf); [apply process_remote_balance|done]. }
  destruct input as [|actor control| |]; cbn [alias_on_input]; [done|apply process_control_balance|apply Hmsg|apply Hmsg].
Qed.

(** *** Ticks *)

Definition tick_slot (now : Z) s : QuerySlot UserData :=
  match query_state s with
  | CheckHint _ started_at =>
      if wrap 64 (started_at + HINT_TIMEOUT_MS) <=? now
      then mkQuerySlot (waiters s) (Scan now) (query_service s) (query_level s) else s
  | Scan _ => s
  end.

Definition scan_expired (now : Z) s : bool :=
  match query_state s with CheckHint _ _ => false | Scan started_at => wrap 64 (started_at + SCAN_TIMEOUT_MS) <=? now end.

Lemma tick_query_effect now f timeout k s f' timeout' :
  tick_query now (f, timeout) (k, s) = (f', timeout') → queries f !! k = Some s →
  balance f' ≡ₚ balance f ∧ queries f' = <[k := tick_slot now s]> (queries f) ∧
  timeout' = timeout ++ (if scan_expired now s then [k] else []).
Proof.
  destruct f as [qs hints locals q seq down]. unfold tick_query, tick_slot, scan_expired, balance. cbn. intros Htick Hk.
  destruct (query_state s) as [node at_|at_] eqn:Hst; destruct (_ <=? now); simplify_eq; cbn;
    rewrite ?app_nil_r, ?insert_id by done; split_and!; try done.
  rewrite (waiting_same _ _ s), answered_app by done. cbn. by rewrite app_nil_r.
Qed.

(** The first loop has looked at every query but the ones in [rest]. *)
Record ticking (now : Z) f0 (rest : list (Z * QuerySlot UserData)) (acc : Feature * list Z) : Prop := {
  ticking_balance : balance acc.1 ≡ₚ balance f0;
  ticking_rest : NoDup (rest.*1);
  ticking_todo : ∀ k s, (k, s) ∈ rest → queries f0 !! k = Some s;
  ticking_queries : ∀ k, queries acc.1 !! k = if decide (k ∈ rest.*1) then queries f0 !! k else tick_slot now <$> queries f0 !! k;
  ticking_once : NoDup acc.2;
  ticking_timeout : ∀ k, k ∈ acc.2 ↔ (k ∉ rest.*1) ∧ ∃ s, queries f0 !! k = Some s ∧ scan_expired now s = true;
}.

Lemma ticking_step now f0 e rest acc : ticking now f0 (e :: rest) acc → ticking now f0 rest (tick_query now acc e).
Proof.
  destruct e as [k s], acc as [f timeout]. intros [Hb Hnd Hl Hq Hno Ht]. cbn [fst snd fmap list_fmap] in *. apply NoDup_cons in Hnd as [Hni Hnd].
  assert (queries f0 !! k = Some s) as Hs by (apply Hl; left).
  assert (queries f !! k = Some s) as Hfk by (rewrite Hq, decide_True; [done|left]).
  destruct (tick_query now (f, timeout) (k, s)) as [f' timeout'] eqn:Htick.
  destruct (tick_query_effect _ _ _ _ _ _ _ Htick Hfk) as (Hb' & Hq' & ->). split; cbn [fst snd].
  - by rewrite Hb'.
  - done.
  - intros k' s' Hin. apply Hl. by right.
  - intros k'. rewrite Hq'. destruct (decide (k' = k)) as [->|Hne].
    + by rewrite lookup_insert_eq, decide_False, Hs.
    + rewrite lookup_insert_ne, Hq by done. rewrite (decide_ext (k' ∈ k :: rest.*1) (k' ∈ rest.*1)); [done|]. rewrite elem_of_cons. tauto.
  - destruct (scan_expired now s); [|by rewrite app_nil_r]. apply NoDup_app. split_and!; [done| |apply NoDup_singleton].
    intros k' Hk' ->%list_elem_of_singleton. apply Ht in Hk' as [Hk' _]. apply Hk'. left.
  - intros k'. rewrite elem_of_app, Ht. destruct (decide (k' = k)) as [->|Hne].
    + rewrite not_elem_of_cons. split.
      * intros [[[? _] _]|Hin]; [done|]. destruct (scan_expired now s) eqn:He; [eauto|by apply not_elem_of_nil in Hin].
      * intros (_ & s' & Hs' & He). right. simplify_eq. rewrite He. left.
    + rewrite not_elem_of_cons. split; [|tauto]. intros [?|Hin]; [tauto|].
      destruct (scan_expired now s); [by apply list_elem_of_singleton in Hin|by apply not_elem_of_nil in Hin].
Qed.

Lemma tick_timeouts ks : ∀ f, NoDup ks → (∀ k, k ∈ ks → is_Some (queries f !! k)) →
  returns (foldM tick_timeout f ks) (λ f', balance f' ≡ₚ balance f ∧ ∀ k, queries f' !! k = if decide (k ∈ ks) then None else queries f !! k).
Proof.
  induction ks as [|k ks IH]; intros f Hnd Hks; cbn [foldM].
  { split; [done|]. intros k. rewrite decide_False; [done|]. apply not_elem_of_nil. }
  apply NoDup_cons in Hnd as [Hni Hnd]. destruct (Hks k) as [s Hs]; [left|].
  assert (tick_timeout f k = Done (mkAlias (delete k (queries f)) (hint_slots f) (local_slots f)
            (alias_queue f ++ answer k None (waiters s)) (scan_seq f) (alias_shutdown f))) as -> by (unfold tick_timeout; by rewrite Hs).
  rewrite bind_Done.
  eapply returns_mono; [apply IH; [done|]|].
  - intros k' Hk'. cbn. rewrite lookup_delete_ne by set_solver. apply Hks. by right.
  - intros f' [Hb Hq]. cbn [queries] in Hq. split.
    + rewrite Hb. by apply balance_answer.
    + intros k'. rewrite Hq. destruct (decide (k' = k)) as [->|Hne].
      * rewrite lookup_delete_eq, (decide_True (P := k ∈ k :: ks)) by left. by case_decide.
      * rewrite lookup_delete_ne by done. repeat case_decide; set_solver.
Qed.

(** A tick: nothing is lost, checks become scans, expired scans are answered. *)
Lemma alias_tick_spec (order : HashOrder) f now n :
  returns (alias_on_shared_input (Secure := Secure) order f now (Tick n)) (λ f',
    balance f' ≡ₚ balance f ∧
    ∀ k, queries f' !! k = s ← queries f !! k; if scan_expired now s then None else Some (tick_slot now s)).
Proof.
  cbn [alias_on_shared_input]. assert (ticking now f [] (foldl (tick_query now) (f, []) (hash_iter (queries f)))) as Ht.
  { apply (foldl_invariant _ (ticking now f)); [apply ticking_step|]. split; cbn; auto with sdn.
    - intros k s Hin. by apply elem_of_hash_iter in Hin.
    - intros k. case_decide as Hd; [done|]. destruct (queries f !! k) as [s|] eqn:Hs; [|done]. destruct Hd.
      apply list_elem_of_fmap. exists (k, s). by rewrite elem_of_hash_iter.
    - constructor.
    - intros k. split; [by intros ?%not_elem_of_nil|]. intros (Hni & s & Hs & _). destruct Hni.
      apply list_elem_of_fmap. exists (k, s). by rewrite elem_of_hash_iter. }
  destruct (foldl _ _ _) as [f1 timeout]. destruct Ht as [Hb _ _ Hq Hno Ht]. cbn in *.
  eapply returns_mono; [apply tick_timeouts; [done|]|].
  - intros k [_ (s & Hs & _)]%Ht. rewrite Hq, decide_False by apply not_elem_of_nil. rewrite Hs. eauto.
  - cbn. intros f' [Hb' Hq']. split; [by rewrite Hb'|]. intros k. rewrite Hq', Hq. rewrite (decide_False (P := k ∈ [])) by apply not_elem_of_nil.
    case_decide as Hd.
    + apply Ht in Hd as (_ & s & -> & He). cbn. by rewrite He.
    + destruct (queries f !! k) as [s|] eqn:Hs; [|done]. cbn. destruct (scan_expired now s) eqn:He; [|done].
      destruct Hd. apply Ht. split; [apply not_elem_of_nil|eauto].
Qed.

(** *** All histories *)

(** A node with the queries it was asked and the answers its users got. *)
Inductive alias_step : Feature * list (Actor * Z) * list (Actor * Z) → Feature * list (Actor * Z) * list (Actor * Z) → Prop :=
| alias_input now input f asks got : alias_step (f, asks, got) (alias_on_input f now input, asked input ++ asks, got)
| alias_shared order now (input : FeatureSharedInput Secure) f f' asks got :
    alias_on_shared_input order f now input = Done f' → alias_step (f, asks, got) (f', asks, got)
| alias_down f asks got : alias_step (f, asks, got) (alias_on_shutdown f, asks, got)
| alias_pop f f' out asks got :
    alias_pop_output f = (f', Some out) → alias_step (f, asks, got) (f', asks, got ++ answered [out]).

(** C22. Every query gets exactly one answer: at any time the queries asked are
    those answered, those whose answer is queued and those that wait, each as
    often as it was asked; and a tick never panics. *)
Theorem every_query_answered_once f asks got :
  rtc alias_step (alias_default, [], []) (f, asks, got) →
  asks ≡ₚ got ++ answered (alias_queue f) ++ waiting (queries f) ∧
  ∀ order now n, ∃ f', alias_on_shared_input (Secure := Secure) order f now (Tick n) = Done f'.
Proof.
  intros Hr. split.
  2: { intros order now n. pose proof (alias_tick_spec order f now n) as Ht. destruct (alias_on_shared_input _ _ _ _); [eauto|done]. }
  rewrite (Permutation_app_comm (answered _)). fold (balance f).
  assert (∀ st : Feature * list (Actor * Z) * list (Actor * Z), rtc alias_step (alias_default, [], []) st → st.1.2 ≡ₚ st.2 ++ balance st.1.1) as Hall;
    [|exact (Hall _ Hr)].
  clear Hr. apply (rtc_ind_r (λ st : Feature * list (Actor * Z) * list (Actor * Z), st.1.2 ≡ₚ st.2 ++ balance st.1.1)); cbn [fst snd].
  - done.
  - intros st1 st2 _ [now input f1 a g|order now input f1 f2 a g Hs|f1 a g|f1 f2 out a g Hp]; cbn [fst snd]; intros Hb.
    + rewrite alias_on_input_balance, Hb. rewrite !app_assoc. apply Permutation_app_tail, Permutation_app_comm.
    + rewrite Hb. apply Permutation_app_head. destruct input as [n|]; [|by simplify_eq/=].
      pose proof (alias_tick_spec order f1 now n) as Ht. rewrite Hs in Ht. destruct Ht as [Ht _]. by rewrite Ht.
    + done.
    + rewrite Hb. unfold alias_pop_output in Hp. destruct (alias_queue f1) as [|o q] eqn:Hq; simplify_eq. unfold balance. cbn. rewrite Hq.
      change (answered (out :: q)) with (answered ([out] ++ q)). rewrite answered_app, <- app_assoc. apply Permutation_app_head.
      by rewrite !app_assoc, (Permutation_app_comm (waiting _)).
Qed.

(** C28. Two timely ticks answer a query: one at least [HINT_TIMEOUT_MS] after
    it was asked, one at least [SCAN_TIMEOUT_MS] later. *)
Theorem query_answered_in_time order1 order2 f f1 f2 t1 t2 n1 n2 alias s :
  queries f !! alias = Some s →
  match query_state s with CheckHint _ at_ | Scan at_ => 0 ≤ at_ ∧ at_ + HINT_TIMEOUT_MS ≤ t1 end →
  t1 + SCAN_TIMEOUT_MS ≤ t2 → u64 t2 →
  alias_on_shared_input (Secure := Secure) order1 f t1 (Tick n1) = Done f1 →
  alias_on_shared_input (Secure := Secure) order2 f1 t2 (Tick n2) = Done f2 →
  queries f2 !! alias = None ∧ ∀ a, a ∈ waiters s → (a, alias) ∈ answered (alias_queue f2).
Proof.
  intros Hs Hat Ht Hu H1 H2. pose proof (alias_tick_spec order1 f t1 n1) as T1. rewrite H1 in T1. destruct T1 as [B1 Q1].
  pose proof (alias_tick_spec order2 f1 t2 n2) as T2. rewrite H2 in T2. destruct T2 as [B2 Q2].
  assert (queries f2 !! alias = None) as Hnone.
  { rewrite Q2, Q1, Hs. unfold HINT_TIMEOUT_MS, SCAN_TIMEOUT_MS, u64 in *. cbn. unfold scan_expired at 2, tick_slot.
    destruct (query_state s) as [node at_|at_] eqn:Hst.
    - cbn. rewrite (wrap_small 64 (at_ + _)) by (unfold HINT_TIMEOUT_MS; lia).
      destruct (Z.leb_spec (at_ + HINT_TIMEOUT_MS) t1); [|unfold HINT_TIMEOUT_MS in *; lia]. cbn.
      unfold scan_expired. cbn. rewrite wrap_small by (unfold SCAN_TIMEOUT_MS; lia).
      destruct (Z.leb_spec (t1 + SCAN_TIMEOUT_MS) t2); [done|unfold SCAN_TIMEOUT_MS in *; lia].
    - destruct (_ <=? t1); [done|]. cbn. unfold scan_expired. rewrite Hst. rewrite wrap_small by (unfold SCAN_TIMEOUT_MS; lia).
      destruct (Z.leb_spec (at_ + SCAN_TIMEOUT_MS) t2); [done|unfold SCAN_TIMEOUT_MS in *; lia]. }
  split; [done|]. intros a Ha.
  assert ((a, alias) ∈ balance f2) as Hin.
  { rewrite B2, B1. unfold balance. apply elem_of_app. left. unfold waiting. apply list_elem_of_bind. exists (alias, s). split.
    - cbn. apply list_elem_of_fmap. eauto.
    - by apply elem_of_map_to_list. }
  apply elem_of_app in Hin as [Hin|Hin]; [|done]. unfold waiting in Hin. apply list_elem_of_bind in Hin as ([k s'] & Hk & Hks).
  apply list_elem_of_fmap in Hk as (b & [= -> ->] & _). apply elem_of_map_to_list in Hks. congruence.
Qed.
End balance.

(** ** Answers name nodes that registered *)

Section network.
Context {UserData Addr Secure : Type} `{CodecLaws AliasMessage}.
Abbreviation Feature := (AliasFeature UserData Addr) (only parsing).
Abbreviation Output := (FeatureOutput UserData AliasEvent unit Addr) (only parsing).
Implicit Types (f : Feature) (n : NodeId).

(** The nodes, every message that was ever sent with its sender, and who ever
    registered what. *)
Record AliasNet := mkAliasNet {
  an_nodes : gmap NodeId Feature;
  an_sent : list (NodeId * Buffer);
  an_registered : list (Z * NodeId);
}.

Definition sent_by n (out : Output) : list (NodeId * Buffer) :=
  match out with OutSendRoute _ _ buf => [(n, buf)] | _ => [] end.

Definition registered_by n (control : AliasControl) : list (Z * NodeId) :=
  match control with Register alias _ _ => [(alias, n)] | _ => [] end.

(** A message arrives with the sender in its metadata ([send_to] puts it
    there), at any node, any number of times, or never; anything else that
    arrives is not secure or has no sender. *)
Inductive alias_net_step : AliasNet → AliasNet → Prop :=
| anet_control net n f now actor control :
    an_nodes net !! n = Some f →
    alias_net_step net (mkAliasNet (<[n := process_control f now actor control]> (an_nodes net)) (an_sent net)
                          (registered_by n control ++ an_registered net))
| anet_message net n f now from buf input meta :
    an_nodes net !! n = Some f → (from, buf) ∈ an_sent net → in_source meta = Some from →
    (∃ ctx, input = FNet ctx meta buf) ∨ input = FLocal meta buf →
    alias_net_step net (mkAliasNet (<[n := alias_on_input f now input]> (an_nodes net)) (an_sent net) (an_registered net))
| anet_noise net n f now buf input meta :
    an_nodes net !! n = Some f → in_source meta = None ∨ in_secure meta = false →
    (∃ ctx, input = FNet ctx meta buf) ∨ input = FLocal meta buf →
    alias_net_step net (mkAliasNet (<[n := alias_on_input f now input]> (an_nodes net)) (an_sent net) (an_registered net))
| anet_shared net n f f' order now (input : FeatureSharedInput Secure) :
    an_nodes net !! n = Some f → alias_on_shared_input order f now input = Done f' →
    alias_net_step net (mkAliasNet (<[n := f']> (an_nodes net)) (an_sent net) (an_registered net))
| anet_pop net n f f' out :
    an_nodes net !! n = Some f → alias_pop_output f = (f', Some out) →
    alias_net_step net (mkAliasNet (<[n := f']> (an_nodes net)) (sent_by n out ++ an_sent net) (an_registered net))
| anet_start net n : an_nodes net !! n = None →
    alias_net_step net (mkAliasNet (<[n := alias_default]> (an_nodes net)) (an_sent net) (an_registered net)).

Definition alias_net_empty : AliasNet := mkAliasNet ∅ [] [].

(** The node an answer of node [n] names. *)
Definition located n (loc : FoundLocation) : NodeId :=
  match loc with FoundLocal => n | FoundNotify x | FoundCachedHint x | FoundRemoteHint x | FoundRemoteScan x => x end.

Section invariant.
Variable reg : list (Z * NodeId).

Definition claim_ok from (msg : AliasMessage) : Prop :=
  match msg with MsgNotify alias | MsgFound alias true => (alias, from) ∈ reg | _ => True end.

Definition alias_out_ok n (out : Output) : Prop :=
  match out with
  | OutSendRoute _ _ buf => ∀ msg, deserialize buf = Some msg → claim_ok n msg
  | OutEvent _ (QueryResult alias (Some loc)) => (alias, located n loc) ∈ reg
  | _ => True
  end.

Record alias_node_ok n f : Prop := {
  an_local_ok : ∀ alias, is_Some (local_slots f !! alias) → (alias, n) ∈ reg;
  an_hint_ok : ∀ alias h, hint_slots f !! alias = Some h → (alias, hint_node h) ∈ reg;
  an_queue_ok : Forall (alias_out_ok n) (alias_queue f);
}.

Lemma answer_ok n alias loc (actors : list (FeatureControlActor UserData)) :
  (alias, located n loc) ∈ reg → Forall (alias_out_ok n) (answer alias (Some loc) actors).
Proof. intros Hr. apply Forall_fmap, Forall_true. by intros a. Qed.

Lemma answer_none_ok n alias (actors : list (FeatureControlActor UserData)) : Forall (alias_out_ok n) (answer alias None actors).
Proof. apply Forall_fmap, Forall_true. by intros a. Qed.

Lemma send_ok n rule msg : claim_ok n msg → alias_out_ok n (alias_send_to rule msg).
Proof. intros Hm msg' Hd. rewrite codec_roundtrip in Hd. by simplify_eq. Qed.

Lemma hint_insert_ok (hints : gmap Z HintSlot) alias from now :
  (∀ a h, hints !! a = Some h → (a, hint_node h) ∈ reg) → (alias, from) ∈ reg →
  ∀ a h, <[alias := mkHintSlot from now]> hints !! a = Some h → (a, hint_node h) ∈ reg.
Proof. intros Hh Hr a h Hlk. apply lookup_insert_Some in Hlk as [[<- <-]|[_ Hlk]]; eauto. Qed.

Lemma process_remote_ok n f now from msg : alias_node_ok n f → claim_ok from msg → alias_node_ok n (process_remote f now from msg).
Proof.
  destruct f as [qs hints locals q seq down]. intros [Hl Hh Hq] Hm. cbn in *.
  destruct msg as [alias|alias|alias|alias found]; cbn in *.
  - pose proof (hint_insert_ok hints alias from now Hh Hm) as Hh'.
    destruct (qs !! alias) as [s|]; split; cbn; eauto. apply Forall_app. split; [done|]. by apply answer_ok.
  - case_bool_decide as Hd; split; cbn; eauto. apply Forall_snoc; [done|]. apply send_ok. cbn. by apply Hl.
  - split; cbn; eauto. apply Forall_snoc; [done|]. apply send_ok. cbn. case_bool_decide; [by apply Hl|done].
  - assert (∀ a h, (if found then <[alias := mkHintSlot from now]> hints else hints) !! a = Some h → (a, hint_node h) ∈ reg) as Hh'.
    { destruct found; [|done]. by apply hint_insert_ok. }
    destruct (qs !! alias) as [s|]; [|by split]. destruct (query_state s) as [node at_|at_]; destruct (negb _) eqn:Hb; try (by split).
    + destruct found; split; cbn; eauto.
      * apply Forall_app. split; [done|]. by apply answer_ok.
      * apply Forall_snoc; [done|]. by apply send_ok.
    + destruct found; [|done]. split; cbn; eauto. apply Forall_app. split; [done|]. by apply answer_ok.
Qed.

Lemma tick_query_ok n now f timeout e : alias_node_ok n f → alias_node_ok n (tick_query now (f, timeout) e).1.
Proof.
  destruct f as [qs hints locals q seq down], e as [k s]. intros [Hl Hh Hq]. cbn in *.
  destruct (query_state s); destruct (_ <=? now); split; cbn; eauto. apply Forall_snoc; [done|]. by apply send_ok.
Qed.

Lemma alias_shared_ok order n f now (input : FeatureSharedInput Secure) f' :
  alias_node_ok n f → alias_on_shared_input order f now input = Done f' → alias_node_ok n f'.
Proof.
  intros Hok. destruct input as [t|]; cbn [alias_on_shared_input]; [|by intros [= <-]].
  assert (alias_node_ok n (foldl (tick_query now) (f, []) (hash_iter (queries f))).1) as Hok1.
  { apply (foldl_invariant _ (λ _ acc, alias_node_ok n acc.1)); [|done]. intros e l [f1 ks]. apply tick_query_ok. }
  destruct (foldl _ _ _) as [f1 ks]. cbn in Hok1. clear Hok. revert f1 Hok1. induction ks as [|k ks IH]; intros f1 Hok1; cbn [foldM]; [by intros [= <-]|].
  destruct (tick_timeout f1 k) as [f2|] eqn:Ht; [|done]. rewrite bind_Done. apply IH. unfold tick_timeout in Ht.
  destruct (queries f1 !! k) as [s|]; simplify_eq/=. destruct Hok1 as [Hl Hh Hq]. split; cbn; eauto.
  apply Forall_app. split; [done|]. apply answer_none_ok.
Qed.

Lemma pop_ok n f f' out : alias_node_ok n f → alias_pop_output f = (f', Some out) → alias_node_ok n f' ∧ alias_out_ok n out.
Proof.
  intros [Hl Hh Hq]. unfold alias_pop_output. destruct (alias_queue f) as [|o q]; intros [= <- <-].
  apply Forall_cons in Hq as [Ho Hq]. split; [by split|done].
Qed.

Lemma process_control_ok n f now actor control :
  alias_node_ok n f → (∀ x, x ∈ registered_by n control → x ∈ reg) → alias_node_ok n (process_control f now actor control).
Proof.
  destruct f as [qs hints locals q seq down]. intros [Hl Hh Hq] Hr. cbn in *. destruct control as [alias service level|alias service level|alias]; cbn in *.
  - assert ((alias, n) ∈ reg) as Hin by (apply Hr; left). split; cbn; eauto.
    + intros a. rewrite lookup_insert_is_Some'. intros [<-|Ha]; eauto.
    + apply Forall_snoc; [done|]. by apply send_ok.
  - case_bool_decide; [split; cbn; eauto; apply Forall_snoc; [done|]; by apply Hl|].
    destruct (qs !! alias) as [s|]; [by split|]. destruct (hints !! alias) as [h|] eqn:Hlk; [destruct (_ <=? _)|]; split; cbn; eauto;
      (apply Forall_snoc; [done|]); try (by apply send_ok). cbn. by apply Hh.
  - split; cbn; eauto. intros a [_ Ha]%lookup_delete_is_Some. by apply Hl.
Qed.

Lemma alias_message_ok n f now input meta buf :
  alias_node_ok n f → (∃ ctx, input = FNet ctx meta buf) ∨ input = FLocal meta buf →
  (∀ from msg, in_secure meta = true → in_source meta = Some from → deserialize buf = Some msg → claim_ok from msg) →
  alias_node_ok n (alias_on_input f now input).
Proof.
  intros Hok Hinput Hclaim. assert (alias_node_ok n (alias_on_msg f now meta buf)) by
    (unfold alias_on_msg; destruct (in_secure meta) eqn:?; [|done]; cbn; destruct (in_source meta) eqn:?; [|done];
     destruct (deserialize buf) eqn:?; [|done]; apply process_remote_ok; eauto).
  by destruct Hinput as [[ctx ->]| ->].
Qed.
End invariant.

(** More registrations keep everything sound. *)
Lemma claim_mono reg reg' from msg : reg ⊆ reg' → claim_ok reg from msg → claim_ok reg' from msg.
Proof. intros Hr. destruct msg as [| | |alias []]; cbn; auto. Qed.

Lemma alias_out_mono reg reg' n (out : Output) : reg ⊆ reg' → alias_out_ok reg n out → alias_out_ok reg' n out.
Proof.
  intros Hr. destruct out as [|actor [alias [loc|]]| | | | |]; cbn; auto. intros Ho msg Hd. eapply claim_mono; eauto.
Qed.

Lemma alias_node_mono reg reg' n f : reg ⊆ reg' → alias_node_ok reg n f → alias_node_ok reg' n f.
Proof.
  intros Hr [Hl Hh Hq]. split; [auto|eauto|]. eapply Forall_impl; [exact Hq|]. intros out. by apply alias_out_mono.
Qed.

Record alias_net_ok (net : AliasNet) : Prop := {
  anet_nodes_ok : ∀ n f, an_nodes net !! n = Some f → alias_node_ok (an_registered net) n f;
  anet_sent_ok : ∀ n buf msg, (n, buf) ∈ an_sent net → deserialize buf = Some msg → claim_ok (an_registered net) n msg;
}.

Lemma nodes_insert_ok reg (nodes : gmap NodeId Feature) n f :
  (∀ n f, nodes !! n = Some f → alias_node_ok reg n f) → alias_node_ok reg n f →
  ∀ n' f', <[n := f]> nodes !! n' = Some f' → alias_node_ok reg n' f'.
Proof. intros Hn Hf n' f' Hlk. apply lookup_insert_Some in Hlk as [[<- <-]|[_ Hlk]]; eauto. Qed.

Lemma alias_net_step_ok net net' : alias_net_ok net → alias_net_step net net' → alias_net_ok net'.
Proof.
  intros [Hn Hs] Hstep. destruct Hstep as [net n f now actor control Hf|net n f now from buf input meta Hf Hin Hsrc Hi
    |net n f now buf input meta Hf Hsrc Hi|net n f f' order now input Hf Hd|net n f f' out Hf Hp|net n Hf]; split; cbn.
  - assert (an_registered net ⊆ registered_by n control ++ an_registered net) as Hr by set_solver.
    apply nodes_insert_ok; [intros; eapply alias_node_mono; eauto|]. apply process_control_ok; [|set_solver]. eapply alias_node_mono; eauto.
  - intros m buf msg Hin Hd. eapply claim_mono; [|eauto]. set_solver.
  - apply nodes_insert_ok; [done|]. eapply alias_message_ok; [eauto..|]. intros from' msg _ Hsrc' Hd. simplify_eq. eauto.
  - done.
  - apply nodes_insert_ok; [done|]. eapply alias_message_ok; [eauto..|]. intros from msg Hsec Hsrc' Hd. destruct Hsrc; congruence.
  - done.
  - apply nodes_insert_ok; [done|]. eapply alias_shared_ok; eauto.
  - done.
  - apply nodes_insert_ok; [done|]. eapply pop_ok; eauto.
  - intros m buf msg [Hin|Hin]%elem_of_app Hd; [|eauto]. destruct (pop_ok _ _ _ _ _ (Hn _ _ Hf) Hp) as [_ Ho].
    destruct out; try (by apply not_elem_of_nil in Hin). apply list_elem_of_singleton in Hin. simplify_eq. by apply Ho.
  - apply nodes_insert_ok; [done|]. split; cbn; [intros a [? Ha]; by apply lookup_empty_Some in Ha|intros a h Ha; by apply lookup_empty_Some in Ha|by apply Forall_nil_2].
  - done.
Qed.

(** C23. Whatever the network does with the messages, an answer that names a
    node names one that registered the alias. *)
Theorem answers_name_registrants net n f actor alias loc :
  rtc alias_net_step alias_net_empty net → an_nodes net !! n = Some f →
  OutEvent actor (QueryResult alias (Some loc)) ∈ alias_queue f → (alias, located n loc) ∈ an_registered net.
Proof.
  intros Hr Hf Hin. assert (alias_net_ok net) as [Hn _].
  { revert Hr. apply (rtc_ind_r alias_net_ok); [|intros; by eapply alias_net_step_ok].
    split; cbn; [by intros ? ? ?%lookup_empty_Some|]. by intros ? ? ? ?%not_elem_of_nil. }
  destruct (Hn _ _ Hf) as [_ _ Hq]. rewrite Forall_forall in Hq. exact (Hq _ Hin).
Qed.
End network.

(** ** Runs *)

Definition demo_alias_codec : Codec AliasMessage := {|
  serialize m := match m with
                 | MsgNotify a => [0; a] | MsgScan a => [1; a] | MsgCheck a => [2; a] | MsgFound a b => [3; a; Z.b2z b]
                 end;
  deserialize l := match l with
                   | [0; a] => Some (MsgNotify a) | [1; a] => Some (MsgScan a) | [2; a] => Some (MsgCheck a)
                   | [3; a; b] => Some (MsgFound a (b =? 1)) | _ => None
                   end;
|}.

Lemma demo_alias_laws : @CodecLaws AliasMessage demo_alias_codec.
Proof. split. by intros [| | |a []]. Qed.

#[local] Existing Instance demo_alias_codec.
#[local] Existing Instance demo_alias_laws.

(** Two actors ask for alias 5. *)
Definition demo_asked : AliasFeature Z unit :=
  alias_on_input (alias_on_input alias_default 0 (FControl (ActorController 1) (Query 5 1 Global))) 10
    (FControl (ActorController 2) (Query 5 1 Global)).

Lemma every_query_answered_once_witness :
  [(ActorController 2, 5); (ActorController 1, 5)] ≡ₚ [] ++ answered (alias_queue demo_asked) ++ waiting (queries demo_asked).
Proof.
  refine (proj1 (every_query_answered_once (Secure := unit) demo_asked [(ActorController 2, 5); (ActorController 1, 5)] [] _)).
  eapply rtc_l; [apply (alias_input 0 (FControl (ActorController 1) (Query 5 1 Global)))|].
  eapply rtc_l; [apply (alias_input 10 (FControl (ActorController 2) (Query 5 1 Global)))|]. apply rtc_refl.
Defined.

Definition demo_tick (f : AliasFeature Z unit) (now : Z) : AliasFeature Z unit :=
  match alias_on_shared_input (Secure := unit) canonical_order f now (Tick 0) with Done f => f | Panic => f end.

Lemma query_answered_in_time_witness :
  let f2 := demo_tick (demo_tick demo_asked 2000) 7000 in
  queries f2 !! 5 = None ∧ (ActorController 1, 5) ∈ answered (alias_queue f2).
Proof.
  destruct (query_answered_in_time (Secure := unit) canonical_order canonical_order demo_asked (demo_tick demo_asked 2000)
    (demo_tick (demo_tick demo_asked 2000) 7000) 2000 7000 0 0 5 (mkQuerySlot [ActorController 1; ActorController 2] (Scan 0) 1 Global)
    ltac:(vm_compute; reflexivity) ltac:(cbn; unfold HINT_TIMEOUT_MS; lia) ltac:(unfold SCAN_TIMEOUT_MS; lia) ltac:(unfold u64; lia)
    ltac:(vm_compute; reflexivity) ltac:(vm_compute; reflexivity)) as [Hn Hw].
  split; [exact Hn|apply Hw; left].
Defined.

Definition demo_incoming : NetIncomingMeta := mkIncoming (Some 1) 60 0 true.

(** Node 1 registers alias 5, node 2 hears of it and answers a query. *)
Lemma answers_name_registrants_witness : ∃ net f,
  rtc (alias_net_step (UserData := Z) (Addr := unit) (Secure := unit)) alias_net_empty net ∧ an_nodes net !! 2 = Some f ∧
  OutEvent (ActorController 3) (QueryResult 5 (Some (FoundCachedHint 1))) ∈ alias_queue f ∧ (5, 1) ∈ an_registered net.
Proof.
  assert (∃ net f, rtc (alias_net_step (UserData := Z) (Addr := unit) (Secure := unit)) alias_net_empty net ∧ an_nodes net !! 2 = Some f ∧
    OutEvent (ActorController 3) (QueryResult 5 (Some (FoundCachedHint 1))) ∈ alias_queue f) as (net & f & Hr & Hf & Hin).
  { eexists _, _. split_and!.
    - eapply rtc_l; [by apply (anet_start _ 1)|]. eapply rtc_l; [by apply (anet_start _ 2)|].
      eapply rtc_l; [eapply (anet_control _ 1 _ 0 (ActorController 9) (Register 5 1 Global)); vm_compute; reflexivity|].
      eapply rtc_l; [eapply (anet_pop _ 1); vm_compute; reflexivity|].
      eapply rtc_l; [eapply (anet_message _ 2 _ 5 1 [0; 5] (FLocal demo_incoming [0; 5]) demo_incoming);
                     [vm_compute; reflexivity|left|done|by right]|].
      eapply rtc_l; [eapply (anet_control _ 2 _ 6 (ActorController 3) (Query 5 1 Global)); vm_compute; reflexivity|].
      apply rtc_refl.
    - vm_compute. reflexivity.
    - left. }
  exists net, f. split_and!; [done..|]. exact (answers_name_registrants net 2 f (ActorController 3) 5 (FoundCachedHint 1) Hr Hf Hin).
Defined.
