(* ===== verification/Socket.v ===== *)
(** * The socket feature ([features/socket.rs])

    Actors bind ports and exchange datagrams with ports of other nodes. The
    controller keeps the sockets and mirrors them to the workers, which move
    the data. *)

From S2P Require Import Prelude NodeId ConnId Route Msg Base.

Inductive SocketControl :=
| Bind (port : Z)
| Connect (port : Z) (dest_node : NodeId) (dest_port : Z)
| SendTo (port : Z) (dest_node : NodeId) (dest_port : Z) (data : Buffer) (meta : Z)
| Send (port : Z) (data : Buffer) (meta : Z)
| Unbind (port : Z).

Inductive SocketEvent := RecvFrom (port : Z) (from : NodeId) (from_port : Z) (data : Buffer) (meta : Z).

Inductive SocketToWorker (UserData : Type) :=
| BindSocket (port : Z) (actor : FeatureControlActor UserData)
| ConnectSocket (port : Z) (dest_node : NodeId) (dest_port : Z)
| UnbindSocket (port : Z).
Arguments BindSocket {_} _ _.
Arguments ConnectSocket {_} _ _ _.
Arguments UnbindSocket {_} _.

(** The ports in front of the data. *)
Definition embed_meta (src dest : Z) (data : Buffer) : Buffer := to_be_bytes16 src ++ to_be_bytes16 dest ++ data.

Definition extract_meta (buf : Buffer) : option (Z * Z * Buffer) :=
  match buf with
  | s1 :: s0 :: d1 :: d0 :: data => Some (from_be_bytes16 s1 s0, from_be_bytes16 d1 d0, data)
  | _ => None
  end.

Lemma embed_extract src dest data : u16 src → u16 dest → extract_meta (embed_meta src dest data) = Some (src, dest, data).
Proof. intros Hs Hd. cbn. by rewrite !be16_roundtrip. Qed.

Section feature.
Context {UserData Addr : Type} `{EqDecision UserData}.

Abbreviation Actor := (FeatureControlActor UserData) (only parsing).
Abbreviation Output := (FeatureOutput UserData SocketEvent (SocketToWorker UserData) Addr) (only parsing).
Abbreviation WorkerOutput := (FeatureWorkerOutput UserData SocketControl SocketEvent unit) (only parsing).

Record Socket := mkSocket { target : option (NodeId * Z); socket_actor : Actor }.

Record SocketFeature := mkSocketFeature {
  sockets : gmap Z Socket;
  socket_queue : list Output;
  socket_shutdown : bool;
}.

Definition socket_default : SocketFeature := mkSocketFeature ∅ [] false.

Definition socket_push (self : SocketFeature) (outs : list Output) : SocketFeature :=
  mkSocketFeature (sockets self) (socket_queue self ++ outs) (socket_shutdown self).

Definition socket_send_to (src : Z) (dest_node : NodeId) (dest_port : Z) (data : Buffer) (meta : Z) : Output :=
  OutSendRoute (ToNode dest_node) (mkOutgoing true DEFAULT_MSG_TTL meta false) (embed_meta src dest_port data).

(** A datagram of [port]: to a port of this node, or over the network. *)
Definition socket_transfer (ctx : FeatureContext) (self : SocketFeature) (actor : Actor) (port : Z) (dest : NodeId * Z)
    (data : Buffer) (meta : Z) : SocketFeature :=
  if dest.1 =? fctx_node_id ctx then
    match sockets self !! dest.2 with
    | Some _ => socket_push self [OutEvent actor (RecvFrom dest.2 (fctx_node_id ctx) port data meta)]
    | None => self
    end
  else socket_push self [socket_send_to port dest.1 dest.2 data meta].

Definition socket_on_control (ctx : FeatureContext) (self : SocketFeature) (actor : Actor) (control : SocketControl) : SocketFeature :=
  match control with
  | Bind port =>
      match sockets self !! port with
      | Some _ => self
      | None =>
          mkSocketFeature (<[port := mkSocket None actor]> (sockets self)) (socket_queue self ++ [OutToWorker true (BindSocket port actor)])
            (socket_shutdown self)
      end
  | Connect port dest_node dest_port =>
      match sockets self !! port with
      | Some socket =>
          if bool_decide (socket_actor socket = actor)
          then mkSocketFeature (<[port := mkSocket (Some (dest_node, dest_port)) (socket_actor socket)]> (sockets self))
                 (socket_queue self ++ [OutToWorker true (ConnectSocket port dest_node dest_port)]) (socket_shutdown self)
          else self
      | None => self
      end
  | SendTo port dest_node dest_port data meta =>
      match sockets self !! port with
      | Some socket =>
          if bool_decide (socket_actor socket = actor) then socket_transfer ctx self actor port (dest_node, dest_port) data meta else self
      | None => self
      end
  | Send port data meta =>
      match sockets self !! port with
      | Some socket =>
          match target socket with
          | Some dest => socket_transfer ctx self actor port dest data meta
          | None => self
          end
      | None => self
      end
  | Unbind port =>
      match sockets self !! port with
      | Some socket =>
          if bool_decide (socket_actor socket = actor)
          then mkSocketFeature (delete port (sockets self)) (socket_queue self ++ [OutToWorker true (UnbindSocket port)]) (socket_shutdown self)
          else self
      | None => self
      end
  end.

(** What a received packet is for its socket; a connected socket takes it from
    the node it is connected to only. *)
Definition accepts (socket : Socket) (from_node : NodeId) (pkt_dest : Z) : bool :=
  match target socket with
  | Some (dest_node, dest_port) => (dest_node =? from_node) && (dest_port =? pkt_dest)
  | None => true
  end.

Definition socket_incoming (ss : gmap Z Socket) (from_node : NodeId) (buf : Buffer) (meta : Z) : option (Actor * SocketEvent) :=
  match extract_meta buf with
  | Some (pkt_src, pkt_dest, data) =>
      socket ← ss !! pkt_dest;
      if accepts socket from_node pkt_dest then Some (socket_actor socket, RecvFrom pkt_dest from_node pkt_src data meta) else None
  | None => None
  end.

Definition socket_on_msg (self : SocketFeature) (meta : NetIncomingMeta) (buf : Buffer) : SocketFeature :=
  match in_source meta with
  | Some from_node =>
      match socket_incoming (sockets self) from_node buf (in_meta meta) with
      | Some (actor, event) => socket_push self [OutEvent actor event]
      | None => self
      end
  | None => self
  end.

Definition socket_on_input (ctx : FeatureContext) (self : SocketFeature) (input : FeatureInput UserData SocketControl unit) : SocketFeature :=
  match input with
  | FControl actor control => socket_on_control ctx self actor control
  | FNet _ meta buf => socket_on_msg self meta buf
  | FLocal meta buf => socket_on_msg self meta buf
  | FromWorker _ => self
  end.

Definition socket_on_shutdown (self : SocketFeature) : SocketFeature := mkSocketFeature (sockets self) (socket_queue self) true.

Definition socket_is_empty (self : SocketFeature) : bool :=
  socket_shutdown self && match socket_queue self with [] => true | _ => false end.

Definition socket_pop_output (self : SocketFeature) : SocketFeature * option Output :=
  match socket_queue self with
  | [] => (self, None)
  | out :: rest => (mkSocketFeature (sockets self) rest (socket_shutdown self), Some out)
  end.

(** ** The workers *)

Record SocketFeatureWorker := mkSocketWorker {
  sw_sockets : gmap Z Socket;
  sw_queue : list WorkerOutput;
  sw_shutdown : bool;
}.

Definition socket_worker_default : SocketFeatureWorker := mkSocketWorker ∅ [] false.

Definition process_incoming (self : SocketFeatureWorker) (from_node : NodeId) (buf : Buffer) (meta : Z) : SocketFeatureWorker :=
  match socket_incoming (sw_sockets self) from_node buf meta with
  | Some (actor, event) => mkSocketWorker (sw_sockets self) (sw_queue self ++ [WOutEvent actor event]) (sw_shutdown self)
  | None => self
  end.

Definition socket_update (ss : gmap Z Socket) (control : SocketToWorker UserData) : gmap Z Socket :=
  match control with
  | BindSocket port actor => <[port := mkSocket None actor]> ss
  | ConnectSocket port dest_node dest_port =>
      match ss !! port with
      | Some socket => <[port := mkSocket (Some (dest_node, dest_port)) (socket_actor socket)]> ss
      | None => ss
      end
  | UnbindSocket port => delete port ss
  end.

(** The datagram a command asks a worker to send. *)
Definition worker_datagram (self : SocketFeatureWorker) (actor : Actor) (control : SocketControl) : option (Z * (NodeId * Z) * Buffer * Z) :=
  match control with
  | Send port data meta =>
      socket ← sw_sockets self !! port;
      if bool_decide (actor = socket_actor socket) then (λ dest, (port, dest, data, meta)) <$> target socket else None
  | SendTo port dest_node dest_port data meta =>
      socket ← sw_sockets self !! port;
      if bool_decide (actor = socket_actor socket) then Some (port, (dest_node, dest_port), data, meta) else None
  | _ => None
  end.

Definition socket_worker_on_input (self : SocketFeatureWorker) (input : FeatureWorkerInput UserData SocketControl (SocketToWorker UserData))
    : SocketFeatureWorker :=
  let push out := mkSocketWorker (sw_sockets self) (sw_queue self ++ [out]) (sw_shutdown self) in
  match input with
  | WNetwork _ meta buf => match in_source meta with Some from_node => process_incoming self from_node buf (in_meta meta) | None => self end
  | WFromController _ control => mkSocketWorker (socket_update (sw_sockets self) control) (sw_queue self) (sw_shutdown self)
  | WControl actor control =>
      match control with
      | Send _ _ _ | SendTo _ _ _ _ _ =>
          match worker_datagram self actor control with
          | Some (port, (dest_node, dest_port), data, meta) =>
              push (WOutSendRoute (ToNode dest_node) (mkOutgoing true DEFAULT_MSG_TTL meta false) (embed_meta port dest_port data))
          | None => self
          end
      | _ => push (ForwardControlToController actor control)
      end
  | WLocal meta buf => match in_source meta with Some from_node => process_incoming self from_node buf (in_meta meta) | None => self end
  end.

Definition socket_worker_on_shutdown (self : SocketFeatureWorker) : SocketFeatureWorker :=
  mkSocketWorker (sw_sockets self) (sw_queue self) true.

Definition socket_worker_is_empty (self : SocketFeatureWorker) : bool :=
  sw_shutdown self && match sw_queue self with [] => true | _ => false end.

Definition socket_worker_pop_output (self : SocketFeatureWorker) : SocketFeatureWorker * option WorkerOutput :=
  match sw_queue self with
  | [] => (self, None)
  | out :: rest => (mkSocketWorker (sw_sockets self) rest (sw_shutdown self), Some out)
  end.
End feature.

Arguments Socket UserData : clear implicits.
Arguments SocketFeature UserData Addr : clear implicits.
Arguments SocketFeatureWorker UserData : clear implicits.

(** ** The workers follow the controller *)

Section mirror.
Context {UserData Addr : Type} `{EqDecision UserData} (ctx : FeatureContext).
Abbreviation Output := (FeatureOutput UserData SocketEvent (SocketToWorker UserData) Addr) (only parsing).
Implicit Types (f : SocketFeature UserData Addr) (w : SocketFeatureWorker UserData).

Definition socket_command (out : Output) : option (SocketToWorker UserData) :=
  match out with OutToWorker _ control => Some control | _ => None end.

(** The sockets of a worker that has carried out what is queued. *)
Definition sockets_after (q : list Output) (ss : gmap Z (Socket UserData)) : gmap Z (Socket UserData) :=
  foldl socket_update ss (omap socket_command q).

Lemma sockets_after_app q1 q2 ss : sockets_after (q1 ++ q2) ss = sockets_after q2 (sockets_after q1 ss).
Proof. unfold sockets_after. by rewrite omap_app, foldl_app. Qed.

Inductive socket_step : SocketFeature UserData Addr * SocketFeatureWorker UserData → SocketFeature UserData Addr * SocketFeatureWorker UserData → Prop :=
| socket_inputs input f w : socket_step (f, w) (socket_on_input ctx f input, w)
| socket_down f w : socket_step (f, w) (socket_on_shutdown f, w)
| socket_pops f f' out w :
    socket_pop_output f = (f', Some out) →
    socket_step (f, w) (f', match socket_command out with
                            | Some control => socket_worker_on_input w (WFromController true control)
                            | None => w
                            end)
| socket_worker_inputs input f w :
    match input with WFromController _ _ => False | _ => True end → socket_step (f, w) (f, socket_worker_on_input w input)
| socket_worker_pops f w w' out : socket_worker_pop_output w = (w', out) → socket_step (f, w) (f, w').

Lemma socket_transfer_sockets f actor port dest data meta ss :
  sockets (socket_transfer ctx f actor port dest data meta) = sockets f ∧
  sockets_after (socket_queue (socket_transfer ctx f actor port dest data meta)) ss = sockets_after (socket_queue f) ss.
Proof.
  unfold socket_transfer. destruct (_ =? _); [destruct (sockets f !! dest.2); [|done]|]; (split; [done|]); cbn [socket_push socket_queue]; by rewrite sockets_after_app.
Qed.

Lemma socket_on_input_mirrors f input ss :
  sockets_after (socket_queue f) ss = sockets f →
  sockets_after (socket_queue (socket_on_input ctx f input)) ss = sockets (socket_on_input ctx f input).
Proof.
  intros Hm. assert (∀ meta buf, sockets_after (socket_queue (socket_on_msg f meta buf)) ss = sockets (socket_on_msg f meta buf)) as Hmsg.
  { intros meta buf. unfold socket_on_msg. destruct (in_source meta); [|done]. destruct (socket_incoming _ _ _ _) as [[a e]|]; [|done].
    cbn [socket_push socket_queue sockets]. by rewrite sockets_after_app. }
  assert (∀ actor port dest data meta, sockets_after (socket_queue (socket_transfer ctx f actor port dest data meta)) ss =
    sockets (socket_transfer ctx f actor port dest data meta)) as Htr.
  { intros actor port dest data meta. destruct (socket_transfer_sockets f actor port dest data meta ss) as [-> ->]. done. }
  destruct input as [|actor control| |]; cbn [socket_on_input]; [done| |apply Hmsg|apply Hmsg].
  destruct control as [port|port n p|port n p data meta|port data meta|port]; cbn [socket_on_control];
    destruct (sockets f !! port) as [s|] eqn:Hs; try done; try (case_bool_decide; [|done]);
    cbn [socket_queue sockets]; rewrite ?sockets_after_app, ?Hm; try done.
  - cbn. by rewrite Hs.
  - destruct (target s); [by apply Htr|done].
Qed.

(** A worker that has carried out what the controller queued has exactly
    the controller's sockets, so a datagram that arrives at a worker is
    handed to the same actor the controller would hand it to. *)
Theorem socket_worker_mirrors f w :
  rtc socket_step (socket_default, socket_worker_default) (f, w) →
  sockets_after (socket_queue f) (sw_sockets w) = sockets f ∧
  (omap socket_command (socket_queue f) = [] →
   ∀ conn meta buf, ∃ evs, socket_worker_on_input w (WNetwork conn meta buf) = mkSocketWorker (sw_sockets w) (sw_queue w ++ ((λ e, WOutEvent e.1 e.2) <$> evs)) (sw_shutdown w) ∧
     ∀ c, socket_on_input ctx f (FNet c meta buf) = socket_push f ((λ e, OutEvent e.1 e.2) <$> evs)).
Proof.
  intros Hr. assert (sockets_after (socket_queue f) (sw_sockets w) = sockets f) as Hm.
  { change (sockets_after (socket_queue (f, w).1) (sw_sockets (f, w).2) = sockets (f, w).1). revert Hr.
    generalize (f, w). apply (rtc_ind_r (λ st : SocketFeature UserData Addr * SocketFeatureWorker UserData,
      sockets_after (socket_queue st.1) (sw_sockets st.2) = sockets st.1)); [done|].
    intros x y _ [input f1 w1|f1 w1|f1 f2 out w1 Hp|input f1 w1 Hi|f1 w1 w2 out Hp] Hm; cbn [fst snd] in *.
    - by apply socket_on_input_mirrors.
    - done.
    - unfold socket_pop_output in Hp. destruct (socket_queue f1) as [|o q] eqn:Hq; simplify_eq. cbn. rewrite <- Hm. by destruct out.
    - assert (sw_sockets (socket_worker_on_input w1 input) = sw_sockets w1) as ->; [|done].
      destruct input as [|actor control|conn meta buf|meta buf]; cbn [socket_worker_on_input]; [done| | |].
      + destruct control; try done; by destruct (worker_datagram w1 actor _) as [[[[? []] ?] ?]|].
      + destruct (in_source meta); [|done]. unfold process_incoming. by destruct (socket_incoming _ _ _ _) as [[]|].
      + destruct (in_source meta); [|done]. unfold process_incoming. by destruct (socket_incoming _ _ _ _) as [[]|].
    - unfold socket_worker_pop_output in Hp. destruct (sw_queue w1); by simplify_eq. }
  split; [done|]. intros Hq conn meta buf. unfold sockets_after in Hm. rewrite Hq in Hm. cbn in Hm.
  assert (∀ f0 : SocketFeature UserData Addr, socket_push f0 [] = f0) as Hnil by (intros []; unfold socket_push; cbn; by rewrite app_nil_r).
  cbn [socket_worker_on_input socket_on_input]. unfold socket_on_msg, process_incoming. rewrite Hm.
  destruct (in_source meta) as [from|].
  2: { exists []. split; [|intros c; by rewrite Hnil]. destruct w; cbn in *. by rewrite app_nil_r, Hm. }
  destruct (socket_incoming (sockets f) from buf (in_meta meta)) as [[actor event]|].
  - by exists [(actor, event)].
  - exists []. split; [|intros c; by rewrite Hnil]. destruct w; cbn in *. by rewrite app_nil_r, Hm.
Qed.

(** ** Defects *)

(** A connected socket compares the port of its peer with its own port: it
    takes packets of its peer exactly when the two are equal, whatever port
    they come from. *)
Lemma connected_socket_checks_own_port (socket : Socket UserData) node port pkt_src pkt_dest data meta ss :
  target socket = Some (node, port) → ss !! pkt_dest = Some socket → u16 pkt_src → u16 pkt_dest →
  is_Some (socket_incoming ss node (embed_meta pkt_src pkt_dest data) meta) ↔ port = pkt_dest.
Proof.
  intros Ht Hs Hsrc Hdest. unfold socket_incoming. rewrite embed_extract by done. cbn. rewrite Hs. cbn. unfold accepts. rewrite Ht, Z.eqb_refl. cbn.
  by destruct (Z.eqb_spec port pkt_dest); split.
Qed.

(** A datagram to a port of the same node is handed to its sender when it goes
    through the controller. *)
Lemma local_datagram_returns_to_sender f actor port dest_port data meta socket dest :
  sockets f !! port = Some socket → socket_actor socket = actor → sockets f !! dest_port = Some dest →
  socket_on_control ctx f actor (SendTo port (fctx_node_id ctx) dest_port data meta) =
    socket_push f [OutEvent actor (RecvFrom dest_port (fctx_node_id ctx) port data meta)].
Proof.
  intros Hs Ha Hd. cbn [socket_on_control]. rewrite Hs, bool_decide_true by done. unfold socket_transfer. cbn. by rewrite Z.eqb_refl, Hd.
Qed.
End mirror.

Lemma socket_worker_mirrors_witness :
  let ctx := mkFeatureContext 1 0 in
  let f := socket_on_input (Addr := unit) ctx socket_default (FControl (ActorController 7) (Bind 80)) in
  sockets_after (socket_queue f) ∅ = sockets f.
Proof.
  intros ctx f. apply (socket_worker_mirrors (UserData := Z) (Addr := unit) ctx f socket_worker_default).
  eapply rtc_l; [apply (socket_inputs ctx (FControl (ActorController 7) (Bind 80)))|]. apply rtc_refl.
Defined.
