(* ===== verification/DataFeature.v ===== *)
(** * The features data, neighbours and vpn ([features/data.rs],
    [features/neighbours.rs], [features/vpn.rs])

    Data sends pings and datagrams to routes, neighbours reports connections
    to its subscribers. The vpn feature does nothing without its build
    feature. *)

From S2P Require Import Prelude NodeId ConnId Route Msg Base.

(** ** Data *)

Inductive DataControl :=
| Ping (dest : NodeId)
| DataListen (port : Z)
| DataUnlisten (port : Z)
| DataSendRule (port : Z) (rule : RouteRule) (ttl : NetOutgoingMeta) (data : Buffer).

Inductive DataEvent :=
| Pong (dest : NodeId) (rtt : option Z)
| Recv (port : Z) (meta : NetIncomingMeta) (data : Buffer).

Inductive DataMsg :=
| DataPing (id ts : Z) (from : NodeId)
| DataPong (id ts : Z)
| DataData (port : Z) (data : Buffer).

Definition PING_TIMEOUT : Z := 2000.

(** [NetOutgoingMeta::default()] *)
Definition outgoing_default : NetOutgoingMeta := mkOutgoing false DEFAULT_MSG_TTL 0 false.

Section data.
Context {UserData Addr Secure : Type} {msg_codec : Codec DataMsg}.

Abbreviation Actor := (FeatureControlActor UserData) (only parsing).
Abbreviation Output := (FeatureOutput UserData DataEvent unit Addr) (only parsing).

Record DataFeature := mkData {
  waits : gmap Z (Z * Actor * NodeId);
  ping_seq : Z;
  data_queue : list Output;
  data_dest : gmap Z Actor;
  data_shutdown : bool;
}.

Definition data_default : DataFeature := mkData ∅ 0 [] ∅ false.

Definition data_push (self : DataFeature) (out : Output) : DataFeature :=
  mkData (waits self) (ping_seq self) (data_queue self ++ [out]) (data_dest self) (data_shutdown self).

Definition ping_timeout (self : DataFeature) (id : Z) : outcome DataFeature :=
  w ← expect (waits self !! id);
  Done (mkData (delete id (waits self)) (ping_seq self) (data_queue self ++ [OutEvent w.1.2 (Pong w.2 None)])
          (data_dest self) (data_shutdown self)).

Definition data_on_shared_input (order : HashOrder) (self : DataFeature) (now : Z) (input : FeatureSharedInput Secure) : outcome DataFeature :=
  match input with
  | Tick _ =>
      let timeout_list := fst <$> filter (λ e, wrap 64 (e.2.1.1 + PING_TIMEOUT) ≤ now) (hash_iter (waits self)) in
      foldM ping_timeout self timeout_list
  | Connection _ => Done self
  end.

Definition data_on_control (ctx : FeatureContext) (self : DataFeature) (now_ms : Z) (actor : Actor) (control : DataControl) : DataFeature :=
  match control with
  | Ping dest =>
      let seq := ping_seq self in
      mkData (<[seq := (now_ms, actor, dest)]> (waits self)) (wrap 64 (seq + 1))
        (data_queue self ++ [OutSendRoute (ToNode dest) outgoing_default (serialize (DataPing seq now_ms (fctx_node_id ctx)))])
        (data_dest self) (data_shutdown self)
  | DataListen port => mkData (waits self) (ping_seq self) (data_queue self) (<[port := actor]> (data_dest self)) (data_shutdown self)
  | DataUnlisten port => mkData (waits self) (ping_seq self) (data_queue self) (delete port (data_dest self)) (data_shutdown self)
  | DataSendRule port rule ttl data => data_push self (OutSendRoute rule ttl (serialize (DataData port data)))
  end.

Definition data_on_msg (self : DataFeature) (now_ms : Z) (meta : NetIncomingMeta) (buf : Buffer) : DataFeature :=
  match deserialize (T := DataMsg) buf with
  | Some (DataPong id ts) =>
      match waits self !! id with
      | Some (_, actor, dest) =>
          mkData (delete id (waits self)) (ping_seq self)
            (data_queue self ++ [OutEvent actor (Pong dest (Some (wrap 16 (wrap 64 (now_ms - ts)))))]) (data_dest self) (data_shutdown self)
      | None => self
      end
  | Some (DataPing id ts from) => data_push self (OutSendRoute (ToNode from) outgoing_default (serialize (DataPong id ts)))
  | Some (DataData port data) =>
      match data_dest self !! port with
      | Some actor => data_push self (OutEvent actor (Recv port meta data))
      | None => self
      end
  | None => self
  end.

Definition data_on_input (ctx : FeatureContext) (self : DataFeature) (now_ms : Z) (input : FeatureInput UserData DataControl unit) : DataFeature :=
  match input with
  | FControl actor control => data_on_control ctx self now_ms actor control
  | FNet _ meta buf => data_on_msg self now_ms meta buf
  | FLocal meta buf => data_on_msg self now_ms meta buf
  | FromWorker _ => self
  end.

Definition data_on_shutdown (self : DataFeature) : DataFeature :=
  mkData (waits self) (ping_seq self) (data_queue self) (data_dest self) true.

Definition data_is_empty (self : DataFeature) : bool :=
  data_shutdown self && match data_queue self with [] => true | _ => false end.

Definition data_pop_output (self : DataFeature) : DataFeature * option Output :=
  match data_queue self with
  | [] => (self, None)
  | out :: rest => (mkData (waits self) (ping_seq self) rest (data_dest self) (data_shutdown self), Some out)
  end.
End data.

Arguments DataFeature UserData Addr : clear implicits.

(** ** Neighbours *)

Inductive NeighboursApiControl (Addr : Type) :=
| NSub
| NUnSub
| NConnectTo (addr : Addr)
| NDisconnectFrom (node : NodeId).
Arguments NSub {_}.
Arguments NUnSub {_}.
Arguments NConnectTo {_} _.
Arguments NDisconnectFrom {_} _.

Inductive NeighboursApiEvent :=
| NConnected (node : NodeId) (conn : ConnId)
| NDisconnected (node : NodeId) (conn : ConnId).

Section neighbours.
Context {UserData Addr Secure : Type} `{EqDecision UserData}.

Abbreviation Actor := (FeatureControlActor UserData) (only parsing).
Abbreviation Output := (FeatureOutput UserData NeighboursApiEvent unit Addr) (only parsing).

Record NeighboursFeature := mkNeighboursFeature {
  subs : list Actor;
  nf_output : list Output;
  nf_shutdown : bool;
}.

Definition neighbours_default : NeighboursFeature := mkNeighboursFeature [] [] false.

Definition nf_push (self : NeighboursFeature) (outs : list Output) : NeighboursFeature :=
  mkNeighboursFeature (subs self) (nf_output self ++ outs) (nf_shutdown self).

Definition neighbours_on_shared_input (self : NeighboursFeature) (input : FeatureSharedInput Secure) : NeighboursFeature :=
  match input with
  | Connection (Connected ctx _) => nf_push self ((λ sub, OutEvent sub (NConnected (ctx_node ctx) (ctx_conn ctx))) <$> subs self)
  | Connection (Disconnected ctx) => nf_push self ((λ sub, OutEvent sub (NDisconnected (ctx_node ctx) (ctx_conn ctx))) <$> subs self)
  | _ => self
  end.

Definition neighbours_on_input (self : NeighboursFeature) (input : FeatureInput UserData (NeighboursApiControl Addr) unit) : NeighboursFeature :=
  match input with
  | FControl actor NSub => mkNeighboursFeature (vec_insert actor (subs self)) (nf_output self) (nf_shutdown self)
  | FControl actor NUnSub => mkNeighboursFeature (vec_remove actor (subs self)) (nf_output self) (nf_shutdown self)
  | FControl _ (NConnectTo addr) => nf_push self [OutNeighboursConnectTo addr]
  | FControl _ (NDisconnectFrom node) => nf_push self [OutNeighboursDisconnectFrom node]
  | _ => self
  end.

Definition neighbours_on_shutdown (self : NeighboursFeature) : NeighboursFeature := mkNeighboursFeature (subs self) (nf_output self) true.

Definition neighbours_is_empty (self : NeighboursFeature) : bool :=
  nf_shutdown self && match nf_output self with [] => true | _ => false end.

Definition neighbours_pop_output (self : NeighboursFeature) : NeighboursFeature * option Output :=
  match nf_output self with
  | [] => (self, None)
  | out :: rest => (mkNeighboursFeature (subs self) rest (nf_shutdown self), Some out)
  end.
End neighbours.

Arguments NeighboursFeature UserData Addr : clear implicits.

(** ** Workers that forward everything

    The workers of data and neighbours, each with its own types. *)

Section forwarding.
Context {UserData Control Event : Type}.
Abbreviation WorkerOutput := (FeatureWorkerOutput UserData Control Event unit) (only parsing).

Record ForwardingWorker := mkForwarding { fw_queue : list WorkerOutput; fw_shutdown : bool }.

Definition forwarding_default : ForwardingWorker := mkForwarding [] false.

Definition forwarding_on_input (self : ForwardingWorker) (input : FeatureWorkerInput UserData Control unit) : ForwardingWorker :=
  let forward out := mkForwarding (fw_queue self ++ [out]) (fw_shutdown self) in
  match input with
  | WControl actor control => forward (ForwardControlToController actor control)
  | WNetwork conn header buf => forward (ForwardNetworkToController conn header buf)
  | WFromController _ _ => self
  | WLocal header buf => forward (ForwardLocalToController header buf)
  end.

Definition forwarding_on_shutdown (self : ForwardingWorker) : ForwardingWorker := mkForwarding (fw_queue self) true.

Definition forwarding_is_empty (self : ForwardingWorker) : bool :=
  fw_shutdown self && match fw_queue self with [] => true | _ => false end.

Definition forwarding_pop_output (self : ForwardingWorker) : ForwardingWorker * option WorkerOutput :=
  match fw_queue self with
  | [] => (self, None)
  | out :: rest => (mkForwarding rest (fw_shutdown self), Some out)
  end.
End forwarding.

Arguments ForwardingWorker UserData Control Event : clear implicits.

(** ** Vpn

    [Control] and [Event] have no values; the worker drops every packet. *)

Inductive VpnControl := .
Inductive VpnEvent := .

Record VpnFeature := mkVpn { vpn_shutdown : bool }.
Definition vpn_on_shutdown (self : VpnFeature) : VpnFeature := mkVpn true.
Definition vpn_is_empty (self : VpnFeature) : bool := vpn_shutdown self.

Record VpnFeatureWorker (UserData : Type) := mkVpnWorker {
  vw_queue : list (FeatureWorkerOutput UserData VpnControl VpnEvent unit);
  vw_shutdown : bool;
}.
Arguments mkVpnWorker {_} _ _.
Arguments vw_queue {_} _.
Arguments vw_shutdown {_} _.

Definition vpn_worker_on_input {U} (self : VpnFeatureWorker U) (input : FeatureWorkerInput U VpnControl unit) : VpnFeatureWorker U := self.
Definition vpn_worker_on_shutdown {U} (self : VpnFeatureWorker U) : VpnFeatureWorker U := mkVpnWorker (vw_queue self) true.
Definition vpn_worker_is_empty {U} (self : VpnFeatureWorker U) : bool :=
  vw_shutdown self && match vw_queue self with [] => true | _ => false end.
Definition vpn_worker_pop_output {U} (self : VpnFeatureWorker U)
    : VpnFeatureWorker U * option (FeatureWorkerOutput U VpnControl VpnEvent unit) :=
  match vw_queue self with
  | [] => (self, None)
  | out :: rest => (mkVpnWorker rest (vw_shutdown self), Some out)
  end.
