(* ===== verification/Features.v ===== *)
(** * All features of a node ([features/mod.rs]) and their workers ([data_plane/features.rs])

    Messages of the features are wrapped in one sum type per kind. The manager
    of a worker hands each input to the feature it is for, and the outputs
    back with the feature they come from. *)

From S2P Require Import Prelude NodeId ConnId Route Shadow Msg Base RouterSync Neighbours DhtMsg Dht PubsubMsg PubsubRelay Pubsub Alias Socket DataFeature.

Inductive Features := FNeighbours | FData | FRouterSync | FVpn | FDhtKv | FPubSub | FAlias | FSocket.

#[global] Instance Features_eq_dec : EqDecision Features.
Proof. solve_decision. Defined.

(** [feature as u8] *)
Definition feature_id (f : Features) : Z :=
  match f with
  | FNeighbours => 0 | FData => 1 | FRouterSync => 2 | FVpn => 3 | FDhtKv => 4 | FPubSub => 5 | FAlias => 6 | FSocket => 7
  end.

(** [TryFrom<u8>] *)
Definition feature_try_from (id : Z) : option Features :=
  match id with
  | 0 => Some FNeighbours | 1 => Some FData | 2 => Some FRouterSync | 3 => Some FVpn
  | 4 => Some FDhtKv | 5 => Some FPubSub | 6 => Some FAlias | 7 => Some FSocket
  | _ => None
  end.

Lemma feature_roundtrip f : feature_try_from (feature_id f) = Some f.
Proof. by destruct f. Qed.

Section features.
Context {UserData Addr : Type}.

Inductive FeaturesControl :=
| CtlNeighbours (c : NeighboursApiControl Addr)
| CtlData (c : DataControl)
| CtlRouterSync (c : RouterSync.Control)
| CtlVpn (c : VpnControl)
| CtlDhtKv (c : DhtMsg.Control)
| CtlPubSub (c : ChannelId * ChannelControl)
| CtlAlias (c : AliasControl)
| CtlSocket (c : SocketControl).

Definition control_to_feature (c : FeaturesControl) : Features :=
  match c with
  | CtlNeighbours _ => FNeighbours | CtlData _ => FData | CtlRouterSync _ => FRouterSync | CtlVpn _ => FVpn
  | CtlDhtKv _ => FDhtKv | CtlPubSub _ => FPubSub | CtlAlias _ => FAlias | CtlSocket _ => FSocket
  end.

Inductive FeaturesEvent :=
| EvNeighbours (e : NeighboursApiEvent)
| EvData (e : DataEvent)
| EvRouterSync (e : RouterSync.Event)
| EvVpn (e : VpnEvent)
| EvDhtKv (e : DhtMsg.Event)
| EvPubSub (e : ChannelId * ChannelEvent)
| EvAlias (e : AliasEvent)
| EvSocket (e : SocketEvent).

Inductive FeaturesToController :=
| TcNeighbours (t : unit)
| TcData (t : unit)
| TcRouterSync (t : unit)
| TcVpn (t : unit)
| TcDhtKv (t : unit)
| TcPubSub (t : PubsubMsg.ToController)
| TcAlias (t : unit)
| TcSocket (t : unit).

Definition to_controller_feature (t : FeaturesToController) : Features :=
  match t with
  | TcNeighbours _ => FNeighbours | TcData _ => FData | TcRouterSync _ => FRouterSync | TcVpn _ => FVpn
  | TcDhtKv _ => FDhtKv | TcPubSub _ => FPubSub | TcAlias _ => FAlias | TcSocket _ => FSocket
  end.

Inductive FeaturesToWorker :=
| TwNeighbours (t : unit)
| TwData (t : unit)
| TwRouterSync (t : ShadowRouterDelta NetPair)
| TwVpn (t : unit)
| TwDhtKv (t : unit)
| TwPubSub (t : PubsubMsg.ToWorker UserData)
| TwAlias (t : unit)
| TwSocket (t : SocketToWorker UserData).

Definition to_worker_feature (t : FeaturesToWorker) : Features :=
  match t with
  | TwNeighbours _ => FNeighbours | TwData _ => FData | TwRouterSync _ => FRouterSync | TwVpn _ => FVpn
  | TwDhtKv _ => FDhtKv | TwPubSub _ => FPubSub | TwAlias _ => FAlias | TwSocket _ => FSocket
  end.
End features.

Arguments FeaturesControl Addr : clear implicits.
Arguments FeaturesToWorker UserData : clear implicits.

(** ** The workers of one data plane *)

Section manager.
Context {UserData Addr H : Type} `{EqDecision UserData} `{ShadowRouterHistory H} {msg_codec : Codec PubsubMessage}.

Abbreviation Input := (FeatureWorkerInput UserData (FeaturesControl Addr) (FeaturesToWorker UserData)) (only parsing).
Abbreviation Output := (FeatureWorkerOutput UserData (FeaturesControl Addr) FeaturesEvent FeaturesToController) (only parsing).
(** [FeatureWorkerContext] *)
Abbreviation Ctx := (FeatureWorkerContext (ShadowRouter NetPair H)) (only parsing).

Record FeatureWorkerManager := mkManager {
  fm_neighbours : ForwardingWorker UserData (NeighboursApiControl Addr) NeighboursApiEvent;
  fm_data : ForwardingWorker UserData DataControl DataEvent;
  fm_router_sync : @RouterSyncFeatureWorker UserData;
  fm_vpn : VpnFeatureWorker UserData;
  fm_dht_kv : @DhtKvFeatureWorker UserData;
  fm_pubsub : PubSubFeatureWorker UserData;
  fm_alias : AliasFeatureWorker UserData;
  fm_socket : SocketFeatureWorker UserData;
  fm_shutdown : bool;
}.

Definition fwm_new : FeatureWorkerManager :=
  mkManager forwarding_default forwarding_default (mkRouterSyncWorker [] false) (mkVpnWorker [] false) (mkDhtKvWorker [] false)
    pubsub_worker_default (mkAliasWorker [] false) socket_worker_default false.

Definition with_neighbours (m : FeatureWorkerManager) w :=
  mkManager w (fm_data m) (fm_router_sync m) (fm_vpn m) (fm_dht_kv m) (fm_pubsub m) (fm_alias m) (fm_socket m) (fm_shutdown m).
Definition with_data (m : FeatureWorkerManager) w :=
  mkManager (fm_neighbours m) w (fm_router_sync m) (fm_vpn m) (fm_dht_kv m) (fm_pubsub m) (fm_alias m) (fm_socket m) (fm_shutdown m).
Definition with_router_sync (m : FeatureWorkerManager) w :=
  mkManager (fm_neighbours m) (fm_data m) w (fm_vpn m) (fm_dht_kv m) (fm_pubsub m) (fm_alias m) (fm_socket m) (fm_shutdown m).
Definition with_vpn (m : FeatureWorkerManager) w :=
  mkManager (fm_neighbours m) (fm_data m) (fm_router_sync m) w (fm_dht_kv m) (fm_pubsub m) (fm_alias m) (fm_socket m) (fm_shutdown m).
Definition with_dht_kv (m : FeatureWorkerManager) w :=
  mkManager (fm_neighbours m) (fm_data m) (fm_router_sync m) (fm_vpn m) w (fm_pubsub m) (fm_alias m) (fm_socket m) (fm_shutdown m).
Definition with_pubsub (m : FeatureWorkerManager) w :=
  mkManager (fm_neighbours m) (fm_data m) (fm_router_sync m) (fm_vpn m) (fm_dht_kv m) w (fm_alias m) (fm_socket m) (fm_shutdown m).
Definition with_alias (m : FeatureWorkerManager) w :=
  mkManager (fm_neighbours m) (fm_data m) (fm_router_sync m) (fm_vpn m) (fm_dht_kv m) (fm_pubsub m) w (fm_socket m) (fm_shutdown m).
Definition with_socket (m : FeatureWorkerManager) w :=
  mkManager (fm_neighbours m) (fm_data m) (fm_router_sync m) (fm_vpn m) (fm_dht_kv m) (fm_pubsub m) (fm_alias m) w (fm_shutdown m).

Definition with_router (ctx : Ctx) (router : ShadowRouter NetPair H) : Ctx := mkWorkerContext (wctx_node_id ctx) router.

(** An input for one feature, in the types of the feature; only router_sync
    changes the router of the context. No worker overrides [on_tick]. *)
Inductive FeatureInputFor :=
| InNeighbours (i : FeatureWorkerInput UserData (NeighboursApiControl Addr) unit)
| InData (i : FeatureWorkerInput UserData DataControl unit)
| InRouterSync (i : FeatureWorkerInput UserData RouterSync.Control (ShadowRouterDelta NetPair))
| InVpn (i : FeatureWorkerInput UserData VpnControl unit)
| InDhtKv (i : FeatureWorkerInput UserData DhtMsg.Control unit)
| InPubSub (i : FeatureWorkerInput UserData (ChannelId * ChannelControl) (PubsubMsg.ToWorker UserData))
| InAlias (i : FeatureWorkerInput UserData AliasControl unit)
| InSocket (i : FeatureWorkerInput UserData SocketControl (SocketToWorker UserData)).

Definition feed (order : HashOrder) (ctx : Ctx) (m : FeatureWorkerManager) (input : FeatureInputFor) : outcome (FeatureWorkerManager * Ctx) :=
  match input with
  | InNeighbours i => Done (with_neighbours m (forwarding_on_input (fm_neighbours m) i), ctx)
  | InData i => Done (with_data m (forwarding_on_input (fm_data m) i), ctx)
  | InRouterSync i => r ← worker_on_input (fm_router_sync m) (wctx_router ctx) i; Done (with_router_sync m r.1, with_router ctx r.2)
  | InVpn i => Done (with_vpn m (vpn_worker_on_input (fm_vpn m) i), ctx)
  | InDhtKv i => Done (with_dht_kv m (dht_worker_on_input (fm_dht_kv m) i), ctx)
  | InPubSub i => w ← pubsub_worker_on_input order ctx (fm_pubsub m) i; Done (with_pubsub m w, ctx)
  | InAlias i => Done (with_alias m (alias_worker_on_input (fm_alias m) i), ctx)
  | InSocket i => Done (with_socket m (socket_worker_on_input (fm_socket m) i), ctx)
  end.

(** An input that has neither a control nor a message of the controller. *)
Definition input_for (f : Features) (i : ∀ C T, FeatureWorkerInput UserData C T) : FeatureInputFor :=
  match f with
  | FNeighbours => InNeighbours (i _ _) | FData => InData (i _ _) | FRouterSync => InRouterSync (i _ _) | FVpn => InVpn (i _ _)
  | FDhtKv => InDhtKv (i _ _) | FPubSub => InPubSub (i _ _) | FAlias => InAlias (i _ _) | FSocket => InSocket (i _ _)
  end.

(** [FeatureWorker::on_network_raw]: the default strips the header, the
    worker of pubsub takes the message as it is. *)
Definition fwm_on_network_raw (order : HashOrder) (ctx : Ctx) (m : FeatureWorkerManager) (f : Features) (conn : ConnId)
    (pair : NetPair) (header : TransportMsgHeader) (buf : Buffer) : outcome (FeatureWorkerManager * Ctx) :=
  match f with
  | FPubSub => Done (with_pubsub m (worker_on_network_raw (fm_pubsub m) pair buf), ctx)
  | _ =>
      if bool_decide (length buf < serialize_size header)%nat then Panic
      else feed order ctx m (input_for f (λ _ _, WNetwork conn (incoming_of_header header) (drop (serialize_size header) buf)))
  end.

Definition fwm_on_input (order : HashOrder) (ctx : Ctx) (m : FeatureWorkerManager) (f : Features) (input : Input)
    : outcome (FeatureWorkerManager * Ctx) :=
  match input with
  | WControl actor control =>
      feed order ctx m
        match control with
        | CtlNeighbours c => InNeighbours (WControl actor c) | CtlData c => InData (WControl actor c)
        | CtlRouterSync c => InRouterSync (WControl actor c) | CtlVpn c => InVpn (WControl actor c)
        | CtlDhtKv c => InDhtKv (WControl actor c) | CtlPubSub c => InPubSub (WControl actor c)
        | CtlAlias c => InAlias (WControl actor c) | CtlSocket c => InSocket (WControl actor c)
        end
  | WFromController is_broadcast to =>
      feed order ctx m
        match to with
        | TwNeighbours t => InNeighbours (WFromController is_broadcast t) | TwData t => InData (WFromController is_broadcast t)
        | TwRouterSync t => InRouterSync (WFromController is_broadcast t) | TwVpn t => InVpn (WFromController is_broadcast t)
        | TwDhtKv t => InDhtKv (WFromController is_broadcast t) | TwPubSub t => InPubSub (WFromController is_broadcast t)
        | TwAlias t => InAlias (WFromController is_broadcast t) | TwSocket t => InSocket (WFromController is_broadcast t)
        end
  | WNetwork _ _ _ => Panic
  | WLocal header buf => feed order ctx m (input_for f (λ _ _, WLocal header buf))
  end.

Definition fwm_on_shutdown (m : FeatureWorkerManager) : FeatureWorkerManager :=
  if fm_shutdown m then m
  else mkManager (forwarding_on_shutdown (fm_neighbours m)) (forwarding_on_shutdown (fm_data m)) (worker_on_shutdown (fm_router_sync m))
         (vpn_worker_on_shutdown (fm_vpn m)) (dht_worker_on_shutdown (fm_dht_kv m)) (pubsub_worker_on_shutdown (fm_pubsub m))
         (alias_worker_on_shutdown (fm_alias m)) (socket_worker_on_shutdown (fm_socket m)) true.

Definition fwm_is_empty (m : FeatureWorkerManager) : bool :=
  fm_shutdown m && forwarding_is_empty (fm_neighbours m) && forwarding_is_empty (fm_data m) && worker_is_empty (fm_router_sync m) &&
  vpn_worker_is_empty (fm_vpn m) && dht_worker_is_empty (fm_dht_kv m) && pubsub_worker_is_empty (fm_pubsub m) &&
  alias_worker_is_empty (fm_alias m) && socket_worker_is_empty (fm_socket m).

(** The next output of one feature, in the types of all features. *)
Definition pop_feature (m : FeatureWorkerManager) (f : Features) : FeatureWorkerManager * option Output :=
  match f with
  | FNeighbours => let '(w, o) := forwarding_pop_output (fm_neighbours m) in
                   (with_neighbours m w, worker_output_into2 id CtlNeighbours EvNeighbours TcNeighbours <$> o)
  | FData => let '(w, o) := forwarding_pop_output (fm_data m) in
             (with_data m w, worker_output_into2 id CtlData EvData TcData <$> o)
  | FRouterSync => let '(w, o) := worker_pop_output (fm_router_sync m) in
                   (with_router_sync m w, worker_output_into2 id CtlRouterSync EvRouterSync TcRouterSync <$> o)
  | FVpn => let '(w, o) := vpn_worker_pop_output (fm_vpn m) in
            (with_vpn m w, worker_output_into2 id CtlVpn EvVpn TcVpn <$> o)
  | FDhtKv => let '(w, o) := dht_worker_pop_output (fm_dht_kv m) in
              (with_dht_kv m w, worker_output_into2 id CtlDhtKv EvDhtKv TcDhtKv <$> o)
  | FPubSub => let '(w, o) := pubsub_worker_pop_output (fm_pubsub m) in
               (with_pubsub m w, worker_output_into2 id CtlPubSub EvPubSub TcPubSub <$> o)
  | FAlias => let '(w, o) := alias_worker_pop_output (fm_alias m) in
              (with_alias m w, worker_output_into2 id CtlAlias EvAlias TcAlias <$> o)
  | FSocket => let '(w, o) := socket_worker_pop_output (fm_socket m) in
               (with_socket m w, worker_output_into2 id CtlSocket EvSocket TcSocket <$> o)
  end.

(** [pop_output]: the features as the task switcher polls them, until one has
    an output; a feature that is empty is reported once as such. *)
Fixpoint fwm_pop_output (schedule : list (SwitcherStep Features)) (m : FeatureWorkerManager)
    : FeatureWorkerManager * option (Features * Output) :=
  match schedule with
  | [] => (m, None)
  | Ended f :: _ => (m, Some (f, WOutOnResourceEmpty))
  | Poll f :: schedule =>
      match pop_feature m f with
      | (m, Some out) => (m, Some (f, out))
      | (m, None) => fwm_pop_output schedule m
      end
  end.
End manager.

Arguments FeatureWorkerManager UserData Addr : clear implicits.
