(* ===== verification/Service.v ===== *)
(** * Services ([base/service.rs]) and their workers ([data_plane/services.rs])

    A service runs in the controller and has a worker in every data plane. The
    services themselves are a parameter; the manager of a data plane hands
    inputs to the worker of a service and polls the workers. *)

From S2P Require Import Prelude NodeId Base Features.

Inductive ServiceControlActor (UserData : Type) :=
| SvcController (u : UserData)
| SvcWorker (worker : Z) (u : UserData).
Arguments SvcController {_} _.
Arguments SvcWorker {_} _ _.

#[global] Instance ServiceControlActor_eq_dec {U} `{EqDecision U} : EqDecision (ServiceControlActor U).
Proof. solve_decision. Defined.

Inductive ServiceSharedInput (Secure : Type) :=
| SvcTick (tick_count : Z)
| SvcConnection (event : ConnectionEvent Secure).
Arguments SvcTick {_} _.
Arguments SvcConnection {_} _.

Inductive ServiceInput (UserData FeaturesEvent ServiceControl ToController : Type) :=
| SvcControl (actor : ServiceControlActor UserData) (control : ServiceControl)
| SvcFromWorker (msg : ToController)
| SvcFeatureEvent (event : FeaturesEvent).
Arguments SvcControl {_ _ _ _} _ _.
Arguments SvcFromWorker {_ _ _ _} _.
Arguments SvcFeatureEvent {_ _ _ _} _.

Inductive ServiceOutput (UserData FeaturesControl ServiceEvent ToWorker : Type) :=
| SvcOutEvent (actor : ServiceControlActor UserData) (event : ServiceEvent)
| SvcOutFeatureControl (control : FeaturesControl)
| SvcOutBroadcastWorkers (msg : ToWorker)
| SvcOutOnResourceEmpty.
Arguments SvcOutEvent {_ _ _ _} _ _.
Arguments SvcOutFeatureControl {_ _ _ _} _.
Arguments SvcOutBroadcastWorkers {_ _ _ _} _.
Arguments SvcOutOnResourceEmpty {_ _ _ _}.

Record ServiceCtx := mkServiceCtx { svc_node_id : NodeId; svc_session : Z }.

Inductive ServiceWorkerInput (UserData FeaturesEvent ServiceControl ToWorker : Type) :=
| SwControl (actor : ServiceControlActor UserData) (control : ServiceControl)
| SwFromController (msg : ToWorker)
| SwFeatureEvent (event : FeaturesEvent).
Arguments SwControl {_ _ _ _} _ _.
Arguments SwFromController {_ _ _ _} _.
Arguments SwFeatureEvent {_ _ _ _} _.

Inductive ServiceWorkerOutput (UserData FeaturesControl FeaturesEvent ServiceControl ServiceEvent ToController : Type) :=
| SwForwardControlToController (actor : ServiceControlActor UserData) (control : ServiceControl)
| SwForwardFeatureEventToController (event : FeaturesEvent)
| SwToController (msg : ToController)
| SwFeatureControl (control : FeaturesControl)
| SwEvent (actor : ServiceControlActor UserData) (event : ServiceEvent)
| SwOnResourceEmpty.
Arguments SwForwardControlToController {_ _ _ _ _ _} _ _.
Arguments SwForwardFeatureEventToController {_ _ _ _ _ _} _.
Arguments SwToController {_ _ _ _ _ _} _.
Arguments SwFeatureControl {_ _ _ _ _ _} _.
Arguments SwEvent {_ _ _ _ _ _} _ _.
Arguments SwOnResourceEmpty {_ _ _ _ _ _}.

Record ServiceWorkerCtx := mkServiceWorkerCtx { swctx_node_id : NodeId }.

(** [ServiceWorker]: [W] is the state of [Box<dyn ServiceWorker>]. *)
Class ServiceWorker (UserData Addr SC SE TC TW W : Type) := {
  svw_is_service_empty : W → bool;
  svw_on_tick : ServiceWorkerCtx → W → Z → Z → W;
  svw_on_input : ServiceWorkerCtx → W → Z → ServiceWorkerInput UserData FeaturesEvent SC TW → W;
  svw_on_shutdown : ServiceWorkerCtx → W → Z → W;
  svw_pop_output2 : W → Z → W * option (ServiceWorkerOutput UserData (FeaturesControl Addr) FeaturesEvent SC SE TC);
}.

(** [Service], the side of the controller. *)
Class ControllerService (UserData Addr Secure SC SE TC TW S : Type) := {
  svc_is_service_empty : S → bool;
  svc_on_shared_input : ServiceCtx → S → Z → ServiceSharedInput Secure → S;
  svc_on_input : ServiceCtx → S → Z → ServiceInput UserData FeaturesEvent SC TC → outcome S;
  svc_on_shutdown : ServiceCtx → S → Z → S;
  svc_pop_output2 : S → Z → S * option (ServiceOutput UserData (FeaturesControl Addr) SE TW);
}.

(** ** Slots

    The managers of both sides keep their services in an array and poll them
    in the same way. *)

Record ServiceSlot (W : Type) := mkServiceSlot { slot_service : W; slot_is_empty : bool }.
Arguments mkServiceSlot {_} _ _.
Arguments slot_service {_} _.
Arguments slot_is_empty {_} _.

(** [ServiceWorkerManager] and [ServiceManager] *)
Record ServiceSlots (W : Type) := mkServiceSlots {
  ss_services : list (option (ServiceSlot W));        (* [Option<ServiceSlot>; 256] *)
  services_count : nat;
  empty_services : gset Z;
  ss_shutdown : bool;
}.
Arguments mkServiceSlots {_} _ _ _ _.
Arguments ss_services {_} _.
Arguments services_count {_} _.
Arguments empty_services {_} _.
Arguments ss_shutdown {_} _.

Section slots.
Context {W Output : Type}.
Implicit Types self : ServiceSlots W.

(** A builder is its id and the service it creates. *)
Definition slots_new (is_empty : bool) (services : list (Z * W)) : ServiceSlots W :=
  mkServiceSlots
    ((λ index, match list_find (λ s, s.1 = index) services with
               | Some (_, s) => Some (mkServiceSlot s.2 is_empty)
               | None => None
               end) <$> u8_all)
    (length services) ∅ false.

Definition map_slots (f : W → W) self : ServiceSlots W :=
  mkServiceSlots (option_map (λ slot, mkServiceSlot (f (slot_service slot)) (slot_is_empty slot)) <$> ss_services self)
    (services_count self) (empty_services self) (ss_shutdown self).

Definition set_slot self (id : Z) (slot : ServiceSlot W) (empties : gset Z) : ServiceSlots W :=
  mkServiceSlots (arr_set (ss_services self) id (Some slot)) (services_count self) empties (ss_shutdown self).

Definition slots_on_input (f : W → W) self (id : Z) : ServiceSlots W :=
  match arr_get (ss_services self) id with
  | Some slot => set_slot self id (mkServiceSlot (f (slot_service slot)) (slot_is_empty slot)) (empty_services self)
  | None => self
  end.

Definition slots_on_shutdown (f : W → W) self : ServiceSlots W :=
  if ss_shutdown self then self
  else
    let self := map_slots f self in
    mkServiceSlots (ss_services self) (services_count self) (empty_services self) true.

Definition slots_is_empty self : bool :=
  ss_shutdown self && bool_decide (size (empty_services self) = services_count self).

(** [pop_output]: the services as the task switcher polls them. A service that
    has no output is asked whether it is empty. *)
Fixpoint slots_pop_output (pop : W → W * option Output) (is_empty : W → bool) (empty_event : Output) (schedule : list (SwitcherStep Z))
    self : ServiceSlots W * option (Z * Output) :=
  match schedule with
  | [] => (self, None)
  | Ended index :: _ => (self, Some (index, empty_event))
  | Poll index :: schedule =>
      match arr_get (ss_services self) index with
      | Some slot =>
          match pop (slot_service slot) with
          | (w, Some out) => (set_slot self index (mkServiceSlot w (slot_is_empty slot)) (empty_services self), Some (index, out))
          | (w, None) =>
              if negb (slot_is_empty slot) then
                if is_empty w
                then (set_slot self index (mkServiceSlot w true) ({[index]} ∪ empty_services self), Some (index, empty_event))
                else slots_pop_output pop is_empty empty_event schedule (set_slot self index (mkServiceSlot w false) (empty_services self))
              else if negb (is_empty w)
              then slots_pop_output pop is_empty empty_event schedule
                     (set_slot self index (mkServiceSlot w false) (empty_services self ∖ {[index]}))
              else slots_pop_output pop is_empty empty_event schedule (set_slot self index (mkServiceSlot w true) (empty_services self))
          end
      | None => slots_pop_output pop is_empty empty_event schedule self
      end
  end.
End slots.

(** ** The workers of a data plane *)

Section workers.
Context {UserData Addr SC SE TC TW W : Type} `{ServiceWorker UserData Addr SC SE TC TW W}.
Implicit Types self m : ServiceSlots W.

Definition swm_new (services : list (Z * W)) : ServiceSlots W := slots_new true services.

Definition swm_on_tick (ctx : ServiceWorkerCtx) self (now tick_count : Z) : ServiceSlots W :=
  map_slots (λ w, svw_on_tick ctx w now tick_count) self.

Definition swm_on_input (ctx : ServiceWorkerCtx) self (now : Z) (id : Z) (input : ServiceWorkerInput UserData FeaturesEvent SC TW) : ServiceSlots W :=
  slots_on_input (λ w, svw_on_input ctx w now input) self id.

Definition swm_on_shutdown (ctx : ServiceWorkerCtx) self (now : Z) : ServiceSlots W :=
  slots_on_shutdown (λ w, svw_on_shutdown ctx w now) self.

Definition swm_pop_output (schedule : list (SwitcherStep Z)) self (now : Z)
    : ServiceSlots W * option (Z * ServiceWorkerOutput UserData (FeaturesControl Addr) FeaturesEvent SC SE TC) :=
  slots_pop_output (λ w, svw_pop_output2 w now) svw_is_service_empty SwOnResourceEmpty schedule self.

(** A slot starts out marked empty although it is not among the empty services.
    If its worker is empty when it is first polled, as after an early shutdown,
    it is never counted: the manager is polled without effect and never gets
    empty. *)
Lemma early_shutdown_never_empty m (now : Z) (schedule : list Z) :
  ss_shutdown m = true → empty_services m = ∅ → services_count m ≠ 0%nat →
  (∀ i slot, arr_get (ss_services m) i = Some slot →
    slot_is_empty slot = true ∧ svw_is_service_empty (slot_service slot) = true ∧ svw_pop_output2 (slot_service slot) now = (slot_service slot, None)) →
  swm_pop_output (Poll <$> schedule) m now = (m, None) ∧ slots_is_empty m = false.
Proof.
  intros Hs He Hc Hm. split; [|unfold slots_is_empty; rewrite Hs, He; apply bool_decide_eq_false; rewrite size_empty; done].
  unfold swm_pop_output. induction schedule as [|i l IH]; [done|]. cbn [fmap list_fmap slots_pop_output].
  destruct (arr_get (ss_services m) i) as [slot|] eqn:Hi; [|done]. destruct (Hm i slot Hi) as (Hf & Hw & Hp).
  rewrite Hp, Hf, Hw. cbn [negb]. assert (set_slot m i (mkServiceSlot (slot_service slot) true) (empty_services m) = m) as ->; [|done].
  unfold set_slot, arr_set. rewrite list_insert_id; [by destruct m|]. unfold arr_get in Hi. rewrite list_lookup_total_alt in Hi.
  destruct (ss_services m !! Z.to_nat i) as [o|]; [|done]. cbn in Hi. subst o. f_equal. f_equal. destruct slot. cbn in Hf. by subst.
Qed.
End workers.

(** ** The services of the controller *)

Section services.
Context {UserData Addr Secure SC SE TC TW S : Type} `{ControllerService UserData Addr Secure SC SE TC TW S}.
Implicit Types self : ServiceSlots S.

Definition sm_new (services : list (Z * S)) : ServiceSlots S := slots_new false services.

Definition sm_on_shared_input (ctx : ServiceCtx) self (now : Z) (input : ServiceSharedInput Secure) : ServiceSlots S :=
  map_slots (λ s, svc_on_shared_input ctx s now input) self.

Definition sm_on_input (ctx : ServiceCtx) self (now : Z) (id : Z) (input : ServiceInput UserData FeaturesEvent SC TC)
    : outcome (ServiceSlots S) :=
  match arr_get (ss_services self) id with
  | Some slot =>
      s ← svc_on_input ctx (slot_service slot) now input;
      Done (set_slot self id (mkServiceSlot s (slot_is_empty slot)) (empty_services self))
  | None => Done self
  end.

Definition sm_on_shutdown (ctx : ServiceCtx) self (now : Z) : ServiceSlots S := slots_on_shutdown (λ s, svc_on_shutdown ctx s now) self.

Definition sm_pop_output (schedule : list (SwitcherStep Z)) self (now : Z)
    : ServiceSlots S * option (Z * ServiceOutput UserData (FeaturesControl Addr) SE TW) :=
  slots_pop_output (λ s, svc_pop_output2 s now) svc_is_service_empty SvcOutOnResourceEmpty schedule self.
End services.
