(* ===== verification/DataPlane.v ===== *)
(** * The data plane of a worker ([data_plane.rs], [data_plane/connection.rs],
    the messages of [lib.rs])

    A worker receives packets, routes them by the shadow router, hands them to
    its features or sends them on, and encrypts them for each connection. The
    connections are pinned by the controller. *)

From S2P Require Import Prelude NodeId ConnId Route Shadow Msg Base Control Neighbours Secure DhtMsg PubsubMsg PubsubRelay Pubsub Features Service.

(** ** Messages between the controller, the workers and the user ([lib.rs]) *)

Section messages.
Context {UserData Addr SC SE TC TW Secure : Type}.

Inductive ExtIn :=
| ExtConnectTo (addr : Addr)
| ExtDisconnectFrom (node : NodeId)
| ExtFeaturesControl (u : UserData) (control : FeaturesControl Addr)
| ExtServicesControl (service : Z) (u : UserData) (control : SC).

Inductive ExtOut :=
| ExtFeaturesEvent (u : UserData) (event : FeaturesEvent)
| ExtServicesEvent (service : Z) (u : UserData) (event : SE).

Inductive LogicControl :=
| LcFeature (msg : FeaturesToController)
| LcService (service : Z) (msg : TC)
| LcNetNeighbour (pair : NetPair) (control : NeighboursControl)
| LcNetRemote (feature : Features) (conn : ConnId) (meta : NetIncomingMeta) (buf : Buffer)
| LcNetLocal (feature : Features) (meta : NetIncomingMeta) (buf : Buffer)
| LcFeaturesControl (actor : FeatureControlActor UserData) (control : FeaturesControl Addr)
| LcServicesControl (actor : ServiceControlActor UserData) (service : Z) (control : SC)
| LcServiceEvent (service : Z) (event : FeaturesEvent)
| LcExtFeaturesEvent (u : UserData) (event : FeaturesEvent)
| LcExtServicesEvent (service : Z) (u : UserData) (event : SE).

Inductive LogicEvent :=
| LeNetNeighbour (pair : NetPair) (control : NeighboursControl)
| LeNetDirect (feature : Features) (pair : NetPair) (conn : ConnId) (meta : NetOutgoingMeta) (buf : Buffer)
| LeNetRoute (feature : Features) (rule : RouteRule) (meta : NetOutgoingMeta) (buf : Buffer)
| LePin (conn : ConnId) (node : NodeId) (pair : NetPair) (secure : Secure)
| LeUnPin (conn : ConnId)
| LeFeature (broadcast : bool) (msg : FeaturesToWorker UserData)
| LeService (service : Z) (msg : TW)
| LeExtFeaturesEvent (worker : Z) (u : UserData) (event : FeaturesEvent)
| LeExtServicesEvent (worker : Z) (service : Z) (u : UserData) (event : SE).

Inductive LogicEventDest := DestBroadcast | DestAny | DestWorker (worker : Z).

Definition logic_event_dest (self : LogicEvent) : LogicEventDest :=
  match self with
  | LePin _ _ _ _ => DestBroadcast
  | LeUnPin _ => DestBroadcast
  | LeService _ _ => DestBroadcast
  | LeFeature true _ => DestBroadcast
  | LeFeature false _ => DestAny
  | LeNetNeighbour _ _ => DestAny
  | LeNetDirect _ _ _ _ _ => DestAny
  | LeNetRoute _ _ _ _ => DestAny
  | LeExtFeaturesEvent worker _ _ => DestWorker worker
  | LeExtServicesEvent worker _ _ _ => DestWorker worker
  end.

(** ** Messages of the data plane; without the [vpn] build feature *)

Inductive NetInput := UdpPacketIn (pair : NetPair) (buf : Buffer).

Inductive CrossWorker :=
| CrossFeature (u : UserData) (event : FeaturesEvent)
| CrossService (service : Z) (u : UserData) (event : SE).

Inductive PlaneInput :=
| PlaneExt (ext : ExtIn)
| PlaneNet (net : NetInput)
| PlaneEvent (event : LogicEvent)
| PlaneWorker (cross : CrossWorker).

Inductive NetOutput :=
| UdpPacket (pair : NetPair) (buf : Buffer)
| UdpPackets (pairs : list NetPair) (buf : Buffer).

Inductive PlaneOutput :=
| OutExt (ext : ExtOut)
| OutNet (net : NetOutput)
| OutLogic (control : LogicControl)
| OutCross (worker : Z) (cross : CrossWorker)
| PlaneOnResourceEmpty
| PlaneContinue.
End messages.

Arguments ExtIn UserData Addr SC : clear implicits.
Arguments ExtOut UserData SE : clear implicits.
Arguments LogicControl UserData Addr SC SE TC : clear implicits.
Arguments LogicEvent UserData SE TW Secure : clear implicits.
Arguments CrossWorker UserData SE : clear implicits.
Arguments PlaneInput UserData Addr SC SE TW Secure : clear implicits.
Arguments PlaneOutput UserData Addr SC SE TC : clear implicits.

(** The room in front of a payload, where [build_raw] writes the header; it
    holds whatever was there. *)
Class Headroom := {
  front : Buffer → list Z;
  front_room buf : (12 ≤ length (front buf))%nat;
}.

Definition build_raw `{Headroom} (header : TransportMsgHeader) (payload : Buffer) : outcome TransportMsg :=
  build_msg header (front payload) payload.

Section plane.
Context {UserData Addr SC SE TC TW W H Encryptor Decryptor : Type} `{EqDecision UserData}.
Context `{ShadowRouterHistory H} `{ServiceWorker UserData Addr SC SE TC TW W} `{Encryption Encryptor Decryptor} `{Headroom}.
Context {msg_codec : Codec PubsubMessage} {control_codec : LimitedCodec NeighboursControl}.

(** [SecureContext] *)
Abbreviation SecureContext := (Encryptor * Decryptor)%type (only parsing).
Abbreviation Input := (PlaneInput UserData Addr SC SE TW SecureContext) (only parsing).
Abbreviation Output := (PlaneOutput UserData Addr SC SE TC) (only parsing).
Abbreviation Ctx := (FeatureWorkerContext (ShadowRouter NetPair H)) (only parsing).

(** ** Connections *)

Record DataPlaneConnection := mkPlaneConn { dpc_node : NodeId; dpc_conn : ConnId; dpc_pair : NetPair; dpc_secure : SecureContext }.

(** The first byte of a packet is never encrypted. *)
Definition encrypt_if_need (self : DataPlaneConnection) (now : Z) (buf : Buffer) : DataPlaneConnection * option Buffer :=
  match buf with
  | [] => (self, None)
  | first :: rest =>
      if negb (is_secure first) then (self, Some buf)
      else
        let '(encryptor, res) := encryptor_encrypt (dpc_secure self).1 now rest in
        (mkPlaneConn (dpc_node self) (dpc_conn self) (dpc_pair self) (encryptor, (dpc_secure self).2),
         match res with inl rest => Some (first :: rest) | inr _ => None end)
  end.

Definition decrypt_if_need (self : DataPlaneConnection) (now : Z) (buf : Buffer) : DataPlaneConnection * option Buffer :=
  match buf with
  | [] => (self, None)
  | first :: rest =>
      if negb (is_secure first) then (self, Some buf)
      else
        let '(decryptor, res) := decryptor_decrypt (dpc_secure self).2 now rest in
        (mkPlaneConn (dpc_node self) (dpc_conn self) (dpc_pair self) ((dpc_secure self).1, decryptor),
         match res with inl rest => Some (first :: rest) | inr _ => None end)
  end.

(** ** The state *)

Record DataPlane := mkPlane {
  tick_count : Z;
  worker_id : Z;
  feature_ctx : Ctx;
  service_ctx : ServiceWorkerCtx;
  dp_features : FeatureWorkerManager UserData Addr;
  dp_services : ServiceSlots W;
  dp_conns : gmap NetPair DataPlaneConnection;
  conns_reverse : gmap ConnKey NetPair;
  dp_queue : list Output;
  dp_shutdown : bool;
}.

Definition plane_new (node_id worker : Z) (services : list (Z * W)) (history : H) : DataPlane :=
  mkPlane 0 worker (mkWorkerContext node_id (shadow_new node_id history)) (mkServiceWorkerCtx node_id)
    fwm_new (swm_new services) ∅ ∅ [] false.

Definition with_features (self : DataPlane) (r : FeatureWorkerManager UserData Addr * Ctx) : DataPlane :=
  mkPlane (tick_count self) (worker_id self) r.2 (service_ctx self) r.1 (dp_services self) (dp_conns self) (conns_reverse self)
    (dp_queue self) (dp_shutdown self).
Definition with_plane_router (self : DataPlane) (router : ShadowRouter NetPair H) : DataPlane :=
  with_features self (dp_features self, with_router (feature_ctx self) router).
Definition with_services (self : DataPlane) (services : ServiceSlots W) : DataPlane :=
  mkPlane (tick_count self) (worker_id self) (feature_ctx self) (service_ctx self) (dp_features self) services (dp_conns self)
    (conns_reverse self) (dp_queue self) (dp_shutdown self).
Definition with_conns (self : DataPlane) (conns : gmap NetPair DataPlaneConnection) : DataPlane :=
  mkPlane (tick_count self) (worker_id self) (feature_ctx self) (service_ctx self) (dp_features self) (dp_services self) conns
    (conns_reverse self) (dp_queue self) (dp_shutdown self).
Definition with_queue (self : DataPlane) (queue : list Output) : DataPlane :=
  mkPlane (tick_count self) (worker_id self) (feature_ctx self) (service_ctx self) (dp_features self) (dp_services self) (dp_conns self)
    (conns_reverse self) queue (dp_shutdown self).
(** [self.queue.push_back] *)
Definition push_back (self : DataPlane) (out : Output) : DataPlane := with_queue self (dp_queue self ++ [out]).
(** The connection of [pair] after it was used; [get_mut] found it. *)
Definition put_conn (self : DataPlane) (pair : NetPair) (conn : DataPlaneConnection) : DataPlane :=
  with_conns self (<[pair := conn]> (dp_conns self)).

Definition plane_route (self : DataPlane) (rule : RouteRule) (source relay_from : option NodeId)
    : outcome (DataPlane * RouteAction NetPair) :=
  r ← derive_action (wctx_router (feature_ctx self)) rule source relay_from;
  Done (with_plane_router self r.1, r.2).

(** ** Sending *)

Definition build_send_to_from_mut (now : Z) (conn : DataPlaneConnection) (pair : NetPair) (buf : Buffer)
    : DataPlaneConnection * option NetOutput :=
  let '(conn, res) := encrypt_if_need conn now buf in (conn, UdpPacket pair <$> res).

(** [buf[0]] *)
Definition first_of (buf : Buffer) : outcome Z := expect (head buf).

Definition build_send_to (now : Z) (conn : DataPlaneConnection) (pair : NetPair) (buf : Buffer)
    : outcome (DataPlaneConnection * option NetOutput) :=
  first ← first_of buf;
  if is_secure first then Done (build_send_to_from_mut now conn pair buf)
  else Done (conn, Some (UdpPacket pair buf)).

(** One copy of a packet for many; a secure packet is encrypted for each. *)
Definition send_copy (now : Z) (buf : Buffer) (self : DataPlane) (pair : NetPair) : DataPlane :=
  match dp_conns self !! pair with
  | Some conn =>
      let '(conn, res) := encrypt_if_need conn now buf in
      let self := put_conn self pair conn in
      match res with
      | Some buf => push_back self (OutNet (UdpPacket pair buf))
      | None => self
      end
  | None => self
  end.

Definition build_send_to_multi_from_mut (self : DataPlane) (now : Z) (pairs : list NetPair) (buf : Buffer)
    : outcome (DataPlane * option NetOutput) :=
  first_byte ← first_of buf;
  if is_secure first_byte then
    match last pairs with
    | Some first =>
        let self := foldl (send_copy now buf) self (take (length pairs - 1) pairs) in
        match dp_conns self !! first with
        | Some conn =>
            let '(conn, res) := encrypt_if_need conn now buf in
            Done (put_conn self first conn, UdpPacket first <$> res)
        | None => Done (self, None)
        end
    | None => Done (self, None)
    end
  else Done (self, Some (UdpPackets pairs buf)).

Definition build_send_to_multi (self : DataPlane) (now : Z) (pairs : list NetPair) (buf : Buffer) : outcome (DataPlane * option NetOutput) :=
  first_byte ← first_of buf;
  if is_secure first_byte then build_send_to_multi_from_mut self now pairs buf
  else Done (self, Some (UdpPackets pairs buf)).

(** [if let Some(out) = .. { self.queue.push_back(out.into()) }] *)
Definition push_net (self : DataPlane) (out : option NetOutput) : DataPlane :=
  match out with Some out => push_back self (OutNet out) | None => self end.

(** A packet for the connection of [pair], which is dropped if there is none. *)
Definition send_to_pair (self : DataPlane) (now : Z) (pair : NetPair) (buf : Buffer) : DataPlane :=
  match dp_conns self !! pair with
  | Some conn => let '(conn, out) := build_send_to_from_mut now conn pair buf in push_net (put_conn self pair conn) out
  | None => self
  end.

(** ** Routing *)

Section dispatch.
Context (order : HashOrder).

Definition features_on_network_raw (self : DataPlane) (f : Features) (conn : ConnId) (pair : NetPair) (header : TransportMsgHeader)
    (buf : Buffer) : outcome DataPlane :=
  r ← fwm_on_network_raw order (feature_ctx self) (dp_features self) f conn pair header buf; Done (with_features self r).

Definition features_on_input (self : DataPlane) (f : Features)
    (input : FeatureWorkerInput UserData (FeaturesControl Addr) (FeaturesToWorker UserData)) : outcome DataPlane :=
  r ← fwm_on_input order (feature_ctx self) (dp_features self) f input; Done (with_features self r).

Definition services_on_input (self : DataPlane) (now_ms service : Z) (input : ServiceWorkerInput UserData FeaturesEvent SC TW) : DataPlane :=
  with_services self (swm_on_input (service_ctx self) (dp_services self) now_ms service input).

(** The [match action] of [incoming_route]; [conn] has received the packet. *)
Definition incoming_action (self : DataPlane) (now_ms : Z) (pair : NetPair) (conn : DataPlaneConnection) (header : TransportMsgHeader)
    (buf : Buffer) (action : RouteAction NetPair) : outcome DataPlane :=
  match action with
  | Reject => Done self
  | Local =>
      match feature_try_from (feature header) with
      | Some f => features_on_network_raw self f (dpc_conn conn) pair header buf
      | None => Done self
      end
  | Next target =>
      let '(buf, _) := decrease_ttl buf in
      Done (send_to_pair self now_ms target buf)
  | Broadcast local pairs =>
      let '(buf, alive) := decrease_ttl buf in
      if negb alive then Done self
      else
        self ← (if local then
                  match feature_try_from (feature header) with
                  | Some f => features_on_network_raw self f (dpc_conn conn) pair header buf
                  | None => Done self
                  end
                else Done self);
        match pairs with
        | [] => Done self
        | _ => r ← build_send_to_multi_from_mut self now_ms pairs buf; Done (push_net r.1 r.2)
        end
  end.

Definition incoming_route (self : DataPlane) (now_ms : Z) (pair : NetPair) (buf : Buffer) : outcome DataPlane :=
  match dp_conns self !! pair with
  | None => Done self
  | Some conn =>
      first ← first_of buf;
      let '(conn, res) := if is_secure first then decrypt_if_need conn now_ms buf else (conn, Some buf) in
      let self := put_conn self pair conn in
      match res with
      | None => Done self
      | Some buf =>
          match try_from buf with
          | inr _ => Done self
          | inl header =>
              r ← plane_route self (route header) (from_node header) (Some (dpc_node conn));
              incoming_action r.1 now_ms pair conn header buf r.2
          end
      end
  end.

Definition outgoing_route (self : DataPlane) (now_ms : Z) (f : Features) (rule : RouteRule) (meta : NetOutgoingMeta) (buf : Buffer)
    : outcome DataPlane :=
  let node_id := wctx_node_id (feature_ctx self) in
  r ← plane_route self rule (Some node_id) None;
  let '(self, action) := r in
  match action with
  | Reject => Done self
  | Local => features_on_input self f (WLocal (to_incoming meta node_id) buf)
  | Next remote =>
      msg ← build_raw (to_header meta (feature_id f) rule node_id) buf;
      Done (send_to_pair self now_ms remote (take_buf msg))
  | Broadcast local remotes =>
      let meta := mkOutgoing true (out_ttl meta) (out_meta meta) (out_secure meta) in
      let header := to_header meta (feature_id f) rule node_id in
      self ← (if local then features_on_input self f (WLocal (to_incoming meta node_id) buf) else Done self);
      msg ← build_raw header buf;
      r ← build_send_to_multi_from_mut self now_ms remotes (take_buf msg);
      Done (push_net r.1 r.2)
  end.

(** ** Events *)

Definition pin (self : DataPlane) (conn : ConnId) (node : NodeId) (pair : NetPair) (secure : SecureContext) : DataPlane :=
  mkPlane (tick_count self) (worker_id self) (feature_ctx self) (service_ctx self) (dp_features self) (dp_services self)
    (<[pair := mkPlaneConn node conn pair secure]> (dp_conns self)) (<[conn_key conn := pair]> (conns_reverse self))
    (dp_queue self) (dp_shutdown self).

Definition unpin (self : DataPlane) (conn : ConnId) : DataPlane :=
  match conns_reverse self !! conn_key conn with
  | Some addr =>
      mkPlane (tick_count self) (worker_id self) (feature_ctx self) (service_ctx self) (dp_features self) (dp_services self)
        (delete addr (dp_conns self)) (delete (conn_key conn) (conns_reverse self)) (dp_queue self) (dp_shutdown self)
  | None => self
  end.

Definition plane_on_tick (self : DataPlane) (now_ms : Z) : DataPlane :=
  mkPlane (wrap 64 (tick_count self + 1)) (worker_id self) (feature_ctx self) (service_ctx self) (dp_features self)
    (swm_on_tick (service_ctx self) (dp_services self) now_ms (tick_count self)) (dp_conns self) (conns_reverse self) (dp_queue self) (dp_shutdown self).

Definition plane_on_event (self : DataPlane) (now_ms : Z) (event : Input) : outcome DataPlane :=
  match event with
  | PlaneExt (ExtConnectTo _) => Panic
  | PlaneExt (ExtDisconnectFrom _) => Panic
  | PlaneExt (ExtFeaturesControl userdata control) =>
      features_on_input self (control_to_feature control) (WControl (ActorWorker (worker_id self) userdata) control)
  | PlaneExt (ExtServicesControl service userdata control) =>
      Done (services_on_input self now_ms service (SwControl (SvcWorker (worker_id self) userdata) control))
  | PlaneWorker (CrossFeature userdata event) => Done (push_back self (OutExt (ExtFeaturesEvent userdata event)))
  | PlaneWorker (CrossService service userdata event) => Done (push_back self (OutExt (ExtServicesEvent service userdata event)))
  | PlaneNet (UdpPacketIn addr buf) =>
      match buf with
      | [] => Done self
      | _ =>
          match control_try_from buf with
          | Some control => Done (push_back self (OutLogic (LcNetNeighbour addr control)))
          | None => incoming_route self now_ms addr buf
          end
      end
  | PlaneEvent (LeFeature is_broadcast to) => features_on_input self (to_worker_feature to) (WFromController is_broadcast to)
  | PlaneEvent (LeService service to) => Done (services_on_input self now_ms service (SwFromController to))
  | PlaneEvent (LeExtFeaturesEvent worker userdata event) =>
      if negb (worker_id self =? worker) then Panic else Done (push_back self (OutExt (ExtFeaturesEvent userdata event)))
  | PlaneEvent (LeExtServicesEvent worker service userdata event) =>
      if negb (worker_id self =? worker) then Panic else Done (push_back self (OutExt (ExtServicesEvent service userdata event)))
  | PlaneEvent (LeNetNeighbour addr control) =>
      match control_try_into control with
      | Some buf => Done (push_back self (OutNet (UdpPacket addr buf)))
      | None => Done self
      end
  | PlaneEvent (LeNetDirect f addr _ meta buf) =>
      match dp_conns self !! addr with
      | Some _ =>
          msg ← build_raw (to_header meta (feature_id f) Direct (wctx_node_id (feature_ctx self))) buf;
          Done (send_to_pair self now_ms addr (take_buf msg))
      | None => Done self
      end
  | PlaneEvent (LeNetRoute f rule meta buf) => outgoing_route self now_ms f rule meta buf
  | PlaneEvent (LePin conn node addr secure) => Done (pin self conn node addr secure)
  | PlaneEvent (LeUnPin conn) => Done (unpin self conn)
  end.

Definition plane_on_shutdown (self : DataPlane) (now_ms : Z) : DataPlane :=
  if dp_shutdown self then self
  else mkPlane (tick_count self) (worker_id self) (feature_ctx self) (service_ctx self) (fwm_on_shutdown (dp_features self))
         (swm_on_shutdown (service_ctx self) (dp_services self) now_ms) (dp_conns self) (conns_reverse self) (dp_queue self) true.

(** ** Outputs *)

(** The connection of [conn]: [expect]ed once [conns_reverse] knows it. *)
Definition send_raw (self : DataPlane) (now_ms : Z) (addr : NetPair) (conn : DataPlaneConnection) (buf : Buffer) : outcome DataPlane :=
  r ← build_send_to now_ms conn addr buf;
  out ← expect r.2;
  Done (push_back (put_conn self addr r.1) (OutNet out)).

Definition feature_output (self : DataPlane) (now_ms : Z) (f : Features)
    (out : FeatureWorkerOutput UserData (FeaturesControl Addr) FeaturesEvent FeaturesToController) : outcome DataPlane :=
  match out with
  | ForwardControlToController service control => Done (push_back self (OutLogic (LcFeaturesControl service control)))
  | ForwardNetworkToController conn header msg => Done (push_back self (OutLogic (LcNetRemote f conn header msg)))
  | ForwardLocalToController header buf => Done (push_back self (OutLogic (LcNetLocal f header buf)))
  | WOutToController control => Done (push_back self (OutLogic (LcFeature control)))
  | WOutEvent (ActorController userdata) event => Done (push_back self (OutLogic (LcExtFeaturesEvent userdata event)))
  | WOutEvent (ActorWorker worker userdata) event =>
      if worker_id self =? worker then Done (push_back self (OutExt (ExtFeaturesEvent userdata event)))
      else Done (push_back self (OutCross worker (CrossFeature userdata event)))
  | WOutEvent (ActorService service) event => Done (services_on_input self now_ms service (SwFeatureEvent event))
  | WOutSendDirect conn meta buf =>
      match conns_reverse self !! conn_key conn with
      | Some addr =>
          conn ← expect (dp_conns self !! addr);
          msg ← build_raw (to_header meta (feature_id f) Direct (wctx_node_id (feature_ctx self))) buf;
          let '(conn, res) := build_send_to_from_mut now_ms conn addr (take_buf msg) in
          out ← expect res;
          Done (push_back (put_conn self addr conn) (OutNet out))
      | None => Done self
      end
  | WOutSendRoute rule ttl buf => outgoing_route self now_ms f rule ttl buf
  | WOutRawDirect conn buf =>
      match conns_reverse self !! conn_key conn with
      | Some addr => conn ← expect (dp_conns self !! addr); send_raw self now_ms addr conn buf
      | None => Done self
      end
  | WOutRawBroadcast conns buf =>
      let addrs := omap (λ conn, conns_reverse self !! conn_key conn) conns in
      r ← build_send_to_multi self now_ms addrs buf;
      Done (push_back r.1 (from_option OutNet PlaneContinue r.2))
  | WOutRawDirect2 addr buf =>
      match dp_conns self !! addr with
      | Some conn => send_raw self now_ms addr conn buf
      | None => Done self
      end
  | WOutRawBroadcast2 pairs buf =>
      r ← build_send_to_multi self now_ms pairs buf;
      Done (push_back r.1 (from_option OutNet PlaneContinue r.2))
  | WOutOnResourceEmpty => Done self
  end.

Definition service_output (self : DataPlane) (service : Z)
    (out : ServiceWorkerOutput UserData (FeaturesControl Addr) FeaturesEvent SC SE TC) : outcome DataPlane :=
  match out with
  | SwForwardControlToController actor control => Done (push_back self (OutLogic (LcServicesControl actor service control)))
  | SwForwardFeatureEventToController event => Done (push_back self (OutLogic (LcServiceEvent service event)))
  | SwToController tc => Done (push_back self (OutLogic (LcService service tc)))
  | SwFeatureControl control => features_on_input self (control_to_feature control) (WControl (ActorService service) control)
  | SwEvent (SvcController userdata) event => Done (push_back self (OutLogic (LcExtServicesEvent service userdata event)))
  | SwEvent (SvcWorker worker userdata) event =>
      if worker_id self =? worker then Done (push_back self (OutExt (ExtServicesEvent service userdata event)))
      else Done (push_back self (OutCross worker (CrossService service userdata event)))
  | SwOnResourceEmpty => Done self
  end.

Definition pop_features (self : DataPlane) (now_ms : Z) (schedule : list (SwitcherStep Features)) : outcome DataPlane :=
  let '(m, out) := fwm_pop_output schedule (dp_features self) in
  let self := with_features self (m, feature_ctx self) in
  match out with
  | Some (f, out) => feature_output self now_ms f out
  | None => Done self
  end.

Definition pop_services (self : DataPlane) (now_ms : Z) (schedule : list (SwitcherStep Z)) : outcome DataPlane :=
  let '(m, out) := swm_pop_output schedule (dp_services self) now_ms in
  let self := with_services self m in
  match out with
  | Some (service, out) => service_output self service out
  | None => Done self
  end.

(** What the task switcher of the plane polls: a manager, with what the
    manager's own switcher does, or a manager that is reported empty. *)
Inductive PlaneTask :=
| TaskFeature (schedule : list (SwitcherStep Features))
| TaskService (schedule : list (SwitcherStep Z))
| TaskEmpty.

Definition run_task (self : DataPlane) (now : Z) (task : PlaneTask) : outcome DataPlane :=
  match task with
  | TaskFeature schedule => pop_features self now schedule
  | TaskService schedule => pop_services self now schedule
  | TaskEmpty => Done self
  end.

Fixpoint plane_pop_output (tasks : list PlaneTask) (self : DataPlane) (now : Z) : outcome (DataPlane * option Output) :=
  match dp_queue self with
  | out :: rest => Done (with_queue self rest, Some out)
  | [] =>
      match tasks with
      | [] => Done (self, None)
      | task :: tasks => self ← run_task self now task; plane_pop_output tasks self now
      end
  end.

Definition plane_is_empty (self : DataPlane) : bool :=
  dp_shutdown self && match dp_queue self with [] => true | _ => false end && fwm_is_empty (dp_features self) && slots_is_empty (dp_services self).
End dispatch.
End plane.

Arguments DataPlaneConnection Encryptor Decryptor : clear implicits.
Arguments DataPlane UserData Addr SC SE TC W H Encryptor Decryptor : clear implicits.
