(* ===== verification/DataPlaneNet.v ===== *)
(** * Packets between data planes ([data_plane.rs])

    A message handed to one worker is printed, encrypted, relayed by other
    nodes and handed to a feature of the node it is for; what the planes
    promise about connections and the time to live. *)

From S2P Require Import Prelude NodeId ConnId Route Shadow History Msg Base Control Neighbours Secure DhtMsg PubsubMsg PubsubRelay Pubsub Features Service DataPlane.

Section net.
Context {UserData Addr SC SE TC TW W H Encryptor Decryptor : Type} `{EqDecision UserData}.
Context `{ShadowRouterHistory H} `{ServiceWorker UserData Addr SC SE TC TW W} `{Headroom}.
Context {msg_codec : Codec PubsubMessage} {control_codec : LimitedCodec NeighboursControl}.
Context {paired : Encryptor → Decryptor → Prop} {lifetime : Z} `{EncryptionLaws Encryptor Decryptor paired lifetime}.
Context (order : HashOrder).

Abbreviation Plane := (DataPlane UserData Addr SC SE TC W H Encryptor Decryptor) (only parsing).
Abbreviation Conn := (DataPlaneConnection Encryptor Decryptor) (only parsing).
Implicit Types (dp : DataPlane UserData Addr SC SE TC W H Encryptor Decryptor) (c d : DataPlaneConnection Encryptor Decryptor) (h : TransportMsgHeader).

(** ** One packet on one connection *)

(** The packets [c] sends are those [d] can read. *)
Definition linked c d : Prop := paired (dpc_secure c).1 (dpc_secure d).2.

(** A connection that has only changed its cipher state. *)
Definition same_peer c d : Prop := dpc_node c = dpc_node d ∧ dpc_conn c = dpc_conn d ∧ dpc_pair c = dpc_pair d.

Lemma encrypt_same_peer c now buf : same_peer (encrypt_if_need c now buf).1 c.
Proof.
  destruct buf as [|b rest]; [done|]. cbn. destruct (negb _); [done|]. by destruct (encryptor_encrypt _ _ _).
Qed.

Lemma decrypt_same_peer c now buf : same_peer (decrypt_if_need c now buf).1 c.
Proof.
  destruct buf as [|b rest]; [done|]. cbn. destruct (negb _); [done|]. by destruct (decryptor_decrypt _ _ _).
Qed.

(** A datagram is encrypted, behind its first byte. *)
Lemma encrypt_total_wire c now b rest :
  Z.of_nat (length rest) < 2 ^ 16 → ∃ c' body, encrypt_if_need c now (b :: rest) = (c', Some (b :: body)) ∧ same_peer c' c.
Proof.
  intros Hl. pose proof (encrypt_same_peer c now (b :: rest)) as Hs. cbn in *. destruct (negb (is_secure b)).
  { by exists c, rest. }
  destruct (encrypt_total (dpc_secure c).1 now rest Hl) as (e & body & He). rewrite He in *. by eexists _, body.
Qed.

(** The peer reads it back while it is fresh. *)
Lemma decrypt_wire c d t now buf c' wire :
  linked c d → encrypt_if_need c t buf = (c', Some wire) → 0 ≤ t → t + lifetime < 2 ^ 64 → now ≤ t + lifetime →
  ∃ d', decrypt_if_need d now wire = (d', Some buf) ∧ same_peer d' d.
Proof.
  intros Hl He Hlo Hhi Hn. pose proof (decrypt_same_peer d now wire) as Hs. destruct buf as [|b rest]; [done|]. cbn in He.
  destruct (negb (is_secure b)) eqn:Hsec.
  - injection He as <- <-. exists d. cbn. by rewrite Hsec.
  - destruct (encryptor_encrypt _ t rest) as [e [body|]] eqn:Hx; [|done]. injection He as <- <-. cbn in *. rewrite Hsec in *.
    destruct (decrypt_fresh (paired := paired) _ _ t now rest _ _ Hl Hx Hlo Hhi Hn) as [d' Hd]. rewrite Hd in *. by eexists.
Qed.

(** A packet for [pair], as the plane that receives it sees it. *)
Definition receive (dp : Plane) (now : Z) (pair : NetPair) (wire : Buffer) : outcome Plane :=
  plane_on_event order dp now (PlaneNet (UdpPacketIn pair wire)).

Definition flip (pair : NetPair) : NetPair := mkNetPair (pair_remote pair) (pair_local pair).

Lemma first_byte_no_control h : header_ok h → first_byte h ≠ 255.
Proof.
  intros Hok Hb. pose proof (first_byte_fields h (ok_version h Hok)) as (Hv & _). rewrite Hb in Hv. done.
Qed.

(** A packet printed with [h] that [c] sent at [t] is taken from the connection
    of its peer, decrypted, parsed and routed. *)
Lemma receive_packet dp c d c' pair t now h old rest wire :
  header_ok h → length (header_bytes h old) = serialize_size h →
  dp_conns dp !! pair = Some d → linked c d → encrypt_if_need c t (header_bytes h old ++ rest) = (c', Some wire) →
  0 ≤ t → t + lifetime < 2 ^ 64 → now ≤ t + lifetime →
  ∃ d', same_peer d' d ∧
    receive dp now pair wire =
      (r ← plane_route (put_conn dp pair d') (route h) (from_node h) (Some (dpc_node d));
       incoming_action order r.1 now pair d' h (header_bytes h old ++ rest) r.2).
Proof.
  intros Hok Hlen Hd Hl He Hlo Hhi Hn. destruct (decrypt_wire c d t now _ _ _ Hl He Hlo Hhi Hn) as (d' & Hdec & Hs).
  assert (∃ body, wire = first_byte h :: body) as [body ->].
  { unfold header_bytes in He. cbn in He. destruct (negb _); [by simplify_eq; eexists|].
    destruct (encryptor_encrypt _ _ _) as [e [b|]]; simplify_eq. by eexists. }
  unfold receive. cbn [plane_on_event]. assert (control_try_from (first_byte h :: body) = None) as ->.
  { cbn. by rewrite (proj2 (Z.eqb_neq _ _) (first_byte_no_control h Hok)). }
  unfold incoming_route. rewrite Hd. cbn [first_of head expect mbind outcome_bind].
  destruct (is_secure (first_byte h)) eqn:Hsec.
  - rewrite Hdec, (try_from_header h old rest Hok Hlen). exists d'. split; [done|]. by destruct Hs as (-> & _).
  - unfold header_bytes in He. cbn in He, Hdec. rewrite Hsec in He, Hdec. cbn in He, Hdec. injection He as _ <-. injection Hdec as <-.
    exists d. split; [done|].
    change (first_byte h :: _) with (header_bytes h old ++ rest) at 1. by rewrite (try_from_header h old rest Hok Hlen).
Qed.

(** ** Messages to one node over any number of relays *)

Definition unicast (rule : RouteRule) : Prop := match rule with ToServices _ _ _ => False | _ => True end.

Lemma with_router_id dp : with_plane_router dp (wctx_router (feature_ctx dp)) = dp.
Proof. by destruct dp as [? ? [] ? ? ? ? ? ? ?]. Qed.

(** Only broadcasts change the router. *)
Lemma plane_route_unicast dp rule source relay :
  unicast rule → plane_route dp rule source relay = (r ← derive_action (wctx_router (feature_ctx dp)) rule source relay; Done (dp, r.2)).
Proof.
  intros Hu. unfold plane_route. destruct rule; cbn [derive_action]; try done; rewrite ?bind_Done; cbn [fst snd]; rewrite ?with_router_id; try done.
  - destruct (rt_path_to_node _ _); [|done]. rewrite !bind_Done. cbn [fst snd]. by rewrite with_router_id.
  - destruct (rt_path_to_key _ _); [|done]. rewrite !bind_Done. cbn [fst snd]. by rewrite with_router_id.
Qed.

Lemma send_to_pair_queues dp now out o b rest :
  dp_conns dp !! out = Some o → Z.of_nat (length rest) < 2 ^ 16 →
  ∃ o' wire, encrypt_if_need o now (b :: rest) = (o', Some wire) ∧
    dp_queue (send_to_pair dp now out (b :: rest)) = dp_queue dp ++ [OutNet (UdpPacket out wire)].
Proof.
  intros Ho Hl. destruct (encrypt_total_wire o now b rest Hl) as (o' & body & He & _). exists o', (b :: body). split; [done|].
  unfold send_to_pair, build_send_to_from_mut. rewrite Ho, He. done.
Qed.

(** The packet [build_raw] makes. *)
Lemma build_raw_packet h payload :
  ∃ old, build_raw h payload = Done (mkMsg (header_bytes h old ++ payload) h (serialize_size h)) ∧
    length (header_bytes h old) = serialize_size h ∧ (serialize_size h ≤ 12)%nat.
Proof.
  assert (serialize_size h ≤ 12)%nat as H12 by (unfold serialize_size; destruct (has_from h), (is_direct (route h)); lia).
  set (old := take (serialize_size h) (front payload)). pose proof (front_room payload) as Hroom.
  assert (length old = serialize_size h) as Hold by (unfold old; rewrite length_take; lia).
  destruct (to_bytes_spec h old) as [Hb Hlen]; [lia|]. exists old. split_and!; [|done..].
  unfold build_raw, build_msg. fold old. rewrite Hb. by rewrite drop_ge, app_nil_r by lia.
Qed.

(** It is encrypted if it is not longer than a datagram. *)
Lemma encrypt_packet c now h old payload :
  length (header_bytes h old) = serialize_size h → (serialize_size h ≤ 12)%nat → Z.of_nat (length payload) + 12 ≤ 2 ^ 16 →
  ∃ c' wire, encrypt_if_need c now (header_bytes h old ++ payload) = (c', Some wire).
Proof.
  intros Hlen H12 Hsz. destruct (encrypt_total_wire c now (first_byte h) (drop 1 (header_bytes h old ++ payload))) as (c' & body & He & _).
  - rewrite length_drop. rewrite length_app in *. unfold header_bytes in *. cbn in *. lia.
  - by exists c', (first_byte h :: body).
Qed.

(** The time to live after a hop; it stops at zero. *)
Definition hop_ttl h : TransportMsgHeader := set_ttl h (Z.max 0 (ttl h - 1)).

Lemma decrease_ttl_hop h old rest :
  0 ≤ ttl h → (decrease_ttl (header_bytes h old ++ rest)).1 = header_bytes (hop_ttl h) old ++ rest.
Proof.
  intros Ht. rewrite decrease_ttl_header by done. unfold hop_ttl. destruct (Z.eqb_spec (ttl h) 0) as [Hz|Hz]; cbn [fst].
  - destruct h. cbn in Hz. by subst.
  - by rewrite Z.max_r by lia.
Qed.

Lemma hop_ttl_ok h : header_ok h → header_ok (hop_ttl h).
Proof. intros [Hv Hr (Ht & Hb) Hf]. split; cbn; try done. split; [|done]. unfold u8 in *. lia. Qed.

(** A relay sends the packet on, with the time to live lowered. *)
Lemma relay_packet dp c d o c' pair out t now h old rest wire router :
  header_ok h → length (header_bytes h old) = serialize_size h → unicast (route h) → Z.of_nat (length (header_bytes h old ++ rest)) ≤ 2 ^ 16 →
  dp_conns dp !! pair = Some d → linked c d → encrypt_if_need c t (header_bytes h old ++ rest) = (c', Some wire) →
  0 ≤ t → t + lifetime < 2 ^ 64 → now ≤ t + lifetime →
  derive_action (wctx_router (feature_ctx dp)) (route h) (from_node h) (Some (dpc_node d)) = Done (router, Next out) →
  out ≠ pair → dp_conns dp !! out = Some o →
  ∃ dp' o' wire', receive dp now pair wire = Done dp' ∧ dp_queue dp' = dp_queue dp ++ [OutNet (UdpPacket out wire')] ∧
    encrypt_if_need o now (header_bytes (hop_ttl h) old ++ rest) = (o', Some wire').
Proof.
  intros Hok Hlen Hu Hsz Hd Hl He Hlo Hhi Hn Hr Hne Ho.
  destruct (receive_packet dp c d c' pair t now h old rest wire Hok Hlen Hd Hl He Hlo Hhi Hn) as (d' & Hs & ->).
  rewrite plane_route_unicast by done. cbn [put_conn with_conns feature_ctx]. rewrite Hr, !bind_Done. cbn [incoming_action fst snd].
  destruct Hok as [_ _ (Ht & _) _]. unfold u8 in Ht. pose proof (decrease_ttl_hop h old rest (proj1 Ht)) as Hd1.
  destruct (decrease_ttl _) as [buf alive]. cbn in Hd1. subst buf.
  set (tl := drop 1 (header_bytes (hop_ttl h) old ++ rest)).
  destruct (send_to_pair_queues (put_conn dp pair d') now out o (first_byte h) tl) as (o' & wire' & He' & Hq).
  - cbn. by rewrite lookup_insert_ne.
  - unfold tl. rewrite length_drop. rewrite length_app in *. unfold header_bytes in *. cbn in *. lia.
  - by eexists _, o', wire'.
Qed.

(** A packet sent on [pair] crosses the planes: each receives it on its side of
    the connection, and the packet it queues goes to the next. *)
Fixpoint travel (hops : list (Z * Plane)) (pair : NetPair) (wire : Buffer) : outcome (option (NetPair * Buffer)) :=
  match hops with
  | [] => Done (Some (pair, wire))
  | (now, dp) :: hops =>
      dp' ← receive dp now (flip pair) wire;
      match drop (length (dp_queue dp)) (dp_queue dp') with
      | [OutNet (UdpPacket next wire)] => travel hops next wire
      | _ => Done None
      end
  end.

(** Connections and routes along the way of a message that was sent at [t] by
    connection [c] on [pair]: every packet arrives while it is fresh. *)
Inductive path_ready (rule : RouteRule) (from : option NodeId) (now : Z) (dest : Plane) : Z → Conn → NetPair → list (Z * Plane) → Prop :=
| path_dest t c pair d router :
    0 ≤ t → t + lifetime < 2 ^ 64 → now ≤ t + lifetime → dp_conns dest !! flip pair = Some d → linked c d →
    derive_action (wctx_router (feature_ctx dest)) rule from (Some (dpc_node d)) = Done (router, Local) →
    path_ready rule from now dest t c pair []
| path_relay t c pair t' dp hops d o out router :
    0 ≤ t → t + lifetime < 2 ^ 64 → t' ≤ t + lifetime → dp_conns dp !! flip pair = Some d → linked c d →
    derive_action (wctx_router (feature_ctx dp)) rule from (Some (dpc_node d)) = Done (router, Next out) →
    out ≠ flip pair → dp_conns dp !! out = Some o → path_ready rule from now dest t' o out hops →
    path_ready rule from now dest t c pair ((t', dp) :: hops).

(** The time to live after [n] hops. *)
Definition ttl_after h (n : nat) : TransportMsgHeader := set_ttl h (Z.max 0 (ttl h - Z.of_nat n)).

Lemma path_delivers rule from old rest now dest t c pair hops :
  path_ready rule from now dest t c pair hops → unicast rule → ∀ h c' wire,
  route h = rule → from_node h = from → header_ok h → length (header_bytes h old) = serialize_size h →
  Z.of_nat (length (header_bytes h old ++ rest)) ≤ 2 ^ 16 → encrypt_if_need c t (header_bytes h old ++ rest) = (c', Some wire) →
  ∃ pair' wire' d d', travel hops pair wire = Done (Some (pair', wire')) ∧ dp_conns dest !! flip pair' = Some d ∧ same_peer d' d ∧
    receive dest now (flip pair') wire' =
      incoming_action order (put_conn dest (flip pair') d') now (flip pair') d' (ttl_after h (length hops))
        (header_bytes (ttl_after h (length hops)) old ++ rest) Local.
Proof.
  intros Hp Hu. induction Hp as [t c pair d router Hlo Hhi Hn Hd Hl Hr|t c pair t' dp hops d o out router Hlo Hhi Hn Hd Hl Hr Hne Ho Hp IH];
    intros h c' wire <- <- Hok Hlen Hsz He.
  - exists pair, wire, d. destruct (receive_packet dest c d c' (flip pair) t now h old rest wire Hok Hlen Hd Hl He Hlo Hhi Hn) as (d' & Hs & Hrc).
    exists d'. split_and!; [done..|]. rewrite Hrc, plane_route_unicast by done. cbn [put_conn with_conns feature_ctx]. rewrite Hr, !bind_Done. cbn [fst snd length].
    assert (ttl_after h 0 = h) as ->; [|done]. destruct Hok as [_ _ ([Ht _] & _) _]. unfold ttl_after. cbn. rewrite Z.sub_0_r, Z.max_r by done. by destruct h.
  - destruct (relay_packet dp c d o c' (flip pair) out t t' h old rest wire router) as (dp' & o' & wire' & Hrc & Hq & He'); try done.
    cbn [travel]. rewrite Hrc, bind_Done, Hq, drop_app_length.
    assert (ttl_after h (length ((t', dp) :: hops)) = ttl_after (hop_ttl h) (length hops)) as ->.
    { destruct Hok as [_ _ ([Ht _] & _) _]. unfold ttl_after, hop_ttl, set_ttl. cbn [ttl version encrypt route feature meta from_node length]. f_equal. lia. }
    apply (IH (hop_ttl h) o' wire'); try done. by apply hop_ttl_ok.
Qed.

(** What a packet for a feature other than pubsub becomes. *)
Lemma incoming_local dp now pair d h old rest f :
  feature_try_from (feature h) = Some f → f ≠ FPubSub → length (header_bytes h old) = serialize_size h →
  incoming_action order dp now pair d h (header_bytes h old ++ rest) Local =
    (r ← feed order (feature_ctx dp) (dp_features dp) (input_for f (λ _ _, WNetwork (dpc_conn d) (incoming_of_header h) rest));
     Done (with_features dp r)).
Proof.
  intros Hf Hne Hlen. cbn [incoming_action]. rewrite Hf. unfold features_on_network_raw, fwm_on_network_raw.
  rewrite bool_decide_false by (rewrite length_app; lia). rewrite <- Hlen, drop_app_length. by destruct f.
Qed.

(** C8. A message to one node (or to the owner of a key, or to a service), of
    any feature but publish/subscribe, arrives over as many relays as its time
    to live allows: the plane it is handed to queues one packet for the next
    hop, every relay decrypts it, lowers the time to live by one and queues one
    packet for its next hop, and the last plane hands the feature the payload
    and the metadata of the sender, with the time to live lowered by the number
    of relays. Packets marked secure are encrypted anew for every hop. *)
Theorem message_crosses_relays (src dest : Plane) (hops : list (Z * Plane)) (t now : Z) (f : Features) (rule : RouteRule)
    (meta : NetOutgoingMeta) (payload : Buffer) (pair : NetPair) (c : Conn) router :
  let node := wctx_node_id (feature_ctx src) in
  let source := if out_source meta then Some node else None in
  header_ok (to_header meta (feature_id f) rule node) → unicast rule → f ≠ FPubSub → Z.of_nat (length payload) + 12 ≤ 2 ^ 16 →
  Z.of_nat (length hops) ≤ out_ttl meta →
  derive_action (wctx_router (feature_ctx src)) rule (Some node) None = Done (router, Next pair) → dp_conns src !! pair = Some c →
  path_ready rule source now dest t c pair hops →
  ∃ src' wire pair' wire' d d',
    outgoing_route order src t f rule meta payload = Done src' ∧ dp_queue src' = dp_queue src ++ [OutNet (UdpPacket pair wire)] ∧
    travel hops pair wire = Done (Some (pair', wire')) ∧ dp_conns dest !! flip pair' = Some d ∧
    receive dest now (flip pair') wire' =
      (r ← feed order (feature_ctx dest) (dp_features dest)
             (input_for f (λ _ _, WNetwork (dpc_conn d)
                (mkIncoming source (out_ttl meta - Z.of_nat (length hops)) (out_meta meta) (out_secure meta)) payload));
       Done (with_features (put_conn dest (flip pair') d') r)).
Proof.
  intros node source Hok Hu Hf Hsz Httl Hr Hc Hp. set (h := to_header meta (feature_id f) rule node) in *.
  destruct (build_raw_packet h payload) as (old & Hraw & Hlen & H12).
  assert (Z.of_nat (length (header_bytes h old ++ payload)) ≤ 2 ^ 16) as Hl by (rewrite length_app; lia).
  destruct (encrypt_packet c t h old payload Hlen H12 Hsz) as (c' & wire & He).
  destruct (path_delivers rule source old payload now dest t c pair hops Hp Hu h c' wire) as (pair' & wire' & d & d' & Ht & Hd & Hs & Hrc); try done.
  exists (send_to_pair src t pair (header_bytes h old ++ payload)), wire, pair', wire', d, d'. split_and!; try done.
  - unfold outgoing_route. rewrite plane_route_unicast by done. fold node. rewrite Hr, !bind_Done. fold h. by rewrite Hraw.
  - unfold send_to_pair, build_send_to_from_mut. by rewrite Hc, He.
  - rewrite Hrc, (incoming_local _ _ _ _ _ _ _ f) by (done || apply feature_roundtrip). destruct Hs as (_ & -> & _).
    by rewrite <- (Z.max_r 0 (out_ttl meta - _)) by lia.
Qed.

(** ** The time to live *)

(** A broadcast that arrives with no time to live left is dropped: nothing
    is handed to a feature and nothing is queued. A message to one node is
    not: the relay logs that it drops the packet and sends it on unchanged,
    so a routing loop keeps it forever. *)
Theorem ttl_stops_broadcasts_only (dp : Plane) (c d c' : Conn) (pair : NetPair) (t now : Z) (h : TransportMsgHeader)
    (old rest wire : Buffer) router action :
  header_ok h → length (header_bytes h old) = serialize_size h → Z.of_nat (length (header_bytes h old ++ rest)) ≤ 2 ^ 16 → ttl h = 0 →
  dp_conns dp !! pair = Some d → linked c d → encrypt_if_need c t (header_bytes h old ++ rest) = (c', Some wire) →
  0 ≤ t → t + lifetime < 2 ^ 64 → now ≤ t + lifetime →
  derive_action (wctx_router (feature_ctx dp)) (route h) (from_node h) (Some (dpc_node d)) = Done (router, action) →
  match action with
  | Broadcast _ _ => ∃ d', receive dp now pair wire = Done (with_plane_router (put_conn dp pair d') router)
  | Next out => ∀ o, unicast (route h) → out ≠ pair → dp_conns dp !! out = Some o →
      ∃ dp' o' wire', receive dp now pair wire = Done dp' ∧ dp_queue dp' = dp_queue dp ++ [OutNet (UdpPacket out wire')] ∧
        encrypt_if_need o now (header_bytes h old ++ rest) = (o', Some wire')
  | _ => True
  end.
Proof.
  intros Hok Hlen Hsz Hz Hd Hl He Hlo Hhi Hn Hr. destruct action as [| |out|local pairs]; [done..| |].
  - intros o Hu Hne Ho. assert (hop_ttl h = h) as Hh by (unfold hop_ttl; rewrite Hz; destruct h; cbn in Hz; by subst).
    destruct (relay_packet dp c d o c' pair out t now h old rest wire router) as (dp' & o' & wire' & Hrc & Hq & He'); try done.
    rewrite Hh in He'. by exists dp', o', wire'.
  - destruct (receive_packet dp c d c' pair t now h old rest wire Hok Hlen Hd Hl He Hlo Hhi Hn) as (d' & Hs & ->).
    exists d'. unfold plane_route. cbn [put_conn with_conns feature_ctx]. rewrite Hr, !bind_Done. cbn [fst snd incoming_action].
    rewrite decrease_ttl_header by lia. by rewrite Hz.
Qed.

(** ** Pinned connections *)

(** Which connection each pair belongs to. *)
Definition pinned dp : gmap NetPair ConnKey := (λ d, conn_key (dpc_conn d)) <$> dp_conns dp.

Definition pin_view dp : gmap NetPair ConnKey * gmap ConnKey NetPair := (pinned dp, conns_reverse dp).

(** What a handler leaves of it, if it returns. *)
Definition keeps_pins dp (o : outcome Plane) : Prop := ∀ dp', o = Done dp' → pin_view dp' = pin_view dp.

Lemma keeps_done dp dp' : pin_view dp' = pin_view dp → keeps_pins dp (Done dp').
Proof. by intros Hv dp'' [= <-]. Qed.

Lemma keeps_bind {A} dp (o : outcome A) (k : A → outcome Plane) : (∀ a, o = Done a → keeps_pins dp (k a)) → keeps_pins dp (o ≫= k).
Proof. intros Hk dp'. destruct o as [a|]; [|done]. cbn. by apply Hk. Qed.

Lemma keeps_trans dp dp1 o : pin_view dp1 = pin_view dp → keeps_pins dp1 o → keeps_pins dp o.
Proof. intros Hv Ho dp' He. rewrite <- Hv. by apply Ho. Qed.

Lemma put_conn_view dp pair d d' : dp_conns dp !! pair = Some d → same_peer d' d → pin_view (put_conn dp pair d') = pin_view dp.
Proof.
  intros Hd (_ & Hc & _). unfold pin_view, pinned. f_equal. apply map_eq. intros p. cbn. rewrite !lookup_fmap.
  destruct (decide (p = pair)) as [->|]; [|by rewrite lookup_insert_ne]. rewrite lookup_insert_eq, Hd. cbn. by rewrite Hc.
Qed.

Lemma push_net_view dp out : pin_view (push_net dp out) = pin_view dp.
Proof. by destruct out. Qed.

Lemma send_to_pair_view dp now pair buf : pin_view (send_to_pair dp now pair buf) = pin_view dp.
Proof.
  unfold send_to_pair, build_send_to_from_mut. destruct (dp_conns dp !! pair) as [d|] eqn:Hd; [|done].
  pose proof (encrypt_same_peer d now buf). destruct (encrypt_if_need d now buf) as [d' r]. rewrite push_net_view. by eapply put_conn_view.
Qed.

Lemma send_copy_view now buf dp pair : pin_view (send_copy now buf dp pair) = pin_view dp.
Proof.
  unfold send_copy. destruct (dp_conns dp !! pair) as [d|] eqn:Hd; [|done].
  pose proof (encrypt_same_peer d now buf). destruct (encrypt_if_need d now buf) as [d' [r|]]; exact (put_conn_view dp pair d d' Hd ltac:(done)).
Qed.

Lemma send_copies_view now buf pairs dp : pin_view (foldl (send_copy now buf) dp pairs) = pin_view dp.
Proof. revert dp. induction pairs as [|p l IH]; intros dp; [done|]. cbn. by rewrite IH, send_copy_view. Qed.

Lemma multi_view dp now pairs buf r : build_send_to_multi_from_mut dp now pairs buf = Done r → pin_view r.1 = pin_view dp.
Proof.
  unfold build_send_to_multi_from_mut. destruct (first_of buf) as [b|]; [|done]. rewrite bind_Done.
  destruct (is_secure b); [|by intros [= <-]]. destruct (last pairs) as [p|]; [|by intros [= <-]].
  set (dp1 := foldl _ dp _). assert (pin_view dp1 = pin_view dp) as Hv by apply send_copies_view.
  destruct (dp_conns dp1 !! p) as [d|] eqn:Hd; [|by intros [= <-]].
  pose proof (encrypt_same_peer d now buf). destruct (encrypt_if_need d now buf) as [d' o]. intros [= <-]. rewrite <- Hv. by eapply put_conn_view.
Qed.

Lemma send_multi_keeps dp now pairs buf : keeps_pins dp (r ← build_send_to_multi_from_mut dp now pairs buf; Done (push_net r.1 r.2)).
Proof. apply keeps_bind. intros r Hr. apply keeps_done. rewrite push_net_view. by eapply multi_view. Qed.

Lemma send_raw_keeps dp now pair d buf : dp_conns dp !! pair = Some d → keeps_pins dp (send_raw dp now pair d buf).
Proof.
  intros Hd. apply keeps_bind. intros [d' o] Hb. apply keeps_bind. intros out _. apply keeps_done.
  change (pin_view (put_conn dp pair d') = pin_view dp). eapply put_conn_view; [done|]. unfold build_send_to in Hb.
  destruct (first_of buf) as [b|]; [|done]. rewrite bind_Done in Hb. destruct (is_secure b); [|by simplify_eq].
  unfold build_send_to_from_mut in Hb. pose proof (encrypt_same_peer d now buf). destruct (encrypt_if_need d now buf). by simplify_eq.
Qed.

Lemma plane_route_keeps dp rule source relay (k : Plane * RouteAction NetPair → outcome Plane) :
  (∀ dp1 action, pin_view dp1 = pin_view dp → keeps_pins dp1 (k (dp1, action))) → keeps_pins dp (plane_route dp rule source relay ≫= k).
Proof.
  intros Hk. apply keeps_bind. intros [dp1 action]. unfold plane_route. destruct (derive_action _ _ _ _) as [[router a]|]; [|done].
  rewrite bind_Done. intros [= <- <-]. eapply keeps_trans, Hk; done.
Qed.

Lemma features_raw_keeps dp f conn pair h buf : keeps_pins dp (features_on_network_raw order dp f conn pair h buf).
Proof. apply keeps_bind. intros r _. by apply keeps_done. Qed.

Lemma features_input_keeps dp f input : keeps_pins dp (features_on_input order dp f input).
Proof. apply keeps_bind. intros r _. by apply keeps_done. Qed.

Lemma incoming_action_keeps dp now pair d h buf action : keeps_pins dp (incoming_action order dp now pair d h buf action).
Proof.
  destruct action as [| |out|local pairs]; cbn [incoming_action].
  - by apply keeps_done.
  - destruct (feature_try_from _); [apply features_raw_keeps|by apply keeps_done].
  - destruct (decrease_ttl buf). apply keeps_done, send_to_pair_view.
  - destruct (decrease_ttl buf) as [b []]; cbn [negb]; [|by apply keeps_done]. apply keeps_bind. intros dp1 Hdp1.
    assert (pin_view dp1 = pin_view dp) as Hv.
    { destruct local; [|by simplify_eq]. destruct (feature_try_from _); [|by simplify_eq]. by eapply features_raw_keeps. }
    destruct pairs; [by apply keeps_done|]. eapply keeps_trans, send_multi_keeps. done.
Qed.

Lemma incoming_route_keeps dp now pair buf : keeps_pins dp (incoming_route order dp now pair buf).
Proof.
  unfold incoming_route. destruct (dp_conns dp !! pair) as [d|] eqn:Hd; [|by apply keeps_done]. apply keeps_bind. intros b _.
  assert (same_peer (if is_secure b then decrypt_if_need d now buf else (d, Some buf)).1 d) as Hs.
  { destruct (is_secure b); [apply decrypt_same_peer|done]. }
  destruct (if is_secure b then _ else _) as [d' res]. pose proof (put_conn_view dp pair d d' Hd Hs) as Hv.
  destruct res as [buf'|]; [|by apply keeps_done]. destruct (try_from buf') as [h|]; [|by apply keeps_done].
  eapply keeps_trans; [exact Hv|]. apply plane_route_keeps. intros dp1 action _. apply incoming_action_keeps.
Qed.

Lemma outgoing_route_keeps dp now f rule meta buf : keeps_pins dp (outgoing_route order dp now f rule meta buf).
Proof.
  unfold outgoing_route. apply plane_route_keeps. intros dp1 [| |out|local pairs] _.
  - by apply keeps_done.
  - apply features_input_keeps.
  - apply keeps_bind. intros m _. apply keeps_done, send_to_pair_view.
  - apply keeps_bind. intros dp2 Hdp2. assert (pin_view dp2 = pin_view dp1) as Hv.
    { destruct local; [|by simplify_eq]. by eapply features_input_keeps. }
    apply keeps_bind. intros m _. eapply keeps_trans, send_multi_keeps. done.
Qed.

Lemma raw_broadcast_keeps dp now pairs buf :
  keeps_pins dp (r ← build_send_to_multi dp now pairs buf; Done (push_back r.1 (from_option OutNet PlaneContinue r.2))).
Proof.
  apply keeps_bind. intros r Hr. apply keeps_done. change (pin_view r.1 = pin_view dp). unfold build_send_to_multi in Hr.
  destruct (first_of buf) as [b|] eqn:Hb; [|done]. rewrite bind_Done in Hr. destruct (is_secure b); [by eapply multi_view|by simplify_eq].
Qed.

Lemma feature_output_keeps dp now f out : keeps_pins dp (feature_output order dp now f out).
Proof.
  destruct out as [a ctl|conn m buf|m buf|msg|[u|w u|s] e|conn m buf|rule m buf|conn buf|conns buf|p buf|ps buf|]; cbn [feature_output];
    try (by apply keeps_done); try apply outgoing_route_keeps; try apply raw_broadcast_keeps.
  - destruct (_ =? _); by apply keeps_done.
  - destruct (conns_reverse dp !! _) as [p|]; [|by apply keeps_done]. apply keeps_bind. intros d Hd%expect_Done. apply keeps_bind. intros msg _.
    unfold build_send_to_from_mut. pose proof (encrypt_same_peer d now (take_buf msg)). destruct (encrypt_if_need d now _) as [d' r].
    apply keeps_bind. intros out _. apply keeps_done. exact (put_conn_view dp p d d' Hd ltac:(done)).
  - destruct (conns_reverse dp !! _) as [p|]; [|by apply keeps_done]. apply keeps_bind. intros d Hd%expect_Done. by apply send_raw_keeps.
  - destruct (dp_conns dp !! p) as [d|] eqn:Hd; [|by apply keeps_done]. by apply send_raw_keeps.
Qed.

Lemma service_output_keeps dp service (out : ServiceWorkerOutput UserData (FeaturesControl Addr) FeaturesEvent SC SE TC) :
  keeps_pins dp (service_output order dp service out).
Proof.
  destruct out as [| | |ctl|[u|w u] e|]; cbn [service_output]; try (by apply keeps_done); [apply features_input_keeps|].
  destruct (_ =? _); by apply keeps_done.
Qed.

(** The controller pins a connection while neither its pair nor itself is
    pinned. *)
Definition pin_fresh dp (event : PlaneInput UserData Addr SC SE TW (Encryptor * Decryptor)) : Prop :=
  match event with
  | PlaneEvent (LePin conn _ p _) => dp_conns dp !! p = None ∧ conns_reverse dp !! conn_key conn = None
  | _ => True
  end.

Definition pins_ok (v : gmap NetPair ConnKey * gmap ConnKey NetPair) : Prop := ∀ k p, v.2 !! k = Some p ↔ v.1 !! p = Some k.

Lemma pin_ok dp conn node pair secure :
  pins_ok (pin_view dp) → dp_conns dp !! pair = None → conns_reverse dp !! conn_key conn = None → pins_ok (pin_view (pin dp conn node pair secure)).
Proof.
  intros Hok Hp Hc k p. unfold pin_view, pinned, pin. cbn [fst snd conns_reverse dp_conns]. rewrite fmap_insert. cbn [dpc_conn]. specialize (Hok k p). cbn [fst snd pin_view] in Hok. unfold pinned in Hok.
  assert (∀ q, ((λ d, conn_key (dpc_conn d)) <$> dp_conns dp) !! pair = Some q → False) as Hnp by (intros q; rewrite lookup_fmap, Hp; done).
  destruct (decide (k = conn_key conn)) as [->|Hk], (decide (p = pair)) as [->|Hpp];
    rewrite ?lookup_insert_eq, ?lookup_insert_ne by done; try done.
  - rewrite <- Hok, Hc. split; [by intros [= ->]|done].
  - rewrite Hok. split; [by intros ?%Hnp|]. intros Hx. by destruct Hk; injection Hx.
Qed.

Lemma unpin_ok dp conn : pins_ok (pin_view dp) → pins_ok (pin_view (unpin dp conn)).
Proof.
  intros Hok k p. unfold unpin. destruct (conns_reverse dp !! conn_key conn) as [a|] eqn:Ha; [|apply Hok].
  unfold pin_view, pinned. cbn [fst snd conns_reverse dp_conns]. rewrite fmap_delete. pose proof (proj1 (Hok _ _) Ha) as Hpa. specialize (Hok k p) as Hkp. cbn [fst snd pin_view] in Hpa, Hkp. unfold pinned in *.
  rewrite !lookup_delete_Some. destruct (decide (k = conn_key conn)) as [->|]; [split; [by intros []|]|].
  - intros [Hne Hx]. destruct Hne. apply Hkp in Hx. rewrite Ha in Hx. by injection Hx.
  - rewrite Hkp. split; intros [Hne Hx]; (split; [|done]).
    + intros ->. destruct Hne. rewrite Hpa in Hx. by injection Hx.
    + congruence.
Qed.

(** Only [Pin] and [UnPin] change what is pinned. *)
Lemma plane_on_event_view dp dp' now event :
  plane_on_event order dp now event = Done dp' →
  pin_view dp' = match event with
                 | PlaneEvent (LePin conn node p secure) => pin_view (pin dp conn node p secure)
                 | PlaneEvent (LeUnPin conn) => pin_view (unpin dp conn)
                 | _ => pin_view dp
                 end.
Proof.
  intros He. destruct event as [[]|[p buf]|[]|[]]; cbn [plane_on_event] in He; try done;
    try (by injection He as <-); try (by eapply features_input_keeps); try (by eapply outgoing_route_keeps);
    try (destruct (negb _); [done|]; by injection He as <-).
  - destruct buf as [|b l]; [by injection He as <-|]. destruct (control_try_from _); [by injection He as <-|].
    by eapply incoming_route_keeps.
  - destruct (control_try_into _); by injection He as <-.
  - destruct (dp_conns dp !! pair); [|by injection He as <-]. destruct (build_raw _ _); [|done]. rewrite bind_Done in He. injection He as <-.
    by rewrite send_to_pair_view.
Qed.

Lemma plane_on_event_ok dp dp' now event :
  pins_ok (pin_view dp) → pin_fresh dp event → plane_on_event order dp now event = Done dp' → pins_ok (pin_view dp').
Proof.
  intros Hok Hf ->%plane_on_event_view. destruct event as [| |[]|]; try done; [destruct Hf; by apply pin_ok|by apply unpin_ok].
Qed.

Lemma run_task_keeps dp now task : keeps_pins dp (run_task order dp now task).
Proof.
  destruct task as [s|s|]; cbn [run_task]; [| |by apply keeps_done].
  - unfold pop_features. destruct (fwm_pop_output s _) as [m [[f out]|]]; [|by apply keeps_done].
    eapply keeps_trans, feature_output_keeps. done.
  - unfold pop_services. destruct (swm_pop_output s _ _) as [m [[f out]|]]; [|by apply keeps_done].
    eapply keeps_trans, service_output_keeps. done.
Qed.

Lemma pop_output_view tasks dp now dp' out : plane_pop_output order tasks dp now = Done (dp', out) → pin_view dp' = pin_view dp.
Proof.
  revert dp. induction tasks as [|task tasks IH]; intros dp; cbn [plane_pop_output]; (destruct (dp_queue dp); [|by intros [= <- <-]]).
  - by intros [= <- <-].
  - destruct (run_task order dp now task) as [dp1|] eqn:Ht; [|done]. rewrite bind_Done. intros Hp.
    rewrite (IH dp1 Hp). by apply (run_task_keeps dp now task).
Qed.

Lemma pins_ok_new node worker svcs history : pins_ok (pin_view (plane_new node worker svcs history : Plane)).
Proof. intros k p. cbn. unfold pinned. cbn. by rewrite fmap_empty, !lookup_empty. Qed.

(** While the two maps are inverse to each other, what a feature sends to a
    connection goes out to its pair. *)
Lemma pins_ok_inverse dp : pins_ok (pin_view dp) → ∀ k p, conns_reverse dp !! k = Some p ↔ ∃ d, dp_conns dp !! p = Some d ∧ conn_key (dpc_conn d) = k.
Proof. intros Hok k p. rewrite (Hok k p). cbn. unfold pinned. rewrite lookup_fmap, fmap_Some. naive_solver. Qed.

Lemma pins_ok_direct_send dp now f conn meta buf addr :
  pins_ok (pin_view dp) → Z.of_nat (length buf) + 12 ≤ 2 ^ 16 → conns_reverse dp !! conn_key conn = Some addr →
  ∃ d dp' wire, dp_conns dp !! addr = Some d ∧ conn_key (dpc_conn d) = conn_key conn ∧
    feature_output order dp now f (WOutSendDirect conn meta buf) = Done dp' ∧ dp_queue dp' = dp_queue dp ++ [OutNet (UdpPacket addr wire)].
Proof.
  intros Hok Hl Hc. cbn [feature_output]. rewrite Hc. destruct (proj1 (pins_ok_inverse dp Hok _ _) Hc) as (d & Hd & Hk).
  set (h := to_header _ _ _ _). destruct (build_raw_packet h buf) as (old & Hraw & Hlen & H12).
  destruct (encrypt_packet d now h old buf Hlen H12 Hl) as (d' & wire & He).
  exists d. unfold build_send_to_from_mut. rewrite Hd. cbn [expect]. rewrite bind_Done, Hraw, bind_Done. unfold take_buf. cbn [buffer]. rewrite He. by eexists _, wire.
Qed.
End net.

(** *** Three nodes in a row, to evaluate with *)

#[local] Existing Instance demo_pubsub_codec.
#[local] Existing Instance demo_x25519.
#[local] Existing Instance demo_x25519_laws.
#[local] Existing Instance demo_aes.
#[local] Existing Instance demo_aes_laws.

#[local] Instance demo_headroom : Headroom := { front _ := replicate 12 0; front_room _ := Nat.le_refl 12 }.

#[local] Instance demo_no_control : LimitedCodec NeighboursControl := { try_serialize _ := None; try_deserialize _ := None }.

(** A service that does nothing. *)
#[local] Instance demo_service : ServiceWorker Z unit unit unit unit unit unit := {
  svw_is_service_empty _ := true;
  svw_on_tick _ w _ _ := w;
  svw_on_input _ w _ _ := w;
  svw_on_shutdown _ w _ := w;
  svw_pop_output2 w _ := (w, None);
}.

Abbreviation DemoPlane := (DataPlane Z unit unit unit unit unit DataWorkerHistory EncryptorXDA DecryptorXDA) (only parsing).
Abbreviation demo_input := (PlaneInput Z unit unit unit unit (EncryptorXDA * DecryptorXDA)) (only parsing).

(** The connection between two nodes, seen from the first. *)
Definition demo_link (a b : Z) : NetPair := mkNetPair (SocketV4 a b) (SocketV4 b a).
Definition demo_key (a b : Z) : Buffer := [a + b].
Definition demo_pin (a b : Z) : demo_input :=
  PlaneEvent (LePin (from_raw 0 (if a <? b then Outgoing else Incoming) (a + b)) b (demo_link a b)
    (encryptor_new (λ _, 0) (demo_key a b), decryptor_new (demo_key a b))).
(** The route of [a] to [dest] over [b]. *)
Definition demo_route (a dest b : Z) : demo_input := PlaneEvent (LeFeature true (TwRouterSync (SetTable 0 dest (demo_link a b)))).

Definition demo_plane (node : Z) (events : list demo_input) : DemoPlane :=
  match foldM (λ dp e, plane_on_event canonical_order dp 0 e) (plane_new node 0 [(0, ())] history_default) events with
  | Done dp => dp
  | Panic => plane_new node 0 [] history_default
  end.

Definition demo_n1 : DemoPlane := demo_plane 1 [demo_pin 1 2; demo_route 1 3 2].
Definition demo_n2 : DemoPlane := demo_plane 2 [demo_pin 2 1; demo_pin 2 3; demo_route 2 3 3].
Definition demo_n3 : DemoPlane := demo_plane 3 [demo_pin 3 2; demo_route 3 1 2].
Definition demo_meta : NetOutgoingMeta := mkOutgoing true 64 5 true.

Lemma message_crosses_relays_witness :
  ∃ src' wire pair' wire' (d d' : DataPlaneConnection EncryptorXDA DecryptorXDA),
    outgoing_route canonical_order demo_n1 100 FData (ToNode 3) demo_meta [7; 8; 9] = Done src' ∧
    travel canonical_order [(200, demo_n2)] (demo_link 1 2) wire = Done (Some (pair', wire')) ∧
    receive canonical_order demo_n3 300 (flip pair') wire' =
      (r ← feed canonical_order (feature_ctx demo_n3) (dp_features demo_n3)
             (InData (WNetwork (dpc_conn d) (mkIncoming (Some 1) 63 5 true) [7; 8; 9]));
       Done (with_features (put_conn demo_n3 (flip pair') d') r)).
Proof.
  destruct (message_crosses_relays (paired := same_key) (lifetime := XDA_MSG_TIMEOUT_MS) canonical_order demo_n1 demo_n3 [(200, demo_n2)] 100 300 FData (ToNode 3)
    demo_meta [7; 8; 9] (demo_link 1 2) (mkPlaneConn 2 (from_raw 0 Outgoing 3) (demo_link 1 2) (encryptor_new (λ _, 0) [3], decryptor_new [3]))
    (wctx_router (feature_ctx demo_n1))) as (src' & wire & pair' & wire' & d & d' & Ho & _ & Ht & Hd & Hr).
  - split; cbn; [done | unfold u32; lia | unfold u8; lia |]. intros n [= <-]. unfold u32. lia.
  - done.
  - done.
  - by vm_compute.
  - by vm_compute.
  - vm_compute. reflexivity.
  - vm_compute. reflexivity.
  - eapply path_relay; [lia|unfold XDA_MSG_TIMEOUT_MS; lia|unfold XDA_MSG_TIMEOUT_MS; lia|vm_compute; reflexivity|vm_compute; reflexivity|vm_compute; reflexivity| |vm_compute; reflexivity|].
    { by vm_compute. }
    eapply path_dest; [lia|unfold XDA_MSG_TIMEOUT_MS; lia|unfold XDA_MSG_TIMEOUT_MS; lia|vm_compute; reflexivity|vm_compute; reflexivity|vm_compute; reflexivity].
  - by exists src', wire, pair', wire', d, d'.
Defined.

(** The three nodes run: what node 3 has for the controller in the end. *)
Lemma demo_relayed :
  (src' ← outgoing_route canonical_order demo_n1 100 FData (ToNode 3) demo_meta [7; 8; 9];
   match dp_queue src' with
   | [OutNet (UdpPacket p wire)] =>
       r ← travel canonical_order [(200, demo_n2)] p wire;
       match r with
       | Some (p', wire') =>
           dest ← receive canonical_order demo_n3 300 (flip p') wire';
           r ← plane_pop_output canonical_order [TaskFeature [Poll FRouterSync; Poll FData]] dest 300;
           Done r.2
       | None => Done None
       end
   | _ => Done None
   end) = Done (Some (OutLogic (LcNetRemote FData (from_raw 0 Incoming 5) (mkIncoming (Some 1) 63 5 true) [7; 8; 9]))).
Proof. vm_compute. reflexivity. Qed.

Definition demo_expired : TransportMsgHeader := mkHeader 0 true (ToNode 3) 0 1 5 (Some 1).
Definition demo_conn (a b : Z) : DataPlaneConnection EncryptorXDA DecryptorXDA :=
  mkPlaneConn b (from_raw 0 (if a <? b then Outgoing else Incoming) (a + b)) (demo_link a b)
    (encryptor_new (λ _, 0) (demo_key a b), decryptor_new (demo_key a b)).

Lemma ttl_stops_broadcasts_only_witness :
  ∃ c' wire dp' o' wire', encrypt_if_need (demo_conn 1 2) 100 (header_bytes demo_expired [] ++ [7; 8; 9]) = (c', Some wire) ∧
    receive canonical_order demo_n2 200 (demo_link 2 1) wire = Done dp' ∧ dp_queue dp' = [OutNet (UdpPacket (demo_link 2 3) wire')] ∧
    encrypt_if_need (demo_conn 2 3) 200 (header_bytes demo_expired [] ++ [7; 8; 9]) = (o', Some wire').
Proof.
  assert (∃ c' wire, encrypt_if_need (demo_conn 1 2) 100 (header_bytes demo_expired [] ++ [7; 8; 9]) = (c', Some wire)) as (c' & wire & He)
    by (eexists _, _; vm_compute; reflexivity).
  assert (header_ok demo_expired) as Hok
    by (split; cbn; [done | unfold u32; lia | unfold u8; lia | intros n [= <-]; unfold u32; lia]).
  destruct (ttl_stops_broadcasts_only (paired := same_key) (lifetime := XDA_MSG_TIMEOUT_MS) canonical_order demo_n2 (demo_conn 1 2) (demo_conn 2 1) c'
    (demo_link 2 1) 100 200 demo_expired [] [7; 8; 9] wire (wctx_router (feature_ctx demo_n2)) (Next (demo_link 2 3)) Hok eq_refl ltac:(by vm_compute) eq_refl
    ltac:(vm_compute; reflexivity) ltac:(vm_compute; reflexivity) He ltac:(lia) ltac:(unfold XDA_MSG_TIMEOUT_MS; lia) ltac:(unfold XDA_MSG_TIMEOUT_MS; lia)
    ltac:(vm_compute; reflexivity) (demo_conn 2 3) I ltac:(by vm_compute) ltac:(vm_compute; reflexivity)) as (dp' & o' & wire' & Hr & Hq & He').
  exists c', wire, dp', o', wire'. split_and!; [exact He|exact Hr|exact Hq|exact He'].
Defined.
