(* ===== verification/Vpn.v ===== *)
(** * The vpn build feature ([features/vpn.rs])

    With the build feature [vpn] a node has a tun device: a packet for an
    address of the network is carried to the node that has the address as its
    last byte, and given to the device there. Here: the worker as it is built
    with that feature on Linux, and that a packet arrives as it was. *)

From S2P Require Import Prelude NodeId ConnId Route Shadow History Msg Base Control Neighbours Secure DhtMsg PubsubMsg PubsubRelay Pubsub DataFeature Features Service DataPlane DataPlaneNet.

Section worker.
Context {T : Type} `{RouterTable T NetPair}.

(** The inputs and outputs the build feature adds; the others are dropped. *)
Inductive VpnWorkerInput :=
| VpnTunPkt (pkt : Buffer)
| VpnNetwork (conn : ConnId) (header : NetIncomingMeta) (pkt : Buffer)
| VpnOther.

Inductive VpnWorkerOutput :=
| VpnOutTunPkt (pkt : Buffer)
| VpnOutRawDirect2 (pair : NetPair) (buf : Buffer).

Record VpnTunWorker := mkVpnTun { vt_queue : list VpnWorkerOutput; vt_shutdown : bool }.

Definition vpn_tun_default : VpnTunWorker := mkVpnTun [] false.

Definition vpn_push (self : VpnTunWorker) (out : VpnWorkerOutput) : VpnTunWorker :=
  mkVpnTun (vt_queue self ++ [out]) (vt_shutdown self).

(** Linux: the protocol of the frame is IPv4. *)
Definition rewrite_tun_pkt (payload : Buffer) : outcome Buffer :=
  if (length payload <=? 3)%nat then Panic else Done (<[3%nat := 0]> (<[2%nat := 8]> payload)).

(** [&pkt[16..20]], of which only the last byte is used. *)
Definition tun_dest (node : NodeId) (pkt : Buffer) : outcome NodeId :=
  if (length pkt <? 20)%nat then Panic
  else index ← expect (pkt !! 19%nat); Done (build (geo1 node) (geo2 node) (group node) index).

Definition process_tun (self : VpnTunWorker) (ctx : FeatureWorkerContext T) (pkt : Buffer) : outcome VpnTunWorker :=
  dest ← tun_dest (wctx_node_id ctx) pkt;
  if dest =? wctx_node_id ctx then
    pkt ← rewrite_tun_pkt pkt;
    Done (vpn_push self (VpnOutTunPkt pkt))
  else
    action ← rt_path_to_node (wctx_router ctx) dest;
    match action with
    | Next remote =>
        msg ← build_msg (header_build (feature_id FVpn) 0 (ToNode dest)) (replicate 12 0) pkt;
        Done (vpn_push self (VpnOutRawDirect2 remote (take_buf msg)))
    | _ => Done self
    end.

Definition process_udp (self : VpnTunWorker) (pkt : Buffer) : VpnTunWorker := vpn_push self (VpnOutTunPkt pkt).

Definition vpn_tun_on_input (self : VpnTunWorker) (ctx : FeatureWorkerContext T) (input : VpnWorkerInput) : outcome VpnTunWorker :=
  match input with
  | VpnTunPkt pkt => process_tun self ctx pkt
  | VpnNetwork _ _ pkt => Done (process_udp self pkt)
  | VpnOther => Done self
  end.

Definition vpn_tun_on_shutdown (self : VpnTunWorker) : VpnTunWorker := mkVpnTun (vt_queue self) true.
Definition vpn_tun_is_empty (self : VpnTunWorker) : bool := vt_shutdown self && match vt_queue self with [] => true | _ => false end.
Definition vpn_tun_pop_output (self : VpnTunWorker) : VpnTunWorker * option VpnWorkerOutput :=
  match vt_queue self with
  | [] => (self, None)
  | out :: rest => (mkVpnTun rest (vt_shutdown self), Some out)
  end.
End worker.

(** ** Packets *)

Lemma u8_digits n : u8 (geo1 n) ∧ u8 (geo2 n) ∧ u8 (group n).
Proof. unfold geo1, geo2, group, u8. split_and!; apply wrap_range; lia. Qed.

Lemma tun_dest_u32 node i : u8 i → u32 (build (geo1 node) (geo2 node) (group node) i).
Proof.
  intros Hi. destruct (u8_digits node) as (H1 & H2 & H3). rewrite build_sum by done. unfold u8, u32 in *. lia.
Qed.

Section net.
Context {UserData Addr SC SE TC TW W H Encryptor Decryptor : Type} `{EqDecision UserData}.
Context `{ShadowRouterHistory H} `{ServiceWorker UserData Addr SC SE TC TW W} `{Headroom}.
Context {msg_codec : Codec PubsubMessage} {control_codec : LimitedCodec NeighboursControl}.
Context {paired : Encryptor → Decryptor → Prop} {lifetime : Z} `{EncryptionLaws Encryptor Decryptor paired lifetime}.
Context (order : HashOrder).

Abbreviation Plane := (DataPlane UserData Addr SC SE TC W H Encryptor Decryptor) (only parsing).
Abbreviation Conn := (DataPlaneConnection Encryptor Decryptor) (only parsing).

(** What the device of a node hands the worker goes out as one packet in the
    clear. *)
Lemma tun_packet_sent (src : Plane) (w : VpnTunWorker) (t : Z) (pkt : Buffer) (i : Z) (pair : NetPair) (c : Conn) :
  let node := wctx_node_id (feature_ctx src) in
  let d := build (geo1 node) (geo2 node) (group node) i in
  let h := header_build (feature_id FVpn) 0 (ToNode d) in
  pkt !! 19%nat = Some i → u8 i → d ≠ node → rt_path_to_node (wctx_router (feature_ctx src)) d = Done (Next pair) → dp_conns src !! pair = Some c →
  ∃ old, length (header_bytes h old) = serialize_size h ∧
    vpn_tun_on_input w (feature_ctx src) (VpnTunPkt pkt) = Done (vpn_push w (VpnOutRawDirect2 pair (header_bytes h old ++ pkt))) ∧
    encrypt_if_need c t (header_bytes h old ++ pkt) = (c, Some (header_bytes h old ++ pkt)) ∧
    feature_output order src t FVpn (WOutRawDirect2 pair (header_bytes h old ++ pkt)) =
      Done (push_back (put_conn src pair c) (OutNet (UdpPacket pair (header_bytes h old ++ pkt)))).
Proof.
  intros node d h Hi Hu Hne Hr Hc. assert (serialize_size h ≤ 12)%nat as H12 by (unfold serialize_size; destruct (has_from h), (is_direct (route h)); lia).
  set (old := take (serialize_size h) (replicate 12 0)). assert (length old = serialize_size h) as Hold by (unfold old; rewrite length_take, length_replicate; lia).
  destruct (to_bytes_spec h old) as [Hb Hlen]; [lia|]. exists old. split; [done|]. assert (is_secure (first_byte h) = false) as Hsec.
  { destruct (first_byte_fields h eq_refl) as (_ & _ & _ & _ & Hx). exact Hx. }
  split_and!.
  - cbn [vpn_tun_on_input]. unfold process_tun, tun_dest. rewrite (proj2 (Nat.ltb_ge _ _)) by (apply lookup_lt_Some in Hi; lia). rewrite Hi. cbn [expect]. rewrite !bind_Done.
    fold node d. rewrite (proj2 (Z.eqb_neq _ _)) by done. rewrite Hr, bind_Done. unfold build_msg. fold h old. rewrite Hb, bind_Done. unfold take_buf. cbn [buffer].
    by rewrite drop_ge, app_nil_r by lia.
  - cbn. by rewrite Hsec.
  - cbn [feature_output]. rewrite Hc. unfold send_raw, build_send_to, first_of. cbn [header_bytes app head expect]. rewrite bind_Done, Hsec, !bind_Done. done.
Qed.

(** C37. A packet of a tun device arrives as it was: what the device of a node
    hands the worker for the address of another node of the network is sent as
    one packet, each of at most [DEFAULT_MSG_TTL] relays passes it on with a
    time to live lowered by one, and the worker of that node hands the same
    bytes to its device. *)
Theorem tun_packet_arrives (src dest : Plane) (hops : list (Z * Plane)) (w : VpnTunWorker) (t now : Z) (pkt : Buffer) (i : Z) (pair : NetPair) (c : Conn) :
  let node := wctx_node_id (feature_ctx src) in
  let d := build (geo1 node) (geo2 node) (group node) i in
  pkt !! 19%nat = Some i → u8 i → d ≠ node → Z.of_nat (length pkt) + 12 ≤ 2 ^ 16 →
  Z.of_nat (length hops) ≤ DEFAULT_MSG_TTL →
  rt_path_to_node (wctx_router (feature_ctx src)) d = Done (Next pair) → dp_conns src !! pair = Some c →
  path_ready (paired := paired) (lifetime := lifetime) (ToNode d) None now dest t c pair hops →
  ∃ buf src' pair' buf' cd cd',
    vpn_tun_on_input w (feature_ctx src) (VpnTunPkt pkt) = Done (vpn_push w (VpnOutRawDirect2 pair buf)) ∧
    feature_output order src t FVpn (WOutRawDirect2 pair buf) = Done src' ∧ dp_queue src' = dp_queue src ++ [OutNet (UdpPacket pair buf)] ∧
    travel order hops pair buf = Done (Some (pair', buf')) ∧ dp_conns dest !! flip pair' = Some cd ∧
    receive order dest now (flip pair') buf' =
      (r ← feed order (feature_ctx dest) (dp_features dest)
             (InVpn (WNetwork (dpc_conn cd) (mkIncoming None (DEFAULT_MSG_TTL - Z.of_nat (length hops)) 0 false) pkt));
       Done (with_features (put_conn dest (flip pair') cd') r)) ∧
    ∀ wd header, vpn_tun_on_input wd (feature_ctx dest) (VpnNetwork (dpc_conn cd) header pkt) = Done (vpn_push wd (VpnOutTunPkt pkt)).
Proof.
  intros node d Hi Hu Hne Hsz Httl Hr Hc Hp. destruct (tun_packet_sent src w t pkt i pair c Hi Hu Hne Hr Hc) as (old & Hlen & Hw & He & Hout).
  fold node d in Hlen, Hw, He, Hout. set (h := header_build (feature_id FVpn) 0 (ToNode d)) in *.
  assert (header_ok h) as Hok by (split; [done|by apply tun_dest_u32|by vm_compute|done]).
  destruct (path_delivers order (ToNode d) None old pkt now dest t c pair hops Hp ltac:(done) h c (header_bytes h old ++ pkt)) as (pair' & wire' & cd & cd' & Ht & Hcd & Hs & Hrc); try done.
  { rewrite length_app, Hlen. assert (serialize_size h ≤ 12)%nat by (unfold serialize_size; destruct (has_from h), (is_direct (route h)); lia). lia. }
  eexists _, _, pair', wire', cd, cd'. split; [exact Hw|]. split; [exact Hout|]. split; [done|]. split; [exact Ht|]. split; [exact Hcd|]. split; [|done].
  rewrite Hrc, (incoming_local order _ _ _ _ _ _ _ FVpn) by done. destruct Hs as (_ & -> & _).
  by rewrite <- (Z.max_r 0 (DEFAULT_MSG_TTL - _)) by lia.
Qed.
End net.

(** ** A ping between two nodes

    Node 1 has a packet for the address that ends in 3; node 2 relays it. *)

#[local] Existing Instance demo_pubsub_codec.
#[local] Existing Instance demo_x25519.
#[local] Existing Instance demo_x25519_laws.
#[local] Existing Instance demo_aes.
#[local] Existing Instance demo_aes_laws.
#[local] Existing Instance demo_headroom.
#[local] Existing Instance demo_no_control.
#[local] Existing Instance demo_service.

Definition demo_pkt : Buffer := [0; 0; 8; 0; 69; 0; 0; 28; 0; 0; 0; 0; 64; 1; 0; 0; 10; 33; 33; 3; 1; 2; 3; 4].

Lemma tun_packet_arrives_witness :
  ∃ buf pair' buf' (cd cd' : DataPlaneConnection EncryptorXDA DecryptorXDA),
    vpn_tun_on_input vpn_tun_default (feature_ctx demo_n1) (VpnTunPkt demo_pkt) = Done (mkVpnTun [VpnOutRawDirect2 (demo_link 1 2) buf] false) ∧
    travel canonical_order [(200, demo_n2)] (demo_link 1 2) buf = Done (Some (pair', buf')) ∧
    receive canonical_order demo_n3 300 (flip pair') buf' =
      (r ← feed canonical_order (feature_ctx demo_n3) (dp_features demo_n3)
             (InVpn (WNetwork (dpc_conn cd) (mkIncoming None (DEFAULT_MSG_TTL - 1) 0 false) demo_pkt));
       Done (with_features (put_conn demo_n3 (flip pair') cd') r)).
Proof.
  destruct (tun_packet_arrives (paired := same_key) (lifetime := XDA_MSG_TIMEOUT_MS) canonical_order demo_n1 demo_n3 [(200, demo_n2)] vpn_tun_default 100 300 demo_pkt 3
    (demo_link 1 2) (mkPlaneConn 2 (from_raw 0 Outgoing 3) (demo_link 1 2) (encryptor_new (λ _, 0) [3], decryptor_new [3])))
    as (buf & src' & pair' & buf' & cd & cd' & Hw & _ & _ & Ht & _ & Hr & _).
  - reflexivity.
  - done.
  - by vm_compute.
  - by vm_compute.
  - by vm_compute.
  - vm_compute. reflexivity.
  - vm_compute. reflexivity.
  - eapply path_relay; [lia|unfold XDA_MSG_TIMEOUT_MS; lia|unfold XDA_MSG_TIMEOUT_MS; lia|vm_compute; reflexivity|vm_compute; reflexivity|vm_compute; reflexivity| |vm_compute; reflexivity|].
    { by vm_compute. }
    eapply path_dest; [lia|unfold XDA_MSG_TIMEOUT_MS; lia|unfold XDA_MSG_TIMEOUT_MS; lia|vm_compute; reflexivity|vm_compute; reflexivity|vm_compute; reflexivity].
  - exists buf, pair', buf', cd, cd'. split; [exact Hw|]. split; [exact Ht|exact Hr].
Defined.
