(* ===== verification/Controller.v ===== *)
(** * The controller plane ([controller_plane.rs],
    [controller_plane/features.rs], [controller_plane/services.rs])

    The controller owns the connections to the neighbours, the features and
    the services; it tells the workers which connections to pin. *)

From S2P Require Import Prelude NodeId ConnId Route Router Shadow Msg Base Control Neighbours RouterSync DhtMsg DhtServer DhtClient Dht PubsubMsg PubsubRelay Pubsub Alias Socket DataFeature Features Service DataPlane.

(** ** The features *)

Section features.
Context {UserData Secure : Type} `{EqDecision UserData}.
Context {sync_codec : Codec RouterSync} {dht_codec : Codec RemoteCommand} {alias_codec : Codec AliasMessage} {data_codec : Codec DataMsg}.

Abbreviation Input := (FeatureInput UserData (FeaturesControl NodeAddr) FeaturesToController) (only parsing).
Abbreviation Output := (FeatureOutput UserData FeaturesEvent (FeaturesToWorker UserData) NodeAddr) (only parsing).

Record FeatureManager := mkFeatureManager {
  fc_neighbours : NeighboursFeature UserData NodeAddr;
  fc_data : DataFeature UserData NodeAddr;
  fc_router_sync : RouterSyncFeature UserData NodeAddr;
  fc_vpn : VpnFeature;
  fc_dht_kv : DhtKvFeature UserData;
  fc_pubsub : PubSubFeature UserData NodeAddr;
  fc_alias : AliasFeature UserData NodeAddr;
  fc_socket : SocketFeature UserData NodeAddr;
  fc_shutdown : bool;
}.

Definition fcm_new (node : NodeId) (session : Z) (services : list Z) : FeatureManager :=
  mkFeatureManager neighbours_default data_default (router_sync_new node services) (mkVpn false) (feature_new node session)
    pubsub_new alias_default socket_default false.

Definition fcm_on_shared_input (order : HashOrder) (ctx : FeatureContext) (m : FeatureManager) (now_ms : Z) (input : FeatureSharedInput Secure)
    : outcome FeatureManager :=
  data ← data_on_shared_input order (fc_data m) now_ms input;
  let neighbours := neighbours_on_shared_input (fc_neighbours m) input in
  router_sync ← RouterSync.on_shared_input order (fc_router_sync m) input;
  let dht_kv := Dht.feature_on_shared_input order (fc_dht_kv m) now_ms input in
  pubsub ← pubsub_on_shared_input order ctx (fc_pubsub m) now_ms input;
  alias ← alias_on_shared_input order (fc_alias m) now_ms input;
  Done (mkFeatureManager neighbours data router_sync (fc_vpn m) dht_kv pubsub alias (fc_socket m) (fc_shutdown m)).

(** An input for one feature, in the types of the feature. *)
Inductive ControllerInputFor :=
| CInNeighbours (i : FeatureInput UserData (NeighboursApiControl NodeAddr) unit)
| CInData (i : FeatureInput UserData DataControl unit)
| CInRouterSync (i : FeatureInput UserData RouterSync.Control unit)
| CInVpn (i : FeatureInput UserData VpnControl unit)
| CInDhtKv (i : FeatureInput UserData DhtMsg.Control unit)
| CInPubSub (i : FeatureInput UserData (ChannelId * ChannelControl) PubsubMsg.ToController)
| CInAlias (i : FeatureInput UserData AliasControl unit)
| CInSocket (i : FeatureInput UserData SocketControl unit).

Definition fc_feed (order : HashOrder) (ctx : FeatureContext) (m : FeatureManager) (now : Z) (input : ControllerInputFor) : outcome FeatureManager :=
  let '(mkFeatureManager nb data rs vpn dht ps al so down) := m in
  match input with
  | CInNeighbours i => Done (mkFeatureManager (neighbours_on_input nb i) data rs vpn dht ps al so down)
  | CInData i => Done (mkFeatureManager nb (data_on_input ctx data now i) rs vpn dht ps al so down)
  | CInRouterSync i => rs ← RouterSync.on_input rs i; Done (mkFeatureManager nb data rs vpn dht ps al so down)
  | CInVpn _ => Done m
  | CInDhtKv i => dht ← Dht.feature_on_input order dht now i; Done (mkFeatureManager nb data rs vpn dht ps al so down)
  | CInPubSub i => ps ← pubsub_on_input order ctx ps now i; Done (mkFeatureManager nb data rs vpn dht ps al so down)
  | CInAlias i => Done (mkFeatureManager nb data rs vpn dht ps (alias_on_input al now i) so down)
  | CInSocket i => Done (mkFeatureManager nb data rs vpn dht ps al (socket_on_input ctx so i) down)
  end.

(** An input that has neither a control nor a message of a worker. *)
Definition fc_input_for (f : Features) (i : ∀ C T, FeatureInput UserData C T) : ControllerInputFor :=
  match f with
  | FNeighbours => CInNeighbours (i _ _) | FData => CInData (i _ _) | FRouterSync => CInRouterSync (i _ _) | FVpn => CInVpn (i _ _)
  | FDhtKv => CInDhtKv (i _ _) | FPubSub => CInPubSub (i _ _) | FAlias => CInAlias (i _ _) | FSocket => CInSocket (i _ _)
  end.

Definition fcm_on_input (order : HashOrder) (ctx : FeatureContext) (m : FeatureManager) (now_ms : Z) (f : Features) (input : Input)
    : outcome FeatureManager :=
  fc_feed order ctx m now_ms
    match input with
    | FromWorker to =>
        match to with
        | TcNeighbours t => CInNeighbours (FromWorker t) | TcData t => CInData (FromWorker t)
        | TcRouterSync t => CInRouterSync (FromWorker t) | TcVpn t => CInVpn (FromWorker t)
        | TcDhtKv t => CInDhtKv (FromWorker t) | TcPubSub t => CInPubSub (FromWorker t)
        | TcAlias t => CInAlias (FromWorker t) | TcSocket t => CInSocket (FromWorker t)
        end
    | FControl actor control =>
        match control with
        | CtlNeighbours c => CInNeighbours (FControl actor c) | CtlData c => CInData (FControl actor c)
        | CtlRouterSync c => CInRouterSync (FControl actor c) | CtlVpn c => CInVpn (FControl actor c)
        | CtlDhtKv c => CInDhtKv (FControl actor c) | CtlPubSub c => CInPubSub (FControl actor c)
        | CtlAlias c => CInAlias (FControl actor c) | CtlSocket c => CInSocket (FControl actor c)
        end
    | FNet con_ctx header buf => fc_input_for f (λ _ _, FNet con_ctx header buf)
    | FLocal header buf => fc_input_for f (λ _ _, FLocal header buf)
    end.

Definition fcm_on_shutdown (m : FeatureManager) : FeatureManager :=
  if fc_shutdown m then m
  else mkFeatureManager (neighbours_on_shutdown (fc_neighbours m)) (data_on_shutdown (fc_data m)) (RouterSync.on_shutdown (fc_router_sync m))
         (vpn_on_shutdown (fc_vpn m)) (Dht.feature_on_shutdown (fc_dht_kv m)) (pubsub_on_shutdown (fc_pubsub m))
         (alias_on_shutdown (fc_alias m)) (socket_on_shutdown (fc_socket m)) true.

Definition fcm_is_empty (m : FeatureManager) : bool :=
  fc_shutdown m && neighbours_is_empty (fc_neighbours m) && data_is_empty (fc_data m) && RouterSync.feature_is_empty (fc_router_sync m) &&
  vpn_is_empty (fc_vpn m) && dht_is_empty (fc_dht_kv m) && pubsub_is_empty (fc_pubsub m) && alias_is_empty (fc_alias m) &&
  socket_is_empty (fc_socket m).

(** The next output of one feature, in the types of all features. *)
Definition fc_pop_feature (m : FeatureManager) (f : Features) : FeatureManager * option Output :=
  let '(mkFeatureManager nb data rs vpn dht ps al so down) := m in
  match f with
  | FNeighbours => let '(nb, o) := neighbours_pop_output nb in
                   (mkFeatureManager nb data rs vpn dht ps al so down, output_into2 id EvNeighbours TwNeighbours <$> o)
  | FData => let '(data, o) := data_pop_output data in
             (mkFeatureManager nb data rs vpn dht ps al so down, output_into2 id EvData TwData <$> o)
  | FRouterSync => let '(rs, o) := RouterSync.pop_output rs in
                   (mkFeatureManager nb data rs vpn dht ps al so down, output_into2 id EvRouterSync TwRouterSync <$> o)
  | FVpn => (m, None)
  | FDhtKv => let '(dht, o) := Dht.feature_pop_output dht in
              (mkFeatureManager nb data rs vpn dht ps al so down, output_into2 id EvDhtKv TwDhtKv <$> o)
  | FPubSub => let '(ps, o) := pubsub_pop_output ps in
               (mkFeatureManager nb data rs vpn dht ps al so down, output_into2 id EvPubSub TwPubSub <$> o)
  | FAlias => let '(al, o) := alias_pop_output al in
              (mkFeatureManager nb data rs vpn dht ps al so down, output_into2 id EvAlias TwAlias <$> o)
  | FSocket => let '(so, o) := socket_pop_output so in
               (mkFeatureManager nb data rs vpn dht ps al so down, output_into2 id EvSocket TwSocket <$> o)
  end.

Fixpoint fcm_pop_output (schedule : list (SwitcherStep Features)) (m : FeatureManager) : FeatureManager * option (Features * Output) :=
  match schedule with
  | [] => (m, None)
  | Ended f :: _ => (m, Some (f, OutOnResourceEmpty))
  | Poll f :: schedule =>
      match fc_pop_feature m f with
      | (m, Some out) => (m, Some (f, out))
      | (m, None) => fcm_pop_output schedule m
      end
  end.
End features.

Arguments FeatureManager UserData : clear implicits.

(** ** The plane *)

Section plane.
Context {UserData SC SE TC TW S H Rng Requester Responder Encryptor Decryptor : Type} `{EqDecision UserData}.
Context {sync_codec : Codec RouterSync} {dht_codec : Codec RemoteCommand} {alias_codec : Codec AliasMessage} {data_codec : Codec DataMsg}.
Context `{Handshake Requester Responder Encryptor Decryptor} {auth : Authorization} {cmd_codec : LimitedCodec (Z * NeighboursControlCmds)}.
(** [rand::RngCore::next_u64]; the requester and the responder the handshake
    builder creates for a connection. *)
Context (next_u64 : Rng → Z * Rng) (requesters : NetPair → Requester) (responder : Responder).

Abbreviation Secure := (Encryptor * Decryptor)%type (only parsing).
Context `{ShadowRouterHistory H} `{ControllerService UserData NodeAddr Secure SC SE TC TW S}.

Abbreviation Neighbours := (NeighboursManager (Requester := Requester) (Encryptor := Encryptor) (Decryptor := Decryptor) (Rng := Rng)) (only parsing).

Inductive ControllerInput :=
| CtrlExt (ext : ExtIn UserData NodeAddr SC)
| CtrlControl (control : LogicControl UserData NodeAddr SC SE TC).

Inductive ControllerOutput :=
| CtrlOutExt (ext : ExtOut UserData SE)
| CtrlOutEvent (event : LogicEvent UserData SE TW Secure)
| CtrlOnResourceEmpty.

Record ControllerPlane := mkController {
  cp_tick_count : Z;
  cp_feature_ctx : FeatureContext;
  cp_service_ctx : ServiceCtx;
  cp_neighbours : Neighbours;
  cp_features : FeatureManager UserData;
  cp_services : ServiceSlots S;
  cp_queue : list ControllerOutput;
  cp_shutdown : bool;
  cp_history : H;
}.

(** [new]; a builder is its id, whether it is discoverable and the service. *)
Definition controller_new (node_id session : Z) (bind_addrs : list SocketAddr) (services : list (Z * bool * S)) (random : Rng) (history : H)
    : ControllerPlane :=
  let service_ids := (λ s, s.1.1) <$> filter (λ s, s.1.2 = true) services in
  mkController 0 (mkFeatureContext node_id session) (mkServiceCtx node_id session) (manager_new node_id bind_addrs random)
    (fcm_new node_id session service_ids) (sm_new ((λ s, (s.1.1, s.2)) <$> services)) [] false history.

Definition with_cp_neighbours (self : ControllerPlane) (nb : Neighbours) : ControllerPlane :=
  mkController (cp_tick_count self) (cp_feature_ctx self) (cp_service_ctx self) nb (cp_features self) (cp_services self) (cp_queue self)
    (cp_shutdown self) (cp_history self).
Definition with_cp_features (self : ControllerPlane) (m : FeatureManager UserData) : ControllerPlane :=
  mkController (cp_tick_count self) (cp_feature_ctx self) (cp_service_ctx self) (cp_neighbours self) m (cp_services self) (cp_queue self)
    (cp_shutdown self) (cp_history self).
Definition with_cp_services (self : ControllerPlane) (m : ServiceSlots S) : ControllerPlane :=
  mkController (cp_tick_count self) (cp_feature_ctx self) (cp_service_ctx self) (cp_neighbours self) (cp_features self) m (cp_queue self)
    (cp_shutdown self) (cp_history self).
Definition with_cp_queue (self : ControllerPlane) (queue : list ControllerOutput) : ControllerPlane :=
  mkController (cp_tick_count self) (cp_feature_ctx self) (cp_service_ctx self) (cp_neighbours self) (cp_features self) (cp_services self) queue
    (cp_shutdown self) (cp_history self).
(** [self.queue.push_back] *)
Definition cp_push (self : ControllerPlane) (out : ControllerOutput) : ControllerPlane := with_cp_queue self (cp_queue self ++ [out]).

Definition cp_neighbours_on_input (self : ControllerPlane) (now_ms : Z) (input : ManagerInput) : outcome ControllerPlane :=
  nb ← manager_on_input next_u64 requesters responder (cp_neighbours self) now_ms input; Done (with_cp_neighbours self nb).

Section dispatch.
Context (order : HashOrder).

Definition cp_features_shared (self : ControllerPlane) (now_ms : Z) (input : FeatureSharedInput Secure) : outcome ControllerPlane :=
  m ← fcm_on_shared_input order (cp_feature_ctx self) (cp_features self) now_ms input; Done (with_cp_features self m).

Definition cp_features_on_input (self : ControllerPlane) (now_ms : Z) (f : Features)
    (input : FeatureInput UserData (FeaturesControl NodeAddr) FeaturesToController) : outcome ControllerPlane :=
  m ← fcm_on_input order (cp_feature_ctx self) (cp_features self) now_ms f input; Done (with_cp_features self m).

Definition cp_services_shared (self : ControllerPlane) (now_ms : Z) (input : ServiceSharedInput Secure) : ControllerPlane :=
  with_cp_services self (sm_on_shared_input (cp_service_ctx self) (cp_services self) now_ms input).

Definition cp_services_on_input (self : ControllerPlane) (now_ms service : Z) (input : ServiceInput UserData FeaturesEvent SC TC)
    : outcome ControllerPlane :=
  m ← sm_on_input (cp_service_ctx self) (cp_services self) now_ms service input; Done (with_cp_services self m).

Definition controller_on_tick (self : ControllerPlane) (now_ms : Z) : outcome ControllerPlane :=
  let self := with_cp_neighbours self (manager_on_tick (cp_neighbours self) now_ms) in
  self ← cp_features_shared self now_ms (Tick (cp_tick_count self));
  let self := cp_services_shared self now_ms (SvcTick (cp_tick_count self)) in
  Done (mkController (wrap 64 (cp_tick_count self + 1)) (cp_feature_ctx self) (cp_service_ctx self) (cp_neighbours self) (cp_features self)
          (cp_services self) (cp_queue self) (cp_shutdown self) (history_set_ts (cp_history self) now_ms)).

Definition controller_on_event (self : ControllerPlane) (now_ms : Z) (event : ControllerInput) : outcome ControllerPlane :=
  match event with
  | CtrlExt (ExtConnectTo addr) => cp_neighbours_on_input self now_ms (ConnectTo addr)
  | CtrlExt (ExtDisconnectFrom node) => cp_neighbours_on_input self now_ms (DisconnectFrom node)
  | CtrlExt (ExtFeaturesControl userdata control) =>
      cp_features_on_input self now_ms (control_to_feature control) (FControl (ActorController userdata) control)
  | CtrlExt (ExtServicesControl service userdata control) =>
      cp_services_on_input self now_ms service (SvcControl (SvcController userdata) control)
  | CtrlControl (LcNetNeighbour addr control) => cp_neighbours_on_input self now_ms (InControl addr control)
  | CtrlControl (LcFeature to) => cp_features_on_input self now_ms (to_controller_feature to) (FromWorker to)
  | CtrlControl (LcService service to) => cp_services_on_input self now_ms service (SvcFromWorker to)
  | CtrlControl (LcNetRemote f conn meta msg) =>
      match manager_conn (cp_neighbours self) conn with
      | Some ctx => cp_features_on_input self now_ms f (FNet ctx meta msg)
      | None => Done self
      end
  | CtrlControl (LcNetLocal f meta msg) => cp_features_on_input self now_ms f (FLocal meta msg)
  | CtrlControl (LcServiceEvent service event) => cp_services_on_input self now_ms service (SvcFeatureEvent event)
  | CtrlControl (LcServicesControl actor service control) => cp_services_on_input self now_ms service (SvcControl actor control)
  | CtrlControl (LcFeaturesControl actor control) => cp_features_on_input self now_ms (control_to_feature control) (FControl actor control)
  | CtrlControl (LcExtFeaturesEvent userdata event) => Done (cp_push self (CtrlOutExt (ExtFeaturesEvent userdata event)))
  | CtrlControl (LcExtServicesEvent service userdata event) => Done (cp_push self (CtrlOutExt (ExtServicesEvent service userdata event)))
  end.

Definition controller_on_shutdown (self : ControllerPlane) (now_ms : Z) : ControllerPlane :=
  if cp_shutdown self then self
  else mkController (cp_tick_count self) (cp_feature_ctx self) (cp_service_ctx self) (manager_on_shutdown (cp_neighbours self) now_ms)
         (fcm_on_shutdown (cp_features self)) (sm_on_shutdown (cp_service_ctx self) (cp_services self) now_ms) (cp_queue self) true (cp_history self).

(** What is told the workers about a connection. *)
Definition cp_connection_event (self : ControllerPlane) (event : ConnectionEvent Secure) : ControllerPlane :=
  match event with
  | Connected ctx secure => cp_push self (CtrlOutEvent (LePin (ctx_conn ctx) (ctx_node ctx) (ctx_pair ctx) secure))
  | Stats _ _ => self
  | Disconnected ctx => cp_push self (CtrlOutEvent (LeUnPin (ctx_conn ctx)))
  end.

Definition cp_pop_neighbours (self : ControllerPlane) (now_ms : Z) : outcome ControllerPlane :=
  r ← manager_pop_output order (cp_neighbours self);
  let self := with_cp_neighbours self r.1 in
  match r.2 with
  | None => Done self
  | Some (OutControl remote control) => Done (cp_push self (CtrlOutEvent (LeNetNeighbour remote control)))
  | Some (OutConnEvent event) =>
      self ← cp_features_shared self now_ms (Connection event);
      let self := cp_services_shared self now_ms (SvcConnection event) in
      Done (cp_connection_event self event)
  | Some OnResourceEmpty => Done self
  end.

Definition cp_feature_output (self : ControllerPlane) (now_ms : Z) (f : Features)
    (out : FeatureOutput UserData FeaturesEvent (FeaturesToWorker UserData) NodeAddr) : outcome ControllerPlane :=
  match out with
  | OutToWorker is_broadcast to => Done (cp_push self (CtrlOutEvent (LeFeature is_broadcast to)))
  | OutEvent (ActorController userdata) event => Done (cp_push self (CtrlOutExt (ExtFeaturesEvent userdata event)))
  | OutEvent (ActorWorker worker userdata) event => Done (cp_push self (CtrlOutEvent (LeExtFeaturesEvent worker userdata event)))
  | OutEvent (ActorService service) event => cp_services_on_input self now_ms service (SvcFeatureEvent event)
  | OutSendDirect conn meta buf =>
      match manager_conn (cp_neighbours self) conn with
      | Some conn_ctx => Done (cp_push self (CtrlOutEvent (LeNetDirect f (ctx_pair conn_ctx) conn meta buf)))
      | None => Done self
      end
  | OutSendRoute rule ttl buf => Done (cp_push self (CtrlOutEvent (LeNetRoute f rule ttl buf)))
  | OutNeighboursConnectTo addr => cp_neighbours_on_input self now_ms (ConnectTo addr)
  | OutNeighboursDisconnectFrom node => cp_neighbours_on_input self now_ms (DisconnectFrom node)
  | OutOnResourceEmpty => Done self
  end.

Definition cp_pop_features (self : ControllerPlane) (now_ms : Z) (schedule : list (SwitcherStep Features)) : outcome ControllerPlane :=
  let '(m, out) := fcm_pop_output schedule (cp_features self) in
  let self := with_cp_features self m in
  match out with
  | Some (f, out) => cp_feature_output self now_ms f out
  | None => Done self
  end.

Definition cp_service_output (self : ControllerPlane) (now_ms service : Z) (out : ServiceOutput UserData (FeaturesControl NodeAddr) SE TW)
    : outcome ControllerPlane :=
  match out with
  | SvcOutFeatureControl control => cp_features_on_input self now_ms (control_to_feature control) (FControl (ActorService service) control)
  | SvcOutEvent (SvcController userdata) event => Done (cp_push self (CtrlOutExt (ExtServicesEvent service userdata event)))
  | SvcOutEvent (SvcWorker worker userdata) event => Done (cp_push self (CtrlOutEvent (LeExtServicesEvent worker service userdata event)))
  | SvcOutBroadcastWorkers to => Done (cp_push self (CtrlOutEvent (LeService service to)))
  | SvcOutOnResourceEmpty => Done self
  end.

Definition cp_pop_services (self : ControllerPlane) (now_ms : Z) (schedule : list (SwitcherStep Z)) : outcome ControllerPlane :=
  let '(m, out) := sm_pop_output schedule (cp_services self) now_ms in
  let self := with_cp_services self m in
  match out with
  | Some (service, out) => cp_service_output self now_ms service out
  | None => Done self
  end.

(** What the task switcher polls, with what the switcher of a manager does. *)
Inductive ControllerTask :=
| CTaskNeighbours
| CTaskFeature (schedule : list (SwitcherStep Features))
| CTaskService (schedule : list (SwitcherStep Z))
| CTaskEmpty.

Definition cp_run_task (self : ControllerPlane) (now_ms : Z) (task : ControllerTask) : outcome ControllerPlane :=
  match task with
  | CTaskNeighbours => cp_pop_neighbours self now_ms
  | CTaskFeature schedule => cp_pop_features self now_ms schedule
  | CTaskService schedule => cp_pop_services self now_ms schedule
  | CTaskEmpty => Done self
  end.

Fixpoint controller_pop_output (tasks : list ControllerTask) (self : ControllerPlane) (now_ms : Z)
    : outcome (ControllerPlane * option ControllerOutput) :=
  match cp_queue self with
  | out :: rest => Done (with_cp_queue self rest, Some out)
  | [] =>
      match tasks with
      | [] => Done (self, None)
      | task :: tasks => self ← cp_run_task self now_ms task; controller_pop_output tasks self now_ms
      end
  end.

Definition controller_is_empty (self : ControllerPlane) : bool :=
  cp_shutdown self && match cp_queue self with [] => true | _ => false end && manager_is_empty (cp_neighbours self) &&
  fcm_is_empty (cp_features self) && slots_is_empty (cp_services self).
End dispatch.
End plane.

Arguments ControllerInput UserData SC SE TC : clear implicits.
Arguments ControllerOutput UserData SE TW Encryptor Decryptor : clear implicits.
Arguments ControllerPlane UserData SE TW S H Rng Requester Encryptor Decryptor : clear implicits.
