(* ===== verification/NeighbourPins.v ===== *)
(** * What the neighbours manager reports is new ([controller_plane/neighbours.rs])

    A worker keeps its two maps of connections inverse to each other as long as
    a connection is reported only while neither its id nor its pair of
    addresses belongs to a connection that was reported and has not ended.
    Here this is shown of the neighbours manager. It needs one thing that the
    code does not check: that two connections that exist at the same time have
    different ids. Sessions are random 64-bit numbers, those of incoming
    connections chosen by the other node. *)

From S2P Require Import Prelude NodeId ConnId Base Control Neighbours.

(** ** One connection, with what it has not told yet *)

Section conn.
Context {Requester Responder Encryptor Decryptor : Type} `{Handshake Requester Responder Encryptor Decryptor}.
Abbreviation Conn := (NeighbourConnection Requester Encryptor Decryptor) (only parsing).
Abbreviation Ev := (ConnEvent Encryptor Decryptor) (only parsing).
Implicit Types (c : NeighbourConnection Requester Encryptor Decryptor) (evs : list (ConnEvent Encryptor Decryptor)).

Definition waiting (st : State Requester) : bool := match st with OutgoingWait _ _ | IncomingWait _ => true | _ => false end.

Definition not_connected (ev : Ev) : Prop := match ev with EvConnected _ _ => False | _ => True end.

(** Events of a connection that was reported. *)
Definition later (ev : Ev) : Prop := match ev with EvStats _ | EvDisconnected => True | _ => False end.

Lemma later_not_connected evs : Forall later evs → Forall not_connected evs.
Proof. intros Hl. eapply Forall_impl; [exact Hl|]. by intros []. Qed.

(** The events to come of a connection that is known to its user, or not. *)
Definition late_ok (up : Prop) evs : Prop :=
  (Forall not_connected evs ∧ (up → Forall later evs)) ∨ (¬ up ∧ ∃ enc dec post, evs = EvConnected enc dec :: post ∧ Forall later post).

Definition lived (up : Prop) c : Prop :=
  if waiting (nc_state c) then ¬ up ∧ events_of (nc_output c) = [] else late_ok up (events_of (nc_output c)).

Lemma late_ok_nil up : late_ok up [].
Proof. left. by split. Qed.

Lemma late_ok_later up evs ev : late_ok up evs → later ev → late_ok up (evs ++ [ev]).
Proof.
  intros [[Hn Hl]|(Hu & enc & dec & post & -> & Hp)] Hev.
  - left. split; [|intros Hup; apply Forall_app; split; [by apply Hl|by apply Forall_singleton]].
    apply Forall_app. split; [done|]. apply Forall_singleton. by destruct ev.
  - right. split; [done|]. exists enc, dec, (post ++ [ev]). split; [done|]. apply Forall_app. split; [done|]. by apply Forall_singleton.
Qed.

#[global] Instance late_ok_proper : Proper (iff ==> eq ==> iff) late_ok.
Proof. intros up up' Hup evs ? <-. unfold late_ok. by rewrite Hup. Qed.

#[global] Instance lived_proper : Proper (iff ==> eq ==> iff) lived.
Proof. intros up up' Hup c ? <-. unfold lived. destruct (waiting _); by rewrite Hup. Qed.

Lemma lived_late up c : lived up c → late_ok up (events_of (nc_output c)).
Proof. unfold lived. destruct (waiting _); [|done]. intros [_ ->]. apply late_ok_nil. Qed.

Lemma lived_waiting up c : lived up c → waiting (nc_state c) = true → ¬ up ∧ events_of (nc_output c) = [].
Proof. unfold lived. intros Hl Hw. by rewrite Hw in Hl. Qed.

Lemma late_ok_cons up ev evs :
  late_ok up (ev :: evs) → not_connected ev → Forall not_connected evs ∧ (up → later ev ∧ Forall later evs).
Proof.
  intros [[Hn Hup]|(_ & enc & dec & post & [= -> ->] & _)] Hev; [|done]. apply Forall_cons in Hn as [_ Hn].
  split; [done|]. by intros Hx%Hup%Forall_cons.
Qed.

Local Ltac conn_new :=
  split; [done|]; split; [done|]; first [by left|right; eexists; split; [reflexivity|]; split; [done|]; first [by left|by right]].

(** What an operation adds. *)
Lemma conn_apply_new c (op : conn_op) :
  let c' := conn_apply c op in
  (waiting (nc_state c) = false → nc_conn c' = nc_conn c) ∧ (waiting (nc_state c') = true → waiting (nc_state c) = true) ∧
  (events_of (nc_output c') = events_of (nc_output c) ∨
   ∃ ev, events_of (nc_output c') = events_of (nc_output c) ++ [ev] ∧ waiting (nc_state c') = false ∧ (later ev ∨ waiting (nc_state c) = true)).
Proof.
  destruct c as [conn local node pair st out]. cbn [nc_state nc_output nc_conn].
  destruct op as [now|rs now from cmd|now]; cbn [conn_apply].
  - unfold conn_on_tick; destruct st; cbn; repeat case_match; cbn; rewrite ?omap_app, ?events_of_app; cbn; rewrite ?omap_app; cbn; rewrite <- ?app_assoc; cbn; rewrite ?app_nil_r; conn_new.
  - destruct cmd; cbn; unfold accept_request; repeat case_match; simplify_eq; cbn; rewrite ?omap_app, ?events_of_app; cbn; rewrite ?omap_app; cbn; rewrite <- ?app_assoc; cbn; rewrite ?app_nil_r; conn_new.
  - unfold disconnect; destruct st; cbn; rewrite ?omap_app, ?events_of_app; cbn; rewrite ?omap_app; cbn; rewrite <- ?app_assoc; cbn; rewrite ?app_nil_r; conn_new.
Qed.

Lemma lived_apply up c (op : conn_op) : lived up c → lived up (conn_apply c op).
Proof.
  unfold lived. destruct (conn_apply_new c op) as (_ & Hw & Hnew). intros Hl. destruct Hnew as [->|(ev & -> & -> & Hev)].
  - destruct (waiting (nc_state (conn_apply c op))); [by rewrite Hw in Hl|].
    destruct (waiting (nc_state c)); [destruct Hl as [_ ->]; apply late_ok_nil|done].
  - destruct (waiting (nc_state c)) eqn:Hwc; [|destruct Hev as [Hev|]; [by apply late_ok_later|done]].
    destruct Hl as [Hu ->]. cbn [app]. destruct ev; [right|left..]; [split; [done|by eexists _, _, []]|..];
      (split; [by apply Forall_singleton|by intros ?]).
Qed.
End conn.

(** ** The manager *)

Section manager.
Context {Requester Responder Encryptor Decryptor : Type} `{Handshake Requester Responder Encryptor Decryptor}.
Context {auth : Authorization} {cmd_codec : LimitedCodec (Z * NeighboursControlCmds)}.
Context {Rng : Type} (next_u64 : Rng → Z * Rng).
Abbreviation Manager := (NeighboursManager (Requester := Requester) (Encryptor := Encryptor) (Decryptor := Decryptor) (Rng := Rng)) (only parsing).
Abbreviation MOutput := (ManagerOutput (Encryptor := Encryptor) (Decryptor := Decryptor)) (only parsing).
Abbreviation View := (gmap ConnKey ConnectionCtx) (only parsing).
Implicit Types (m : Manager) (c : NeighbourConnection Requester Encryptor Decryptor) (p : NetPair) (k : ConnKey).

(** Some connection of the table has this pair. *)
Definition in_use (view : View) p : Prop := ∃ k ctx, view !! k = Some ctx ∧ ctx_pair ctx = p.

(** A connection is reported while neither it nor its pair is in the table. *)
Definition out_new (view : View) (out : MOutput) : Prop :=
  match out with
  | OutConnEvent (Connected ctx _) => view !! conn_key (ctx_conn ctx) = None ∧ ¬ in_use view (ctx_pair ctx)
  | _ => True
  end.

Fixpoint outs_new (view : View) (outs : list MOutput) : Prop :=
  match outs with [] => True | out :: outs => out_new view out ∧ outs_new (follow_output view out) outs end.

Lemma outs_new_app (outs1 outs2 : list MOutput) : ∀ view,
  outs_new view (outs1 ++ outs2) ↔ outs_new view outs1 ∧ outs_new (foldl follow_output view outs1) outs2.
Proof. induction outs1 as [|out outs1 IH]; intros view; cbn; [tauto|]. rewrite IH. tauto. Qed.

(** Connections that exist at the same time have different ids. *)
Definition sessions_differ m : Prop := ∀ p p' c c',
  connections m !! p = Some c → connections m !! p' = Some c' → conn_key (nc_conn c) = conn_key (nc_conn c') → p = p'.

Definition key_of c : ConnKey := conn_key (nc_conn c).

Definition manager_keys m : list ConnKey := (λ e, key_of e.2) <$> map_to_list (connections m).

Lemma keys_differ m : NoDup (manager_keys m) → sessions_differ m.
Proof.
  intros Hnd p p' c c' Hc Hc' Hk. apply elem_of_map_to_list in Hc, Hc'. apply list_elem_of_lookup_1 in Hc as [i Hi], Hc' as [j Hj].
  assert (i = j) as <-; [|congruence]. apply (NoDup_lookup _ i j (key_of c) Hnd); unfold manager_keys; rewrite list_lookup_fmap, ?Hi, ?Hj; [done|]. cbn. unfold key_of. by rewrite Hk.
Qed.

(** Draining one connection: [k] is its key, [p] its pair. *)
Section drain.
Context (me : NodeId) (p : NetPair) (ctx : ConnectionCtx).
Local Abbreviation k := (conn_key (ctx_conn ctx)).

(** The entry at the key is the one with the pair. *)
Definition own (nb : View) : Prop := ∀ k' ctx', nb !! k' = Some ctx' → k' = k ↔ ctx_pair ctx' = p.

Lemma own_in_use nb : own nb → in_use nb p ↔ is_Some (nb !! k).
Proof.
  intros Ho. split.
  - intros (k' & ctx' & Hk & Hp). rewrite <- (proj2 (Ho _ _ Hk) Hp). by eexists.
  - intros [ctx' Hk]. exists k, ctx'. split; [done|]. by apply (Ho _ _ Hk).
Qed.

Lemma own_update nb nb' :
  own nb → (∀ k', k' ≠ k → nb' !! k' = nb !! k') → (∀ ctx', nb' !! k = Some ctx' → ctx_pair ctx' = p) → own nb'.
Proof.
  intros Ho Hne Hk k' ctx' Hk'. destruct (decide (k' = k)) as [->|Hn]; [split; [intros _; by apply Hk|done]|].
  rewrite Hne in Hk' by done. by apply Ho.
Qed.

Lemma own_others nb nb' p' :
  own nb → own nb' → (∀ k', k' ≠ k → nb' !! k' = nb !! k') → p' ≠ p → in_use nb' p' ↔ in_use nb p'.
Proof.
  intros Ho Ho' Hk Hp. split; intros (k' & ctx' & Hk' & <-).
  - destruct (decide (k' = k)) as [Hx|Hx]; [destruct Hp; by apply (Ho' _ _ Hk')|]. exists k', ctx'. by rewrite <- Hk.
  - destruct (decide (k' = k)) as [Hx|Hx]; [destruct Hp; by apply (Ho _ _ Hk')|]. exists k', ctx'. by rewrite Hk.
Qed.

(** What is still to come, and what is known once the connection is to be
    removed. *)
Definition drain_ok (nb : View) (rm : list NetPair) (evs : list (ConnEvent Encryptor Decryptor)) : Prop :=
  late_ok (in_use nb p) evs ∧ (p ∈ rm → ¬ in_use nb p ∧ Forall not_connected evs).

Lemma drain_output_new nb q rm out outs nb' q' rm' :
  ctx_pair ctx = p → own nb → drain_ok nb rm (events_of (out :: outs)) → drain_output me p ctx (nb, q, rm) out = Done (nb', q', rm') →
  own nb' ∧ drain_ok nb' rm' (events_of outs) ∧ (∀ k', k' ≠ k → nb' !! k' = nb !! k') ∧
  (∀ p', p' ∈ rm' → p' ∈ rm ∨ p' = p) ∧ ∃ qn, q' = q ++ qn ∧ outs_new nb qn ∧ foldl follow_output nb qn = nb'.
Proof.
  intros Hp Ho [Hl Hr].
  destruct out as [[enc dec|e| |st|]|t pr cmd].
  - destruct Hl as [[[Hc _]%Forall_cons _]|(Hn & enc' & dec' & post & [= -> -> Hpost] & Hlater)]; [done|]. intros [= <- <- <-].
    change (events_of outs = post) in Hpost. subst post.
    split_and!; [apply (own_update nb); [done|intros; by rewrite lookup_insert_ne|intros; by simplify_map_eq]|split|intros; by rewrite lookup_insert_ne|by left|].
    + left. split; [by apply later_not_connected|done].
    + intros Hx. destruct (Hr Hx) as [_ [Hc _]%Forall_cons]. done.
    + eexists. split; [done|]. cbn. split; [|done]. split; [|done]. split; [|by rewrite Hp]. apply eq_None_not_Some. by rewrite <- (own_in_use nb Ho).
  - destruct (late_ok_cons _ _ _ Hl I) as [Hn Hup]. intros [= <- <- <-].
    assert (¬ in_use nb p) as Hni by (intros Hx; by destruct (Hup Hx)).
    split_and!; [done| |done|intros p' [?| ->%list_elem_of_singleton]%elem_of_app; auto|exists []; by rewrite app_nil_r].
    split; [left; by split|by intros _].
  - destruct (late_ok_cons _ _ _ Hl I) as [Hn Hup]. intros [= <- <- <-].
    assert (¬ in_use nb p) as Hni by (intros Hx; by destruct (Hup Hx)).
    split_and!; [done| |done|intros p' [?| ->%list_elem_of_singleton]%elem_of_app; auto|exists []; by rewrite app_nil_r].
    split; [left; by split|by intros _].
  - destruct (late_ok_cons _ _ _ Hl I) as [Hn Hup]. intros [= <- <- <-]. split_and!; [done| |done|by left|by eexists].
    split; [left; split; [done|apply Hup]|]. intros Hx. split; [apply (Hr Hx)|done].
  - destruct (late_ok_cons _ _ _ Hl I) as [Hn Hup]. intros [= <- <- <-].
    assert (own (delete k nb)) as Ho' by (apply (own_update nb); [done|intros; by rewrite lookup_delete_ne|intros; by simplify_map_eq]).
    assert (¬ in_use (delete k nb) p) as Hni by (rewrite (own_in_use _ Ho'), lookup_delete_eq; by intros []).
    split_and!; [done| |intros; by rewrite lookup_delete_ne|intros p' [?| ->%list_elem_of_singleton]%elem_of_app; auto|by eexists].
    split; [left; by split|by intros _].
  - cbn. destruct (control_build t me cmd); [|done]. rewrite bind_Done. intros [= <- <- <-].
    split_and!; [done|by split|done|by left|by eexists].
Qed.

Lemma drain_outputs_new outs : ∀ nb q rm nb' q' rm',
  ctx_pair ctx = p → own nb → drain_ok nb rm (events_of outs) → foldM (drain_output me p ctx) (nb, q, rm) outs = Done (nb', q', rm') →
  own nb' ∧ (p ∈ rm' → ¬ in_use nb' p) ∧ (∀ k', k' ≠ k → nb' !! k' = nb !! k') ∧ (∀ p', p' ∈ rm' → p' ∈ rm ∨ p' = p) ∧
  (events_of outs = [] → nb' = nb) ∧ ∃ qn, q' = q ++ qn ∧ outs_new nb qn ∧ foldl follow_output nb qn = nb'.
Proof.
  induction outs as [|out outs IH]; intros nb q rm nb' q' rm' Hp Ho Hd; cbn [foldM].
  - intros [= <- <- <-]. split_and!; [done|intros Hx; by apply Hd|done|by left|done|]. exists []. by rewrite app_nil_r.
  - destruct (drain_output me p ctx (nb, q, rm) out) as [[[nb1 q1] rm1]|] eqn:E; [|done]. rewrite bind_Done. intros Hf.
    destruct (drain_output_new _ _ _ _ _ _ _ _ Hp Ho Hd E) as (Ho1 & Hd1 & Hk1 & Hr1 & qn1 & -> & Hn1 & Hv1).
    destruct (IH _ _ _ _ _ _ Hp Ho1 Hd1 Hf) as (Ho2 & Hd2 & Hk2 & Hr2 & He2 & qn2 & -> & Hn2 & Hv2).
    split_and!; [done|done|intros k' Hk'; by rewrite Hk2, Hk1| | |].
    + intros p' [Hx| ->]%Hr2; [by apply Hr1|by right].
    + intros He. destruct out as [|t pr cmd]; [done|]. rewrite (He2 He). cbn in E. destruct (control_build t me cmd); [|done].
      by rewrite bind_Done in E; injection E.
    + exists (qn1 ++ qn2). rewrite app_assoc. split; [done|]. rewrite outs_new_app, foldl_app, Hv1. by split.
Qed.
End drain.

(** The table holds connections of the manager that are not to be removed, and
    none that waits. *)
Definition known (m : Manager) (nb : View) (rm : list NetPair) : Prop :=
  (∀ k ctx, nb !! k = Some ctx → ¬ (ctx_pair ctx ∈ rm) ∧ ∃ c, connections m !! ctx_pair ctx = Some c ∧ key_of c = k) ∧
  ∀ p c, connections m !! p = Some c → waiting (nc_state c) = true → ¬ in_use nb p.

Lemma known_own m nb rm p c : sessions_differ m → known m nb rm → connections m !! p = Some c → own p (conn_ctx c) nb.
Proof.
  intros Hd [Hk _] Hc k' ctx' Hn. destruct (Hk _ _ Hn) as (_ & c' & Hc' & <-). split.
  2:{ intros Hx. rewrite Hx, Hc in Hc'. by injection Hc' as <-. }
  intros Hkey. by apply (Hd _ _ _ _ Hc' Hc).
Qed.

Lemma drain_conn_new me m nb q rm p c nb' q' rm' :
  sessions_differ m → known m nb rm → connections m !! p = Some c → nc_pair c = p → p ∉ rm → lived (in_use nb p) c →
  drain_conn me (nb, q, rm) (p, c) = Done (nb', q', rm') →
  known m nb' rm' ∧ (∀ p', p' ≠ p → in_use nb' p' ↔ in_use nb p') ∧ (∀ p', p' ∈ rm' → p' ∈ rm ∨ p' = p) ∧
  ∃ qn, q' = q ++ qn ∧ outs_new nb qn ∧ foldl follow_output nb qn = nb'.
Proof.
  intros Hd Hk Hc Hp Hrm Hl Hf. pose proof (known_own _ _ _ _ _ Hd Hk Hc) as Ho.
  destruct (drain_outputs_new me p (conn_ctx c) _ _ _ _ _ _ _ Hp Ho (conj (lived_late _ _ Hl) (λ Hx, False_ind _ (Hrm Hx))) Hf)
    as (Ho' & Hr' & Hk' & Hsub & He & Hq). pose proof (λ p', own_others _ _ _ _ p' Ho Ho' Hk') as Hu.
  split; [|split; [done|by split]]. split.
  - intros k ctx Hn. destruct (decide (k = key_of c)) as [->|Hne].
    + assert (ctx_pair ctx = p) as Hpair by by apply (Ho' _ _ Hn). rewrite Hpair.
      split; [|by exists c]. intros Hx. apply (Hr' Hx). by exists (key_of c), ctx.
    + rewrite Hk' in Hn by done. destruct (proj1 Hk _ _ Hn) as [Hx Hex]. split; [|done].
      intros [?|Hpair]%Hsub; [done|]. by apply Hne, (Ho _ _ Hn).
  - intros p' c' Hc' Hw. destruct (decide (p' = p)) as [->|Hne]; [|rewrite Hu by done; by eapply Hk].
    simplify_eq. destruct (lived_waiting _ _ Hl Hw) as [Hnu Hev]. by rewrite (He Hev).
Qed.

Lemma drain_conns_new me m (l : list (NetPair * NeighbourConnection Requester Encryptor Decryptor)) : ∀ nb q rm nb' q' rm',
  sessions_differ m → conns_ok m → known m nb rm → NoDup l.*1 →
  (∀ p c, (p, c) ∈ l → connections m !! p = Some c ∧ ¬ (p ∈ rm) ∧ lived (in_use nb p) c) →
  foldM (drain_conn me) (nb, q, rm) l = Done (nb', q', rm') →
  known m nb' rm' ∧ ∃ qn, q' = q ++ qn ∧ outs_new nb qn ∧ foldl follow_output nb qn = nb'.
Proof.
  induction l as [|[p c] l IH]; intros nb q rm nb' q' rm' Hd Hok Hk Hnd Hl; cbn [foldM].
  - intros [= <- <- <-]. split; [done|]. exists []. by rewrite app_nil_r.
  - destruct (drain_conn me (nb, q, rm) (p, c)) as [[[nb1 q1] rm1]|] eqn:E; [|done]. rewrite bind_Done. intros Hf.
    destruct (Hl p c) as (Hc & Hrm & Hlv); [left|]. apply NoDup_cons in Hnd as [Hnp Hnd].
    destruct (drain_conn_new _ _ _ _ _ _ _ _ _ _ Hd Hk Hc (proj1 (Hok _ _ Hc)) Hrm Hlv E) as (Hk1 & Hu1 & Hr1 & qn1 & -> & Hn1 & Hv1).
    assert (∀ p' c', (p', c') ∈ l → connections m !! p' = Some c' ∧ ¬ (p' ∈ rm1) ∧ lived (in_use nb1 p') c') as Hl1.
    { intros p' c' Hin. assert (p' ≠ p) as Hne by (intros ->; apply Hnp, list_elem_of_fmap; by exists (p, c')).
      destruct (Hl p' c') as (Hc' & Hrm' & Hlv'); [by right|]. split; [done|]. split; [by intros [?|?]%Hr1|by rewrite Hu1]. }
    destruct (IH _ _ _ _ _ _ Hd Hok Hk1 Hnd Hl1 Hf) as (Hk2 & qn2 & -> & Hn2 & Hv2).
    split; [done|]. exists (qn1 ++ qn2). rewrite app_assoc. split; [done|]. rewrite outs_new_app, foldl_app, Hv1. by split.
Qed.

(** ** The invariant *)

(** What was taken and what is queued tell the table, each connection when it
    was new; the table is that of connections which have more to tell only
    about their end. *)
Record reports_new m (taken : list MOutput) : Prop := {
  rn_conns : conns_ok m;
  rn_view : foldl follow_output ∅ (taken ++ nm_queue m) = neighbours m;
  rn_new : outs_new ∅ (taken ++ nm_queue m);
  rn_known : ∀ k ctx, neighbours m !! k = Some ctx → ∃ c, connections m !! ctx_pair ctx = Some c ∧ key_of c = k;
  rn_lived : ∀ p c, connections m !! p = Some c → lived (in_use (neighbours m) p) c;
}.

Lemma reports_new_known m taken : reports_new m taken → known m (neighbours m) [].
Proof.
  intros [_ _ _ Hk Hl]. split; [intros k ctx Hn; split; [by intros ?%elem_of_nil|by apply Hk]|].
  intros p c Hc Hw. by destruct (lived_waiting _ _ (Hl _ _ Hc) Hw).
Qed.

Lemma reports_new_start me binds rng : reports_new (manager_new me binds rng) [].
Proof. split; try done; intros ? ?; cbn; by rewrite lookup_empty. Qed.

Lemma reports_new_pop order m m' out taken :
  reports_new m taken → sessions_differ m → manager_pop_output order m = Done (m', out) → reports_new m' (taken ++ option_list out).
Proof.
  intros Hr Hd Hp. pose proof Hr as [Hok Hv Hn Hk Hl].
  assert (conns_ok m') as Hok'.
  { rewrite foldl_app in Hv. by destruct (manager_pop_ok _ _ _ _ _ Hok Hv Hp). }
  unfold manager_pop_output in Hp. destruct (nm_queue m) as [|o rest] eqn:Hq.
  2:{ injection Hp as <- <-. split; [done| |..]; cbn; rewrite <- ?app_assoc; done. }
  rewrite app_nil_r in Hv, Hn.
  destruct (foldM _ _ _) as [[[nb q] rm]|] eqn:Hf; [|done]. rewrite bind_Done in Hp.
  assert (∀ p c, (p, c) ∈ hash_iter (connections m) → connections m !! p = Some c ∧ ¬ (p ∈ []) ∧ lived (in_use (neighbours m) p) c) as Hl1.
  { intros p c Hc%elem_of_hash_iter. split; [done|]. split; [by intros ?%elem_of_nil|by apply Hl]. }
  destruct (drain_conns_new _ _ _ _ _ _ _ _ _ Hd Hok (reports_new_known _ _ Hr) (NoDup_hash_iter_keys _) Hl1 Hf) as (Hk' & qn & -> & Hn' & Hv').
  cbn [app] in *.
  assert (taken ++ option_list out ++ nm_queue m' = taken ++ qn ∧ neighbours m' = nb ∧ connections m' = remove_all rm (drained_conn <$> connections m)) as Hm'.
  { destruct qn; by injection Hp as <- <-. }
  clear Hp. destruct Hm' as (Hout & Hnb & Hc').
  split; [done|..]; rewrite <- ?app_assoc, ?Hout, ?Hnb, ?Hc'.
  - by rewrite foldl_app, Hv.
  - apply outs_new_app. by rewrite Hv.
  - intros k ctx Hx. destruct (proj1 Hk' _ _ Hx) as [Hrm (c & Hc & Hkey)]. exists (drained_conn c).
    rewrite lookup_remove_all, decide_False, lookup_fmap, Hc by done. done.
  - intros p c. rewrite lookup_remove_all. case_decide; [done|]. rewrite lookup_fmap. destruct (connections m !! p) as [c0|] eqn:Hc; [|done].
    intros [= <-]. unfold lived. cbn. destruct (waiting (nc_state c0)) eqn:Hw; [|apply late_ok_nil]. split; [by eapply Hk'|done].
Qed.

(** Operations on the connections, and new ones. *)
Definition conn_evolves c c' : Prop := c' = c ∨ ∃ op : conn_op, c' = conn_apply c op.

Record conns_evolve m m' : Prop := {
  ce_neighbours : neighbours m' = neighbours m;
  ce_queue : nm_queue m' = nm_queue m;
  ce_keep : ∀ p c, connections m !! p = Some c → ∃ c', connections m' !! p = Some c' ∧ conn_evolves c c';
  ce_fresh : ∀ p c', connections m !! p = None → connections m' !! p = Some c' → lived False c';
}.

Lemma conns_evolve_same m : conns_evolve m m.
Proof. split; [done|done| |congruence]. intros p c Hc. exists c. split; [done|by left]. Qed.

Lemma conns_evolve_fmap m m' f :
  neighbours m' = neighbours m → nm_queue m' = nm_queue m → connections m' = f <$> connections m → (∀ c, conn_evolves c (f c)) → conns_evolve m m'.
Proof.
  intros Hn Hq Hc Hf. split; [done|done|..]; intros p c; rewrite Hc, lookup_fmap.
  - intros ->. by exists (f c).
  - by intros ->.
Qed.

Lemma conns_evolve_insert m m' p c' :
  neighbours m' = neighbours m → nm_queue m' = nm_queue m → connections m' = <[p := c']> (connections m) →
  match connections m !! p with Some c => conn_evolves c c' | None => lived False c' end → conns_evolve m m'.
Proof.
  intros Hn Hq Hc Hp. split; [done|done|..]; intros p' c''; rewrite Hc, lookup_insert; case_decide; subst.
  - intros Hx. rewrite Hx in Hp. by exists c'.
  - intros Hx. exists c''. split; [done|by left].
  - intros Hx [= <-]. by rewrite Hx in Hp.
  - congruence.
Qed.

Lemma lived_evolves up c c' : conn_evolves c c' → lived up c → lived up c' ∧ (waiting (nc_state c) = false → key_of c' = key_of c).
Proof.
  intros [->|[op ->]] Hl; [done|]. split; [by apply lived_apply|]. intros Hw. unfold key_of. by rewrite (proj1 (conn_apply_new c op) Hw).
Qed.

Lemma reports_new_evolve m m' taken : conns_ok m' → conns_evolve m m' → reports_new m taken → reports_new m' taken.
Proof.
  intros Hok' [Hnb Hq Hkeep Hfresh] [_ Hv Hn Hk Hl]. split; [done|by rewrite Hq, Hnb|by rewrite Hq|..]; rewrite Hnb.
  - intros k ctx Hx. destruct (Hk _ _ Hx) as (c & Hc & <-). destruct (Hkeep _ _ Hc) as (c' & Hc' & He).
    exists c'. split; [done|]. eapply lived_evolves; [done|by apply Hl|].
    destruct (waiting (nc_state c)) eqn:Hw; [|done]. destruct (lived_waiting _ _ (Hl _ _ Hc) Hw) as [[] _]. by eexists _, ctx.
  - intros p c' Hc'. destruct (connections m !! p) as [c|] eqn:Hc.
    + destruct (Hkeep _ _ Hc) as (c1 & Hc1 & He). simplify_eq. by apply (lived_evolves _ _ _ He), Hl.
    + pose proof (Hfresh _ _ Hc Hc') as Hf. enough (in_use (neighbours m) p ↔ False) as -> by done. split; [|done].
      intros (k & ctx & Hx & <-). destruct (Hk _ _ Hx) as (c & Hc1 & _). congruence.
Qed.

Lemma new_incoming_lived local node sess pair now : lived False (new_incoming local node sess pair now : NeighbourConnection Requester Encryptor Decryptor).
Proof. unfold lived. cbn. split; [by intros []|done]. Qed.

Lemma connect_pair_evolves requesters now dest m addrs m' : connect_pair next_u64 requesters now dest m addrs = Done m' → conns_evolve m m'.
Proof.
  destruct addrs as [l r]. cbn. case_match; [intros [= <-]; apply conns_evolve_same|].
  destruct (connections m !! mkNetPair l r) eqn:Hp; [intros [= <-]; apply conns_evolve_same|].
  destruct (next_u64 (random m)) as [sid rng]. unfold new_outgoing. destruct (create_public_request _) as [hs|]; [|done].
  rewrite bind_Done. intros [= <-]. eapply conns_evolve_insert; [done..|]. rewrite Hp. unfold lived. cbn. split; [by intros []|done].
Qed.

Lemma connect_all_new requesters now dest l taken : ∀ m m',
  foldM (connect_pair next_u64 requesters now dest) m l = Done m' → reports_new m taken → reports_new m' taken.
Proof.
  induction l as [|a l IH]; intros m m'; cbn [foldM]; [by intros [= <-]|].
  destruct (connect_pair next_u64 requesters now dest m a) as [m1|] eqn:Hc; [|done]. rewrite bind_Done. intros Hf Hr. eapply IH; [done|].
  eapply reports_new_evolve; [|by eapply connect_pair_evolves|done]. eapply connect_pair_ok; [apply Hr|done].
Qed.

Lemma reports_new_input requesters responder m now input m' taken :
  manager_on_input next_u64 requesters responder m now input = Done m' → reports_new m taken → reports_new m' taken.
Proof.
  intros Hi Hr. destruct (manager_on_input_ok _ _ _ _ _ _ _ (rn_conns _ _ Hr) Hi) as (Hok & _).
  destruct input as [addr|node|addr control]; cbn [manager_on_input] in Hi; [by eapply connect_all_new|..].
  - eapply reports_new_evolve; [done| |done]. injection Hi as <-. eapply conns_evolve_fmap; [done..|]. intros c. cbv beta. case_match; [|by left].
    right. by exists (OpDisconnect now).
  - eapply reports_new_evolve; [done| |done]. destruct (control_validate control now) as [cmd|]; [|injection Hi as <-; apply conns_evolve_same].
    destruct (connections m !! addr) as [c|] eqn:Hc.
    + injection Hi as <-. eapply conns_evolve_insert; [done..|]. rewrite Hc. right. by exists (OpInput responder now (control_from control) cmd).
    + destruct cmd as [to sess hs| | | | |]; injection Hi as <-; try apply conns_evolve_same. eapply conns_evolve_insert; [done..|]. rewrite Hc.
      exact (lived_apply False (new_incoming (node_id m) (control_from control) sess addr now) (OpInput responder now (control_from control) (ConnectRequest to sess hs)) (new_incoming_lived _ _ _ _ _)).
Qed.

Lemma reports_new_tick m now taken : reports_new m taken → reports_new (manager_on_tick m now) taken.
Proof.
  intros Hr. eapply reports_new_evolve; [|eapply (conns_evolve_fmap m); try done|done].
  - apply conns_ok_fmap; [|apply Hr]. intros c. apply (conn_op_keeps c (OpTick now)).
  - intros c. right. by exists (OpTick now).
Qed.

Lemma reports_new_shutdown m now taken : reports_new m taken → reports_new (manager_on_shutdown m now) taken.
Proof.
  intros Hr. unfold manager_on_shutdown. case_match; [done|]. eapply reports_new_evolve; [|eapply (conns_evolve_fmap m); try done|done].
  - apply (conns_ok_fmap m); [|apply Hr]. intros c. apply (conn_op_keeps c (OpDisconnect now)).
  - intros c. right. by exists (OpDisconnect now).
Qed.
End manager.
