(* ===== verification/ControllerNet.v ===== *)
(** * The controller and its workers ([controller_plane.rs], [data_plane.rs])

    The workers pin and unpin connections as the controller tells them; the
    controller as the neighbours manager tells it. So a worker never pins a
    connection, or a pair of addresses, twice. *)

From S2P Require Import Prelude NodeId ConnId Route Router Shadow History Msg Base Control Neighbours NeighbourPins RouterSync Secure DhtMsg DhtServer DhtClient Dht PubsubMsg PubsubRelay Pubsub Alias Socket DataFeature Features Service DataPlane DataPlaneNet Controller.

Section node.
Context {UserData SC SE TC TW S W H HC Rng Requester Responder Encryptor Decryptor : Type} `{EqDecision UserData}.
Context {sync_codec : Codec RouterSync} {dht_codec : Codec RemoteCommand} {alias_codec : Codec AliasMessage} {data_codec : Codec DataMsg}.
Context `{Handshake Requester Responder Encryptor Decryptor} {auth : Authorization} {cmd_codec : LimitedCodec (Z * NeighboursControlCmds)}.
Context (next_u64 : Rng → Z * Rng).
Context `{ShadowRouterHistory HC} `{ControllerService UserData NodeAddr (Encryptor * Decryptor) SC SE TC TW S}.

Abbreviation Controller := (ControllerPlane UserData SE TW S HC Rng Requester Encryptor Decryptor) (only parsing).
Abbreviation Event := (LogicEvent UserData SE TW (Encryptor * Decryptor)) (only parsing).
Abbreviation COutput := (ControllerOutput UserData SE TW Encryptor Decryptor) (only parsing).
Abbreviation Manager := (NeighboursManager (Requester := Requester) (Encryptor := Encryptor) (Decryptor := Decryptor) (Rng := Rng)) (only parsing).
Abbreviation MOutput := (ManagerOutput (Encryptor := Encryptor) (Decryptor := Decryptor)) (only parsing).
Implicit Types (cp : ControllerPlane UserData SE TW S HC Rng Requester Encryptor Decryptor).

(** The pairs of the connections, kept by who follows the events. *)
Definition pin_update (view : gmap ConnKey NetPair) (event : Event) : gmap ConnKey NetPair :=
  match event with
  | LePin conn _ addr _ => <[conn_key conn := addr]> view
  | LeUnPin conn => delete (conn_key conn) view
  | _ => view
  end.

(** A connection is pinned while neither it nor its pair is. *)
Definition pin_new (view : gmap ConnKey NetPair) (event : Event) : Prop :=
  match event with
  | LePin conn _ addr _ => view !! conn_key conn = None ∧ ∀ k, view !! k ≠ Some addr
  | _ => True
  end.

Fixpoint pins_new (view : gmap ConnKey NetPair) (events : list Event) : Prop :=
  match events with [] => True | event :: events => pin_new view event ∧ pins_new (pin_update view event) events end.

Lemma pins_new_app (es1 es2 : list Event) : ∀ view, pins_new view (es1 ++ es2) ↔ pins_new view es1 ∧ pins_new (foldl pin_update view es1) es2.
Proof. induction es1 as [|e es1 IH]; intros view; cbn; [tauto|]. rewrite IH. tauto. Qed.

Lemma pin_new_view (view : gmap ConnKey ConnectionCtx) conn node addr secure :
  view !! conn_key conn = None → ¬ in_use view addr → pin_new (ctx_pair <$> view) (LePin conn node addr secure).
Proof.
  intros Hc Hu. split; [by rewrite lookup_fmap, Hc|]. intros k Hk. apply lookup_fmap_Some in Hk as (ctx & Hp & Hx). destruct Hu. by exists k, ctx.
Qed.

Definition events_out (outs : list COutput) : list Event := omap (λ out, match out with CtrlOutEvent event => Some event | _ => None end) outs.

Lemma events_out_app o1 o2 : events_out (o1 ++ o2) = events_out o1 ++ events_out o2.
Proof. apply omap_app. Qed.

(** What is known of the manager with what was taken from it: a property that
    its operations keep; taking an output needs [guard]. *)
Record run_closed (R : Manager → list MOutput → Prop) (guard : Manager → Prop) : Prop := {
  rc_tick m taken now : R m taken → R (manager_on_tick m now) taken;
  rc_input m taken requesters responder now input m' :
    R m taken → manager_on_input next_u64 requesters responder m now input = Done m' → R m' taken;
  rc_shutdown m taken now : R m taken → R (manager_on_shutdown m now) taken;
  rc_pop m taken order m' out : R m taken → guard m → manager_pop_output order m = Done (m', out) → R m' (taken ++ option_list out);
}.

Lemma manager_run_closed me binds rng : run_closed (manager_run next_u64 me binds rng) (λ _, True).
Proof. split; intros; [by apply run_tick|by eapply run_input|by apply run_shutdown|by eapply run_pop]. Qed.

Lemma reports_new_closed : run_closed reports_new sessions_differ.
Proof. split; intros; [by apply reports_new_tick|by eapply reports_new_input|by apply reports_new_shutdown|by eapply reports_new_pop]. Qed.

Section advances.
Context (R : Manager → list MOutput → Prop) (guard : Manager → Prop) (HR : run_closed R guard).

(** The events [outs] of the controller say about the connections what [mouts]
    of the manager say. *)
Definition says (outs : list COutput) (mouts : list MOutput) : Prop := ∀ view : gmap ConnKey ConnectionCtx,
  foldl pin_update (ctx_pair <$> view) (events_out outs) = ctx_pair <$> foldl follow_output view mouts ∧
  (outs_new view mouts → pins_new (ctx_pair <$> view) (events_out outs)).

Lemma says_app outs1 outs2 mouts1 mouts2 : says outs1 mouts1 → says outs2 mouts2 → says (outs1 ++ outs2) (mouts1 ++ mouts2).
Proof.
  intros Hs1 Hs2 view. destruct (Hs1 view) as [Hv1 Hn1], (Hs2 (foldl follow_output view mouts1)) as [Hv2 Hn2].
  rewrite events_out_app, !foldl_app, Hv1, outs_new_app, pins_new_app, Hv1. naive_solver.
Qed.

(** What a handler does: it takes [mouts] from the neighbours manager and
    queues [outs], which say the same about the connections. *)
Definition cp_advances cp cp' : Prop :=
  ∃ (mouts : list MOutput) outs, cp_queue cp' = cp_queue cp ++ outs ∧
    (∀ taken, R (cp_neighbours cp) taken → R (cp_neighbours cp') (taken ++ mouts)) ∧ says outs mouts.

Local Abbreviation adv := cp_advances.

Lemma adv_same cp cp' : cp_neighbours cp' = cp_neighbours cp → cp_queue cp' = cp_queue cp → adv cp cp'.
Proof. intros Hn Hq. exists [], []. split_and!; [by rewrite app_nil_r|intros taken; by rewrite Hn, app_nil_r|by intros view]. Qed.

Lemma adv_trans cp1 cp2 cp3 : adv cp1 cp2 → adv cp2 cp3 → adv cp1 cp3.
Proof.
  intros (m1 & o1 & Hq1 & Hm1 & Hv1) (m2 & o2 & Hq2 & Hm2 & Hv2). exists (m1 ++ m2), (o1 ++ o2). split_and!.
  - by rewrite Hq2, Hq1, app_assoc.
  - intros taken Hr. rewrite app_assoc. by apply Hm2, Hm1.
  - by apply says_app.
Qed.

(** An output that says nothing about connections. *)
Definition no_pin (out : COutput) : Prop :=
  match out with CtrlOutEvent (LePin _ _ _ _) | CtrlOutEvent (LeUnPin _) => False | _ => True end.

Lemma adv_push cp out : no_pin out → adv cp (cp_push cp out).
Proof.
  intros Hn. exists [], [out]. split_and!; [done|intros taken; by rewrite app_nil_r|]. intros view. by destruct out as [|[]|].
Qed.

Lemma adv_neighbours_input requesters responder cp now input cp' :
  cp_neighbours_on_input next_u64 requesters responder cp now input = Done cp' → adv cp cp'.
Proof.
  unfold cp_neighbours_on_input. destruct (manager_on_input _ _ _ _ _ _) as [nb|] eqn:Hi; [|done]. rewrite bind_Done. intros [= <-].
  exists [], []. split_and!; [by rewrite app_nil_r| |by intros view]. intros taken Hr. rewrite app_nil_r. by eapply rc_input.
Qed.

Lemma adv_features_shared order cp now input cp' : cp_features_shared order cp now input = Done cp' → adv cp cp'.
Proof. unfold cp_features_shared. destruct (fcm_on_shared_input _ _ _ _ _); [|done]. intros [= <-]. by apply adv_same. Qed.

Lemma adv_features_input order cp now f input cp' : cp_features_on_input order cp now f input = Done cp' → adv cp cp'.
Proof. unfold cp_features_on_input. destruct (fcm_on_input _ _ _ _ _ _); [|done]. intros [= <-]. by apply adv_same. Qed.

Lemma adv_services_input cp now service input cp' : cp_services_on_input cp now service input = Done cp' → adv cp cp'.
Proof. unfold cp_services_on_input. destruct (sm_on_input _ _ _ _ _); [|done]. intros [= <-]. by apply adv_same. Qed.

Lemma adv_pop_neighbours order cp now cp' : guard (cp_neighbours cp) → cp_pop_neighbours order cp now = Done cp' → adv cp cp'.
Proof.
  intros Hg. unfold cp_pop_neighbours. destruct (manager_pop_output order (cp_neighbours cp)) as [[nb out]|] eqn:Hp; [|done]. rewrite bind_Done.
  cbn [fst snd]. set (cp1 := with_cp_neighbours cp nb).
  assert (∀ outs cp2, cp_neighbours cp2 = nb → cp_queue cp2 = cp_queue cp ++ outs →
    says outs (option_list out) → adv cp cp2) as Hadv.
  { intros outs cp2 Hn Hq Hv. exists (option_list out), outs. split_and!; [done| |done]. intros taken Hr. rewrite Hn. by eapply rc_pop. }
  destruct out as [[remote control|event|]|].
  - intros [= <-]. by eapply (Hadv [_]).
  - destruct (cp_features_shared order cp1 now (Connection event)) as [cp2|] eqn:Hs; [|done]. rewrite bind_Done. intros [= <-].
    unfold cp_features_shared in Hs. destruct (fcm_on_shared_input _ _ _ _ _) as [m|]; [|done]. rewrite bind_Done in Hs. injection Hs as <-.
    destruct event as [ctx secure|ctx st|ctx]; cbn [cp_connection_event].
    + eapply (Hadv [_]); [done..|]. intros view. cbn. rewrite fmap_insert. split; [done|]. intros [[Hk Hu] _]. split; [by apply pin_new_view|done].
    + eapply (Hadv []); [done|cbn; by rewrite app_nil_r|by intros view].
    + eapply (Hadv [_]); [done..|]. intros view. cbn. by rewrite fmap_delete.
  - intros [= <-]. by eapply (Hadv []); [|cbn; rewrite app_nil_r|].
  - intros [= <-]. by eapply (Hadv []); [|cbn; rewrite app_nil_r|].
Qed.

Lemma adv_run_task requesters responder order cp now task cp' :
  guard (cp_neighbours cp) → cp_run_task next_u64 requesters responder order cp now task = Done cp' → adv cp cp'.
Proof.
  intros Hg. destruct task as [|sch|sch|]; cbn [cp_run_task].
  - by apply adv_pop_neighbours.
  - unfold cp_pop_features. destruct (fcm_pop_output sch _) as [m [[f out]|]]; [|intros [= <-]; by apply adv_same].
    set (cp1 := with_cp_features cp m). intros Ho. apply (adv_trans cp cp1); [by apply adv_same|]. clearbody cp1.
    destruct out as [b to|[u|w u|svc] e|conn m0 buf|rule m0 buf|addr|node|]; cbn [cp_feature_output] in Ho;
      try (injection Ho as <-; by apply adv_push); try (injection Ho as <-; by apply adv_same); try (by eapply adv_services_input); try (by eapply adv_neighbours_input).
    destruct (manager_conn _ conn); injection Ho as <-; [by apply adv_push|by apply adv_same].
  - unfold cp_pop_services. destruct (sm_pop_output sch _ _) as [m [[svc out]|]]; [|intros [= <-]; by apply adv_same].
    set (cp1 := with_cp_services cp m). intros Ho. apply (adv_trans cp cp1); [by apply adv_same|]. clearbody cp1.
    destruct out as [[u|w u] e|control|to|]; cbn [cp_service_output] in Ho;
      try (injection Ho as <-; by apply adv_push); try (injection Ho as <-; by apply adv_same). by eapply adv_features_input.
  - intros [= <-]. by apply adv_same.
Qed.

Lemma adv_on_event requesters responder order cp now event cp' :
  controller_on_event next_u64 requesters responder order cp now event = Done cp' → adv cp cp'.
Proof.
  destruct event as [[]|[]]; cbn [controller_on_event]; intros He;
    try (by eapply adv_neighbours_input); try (by eapply adv_features_input); try (by eapply adv_services_input);
    try (injection He as <-; by apply adv_same); try (injection He as <-; by apply adv_push).
  destruct (manager_conn _ conn); [by eapply adv_features_input|injection He as <-; by apply adv_same].
Qed.

Lemma adv_on_tick order cp now cp' : controller_on_tick (Responder := Responder) order cp now = Done cp' → adv cp cp'.
Proof.
  unfold controller_on_tick. set (cp1 := with_cp_neighbours cp _). destruct (cp_features_shared order cp1 now _) as [cp2|] eqn:Hs; [|done].
  rewrite bind_Done. intros [= <-]. apply (adv_trans cp cp1).
  { exists [], []. split_and!; [cbn; by rewrite app_nil_r| |by intros view]. intros taken Hr. rewrite app_nil_r. by eapply rc_tick. }
  apply (adv_trans cp1 cp2); [by eapply adv_features_shared|by apply adv_same].
Qed.

Lemma adv_on_shutdown cp now : adv cp (controller_on_shutdown cp now).
Proof.
  unfold controller_on_shutdown. destruct (cp_shutdown cp); [by apply adv_same|].
  exists [], []. split_and!; [cbn; by rewrite app_nil_r| |by intros view]. intros taken Hr. rewrite app_nil_r. by eapply rc_shutdown.
Qed.

(** The outputs taken and queued so far tell what the manager told. *)
Definition cp_tells cp (outs : list COutput) : Prop := ∃ mouts, R (cp_neighbours cp) mouts ∧ says (outs ++ cp_queue cp) mouts.

Lemma advances_tells cp cp' outs : adv cp cp' → cp_tells cp outs → cp_tells cp' outs.
Proof.
  intros (m1 & o1 & Hq & Hm & Hv) (mouts & Hr & Hp). exists (mouts ++ m1). split; [by apply Hm|].
  rewrite Hq, app_assoc. by apply says_app.
Qed.

(** [guard] holds of the manager before every task that is run. *)
Fixpoint tasks_guarded requesters responder order (tasks : list ControllerTask) cp (now : Z) : Prop :=
  match tasks, cp_queue cp with
  | task :: tasks, [] => guard (cp_neighbours cp) ∧
      ∀ cp', cp_run_task next_u64 requesters responder order cp now task = Done cp' → tasks_guarded requesters responder order tasks cp' now
  | _, _ => True
  end.

Lemma pop_tells requesters responder order tasks now out cp' outs : ∀ cp,
  tasks_guarded requesters responder order tasks cp now → cp_tells cp outs →
  controller_pop_output next_u64 requesters responder order tasks cp now = Done (cp', out) → cp_tells cp' (outs ++ option_list out).
Proof.
  induction tasks as [|task tasks IH]; intros cp Hg Ht; cbn [controller_pop_output tasks_guarded] in *; destruct (cp_queue cp) as [|o rest] eqn:Hq.
  - intros [= <- <-]. cbn. by rewrite app_nil_r.
  - intros [= <- <-]. destruct Ht as (mouts & Hr & Hp). exists mouts. split; [done|]. rewrite Hq in Hp. cbn. by rewrite <- app_assoc.
  - destruct (cp_run_task _ _ _ _ _ _ _) as [cp1|] eqn:Hrt; [|done]. rewrite bind_Done. destruct Hg as [Hg Hgs].
    apply IH; [by apply Hgs|]. eapply advances_tells; [|done]. by eapply adv_run_task.
  - intros [= <- <-]. destruct Ht as (mouts & Hr & Hp). exists mouts. split; [done|]. rewrite Hq in Hp. cbn. by rewrite <- app_assoc.
Qed.
End advances.

(** A run of the controller, with what was taken from it so far; [guard] holds
    of the neighbours manager whenever the controller runs a task. *)
Inductive guarded_run (guard : Manager → Prop) (node session : Z) (binds : list SocketAddr) (svcs : list (Z * bool * S)) (rng : Rng) (history : HC)
    : Controller → list COutput → Prop :=
| crun_new : guarded_run guard node session binds svcs rng history (controller_new node session binds svcs rng history) []
| crun_event cp outs requesters responder order now event cp' :
    guarded_run guard node session binds svcs rng history cp outs →
    controller_on_event next_u64 requesters responder order cp now event = Done cp' → guarded_run guard node session binds svcs rng history cp' outs
| crun_tick cp outs order now cp' :
    guarded_run guard node session binds svcs rng history cp outs →
    controller_on_tick (Responder := Responder) order cp now = Done cp' → guarded_run guard node session binds svcs rng history cp' outs
| crun_shutdown cp outs now :
    guarded_run guard node session binds svcs rng history cp outs →
    guarded_run guard node session binds svcs rng history (controller_on_shutdown cp now) outs
| crun_pop cp outs requesters responder order tasks now cp' out :
    guarded_run guard node session binds svcs rng history cp outs → tasks_guarded guard requesters responder order tasks cp now →
    controller_pop_output next_u64 requesters responder order tasks cp now = Done (cp', out) →
    guarded_run guard node session binds svcs rng history cp' (outs ++ option_list out).

(** Any run, and one in which the connections of the node never share an id. *)
Definition controller_run := guarded_run (λ _, True).
Definition apart_run := guarded_run sessions_differ.

Lemma guarded_run_tells R guard node session binds svcs rng history cp outs :
  run_closed R guard → R (manager_new node binds rng) [] → guarded_run guard node session binds svcs rng history cp outs → cp_tells R cp outs.
Proof.
  intros HR Hnew.
  induction 1 as [|cp outs rq rs order now event cp' Hr IH He|cp outs order now cp' Hr IH He|cp outs now Hr IH|cp outs rq rs order tasks now cp' out Hr IH Hg Hp].
  - exists []. split; [done|]. intros view. by cbn.
  - eapply advances_tells; [by eapply adv_on_event|done].
  - eapply advances_tells; [by eapply adv_on_tick|done].
  - eapply advances_tells; [by eapply adv_on_shutdown|done].
  - by eapply pop_tells.
Qed.

Lemma tasks_guarded_mono (G G' : Manager → Prop) requesters responder order tasks now : ∀ cp,
  (∀ m, G m → G' m) → tasks_guarded G requesters responder order tasks cp now → tasks_guarded G' requesters responder order tasks cp now.
Proof.
  induction tasks as [|task tasks IH]; intros cp Hg; cbn [tasks_guarded]; [done|]. destruct (cp_queue cp); [|done]. intros [Hx Hy]. split; [by apply Hg|].
  intros cp' Hr. apply IH; [done|by apply Hy].
Qed.

(** A run without shared ids is a run. *)
Lemma apart_run_run node session binds svcs rng history cp outs :
  apart_run node session binds svcs rng history cp outs → controller_run node session binds svcs rng history cp outs.
Proof.
  induction 1 as [|cp outs rq rs order now event cp' Hr IH He|cp outs order now cp' Hr IH He|cp outs now Hr IH|cp outs rq rs order tasks now cp' out Hr IH Hg Hp].
  - apply crun_new.
  - by eapply crun_event.
  - by eapply crun_tick.
  - by apply crun_shutdown.
  - eapply crun_pop; [done| |done]. by eapply tasks_guarded_mono; [|exact Hg].
Qed.

(** What the controller hands out in a run without shared ids is new. *)
Lemma apart_run_pins node session binds svcs rng history cp outs :
  apart_run node session binds svcs rng history cp outs → pins_new ∅ (events_out outs).
Proof.
  intros Hr. destruct (guarded_run_tells _ _ _ _ _ _ _ _ _ _ reports_new_closed (reports_new_start _ _ _) Hr) as (mouts & Hm & Hs).
  destruct (proj1 (outs_new_app _ _ _) (rn_new _ _ Hm)) as [Hn _]. apply Hs in Hn. rewrite fmap_empty, events_out_app, pins_new_app in Hn. apply Hn.
Qed.

(** ** The workers *)

Section workers.
Context `{ShadowRouterHistory H} `{ServiceWorker UserData NodeAddr SC SE TC TW W} `{Encryption Encryptor Decryptor} `{Headroom}.
Context {msg_codec : Codec PubsubMessage} {control_codec : LimitedCodec NeighboursControl}.
Abbreviation Plane := (DataPlane UserData NodeAddr SC SE TC W H Encryptor Decryptor) (only parsing).
Implicit Types (dp : DataPlane UserData NodeAddr SC SE TC W H Encryptor Decryptor).

Definition event_in (input : PlaneInput UserData NodeAddr SC SE TW (Encryptor * Decryptor)) : list Event :=
  match input with PlaneEvent event => [event] | _ => [] end.

(** A run of a worker, with the events of the controller it has received. *)
Inductive worker_run (node worker : Z) (svcs : list (Z * W)) (history : H) : Plane → list Event → Prop :=
| wrun_new : worker_run node worker svcs history (plane_new node worker svcs history) []
| wrun_input dp es order now input dp' :
    worker_run node worker svcs history dp es → plane_on_event order dp now input = Done dp' →
    worker_run node worker svcs history dp' (es ++ event_in input)
| wrun_tick dp es now : worker_run node worker svcs history dp es → worker_run node worker svcs history (plane_on_tick dp now) es
| wrun_shutdown dp es now : worker_run node worker svcs history dp es → worker_run node worker svcs history (plane_on_shutdown dp now) es
| wrun_pop dp es order tasks now dp' out :
    worker_run node worker svcs history dp es → plane_pop_output order tasks dp now = Done (dp', out) → worker_run node worker svcs history dp' es.

Lemma unpin_reverse dp conn : conns_reverse (unpin dp conn) = delete (conn_key conn) (conns_reverse dp).
Proof. unfold unpin. destruct (conns_reverse dp !! conn_key conn) eqn:Hc; [done|]. by rewrite delete_id. Qed.

Lemma worker_run_follows node worker svcs history dp es :
  worker_run node worker svcs history dp es → conns_reverse dp = foldl pin_update ∅ es.
Proof.
  induction 1 as [|dp es order now input dp' Hr IH He|dp es now Hr IH|dp es now Hr IH|dp es order tasks now dp' out Hr IH Hp].
  - done.
  - rewrite foldl_app, <- IH. apply plane_on_event_view in He. apply (f_equal snd) in He. cbn [snd pin_view] in He. rewrite He.
    destruct input as [| |[]|]; try done. cbn. apply unpin_reverse.
  - done.
  - unfold plane_on_shutdown. by destruct (dp_shutdown dp).
  - rewrite <- IH. apply pop_output_view in Hp. by apply (f_equal snd) in Hp.
Qed.

(** The events every worker gets. *)
Definition for_all_workers (event : Event) : Prop := logic_event_dest event = DestBroadcast.

#[global] Instance for_all_workers_dec event : Decision (for_all_workers event).
Proof. unfold for_all_workers. destruct (logic_event_dest event); [left|right|right]; done. Defined.

Lemma pin_update_filter es : ∀ view, foldl pin_update view (filter for_all_workers es) = foldl pin_update view es.
Proof.
  induction es as [|e es IH]; intros view; [done|]. rewrite filter_cons. destruct (decide (for_all_workers e)) as [He|He]; cbn [foldl]; rewrite IH; [done|].
  assert (pin_update view e = view) as ->; [|done]. destruct e; try done; by destruct He.
Qed.

Lemma pins_new_filter es : ∀ view, pins_new view (filter for_all_workers es) ↔ pins_new view es.
Proof.
  induction es as [|e es IH]; intros view; [done|]. rewrite filter_cons. destruct (decide (for_all_workers e)) as [He|He]; cbn [pins_new]; rewrite IH; [done|].
  assert (pin_update view e = view ∧ pin_new view e) as [-> ?] by (by destruct e; try done; destruct He). tauto.
Qed.

(** A worker that is told what is new keeps its maps inverse to each other. *)
Lemma worker_run_pins node worker svcs history dp es :
  worker_run node worker svcs history dp es → pins_new ∅ es → pins_ok (pin_view dp).
Proof.
  intros Hw. induction Hw as [|dp es order now input dp' Hr IH He|dp es now Hr IH|dp es now Hr IH|dp es order tasks now dp' out Hr IH Hp]; intros Hn.
  - apply pins_ok_new.
  - apply pins_new_app in Hn as [Hn Hin]. specialize (IH Hn). eapply plane_on_event_ok; [done| |exact He].
    destruct input as [| |[| | |conn n addr sec| | | | |]|]; try done. destruct Hin as [[Hc Ha] _].
    rewrite <- (worker_run_follows _ _ _ _ _ _ Hr) in Hc, Ha. split; [|done].
    destruct (dp_conns dp !! addr) as [d|] eqn:Hd; [|done]. destruct (Ha (conn_key (dpc_conn d))). apply pins_ok_inverse; [done|]. by exists d.
  - by apply IH.
  - unfold plane_on_shutdown. destruct (dp_shutdown dp); by apply IH.
  - rewrite (pop_output_view _ _ _ _ _ _ Hp). by apply IH.
Qed.

(** C9. The workers know the connections of the neighbours manager: once the
    controller has handed out what it queued, a worker that has received the
    events for all workers in order, and any of the others in between, finds
    for every connection of a neighbour its pair of addresses, and no other
    connection. *)
Theorem workers_follow_neighbours (node session worker : Z) (binds : list SocketAddr) (svcs : list (Z * bool * S)) (rng : Rng) (hc : HC)
    (cp : Controller) (outs : list COutput) (wsvcs : list (Z * W)) (h : H) (dp : Plane) (received : list Event) :
  controller_run node session binds svcs rng hc cp outs → nm_queue (cp_neighbours cp) = [] → cp_queue cp = [] →
  worker_run node worker wsvcs h dp received → filter for_all_workers received = filter for_all_workers (events_out outs) →
  conns_reverse dp = ctx_pair <$> neighbours (cp_neighbours cp).
Proof.
  intros Hc Hmq Hq Hw Hf.
  destruct (guarded_run_tells _ _ _ _ _ _ _ _ _ _ (manager_run_closed node binds rng) (run_new _ _ _ _) Hc) as (mouts & Hm & Hs).
  pose proof (proj1 (Hs ∅)) as Hp. rewrite fmap_empty in Hp.
  destruct (manager_run_follows _ _ _ _ _ _ Hm) as [Hn _]. rewrite Hmq, app_nil_r in Hn. rewrite Hq, app_nil_r in Hp.
  rewrite (worker_run_follows _ _ _ _ _ _ Hw), <- pin_update_filter, Hf, pin_update_filter, Hp. by rewrite Hn.
Qed.

Section sending.
Context {paired : Encryptor → Decryptor → Prop} {lifetime : Z} {enc_laws : EncryptionLaws paired lifetime}.

(** C31. Connections between the controller and its workers, as long as no two
    connections of the node that exist at the same time have the same id. A
    worker that has received so far some of the events for all workers that
    the controller handed out, in order and none left out, and any of the
    others in between, whatever else it did, keeps its two maps of connections
    inverse to each other; so a feature that sends directly to a connection
    never fails: the packet goes to the pair of that connection, or is dropped
    if the connection is gone. *)
Theorem direct_send_finds_connection (node session worker : Z) (binds : list SocketAddr) (svcs : list (Z * bool * S)) (rng : Rng) (hc : HC)
    (cp : Controller) (outs : list COutput) (wsvcs : list (Z * W)) (h : H) (dp : Plane) (received : list Event) :
  apart_run node session binds svcs rng hc cp outs → worker_run node worker wsvcs h dp received →
  filter for_all_workers received `prefix_of` filter for_all_workers (events_out outs) →
  (∀ k p, conns_reverse dp !! k = Some p ↔ ∃ d, dp_conns dp !! p = Some d ∧ conn_key (dpc_conn d) = k) ∧
  ∀ order now f conn meta buf, Z.of_nat (length buf) + 12 ≤ 2 ^ 16 →
    match conns_reverse dp !! conn_key conn with
    | None => feature_output order dp now f (WOutSendDirect conn meta buf) = Done dp
    | Some addr => ∃ d dp' wire, dp_conns dp !! addr = Some d ∧ conn_key (dpc_conn d) = conn_key conn ∧
        feature_output order dp now f (WOutSendDirect conn meta buf) = Done dp' ∧ dp_queue dp' = dp_queue dp ++ [OutNet (UdpPacket addr wire)]
    end.
Proof.
  intros Hc Hw [later Hpre]. assert (pins_ok (pin_view dp)) as Hok.
  { eapply worker_run_pins; [done|]. apply pins_new_filter. apply apart_run_pins, pins_new_filter in Hc. rewrite Hpre in Hc.
    apply pins_new_app in Hc as [Hc _]. exact Hc. }
  split; [by apply pins_ok_inverse|]. intros order now f conn meta buf Hl.
  destruct (conns_reverse dp !! conn_key conn) as [addr|] eqn:Hk; [by apply pins_ok_direct_send|]. cbn. by rewrite Hk.
Qed.
End sending.
End workers.
End node.

(** *** A node with one neighbour, to evaluate with *)

#[local] Existing Instance demo_handshake.
#[local] Existing Instance demo_conn_codec.
#[local] Existing Instance demo_open_auth.
#[local] Existing Instance demo_headroom.
#[local] Existing Instance demo_no_control.

#[local] Instance demo_no_codec T : Codec T := { serialize _ := []; deserialize _ := None }.

#[local] Instance demo_clear : Encryption Z Z := { encryptor_encrypt e _ data := (e, inl data); decryptor_decrypt d _ data := (d, inl data) }.

#[local] Instance demo_idle_worker : ServiceWorker Z NodeAddr unit unit unit unit unit := {
  svw_is_service_empty _ := true;
  svw_on_tick _ w _ _ := w;
  svw_on_input _ w _ _ := w;
  svw_on_shutdown _ w _ := w;
  svw_pop_output2 w _ := (w, None);
}.

#[local] Instance demo_idle_service : ControllerService Z NodeAddr (Z * Z) unit unit unit unit unit := {
  svc_is_service_empty _ := true;
  svc_on_shared_input _ s _ _ := s;
  svc_on_input _ s _ _ := Done s;
  svc_on_shutdown _ s _ := s;
  svc_pop_output2 s _ := (s, None);
}.

Abbreviation DemoController := (ControllerPlane Z unit unit unit DataWorkerHistory Z Z Z Z) (only parsing).
Abbreviation DemoWorker := (DataPlane Z NodeAddr unit unit unit unit DataWorkerHistory Z Z) (only parsing).

Definition demo_rng (r : Z) : Z * Z := (r, r + 1).
Definition demo_controller : DemoController := controller_new 2 0 [] [] 0 history_default.
Definition demo_request : ControllerInput Z unit unit unit := CtrlControl (LcNetNeighbour (demo_addr 2) (mkControl 1 [7; 0; 2; 99; 30] [])).

(** The neighbour's request arrives, and the controller is polled twice. *)
Definition demo_cp (polls : nat) : DemoController :=
  let event := controller_on_event demo_rng (λ _, 0) 12 canonical_order demo_controller 7 demo_request in
  let poll (o : outcome DemoController) := cp ← o; r ← controller_pop_output demo_rng (λ _, 0) 12 canonical_order [CTaskNeighbours] cp 7; Done r.1 in
  match Nat.iter polls poll event with Done cp => cp | Panic => demo_controller end.

Definition demo_pinned : DemoWorker := pin (plane_new 2 0 [] history_default) (from_in 0 99) 1 (demo_addr 2) (42, 42).

Definition demo_reply : NeighboursControl :=
  match head (cp_queue (match cp_pop_neighbours canonical_order (demo_cp 1) 7 with Done cp => cp | Panic => demo_controller end)) with
  | Some (CtrlOutEvent (LeNetNeighbour _ control)) => control
  | _ => mkControl 0 [] []
  end.

Definition demo_outs : list (ControllerOutput Z unit unit Z Z) :=
  [CtrlOutEvent (LePin (from_in 0 99) 1 (demo_addr 2) (42, 42)); CtrlOutEvent (LeNetNeighbour (demo_addr 2) demo_reply)].

Lemma demo_apart_run : apart_run (Responder := Z) (TC := unit) demo_rng 2 0 [] [] 0 history_default (demo_cp 2) demo_outs.
Proof.
  assert (∀ (cp : DemoController), manager_keys (cp_neighbours cp) = [(Incoming, 99)] →
    tasks_guarded (TC := unit) demo_rng sessions_differ (λ _, 0) 12 canonical_order [CTaskNeighbours] cp 7) as Hg.
  { intros cp Hk. cbn. destruct (cp_queue cp); [|done]. split; [|done]. apply keys_differ. rewrite Hk. apply NoDup_singleton. }
  apply (crun_pop demo_rng sessions_differ 2 0 [] [] 0 history_default (demo_cp 1) [CtrlOutEvent (LePin (from_in 0 99) 1 (demo_addr 2) (42, 42))]
    (λ _, 0) 12 canonical_order [CTaskNeighbours] 7 (demo_cp 2) (Some (CtrlOutEvent (LeNetNeighbour (demo_addr 2) demo_reply))));
    [|apply Hg; vm_compute; reflexivity|vm_compute; reflexivity].
  apply (crun_pop demo_rng sessions_differ 2 0 [] [] 0 history_default (demo_cp 0) []
    (λ _, 0) 12 canonical_order [CTaskNeighbours] 7 (demo_cp 1) (Some (CtrlOutEvent (LePin (from_in 0 99) 1 (demo_addr 2) (42, 42)))));
    [|apply Hg; vm_compute; reflexivity|vm_compute; reflexivity].
  eapply (crun_event demo_rng sessions_differ 2 0 [] [] 0 history_default demo_controller [] (λ _, 0) 12 canonical_order 7 demo_request);
    [apply crun_new|vm_compute; reflexivity].
Qed.

Lemma demo_worker_run :
  worker_run 2 0 [] history_default demo_pinned [LePin (from_in 0 99) 1 (demo_addr 2) (42, 42)].
Proof. eapply (wrun_input _ _ _ _ _ [] canonical_order 0 (PlaneEvent (LePin (from_in 0 99) 1 (demo_addr 2) (42, 42)))); [apply wrun_new|reflexivity]. Qed.

Lemma workers_follow_neighbours_witness :
  controller_run (Responder := Z) (TC := unit) demo_rng 2 0 [] [] 0 history_default (demo_cp 2) demo_outs ∧
  conns_reverse demo_pinned = ctx_pair <$> neighbours (cp_neighbours (demo_cp 2)) ∧ neighbours (cp_neighbours (demo_cp 2)) !! (Incoming, 99) ≠ None.
Proof.
  pose proof (apart_run_run _ _ _ _ _ _ _ _ _ demo_apart_run) as Hrun. split; [exact Hrun|]. split; [|by vm_compute].
  refine (workers_follow_neighbours demo_rng 2 0 0 [] [] 0 history_default (demo_cp 2) _ [] history_default demo_pinned _ Hrun _ _ demo_worker_run eq_refl);
    vm_compute; reflexivity.
Defined.

#[local] Instance demo_clear_laws : EncryptionLaws (Encryptor := Z) (Decryptor := Z) (λ _ _, True) 0.
Proof. split; [intros; by eexists _, _|intros ? ? ? ? ? ? ? _ [= <- <-] _ _ _; by eexists|done|done]. Qed.

Lemma direct_send_finds_connection_witness :
  ∃ d dp' wire, dp_conns demo_pinned !! demo_addr 2 = Some d ∧
    feature_output canonical_order demo_pinned 5 FPubSub (WOutSendDirect (from_in 0 99) demo_meta [1; 2]) = Done dp' ∧
    dp_queue dp' = [OutNet (UdpPacket (demo_addr 2) wire)].
Proof.
  destruct (direct_send_finds_connection (paired := λ _ _, True) (lifetime := 0) demo_rng 2 0 0 [] [] 0 history_default (demo_cp 2) _ [] history_default demo_pinned _ demo_apart_run
    demo_worker_run (ex_intro _ [] eq_refl)) as [_ Hsend].
  destruct (Hsend canonical_order 5 FPubSub (from_in 0 99) demo_meta [1; 2]) as (d & dp' & wire & Hd & _ & Hf & Hq); [by vm_compute|].
  by exists d, dp', wire.
Defined.
