(* ===== verification/Worker.v ===== *)
(** * A worker of a node ([worker.rs])

    One worker of a node runs the controller beside its data plane; the others
    run a data plane only. What is not for the worker itself goes to a bus. *)

From S2P Require Import Prelude NodeId ConnId Route Router Shadow History Msg Base Control Neighbours RouterSync Secure DhtMsg DhtServer DhtClient Dht PubsubMsg PubsubRelay Pubsub Alias Socket DataFeature Features Service DataPlane Controller.

Section worker.
Context {UserData SC SE TC TW S W H HC Rng Requester Responder Encryptor Decryptor : Type} `{EqDecision UserData}.
Context {sync_codec : Codec RouterSync} {dht_codec : Codec RemoteCommand} {alias_codec : Codec AliasMessage} {data_codec : Codec DataMsg}.
Context {msg_codec : Codec PubsubMessage} {control_codec : LimitedCodec NeighboursControl}.
Context `{Handshake Requester Responder Encryptor Decryptor} {auth : Authorization} {cmd_codec : LimitedCodec (Z * NeighboursControlCmds)}.
Context `{ShadowRouterHistory HC} `{ControllerService UserData NodeAddr (Encryptor * Decryptor) SC SE TC TW S}.
Context `{ShadowRouterHistory H} `{ServiceWorker UserData NodeAddr SC SE TC TW W} `{Encryption Encryptor Decryptor} `{Headroom}.
Context (next_u64 : Rng → Z * Rng) (requesters : NetPair → Requester) (responder : Responder) (order : HashOrder).

Abbreviation Event := (LogicEvent UserData SE TW (Encryptor * Decryptor)) (only parsing).
Abbreviation Controller := (ControllerPlane UserData SE TW S HC Rng Requester Encryptor Decryptor) (only parsing).
Abbreviation Plane := (DataPlane UserData NodeAddr SC SE TC W H Encryptor Decryptor) (only parsing).

Inductive SdnWorkerBusEvent :=
| BusControl (control : LogicControl UserData NodeAddr SC SE TC)
| BusWorkers (event : Event)
| BusWorker (worker : Z) (cross : CrossWorker UserData SE).

Inductive SdnWorkerInput :=
| SwiExt (ext : ExtIn UserData NodeAddr SC)
| SwiExtWorker (ext : ExtIn UserData NodeAddr SC)
| SwiNet (net : NetInput)
| SwiBus (bus : SdnWorkerBusEvent).

Inductive SdnWorkerOutput :=
| SwoExt (ext : ExtOut UserData SE)
| SwoExtWorker (ext : ExtOut UserData SE)
| SwoNet (net : NetOutput)
| SwoBus (bus : SdnWorkerBusEvent)
| SwoOnResourceEmpty
| SwoContinue.

Record SdnWorker := mkSdnWorker {
  tick_ms : Z;
  w_controller : option Controller;
  w_data : Plane;
  w_shutdown : bool;
  last_tick : option Z;
}.

(** [SdnWorkerCfg] *)
Record SdnWorkerCfg := mkSdnWorkerCfg {
  cfg_node_id : NodeId;
  cfg_tick_ms : Z;
  cfg_controller : option (Z * list SocketAddr * list (Z * bool * S) * Rng * HC);
  cfg_worker_id : Z;
  cfg_services : list (Z * W);
  cfg_history : H;
}.

Definition sdn_worker_new (cfg : SdnWorkerCfg) : SdnWorker :=
  mkSdnWorker (cfg_tick_ms cfg)
    (match cfg_controller cfg with
     | Some (session, bind_addrs, services, random, history) => Some (controller_new (cfg_node_id cfg) session bind_addrs services random history)
     | None => None
     end)
    (plane_new (cfg_node_id cfg) (cfg_worker_id cfg) (cfg_services cfg) (cfg_history cfg)) false None.

Definition worker_tasks (self : SdnWorker) : nat := 1 + match w_controller self with Some _ => 1 | None => 0 end.

Definition sdn_worker_is_empty (self : SdnWorker) : bool :=
  w_shutdown self && match w_controller self with Some c => controller_is_empty c | None => true end && plane_is_empty (w_data self).

Definition with_w_data (self : SdnWorker) (data : Plane) : SdnWorker :=
  mkSdnWorker (tick_ms self) (w_controller self) data (w_shutdown self) (last_tick self).
Definition with_w_controller (self : SdnWorker) (controller : Controller) : SdnWorker :=
  mkSdnWorker (tick_ms self) (Some controller) (w_data self) (w_shutdown self) (last_tick self).

Definition sdn_worker_on_tick (self : SdnWorker) (now_ms : Z) : outcome SdnWorker :=
  if match last_tick self with Some last_tick => now_ms <? wrap 64 (last_tick + tick_ms self) | None => false end then Done self
  else
    let data := plane_on_tick (w_data self) now_ms in
    match w_controller self with
    | Some c =>
        c ← controller_on_tick (Responder := Responder) order c now_ms;
        Done (mkSdnWorker (tick_ms self) (Some c) data (w_shutdown self) (Some now_ms))
    | None => Done (mkSdnWorker (tick_ms self) None data (w_shutdown self) (Some now_ms))
    end.

Definition w_data_on_event (self : SdnWorker) (now_ms : Z) (event : PlaneInput UserData NodeAddr SC SE TW (Encryptor * Decryptor)) : outcome SdnWorker :=
  data ← plane_on_event order (w_data self) now_ms event; Done (with_w_data self data).

Definition w_controller_on_event (self : SdnWorker) (now_ms : Z) (c : Controller) (event : ControllerInput UserData SC SE TC) : outcome SdnWorker :=
  c ← controller_on_event next_u64 requesters responder order c now_ms event; Done (with_w_controller self c).

Definition sdn_worker_on_event (self : SdnWorker) (now_ms : Z) (input : SdnWorkerInput) : outcome SdnWorker :=
  match input with
  | SwiExt ext => c ← expect (w_controller self); w_controller_on_event self now_ms c (CtrlExt ext)
  | SwiExtWorker ext => w_data_on_event self now_ms (PlaneExt ext)
  | SwiNet net => w_data_on_event self now_ms (PlaneNet net)
  | SwiBus (BusControl control) => c ← expect (w_controller self); w_controller_on_event self now_ms c (CtrlControl control)
  | SwiBus (BusWorkers event) => w_data_on_event self now_ms (PlaneEvent event)
  | SwiBus (BusWorker _ cross) => w_data_on_event self now_ms (PlaneWorker cross)
  end.

Definition sdn_worker_on_shutdown (self : SdnWorker) (now_ms : Z) : SdnWorker :=
  if w_shutdown self then self
  else mkSdnWorker (tick_ms self) ((λ c, controller_on_shutdown c now_ms) <$> w_controller self) (plane_on_shutdown (w_data self) now_ms) true
         (last_tick self).

Definition process_controller_out (self : SdnWorker) (now_ms : Z) (out : ControllerOutput UserData SE TW Encryptor Decryptor)
    : outcome (SdnWorker * SdnWorkerOutput) :=
  match out with
  | CtrlOutExt out => Done (self, SwoExt out)
  | CtrlOutEvent event =>
      match logic_event_dest event with
      | DestBroadcast | DestWorker _ => Done (self, SwoBus (BusWorkers event))
      | DestAny => self ← w_data_on_event self now_ms (PlaneEvent event); Done (self, SwoContinue)
      end
  | CtrlOnResourceEmpty => Done (self, SwoContinue)
  end.

Definition process_data_out (self : SdnWorker) (now_ms : Z) (out : PlaneOutput UserData NodeAddr SC SE TC) : outcome (SdnWorker * SdnWorkerOutput) :=
  match out with
  | OutExt ext => Done (self, SwoExtWorker ext)
  | OutNet out => Done (self, SwoNet out)
  | OutLogic control =>
      match w_controller self with
      | Some c => self ← w_controller_on_event self now_ms c (CtrlControl control); Done (self, SwoContinue)
      | None => Done (self, SwoBus (BusControl control))
      end
  | OutCross index cross => Done (self, SwoBus (BusWorker index cross))
  | PlaneOnResourceEmpty => Done (self, SwoContinue)
  | PlaneContinue => Done (self, SwoContinue)
  end.

(** What the task switcher polls, with what the planes' own switchers do. *)
Inductive WorkerTask :=
| WTaskController (tasks : list ControllerTask)
| WTaskData (tasks : list PlaneTask)
| WTaskControllerEmpty
| WTaskDataEmpty.

Fixpoint pop_output2 (schedule : list WorkerTask) (self : SdnWorker) (now : Z) : outcome (SdnWorker * option SdnWorkerOutput) :=
  match schedule with
  | [] => Done (self, None)
  | WTaskController tasks :: schedule =>
      match w_controller self with
      | Some c =>
          r ← controller_pop_output next_u64 requesters responder order tasks c now;
          let self := with_w_controller self r.1 in
          match r.2 with
          | Some out => r ← process_controller_out self now out; Done (r.1, Some r.2)
          | None => pop_output2 schedule self now
          end
      | None => pop_output2 schedule self now
      end
  | WTaskData tasks :: schedule =>
      r ← plane_pop_output order tasks (w_data self) now;
      let self := with_w_data self r.1 in
      match r.2 with
      | Some out => r ← process_data_out self now out; Done (r.1, Some r.2)
      | None => pop_output2 schedule self now
      end
  | WTaskControllerEmpty :: _ => r ← process_controller_out self now CtrlOnResourceEmpty; Done (r.1, Some r.2)
  | WTaskDataEmpty :: _ => r ← process_data_out self now PlaneOnResourceEmpty; Done (r.1, Some r.2)
  end.

(** ** Facts *)

(** A tick comes through at most once in [tick_ms]. *)
Lemma ticks_are_spaced (self : SdnWorker) (last now : Z) :
  last_tick self = Some last → 0 ≤ last + tick_ms self < 2 ^ 64 → now < last + tick_ms self → sdn_worker_on_tick self now = Done self.
Proof.
  intros Hl Hw Hn. unfold sdn_worker_on_tick. rewrite Hl. rewrite wrap_small by lia. by rewrite (proj2 (Z.ltb_lt _ _) Hn).
Qed.

(** An event of the controller for the user of one worker leaves on the bus in
    the same way as an event for all workers; any other worker that receives
    it panics. *)
Lemma event_for_worker_panics_others (self other : SdnWorker) (now w : Z) (u : UserData) (e : FeaturesEvent) :
  worker_id (w_data other) ≠ w →
  process_controller_out self now (CtrlOutEvent (LeExtFeaturesEvent w u e)) = Done (self, SwoBus (BusWorkers (LeExtFeaturesEvent w u e))) ∧
  sdn_worker_on_event other now (SwiBus (BusWorkers (LeExtFeaturesEvent w u e))) = Panic.
Proof.
  intros Hw. split; [done|]. cbn. unfold w_data_on_event. cbn [plane_on_event]. by rewrite (proj2 (Z.eqb_neq _ _) Hw).
Qed.

(** Whether a worker has the controller never changes. *)
Definition has_controller (self : SdnWorker) : bool := match w_controller self with Some _ => true | None => false end.

Lemma w_data_keeps self now event self' : w_data_on_event self now event = Done self' → has_controller self' = has_controller self.
Proof. unfold w_data_on_event. destruct (plane_on_event _ _ _ _); [|done]. by intros [= <-]. Qed.

Lemma w_controller_keeps self now c event self' : w_controller_on_event self now c event = Done self' → has_controller self' = true.
Proof. unfold w_controller_on_event. destruct (controller_on_event _ _ _ _ _ _ _); [|done]. by intros [= <-]. Qed.

Lemma on_tick_keeps self now self' : sdn_worker_on_tick self now = Done self' → has_controller self' = has_controller self.
Proof.
  unfold sdn_worker_on_tick, has_controller. destruct (match last_tick self with Some _ => _ | None => _ end); [by intros [= <-]|].
  destruct (w_controller self) as [c|]; [|by intros [= <-]]. destruct (controller_on_tick _ _ _); [|done]. by intros [= <-].
Qed.

Lemma on_event_keeps self now input self' : sdn_worker_on_event self now input = Done self' → has_controller self' = has_controller self.
Proof.
  destruct input as [ext|ext|net|[control|event|w cross]]; cbn [sdn_worker_on_event]; try apply w_data_keeps;
    unfold has_controller at 2; (destruct (w_controller self) as [c|]; [|done]); cbn [expect]; rewrite bind_Done; apply w_controller_keeps.
Qed.

Lemma on_shutdown_keeps self now : has_controller (sdn_worker_on_shutdown self now) = has_controller self.
Proof. unfold sdn_worker_on_shutdown, has_controller. destruct (w_shutdown self); [done|]. cbn. by destruct (w_controller self). Qed.

Lemma controller_out_keeps self now out r : process_controller_out self now out = Done r → has_controller r.1 = has_controller self.
Proof.
  destruct out as [ext|event|]; cbn [process_controller_out]; try (by intros [= <-]).
  destruct (logic_event_dest event); try (by intros [= <-]).
  destruct (w_data_on_event _ _ _) as [s|] eqn:He; [|done]. intros [= <-]. by eapply w_data_keeps.
Qed.

Lemma data_out_keeps self now out r : process_data_out self now out = Done r → has_controller r.1 = has_controller self.
Proof.
  destruct out as [ext|net|control|w cross| |]; cbn [process_data_out]; try by intros [= <-].
  unfold has_controller at 2. destruct (w_controller self) as [c|] eqn:Hc; [|intros [= <-]; unfold has_controller; cbn; by rewrite Hc].
  destruct (w_controller_on_event _ _ _ _) as [s|] eqn:He; [|done]. intros [= <-]. by eapply w_controller_keeps.
Qed.

Lemma pop_output2_keeps schedule : ∀ self now r, pop_output2 schedule self now = Done r → has_controller r.1 = has_controller self.
Proof.
  induction schedule as [|[tasks|tasks| |] schedule IH]; intros self now r; cbn [pop_output2]; [by intros [= <-]| | |by intros [= <-]..].
  - destruct (w_controller self) as [c|] eqn:Hc; [|apply IH]. destruct (controller_pop_output _ _ _ _ _ _ _) as [[c' [out|]]|]; [| |done].
    + rewrite bind_Done. cbn [fst snd]. destruct (process_controller_out _ _ _) as [[s o]|] eqn:He; [|done]. intros [= <-].
      apply controller_out_keeps in He. cbn [fst] in *. rewrite He. unfold has_controller. cbn. by rewrite Hc.
    + rewrite bind_Done. cbn [fst snd]. intros ->%IH. unfold has_controller. cbn. by rewrite Hc.
  - destruct (plane_pop_output _ _ _ _) as [[d [out|]]|]; [| |done]; rewrite bind_Done; cbn [fst snd].
    + destruct (process_data_out _ _ _) as [[s o]|] eqn:He; [|done]. intros [= <-]. apply data_out_keeps in He. cbn [fst] in *. by rewrite He.
    + by intros ->%IH.
Qed.
End worker.
