(* ===== verification/Discovery.v ===== *)
(** * The manual discovery service ([services/manual_discovery.rs])

    Nodes announce their address under tags in the key-value store; the service
    connects to the nodes of the tags it is told to. *)

From S2P Require Import Prelude NodeId ConnId Msg Base Neighbours Hash NodeAddr DhtMsg DataFeature Features Service.

Definition RETRY_CONNECT_MS : Z := 60000.
Definition WAIT_DISCONNECT_MS : Z := 60000.
Definition DISCOVERY_SERVICE_ID : Z := 0.

Section discovery.
Context {UserData Secure SC SE TC TW : Type} `{MultiaddrBytes}.
Context (order : HashOrder).

Abbreviation Output := (ServiceOutput UserData (FeaturesControl NodeAddr) SE TW) (only parsing).
Abbreviation WOutput := (ServiceWorkerOutput UserData (FeaturesControl NodeAddr) FeaturesEvent SC SE TC) (only parsing).

Record ManualDiscoveryService := mkDiscovery {
  md_node_addr : NodeAddr;
  md_queue : list Output;
  md_nodes : gmap NodeId NodeAddr;
  md_conns : gmap NodeId (list ConnId);
  removing_list : gmap NodeId Z;
  last_retry_ms : Z;
  md_shutdown : bool;
}.

Definition kv_control (c : DhtMsg.Control) : Output := SvcOutFeatureControl (CtlDhtKv c).
Definition neighbour_control (c : NeighboursApiControl NodeAddr) : Output := SvcOutFeatureControl (CtlNeighbours c).

Definition discovery_new (node_addr : NodeAddr) (local_tags connect_tags : list Str) : ManualDiscoveryService :=
  mkDiscovery node_addr
    (((λ tag, kv_control (MapCmd (hash_str tag) (MSet 0 (node_addr_to_vec node_addr)))) <$> local_tags) ++
     ((λ tag, kv_control (MapCmd (hash_str tag) MSub)) <$> connect_tags))
    ∅ ∅ ∅ 0 false.

Definition md_push (self : ManualDiscoveryService) (outs : list Output) : ManualDiscoveryService :=
  mkDiscovery (md_node_addr self) (md_queue self ++ outs) (md_nodes self) (md_conns self) (removing_list self) (last_retry_ms self) (md_shutdown self).

(** The nodes that are known and not connected. *)
Definition retry_connects (self : ManualDiscoveryService) : list Output :=
  omap (λ e, match md_conns self !! e.1 with
             | None => Some (neighbour_control (NConnectTo e.2))
             | Some _ => None
             end) (hash_iter (md_nodes self)).

(** [will_disconnect] *)
Definition long_removed (self : ManualDiscoveryService) (now : Z) : list NodeId :=
  fst <$> filter (λ e, wrap 64 (e.2 + WAIT_DISCONNECT_MS) ≤ now ∧ md_nodes self !! e.1 = None) (hash_iter (removing_list self)).

Definition check_nodes (self : ManualDiscoveryService) (now : Z) : ManualDiscoveryService :=
  let self :=
    if wrap 64 (last_retry_ms self + RETRY_CONNECT_MS) <=? now then
      mkDiscovery (md_node_addr self) (md_queue self ++ retry_connects self) (md_nodes self) (md_conns self) (removing_list self) now (md_shutdown self)
    else self in
  let will_disconnect := long_removed self now in
  mkDiscovery (md_node_addr self) (md_queue self ++ ((λ node, neighbour_control (NDisconnectFrom node)) <$> will_disconnect)) (md_nodes self)
    (md_conns self) (remove_all will_disconnect (removing_list self)) (last_retry_ms self) (md_shutdown self).

Definition discovery_on_shared_input (self : ManualDiscoveryService) (now : Z) (input : ServiceSharedInput Secure) : ManualDiscoveryService :=
  let with_conns conns :=
    mkDiscovery (md_node_addr self) (md_queue self) (md_nodes self) conns (removing_list self) (last_retry_ms self) (md_shutdown self) in
  match input with
  | SvcTick _ => check_nodes self now
  | SvcConnection (Connected ctx _) =>
      with_conns (<[ctx_node ctx := default [] (md_conns self !! ctx_node ctx) ++ [ctx_conn ctx]]> (md_conns self))
  | SvcConnection (Disconnected ctx) =>
      let entry := filter (λ conn, conn_eqb conn (ctx_conn ctx) = false) (default [] (md_conns self !! ctx_node ctx)) in
      with_conns (match entry with [] => delete (ctx_node ctx) (md_conns self) | _ => <[ctx_node ctx := entry]> (md_conns self) end)
  | SvcConnection (Stats _ _) => self
  end.

Definition discovery_on_input (self : ManualDiscoveryService) (now : Z) (input : ServiceInput UserData FeaturesEvent SC TC)
    : outcome ManualDiscoveryService :=
  match input with
  | SvcFeatureEvent (EvDhtKv (EvMapEvent _ event)) =>
      match event with
      | EvOnSet _ source value =>
          if source =? addr_node (md_node_addr self) then Done self
          else
            r ← node_addr_from_vec value;
            match r with
            | Some addr =>
                Done (mkDiscovery (md_node_addr self) (md_queue self ++ [neighbour_control (NConnectTo addr)]) (<[source := addr]> (md_nodes self))
                        (md_conns self) (delete source (removing_list self)) (last_retry_ms self) (md_shutdown self))
            | None => Done self
            end
      | EvOnDel _ source =>
          Done (mkDiscovery (md_node_addr self) (md_queue self) (delete source (md_nodes self)) (md_conns self)
                  (match removing_list self !! source with Some _ => removing_list self | None => <[source := now]> (removing_list self) end)
                  (last_retry_ms self) (md_shutdown self))
      | EvOnRelaySelected _ => Done self
      end
  | _ => Done self
  end.

Definition discovery_on_shutdown (self : ManualDiscoveryService) : ManualDiscoveryService :=
  mkDiscovery (md_node_addr self) (md_queue self) (md_nodes self) (md_conns self) (removing_list self) (last_retry_ms self) true.

Definition discovery_is_empty (self : ManualDiscoveryService) : bool :=
  md_shutdown self && match md_queue self with [] => true | _ => false end.

Definition discovery_pop_output (self : ManualDiscoveryService) : ManualDiscoveryService * option Output :=
  match md_queue self with
  | [] => (self, None)
  | out :: rest =>
      (mkDiscovery (md_node_addr self) rest (md_nodes self) (md_conns self) (removing_list self) (last_retry_ms self) (md_shutdown self), Some out)
  end.

#[export] Instance discovery_service : ControllerService UserData NodeAddr Secure SC SE TC TW ManualDiscoveryService := {
  svc_is_service_empty := discovery_is_empty;
  svc_on_shared_input _ := discovery_on_shared_input;
  svc_on_input _ := discovery_on_input;
  svc_on_shutdown _ self _ := discovery_on_shutdown self;
  svc_pop_output2 self _ := discovery_pop_output self;
}.

(** ** The worker *)

Record ForwardingServiceWorker := mkServiceWorker { fsw_queue : list WOutput; fsw_shutdown : bool }.

Definition service_worker_on_input (self : ForwardingServiceWorker) (input : ServiceWorkerInput UserData FeaturesEvent SC TW) : ForwardingServiceWorker :=
  match input with
  | SwControl actor control => mkServiceWorker (fsw_queue self ++ [SwForwardControlToController actor control]) (fsw_shutdown self)
  | SwFeatureEvent event => mkServiceWorker (fsw_queue self ++ [SwForwardFeatureEventToController event]) (fsw_shutdown self)
  | SwFromController _ => self
  end.

Definition service_worker_on_shutdown (self : ForwardingServiceWorker) : ForwardingServiceWorker := mkServiceWorker (fsw_queue self) true.

Definition service_worker_is_empty (self : ForwardingServiceWorker) : bool :=
  fsw_shutdown self && match fsw_queue self with [] => true | _ => false end.

Definition service_worker_pop_output (self : ForwardingServiceWorker) : ForwardingServiceWorker * option WOutput :=
  match fsw_queue self with
  | [] => (self, None)
  | out :: rest => (mkServiceWorker rest (fsw_shutdown self), Some out)
  end.

#[export] Instance forwarding_service_worker : ServiceWorker UserData NodeAddr SC SE TC TW ForwardingServiceWorker := {
  svw_is_service_empty := service_worker_is_empty;
  svw_on_tick _ self _ _ := self;
  svw_on_input _ self _ := service_worker_on_input self;
  svw_on_shutdown _ self _ := service_worker_on_shutdown self;
  svw_pop_output2 self _ := service_worker_pop_output self;
}.

(** ** Facts *)

(** Known nodes are never among those waiting to be disconnected. *)
Definition discovery_ok (self : ManualDiscoveryService) : Prop := ∀ n, is_Some (md_nodes self !! n) → removing_list self !! n = None.

Lemma discovery_on_input_ok self now input self' : discovery_ok self → discovery_on_input self now input = Done self' → discovery_ok self'.
Proof.
  intros Hok. unfold discovery_on_input. destruct input as [| |[| | | |[map [key source value|key source|node]|]| | |]]; try by intros [= <-].
  - destruct (source =? _); [by intros [= <-]|]. destruct (node_addr_from_vec value) as [[addr|]|]; [|by intros [= <-]|done].
    intros [= <-] n. cbn. intros Hn. destruct (decide (n = source)) as [->|Hne]; [apply lookup_delete_eq|].
    rewrite lookup_delete_ne by done. apply Hok. by rewrite lookup_insert_ne in Hn.
  - intros [= <-] n. cbn. intros [a [Hne Hn]%lookup_delete_Some]. specialize (Hok n (ex_intro _ a Hn)).
    destruct (removing_list self !! source); [done|]. by rewrite lookup_insert_ne.
Qed.

Lemma check_nodes_ok self now : discovery_ok self → discovery_ok (check_nodes self now).
Proof.
  intros Hok n Hn. unfold check_nodes in *. cbn [removing_list md_nodes] in *.
  set (self1 := if _ <=? now then _ else self) in *. assert (md_nodes self1 = md_nodes self ∧ removing_list self1 = removing_list self) as [Hn1 Hr1].
  { unfold self1. by destruct (_ <=? now). }
  rewrite Hn1 in Hn. rewrite Hr1, lookup_remove_all. case_decide; [done|]. by apply Hok.
Qed.

(** A node that removes its address under one tag is disconnected a minute
    later, whatever other tags it is found under. *)
Lemma removed_under_one_tag self t now map key source a self' :
  discovery_ok self → md_nodes self !! source = Some a → 0 ≤ t → t + WAIT_DISCONNECT_MS < 2 ^ 64 → t + WAIT_DISCONNECT_MS ≤ now →
  discovery_on_input self t (SvcFeatureEvent (EvDhtKv (EvMapEvent map (EvOnDel key source)))) = Done self' →
  neighbour_control (NDisconnectFrom source) ∈ md_queue (check_nodes self' now).
Proof.
  intros Hok Ha Hlo Hhi Hn. cbn [discovery_on_input]. rewrite (Hok source (ex_intro _ a Ha)). intros [= <-]. unfold check_nodes.
  cbn [md_queue]. set (self1 := if _ <=? now then _ else _).
  assert (md_nodes self1 = delete source (md_nodes self) ∧ removing_list self1 = <[source := t]> (removing_list self)) as [Hn1 Hr1].
  { unfold self1. by destruct (_ <=? now). }
  apply elem_of_app. right. apply list_elem_of_fmap. exists source. split; [done|]. unfold long_removed. rewrite Hn1, Hr1.
  apply list_elem_of_fmap. exists (source, t). split; [done|]. apply list_elem_of_filter. cbn [fst snd]. split.
  - rewrite wrap_small by (unfold WAIT_DISCONNECT_MS in *; lia). split; [done|apply lookup_delete_eq].
  - apply elem_of_hash_iter, lookup_insert_eq.
Qed.

(** A value of less than four bytes under a tag stops every node that looks
    for the tag. *)
Lemma short_value_panics self now map key source value :
  source ≠ addr_node (md_node_addr self) → (length value < 4)%nat →
  discovery_on_input self now (SvcFeatureEvent (EvDhtKv (EvMapEvent map (EvOnSet key source value)))) = Panic.
Proof.
  intros Hs Hl. cbn [discovery_on_input]. rewrite (proj2 (Z.eqb_neq _ _) Hs).
  destruct value as [|? [|? [|? [|? ?]]]]; try done. cbn in Hl. lia.
Qed.
End discovery.

Arguments ManualDiscoveryService UserData SE TW : clear implicits.
Arguments ForwardingServiceWorker UserData SC SE TC : clear implicits.

(** ** What the service wants

    The inputs of the service are its history; what it should know is a fold
    over them. *)

Section wanted.
Context {UserData Secure SC SE TC TW : Type} `{MultiaddrBytes}.
Context (own : NodeAddr) (local_tags connect_tags : list Str).

Inductive DiscoveryEvent :=
| DiShared (now : Z) (input : ServiceSharedInput Secure)
| DiInput (now : Z) (input : ServiceInput UserData FeaturesEvent SC TC).

Abbreviation Output := (ServiceOutput UserData (FeaturesControl NodeAddr) SE TW) (only parsing).
Abbreviation Service := (ManualDiscoveryService UserData SE TW) (only parsing).

(** A run, with its inputs and the outputs taken so far. *)
Inductive discovery_run : list DiscoveryEvent → Service → list Output → Prop :=
| drun_new : discovery_run [] (discovery_new own local_tags connect_tags) []
| drun_shared order evs self outs now input :
    discovery_run evs self outs → discovery_run (evs ++ [DiShared now input]) (discovery_on_shared_input order self now input) outs
| drun_input evs self outs now input self' :
    discovery_run evs self outs → discovery_on_input self now input = Done self' → discovery_run (evs ++ [DiInput now input]) self' outs
| drun_pop evs self outs self' out :
    discovery_run evs self outs → discovery_pop_output self = (self', Some out) → discovery_run evs self' (outs ++ [out]).

(** The addresses announced under the tags, by node. *)
Definition announce (m : gmap NodeId NodeAddr) (ev : DiscoveryEvent) : gmap NodeId NodeAddr :=
  match ev with
  | DiInput _ (SvcFeatureEvent (EvDhtKv (EvMapEvent _ (EvOnSet _ source value)))) =>
      if source =? addr_node own then m
      else match node_addr_from_vec value with Done (Some a) => <[source := a]> m | _ => m end
  | DiInput _ (SvcFeatureEvent (EvDhtKv (EvMapEvent _ (EvOnDel _ source)))) => delete source m
  | _ => m
  end.
Definition announced (evs : list DiscoveryEvent) : gmap NodeId NodeAddr := foldl announce ∅ evs.

(** The connections that are up. *)
Definition links_after (l : list (NodeId * ConnId)) (ev : DiscoveryEvent) : list (NodeId * ConnId) :=
  match ev with
  | DiShared _ (SvcConnection (Connected ctx _)) => l ++ [(ctx_node ctx, ctx_conn ctx)]
  | DiShared _ (SvcConnection (Disconnected ctx)) => filter (λ e, ¬ (e.1 = ctx_node ctx ∧ conn_key e.2 = conn_key (ctx_conn ctx))) l
  | _ => l
  end.
Definition live (evs : list DiscoveryEvent) : list (NodeId * ConnId) := foldl links_after [] evs.

(** The removals under a tag, with their times. *)
Definition is_removal (n : NodeId) (t : Z) (ev : DiscoveryEvent) : Prop :=
  ∃ map key, ev = DiInput t (SvcFeatureEvent (EvDhtKv (EvMapEvent map (EvOnDel key n)))).

Record discovery_inv (evs : list DiscoveryEvent) (self : Service) : Prop := {
  di_own : md_node_addr self = own;
  di_nodes : md_nodes self = announced evs;
  di_conns : ∀ n, default [] (md_conns self !! n) = snd <$> filter (λ e, e.1 = n) (live evs);
  di_some : ∀ n l, md_conns self !! n = Some l → l ≠ [];
  di_removing : ∀ n t, removing_list self !! n = Some t → ∃ ev, ev ∈ evs ∧ is_removal n t ev;
}.

Lemma live_snoc evs ev : live (evs ++ [ev]) = links_after (live evs) ev.
Proof. unfold live. by rewrite foldl_snoc. Qed.
Lemma announced_snoc evs ev : announced (evs ++ [ev]) = announce (announced evs) ev.
Proof. unfold announced. by rewrite foldl_snoc. Qed.

(** Fields that stay: the history grows by an input that is not about them. *)
Lemma discovery_inv_snoc evs ev self self' :
  discovery_inv evs self → md_node_addr self' = md_node_addr self → md_nodes self' = announce (md_nodes self) ev →
  (∀ n, default [] (md_conns self' !! n) = snd <$> filter (λ e, e.1 = n) (links_after (live evs) ev)) →
  (∀ n l, md_conns self' !! n = Some l → l ≠ []) →
  (∀ n t, removing_list self' !! n = Some t → removing_list self !! n = Some t ∨ is_removal n t ev) →
  discovery_inv (evs ++ [ev]) self'.
Proof.
  intros [Ho Hn Hc Hs Hr] Ho' Hn' Hc' Hs' Hr'. split.
  - congruence.
  - by rewrite announced_snoc, Hn', Hn.
  - intros n. by rewrite live_snoc.
  - done.
  - intros n t Ht. destruct (Hr' n t Ht) as [Hold|Hnew]; [|exists ev; split; [apply elem_of_snoc|done]].
    destruct (Hr n t Hold) as (ev' & Hin & He). exists ev'. split; [apply elem_of_app; by left|done].
Qed.

Lemma filter_live (l : list (NodeId * ConnId)) n conn m :
  snd <$> filter (λ e, e.1 = m) (filter (λ e : NodeId * ConnId, ¬ (e.1 = n ∧ conn_key e.2 = conn_key conn)) l) =
  if decide (m = n) then filter (λ c, conn_eqb c conn = false) (snd <$> filter (λ e, e.1 = m) l) else snd <$> filter (λ e, e.1 = m) l.
Proof.
  induction l as [|[a c] l IH]; [by case_decide|]. rewrite !filter_cons. cbn [fst snd].
  destruct (decide (a = n ∧ conn_key c = conn_key conn)) as [[-> Hc]|Hne].
  - rewrite (decide_False (P := ¬ _)) by tauto. rewrite IH. destruct (decide (m = n)) as [->|Hmn].
    + rewrite (decide_True (P := n = n)) by done. rewrite fmap_cons, filter_cons, decide_False; [done|]. rewrite conn_eqb_key_false. tauto.
    + by rewrite (decide_False (P := n = m)) by done.
  - rewrite (decide_True (P := ¬ _)) by done. rewrite filter_cons. cbn [fst]. destruct (decide (a = m)) as [->|Ham]; [|apply IH].
    rewrite !fmap_cons, IH. destruct (decide (m = n)) as [->|Hmn]; [|done]. rewrite filter_cons, decide_True; [done|]. rewrite conn_eqb_key_false. tauto.
Qed.

Lemma check_nodes_fields order (self : Service) now :
  md_node_addr (check_nodes order self now) = md_node_addr self ∧ md_nodes (check_nodes order self now) = md_nodes self ∧
  md_conns (check_nodes order self now) = md_conns self ∧
  ∀ n t, removing_list (check_nodes order self now) !! n = Some t → removing_list self !! n = Some t.
Proof.
  unfold check_nodes. cbn [md_node_addr md_nodes md_conns removing_list]. case_match; cbn [md_node_addr md_nodes md_conns removing_list]; (split; [done|]; split; [done|]; split; [done|]);
    intros n t; rewrite lookup_remove_all; case_decide; done.
Qed.

Lemma discovery_shared_inv order evs (self : Service) now (input : ServiceSharedInput Secure) :
  discovery_inv evs self → discovery_inv (evs ++ [DiShared now input]) (discovery_on_shared_input order self now input).
Proof.
  intros Hinv. pose proof Hinv as [Ho Hn Hc Hs Hr]. destruct input as [tick|[ctx sec|ctx stats|ctx]]; cbn [discovery_on_shared_input].
  - destruct (check_nodes_fields order self now) as (H1 & H2 & H3 & H4). apply (discovery_inv_snoc evs _ self); [done..| | |by left; apply H4]; by rewrite H3.
  - apply (discovery_inv_snoc evs _ self); [done..| | |by left]; cbn [md_conns links_after].
    + intros n. rewrite filter_app, fmap_app, <- Hc. rewrite filter_cons. cbn [fst]. rewrite filter_nil. destruct (decide (ctx_node ctx = n)) as [<-|Hne].
      * by rewrite lookup_insert_eq.
      * rewrite lookup_insert_ne by done. by rewrite app_nil_r.
    + intros n l [[_ <-]|[_ Hl]]%lookup_insert_Some; [|by eapply Hs]. by destruct (default [] (md_conns self !! ctx_node ctx)).
  - by apply (discovery_inv_snoc evs _ self); [..|left].
  - apply (discovery_inv_snoc evs _ self); [done..| | |by left]; cbn [md_conns links_after].
    + intros n. rewrite filter_live, <- Hc. destruct (decide (n = ctx_node ctx)) as [->|Hne].
      * destruct (filter _ (default [] (md_conns self !! ctx_node ctx))); [by rewrite lookup_delete_eq|by rewrite lookup_insert_eq].
      * case_match; [by rewrite lookup_delete_ne by done|by rewrite lookup_insert_ne by done].
    + intros n l. case_match; [intros [_ Hl]%lookup_delete_Some; by eapply Hs|]. intros [[_ <-]|[_ Hl]]%lookup_insert_Some; [done|by eapply Hs].
Qed.

Lemma discovery_input_inv evs (self self' : Service) now (input : ServiceInput UserData FeaturesEvent SC TC) :
  discovery_inv evs self → discovery_on_input self now input = Done self' → discovery_inv (evs ++ [DiInput now input]) self'.
Proof.
  intros Hinv. pose proof Hinv as [Ho Hn Hc Hs Hr].
  assert (∀ ev, md_nodes self = announce (md_nodes self) ev → links_after (live evs) ev = live evs → discovery_inv (evs ++ [ev]) self) as Hsame.
  { intros ev Ha Hl. apply (discovery_inv_snoc evs ev self); [done..| |done|by left]. by rewrite Hl. }
  destruct input as [actor control|msg|[| | | |[map [key source value|key source|node]|key event]| | |]]; cbn [discovery_on_input]; try (intros [= <-]; by apply Hsame).
  - rewrite Ho. destruct (source =? addr_node own) eqn:Hsrc; [intros [= <-]; apply Hsame; cbn; by rewrite ?Hsrc|].
    destruct (node_addr_from_vec value) as [[addr|]|] eqn:Hv; [|intros [= <-]; apply Hsame; cbn; by rewrite ?Hsrc, ?Hv|done].
    intros [= <-]. apply (discovery_inv_snoc evs _ self); [done|cbn; congruence|cbn; by rewrite Hsrc, Hv|done|done|].
    cbn. intros n t [_ Ht]%lookup_delete_Some. by left.
  - intros [= <-]. apply (discovery_inv_snoc evs _ self); [done..|]. cbn. intros n t Ht.
    destruct (removing_list self !! source); [by left|]. apply lookup_insert_Some in Ht as [[<- <-]|[_ Ht]]; [right; by exists map, key|by left].
Qed.

Lemma discovery_run_inv evs self outs : discovery_run evs self outs → discovery_inv evs self.
Proof.
  induction 1 as [|order evs self outs now input _ IH|evs self outs now input self' _ IH Hin|evs self outs self' out _ IH Hp].
  - split; [done..| | |]; intros n; cbn; rewrite ?lookup_empty; done.
  - by apply discovery_shared_inv.
  - by eapply discovery_input_inv.
  - unfold discovery_pop_output in Hp. destruct (md_queue self); [done|]. injection Hp as <- _. destruct IH. by split.
Qed.

(** The service asks for its own announcements, which stay its first outputs. *)
Lemma discovery_run_announces evs self outs : discovery_run evs self outs →
  ∃ rest, outs ++ md_queue self = md_queue (discovery_new own local_tags connect_tags : Service) ++ rest.
Proof.
  induction 1 as [|order evs self outs now input _ [rest IH]|evs self outs now input self' _ [rest IH] Hin|evs self outs self' out _ [rest IH] Hp].
  - exists []. by rewrite app_nil_r.
  - assert (∃ more, md_queue (discovery_on_shared_input order self now input) = md_queue self ++ more) as [more Hm].
    { destruct input as [tick|[ctx sec|ctx stats|ctx]]; cbn [discovery_on_shared_input]; try (exists []; by rewrite app_nil_r).
      unfold check_nodes. cbn [md_queue]. case_match; cbn [md_queue]; rewrite <- ?app_assoc; by eexists. }
    exists (rest ++ more). by rewrite Hm, app_assoc, IH, app_assoc.
  - assert (∃ more, md_queue self' = md_queue self ++ more) as [more Hm].
    { unfold discovery_on_input in Hin. repeat case_match; simplify_eq; try done; try (exists []; by rewrite app_nil_r).
      destruct (node_addr_from_vec _) as [[addr|]|]; simplify_eq/=; try done; [by eexists|exists []; by rewrite app_nil_r]. }
    exists (rest ++ more). by rewrite Hm, app_assoc, IH, app_assoc.
  - unfold discovery_pop_output in Hp. destruct (md_queue self) as [|o q]; [done|]. injection Hp as <- <-. exists rest. cbn [md_queue]. by rewrite <- app_assoc.
Qed.

(** The outputs of a tick. *)
Lemma tick_outputs order (self : Service) now :
  ∃ new, md_queue (check_nodes order self now) = md_queue self ++ new ∧
    (∀ addr, neighbour_control (NConnectTo addr) ∈ new ↔
      wrap 64 (last_retry_ms self + RETRY_CONNECT_MS) ≤ now ∧ ∃ n, md_nodes self !! n = Some addr ∧ md_conns self !! n = None) ∧
    (∀ n, neighbour_control (NDisconnectFrom n) ∈ new ↔
      md_nodes self !! n = None ∧ ∃ t, removing_list self !! n = Some t ∧ wrap 64 (t + WAIT_DISCONNECT_MS) ≤ now).
Proof.
  assert (∀ addr, neighbour_control (NConnectTo addr) ∈ retry_connects order self ↔ ∃ n, md_nodes self !! n = Some addr ∧ md_conns self !! n = None) as Hretry.
  { intros addr. unfold retry_connects. rewrite list_elem_of_omap. split.
    - intros ([n a] & Hin & Ho). apply elem_of_hash_iter in Hin. cbn in Ho. destruct (md_conns self !! n) eqn:Hc; [done|]. injection Ho as <-. by exists n.
    - intros (n & Hn & Hc). exists (n, addr). split; [by apply elem_of_hash_iter|]. cbn. by rewrite Hc. }
  assert (∀ n, n ∈ long_removed order self now ↔ md_nodes self !! n = None ∧ ∃ t, removing_list self !! n = Some t ∧ wrap 64 (t + WAIT_DISCONNECT_MS) ≤ now) as Hgone.
  { intros n. unfold long_removed. rewrite list_elem_of_fmap. split.
    - intros ([m t] & -> & [[Ht Hm] Hin]%list_elem_of_filter). apply elem_of_hash_iter in Hin. cbn in *. split; [done|]. by exists t.
    - intros (Hn & t & Hr & Ht). exists (n, t). split; [done|]. apply list_elem_of_filter. split; [done|]. by apply elem_of_hash_iter. }
  assert (∀ (l : list NodeId) addr, neighbour_control (NConnectTo addr) ∉ (λ node, neighbour_control (SE := SE) (TW := TW) (UserData := UserData) (NDisconnectFrom node)) <$> l) as Hno1.
  { intros l addr Hin. apply list_elem_of_fmap in Hin as (? & [=] & _). }
  assert (∀ n, neighbour_control (NDisconnectFrom n) ∉ retry_connects order self) as Hno2.
  { intros n Hin. apply list_elem_of_omap in Hin as ([m a] & _ & Ho). cbn in Ho. by destruct (md_conns self !! m). }
  assert (∀ n (l : list NodeId), neighbour_control (NDisconnectFrom n) ∈ (λ node, neighbour_control (SE := SE) (TW := TW) (UserData := UserData) (NDisconnectFrom node)) <$> l ↔ n ∈ l) as Hmem.
  { intros n l. rewrite list_elem_of_fmap. split; [by intros (? & [= ->] & ?)|intros Hn; by exists n]. }
  unfold check_nodes. cbn [md_queue]. destruct (Z.leb_spec (wrap 64 (last_retry_ms self + RETRY_CONNECT_MS)) now) as [Hle|Hgt]; cbn [md_queue].
  - rewrite <- app_assoc. eexists. split; [done|]. split; intros x; rewrite elem_of_app.
    + rewrite Hretry. split; [intros [Hx|Hx%Hno1]; [done|done]|]. intros [_ Hx]. by left.
    + rewrite Hmem. rewrite <- Hgone. split; [intros [Hx%Hno2|Hx]; done|]. intros Hx. by right.
  - eexists. split; [done|]. split; intros x.
    + split; [by intros ?%Hno1|lia].
    + by rewrite Hmem, Hgone.
Qed.

(** C35. Tagged nodes find each other: the service announces its address under
    its tags, an address that is announced under a tag it looks for is asked to
    be connected at once, and in every state it asks at each retry exactly for
    the nodes that are announced and have no connection, and lets go only of
    nodes that are not announced and withdrew a minute ago or earlier. *)
Theorem discovery_follows_tags (evs : list DiscoveryEvent) (self : Service) (outs : list Output) :
  discovery_run evs self outs →
  (∀ tag, tag ∈ local_tags → kv_control (MapCmd (hash_str tag) (MSet 0 (node_addr_to_vec own))) ∈ outs ++ md_queue self) ∧
  (∀ tag, tag ∈ connect_tags → kv_control (MapCmd (hash_str tag) MSub) ∈ outs ++ md_queue self) ∧
  (∀ (peer : NodeAddr) map key now, u32 (addr_node peer) → addr_node peer ≠ addr_node own →
    multiaddr_try_from (multiaddr_to_vec (multiaddr peer)) = Some (multiaddr peer) →
    ∃ self', discovery_on_input (SC := SC) (TC := TC) self now (SvcFeatureEvent (EvDhtKv (EvMapEvent map (EvOnSet key (addr_node peer) (node_addr_to_vec peer))))) = Done self' ∧
      md_queue self' = md_queue self ++ [neighbour_control (NConnectTo peer)]) ∧
  (∀ order now tick, ∃ new,
    md_queue (discovery_on_shared_input order self now (SvcTick tick : ServiceSharedInput Secure)) = md_queue self ++ new ∧
    (∀ addr, neighbour_control (NConnectTo addr) ∈ new ↔
      wrap 64 (last_retry_ms self + RETRY_CONNECT_MS) ≤ now ∧ ∃ n, announced evs !! n = Some addr ∧ ∀ conn, (n, conn) ∉ live evs) ∧
    (∀ n, neighbour_control (NDisconnectFrom n) ∈ new →
      announced evs !! n = None ∧ ∃ ev t, ev ∈ evs ∧ is_removal n t ev ∧ wrap 64 (t + WAIT_DISCONNECT_MS) ≤ now)).
Proof.
  intros Hrun. pose proof (discovery_run_inv _ _ _ Hrun) as [Ho Hn Hc Hs Hr]. destruct (discovery_run_announces _ _ _ Hrun) as [rest Hq].
  assert (∀ n, md_conns self !! n = None ↔ ∀ conn, (n, conn) ∉ live evs) as Hnone.
  { intros n. specialize (Hc n). split.
    - intros Hm conn Hin. rewrite Hm in Hc. cbn in Hc. assert (conn ∈ snd <$> filter (λ e : NodeId * ConnId, e.1 = n) (live evs)) as Hx.
      { apply list_elem_of_fmap. exists (n, conn). split; [done|]. by apply list_elem_of_filter. }
      rewrite <- Hc in Hx. by apply elem_of_nil in Hx.
    - intros Hall. destruct (md_conns self !! n) as [l|] eqn:Hl; [|done]. exfalso. destruct l as [|c l]; [by apply (Hs n [])|]. cbn in Hc.
      assert (c ∈ snd <$> filter (λ e : NodeId * ConnId, e.1 = n) (live evs)) as Hx by (rewrite <- Hc; left).
      apply list_elem_of_fmap in Hx as ([m c'] & -> & [Hm Hin]%list_elem_of_filter). cbn in Hm. subst m. by apply (Hall c'). }
  split; [|split; [|split]].
  - intros tag Htag. rewrite Hq. apply elem_of_app. left. cbn [discovery_new md_queue]. apply elem_of_app. left. apply list_elem_of_fmap. by exists tag.
  - intros tag Htag. rewrite Hq. apply elem_of_app. left. cbn [discovery_new md_queue]. apply elem_of_app. right. apply list_elem_of_fmap. by exists tag.
  - intros peer map key now Hu Hne Hm. cbn [discovery_on_input]. rewrite Ho, (proj2 (Z.eqb_neq _ _) Hne), node_addr_roundtrip by done. by eexists.
  - intros order now tick. destruct (tick_outputs order self now) as (new & Hnew & Hconnect & Hgone). exists new. split; [done|]. split.
    + intros addr. rewrite Hconnect, Hn. split; intros [Hw (n & Ha & Hx)]; (split; [done|]); exists n; (split; [done|]); by apply Hnone.
    + intros n Hin. apply Hgone in Hin as (Ha & t & Ht & Hw). rewrite <- Hn. split; [done|]. destruct (Hr n t Ht) as (ev & Hev & Hrem). by exists ev, t.
Qed.
End wanted.

(** ** A node under a tag

    Node 2 looks for a tag, node 1 is announced under it; after a minute
    without a connection it is asked for again. *)

#[local] Existing Instance demo_multiaddr_bytes.

Definition demo_peer : NodeAddr := mkNodeAddr 1 demo_multiaddr.
Definition demo_set : ServiceInput unit FeaturesEvent unit unit :=
  SvcFeatureEvent (EvDhtKv (EvMapEvent (hash_str [117]) (EvOnSet 0 1 (node_addr_to_vec demo_peer)))).
Definition demo_looking : ManualDiscoveryService unit unit unit := discovery_new (mkNodeAddr 2 []) [[116]] [[117]].
Definition demo_found : ManualDiscoveryService unit unit unit :=
  match discovery_on_input demo_looking 500 demo_set with Done s => s | Panic => demo_looking end.

Lemma discovery_follows_tags_witness :
  ∃ new, md_queue (discovery_on_shared_input canonical_order demo_found 60000 (SvcTick 60 : ServiceSharedInput unit)) = md_queue demo_found ++ new ∧
    neighbour_control (NConnectTo demo_peer) ∈ new.
Proof.
  assert (discovery_run (Secure := unit) (mkNodeAddr 2 []) [[116]] [[117]] [DiInput 500 demo_set] demo_found []) as Hrun.
  { apply (drun_input _ _ _ [] demo_looking); [constructor|]. vm_compute. reflexivity. }
  destruct (discovery_follows_tags (Secure := unit) (mkNodeAddr 2 []) [[116]] [[117]] _ _ _ Hrun) as (_ & _ & _ & Htick).
  destruct (Htick canonical_order 60000 60) as (new & Hq & Hc & _). exists new. split; [exact Hq|]. apply Hc. split; [by vm_compute|].
  exists 1. split; [vm_compute; reflexivity|]. intros conn Hin. vm_compute in Hin. inversion Hin.
Defined.
