(* ===== verification/DiscoveryNet.v ===== *)
(** * Discovery over the key-value store ([services/manual_discovery.rs],
    [features/dht_kv/], [controller_plane.rs])

    Nodes with the discovery service, each a user of its own part of the
    key-value store, over a network that may lose, repeat, reorder and misroute
    the commands of the store: behind every address a service asks to connect
    to there is a value that another node wrote under a tag that is looked for,
    the announcement of that node unless some other user wrote it. *)

From S2P Require Import Prelude NodeId ConnId Route Msg Base Neighbours Hash NodeAddr DhtMsg DhtServer DhtClient Dht DhtNet DataFeature Features Service Discovery.

(** How a node is started: its address, the tags it is found under and those
    it looks for. *)
Record Profile := mkProfile { pf_addr : NodeAddr; pf_local : list Str; pf_connect : list Str }.

#[local] Opaque hash_str.

Section swarm.
Context {UserData Secure SC SE TC TW : Type} `{EqDecision UserData} `{MultiaddrBytes}.
Context (profile : NodeSession → Profile).

Abbreviation DService := (ManualDiscoveryService UserData SE TW) (only parsing).
Abbreviation DOutput := (ServiceOutput UserData (FeaturesControl NodeAddr) SE TW) (only parsing).

(** The nodes with their services, what these asked the neighbours to be
    connected to, and what users other than the services wrote. *)
Record swarm := mkSwarm {
  sw_net : net UserData;
  sw_services : gmap NodeSession DService;
  sw_asked : list (NodeSession * NodeAddr);
  sw_foreign : list write_op;
}.

Definition swarm_empty : swarm := mkSwarm net_empty ∅ [] [].

(** The service as a user of the store. *)
Definition discovery_actor : FeatureControlActor UserData := ActorService DISCOVERY_SERVICE_ID.

Definition service_new (s : NodeSession) : DService := discovery_new (pf_addr (profile s)) (pf_local (profile s)) (pf_connect (profile s)).

(** A node is started with its own address, and with a multiaddress that the
    crate reads back. *)
Definition profile_ok (s : NodeSession) : Prop :=
  let a := pf_addr (profile s) in addr_node a = s.1 ∧ u32 (addr_node a) ∧ multiaddr_try_from (multiaddr_to_vec (multiaddr a)) = Some (multiaddr a).

Definition with_kv (X : swarm) (N : net UserData) : swarm := mkSwarm N (sw_services X) (sw_asked X) (sw_foreign X).
Definition with_service (X : swarm) (s : NodeSession) (svc : DService) : swarm := mkSwarm (sw_net X) (<[s := svc]> (sw_services X)) (sw_asked X) (sw_foreign X).
Definition with_foreign (X : swarm) (ws : list write_op) : swarm := mkSwarm (sw_net X) (sw_services X) (sw_asked X) (sw_foreign X ++ ws).

(** The store on its own: it ticks, receives and sends. *)
Inductive kv_step (N : net UserData) : net UserData → Prop :=
| kv_tick s n order now : nodes N !! s = Some n → kv_step N (put_node N s (internal_on_tick order n now))
| kv_receive s n order now cmd : nodes N !! s = Some n → cmd ∈ sent N → kv_step N (put_node N s (internal_on_remote order n now cmd))
| kv_send s n n' rule cmd :
    nodes N !! s = Some n → internal_pop_action n = (n', Some (InternalRemote rule cmd)) →
    kv_step N (mkNet (<[s := n']> (nodes N)) (sent N ++ [cmd]) (told N) (written N) (subscribed N)).

(** A user's control, and an event told to a user. *)
Definition kv_controlled (N : net UserData) (s : NodeSession) (now : Z) (actor : FeatureControlActor UserData) (c : DhtMsg.Control) (n' : DhtKvInternal UserData)
    : net UserData :=
  mkNet (<[s := n']> (nodes N)) (sent N) (told N) (written N ++ control_write s now c) (subscribed N ++ control_sub s actor c).
Definition kv_told (N : net UserData) (s : NodeSession) (actor : FeatureControlActor UserData) (event : Event) (n' : DhtKvInternal UserData) : net UserData :=
  mkNet (<[s := n']> (nodes N)) (sent N) (told N ++ [(s, actor, event)]) (written N) (subscribed N).

Inductive swarm_step (X : swarm) : swarm → Prop :=
| sw_join s : profile_ok s → nodes (sw_net X) !! s = None →
    swarm_step X (mkSwarm (put_node (sw_net X) s (internal_new s)) (<[s := service_new s]> (sw_services X)) (sw_asked X) (sw_foreign X))
| sw_leave s :
    swarm_step X (mkSwarm (mkNet (delete s (nodes (sw_net X))) (sent (sw_net X)) (told (sw_net X)) (written (sw_net X)) (subscribed (sw_net X)))
                    (delete s (sw_services X)) (sw_asked X) (sw_foreign X))
| sw_kv N' : kv_step (sw_net X) N' → swarm_step X (with_kv X N')
| sw_user s n order now actor c n' :
    nodes (sw_net X) !! s = Some n → actor ≠ discovery_actor → internal_on_local order n now actor c = Done n' →
    swarm_step X (with_foreign (with_kv X (kv_controlled (sw_net X) s now actor c n')) (control_write s now c))
| sw_tell_user s n n' actor event :
    nodes (sw_net X) !! s = Some n → internal_pop_action n = (n', Some (InternalLocal actor event)) → actor ≠ discovery_actor →
    swarm_step X (with_kv X (kv_told (sw_net X) s actor event n'))
| sw_tell_service s n n' event svc now svc' :
    nodes (sw_net X) !! s = Some n → internal_pop_action n = (n', Some (InternalLocal discovery_actor event)) →
    sw_services X !! s = Some svc → discovery_on_input (SC := SC) (TC := TC) svc now (SvcFeatureEvent (EvDhtKv event)) = Done svc' →
    swarm_step X (with_service (with_kv X (kv_told (sw_net X) s discovery_actor event n')) s svc')
| sw_shared s svc order now (input : ServiceSharedInput Secure) : sw_services X !! s = Some svc →
    swarm_step X (with_service X s (discovery_on_shared_input order svc now input))
| sw_control s n order now svc svc' c n' :
    nodes (sw_net X) !! s = Some n → sw_services X !! s = Some svc → discovery_pop_output svc = (svc', Some (kv_control c)) →
    internal_on_local order n now discovery_actor c = Done n' →
    swarm_step X (with_service (with_kv X (kv_controlled (sw_net X) s now discovery_actor c n')) s svc')
| sw_connect s svc svc' a :
    sw_services X !! s = Some svc → discovery_pop_output svc = (svc', Some (neighbour_control (NConnectTo a))) →
    swarm_step X (mkSwarm (sw_net X) (<[s := svc']> (sw_services X)) (sw_asked X ++ [(s, a)]) (sw_foreign X))
| sw_disconnect s svc svc' n :
    sw_services X !! s = Some svc → discovery_pop_output svc = (svc', Some (neighbour_control (NDisconnectFrom n))) →
    swarm_step X (with_service X s svc').

Inductive swarm_reachable : swarm → Prop :=
| swarm_start : swarm_reachable swarm_empty
| swarm_next X X' : swarm_reachable X → swarm_step X X' → swarm_reachable X'.

(** ** Facts *)

Definition looks_for (s : NodeSession) (map : Map) : Prop := ∃ tag, tag ∈ pf_connect (profile s) ∧ map = hash_str tag.

(** The announcement of a node: its own address, under a tag of its own. *)
Definition found_under (s : NodeSession) (map : Map) (data : Bytes) : Prop :=
  profile_ok s ∧ (∃ tag, tag ∈ pf_local (profile s) ∧ map = hash_str tag) ∧ data = node_addr_to_vec (pf_addr (profile s)).

(** Another node wrote [a] where [s] looks; [ws] was written, [fs] of it by
    users other than the services. *)
Definition wanted (ws fs : list write_op) (s : NodeSession) (a : NodeAddr) : Prop :=
  ∃ w, w ∈ ws ∧ (w_source w).1 ≠ s.1 ∧ looks_for s (w_map w) ∧ node_addr_from_vec (w_data w) = Done (Some a) ∧
    (w ∈ fs ∨ found_under (w_source w) (w_map w) (w_data w) ∧ a = pf_addr (profile (w_source w))).

Section facts.
Context (ws fs : list write_op).

Definition dout_ok (s : NodeSession) (out : DOutput) : Prop :=
  match out with
  | SvcOutFeatureControl (CtlDhtKv (MapCmd map (MSet _ data))) => found_under s map data
  | SvcOutFeatureControl (CtlDhtKv (MapCmd map MSub)) => looks_for s map
  | SvcOutFeatureControl (CtlNeighbours (NConnectTo a)) => wanted ws fs s a
  | _ => True
  end.

Record service_ok (s : NodeSession) (svc : DService) : Prop := {
  sk_profile : profile_ok s;
  sk_addr : md_node_addr svc = pf_addr (profile s);
  sk_queue : Forall (dout_ok s) (md_queue svc);
  sk_nodes : ∀ n a, md_nodes svc !! n = Some a → wanted ws fs s a;
}.

Lemma service_new_ok s : profile_ok s → service_ok s (service_new s).
Proof.
  intros Hp. split; [done|done| |intros n a; cbn; by rewrite lookup_empty]. cbn.
  apply Forall_app. split; apply Forall_fmap, Forall_forall; intros tag Ht; cbn; [split; [done|split; [|done]]|]; by exists tag.
Qed.

Lemma service_pop_ok s svc svc' out : service_ok s svc → discovery_pop_output svc = (svc', Some out) → service_ok s svc' ∧ dout_ok s out.
Proof.
  intros [Hp Ha Hq Hn]. unfold discovery_pop_output. destruct (md_queue svc) as [|o q]; [done|]. intros [= <- <-].
  apply Forall_cons in Hq as [Ho Hq]. split; [by split|done].
Qed.

Lemma check_nodes_ok_queue order s svc now : service_ok s svc → service_ok s (check_nodes order svc now).
Proof.
  intros [Hp Ha Hq Hn]. destruct (check_nodes_fields order svc now) as (Ha' & Hn' & _ & _). split; [done|by rewrite Ha'| |by rewrite Hn'].
  assert (Forall (dout_ok s) (retry_connects order svc)) as Hr.
  { apply Forall_forall. intros out Hin. apply list_elem_of_omap in Hin as ([n a] & Hin%elem_of_hash_iter & Ho). cbn in Ho.
    destruct (md_conns svc !! n); [done|]. injection Ho as <-. by apply (Hn n). }
  unfold check_nodes. cbn [md_queue]. apply Forall_app. split; [case_match; cbn [md_queue]; [by apply Forall_app|done]|].
  by apply Forall_fmap, Forall_true.
Qed.

Lemma service_shared_ok order s svc now (input : ServiceSharedInput Secure) : service_ok s svc → service_ok s (discovery_on_shared_input order svc now input).
Proof.
  intros Hok. destruct input as [tick|[ctx sec|ctx st|ctx]]; cbn [discovery_on_shared_input]; [by apply check_nodes_ok_queue|..]; [|done|]; destruct Hok; by split.
Qed.

Lemma service_input_ok s svc now event svc' :
  service_ok s svc →
  (∀ map key n d a, event = EvMapEvent map (EvOnSet key n d) → n ≠ s.1 → node_addr_from_vec d = Done (Some a) → wanted ws fs s a) →
  discovery_on_input (SC := SC) (TC := TC) svc now (SvcFeatureEvent (EvDhtKv event)) = Done svc' → service_ok s svc'.
Proof.
  intros [Hp Ha Hq Hn] Hev. unfold discovery_on_input. destruct event as [map [key n d|key n|node]|map res]; try (intros [= <-]; by split).
  - rewrite Ha, (proj1 Hp). destruct (Z.eqb_spec n s.1) as [->|Hne]; [intros [= <-]; by split|].
    destruct (node_addr_from_vec d) as [[a|]|] eqn:Hd; [|intros [= <-]; by split|done]. pose proof (Hev map key n d a eq_refl Hne Hd) as Hw.
    rewrite bind_Done. intros [= <-]. split; cbn; [done|done|by apply Forall_snoc|].
    intros n' a' [[_ <-]|[_ ?]]%lookup_insert_Some; [done|by eapply Hn].
  - intros [= <-]. split; cbn; [done..|]. intros n' a' [_ ?]%lookup_delete_Some. by eapply Hn.
Qed.
End facts.

(** Nothing written is forgotten. *)
Lemma wanted_mono ws fs ws' fs' s a : ws ⊆ ws' → fs ⊆ fs' → wanted ws fs s a → wanted ws' fs' s a.
Proof. intros Hw Hf (w & Hin & Hne & Hl & Hd & Hc). exists w. split_and!; [by apply Hw|done..|]. destruct Hc as [Hc|Hc]; [left; by apply Hf|by right]. Qed.

Lemma service_ok_mono ws fs ws' fs' s svc : ws ⊆ ws' → fs ⊆ fs' → service_ok ws fs s svc → service_ok ws' fs' s svc.
Proof.
  intros Hw Hf [Hp Ha Hq Hn]. split; [done..| |intros n a Hna; eapply wanted_mono; [done..|by eapply Hn]].
  eapply Forall_impl; [exact Hq|]. intros [|[[]| | | | | | |]| |]; cbn; try done. by apply wanted_mono.
Qed.

Record swarm_ok (X : swarm) : Prop := {
  so_net : dht_reachable (sw_net X);
  so_written : ∀ w, w ∈ written (sw_net X) → found_under (w_source w) (w_map w) (w_data w) ∨ w ∈ sw_foreign X;
  so_subs : ∀ s map, (s, discovery_actor, map) ∈ subscribed (sw_net X) → looks_for s map;
  so_services : ∀ s svc, sw_services X !! s = Some svc → service_ok (written (sw_net X)) (sw_foreign X) s svc;
  so_asked : ∀ s a, (s, a) ∈ sw_asked X → wanted (written (sw_net X)) (sw_foreign X) s a;
}.

(** What the store tells the service. *)
Lemma told_wanted X s map key n d a : swarm_ok X → (s, discovery_actor, EvMapEvent map (EvOnSet key n d)) ∈ told (sw_net X) → n ≠ s.1 →
  node_addr_from_vec d = Done (Some a) → wanted (written (sw_net X)) (sw_foreign X) s a.
Proof.
  intros [HN Hw Hs _ _] Hin Hne Hd. destruct (dht_reachable_written _ HN) as [_ _ Ht]. rewrite Forall_forall in Ht.
  destruct (Ht _ Hin) as [(s' & v & <- & Hwr) Hl%Hs]. cbn [fst snd] in *. eexists. split; [exact Hwr|]. cbn [w_source w_map w_data].
  split_and!; [done..|]. destruct (Hw _ Hwr) as [Hf|Hf]; [right|by left]. split; [done|]. destruct Hf as [(Ha & Hu & Hm) [_ Hdd]]. cbn [w_data w_source] in Hdd, Ha, Hu, Hm.
  subst d. rewrite node_addr_roundtrip in Hd by done. by injection Hd.
Qed.

Lemma kv_step_dht (N N' : net UserData) : kv_step N N' → dht_step N N' ∧ written N' = written N ∧ subscribed N' = subscribed N.
Proof. intros [s n order now Hn|s n order now cmd Hn Hin|s n n' rule cmd Hn Hp]; (split; [|done]); [by apply dht_tick|by apply dht_receive|by eapply dht_send]. Qed.

(** Steps of the store with the services as they are; other users wrote
    [fs]. *)
Lemma swarm_ok_net X N' fs :
  swarm_ok X → dht_step (sw_net X) N' → written (sw_net X) ⊆ written N' →
  (∀ w, w ∈ written N' → w ∈ written (sw_net X) ∨ found_under (w_source w) (w_map w) (w_data w) ∨ w ∈ fs) →
  (∀ s map, (s, discovery_actor, map) ∈ subscribed N' → (s, discovery_actor, map) ∈ subscribed (sw_net X) ∨ looks_for s map) →
  swarm_ok (with_foreign (with_kv X N') fs).
Proof.
  intros [HN Hw Hs Hv Ha] Hstep Hsub Hw' Hs'. assert (sw_foreign X ⊆ sw_foreign X ++ fs) as Hf by set_solver. split; cbn; [by eapply dht_reach_step|..].
  - intros w [Hin|[?|?]]%Hw'; [|by left|right; set_solver]. destruct (Hw _ Hin); [by left|right; set_solver].
  - intros s map [Hin|?]%Hs'; [by apply Hs|done].
  - intros s svc Hsv. eapply service_ok_mono; [done..|by apply Hv].
  - intros s a Hsa. eapply wanted_mono; [done..|by apply Ha].
Qed.

Lemma swarm_ok_kv X N' :
  swarm_ok X → dht_step (sw_net X) N' → written (sw_net X) ⊆ written N' →
  (∀ w, w ∈ written N' → w ∈ written (sw_net X) ∨ found_under (w_source w) (w_map w) (w_data w)) →
  (∀ s map, (s, discovery_actor, map) ∈ subscribed N' → (s, discovery_actor, map) ∈ subscribed (sw_net X) ∨ looks_for s map) →
  swarm_ok (with_kv X N').
Proof.
  intros Hok Hstep Hsub Hw Hs. destruct (swarm_ok_net X N' [] Hok Hstep Hsub) as [H1 H2 H3 H4 H5]; [naive_solver|done|].
  cbn in *. rewrite app_nil_r in *. by split.
Qed.

Lemma swarm_ok_service X s svc : swarm_ok X → service_ok (written (sw_net X)) (sw_foreign X) s svc → swarm_ok (with_service X s svc).
Proof. intros [HN Hw Hs Hv Ha] Hok. split; cbn; [done..| |done]. map_update. Qed.

Lemma control_sub_looks s actor c s' map :
  (actor = discovery_actor → dout_ok [] [] s (kv_control c)) →
  (s', discovery_actor, map) ∈ control_sub s actor c → looks_for s' map.
Proof.
  intros Hc Hin. destruct c as [map' [| | |]|map']; cbn in Hin; try by apply elem_of_nil in Hin.
  apply list_elem_of_singleton in Hin as [= -> Ha ->]. by apply Hc.
Qed.

(** A control of the service, and one of another user. *)
Lemma swarm_ok_control X s n order now c n' :
  swarm_ok X → nodes (sw_net X) !! s = Some n → internal_on_local order n now discovery_actor c = Done n' → dout_ok [] [] s (kv_control c) →
  swarm_ok (with_kv X (kv_controlled (sw_net X) s now discovery_actor c n')).
Proof.
  intros Hok Hn Hl Hc. apply swarm_ok_kv; [done|by eapply dht_control|set_solver| |].
  - intros w [?|Hin]%elem_of_app; [by left|]. right. destruct c as [map [key data| | |]|map]; cbn in Hin; try by apply elem_of_nil in Hin.
    by apply list_elem_of_singleton in Hin as ->.
  - intros s' map' [?|Hin]%elem_of_app; [by left|]. right. by eapply control_sub_looks.
Qed.

Lemma swarm_ok_user X s n order now actor c n' :
  swarm_ok X → nodes (sw_net X) !! s = Some n → actor ≠ discovery_actor → internal_on_local order n now actor c = Done n' →
  swarm_ok (with_foreign (with_kv X (kv_controlled (sw_net X) s now actor c n')) (control_write s now c)).
Proof.
  intros Hok Hn Ha Hl. apply swarm_ok_net; [done|by eapply dht_control|set_solver| |].
  - intros w [?|Hin]%elem_of_app; [by left|]. by do 2 right.
  - intros s' map' [?|Hin]%elem_of_app; [by left|]. right. by eapply control_sub_looks.
Qed.

Lemma swarm_ok_told X s n n' actor event :
  swarm_ok X → nodes (sw_net X) !! s = Some n → internal_pop_action n = (n', Some (InternalLocal actor event)) →
  swarm_ok (with_kv X (kv_told (sw_net X) s actor event n')).
Proof. intros Hok Hn Hp. apply swarm_ok_kv; [done|by eapply dht_tell|done|by left|by left]. Qed.

Lemma swarm_step_ok X X' : swarm_ok X → swarm_step X X' → swarm_ok X'.
Proof.
  intros Hok [s Hpf Hn|s|N' Hk|s n order now actor c n' Hn Ha Hl|s n n' actor event Hn Hp Ha|s n n' event svc now svc' Hn Hp Hs Hin
    |s svc order now input Hs|s n order now svc svc' c n' Hn Hs Hp Hl|s svc svc' a Hs Hp|s svc svc' n Hs Hp].
  - apply (swarm_ok_service (with_kv X _)); [|by apply service_new_ok]. apply swarm_ok_kv; [done|by apply dht_join|done|by left|by left].
  - destruct (swarm_ok_kv X (mkNet (delete s (nodes (sw_net X))) (sent (sw_net X)) (told (sw_net X)) (written (sw_net X)) (subscribed (sw_net X))) Hok) as [HN Hw Hs Hv Has];
      [apply dht_leave|done|by left|by left|]. split; [done..| |done]. intros s' svc. cbn. intros [_ Hx]%lookup_delete_Some. by apply Hv.
  - destruct (kv_step_dht _ _ Hk) as (Hd & Hw & Hs). apply swarm_ok_kv; [done|done|by rewrite Hw|rewrite Hw; by left|rewrite Hs; by left].
  - by eapply swarm_ok_user.
  - by eapply swarm_ok_told.
  - assert (swarm_ok (with_kv X (kv_told (sw_net X) s discovery_actor event n'))) as Hok' by by eapply swarm_ok_told.
    apply swarm_ok_service; [done|]. eapply service_input_ok; [by apply (so_services X)| |done].
    intros map key m d a -> Hne Hd. eapply (told_wanted (with_kv X (kv_told _ _ _ _ _))); [done|apply elem_of_snoc|done..].
  - apply swarm_ok_service; [done|]. apply service_shared_ok. by eapply so_services.
  - destruct (service_pop_ok _ _ s svc svc' _ (so_services _ Hok _ _ Hs) Hp) as [Hsv Ho]. apply swarm_ok_service.
    + by eapply swarm_ok_control.
    + eapply service_ok_mono; [..|exact Hsv]; set_solver.
  - destruct (service_pop_ok _ _ s svc svc' _ (so_services _ Hok _ _ Hs) Hp) as [Hsv Ho].
    destruct (swarm_ok_service X s svc' Hok Hsv) as [HN Hw Hsu Hv Ha]. split; [done..|]. cbn.
    intros s' a' [?|[= -> ->]%list_elem_of_singleton]%elem_of_app; [by eapply so_asked|done].
  - destruct (service_pop_ok _ _ s svc svc' _ (so_services _ Hok _ _ Hs) Hp) as [Hsv _]. by apply swarm_ok_service.
Qed.

(** C21. Discovery over the key-value store. Nodes come and go, each with the
    discovery service as one of the users of its store and its own address;
    commands of the store are lost, repeated, reordered and misrouted; other
    users write what they like, where they like. Then behind every address a
    service asks to be connected to there is a value that another node wrote
    into the map of a tag the service looks for and that encodes the address,
    and, unless a user other than the discovery service wrote it, it is the
    announcement of that node: its own address, under a tag that it was
    started with and whose hash, the name of the map, is that of the tag
    looked for. *)
Theorem only_tagged_nodes_are_asked (X : swarm) (s : NodeSession) (a : NodeAddr) :
  swarm_reachable X → (s, a) ∈ sw_asked X →
  ∃ w tag, w ∈ written (sw_net X) ∧ (w_source w).1 ≠ s.1 ∧
    tag ∈ pf_connect (profile s) ∧ w_map w = hash_str tag ∧ node_addr_from_vec (w_data w) = Done (Some a) ∧
    (w ∈ sw_foreign X ∨
     a = pf_addr (profile (w_source w)) ∧ w_data w = node_addr_to_vec a ∧
     ∃ tag', tag' ∈ pf_local (profile (w_source w)) ∧ hash_str tag' = hash_str tag).
Proof.
  intros HX. assert (swarm_ok X) as Hok.
  { induction HX as [|X X' _ IH Hstep]; [|by eapply swarm_step_ok]. split; cbn; [apply dht_reach_empty|by intros w ?%elem_of_nil|by intros ? ? ?%elem_of_nil| |by intros ? ? ?%elem_of_nil].
    intros s' svc. by rewrite lookup_empty. }
  intros (w & Hin & Hne & (tag & Htag & Hm) & Hd & Hc)%(so_asked _ Hok). exists w, tag. split_and!; [done..|].
  destruct Hc as [Hc|[(_ & (tag' & Htag' & Hm') & Hdd) ->]]; [by left|right]. split_and!; [done..|]. exists tag'. split; [done|congruence].
Qed.

(** ** Steps to evaluate *)

Inductive Move :=
| MControl (s : NodeSession) (now : Z)
| MSend (s : NodeSession)
| MReceive (s : NodeSession) (now : Z) (i : nat)
| MTell (s : NodeSession) (now : Z)
| MConnect (s : NodeSession).

Definition swarm_move (order : HashOrder) (X : swarm) (move : Move) : option swarm :=
  match move with
  | MControl s now =>
      n ← nodes (sw_net X) !! s; svc ← sw_services X !! s;
      match discovery_pop_output svc with
      | (svc', Some (SvcOutFeatureControl (CtlDhtKv c))) =>
          match internal_on_local order n now discovery_actor c with
          | Done n' => Some (with_service (with_kv X (kv_controlled (sw_net X) s now discovery_actor c n')) s svc')
          | Panic => None
          end
      | _ => None
      end
  | MSend s =>
      n ← nodes (sw_net X) !! s;
      match internal_pop_action n with
      | (n', Some (InternalRemote _ cmd)) =>
          Some (with_kv X (mkNet (<[s := n']> (nodes (sw_net X))) (sent (sw_net X) ++ [cmd]) (told (sw_net X)) (written (sw_net X)) (subscribed (sw_net X))))
      | _ => None
      end
  | MReceive s now i =>
      n ← nodes (sw_net X) !! s; cmd ← sent (sw_net X) !! i; Some (with_kv X (put_node (sw_net X) s (internal_on_remote order n now cmd)))
  | MTell s now =>
      n ← nodes (sw_net X) !! s; svc ← sw_services X !! s;
      match internal_pop_action n with
      | (n', Some (InternalLocal (ActorService 0) event)) =>
          match discovery_on_input (SC := SC) (TC := TC) svc now (SvcFeatureEvent (EvDhtKv event)) with
          | Done svc' => Some (with_service (with_kv X (kv_told (sw_net X) s discovery_actor event n')) s svc')
          | Panic => None
          end
      | _ => None
      end
  | MConnect s =>
      svc ← sw_services X !! s;
      match discovery_pop_output svc with
      | (svc', Some (SvcOutFeatureControl (CtlNeighbours (NConnectTo a)))) => Some (mkSwarm (sw_net X) (<[s := svc']> (sw_services X)) (sw_asked X ++ [(s, a)]) (sw_foreign X))
      | _ => None
      end
  end.

Fixpoint swarm_moves (order : HashOrder) (X : swarm) (moves : list Move) : option swarm :=
  match moves with [] => Some X | move :: moves => X ← swarm_move order X move; swarm_moves order X moves end.

Lemma swarm_move_step order X move X' : swarm_move order X move = Some X' → swarm_step X X'.
Proof.
  destruct move as [s now|s|s now i|s now|s]; cbn [swarm_move]; intros Hm.
  - apply bind_Some in Hm as (n & Hn & Hm). apply bind_Some in Hm as (svc & Hs & Hm).
    destruct (discovery_pop_output svc) as [svc' [[|[]| |]|]] eqn:Hp; try done. destruct (internal_on_local _ _ _ _ _) as [n'|] eqn:Hl; [|done].
    injection Hm as <-. by eapply sw_control.
  - apply bind_Some in Hm as (n & Hn & Hm). destruct (internal_pop_action n) as [n' [[|rule cmd]|]] eqn:Hp; try done. injection Hm as <-.
    by eapply sw_kv, kv_send.
  - apply bind_Some in Hm as (n & Hn & Hm). apply bind_Some in Hm as (cmd & Hc & Hm). injection Hm as <-.
    apply sw_kv, kv_receive; [done|]. by eapply list_elem_of_lookup_2.
  - apply bind_Some in Hm as (n & Hn & Hm). apply bind_Some in Hm as (svc & Hs & Hm).
    destruct (internal_pop_action n) as [n' [[[| |[]] event|]|]] eqn:Hp; try done. destruct (discovery_on_input _ _ _) as [svc'|] eqn:Hi; [|done].
    injection Hm as <-. by eapply sw_tell_service.
  - apply bind_Some in Hm as (svc & Hs & Hm). destruct (discovery_pop_output svc) as [svc' [[|[[]| | | | | | |]| |]|]] eqn:Hp; try done. injection Hm as <-.
    by eapply sw_connect.
Qed.

Lemma swarm_moves_reachable order moves : ∀ X X', swarm_reachable X → swarm_moves order X moves = Some X' → swarm_reachable X'.
Proof.
  induction moves as [|move moves IH]; intros X X' HX; cbn [swarm_moves]; [by intros [= <-]|]. intros Hm. apply bind_Some in Hm as (X1 & H1 & Hm).
  eapply IH; [|exact Hm]. eapply swarm_next; [exact HX|by eapply swarm_move_step].
Qed.
End swarm.

(** ** Two nodes

    Node 1 is found under a tag that node 2 looks for; node 2 is the relay of
    the map of the tag. *)

#[local] Existing Instance demo_multiaddr_bytes.
#[local] Transparent hash_str.

Definition demo_profile (s : NodeSession) : Profile :=
  if s.1 =? 1 then mkProfile demo_peer [[117]] [] else mkProfile (mkNodeAddr s.1 demo_multiaddr) [] [[117]].

Abbreviation DemoSwarm := (swarm (UserData := Z) (SE := unit) (TW := unit)) (only parsing).
Abbreviation demo_reachable := (swarm_reachable (UserData := Z) (Secure := unit) (SC := unit) (SE := unit) (TC := unit) (TW := unit) demo_profile) (only parsing).

(** The first node sets its address; the second subscribes, relays both, and is
    told. *)
Definition demo_moves : list Move :=
  [MControl (1, 1) 10; MSend (1, 1); MControl (2, 2) 20; MSend (2, 2); MReceive (2, 2) 30 0; MReceive (2, 2) 31 1; MSend (2, 2); MSend (2, 2); MSend (2, 2);
   MReceive (2, 2) 40 3; MReceive (2, 2) 41 4; MTell (2, 2) 50; MSend (2, 2); MTell (2, 2) 51; MConnect (2, 2)].

Lemma demo_swarm : ∃ X : DemoSwarm, demo_reachable X ∧ sw_asked X = [((2, 2), demo_peer)] ∧ sw_foreign X = [].
Proof.
  set (X1 := mkSwarm (put_node net_empty (1, 1) (internal_new (1, 1))) {[ (1, 1) := service_new demo_profile (1, 1) ]} [] [] : DemoSwarm).
  set (X2 := mkSwarm (put_node (sw_net X1) (2, 2) (internal_new (2, 2))) (<[(2, 2) := service_new demo_profile (2, 2)]> (sw_services X1)) [] [] : DemoSwarm).
  assert (demo_reachable X2) as R.
  { eapply swarm_next; [eapply swarm_next; [apply swarm_start|]|]; [apply (sw_join _ _ (1, 1))|apply (sw_join _ X1 (2, 2))];
      try (vm_compute; reflexivity); vm_compute; repeat split; discriminate. }
  destruct (swarm_moves (SC := unit) (TC := unit) canonical_order X2 demo_moves) as [X|] eqn:HX; [|vm_compute in HX; discriminate].
  exists X. split; [by eapply swarm_moves_reachable|].
  assert ((λ X, (sw_asked X, sw_foreign X)) <$> swarm_moves (SC := unit) (TC := unit) canonical_order X2 demo_moves = Some ([((2, 2), demo_peer)], [])) as Ha
    by (vm_compute; reflexivity).
  rewrite HX in Ha. apply (inj Some) in Ha. exact (conj (f_equal fst Ha) (f_equal snd Ha)).
Qed.

Lemma only_tagged_nodes_are_asked_witness :
  ∃ X : DemoSwarm, demo_reachable X ∧ ((2, 2), demo_peer) ∈ sw_asked X ∧
    ∃ w, w ∈ written (sw_net X) ∧ w_data w = node_addr_to_vec demo_peer ∧ demo_peer = pf_addr (demo_profile (w_source w)).
Proof.
  destruct demo_swarm as (X & HX & Ha & Hf). exists X. assert (((2, 2), demo_peer) ∈ sw_asked X) as Hin by (rewrite Ha; left).
  split; [exact HX|]. split; [exact Hin|].
  destruct (only_tagged_nodes_are_asked demo_profile X (2, 2) demo_peer HX Hin) as (w & tag & Hw & _ & _ & _ & _ & Hc).
  exists w. split; [exact Hw|]. destruct Hc as [Hc|(Haddr & Hd & _)]; [rewrite Hf in Hc; by apply elem_of_nil in Hc|].
  split; [exact Hd|exact Haddr].
Defined.
