(* ===== verification/Visualization.v ===== *)
(** * The visualization service ([services/visualization.rs])

    Every node broadcasts a snapshot of its connections to the collectors;
    a collector keeps the nodes it has heard of lately and tells its
    subscribers what changes. *)

From S2P Require Import Prelude NodeId ConnId Route Msg Base Neighbours DhtMsg DataFeature Features Service.

Definition VISUALIZATION_SERVICE_ID : Z := 1.
Definition NODE_TIMEOUT_MS : Z := 10000.
Definition NODE_PING_MS : Z := 5000.
Definition NODE_PING_TTL : Z := 5.
Definition DATA_PORT : Z := 0.

Record ConnectionInfo := mkConnectionInfo {
  ci_conn : ConnId;
  ci_dest : NodeId;
  ci_local : SocketAddr;
  ci_remote : SocketAddr;
  ci_rtt_ms : Z;
}.

(** The entries of a [BTreeMap] keyed by node: in the order of the keys. *)
Definition nodes_iter {V} (m : gmap NodeId V) : list (NodeId * V) := stable_sort fst (map_to_list m).

(** The values of a [BTreeMap] keyed by connection: by session, then by
    direction. *)
Definition conns_values {V} (m : gmap ConnKey V) : list V :=
  snd <$> stable_sort (λ e, e.1.2 * 2 + direction_u8 e.1.1) (map_to_list m).

Section visualization.
Context {UserData Addr Secure SC SE TC TW Info : Type} `{EqDecision UserData}.

Inductive VisControl := VisSubscribe | VisGetAll | VisUpdateInfo (info : Info).

Inductive VisEvent :=
| GotAll (nodes : list (NodeId * Info * list ConnectionInfo))
| NodeChanged (node : NodeId) (info : Info) (conns : list ConnectionInfo)
| NodeRemoved (node : NodeId).

Inductive VisMessage := Snapshot (node : NodeId) (info : Info) (conns : list ConnectionInfo).

Context {msg_codec : Codec VisMessage}.
(** [SC: TryInto<Control>] and [SE: From<Event>] *)
Context (control_try_into : SC → option VisControl) (event_into : VisEvent → SE).

Abbreviation Actor := (ServiceControlActor UserData) (only parsing).
Abbreviation Output := (ServiceOutput UserData (FeaturesControl Addr) SE TW) (only parsing).

Record NodeInfo := mkNodeInfo { last_ping_ms : Z; ni_info : Info; ni_conns : list ConnectionInfo }.

Record VisualizationService := mkVis {
  vs_info : Info;
  last_ping : Z;
  broadcast_seq : Z;
  vs_queue : list Output;
  vs_conns : gmap ConnKey ConnectionInfo;
  network_nodes : gmap NodeId NodeInfo;
  subscribers : list Actor;
  vs_shutdown : bool;
}.

Definition vis_new (info : Info) : VisualizationService :=
  mkVis info 0 0 [SvcOutFeatureControl (CtlData (DataListen DATA_PORT))] ∅ ∅ [] false.

Definition with_vs_nodes (self : VisualizationService) (outs : list Output) (nodes : gmap NodeId NodeInfo) : VisualizationService :=
  mkVis (vs_info self) (last_ping self) (broadcast_seq self) (vs_queue self ++ outs) (vs_conns self) nodes (subscribers self) (vs_shutdown self).
Definition with_vs_conns (self : VisualizationService) (conns : gmap ConnKey ConnectionInfo) : VisualizationService :=
  mkVis (vs_info self) (last_ping self) (broadcast_seq self) (vs_queue self) conns (network_nodes self) (subscribers self) (vs_shutdown self).

(** The outputs [fire_event] queues. *)
Definition vis_fire_event (self : VisualizationService) (event : VisEvent) : list Output :=
  (λ sub, SvcOutEvent sub (event_into event)) <$> subscribers self.

Definition remove_node (self : VisualizationService) (node : NodeId) : VisualizationService :=
  with_vs_nodes self (vis_fire_event self (NodeRemoved node)) (delete node (network_nodes self)).

Definition vis_ping (node_id : NodeId) (self : VisualizationService) (now : Z) : VisualizationService :=
  let msg := Snapshot node_id (vs_info self) (conns_values (vs_conns self)) in
  let seq := broadcast_seq self in
  mkVis (vs_info self) now (wrap 16 (seq + 1))
    (vs_queue self ++ [SvcOutFeatureControl (CtlData (DataSendRule DATA_PORT (ToServices VISUALIZATION_SERVICE_ID Global seq)
       (mkOutgoing false NODE_PING_TTL 0 true) (serialize msg)))])
    (vs_conns self) (network_nodes self) (subscribers self) (vs_shutdown self).

Definition vis_on_tick (node_id : NodeId) (self : VisualizationService) (now : Z) : VisualizationService :=
  let to_remove := fst <$> filter (λ e, wrap 64 (NODE_TIMEOUT_MS + last_ping_ms e.2) ≤ now) (nodes_iter (network_nodes self)) in
  let self := foldl remove_node self to_remove in
  if wrap 64 (last_ping self + NODE_PING_MS) <=? now then vis_ping node_id self now else self.

Definition connection_info (ctx : ConnectionCtx) (rtt : Z) : ConnectionInfo :=
  mkConnectionInfo (ctx_conn ctx) (ctx_node ctx) (pair_local (ctx_pair ctx)) (pair_remote (ctx_pair ctx)) rtt.

Definition vis_on_shared_input (ctx : ServiceCtx) (self : VisualizationService) (now : Z) (input : ServiceSharedInput Secure) : VisualizationService :=
  match input with
  | SvcTick _ => vis_on_tick (svc_node_id ctx) self now
  | SvcConnection (Connected ctx _) => with_vs_conns self (<[conn_key (ctx_conn ctx) := connection_info ctx 1000]> (vs_conns self))
  | SvcConnection (Stats ctx stats) =>
      let entry := default (connection_info ctx 1000) (vs_conns self !! conn_key (ctx_conn ctx)) in
      with_vs_conns self
        (<[conn_key (ctx_conn ctx) := mkConnectionInfo (ci_conn entry) (ci_dest entry) (ci_local entry) (ci_remote entry) (rtt_ms stats)]> (vs_conns self))
  | SvcConnection (Disconnected ctx) => with_vs_conns self (delete (conn_key (ctx_conn ctx)) (vs_conns self))
  end.

(** [push_all] *)
Definition got_all (self : VisualizationService) (actor : Actor) : Output :=
  SvcOutEvent actor (event_into (GotAll ((λ e, (e.1, ni_info e.2, ni_conns e.2)) <$> nodes_iter (network_nodes self)))).

Definition vis_on_input (self : VisualizationService) (now : Z) (input : ServiceInput UserData FeaturesEvent SC TC) : VisualizationService :=
  match input with
  | SvcFeatureEvent (EvData (Recv _ meta buf)) =>
      if negb (in_secure meta) then self
      else
        match deserialize (T := VisMessage) buf with
        | Some (Snapshot from info conns) =>
            with_vs_nodes self (vis_fire_event self (NodeChanged from info conns)) (<[from := mkNodeInfo now info conns]> (network_nodes self))
        | None => self
        end
  | SvcControl actor control =>
      match control_try_into control with
      | Some VisGetAll => with_vs_nodes self [got_all self actor] (network_nodes self)
      | Some VisSubscribe =>
          if bool_decide (actor ∈ subscribers self) then self
          else mkVis (vs_info self) (last_ping self) (broadcast_seq self) (vs_queue self ++ [got_all self actor]) (vs_conns self) (network_nodes self)
                 (subscribers self ++ [actor]) (vs_shutdown self)
      | Some (VisUpdateInfo info) =>
          mkVis info (last_ping self) (broadcast_seq self) (vs_queue self) (vs_conns self) (network_nodes self) (subscribers self) (vs_shutdown self)
      | None => self
      end
  | _ => self
  end.

Definition vis_on_shutdown (self : VisualizationService) : VisualizationService :=
  mkVis (vs_info self) (last_ping self) (broadcast_seq self) (vs_queue self) (vs_conns self) (network_nodes self) (subscribers self) true.

Definition vis_is_empty (self : VisualizationService) : bool :=
  vs_shutdown self && match vs_queue self with [] => true | _ => false end.

Definition vis_pop_output (self : VisualizationService) : VisualizationService * option Output :=
  match vs_queue self with
  | [] => (self, None)
  | out :: rest =>
      (mkVis (vs_info self) (last_ping self) (broadcast_seq self) rest (vs_conns self) (network_nodes self) (subscribers self) (vs_shutdown self), Some out)
  end.

#[export] Instance vis_service : ControllerService UserData Addr Secure SC SE TC TW VisualizationService := {
  svc_is_service_empty := vis_is_empty;
  svc_on_shared_input := vis_on_shared_input;
  svc_on_input _ self now input := Done (vis_on_input self now input);
  svc_on_shutdown _ self _ := vis_on_shutdown self;
  svc_pop_output2 self _ := vis_pop_output self;
}.
End visualization.

Arguments VisControl Info : clear implicits.
Arguments VisEvent Info : clear implicits.
Arguments VisMessage Info : clear implicits.
Arguments NodeInfo Info : clear implicits.
Arguments VisualizationService UserData Addr SE TW Info : clear implicits.

(** ** Subscribers *)

Section subscribers.
Context {UserData Addr Secure SC SE TC TW Info : Type} `{EqDecision UserData} {msg_codec : Codec (VisMessage Info)}.
Context (control_try_into : SC → option (VisControl Info)) (event_into : VisEvent Info → SE) (event_try_into : SE → option (VisEvent Info)).
(** [SE: TryInto<Event>] undoes [From<Event>]. *)
Hypothesis event_roundtrip : ∀ e, event_try_into (event_into e) = Some e.

Abbreviation Vis := (VisualizationService UserData Addr SE TW Info) (only parsing).
Abbreviation Output := (ServiceOutput UserData (FeaturesControl Addr) SE TW) (only parsing).
Abbreviation View := (gmap NodeId (Info * list ConnectionInfo)) (only parsing).
Implicit Types (self : VisualizationService UserData Addr SE TW Info) (a : ServiceControlActor UserData).

(** The nodes a subscriber knows after an event. *)
Definition vis_view (view : View) (event : VisEvent Info) : View :=
  match event with
  | GotAll nodes => foldl (λ m e, <[e.1.1 := (e.1.2, e.2)]> m) ∅ nodes
  | NodeChanged node info conns => <[node := (info, conns)]> view
  | NodeRemoved node => delete node view
  end.

(** The events in the outputs for actor [a]. *)
Definition event_for a (out : Output) : option (VisEvent Info) :=
  match out with
  | SvcOutEvent actor event => if bool_decide (actor = a) then event_try_into event else None
  | _ => None
  end.

Definition view_after a (outs : list Output) (view : View) : View := foldl vis_view view (omap (event_for a) outs).

Definition known self : View := (λ n, (ni_info n, ni_conns n)) <$> network_nodes self.

Lemma view_after_app a o1 o2 view : view_after a (o1 ++ o2) view = view_after a o2 (view_after a o1 view).
Proof. unfold view_after. by rewrite omap_app, foldl_app. Qed.

Lemma nodes_iter_map {V} (m : gmap NodeId V) : list_to_map (nodes_iter m) = m.
Proof.
  unfold nodes_iter. rewrite <- (list_to_map_to_list m) at 2. apply list_to_map_proper; [|apply stable_sort_perm].
  rewrite stable_sort_perm. apply NoDup_fst_map_to_list.
Qed.

Lemma got_all_view a self view : view_after a [got_all event_into self a] view = known self.
Proof.
  unfold view_after, got_all. cbn [omap list_omap event_for]. rewrite bool_decide_true, event_roundtrip by done. cbn [foldl vis_view].
  rewrite (foldl_insert_map (λ e, e.1.1) (λ e, (e.1.2, e.2))).
  - rewrite <- list_fmap_compose. unfold known. rewrite <- (nodes_iter_map (network_nodes self)) at 2. rewrite <- list_to_map_fmap. done.
  - rewrite <- list_fmap_compose. unfold nodes_iter. rewrite stable_sort_perm. apply (NoDup_fst_map_to_list (network_nodes self)).
Qed.

Lemma got_all_other a b self view : a ≠ b → view_after a [got_all event_into self b] view = view.
Proof. intros Hne. unfold view_after, got_all. cbn. by rewrite bool_decide_false by congruence. Qed.

(** An event reaches each subscriber once. *)
Lemma fire_event_view a self event view :
  NoDup (subscribers self) → a ∈ subscribers self → view_after a (vis_fire_event event_into self event) view = vis_view view event.
Proof.
  unfold view_after, vis_fire_event. generalize (subscribers self). intros l Hnd Ha.
  assert (omap (event_for a) ((λ sub, SvcOutEvent sub (event_into event)) <$> l) = [event]) as ->; [|done].
  induction Hnd as [|b l Hb Hnd IH]; [by apply not_elem_of_nil in Ha|]. cbn. case_bool_decide as Hba.
  - subst b. rewrite event_roundtrip. f_equal. clear -Hb. induction l as [|c l IH]; [done|]. apply not_elem_of_cons in Hb as [Hc Hl].
    cbn. rewrite bool_decide_false by congruence. by apply IH.
  - apply IH. apply elem_of_cons in Ha as [->|Ha]; done.
Qed.

(** What a handler does to the subscribers' knowledge. *)
Definition vis_inv self : Prop := NoDup (subscribers self).

Definition vis_tells self self' : Prop :=
  vis_inv self' ∧ ∃ outs, vs_queue self' = vs_queue self ++ outs ∧
    ∀ a view, a ∈ subscribers self' → (a ∈ subscribers self → view = known self) → view_after a outs view = known self'.

Lemma vis_tells_trans s1 s2 s3 : vis_tells s1 s2 → vis_tells s2 s3 → vis_tells s1 s3.
Proof.
  intros (H1 & o1 & Hq1 & Hv1) (H2 & o2 & Hq2 & Hv2). split; [done|]. exists (o1 ++ o2). split; [by rewrite Hq2, Hq1, app_assoc|].
  intros a view Ha Hview. rewrite view_after_app. apply Hv2; [done|]. intros Ha2. by apply Hv1.
Qed.

(** A handler that queues nothing for the actors and keeps the nodes. *)
Lemma vis_tells_quiet self self' outs :
  vis_inv self → vs_queue self' = vs_queue self ++ outs → subscribers self' = subscribers self → known self' = known self →
  (∀ a view, view_after a outs view = view) → vis_tells self self'.
Proof.
  intros Hi Hq Hs Hk Ho. split; [by unfold vis_inv; rewrite Hs|]. exists outs. split; [done|]. intros a view Ha Hview. rewrite Ho, Hk.
  apply Hview. by rewrite <- Hs.
Qed.

Lemma vis_tells_refl self : vis_inv self → vis_tells self self.
Proof. intros Hi. by apply (vis_tells_quiet self self []); rewrite ?app_nil_r. Qed.

(** A change of one node, of which the subscribers are told. *)
Lemma vis_tells_fire self event nodes :
  vis_inv self → (λ n, (ni_info n, ni_conns n)) <$> nodes = vis_view (known self) event →
  vis_tells self (with_vs_nodes self (vis_fire_event event_into self event) nodes).
Proof.
  intros Hi Hk. split; [done|]. exists (vis_fire_event event_into self event). split; [done|]. intros a view Ha Hview.
  rewrite fire_event_view by done. rewrite (Hview Ha). by rewrite <- Hk.
Qed.

Lemma remove_nodes_tells l : ∀ self, vis_inv self → vis_tells self (foldl (remove_node event_into) self l).
Proof.
  induction l as [|n l IH]; intros self Hi; [by apply vis_tells_refl|]. cbn [foldl].
  eapply vis_tells_trans, IH; [|done]. apply vis_tells_fire; [done|]. cbn. unfold known. by rewrite fmap_delete.
Qed.

Lemma vis_shared_tells ctx self now (input : ServiceSharedInput Secure) : vis_inv self → vis_tells self (vis_on_shared_input event_into ctx self now input).
Proof.
  intros Hi. destruct input as [n|[c s|c s|c]]; cbn [vis_on_shared_input].
  - unfold vis_on_tick. set (l := fst <$> _). pose proof (remove_nodes_tells l self Hi) as Ht. set (self1 := foldl _ self l) in *.
    destruct (_ <=? now); [|done]. eapply vis_tells_trans; [done|]. destruct Ht as [Hi1 _]. by eapply vis_tells_quiet.
  - by apply (vis_tells_quiet self _ []); rewrite ?app_nil_r.
  - by apply (vis_tells_quiet self _ []); rewrite ?app_nil_r.
  - by apply (vis_tells_quiet self _ []); rewrite ?app_nil_r.
Qed.

Lemma vis_input_tells self now (input : ServiceInput UserData FeaturesEvent SC TC) :
  vis_inv self → vis_tells self (vis_on_input control_try_into event_into self now input).
Proof.
  intros Hi. destruct input as [actor control|msg|[e|[dest rtt|port meta buf]|e|e|e|e|e|e]]; cbn [vis_on_input]; try by apply vis_tells_refl.
  - destruct (control_try_into control) as [[| |info]|]; [| | |by apply vis_tells_refl].
    + case_bool_decide as Ha; [by apply vis_tells_refl|]. split.
      * apply NoDup_app. split; [done|]. split; [|apply NoDup_singleton]. intros x Hx Hs. apply list_elem_of_singleton in Hs as ->. done.
      * eexists [_]. split; [done|]. intros a view Hin Hview. apply elem_of_app in Hin as [Hin|Hin]; [|apply list_elem_of_singleton in Hin as ->].
        -- rewrite got_all_other by (intros ->; done). by apply Hview.
        -- exact (got_all_view actor self view).
    + split; [done|]. eexists [_]. split; [done|]. intros a view Hin Hview. destruct (decide (a = actor)) as [->|Hne].
      * exact (got_all_view actor self view).
      * rewrite got_all_other by done. by apply Hview.
    + by apply (vis_tells_quiet self _ []); rewrite ?app_nil_r.
  - destruct (negb _); [by apply vis_tells_refl|]. destruct (deserialize buf) as [[from info conns]|]; [|by apply vis_tells_refl].
    apply vis_tells_fire; [done|]. cbn. unfold known. by rewrite fmap_insert.
Qed.

(** A run of the service, with the outputs taken so far. *)
Inductive vis_run (info : Info) : Vis → list Output → Prop :=
| vrun_new : vis_run info (vis_new info) []
| vrun_shared self outs ctx now (input : ServiceSharedInput Secure) :
    vis_run info self outs → vis_run info (vis_on_shared_input event_into ctx self now input) outs
| vrun_input self outs now (input : ServiceInput UserData FeaturesEvent SC TC) :
    vis_run info self outs → vis_run info (vis_on_input control_try_into event_into self now input) outs
| vrun_shutdown self outs : vis_run info self outs → vis_run info (vis_on_shutdown self) outs
| vrun_pop self outs self' out : vis_run info self outs → vis_pop_output self = (self', Some out) → vis_run info self' (outs ++ [out]).

Lemma subscriber_view (info : Info) (self : Vis) (outs : list Output) (a : ServiceControlActor UserData) :
  vis_run info self outs → a ∈ subscribers self →
  view_after a (outs ++ vs_queue self) ∅ = known self.
Proof.
  intros Hr. assert (vis_inv self ∧ ∀ a, a ∈ subscribers self → view_after a (outs ++ vs_queue self) ∅ = known self) as [_ Hall]; [|by apply Hall].
  assert (∀ s s' outs, vis_tells s s' → vis_inv s ∧ (∀ a, a ∈ subscribers s → view_after a (outs ++ vs_queue s) ∅ = known s) →
    vis_inv s' ∧ ∀ a, a ∈ subscribers s' → view_after a (outs ++ vs_queue s') ∅ = known s') as Hstep.
  { intros s s' taken [Hi' (o & Hq & Hv)] [_ Hk]. split; [done|]. intros b Hb. rewrite Hq, app_assoc, view_after_app. apply Hv; [done|]. apply Hk. }
  induction Hr as [|s taken ctx now input Hr IH|s taken now input Hr IH|s taken Hr IH|s taken s' out Hr IH Hp].
  - split; [apply NoDup_nil_2|]. intros b Hb. by apply not_elem_of_nil in Hb.
  - eapply Hstep; [|exact IH]. apply vis_shared_tells, IH.
  - eapply Hstep; [|exact IH]. apply vis_input_tells, IH.
  - exact IH.
  - unfold vis_pop_output in Hp. destruct (vs_queue s) as [|o rest] eqn:Hq; [done|]. injection Hp as <- <-.
    destruct IH as [Hi Hk]. split; [done|]. intros b Hb. cbn [vs_queue]. rewrite <- app_assoc. cbn. by apply Hk.
Qed.

(** A subscriber knows what the collector knows: an actor that has
    subscribed and follows the events for it, those taken and those still
    queued, holds exactly the nodes of the collector with their last snapshot,
    whatever the order of snapshots, ticks, removals and subscriptions. *)
Theorem subscriber_follows_network (info : Info) (self : Vis) (outs : list Output) (a : ServiceControlActor UserData) :
  vis_run info self outs → a ∈ subscribers self →
  view_after a (outs ++ vs_queue self) ∅ = known self.
Proof. apply subscriber_view. Qed.

(** After a tick exactly the nodes heard of in the last ten seconds are left. *)
Lemma remove_nodes_lookup l n : ∀ self,
  network_nodes (foldl (remove_node event_into) self l) !! n = if bool_decide (n ∈ l) then None else network_nodes self !! n.
Proof.
  induction l as [|x l IH]; intros self; [done|]. cbn [foldl]. rewrite IH. cbn [remove_node with_vs_nodes network_nodes].
  rewrite lookup_delete. repeat case_decide; repeat case_bool_decide; rewrite ?elem_of_cons in *; intuition congruence.
Qed.

Lemma tick_forgets_silent node_id self now n info :
  network_nodes (vis_on_tick event_into node_id self now) !! n = Some info ↔
  network_nodes self !! n = Some info ∧ now < wrap 64 (NODE_TIMEOUT_MS + last_ping_ms info).
Proof.
  unfold vis_on_tick. set (l := fst <$> _). assert (∀ s : Vis, network_nodes (if wrap 64 (last_ping s + NODE_PING_MS) <=? now then vis_ping node_id s now else s) = network_nodes s) as ->
    by (intros s; by destruct (_ <=? now)).
  rewrite remove_nodes_lookup.
  assert (∀ i, network_nodes self !! n = Some i → n ∈ l ↔ wrap 64 (NODE_TIMEOUT_MS + last_ping_ms i) ≤ now) as Hl.
  { intros i Hi. unfold l. rewrite list_elem_of_fmap. setoid_rewrite list_elem_of_filter. unfold nodes_iter. setoid_rewrite stable_sort_perm. split.
    - intros [[n' i'] (-> & Hle & Hin)]. cbn in *. apply elem_of_map_to_list in Hin. by simplify_eq.
    - intros Hle. exists (n, i). by rewrite elem_of_map_to_list. }
  case_bool_decide as Hn; split.
  - done.
  - intros [Hi Hlt]. apply (Hl _ Hi) in Hn. lia.
  - intros Hi. split; [done|]. rewrite (Hl _ Hi) in Hn. lia.
  - by intros [Hi _].
Qed.
End subscribers.

(** ** A concrete run

    The collector hears of a node, an actor subscribes, takes the first outputs, and the
    node announces itself again. *)

#[local] Instance demo_vis_codec : Codec (VisMessage Z) := {
  serialize _ := [];
  deserialize buf := Some (Snapshot 7 (Z.of_nat (length buf)) []);
}.

Definition demo_vis_recv (buf : Buffer) : ServiceInput Z FeaturesEvent (VisControl Z) unit :=
  SvcFeatureEvent (EvData (Recv DATA_PORT (mkIncoming None 5 0 true) buf)).

Definition demo_vis_step := vis_on_input (UserData := Z) (Addr := unit) (SE := VisEvent Z) (TC := unit) (TW := unit) Some id.

Lemma subscriber_follows_network_witness :
  ∃ (self : VisualizationService Z unit (VisEvent Z) unit Z) outs, length outs = 2%nat ∧ vis_run (Secure := unit) (TC := unit) Some id 9 self outs ∧ known self = {[7 := (2, [])]} ∧
    view_after Some (SvcController 3) (outs ++ vs_queue self) ∅ = known self.
Proof.
  set (s1 := demo_vis_step (vis_new 9) 10 (demo_vis_recv [])).
  set (s2 := demo_vis_step s1 20 (SvcControl (SvcController 3) VisSubscribe)).
  set (s3 := (vis_pop_output (vis_pop_output s2).1).1).
  set (s4 := demo_vis_step s3 30 (demo_vis_recv [0; 0])).
  assert (vis_run (Secure := unit) (TC := unit) Some id 9 s4 ([] ++ [SvcOutFeatureControl (CtlData (DataListen DATA_PORT))] ++ [SvcOutEvent (SvcController 3) (GotAll [(7, 0, [])])])) as Hr.
  { apply vrun_input. rewrite app_assoc. apply (vrun_pop _ _ _ (vis_pop_output s2).1); [|vm_compute; reflexivity].
    apply (vrun_pop _ _ _ s2); [|vm_compute; reflexivity]. apply vrun_input, vrun_input, vrun_new. }
  exists s4. eexists. split; [|split; [exact Hr|]]; [done|]. split; [vm_compute; reflexivity|].
  apply (subscriber_follows_network Some id Some (λ e, eq_refl) 9 s4 _ (SvcController 3) Hr). vm_compute. left.
Defined.
