(* ===== verification/Runner.v ===== *)
(** * The runner ([runner/src/worker_inner.rs], [builder.rs], [time.rs])

    A standalone node runs its workers on threads of the [sans_io_runtime]
    crate. Here: how a worker talks to the sockets and to the bus between the
    workers, how the workers of a node are configured, and the clock. The
    threads, the sockets and the bus belong to the crate; the messages
    exchanged with it are data. *)

From S2P Require Import Prelude NodeId ConnId Route Router Shadow History Msg Base Control Neighbours NodeAddr RouterSync Secure DhtMsg DhtServer DhtClient Dht PubsubMsg PubsubRelay Pubsub Alias Socket DataFeature Features Service DataPlane DataPlaneNet Controller ControllerNet Worker Hash Discovery Visualization.

(** ** Time

    An [Instant] is a number of nanoseconds from some origin;
    [duration_since] is zero for an earlier instant. *)

Abbreviation Instant := Z (only parsing).

Definition duration_since (later earlier : Instant) : Z := Z.max 0 (later - earlier).
Definition as_millis (d : Z) : Z := d / 1000000.
Definition as_micros (d : Z) : Z := d / 1000.

Record TimePivot := mkTimePivot { pivot_instant : Instant; time_us : Z }.

Definition started_ms (self : TimePivot) : Z := time_us self / 1000.

Definition timestamp_ms (self : TimePivot) (now : Instant) : Z :=
  wrap 64 (time_us self / 1000 + wrap 64 (as_millis (duration_since now (pivot_instant self)))).

Definition timestamp_us (self : TimePivot) (now : Instant) : Z :=
  wrap 64 (time_us self + wrap 64 (as_micros (duration_since now (pivot_instant self)))).

Record TimeTicker := mkTimeTicker { ticker_last : Instant; ticker_ms : Z }.

Definition ticker_tick (self : TimeTicker) (now : Instant) : TimeTicker * bool :=
  if ticker_ms self <=? wrap 64 (as_millis (duration_since now (ticker_last self))) then (mkTimeTicker now (ticker_ms self), true)
  else (self, false).

(** ** Sockets and channels *)

Inductive SdnChannel := ChController | ChWorker (worker : Z).

#[global] Instance SdnChannel_eq_dec : EqDecision SdnChannel.
Proof. solve_decision. Defined.

(** [BackendOutgoing] and [BackendIncoming]: sockets are slots of the runtime. *)
Inductive BackendOutgoing :=
| UdpListen (addr : SocketAddr) (reuse : bool)
| UdpUnlisten (slot : Z)
| BackendUdpPacket (slot : Z) (to : SocketAddr) (data : Buffer)
| BackendUdpPackets2 (to : list (Z * SocketAddr)) (data : Buffer).

Inductive BackendIncoming :=
| UdpListenResult (bind : SocketAddr) (result : option (SocketAddr * Z))
| IncomingUdpPacket (slot : Z) (from : SocketAddr) (data : Buffer).

Inductive BusChannelControl (E : Type) :=
| Subscribe (channel : SdnChannel)
| Publish (channel : SdnChannel) (safe : bool) (event : E).
Arguments Subscribe {_} _.
Arguments Publish {_} _ _ _.

Inductive RuntimeBusControl (E : Type) :=
| BusChannel (control : BusChannelControl E)
| BusBroadcast (safe : bool) (event : E).
Arguments BusChannel {_} _.
Arguments BusBroadcast {_} _ _.

Inductive RuntimeBusEvent (E : Type) :=
| FromBroadcast (from : Z) (event : E)
| FromChannel (channel : SdnChannel) (event : E).
Arguments FromBroadcast {_} _ _.
Arguments FromChannel {_} _ _.

Section runner.
Context {UserData SC SE TC TW S W H Rng Requester Responder Encryptor Decryptor : Type} `{EqDecision UserData}.
Context {sync_codec : Codec RouterSync} {dht_codec : Codec RemoteCommand} {alias_codec : Codec AliasMessage} {data_codec : Codec DataMsg}.
Context {msg_codec : Codec PubsubMessage} {control_codec : LimitedCodec NeighboursControl}.
Context `{Handshake Requester Responder Encryptor Decryptor} {auth : Authorization} {cmd_codec : LimitedCodec (Z * NeighboursControlCmds)}.
Context `{ControllerService UserData NodeAddr (Encryptor * Decryptor) SC SE TC TW S}.
Context `{ShadowRouterHistory H} `{ServiceWorker UserData NodeAddr SC SE TC TW W} `{Encryption Encryptor Decryptor} `{Headroom}.
Context (next_u64 : Rng → Z * Rng) (requesters : NetPair → Requester) (responder : Responder) (order : HashOrder).

Abbreviation SdnEvent := (SdnWorkerBusEvent (UserData := UserData) (SC := SC) (SE := SE) (TC := TC) (TW := TW) (Encryptor := Encryptor) (Decryptor := Decryptor)) (only parsing).
Abbreviation Inner := (SdnWorker (UserData := UserData) (SC := SC) (SE := SE) (TC := TC) (TW := TW) (S := S) (W := W) (H := H) (HC := H) (Rng := Rng)
  (Requester := Requester) (Encryptor := Encryptor) (Decryptor := Decryptor)) (only parsing).
Abbreviation InnerOutput := (SdnWorkerOutput (UserData := UserData) (SC := SC) (SE := SE) (TC := TC) (TW := TW) (Encryptor := Encryptor) (Decryptor := Decryptor)) (only parsing).

Inductive WorkerInnerInput :=
| WiNet (event : BackendIncoming)
| WiBus (event : RuntimeBusEvent SdnEvent)
| WiExt (ext : ExtIn UserData NodeAddr SC).

Inductive WorkerInnerOutput :=
| WoExt (safe : bool) (ext : ExtOut UserData SE)
| WoNet (out : BackendOutgoing)
| WoBus (bus : RuntimeBusControl SdnEvent)
| WoContinue.

(** The builder of a service: what its four methods return. *)
Record ServiceBuilder := mkServiceBuilder { sb_service_id : Z; sb_discoverable : bool; sb_create : S; sb_create_worker : W }.

(** [ControllerCfg]: the session, and the random generator [build] makes. *)
Record ControllerCfg := mkControllerCfg { cc_session : Z; cc_random : Rng }.

Record SdnInnerCfg := mkSdnInnerCfg {
  ic_node_id : NodeId;
  ic_tick_ms : Z;
  ic_bind_addrs : list SocketAddr;
  ic_controller : option ControllerCfg;
  ic_services : list ServiceBuilder;
  ic_history : H;
}.

Record SdnWorkerInner := mkInner {
  worker : Z;
  worker_inner : Inner;
  timer : TimePivot;
  wi_bind_addrs : gmap SocketAddr Z;
  bind_slots : gmap Z SocketAddr;
  wi_queue : list WorkerInnerOutput;
  wi_shutdown : bool;
}.

Definition with_inner (self : SdnWorkerInner) (inner : Inner) : SdnWorkerInner :=
  mkInner (worker self) inner (timer self) (wi_bind_addrs self) (bind_slots self) (wi_queue self) (wi_shutdown self).
Definition with_slots (self : SdnWorkerInner) (addrs : gmap SocketAddr Z) (slots : gmap Z SocketAddr) : SdnWorkerInner :=
  mkInner (worker self) (worker_inner self) (timer self) addrs slots (wi_queue self) (wi_shutdown self).

Definition sdn_worker_cfg (worker : Z) (cfg : SdnInnerCfg) :=
  mkSdnWorkerCfg (S := S) (W := W) (H := H) (HC := H) (Rng := Rng) (ic_node_id cfg) (ic_tick_ms cfg)
    ((λ c, (cc_session c, ic_bind_addrs cfg, (λ b, (sb_service_id b, sb_discoverable b, sb_create b)) <$> ic_services cfg, cc_random c, ic_history cfg))
       <$> ic_controller cfg)
    worker ((λ b, (sb_service_id b, sb_create_worker b)) <$> ic_services cfg) (ic_history cfg).

Definition inner_build (worker : Z) (cfg : SdnInnerCfg) (timer : TimePivot) : SdnWorkerInner :=
  mkInner worker (sdn_worker_new (sdn_worker_cfg worker cfg)) timer ∅ ∅
    ([WoBus (BusChannel (Subscribe (ChWorker worker)))] ++
     ((λ addr, WoNet (UdpListen addr true)) <$> ic_bind_addrs cfg) ++
     match ic_controller cfg with Some _ => [WoBus (BusChannel (Subscribe ChController))] | None => [] end)
    false.

Definition inner_tasks (self : SdnWorkerInner) : nat := worker_tasks (worker_inner self).

Definition inner_is_empty (self : SdnWorkerInner) : bool :=
  wi_shutdown self && match wi_queue self with [] => true | _ => false end && sdn_worker_is_empty (worker_inner self).

Definition inner_spawn (self : SdnWorkerInner) : outcome SdnWorkerInner := Panic.

Definition inner_on_tick (self : SdnWorkerInner) (now : Instant) : outcome SdnWorkerInner :=
  inner ← sdn_worker_on_tick (Responder := Responder) order (worker_inner self) (timestamp_ms (timer self) now);
  Done (with_inner self inner).

Definition inner_feed (self : SdnWorkerInner) (now_ms : Z) input : outcome SdnWorkerInner :=
  inner ← sdn_worker_on_event next_u64 requesters responder order (worker_inner self) now_ms input; Done (with_inner self inner).

Definition inner_on_event (self : SdnWorkerInner) (now : Instant) (event : WorkerInnerInput) : outcome SdnWorkerInner :=
  let now_ms := timestamp_ms (timer self) now in
  match event with
  | WiNet (UdpListenResult _ (Some (addr, slot))) => Done (with_slots self (<[addr := slot]> (wi_bind_addrs self)) (<[slot := addr]> (bind_slots self)))
  | WiNet (UdpListenResult _ None) => Done self
  | WiNet (IncomingUdpPacket slot from data) =>
      local ← expect (bind_slots self !! slot);
      inner_feed self now_ms (SwiNet (UdpPacketIn (mkNetPair local from) data))
  | WiBus (FromBroadcast _ msg) | WiBus (FromChannel _ msg) => inner_feed self now_ms (SwiBus msg)
  | WiExt ext => inner_feed self now_ms (SwiExt ext)
  end.

(** The bus a message of the worker goes to. *)
Definition bus_of (event : SdnEvent) : RuntimeBusControl SdnEvent :=
  match event with
  | BusControl _ => BusChannel (Publish ChController true event)
  | BusWorkers _ => BusBroadcast true event
  | BusWorker worker _ => BusChannel (Publish (ChWorker worker) true event)
  end.

(** After [Continue] the worker is popped again; [schedules] is what the task
    switchers poll in these calls, nothing when it is used up. *)
Fixpoint convert_output (schedules : list (list WorkerTask)) (self : SdnWorkerInner) (now_ms : Z) (event : InnerOutput)
    : outcome (SdnWorkerInner * option WorkerInnerOutput) :=
  match event with
  | SwoExt ext => Done (self, Some (WoExt true ext))
  | SwoExtWorker _ => Panic
  | SwoNet (UdpPacket p data) =>
      Done (self, (λ slot, WoNet (BackendUdpPacket slot (pair_remote p) data)) <$> wi_bind_addrs self !! pair_local p)
  | SwoNet (UdpPackets pairs data) =>
      Done (self, Some (WoNet (BackendUdpPackets2 (omap (λ p, (λ s, (s, pair_remote p)) <$> wi_bind_addrs self !! pair_local p) pairs) data)))
  | SwoBus event => Done (self, Some (WoBus (bus_of event)))
  | SwoContinue =>
      match schedules with
      | [] => Done (self, None)
      | schedule :: schedules =>
          r ← pop_output2 next_u64 requesters responder order schedule (worker_inner self) now_ms;
          let self := with_inner self r.1 in
          match r.2 with
          | None => Done (self, None)
          | Some out => convert_output schedules self now_ms out
          end
      end
  | SwoOnResourceEmpty => Done (self, Some WoContinue)
  end.

Definition inner_pop_output (schedule : list WorkerTask) (schedules : list (list WorkerTask)) (self : SdnWorkerInner) (now : Instant)
    : outcome (SdnWorkerInner * option WorkerInnerOutput) :=
  match wi_queue self with
  | e :: rest => Done (mkInner (worker self) (worker_inner self) (timer self) (wi_bind_addrs self) (bind_slots self) rest (wi_shutdown self), Some e)
  | [] =>
      let now_ms := timestamp_ms (timer self) now in
      r ← pop_output2 next_u64 requesters responder order schedule (worker_inner self) now_ms;
      let self := with_inner self r.1 in
      match r.2 with
      | None => Done (self, None)
      | Some out => convert_output schedules self now_ms out
      end
  end.

Definition inner_on_shutdown (self : SdnWorkerInner) (now : Instant) : SdnWorkerInner :=
  if wi_shutdown self then self
  else
    mkInner (worker self) (sdn_worker_on_shutdown (worker_inner self) (timestamp_ms (timer self) now)) (timer self) (wi_bind_addrs self) (bind_slots self)
      (wi_queue self ++ ((λ e, WoNet (UdpUnlisten e.2)) <$> hash_iter (wi_bind_addrs self))) true.

(** ** [SdnBuilder] *)

(** A service as the trait object the managers hold. *)
Context {Info : Type} (from_discovery : ManualDiscoveryService UserData SE TW → S) (from_vis : VisualizationService UserData NodeAddr SE TW Info → S).
Context (from_worker : ForwardingServiceWorker UserData SC SE TC → W) `{MultiaddrBytes}.

Record SdnBuilder := mkSdnBuilder {
  sdn_node_addr : NodeAddr;
  sdn_node_id : NodeId;
  sdn_session : Z;
  sdn_bind_addrs : list SocketAddr;
  sdn_tick_ms : Z;
  visualization_collector : bool;
  sdn_seeds : list NodeAddr;
  sdn_services : list ServiceBuilder;
}.

Definition sdn_builder_new (node_id : NodeId) (bind_addrs custom_ip : list SocketAddr) (session : Z) : SdnBuilder :=
  mkSdnBuilder (generate_node_addr node_id bind_addrs custom_ip) node_id session bind_addrs 1000 false [] [].

Definition add_seed (self : SdnBuilder) (addr : NodeAddr) : SdnBuilder :=
  mkSdnBuilder (sdn_node_addr self) (sdn_node_id self) (sdn_session self) (sdn_bind_addrs self) (sdn_tick_ms self) (visualization_collector self)
    (sdn_seeds self ++ [addr]) (sdn_services self).

Definition set_visualization_collector (self : SdnBuilder) (value : bool) : SdnBuilder :=
  mkSdnBuilder (sdn_node_addr self) (sdn_node_id self) (sdn_session self) (sdn_bind_addrs self) (sdn_tick_ms self) value
    (sdn_seeds self) (sdn_services self).

Definition sdn_add_service (self : SdnBuilder) (service : ServiceBuilder) : outcome SdnBuilder :=
  if existsb (λ s, sb_service_id s =? sb_service_id service) (sdn_services self) then Panic
  else Done (mkSdnBuilder (sdn_node_addr self) (sdn_node_id self) (sdn_session self) (sdn_bind_addrs self) (sdn_tick_ms self)
               (visualization_collector self) (sdn_seeds self) (sdn_services self ++ [service])).

Definition discovery_builder (node_addr : NodeAddr) (local_tags connect_tags : list (list Z)) : ServiceBuilder :=
  mkServiceBuilder DISCOVERY_SERVICE_ID true (from_discovery (discovery_new node_addr local_tags connect_tags)) (from_worker (mkServiceWorker [] false)).

Definition vis_builder (info : Info) (collector : bool) : ServiceBuilder :=
  mkServiceBuilder VISUALIZATION_SERVICE_ID collector (from_vis (vis_new info)) (from_worker (mkServiceWorker [] false)).

Definition set_manual_discovery (self : SdnBuilder) (local_tags connect_tags : list (list Z)) : outcome SdnBuilder :=
  sdn_add_service self (discovery_builder (sdn_node_addr self) local_tags connect_tags).

(** The configurations of the workers, in the order they are added, and what
    is sent to the workers at the start. *)
Definition sdn_build (self : SdnBuilder) (workers : nat) (info : Info) (random : Rng) (history : H)
    : outcome (list SdnInnerCfg * list (Z * ExtIn UserData NodeAddr SC)) :=
  if (workers =? 0)%nat then Panic
  else
    self ← sdn_add_service self (vis_builder info (visualization_collector self));
    let cfg controller := mkSdnInnerCfg (sdn_node_id self) (sdn_tick_ms self) (sdn_bind_addrs self) controller (sdn_services self) history in
    Done (cfg (Some (mkControllerCfg (sdn_session self) random)) :: replicate (workers - 1) (cfg None),
          (λ seed, (0, ExtConnectTo seed)) <$> sdn_seeds self).

(** [SdnControllerUtils]: what the user sends goes to the first worker. *)
Definition connect_to (addr : NodeAddr) : Z * ExtIn UserData NodeAddr SC := (0, ExtConnectTo addr).
Definition feature_control (userdata : UserData) (cmd : FeaturesControl NodeAddr) : Z * ExtIn UserData NodeAddr SC := (0, ExtFeaturesControl userdata cmd).
Definition service_control (service : Z) (userdata : UserData) (cmd : SC) : Z * ExtIn UserData NodeAddr SC := (0, ExtServicesControl service userdata cmd).

(** ** The workers of a node and their bus *)

(** Whom the bus hands a message, given the subscriptions so far and the number
    of workers. *)
Class RuntimeBus := {
  recipients : list (Z * SdnChannel) → Z → RuntimeBusControl SdnEvent → list Z;
}.

(** A publication reaches the subscribers of its channel, a broadcast all
    workers. *)
Class RuntimeBusLaws `{RuntimeBus} := {
  publish_recipients : ∀ subs n ch safe e w, w ∈ recipients subs n (BusChannel (Publish ch safe e)) ↔ (w, ch) ∈ subs;
  broadcast_recipients : ∀ subs n safe e w, w ∈ recipients subs n (BusBroadcast safe e) ↔ 0 ≤ w < n;
}.

Definition sub_of (out : WorkerInnerOutput) : option SdnChannel :=
  match out with WoBus (BusChannel (Subscribe ch)) => Some ch | _ => None end.

Definition out_subs (i : Z) (out : option WorkerInnerOutput) : list (Z * SdnChannel) :=
  match out ≫= sub_of with Some ch => [(i, ch)] | None => [] end.

(** The workers of a node, numbered from zero, with the subscriptions made. *)
Inductive node_run (cfgs : list SdnInnerCfg) (timers : Z → TimePivot) : list SdnWorkerInner → list (Z * SdnChannel) → Prop :=
| node_start : node_run cfgs timers (imap (λ i cfg, inner_build (Z.of_nat i) cfg (timers (Z.of_nat i))) cfgs) []
| node_tick nodes subs i self now self' :
    node_run cfgs timers nodes subs → nodes !! i = Some self → inner_on_tick self now = Done self' → node_run cfgs timers (<[i := self']> nodes) subs
| node_event nodes subs i self now event self' :
    node_run cfgs timers nodes subs → nodes !! i = Some self → inner_on_event self now event = Done self' →
    node_run cfgs timers (<[i := self']> nodes) subs
| node_shutdown nodes subs i self now :
    node_run cfgs timers nodes subs → nodes !! i = Some self → node_run cfgs timers (<[i := inner_on_shutdown self now]> nodes) subs
| node_pop nodes subs i self schedule schedules now self' out :
    node_run cfgs timers nodes subs → nodes !! i = Some self → inner_pop_output schedule schedules self now = Done (self', out) →
    node_run cfgs timers (<[i := self']> nodes) (subs ++ out_subs (Z.of_nat i) out).

(** The channels worker [i] subscribes to. *)
Definition wanted (i : Z) : list SdnChannel := ChWorker i :: if i =? 0 then [ChController] else [].

Definition worker_ok (subs : list (Z * SdnChannel)) (i : nat) (self : SdnWorkerInner) : Prop :=
  has_controller (worker_inner self) = (i =? 0)%nat ∧
  ∀ ch, ch ∈ wanted (Z.of_nat i) ↔ (Z.of_nat i, ch) ∈ subs ∨ ch ∈ omap sub_of (wi_queue self).

(** What an operation of a worker does to its subscriptions. *)
Definition inner_keeps (self self' : SdnWorkerInner) (out : option WorkerInnerOutput) : Prop :=
  has_controller (worker_inner self') = has_controller (worker_inner self) ∧
  omap sub_of (wi_queue self) = option_list (out ≫= sub_of) ++ omap sub_of (wi_queue self').

Lemma inner_keeps_ok subs i self self' out :
  inner_keeps self self' out → worker_ok subs i self → worker_ok (subs ++ out_subs (Z.of_nat i) out) i self'.
Proof.
  intros [Hc Hq] [Hok Hs]. split; [by rewrite Hc|]. intros ch. rewrite Hs, Hq, !elem_of_app. unfold out_subs.
  destruct (out ≫= sub_of) as [ch'|]; unfold option_list, option_rect; [|rewrite !elem_of_nil; tauto]. rewrite !list_elem_of_singleton.
  split; [intros [?|[->|?]]; auto|]. intros [[?|[= ->]]|?]; auto.
Qed.

Lemma other_worker_ok subs i j out self : i ≠ j → worker_ok subs j self → worker_ok (subs ++ out_subs (Z.of_nat i) out) j self.
Proof.
  intros Hne [Hok Hs]. split; [done|]. intros ch. rewrite Hs, elem_of_app. unfold out_subs.
  destruct (out ≫= sub_of) as [ch'|]; [|rewrite elem_of_nil; tauto]. rewrite list_elem_of_singleton.
  split; [tauto|]. intros [[?|Heq]|?]; [tauto| |tauto]. injection Heq as Hij ->. lia.
Qed.

Lemma feed_keeps self now input self' : inner_feed self now input = Done self' → inner_keeps self self' None.
Proof.
  unfold inner_feed. destruct (sdn_worker_on_event _ _ _ _ _ _ _) as [inner|] eqn:He; [|done]. intros [= <-]. split; [|done].
  by eapply on_event_keeps.
Qed.

Lemma inner_on_tick_keeps self now self' : inner_on_tick self now = Done self' → inner_keeps self self' None.
Proof.
  unfold inner_on_tick. destruct (sdn_worker_on_tick _ _ _) as [inner|] eqn:He; [|done]. intros [= <-]. split; [|done]. by eapply on_tick_keeps.
Qed.

Lemma inner_on_event_keeps self now event self' : inner_on_event self now event = Done self' → inner_keeps self self' None.
Proof.
  destruct event as [[bind [[addr slot]|]|slot from data]|[w msg|ch msg]|ext]; cbn [inner_on_event]; try apply feed_keeps; try by intros [= <-].
  destruct (bind_slots self !! slot) as [l|]; [|done]. cbn [expect]. rewrite bind_Done. apply feed_keeps.
Qed.

Lemma inner_on_shutdown_keeps self now : inner_keeps self (inner_on_shutdown self now) None.
Proof.
  unfold inner_on_shutdown. destruct (wi_shutdown self); [done|]. split; [apply on_shutdown_keeps|]. cbn [wi_queue]. rewrite omap_app.
  replace (omap sub_of ((λ e, WoNet (UdpUnlisten e.2)) <$> _)) with (@nil SdnChannel); [by rewrite app_nil_r|].
  generalize (hash_iter (wi_bind_addrs self)). intros l. by induction l.
Qed.

Lemma convert_keeps schedules : ∀ self now out r, convert_output schedules self now out = Done r →
  has_controller (worker_inner r.1) = has_controller (worker_inner self) ∧ wi_queue r.1 = wi_queue self ∧ r.2 ≫= sub_of = None.
Proof.
  induction schedules as [|schedule schedules IH]; intros self now out r;
    destruct out as [ext|ext|[p data|ps data]|event| |]; cbn [convert_output];
    try (intros [= <-]; cbn; repeat split; (done || by destruct event || by destruct (wi_bind_addrs self !! pair_local p))); [done..|].
  destruct (pop_output2 _ _ _ _ _ _ _) as [[inner [o|]]|] eqn:Hp; [| |done]; rewrite bind_Done; cbn [fst snd];
    apply pop_output2_keeps in Hp; cbn [fst] in Hp.
  - intros (Hc & Hq & Hs)%IH. by rewrite Hc, <- Hp.
  - by intros [= <-].
Qed.

Lemma inner_pop_keeps schedule schedules self now self' out :
  inner_pop_output schedule schedules self now = Done (self', out) → inner_keeps self self' out.
Proof.
  unfold inner_pop_output. destruct (wi_queue self) as [|e rest] eqn:Hq.
  - destruct (pop_output2 _ _ _ _ _ _ _) as [[inner [o|]]|] eqn:Hp; [| |done]; rewrite bind_Done; cbn [fst snd];
      apply pop_output2_keeps in Hp; cbn [fst] in Hp.
    + intros (Hc & Hq' & Hs)%convert_keeps. cbn [fst snd] in *. split; [by rewrite Hc, <- Hp|]. rewrite Hs, Hq'. cbn. by rewrite Hq.
    + intros [= <- <-]. split; [done|]. cbn. by rewrite Hq.
  - intros [= <- <-]. split; [done|]. rewrite Hq. cbn. by destruct (sub_of e).
Qed.

(** A node starts with one controller, in the first worker. *)
Definition one_controller (cfgs : list SdnInnerCfg) : Prop :=
  ∀ i cfg, cfgs !! i = Some cfg → is_Some (ic_controller cfg) ↔ i = 0%nat.

Lemma inner_build_ok i cfg t : (is_Some (ic_controller cfg) ↔ i = 0%nat) → worker_ok [] i (inner_build (Z.of_nat i) cfg t).
Proof.
  intros Hc. split.
  - unfold has_controller. cbn. destruct (ic_controller cfg), (Nat.eqb_spec i 0) as [->|Hi]; cbn; try done.
    + by destruct (Hi (proj1 Hc (mk_is_Some _ _ eq_refl))).
    + by destruct (proj2 Hc eq_refl).
  - intros ch. cbn [inner_build wi_queue]. rewrite !omap_app. cbn [omap list_omap sub_of]. rewrite elem_of_nil.
    replace (omap sub_of ((λ addr, WoNet (UdpListen addr true)) <$> ic_bind_addrs cfg)) with (@nil SdnChannel) by (by induction (ic_bind_addrs cfg)).
    unfold wanted. destruct (ic_controller cfg) as [c|].
    + rewrite (proj1 Hc (mk_is_Some _ _ eq_refl)). cbn. tauto.
    + rewrite (proj2 (Z.eqb_neq _ _)); [cbn; tauto|]. intros Hi. destruct (proj2 Hc ltac:(lia)) as [? [=]].
Qed.

Lemma node_run_ok cfgs timers nodes subs : one_controller cfgs → node_run cfgs timers nodes subs →
  (∀ i self, nodes !! i = Some self → worker_ok subs i self) ∧ (∀ w ch, (w, ch) ∈ subs → 0 ≤ w < Z.of_nat (length nodes)).
Proof.
  intros Hone Hr. assert (∀ nodes subs i self self' out,
    (∀ i self, nodes !! i = Some self → worker_ok subs i self) ∧ (∀ w ch, (w, ch) ∈ subs → 0 ≤ w < Z.of_nat (length nodes)) →
    nodes !! i = Some self → inner_keeps self self' out →
    (∀ j s, (<[i := self']> nodes) !! j = Some s → worker_ok (subs ++ out_subs (Z.of_nat i) out) j s) ∧
    (∀ w ch, (w, ch) ∈ subs ++ out_subs (Z.of_nat i) out → 0 ≤ w < Z.of_nat (length (<[i := self']> nodes)))) as Hstep.
  { intros ns ss i self self' out [Hok Hin] Hi Hk. split.
    - intros j s. destruct (decide (i = j)) as [<-|Hne].
      + rewrite list_lookup_insert_eq by (by eapply lookup_lt_Some). intros [= <-]. eapply inner_keeps_ok; eauto.
      + rewrite list_lookup_insert_ne by done. intros Hj. apply other_worker_ok; eauto.
    - intros w ch. rewrite length_insert, elem_of_app. intros [Hw|Hw]; [by eapply Hin|]. apply lookup_lt_Some in Hi. unfold out_subs in Hw.
      destruct (out ≫= sub_of); [|by apply elem_of_nil in Hw]. apply list_elem_of_singleton in Hw as [= -> _]. lia. }
  assert (∀ ss i, ss ++ out_subs i None = ss) as Hnil by (intros; apply app_nil_r).
  induction Hr as [|nodes subs i self now self' Hr IH Hi He|nodes subs i self now ev self' Hr IH Hi He|nodes subs i self now Hr IH Hi
    |nodes subs i self sch schs now self' out Hr IH Hi He].
  - split; [|by intros w ch Hn%elem_of_nil]. intros i self. rewrite list_lookup_imap. destruct (cfgs !! i) as [cfg|] eqn:Hc; [|done].
    intros [= <-]. apply inner_build_ok, (Hone _ _ Hc).
  - rewrite <- (Hnil subs (Z.of_nat i)). eapply Hstep; eauto using inner_on_tick_keeps.
  - rewrite <- (Hnil subs (Z.of_nat i)). eapply Hstep; eauto using inner_on_event_keeps.
  - rewrite <- (Hnil subs (Z.of_nat i)). eapply Hstep; eauto using inner_on_shutdown_keeps.
  - eapply Hstep; eauto using inner_pop_keeps.
Qed.

Lemma sdn_add_service_ok self service self' : sdn_add_service self service = Done self' →
  NoDup (sb_service_id <$> sdn_services self) → NoDup (sb_service_id <$> sdn_services self') ∧ sb_service_id service ∈ sb_service_id <$> sdn_services self'.
Proof.
  unfold sdn_add_service. destruct (existsb _ _) eqn:He; [done|]. intros [= <-] Hnd. cbn [sdn_services]. rewrite fmap_app. cbn. split.
  - apply NoDup_app. split; [done|]. split; [|apply NoDup_singleton]. intros x Hx Hs%list_elem_of_singleton. subst x.
    apply list_elem_of_fmap in Hx as (s & Heq & Hin). apply not_true_iff_false in He. apply He. apply existsb_exists. exists s.
    split; [by apply list_elem_of_In|]. by apply Z.eqb_eq.
  - apply elem_of_app. right. apply list_elem_of_singleton. done.
Qed.

Lemma sdn_build_cfgs self workers info random history cfgs starts :
  sdn_build self workers info random history = Done (cfgs, starts) → length cfgs = workers ∧ one_controller cfgs ∧ Forall (λ s, s.1 = 0) starts.
Proof.
  unfold sdn_build. destruct (Nat.eqb_spec workers 0) as [|Hw]; [done|]. destruct (sdn_add_service _ _) as [self'|]; [|done].
  rewrite bind_Done. intros [= <- <-]. split; [cbn; rewrite length_replicate; lia|]. split.
  - intros [|i] cfg; [intros [= <-]; by cbn|]. cbn. intros [-> _]%lookup_replicate. cbn. by split; [intros [? [=]]|].
  - apply Forall_fmap, Forall_true. done.
Qed.

(** Which worker a message on the bus is meant for: an event names its
    destination; one for any worker never goes over the bus. *)
Definition meant_for (event : SdnEvent) (i : Z) (self : SdnWorkerInner) : Prop :=
  match event with
  | BusControl _ => has_controller (worker_inner self) = true
  | BusWorkers event => match logic_event_dest event with DestBroadcast | DestAny => True | DestWorker w => i = w end
  | BusWorker w _ => i = w
  end.

(** An event for one worker, put on the bus as one for all of them. *)
Definition misaddressed (event : SdnEvent) : Prop :=
  match event with BusWorkers event => match logic_event_dest event with DestWorker _ => True | _ => False end | _ => False end.

(** C25. Messages between the workers of a node arrive where they are meant
    to, but for events for one worker. In every state a node built with any
    number of workers can reach, exactly the first worker has the controller
    and the commands of the user at the start go to it. The bus hands a message
    only to workers it is meant for, a message for the controller to a worker
    that has it; an event for one worker is the exception, it is handed to all
    of them. A worker that has handed out what it queued at its start, its
    subscriptions, gets every message that is meant for it. *)
Theorem bus_reaches_its_worker `{RuntimeBusLaws} (builder : SdnBuilder) (workers : nat) (info : Info) (random : Rng) (history : H)
    (cfgs : list SdnInnerCfg) (starts : list (Z * ExtIn UserData NodeAddr SC)) (timers : Z → TimePivot) (nodes : list SdnWorkerInner)
    (subs : list (Z * SdnChannel)) (event : SdnEvent) :
  sdn_build builder workers info random history = Done (cfgs, starts) → node_run cfgs timers nodes subs →
  length nodes = workers ∧ Forall (λ s, s.1 = 0) starts ∧
  (∀ i self, nodes !! i = Some self → has_controller (worker_inner self) = (i =? 0)%nat) ∧
  (∀ w, w ∈ recipients subs (Z.of_nat workers) (bus_of event) →
     ∃ self, nodes !! Z.to_nat w = Some self ∧ (¬ misaddressed event → meant_for event w self)) ∧
  (misaddressed event → ∀ w, w ∈ recipients subs (Z.of_nat workers) (bus_of event) ↔ 0 ≤ w < Z.of_nat workers) ∧
  (∀ i self, nodes !! i = Some self → wi_queue self = [] → meant_for event (Z.of_nat i) self →
     Z.of_nat i ∈ recipients subs (Z.of_nat workers) (bus_of event)).
Proof.
  intros (Hlen & Hone & Hst)%sdn_build_cfgs Hr. assert (length nodes = workers) as Hn.
  { rewrite <- Hlen. clear -Hr. induction Hr; rewrite ?length_insert, ?length_imap; done. }
  destruct (node_run_ok _ _ _ _ Hone Hr) as [Hok Hin]. split; [done|]. split; [done|]. split; [intros i self Hi; apply (Hok _ _ Hi)|]. split.
  - intros w. assert (∀ ch, (w, ch) ∈ subs → ∃ self, nodes !! Z.to_nat w = Some self ∧ ch ∈ wanted w ∧ has_controller (worker_inner self) = (w =? 0)) as Hsub.
    { intros ch Hs. pose proof (Hin _ _ Hs) as Hw. destruct (lookup_lt_is_Some_2 nodes (Z.to_nat w)) as [self Hi]; [lia|]. exists self.
      split; [done|]. destruct (Hok _ _ Hi) as [Hc Hq]. rewrite Z2Nat.id in Hq by lia. split; [apply Hq; by left|]. rewrite Hc.
      destruct (Z.eqb_spec w 0) as [->|Hne]; [done|]. apply Nat.eqb_neq. lia. }
    destruct event as [control|ev|w' cross]; cbn [bus_of]; rewrite ?publish_recipients, ?broadcast_recipients.
    + intros (self & Hi & Hw & Hc)%Hsub. exists self. split; [done|]. intros _. cbn. rewrite Hc. unfold wanted in Hw. destruct (w =? 0); [done|].
      by apply list_elem_of_singleton in Hw.
    + intros Hw. destruct (lookup_lt_is_Some_2 nodes (Z.to_nat w)) as [self Hi]; [lia|]. exists self. split; [done|]. cbn. by destruct (logic_event_dest ev).
    + intros (self & Hi & Hw & Hc)%Hsub. exists self. split; [done|]. intros _. cbn. unfold wanted in Hw. apply elem_of_cons in Hw as [[= ->]|Hw]; [done|].
      destruct (w =? 0); [by apply list_elem_of_singleton in Hw|by apply elem_of_nil in Hw].
  - split.
    { destruct event; cbn [misaddressed bus_of]; [done| |done]. intros _ w. by rewrite broadcast_recipients. }
    intros i self Hi Hq Hm. destruct (Hok _ _ Hi) as [Hc Hs]. rewrite Hq in Hs. cbn in Hs.
    assert (∀ ch, ch ∈ wanted (Z.of_nat i) → (Z.of_nat i, ch) ∈ subs) as Hw.
    { intros ch [?|Hn']%Hs; [done|]. by apply elem_of_nil in Hn'. }
    destruct event as [control|ev|w' cross]; cbn [bus_of meant_for] in *; rewrite ?publish_recipients, ?broadcast_recipients.
    + apply Hw. rewrite Hc in Hm. apply Nat.eqb_eq in Hm as ->. right. left.
    + apply lookup_lt_Some in Hi. lia.
    + rewrite <- Hm. apply Hw. left.
Qed.

(** ** Sockets

    As long as the runtime gives every address its own slot, the two tables of
    slots are inverse to each other, and a packet is answered on the socket it
    came in on. *)
Definition slots_ok (self : SdnWorkerInner) : Prop := ∀ slot addr, bind_slots self !! slot = Some addr ↔ wi_bind_addrs self !! addr = Some slot.

Lemma listen_slots_ok self now bind addr slot self' :
  slots_ok self → bind_slots self !! slot = None → wi_bind_addrs self !! addr = None →
  inner_on_event self now (WiNet (UdpListenResult bind (Some (addr, slot)))) = Done self' → slots_ok self'.
Proof.
  intros Hok Hs Ha [= <-] s a. cbn. rewrite !lookup_insert_Some. unfold slots_ok in Hok. rewrite Hok. split.
  - intros [[<- <-]|[Hne Hl]]; [by left|]. right. split; [congruence|done].
  - intros [[<- <-]|[Hne Hl]]; [by left|]. right. split; [|done]. intros <-. apply Hok in Hl. congruence.
Qed.

Lemma answered_on_same_socket schedules self now slot local from data :
  slots_ok self → bind_slots self !! slot = Some local →
  convert_output schedules self now (SwoNet (UdpPacket (mkNetPair local from) data)) = Done (self, Some (WoNet (BackendUdpPacket slot from data))).
Proof. intros Hok Hl. apply Hok in Hl. destruct schedules; cbn [convert_output pair_local pair_remote]; by rewrite Hl. Qed.
End runner.

(** The clock of a worker does not go back, while it fits in 64 bits. *)
Lemma timestamp_ms_mono t now1 now2 :
  0 ≤ time_us t → now1 ≤ now2 → time_us t / 1000 + as_millis (duration_since now2 (pivot_instant t)) < 2 ^ 64 →
  timestamp_ms t now1 ≤ timestamp_ms t now2.
Proof.
  intros Ht Hn Hb. unfold timestamp_ms. assert (0 ≤ time_us t / 1000) by (apply Z.div_pos; lia).
  assert (∀ n, 0 ≤ as_millis (duration_since n (pivot_instant t))) as Hpos by (intros n; apply Z.div_pos; unfold duration_since; lia).
  assert (as_millis (duration_since now1 (pivot_instant t)) ≤ as_millis (duration_since now2 (pivot_instant t))) as Hm
    by (apply Z.div_le_mono; unfold duration_since; lia).
  pose proof (Hpos now1). pose proof (Hpos now2). rewrite !(wrap_small 64) by (rewrite ?(wrap_small 64) by lia; lia). lia.
Qed.

(** ** A node with two workers *)

#[local] Existing Instance demo_handshake.
#[local] Existing Instance demo_conn_codec.
#[local] Existing Instance demo_open_auth.
#[local] Existing Instance demo_headroom.
#[local] Existing Instance demo_no_control.
#[local] Existing Instance demo_no_codec.
#[local] Existing Instance demo_clear.
#[local] Existing Instance demo_idle_worker.
#[local] Existing Instance demo_idle_service.

(** A bus that does what it says. *)
#[local] Instance demo_bus : RuntimeBus (UserData := Z) (SC := unit) (SE := unit) (TC := unit) (TW := unit) (Encryptor := Z) (Decryptor := Z) := {
  recipients subs n bus :=
    match bus with
    | BusChannel (Publish ch _ _) => fst <$> filter (λ s, s.2 = ch) subs
    | BusChannel (Subscribe _) => []
    | BusBroadcast _ _ => seqZ 0 n
    end;
}.

#[local] Instance demo_bus_laws : RuntimeBusLaws.
Proof.
  split; intros; cbn.
  - rewrite list_elem_of_fmap. setoid_rewrite list_elem_of_filter. split; [by intros [[? ?] (-> & <- & ?)]|]. intros Hs. by exists (w, ch).
  - rewrite elem_of_seqZ. lia.
Qed.

Definition demo_builder : SdnBuilder (S := unit) (W := unit) := sdn_builder_new 1 [SocketV4 0 10] [] 5.

Definition demo_cfg (controller : option (ControllerCfg (Rng := Z))) : SdnInnerCfg (S := unit) (W := unit) (H := DataWorkerHistory) :=
  mkSdnInnerCfg 1 1000 [SocketV4 0 10] controller [mkServiceBuilder VISUALIZATION_SERVICE_ID false () ()] history_default.
Definition demo_cfgs := [demo_cfg (Some (mkControllerCfg 5 0)); demo_cfg None].
Definition demo_timer : Z → TimePivot := λ _, mkTimePivot 0 0.

Abbreviation DemoInner := (SdnWorkerInner (UserData := Z) (SC := unit) (SE := unit) (TC := unit) (TW := unit) (S := unit) (W := unit)
  (H := DataWorkerHistory) (Rng := Z) (Requester := Z) (Encryptor := Z) (Decryptor := Z)) (only parsing).

(** The first worker, and after it was polled three times. *)
Definition demo_first : DemoInner := inner_build 0 (demo_cfg (Some (mkControllerCfg 5 0))) (demo_timer 0).
Definition demo_second : DemoInner := inner_build 1 (demo_cfg None) (demo_timer 1).
Definition demo_popped (self : DemoInner) : DemoInner :=
  mkInner (worker self) (worker_inner self) (timer self) (wi_bind_addrs self) (bind_slots self) (tail (wi_queue self)) (wi_shutdown self).

Abbreviation demo_node_run := (node_run (UserData := Z) (SC := unit) (SE := unit) (TC := unit) (TW := unit) (S := unit) (W := unit)
  (H := DataWorkerHistory) (Encryptor := Z) (Decryptor := Z) demo_rng (λ _, 0) 12 canonical_order demo_cfgs demo_timer) (only parsing).

Lemma bus_reaches_its_worker_witness :
  ∃ nodes subs, demo_node_run nodes subs ∧ length nodes = 2%nat ∧
    0 ∈ recipients (RuntimeBus := demo_bus) subs 2 (bus_of (BusControl (LcExtFeaturesEvent 7 (EvData (Pong 1 None))))).
Proof.
  assert (demo_node_run [demo_popped (demo_popped (demo_popped demo_first)); demo_second] ((([] ++ [(0, ChWorker 0)]) ++ []) ++ [(0, ChController)])) as Hr.
  { apply (node_pop demo_rng (λ _, 0) 12 canonical_order demo_cfgs demo_timer [demo_popped (demo_popped demo_first); demo_second] _ 0
      (demo_popped (demo_popped demo_first)) [] [] 0 _ (Some (WoBus (BusChannel (Subscribe ChController))))); [|reflexivity|reflexivity].
    apply (node_pop demo_rng (λ _, 0) 12 canonical_order demo_cfgs demo_timer [demo_popped demo_first; demo_second] _ 0
      (demo_popped demo_first) [] [] 0 _ (Some (WoNet (UdpListen (SocketV4 0 10) true)))); [|reflexivity|reflexivity].
    apply (node_pop demo_rng (λ _, 0) 12 canonical_order demo_cfgs demo_timer [demo_first; demo_second] [] 0
      demo_first [] [] 0 _ (Some (WoBus (BusChannel (Subscribe (ChWorker 0)))))); [|reflexivity|reflexivity].
    exact (node_start demo_rng (λ _, 0) 12 canonical_order demo_cfgs demo_timer). }
  eexists _, _. split; [exact Hr|].
  pose proof (bus_reaches_its_worker demo_rng (λ _, 0) 12 canonical_order (λ _ : VisualizationService Z NodeAddr unit unit Z, ()) (λ _, ())
    demo_builder 2 9 0 history_default demo_cfgs [] demo_timer _ _ (BusControl (LcExtFeaturesEvent 7 (EvData (Pong 1 None)))) eq_refl Hr)
    as (Hl & _ & _ & _ & _ & Hall).
  split; [exact Hl|]. apply (Hall 0%nat _ eq_refl); reflexivity.
Defined.
