(* ===== verification/Collector.v ===== *)
(** * The node program ([bin/src/main.rs])

    The program that runs a node: it makes the configuration from its
    arguments, keeps the network as the visualization service reports it, shows
    it on web pages over websockets, and answers requests for the routing
    tables. The http server, the sockets and the broadcast channel of [tokio]
    belong to their crates; the channel is a class with what its documentation
    says of it. *)

From S2P Require Import Prelude NodeId ConnId Metric Route Router Shadow History Msg Base Control Neighbours NodeAddr RouterSync DhtMsg DataFeature Features Service DataPlane Discovery Visualization Runner.

(** [visualization::ConnectionInfo] as it is sent to the pages. *)
Record ConnInfo := mkPageConn { uuid : Z; outgoing : bool; pc_dest : NodeId; pc_remote : SocketAddr; pc_rtt_ms : Z }.

Definition conn_info (c : ConnectionInfo) : ConnInfo :=
  mkPageConn (session (ci_conn c)) (is_outgoing (ci_conn c)) (ci_dest c) (ci_remote c) (ci_rtt_ms c).

Record VisualNodeInfo := mkVisualInfo { uptime : Z }.

Record PageNode := mkPageNode { pn_id : NodeId; pn_info : VisualNodeInfo; pn_connections : list ConnInfo }.

Inductive WebsocketMessage :=
| PageSnapshot (nodes : list PageNode)
| PageUpdate (node : PageNode)
| PageDelete (id : NodeId).

(** ** [tokio::sync::broadcast]

    A receiver gets the messages sent after it subscribed, in order, unless it
    falls so far behind that the channel has dropped some: then [recv] fails
    once, with [Lagged]. The channel keeps at least as many messages as it was
    made for. *)
Inductive RecvResult (M : Type) := RecvOk (m : M) | RecvLagged | RecvWaits.
Arguments RecvOk {_} _.
Arguments RecvLagged {_}.
Arguments RecvWaits {_}.

Class Broadcast (M Sender Receiver : Type) := {
  broadcast_channel : nat → Sender;
  broadcast_send : Sender → M → Sender;
  broadcast_subscribe : Sender → Receiver;
  broadcast_recv : Sender → Receiver → Receiver * RecvResult M;
}.

Class BroadcastLaws (M Sender Receiver : Type) `{Broadcast M Sender Receiver} := {
  (** The receivers of a channel, and what is still to come for them: [None]
      when some of it was dropped. *)
  subscribed : Sender → Receiver → Prop;
  backlog : Sender → Receiver → option (list M);
  capacity : Sender → nat;
  capacity_channel : ∀ n, (n ≤ capacity (broadcast_channel n))%nat;
  capacity_send : ∀ s m, capacity (broadcast_send s m) = capacity s;
  subscribe_new : ∀ s, subscribed s (broadcast_subscribe s) ∧ backlog s (broadcast_subscribe s) = Some [];
  send_backlog : ∀ s m r, subscribed s r → subscribed (broadcast_send s m) r ∧
    backlog (broadcast_send s m) r =
      match backlog s r with
      | Some l => if decide (length l < capacity s)%nat then Some (l ++ [m]) else None
      | None => None
      end;
  recv_backlog : ∀ s r, subscribed s r → ∃ r' res, broadcast_recv s r = (r', res) ∧ subscribed s r' ∧
    match backlog s r with
    | Some (m :: l) => res = RecvOk m ∧ backlog s r' = Some l
    | Some [] => res = RecvWaits ∧ backlog s r' = Some []
    | None => res = RecvLagged
    end;
}.

Section collector.
Context {Sender Receiver : Type} `{Broadcast WebsocketMessage Sender Receiver}.

Abbreviation Reported := (NodeId * VisualNodeInfo * list ConnectionInfo)%type (only parsing).

(** ** [WebsocketCtx] *)

Record WebsocketCtx := mkWebCtx {
  channel : Sender;
  snapshot : gmap NodeId (VisualNodeInfo * list ConnInfo);
}.

Definition webctx_new : WebsocketCtx := mkWebCtx (broadcast_channel 10) ∅.

Definition set_snapshot (self : WebsocketCtx) (all : list Reported) : WebsocketCtx :=
  mkWebCtx (channel self) (foldl (λ m e, <[e.1.1 := (e.1.2, conn_info <$> e.2)]> m) ∅ all).

(** [send] fails without receivers, which is only logged. *)
Definition set_node (self : WebsocketCtx) (delta : Reported) : WebsocketCtx :=
  let connections := conn_info <$> delta.2 in
  mkWebCtx (broadcast_send (channel self) (PageUpdate (mkPageNode delta.1.1 delta.1.2 connections)))
    (<[delta.1.1 := (delta.1.2, connections)]> (snapshot self)).

Definition del_node (self : WebsocketCtx) (id : NodeId) : WebsocketCtx :=
  mkWebCtx (broadcast_send (channel self) (PageDelete id)) (delete id (snapshot self)).

Definition get_snapshot (order : HashOrder) (self : WebsocketCtx) : list PageNode :=
  (λ e, mkPageNode e.1 e.2.1 e.2.2) <$> hash_iter (snapshot self).

Definition web_subscribe (self : WebsocketCtx) : Receiver := broadcast_subscribe (channel self).

(** ** The websocket handler [ws]

    The handler of one page: its receiver, what it has sent to the page, and
    whether it has returned. [send_ok] says whether the page still takes
    messages. *)
Record PageSocket := mkPageSocket { ps_rx : Receiver; ps_sent : list WebsocketMessage; ps_returned : bool }.

(** Up to the loop, under the lock of the context. *)
Definition ws_open (order : HashOrder) (ctx : WebsocketCtx) (send_ok : bool) : PageSocket :=
  let message := PageSnapshot (get_snapshot order ctx) in
  if send_ok then mkPageSocket (web_subscribe ctx) [message] false
  else mkPageSocket (web_subscribe ctx) [] true.

(** One turn of the loop, when [recv] returns. *)
Definition ws_turn (ctx : WebsocketCtx) (self : PageSocket) (send_ok : bool) : PageSocket :=
  if ps_returned self then self
  else
    match broadcast_recv (channel ctx) (ps_rx self) with
    | (rx, RecvOk event) => if send_ok then mkPageSocket rx (ps_sent self ++ [event]) false else mkPageSocket rx (ps_sent self) true
    | (rx, RecvLagged) => mkPageSocket rx (ps_sent self) true
    | (rx, RecvWaits) => mkPageSocket rx (ps_sent self) false
    end.

(** ** The configuration *)

Inductive BackendType := BackendPoll | BackendPolling.

Record Args := mkArgs {
  arg_node_id : NodeId;
  arg_udp_port : Z;
  arg_seeds : list NodeAddr;
  arg_password : list Z;
  arg_backend : BackendType;
  arg_vpn : bool;
  arg_workers : nat;
  arg_custom_addrs : list SocketAddr;
  arg_local_tags : list (list Z);
  arg_connect_tags : list (list Z);
  arg_web_addr : SocketAddr;
  arg_collector : bool;
}.

Inductive IpAddr := IpV4 (ip : Z) | IpV6 (ip : Z).

Definition ip_unspecified (a : IpAddr) : bool := match a with IpV4 ip | IpV6 ip => ip =? 0 end.
Definition ip_multicast (a : IpAddr) : bool :=
  match a with IpV4 ip => Z.shiftr ip 28 =? 0xE | IpV6 ip => Z.shiftr ip 120 =? 0xFF end.
Definition socket_new (a : IpAddr) (port : Z) : SocketAddr :=
  match a with IpV4 ip => SocketV4 ip port | IpV6 ip => SocketV6 ip port 0 0 end.

(** The addresses of the interfaces a node listens on; [bind_ok] is what the
    system says to a socket on a free port. *)
Definition main_addrs (bind_ok : SocketAddr → bool) (interfaces : list IpAddr) (port : Z) : list SocketAddr :=
  (λ ip, socket_new ip port) <$>
    filter (λ ip, (if ip_unspecified ip || ip_multicast ip then false else bind_ok (socket_new ip 0)) = true) interfaces.

Section builder.
Context {UserData SC SE TC TW S W : Type} `{MultiaddrBytes}.
Context (from_discovery : ManualDiscoveryService UserData SE TW → S) (from_worker : ForwardingServiceWorker UserData SC SE TC → W).

(** The builder from the arguments; the password goes to the authorization,
    the [vpn] flag to the tun device. *)
Definition main_builder (args : Args) (addrs : list SocketAddr) (session : Z) : outcome (SdnBuilder (S := S) (W := W)) :=
  let builder := sdn_builder_new (arg_node_id args) addrs (arg_custom_addrs args) session in
  builder ← set_manual_discovery from_discovery from_worker builder (arg_local_tags args) (arg_connect_tags args);
  let builder := set_visualization_collector builder (arg_collector args) in
  Done (foldl add_seed builder (arg_seeds args)).
End builder.

(** ** The loop of [main] *)

(** A router dump as json. *)
Context {Request Json : Type}.
Context (to_json : NodeId * (list Z * gmap Z (option NodeId * gmap NodeId Metric)) * list (Z * gmap Z (gmap NodeId Metric)) → Json).

Abbreviation SC := (VisControl VisualNodeInfo) (only parsing).
Abbreviation SE := (VisEvent VisualNodeInfo) (only parsing).

(** What the program asks of the controller. *)
Inductive MainOut :=
| MainControl (worker : Z) (ext : ExtIn unit NodeAddr SC)
| MainShutdown.

Definition main_control (e : Z * ExtIn unit NodeAddr SC) : MainOut := MainControl e.1 e.2.

Record MainState := mkMain {
  web : WebsocketCtx;
  shutdown_wait : Z;
  count : Z;
  wait_dump_router : list Request;
}.

(** What [main] begins with: a collector subscribes to the service. *)
Definition main_start (args : Args) : MainState * list MainOut :=
  (mkMain webctx_new 0 0 [], if arg_collector args then [main_control (service_control VISUALIZATION_SERVICE_ID () VisSubscribe)] else []).

(** A 32 bit signed counter. *)
Definition wrap_i32 (z : Z) : Z := wrap 32 (z + 2 ^ 31) - 2 ^ 31.

Definition main_service_event (self : WebsocketCtx) (event : SE) : WebsocketCtx :=
  match event with
  | GotAll all => set_snapshot self all
  | NodeChanged node info changed => set_node self (node, info, changed)
  | NodeRemoved node => del_node self node
  end.

(** One event of the controller, with the answers it gives. *)
Definition main_event (self : MainState) (event : ExtOut unit SE) : MainState * list (Request * Json) :=
  match event with
  | ExtServicesEvent _ _ event => (mkMain (main_service_event (web self) event) (shutdown_wait self) (count self) (wait_dump_router self), [])
  | ExtFeaturesEvent _ (EvRouterSync (EvDumpRouter value)) =>
      let json := to_json value in
      (* [while let Some(v) = wait_dump_router.pop()] takes from the end *)
      (mkMain (web self) (shutdown_wait self) (count self) [], (λ v, (v, json)) <$> reverse (wait_dump_router self))
  | ExtFeaturesEvent _ _ => (self, [])
  end.

Fixpoint main_events (self : MainState) (events : list (ExtOut unit SE)) : MainState * list (Request * Json) :=
  match events with
  | [] => (self, [])
  | e :: rest => let r := main_event self e in let r' := main_events r.1 rest in (r'.1, r.2 ++ r'.2)
  end.

(** One turn of the loop: the signal flag, the seconds since the start, the
    requests that came in and the events of the controller. [None] leaves the
    loop. *)
Definition main_turn (self : MainState) (term : bool) (elapsed : Z) (requests : list Request) (events : list (ExtOut unit SE))
    : option (MainState * list MainOut * list (Request * Json)) :=
  if term && (shutdown_wait self =? 200) then None
  else
    let stop := if term then [MainShutdown] else [] in
    let wait := if term then shutdown_wait self + 1 else shutdown_wait self in
    let info := if Z.rem (count self) 500 =? 0
      then [main_control (service_control VISUALIZATION_SERVICE_ID () (VisUpdateInfo (mkVisualInfo (wrap 32 elapsed))))] else [] in
    let dumps := (λ _, main_control (feature_control () (CtlRouterSync DumpRouter))) <$> requests in
    let r := main_events (mkMain (web self) wait (count self) (wait_dump_router self ++ requests)) events in
    Some (mkMain (web r.1) (shutdown_wait r.1) (wrap_i32 (count r.1 + 1)) (wait_dump_router r.1), stop ++ info ++ dumps, r.2).

(** The answer of the http handler [dump_router]: what came through the
    [oneshot] channel within a second. *)
Inductive DumpReply := DumpData (data : Json) | DumpDropped | DumpTimeout.

Definition dump_reply (answer : option (option Json)) : DumpReply :=
  match answer with
  | Some (Some v) => DumpData v
  | Some None => DumpDropped
  | None => DumpTimeout
  end.
End collector.

(** ** The page ([bin/public/app.js])

    What the script of the page draws. The graph is an object of the library
    [cytoscape], a class with what its documentation says of the nodes; labels
    are what they are made of. Batches, the layout and [cy.data], which only
    annotates the graph, are left out. *)

(** [edgeKey]: the text is made of three numbers. *)
Definition EdgeKey : Type := NodeId * NodeId * Z.
Definition edge_key (from to uuid : Z) (is_outgoing : bool) : EdgeKey := if is_outgoing then (from, to, uuid) else (to, from, uuid).

Record PageEdge := mkPageEdge { edge_source : NodeId; edge_target : NodeId; edge_nodes : gmap NodeId (SocketAddr * Z) }.

Class Cytoscape (G : Type) := {
  cy_new : G;
  cy_has_node : G → NodeId → bool;
  cy_add_node : G → NodeId → G;
  cy_remove_node : G → NodeId → G;
  cy_remove_data : G → G;
  cy_has_edge : G → EdgeKey → bool;
  cy_add_edge : G → EdgeKey → PageEdge → G;
  cy_set_label : G → EdgeKey → PageEdge → G;
}.

Class CytoscapeLaws (G : Type) `{Cytoscape G} := {
  new_nodes : ∀ n, cy_has_node cy_new n = false;
  add_node_nodes : ∀ g n m, cy_has_node (cy_add_node g n) m = true ↔ m = n ∨ cy_has_node g m = true;
  remove_node_nodes : ∀ g n m, cy_has_node (cy_remove_node g n) m = true ↔ m ≠ n ∧ cy_has_node g m = true;
  remove_data_nodes : ∀ g m, cy_has_node (cy_remove_data g) m = cy_has_node g m;
  add_edge_nodes : ∀ g k e m, cy_has_node (cy_add_edge g k e) m = cy_has_node g m;
  set_label_nodes : ∀ g k e m, cy_has_node (cy_set_label g k e) m = cy_has_node g m;
}.

Section page.
Context {G : Type} `{Cytoscape G}.

Record Page := mkPage { cy : G; edges : gmap EdgeKey PageEdge }.

Definition page_new : Page := mkPage cy_new ∅.

(** The entry of [edges] a connection of [node] makes or completes. *)
Definition edge_entry (edges : gmap EdgeKey PageEdge) (node : NodeId) (c : ConnInfo) : PageEdge :=
  match edges !! edge_key node (pc_dest c) (uuid c) (outgoing c) with
  | None => mkPageEdge (if outgoing c then node else pc_dest c) (if outgoing c then pc_dest c else node) {[ node := (pc_remote c, pc_rtt_ms c) ]}
  | Some e => mkPageEdge (edge_source e) (edge_target e) (<[node := (pc_remote c, pc_rtt_ms c)]> (edge_nodes e))
  end.

Definition draw_dest (g : G) (c : ConnInfo) : G := if cy_has_node g (pc_dest c) then g else cy_add_node g (pc_dest c).

(** [resetGraph]; [Object.values(edges)] in some order. *)
Definition reset_connection (node : NodeId) (p : Page) (c : ConnInfo) : Page :=
  mkPage (draw_dest (cy p) c) (<[edge_key node (pc_dest c) (uuid c) (outgoing c) := edge_entry (edges p) node c]> (edges p)).
Definition reset_node (p : Page) (n : PageNode) : Page := foldl (reset_connection (pn_id n)) (mkPage (cy_add_node (cy p) (pn_id n)) (edges p)) (pn_connections n).
Definition reset_graph (order : HashOrder) (p : Page) (nodes : list PageNode) : Page :=
  let p := foldl reset_node (mkPage (cy_remove_data (cy p)) (edges p)) nodes in
  mkPage (foldl (λ g e, cy_add_edge g e.1 e.2) (cy p) (hash_iter (edges p))) (edges p).

Definition update_connection (node : NodeId) (p : Page) (c : ConnInfo) : Page :=
  let key := edge_key node (pc_dest c) (uuid c) (outgoing c) in
  let entry := edge_entry (edges p) node c in
  let g := draw_dest (cy p) c in
  mkPage (if cy_has_edge g key then cy_set_label g key entry else cy_add_edge g key entry) (<[key := entry]> (edges p)).
Definition update_node (p : Page) (n : PageNode) : Page :=
  foldl (update_connection (pn_id n)) (mkPage (if cy_has_node (cy p) (pn_id n) then cy p else cy_add_node (cy p) (pn_id n)) (edges p)) (pn_connections n).

Definition delete_node (p : Page) (id : NodeId) : Page := mkPage (cy_remove_node (cy p) id) (edges p).

(** [ws.onmessage]. *)
Definition page_on_message (order : HashOrder) (p : Page) (message : WebsocketMessage) : Page :=
  match message with
  | PageSnapshot nodes => reset_graph order p nodes
  | PageUpdate node => update_node p node
  | PageDelete id => delete_node p id
  end.
End page.

Arguments Page G : clear implicits.

(** ** The pages *)

Section pages.
Context {Sender Receiver : Type} `{BroadcastLaws WebsocketMessage Sender Receiver}.

Abbreviation Told := (gmap NodeId (VisualNodeInfo * list ConnInfo)) (only parsing).

(** What the messages sent to a page say of the network. *)
Definition told (nodes : Told) (message : WebsocketMessage) : Told :=
  match message with
  | PageSnapshot nodes => list_to_map ((λ n, (pn_id n, (pn_info n, pn_connections n))) <$> nodes)
  | PageUpdate n => <[pn_id n := (pn_info n, pn_connections n)]> nodes
  | PageDelete id => delete id nodes
  end.

(** The nodes of a subscriber of the service, as the pages are told them. *)
Definition render (view : gmap NodeId (VisualNodeInfo * list ConnectionInfo)) : Told := (λ x : VisualNodeInfo * list ConnectionInfo, (x.1, conn_info <$> x.2)) <$> view.

(** The nodes the page has on screen: the other ends of the connections are
    drawn too, so there may be more than it was told of. *)
Section drawn.
Context {G : Type} `{CytoscapeLaws G}.

Abbreviation drawn p n := (cy_has_node (cy p) n = true).

Lemma draw_dest_nodes (g : G) c n : cy_has_node (draw_dest g c) n = true ↔ n = pc_dest c ∨ cy_has_node g n = true.
Proof. unfold draw_dest. destruct (cy_has_node g (pc_dest c)) eqn:Hd; [|apply add_node_nodes]. split; [by right|]. by intros [->|?]. Qed.

Lemma draw_connections (f : Page G → ConnInfo → Page G) cs :
  (∀ p c n, drawn (f p c) n ↔ n = pc_dest c ∨ drawn p n) →
  ∀ p n, drawn (foldl f p cs) n ↔ (∃ c, c ∈ cs ∧ pc_dest c = n) ∨ drawn p n.
Proof.
  intros Hf. induction cs as [|c cs IH]; intros p n; cbn [foldl].
  - split; [by right|]. intros [(c & Hc%elem_of_nil & _)|?]; done.
  - rewrite IH, Hf. setoid_rewrite elem_of_cons. naive_solver.
Qed.

Lemma update_node_drawn p (x : PageNode) n : drawn (update_node p x) n ↔ n = pn_id x ∨ (∃ c, c ∈ pn_connections x ∧ pc_dest c = n) ∨ drawn p n.
Proof.
  unfold update_node. rewrite draw_connections.
  - cbn [cy]. destruct (cy_has_node (cy p) (pn_id x)) eqn:Hx; [|rewrite add_node_nodes; tauto]. split; [tauto|]. intros [->|?]; tauto.
  - intros p' c m. cbn [update_connection cy]. rewrite <- draw_dest_nodes. by case_match; rewrite ?set_label_nodes, ?add_edge_nodes.
Qed.

Lemma reset_node_drawn p (x : PageNode) n : drawn (reset_node p x) n ↔ n = pn_id x ∨ (∃ c, c ∈ pn_connections x ∧ pc_dest c = n) ∨ drawn p n.
Proof.
  unfold reset_node. rewrite draw_connections by (intros; apply draw_dest_nodes). cbn [cy]. rewrite add_node_nodes. tauto.
Qed.

Lemma reset_nodes_drawn nodes : ∀ p n,
  drawn (foldl reset_node p nodes) n ↔ (∃ x, x ∈ nodes ∧ (n = pn_id x ∨ ∃ c, c ∈ pn_connections x ∧ pc_dest c = n)) ∨ drawn p n.
Proof.
  induction nodes as [|x nodes IH]; intros p n; cbn [foldl].
  - split; [by right|]. intros [(x & Hx%elem_of_nil & _)|?]; done.
  - rewrite IH, reset_node_drawn. setoid_rewrite elem_of_cons. naive_solver.
Qed.

Lemma reset_graph_drawn order p nodes n :
  drawn (reset_graph order p nodes) n ↔ (∃ x, x ∈ nodes ∧ (n = pn_id x ∨ ∃ c, c ∈ pn_connections x ∧ pc_dest c = n)) ∨ drawn p n.
Proof.
  assert (∀ (l : list (EdgeKey * PageEdge)) g, cy_has_node (foldl (λ g e, cy_add_edge g e.1 e.2) g l) n = cy_has_node g n) as He.
  { induction l as [|e l IH]; intros g; [done|]. cbn. by rewrite IH, add_edge_nodes. }
  unfold reset_graph. cbn [cy]. rewrite He, reset_nodes_drawn. cbn [cy]. by rewrite remove_data_nodes.
Qed.

Lemma told_drawn order ms : ∀ (p : Page G) (nodes : Told),
  (∀ n, is_Some (nodes !! n) → drawn p n) →
  ∀ n, is_Some (foldl told nodes ms !! n) → drawn (foldl (page_on_message order) p ms) n.
Proof.
  induction ms as [|m ms IH]; intros p nodes Hp; [done|]. cbn [foldl]. apply IH. intros n. destruct m as [l|x|id]; cbn [told page_on_message].
  - rewrite reset_graph_drawn. intros [v Hv%elem_of_list_to_map_2]. left. apply list_elem_of_fmap in Hv as (x & [= -> _] & Hx). exists x. by split; [|left].
  - rewrite update_node_drawn. intros [v [[<- _]|[_ Hv]]%lookup_insert_Some]; [by left|]. right. right. apply Hp. by eexists.
  - cbn [delete_node cy]. rewrite remove_node_nodes. intros [v [Hne Hv]%lookup_delete_Some]. split; [done|]. apply Hp. by eexists.
Qed.
End drawn.

(** The server: the context, and the handlers of the pages in the order they
    were opened. *)
Record Server := mkServer { sv_ctx : WebsocketCtx (Sender := Sender); sv_pages : list (PageSocket (Receiver := Receiver)) }.

Definition open_page (order : HashOrder) (s : Server) (send_ok : bool) : Server :=
  mkServer (sv_ctx s) (sv_pages s ++ [ws_open order (sv_ctx s) send_ok]).

(** Its steps, with the event of the service that it handled. *)
Inductive server_step (s : Server) : option (VisEvent VisualNodeInfo) → Server → Prop :=
| sv_event e : server_step s (Some e) (mkServer (main_service_event (sv_ctx s) e) (sv_pages s))
| sv_open order send_ok : server_step s None (open_page order s send_ok)
| sv_turn i page send_ok :
    sv_pages s !! i = Some page → server_step s None (mkServer (sv_ctx s) (<[i := ws_turn (sv_ctx s) page send_ok]> (sv_pages s))).

Inductive server_run (s : Server) : list (VisEvent VisualNodeInfo) → Server → Prop :=
| server_nil : server_run s [] s
| server_cons o es s1 s2 : server_step s o s1 → server_run s1 es s2 → server_run s (option_list o ++ es) s2.

Definition is_got_all (e : VisEvent VisualNodeInfo) : Prop := match e with GotAll _ => True | _ => False end.

(** The page agrees with the context once it has the messages still to come. *)
Definition page_agrees (ctx : WebsocketCtx (Sender := Sender)) (page : PageSocket (Receiver := Receiver)) : Prop :=
  ps_returned page = false →
  subscribed (channel ctx) (ps_rx page) ∧
  match backlog (channel ctx) (ps_rx page) with
  | Some l => foldl told ∅ (ps_sent page ++ l) = snapshot ctx
  | None => True
  end.

Lemma open_agrees order ctx send_ok : page_agrees ctx (ws_open order ctx send_ok).
Proof.
  unfold page_agrees, ws_open. destruct send_ok; cbn [ps_returned ps_rx ps_sent]; [|done]. intros _. unfold web_subscribe.
  destruct (subscribe_new (channel ctx)) as [Hsub Hb]. split; [done|]. rewrite Hb. cbn.
  unfold get_snapshot. rewrite <- list_fmap_compose. rewrite <- (list_to_map_to_list (snapshot ctx)) at 2. apply list_to_map_proper.
  - rewrite <- list_fmap_compose. apply (NoDup_hash_iter_keys (snapshot ctx)).
  - rewrite (hash_iter_perm (snapshot ctx)). rewrite <- (list_fmap_id (map_to_list (snapshot ctx))) at 2. apply eq_subrelation; [apply _|].
    apply list_fmap_ext. by intros ? [? []] _.
Qed.

Lemma event_agrees ctx page e : ¬ is_got_all e → page_agrees ctx page → page_agrees (main_service_event ctx e) page.
Proof.
  intros Hg Hp Hr. destruct (Hp Hr) as [Hsub Hb]. clear Hp.
  assert (∀ m, snapshot (main_service_event ctx e) = told (snapshot ctx) m → channel (main_service_event ctx e) = broadcast_send (channel ctx) m →
    subscribed (channel (main_service_event ctx e)) (ps_rx page) ∧
    match backlog (channel (main_service_event ctx e)) (ps_rx page) with Some l => foldl told ∅ (ps_sent page ++ l) = snapshot (main_service_event ctx e) | None => True end) as Hsend.
  { intros m Hs Hc. rewrite Hs, Hc. destruct (send_backlog (channel ctx) m (ps_rx page) Hsub) as [Hsub' Hb']. split; [done|]. rewrite Hb'.
    destruct (backlog (channel ctx) (ps_rx page)) as [l|]; [|done]. case_decide; [|done]. rewrite app_assoc, foldl_snoc. by rewrite Hb. }
  destruct e as [all|node info changed|node]; [by destruct Hg|by apply (Hsend (PageUpdate (mkPageNode node info (conn_info <$> changed))))|by apply (Hsend (PageDelete node))].
Qed.

Lemma turn_agrees ctx page send_ok : page_agrees ctx page → page_agrees ctx (ws_turn ctx page send_ok).
Proof.
  unfold page_agrees, ws_turn. destruct (ps_returned page) eqn:Hret; [by rewrite Hret|]. intros Hp. destruct (Hp eq_refl) as [Hsub Hb].
  destruct (recv_backlog (channel ctx) (ps_rx page) Hsub) as (rx & res & -> & Hsub' & Hres).
  destruct (backlog (channel ctx) (ps_rx page)) as [[|m l]|].
  - destruct Hres as [-> Hb']. cbn. intros _. by rewrite Hb'.
  - destruct Hres as [-> Hb']. destruct send_ok; cbn; [|done]. intros _. split; [done|]. by rewrite Hb', <- app_assoc.
  - by subst res.
Qed.

Lemma run_agrees s es s' : server_run s es s' → Forall (λ e, ¬ is_got_all e) es →
  ∀ i page', sv_pages s' !! i = Some page' → (∀ page, sv_pages s !! i = Some page → page_agrees (sv_ctx s) page) → page_agrees (sv_ctx s') page'.
Proof.
  induction 1 as [s|s o es s1 s2 Hstep _ IH]; intros Hg i page' Hi Hpage; [by apply Hpage|].
  apply Forall_app in Hg as [Hg1 Hg2]. apply (IH Hg2 i page' Hi). intros page Hp. destruct Hstep as [e|order send_ok|j page0 send_ok Hj]; cbn [sv_ctx sv_pages] in *.
  - apply event_agrees; [exact (Forall_inv Hg1)|]. by apply Hpage.
  - cbn in Hp. apply lookup_snoc_Some in Hp as [[_ Hp]|[_ <-]]; [by apply Hpage|apply open_agrees].
  - destruct (decide (i = j)) as [->|Hne]; [|rewrite list_lookup_insert_ne in Hp by done; by apply Hpage].
    rewrite list_lookup_insert_eq in Hp by (by eapply lookup_lt_Some). injection Hp as <-. apply turn_agrees. by apply Hpage.
Qed.

(** The context has what a subscriber of the service knows. *)
Lemma run_snapshot s es s' view : server_run s es s' → snapshot (sv_ctx s) = render view → snapshot (sv_ctx s') = render (foldl vis_view view es).
Proof.
  intros Hrun. revert view. induction Hrun as [s|s o es s1 s2 Hstep _ IH]; intros view Hv; [done|]. rewrite foldl_app. apply IH.
  destruct Hstep as [e|order send_ok|i page send_ok Hi]; [|done..]. cbn [sv_ctx option_list foldl]. destruct e as [all|node info changed|node]; cbn.
  - assert (∀ m m' : gmap NodeId _, m' = render m → foldl (λ m e, <[e.1.1 := (e.1.2, conn_info <$> e.2)]> m) m' all = render (foldl (λ m e, <[e.1.1 := (e.1.2, e.2)]> m) m all)) as Hall; [|apply Hall; symmetry; apply fmap_empty].
    clear. induction all as [|e all IHa]; intros m m' ->; [done|]. cbn [foldl]. apply IHa. unfold render. by rewrite fmap_insert.
  - rewrite Hv. unfold render. by rewrite fmap_insert.
  - rewrite Hv. unfold render. by rewrite fmap_delete.
Qed.

(** A page that has everything. *)
Lemma page_waits ctx page : page_agrees ctx page → ps_returned page = false → (broadcast_recv (channel ctx) (ps_rx page)).2 = RecvWaits →
  foldl told ∅ (ps_sent page) = snapshot ctx.
Proof.
  intros Hp Hr Hw. destruct (Hp Hr) as [Hsub Hb]. destruct (recv_backlog _ _ Hsub) as (rx & res & Heq & _ & Hres). rewrite Heq in Hw. cbn in Hw. subst res.
  destruct (backlog (channel ctx) (ps_rx page)) as [[|m l]|]; [|by destruct Hres|done]. by rewrite app_nil_r in Hb.
Qed.

Context {UserData Addr Secure SC SE TC TW : Type} `{EqDecision UserData} {msg_codec : Codec (VisMessage VisualNodeInfo)}.
Context (control_try_into : SC → option (VisControl VisualNodeInfo)) (event_into : VisEvent VisualNodeInfo → SE) (event_try_into : SE → option (VisEvent VisualNodeInfo)).
Hypothesis event_roundtrip : ∀ e, event_try_into (event_into e) = Some e.
Context {G : Type} `{CytoscapeLaws G}.

(** C36. A page is told the network: to a page that was opened after the
    collector had the list of the nodes, and that has taken what the program
    sent it, the messages sent say exactly which nodes the visualization
    service knows, with their connections, whatever pages are opened, closed
    and served meanwhile; and the page's script, fed with these messages, has
    every node that the service knows on screen. (It may have more: it also
    draws the other end of every connection.) *)
Theorem page_is_told_network (info : VisualNodeInfo) (self : VisualizationService UserData Addr SE TW VisualNodeInfo) outs (a : ServiceControlActor UserData)
    (order : HashOrder) (es1 es2 : list (VisEvent VisualNodeInfo)) (s1 s2 : Server) (page : PageSocket (Receiver := Receiver)) :
  vis_run (Secure := Secure) (TC := TC) control_try_into event_into info self outs → a ∈ subscribers self → vs_queue self = [] →
  omap (event_for event_try_into a) outs = es1 ++ es2 → Forall (λ e, ¬ is_got_all e) es2 →
  server_run (mkServer webctx_new []) es1 s1 → server_run (open_page order s1 true) es2 s2 →
  sv_pages s2 !! length (sv_pages s1) = Some page → ps_returned page = false →
  (broadcast_recv (channel (sv_ctx s2)) (ps_rx page)).2 = RecvWaits →
  foldl told ∅ (ps_sent page) = render (known self) ∧
  ∀ order' n, is_Some (known self !! n) → cy_has_node (cy (foldl (page_on_message order') (page_new : Page G) (ps_sent page))) n = true.
Proof.
  intros Hrun Ha Hq Hes Hg Hr1 Hr2 Hpage Hret Hw. assert (foldl told ∅ (ps_sent page) = render (known self)) as Htold.
  2:{ split; [done|]. intros order' n Hn. apply (told_drawn _ _ _ ∅); [intros m [? Hm]; by rewrite lookup_empty in Hm|].
      rewrite Htold. unfold render. rewrite lookup_fmap. by apply fmap_is_Some. }
  pose proof (subscriber_view control_try_into event_into event_try_into event_roundtrip info self outs a Hrun Ha) as Hview.
  unfold view_after in Hview. rewrite Hq, app_nil_r, Hes, foldl_app in Hview. rewrite <- Hview, <- (run_snapshot _ _ _ (foldl vis_view ∅ es1) Hr2).
  - apply page_waits; [|done..]. apply (run_agrees _ _ _ Hr2 Hg _ _ Hpage). intros page0 Hp0. cbn [open_page sv_pages sv_ctx] in Hp0 |- *.
    rewrite list_lookup_middle in Hp0 by done. injection Hp0 as <-. apply (open_agrees order (sv_ctx s1) true).
  - cbn [open_page sv_ctx]. apply (run_snapshot _ _ _ _ Hr1). symmetry. apply fmap_empty.
Qed.
End pages.

(** ** The loop *)

Section loop.
Context {Sender Receiver : Type} `{Broadcast WebsocketMessage Sender Receiver} {Request Json : Type}.
Context (to_json : NodeId * (list Z * gmap Z (option NodeId * gmap NodeId Metric)) * list (Z * gmap Z (gmap NodeId Metric)) → Json).

Definition is_dump (e : ExtOut unit (VisEvent VisualNodeInfo)) : Prop :=
  match e with ExtFeaturesEvent _ (EvRouterSync (EvDumpRouter _)) => True | _ => False end.

Lemma main_events_answers events : ∀ (self : MainState (Sender := Sender) (Request := Request)),
  let r := main_events to_json self events in
  wait_dump_router self ≡ₚ r.2.*1 ++ wait_dump_router r.1 ∧ shutdown_wait r.1 = shutdown_wait self ∧ (Exists is_dump events → wait_dump_router r.1 = []).
Proof.
  induction events as [|e events IH]; intros self; cbn [main_events fst snd].
  { split; [done|]. split; [done|]. by intros ?%Exists_nil. }
  assert (wait_dump_router self ≡ₚ (main_event to_json self e).2.*1 ++ wait_dump_router (main_event to_json self e).1 ∧
    shutdown_wait (main_event to_json self e).1 = shutdown_wait self ∧ (is_dump e → wait_dump_router (main_event to_json self e).1 = [])) as (Hp & Hs & Hd).
  { destruct e as [u [?|?|[dump]|?|?|?|?|?]|u service ev]; cbn; try done. split; [|done].
    rewrite app_nil_r, <- list_fmap_compose. rewrite (list_fmap_ext _ id), list_fmap_id by done. by rewrite reverse_Permutation. }
  destruct (IH (main_event to_json self e).1) as (Hp' & Hs' & Hd'). split; [|split; [congruence|]].
  - rewrite fmap_app, <- app_assoc, <- Hp'. done.
  - intros [He|He]%Exists_cons; [|by apply Hd']. specialize (Hd He). rewrite Hd in Hp'. symmetry in Hp'. apply Permutation_nil_r in Hp'.
    by apply app_eq_nil in Hp' as [_ ->].
Qed.

Definition asks_dump (o : MainOut) : bool := match o with MainControl _ (ExtFeaturesControl _ (CtlRouterSync DumpRouter)) => true | _ => false end.

(** Every request is answered once: it is among the answers of a turn or still
    waits, a dump leaves none waiting, and a turn asks for as many dumps as
    there were requests. *)
Lemma dump_requests_answered_once (self self' : MainState (Sender := Sender) (Request := Request)) term elapsed requests events outs answers :
  main_turn to_json self term elapsed requests events = Some (self', outs, answers) →
  wait_dump_router self ++ requests ≡ₚ answers.*1 ++ wait_dump_router self' ∧
  (Exists is_dump events → wait_dump_router self' = []) ∧
  length (List.filter asks_dump outs) = length requests.
Proof.
  unfold main_turn. destruct (term && _); [done|]. intros Hturn.
  pose proof (main_events_answers events (mkMain (web self) (if term then shutdown_wait self + 1 else shutdown_wait self) (count self) (wait_dump_router self ++ requests))) as (Hp & _ & Hd).
  injection Hturn as <- <- <-. cbn [wait_dump_router] in *. split; [done|]. split; [done|].
  rewrite !List.filter_app, !length_app. replace (length (List.filter asks_dump (if term then [MainShutdown] else []))) with 0%nat by (by destruct term).
  assert (length (List.filter asks_dump ((λ _ : Request, main_control (feature_control () (CtlRouterSync DumpRouter))) <$> requests)) = length requests) as ->.
  { clear. induction requests as [|r requests IH]; [done|]. cbn. by rewrite IH. }
  by destruct (Z.rem (count self) 500 =? 0).
Qed.

(** After the signal the loop ends: it takes at most two hundred turns more. *)
Inductive main_turns : nat → MainState (Sender := Sender) (Request := Request) → MainState (Sender := Sender) (Request := Request) → Prop :=
| turns_nil s : main_turns 0 s s
| turns_cons k s elapsed requests events s1 outs answers s2 :
    main_turn to_json s true elapsed requests events = Some (s1, outs, answers) → main_turns k s1 s2 → main_turns (S k) s s2.

Lemma signal_ends_loop k s s' : 0 ≤ shutdown_wait s ≤ 200 → main_turns k s s' → Z.of_nat k ≤ 200 - shutdown_wait s.
Proof.
  intros Hs Hk. induction Hk as [s|k s elapsed requests events s1 outs answers s2 Hturn _ IH]; [lia|].
  unfold main_turn in Hturn. cbn [andb] in Hturn. destruct (Z.eqb_spec (shutdown_wait s) 200); [done|].
  pose proof (main_events_answers events (mkMain (web s) (shutdown_wait s + 1) (count s) (wait_dump_router s ++ requests))) as (_ & Hw & _).
  cbn [shutdown_wait] in Hw. injection Hturn as <- _ _. cbn [shutdown_wait] in IH. rewrite Hw in IH. lia.
Qed.
End loop.

(** ** A channel to evaluate with

    The channel keeps what was sent, a receiver its position. *)

Section list_channel.
Context {M : Type}.

#[local] Instance list_broadcast : Broadcast M (nat * list M) nat := {
  broadcast_channel n := (n, []);
  broadcast_send s m := (s.1, s.2 ++ [m]);
  broadcast_subscribe s := length s.2;
  broadcast_recv s r :=
    if decide (length (drop r s.2) ≤ s.1)%nat then
      match drop r s.2 with m :: _ => (S r, RecvOk m) | [] => (r, RecvWaits) end
    else ((length s.2 - s.1)%nat, RecvLagged);
}.

#[local] Program Instance list_broadcast_laws : BroadcastLaws M (nat * list M) nat := {
  subscribed s r := (r ≤ length s.2)%nat;
  backlog s r := if decide (length (drop r s.2) ≤ s.1)%nat then Some (drop r s.2) else None;
  capacity s := s.1;
}.
Next Obligation. done. Qed.
Next Obligation. done. Qed.
Next Obligation.
  intros s. cbn. split; [done|]. rewrite drop_all. by rewrite decide_True by (cbn; lia).
Qed.
Next Obligation.
  intros [cap sent] m r Hr. cbn in *. rewrite length_app, drop_app_le, length_app by done. cbn. split; [lia|].
  destruct (decide (length (drop r sent) ≤ cap)%nat); [|by rewrite decide_False by lia]. destruct (decide (length (drop r sent) < cap)%nat); [by rewrite decide_True by lia|by rewrite decide_False by lia].
Qed.
Next Obligation.
  intros [cap sent] r Hr. cbn in *. destruct (decide (length (drop r sent) ≤ cap)%nat) as [Hle|Hgt].
  - destruct (drop r sent) as [|m l] eqn:Hd; eexists _, _; (split; [reflexivity|]).
    + split; [done|]. split; [done|]. rewrite Hd. by rewrite decide_True by done.
    + assert (drop (S r) sent = l) as Hd' by (rewrite <- Nat.add_1_r, <- drop_drop, Hd; done). assert (length (drop r sent) = S (length l)) as Hlen by (by rewrite Hd).
      rewrite length_drop in Hlen. split; [lia|]. split; [done|]. rewrite Hd', decide_True; [done|]. cbn in Hle. lia.
  - eexists _, _. split; [reflexivity|]. split; [lia|done].
Qed.
End list_channel.

(** ** A page of a collector

    The collector hears of a node, the program subscribes, a page is opened,
    and the node announces itself again. *)

#[local] Instance demo_page_codec : Codec (VisMessage VisualNodeInfo) := {
  serialize _ := [];
  deserialize buf := Some (Snapshot 7 (mkVisualInfo (Z.of_nat (length buf))) []);
}.

#[local] Existing Instance list_broadcast.
#[local] Existing Instance list_broadcast_laws.

Abbreviation DemoVis := (VisualizationService unit unit (VisEvent VisualNodeInfo) unit VisualNodeInfo) (only parsing).

Definition demo_page_step := vis_on_input (UserData := unit) (Addr := unit) (SE := VisEvent VisualNodeInfo) (TC := unit) (TW := unit) Some id.
Definition demo_page_recv (buf : Buffer) : ServiceInput unit FeaturesEvent (VisControl VisualNodeInfo) unit :=
  SvcFeatureEvent (EvData (Recv DATA_PORT (mkIncoming None 5 0 true) buf)).

Definition demo_vis1 : DemoVis := demo_page_step (vis_new (mkVisualInfo 9)) 10 (demo_page_recv []).
Definition demo_vis2 : DemoVis := demo_page_step demo_vis1 20 (SvcControl (SvcController ()) VisSubscribe).
Definition demo_vis3 : DemoVis := demo_page_step (vis_pop_output (vis_pop_output demo_vis2).1).1 30 (demo_page_recv [0; 0]).
Definition demo_vis4 : DemoVis := (vis_pop_output demo_vis3).1.

Definition demo_server : Server (Sender := nat * list WebsocketMessage) (Receiver := nat) :=
  mkServer (main_service_event webctx_new (GotAll [(7, mkVisualInfo 0, [])])) [].
Definition demo_told : Server (Sender := nat * list WebsocketMessage) (Receiver := nat) :=
  let s := open_page canonical_order demo_server true in
  mkServer (main_service_event (sv_ctx s) (NodeChanged 7 (mkVisualInfo 2) [])) (sv_pages s).
Definition demo_page : PageSocket (Receiver := nat) :=
  ws_turn (sv_ctx demo_told) (ws_open canonical_order (sv_ctx demo_server) true) true.

(** A graph to evaluate with. *)
#[local] Instance demo_cytoscape : Cytoscape (gset NodeId * gset EdgeKey) := {
  cy_new := (∅, ∅);
  cy_has_node g n := bool_decide (n ∈ g.1);
  cy_add_node g n := ({[n]} ∪ g.1, g.2);
  cy_remove_node g n := (g.1 ∖ {[n]}, filter (λ k, k.1.1 ≠ n ∧ k.1.2 ≠ n) g.2);
  cy_remove_data g := g;
  cy_has_edge g k := bool_decide (k ∈ g.2);
  cy_add_edge g k _ := (g.1, {[k]} ∪ g.2);
  cy_set_label g _ _ := g;
}.

#[local] Program Instance demo_cytoscape_laws : CytoscapeLaws (gset NodeId * gset EdgeKey).
Next Obligation. intros n. cbn. apply bool_decide_eq_false_2. set_solver. Qed.
Next Obligation. intros g n m. cbn. rewrite !bool_decide_eq_true. set_solver. Qed.
Next Obligation. intros g n m. cbn. rewrite !bool_decide_eq_true. set_solver. Qed.
Next Obligation. done. Qed.
Next Obligation. done. Qed.
Next Obligation. done. Qed.

(** The page draws the other end of a connection, of which the service need
    not know, and keeps the line of a connection that is gone. *)
Example page_draws_more :
  let c := mkPageConn 1 true 9 (SocketV4 2 10) 5 in
  let p := foldl (page_on_message canonical_order) (page_new : Page (gset NodeId * gset EdgeKey))
             [PageSnapshot [mkPageNode 7 (mkVisualInfo 0) [c]]; PageUpdate (mkPageNode 7 (mkVisualInfo 1) [])] in
  cy_has_node (cy p) 9 = true ∧ cy_has_edge (cy p) (7, 9, 1) = true.
Proof. vm_compute. by split. Qed.

Lemma page_is_told_network_witness :
  foldl told ∅ (ps_sent demo_page) = render (known demo_vis4) ∧ known demo_vis4 = {[7 := (mkVisualInfo 2, [])]} ∧
  cy_has_node (cy (foldl (page_on_message canonical_order) (page_new : Page (gset NodeId * gset EdgeKey)) (ps_sent demo_page))) 7 = true.
Proof.
  cut (foldl told ∅ (ps_sent demo_page) = render (known demo_vis4) ∧ ∀ order' n, is_Some (known demo_vis4 !! n) →
    cy_has_node (cy (foldl (page_on_message order') (page_new : Page (gset NodeId * gset EdgeKey)) (ps_sent demo_page))) n = true).
  { intros [Ht Hd]. split; [exact Ht|]. split; [vm_compute; reflexivity|]. apply Hd. eexists. vm_compute. reflexivity. }
  assert (vis_run (Secure := unit) (TC := unit) Some id (mkVisualInfo 9) demo_vis4
    ((([] ++ [SvcOutFeatureControl (CtlData (DataListen DATA_PORT))]) ++ [SvcOutEvent (SvcController ()) (GotAll [(7, mkVisualInfo 0, [])])])
      ++ [SvcOutEvent (SvcController ()) (NodeChanged 7 (mkVisualInfo 2) [])])) as Hr.
  { apply (vrun_pop _ _ _ demo_vis3); [|vm_compute; reflexivity]. apply vrun_input. apply (vrun_pop _ _ _ (vis_pop_output demo_vis2).1); [|vm_compute; reflexivity].
    apply (vrun_pop _ _ _ demo_vis2); [|vm_compute; reflexivity]. apply vrun_input, vrun_input, vrun_new. }
  assert (server_run (mkServer webctx_new []) [GotAll [(7, mkVisualInfo 0, [])]] demo_server) as H1.
  { apply (server_cons _ (Some _) [] _ _ (sv_event _ _)). constructor. }
  assert (server_run (open_page canonical_order demo_server true) [NodeChanged 7 (mkVisualInfo 2) []] (mkServer (sv_ctx demo_told) [demo_page])) as H2.
  { apply (server_cons _ (Some _) [] _ _ (sv_event _ _)). apply (server_cons _ None [] (mkServer (sv_ctx demo_told) [demo_page])); [|constructor].
    exact (sv_turn demo_told 0 (ws_open canonical_order (sv_ctx demo_server) true) true eq_refl). }
  exact (page_is_told_network (Secure := unit) (TC := unit) Some id Some (λ e, eq_refl) (mkVisualInfo 9) demo_vis4 _ (SvcController ()) canonical_order
    [GotAll [(7, mkVisualInfo 0, [])]] [NodeChanged 7 (mkVisualInfo 2) []] demo_server _ demo_page Hr ltac:(vm_compute; left) eq_refl eq_refl
    ltac:(apply Forall_singleton; exact (λ x, x)) H1 H2 eq_refl eq_refl ltac:(vm_compute; reflexivity)).
Defined.
