(* ===== verification/SfuTask.v ===== *)
(** * The endpoints of the media server example
    ([examples/whip-whep/src/sfu/media.rs], [whip.rs], [whep.rs])

    A publisher (whip) and a viewer (whep): each drives one webrtc session of
    the [str0m] crate, takes packets, time and media from the server and turns
    the events of the session into outputs. The session is a parameter. *)

From Stdlib Require Import Strings.Ascii.
From Stdlib Require Import (notations) Strings.String.
From S2P Require Import Prelude NodeId Base Hash.

(** The bytes of a literal. *)
Definition str (s : String.string) : Str := (λ a, Z.of_N (Ascii.N_of_ascii a)) <$> String.list_ascii_of_string s.
Arguments str s%_string.

(** ** Media ([media.rs]) *)

Record TrackMedia := mkTrackMedia { seq_no : Z; media_pt : Z; media_time : Z; marker : bool; media_payload : Buffer }.

(** [str0m::rtp::RtpPacket] *)
Record RtpPacket := mkRtpPacket { rtp_seq_no : Z; rtp_payload_type : Z; rtp_timestamp : Z; rtp_marker : bool; rtp_payload : Buffer }.

Definition from_raw (rtp : RtpPacket) : TrackMedia :=
  mkTrackMedia (rtp_seq_no rtp) (rtp_payload_type rtp) (rtp_timestamp rtp) (rtp_marker rtp) (rtp_payload rtp).

Inductive KeyframeRequestKind := Pli | Fir.

(** ** Sessions *)

Inductive RtcEvent :=
| RtcConnected
| RtcMediaAdded (audio : bool) (mid : Z)
| RtcIceState (disconnected : bool)
| RtcRtpPacket (rtp : RtpPacket)
| RtcKeyframeRequest (kind : KeyframeRequestKind)
| RtcOther.

Inductive RtcOutput :=
| RtcTimeout (at_ : Z)
| RtcTransmit (destination : SocketAddr) (contents : Buffer)
| RtcEventOut (e : RtcEvent).

(** What the server uses of [str0m]. An error of [handle_input] and of
    [write_rtp] is only logged, so the session that results is all they
    return. *)
Class RtcApi (Rtc Cert : Type) := {
  (* the builder with these credentials, feedback enabled, and the candidate
     for this address *)
  rtc_build : Cert → Str → SocketAddr → option Rtc;
  (* reads and accepts an offer *)
  rtc_accept_offer : Rtc → Str → option (Rtc * Str);
  rtc_poll_output : Rtc → Rtc * option RtcOutput;
  rtc_handle_timeout : Rtc → Z → Rtc;
  (* [None]: [Receive::new] does not know the packet *)
  rtc_handle_receive : Rtc → Z → SocketAddr → SocketAddr → Buffer → option Rtc;
  (* [None]: there is no such stream *)
  rtc_request_keyframe : Rtc → Z → KeyframeRequestKind → option Rtc;
  rtc_write_rtp : Rtc → Z → TrackMedia → bool → option Rtc;
  rtc_disconnect : Rtc → Rtc;
}.

(** A session has finitely many events to report. *)
Class RtcLaws (Rtc Cert : Type) `{!RtcApi Rtc Cert} := {
  rtc_pending : Rtc → nat;
  rtc_event_taken : ∀ rtc rtc' e, rtc_poll_output rtc = (rtc', Some (RtcEventOut e)) → (rtc_pending rtc' < rtc_pending rtc)%nat;
}.

Inductive WhipInput := WhipUdpPacket (from : SocketAddr) (data : Buffer) | WhipKeyFrame (kind : KeyframeRequestKind).
Inductive WhipOutput := WhipOutUdp (to : SocketAddr) (data : Buffer) | WhipStarted (room : Str) | WhipOutMedia (media : TrackMedia) | WhipDestroy.
Inductive WhepInput := WhepUdpPacket (from : SocketAddr) (data : Buffer) | WhepInMedia (media : TrackMedia).
Inductive WhepOutput := WhepOutUdp (to : SocketAddr) (data : Buffer) | WhepStarted (room : Str) | WhepRequestKey (kind : KeyframeRequestKind) | WhepDestroy.

Section task.
Context {Rtc Cert : Type} `{!RtcApi Rtc Cert}.

(** Both tasks have these fields; [Output] is the type of their outputs. *)
Record MediaTask (Output : Type) := mkTask {
  task_backend_addr : SocketAddr;
  task_timeout : option Z;
  task_rtc : Rtc;
  audio_mid : option Z;
  video_mid : option Z;
  task_room : Str;
  task_queue : list Output;
}.
Abbreviation WhipTask := (MediaTask WhipOutput).
Abbreviation WhepTask := (MediaTask WhepOutput).

#[local] Arguments mkTask {_} _ _ _ _ _ _ _.
#[local] Arguments task_backend_addr {_} _.
#[local] Arguments task_timeout {_} _.
#[local] Arguments task_rtc {_} _.
#[local] Arguments audio_mid {_} _.
#[local] Arguments video_mid {_} _.
#[local] Arguments task_room {_} _.
#[local] Arguments task_queue {_} _.

Definition with_rtc {O} (self : MediaTask O) (rtc : Rtc) : MediaTask O :=
  mkTask (task_backend_addr self) (task_timeout self) rtc (audio_mid self) (video_mid self) (task_room self) (task_queue self).
Definition with_timeout {O} (self : MediaTask O) (timeout : option Z) : MediaTask O :=
  mkTask (task_backend_addr self) timeout (task_rtc self) (audio_mid self) (video_mid self) (task_room self) (task_queue self).
Definition with_queue {O} (self : MediaTask O) (queue : list O) : MediaTask O :=
  mkTask (task_backend_addr self) (task_timeout self) (task_rtc self) (audio_mid self) (video_mid self) (task_room self) queue.
Definition media_added {O} (self : MediaTask O) (audio : bool) (mid : Z) : MediaTask O :=
  mkTask (task_backend_addr self) (task_timeout self) (task_rtc self) (if audio then Some mid else audio_mid self) (if audio then video_mid self else Some mid)
    (task_room self) (task_queue self).

(** [build] of both; [ufrag] is the name of the fresh credentials. The result is [Ok]
    with the task, its name and the answer. *)
Definition task_build {O} (ufrag : Str) (backend_addr : SocketAddr) (dtls_cert : Cert) (room sdp : Str) : outcome (MediaTask O * Str * Str + Str) :=
  rtc ← expect (rtc_build dtls_cert ufrag backend_addr);
  answer ← expect (rtc_accept_offer rtc sdp);
  Done (inl (mkTask backend_addr None answer.1 None None room [], ufrag, answer.2)).

Definition task_on_tick {O} (self : MediaTask O) (now : Z) : MediaTask O :=
  match task_timeout self with
  | None => self
  | Some timeout => if now <? timeout then self else with_timeout (with_rtc self (rtc_handle_timeout (task_rtc self) now)) None
  end.

(** ** A publisher ([whip.rs]) *)

Definition whip_build := task_build (O := WhipOutput).
Definition whip_on_tick := task_on_tick (O := WhipOutput).

(** [None] when the fuel does not suffice. *)
Fixpoint whip_pop_event_inner (fuel : nat) (self : WhipTask) : option (WhipTask * option WhipOutput) :=
  match fuel with
  | O => None
  | S fuel =>
      let '(rtc, out) := rtc_poll_output (task_rtc self) in
      let self := with_rtc self rtc in
      match out with
      | None => Some (self, None)
      | Some (RtcTimeout timeout) => Some (with_timeout self (Some timeout), None)
      | Some (RtcTransmit to data) => Some (self, Some (WhipOutUdp to data))
      | Some (RtcEventOut RtcConnected) => Some (self, Some (WhipStarted (task_room self)))
      | Some (RtcEventOut (RtcMediaAdded audio mid)) => whip_pop_event_inner fuel (media_added self audio mid)
      | Some (RtcEventOut (RtcIceState true)) => Some (self, Some WhipDestroy)
      | Some (RtcEventOut (RtcRtpPacket rtp)) => Some (self, Some (WhipOutMedia (from_raw rtp)))
      | Some (RtcEventOut _) => whip_pop_event_inner fuel self
      end
  end.

Definition whip_on_event (self : WhipTask) (now : Z) (input : WhipInput) : outcome WhipTask :=
  match input with
  | WhipUdpPacket from data =>
      rtc ← expect (rtc_handle_receive (task_rtc self) now from (task_backend_addr self) data);
      Done (with_rtc self rtc)
  | WhipKeyFrame kind =>
      match video_mid self with
      | Some mid => rtc ← expect (rtc_request_keyframe (task_rtc self) mid kind); Done (with_rtc self rtc)
      | None => Done self
      end
  end.

Definition whip_on_shutdown (self : WhipTask) : WhipTask := with_queue (with_rtc self (rtc_disconnect (task_rtc self))) (task_queue self ++ [WhipDestroy]).

Definition whip_pop_output (fuel : nat) (self : WhipTask) : option (WhipTask * option WhipOutput) :=
  match task_queue self with
  | out :: rest => Some (with_queue self rest, Some out)
  | [] => whip_pop_event_inner fuel self
  end.

(** ** A viewer ([whep.rs]) *)

Definition whep_build := task_build (O := WhepOutput).
Definition whep_on_tick := task_on_tick (O := WhepOutput).

Fixpoint whep_pop_event_inner (fuel : nat) (self : WhepTask) : option (WhepTask * option WhepOutput) :=
  match fuel with
  | O => None
  | S fuel =>
      let '(rtc, out) := rtc_poll_output (task_rtc self) in
      let self := with_rtc self rtc in
      match out with
      | None => Some (self, None)
      | Some (RtcTimeout timeout) => Some (with_timeout self (Some timeout), None)
      | Some (RtcTransmit to data) => Some (self, Some (WhepOutUdp to data))
      | Some (RtcEventOut RtcConnected) => Some (self, Some (WhepStarted (task_room self)))
      | Some (RtcEventOut (RtcMediaAdded audio mid)) => whep_pop_event_inner fuel (media_added self audio mid)
      | Some (RtcEventOut (RtcIceState true)) => Some (self, Some WhepDestroy)
      | Some (RtcEventOut (RtcKeyframeRequest kind)) => Some (self, Some (WhepRequestKey kind))
      | Some (RtcEventOut _) => whep_pop_event_inner fuel self
      end
  end.

(** Payload type 111 is audio, which is not repeated on loss. *)
Definition whep_on_event (self : WhepTask) (now : Z) (input : WhepInput) : outcome WhepTask :=
  match input with
  | WhepUdpPacket from data =>
      rtc ← expect (rtc_handle_receive (task_rtc self) now from (task_backend_addr self) data);
      Done (with_timeout (with_rtc self rtc) None)
  | WhepInMedia media =>
      let '(mid, nackable) := if media_pt media =? 111 then (audio_mid self, false) else (video_mid self, true) in
      Done match mid with
           | Some mid =>
               match rtc_write_rtp (task_rtc self) mid media nackable with
               | Some rtc => with_timeout (with_rtc self rtc) None
               | None => self
               end
           | None => self
           end
  end.

Definition whep_on_shutdown (self : WhepTask) : WhepTask := with_queue (with_rtc self (rtc_disconnect (task_rtc self))) (task_queue self ++ [WhepDestroy]).

Definition whep_pop_output (fuel : nat) (self : WhepTask) : option (WhepTask * option WhepOutput) :=
  match task_queue self with
  | out :: rest => Some (with_queue self rest, Some out)
  | [] => whep_pop_event_inner fuel self
  end.

(** ** The loops end *)

Context `{!RtcLaws Rtc Cert}.

Lemma whip_pop_event_ends fuel : ∀ self, (rtc_pending (task_rtc self) < fuel)%nat → is_Some (whip_pop_event_inner fuel self).
Proof.
  induction fuel as [|fuel IH]; intros self Hf; [lia|]. cbn [whip_pop_event_inner].
  destruct (rtc_poll_output (task_rtc self)) as [rtc [[t|to data|e]|]] eqn:Hp; [by eexists..| |by eexists].
  apply rtc_event_taken in Hp. destruct e as [|[]| [] | | |]; try (by eexists); apply IH; cbn; lia.
Qed.

Lemma whep_pop_event_ends fuel : ∀ self, (rtc_pending (task_rtc self) < fuel)%nat → is_Some (whep_pop_event_inner fuel self).
Proof.
  induction fuel as [|fuel IH]; intros self Hf; [lia|]. cbn [whep_pop_event_inner].
  destruct (rtc_poll_output (task_rtc self)) as [rtc [[t|to data|e]|]] eqn:Hp; [by eexists..| |by eexists].
  apply rtc_event_taken in Hp. destruct e as [|[]| [] | | |]; try (by eexists); apply IH; cbn; lia.
Qed.

(** An endpoint names the room it was built for, and no other. *)
Lemma whip_started_room fuel : ∀ self self' room, whip_pop_event_inner fuel self = Some (self', Some (WhipStarted room)) → room = task_room self ∧ task_room self' = task_room self.
Proof.
  induction fuel as [|fuel IH]; intros self self' room; [done|]. cbn [whip_pop_event_inner].
  destruct (rtc_poll_output (task_rtc self)) as [rtc [[t|to data|[|audio mid|[]|rtp|kind|]]|]]; try done; try (intros [= <- <-]; done); by intros ?%IH.
Qed.

Lemma whep_started_room fuel : ∀ self self' room, whep_pop_event_inner fuel self = Some (self', Some (WhepStarted room)) → room = task_room self ∧ task_room self' = task_room self.
Proof.
  induction fuel as [|fuel IH]; intros self self' room; [done|]. cbn [whep_pop_event_inner].
  destruct (rtc_poll_output (task_rtc self)) as [rtc [[t|to data|[|audio mid|[]|rtp|kind|]]|]]; try done; try (intros [= <- <-]; done); by intros ?%IH.
Qed.

(** A publisher that is cut off is gone: whatever it is asked on shutdown, its
    next output is its end. *)
Lemma shutdown_destroys fuel (self : WhipTask) : task_queue self = [] → (whip_pop_output fuel (whip_on_shutdown self) ≫= λ r, r.2) = Some WhipDestroy.
Proof. intros Hq. unfold whip_pop_output, whip_on_shutdown. cbn. by rewrite Hq. Qed.

(** An offer that cannot be read does not make the build fail: it ends the
    program. *)
Lemma bad_offer_panics {O} ufrag addr cert room sdp : (∀ rtc, rtc_build cert ufrag addr = Some rtc → rtc_accept_offer rtc sdp = None) →
  task_build (O := O) ufrag addr cert room sdp = Panic.
Proof.
  intros Hno. unfold task_build. destruct (rtc_build cert ufrag addr) as [rtc|]; [|done]. cbn [expect]. rewrite bind_Done. by rewrite (Hno rtc eq_refl).
Qed.
End task.

Arguments MediaTask Rtc Output : clear implicits.
