(* ===== verification/Sfu.v ===== *)
(** * The media server example ([examples/whip-whep/src/sfu])

    A media server on top of the pubsub feature: publishers (whip) and viewers
    (whep) of a room share the channel of the room, and all of them share one
    udp port. Here: [cluster.rs], which maps rooms to channels, [shared_port.rs],
    which tells the packets of the port apart, and [mod.rs], the worker that
    connects them and the endpoints. The groups of tasks and the choice of the
    next task belong to [sans_io_runtime], the reading of stun packets to
    [faster_stun]: they are parameters. *)

From Stdlib Require Import (notations) Strings.String.
From S2P Require Import Prelude NodeId Base Hash NodeAddr PubsubMsg PubsubRelay SfuTask.

(** ** Rooms ([cluster.rs]) *)

(** [str::hash] writes the bytes and a byte that is in no string. *)
Definition room_channel (room : Str) : Z := hash_str (room ++ [255]).

Abbreviation WhipOwner := nat (only parsing).
Abbreviation WhepOwner := nat (only parsing).

Section cluster.
Context {media_codec : Codec TrackMedia}.

Definition to_buffer (media : TrackMedia) : Buffer := serialize media.
Definition from_buffer (data : Buffer) : outcome TrackMedia := expect (deserialize data).

Inductive ClusterInput :=
| CiPubsub (event : ChannelId * ChannelEvent)
| WhipStart (owner : WhipOwner) (room : Str)
| WhipStop (owner : WhipOwner)
| WhipMedia (owner : WhipOwner) (media : TrackMedia)
| WhepStart (owner : WhepOwner) (room : Str)
| WhepStop (owner : WhepOwner)
| WhepRequest (owner : WhepOwner) (kind : KeyframeRequestKind).

Inductive ClusterOutput :=
| CoPubsub (control : ChannelId * ChannelControl)
| CoWhepMedia (owners : list WhepOwner) (media : TrackMedia)
| CoWhipControl (owners : list WhipOwner) (kind : KeyframeRequestKind).

Record RoomChannel := mkRoom { room_whips : list WhipOwner; room_wheps : list WhepOwner }.

Record ClusterLogic := mkCluster {
  cl_channels : gmap Z RoomChannel;
  cl_whips : gmap WhipOwner Z;
  cl_wheps : gmap WhepOwner Z;
}.

Definition cluster_default : ClusterLogic := mkCluster ∅ ∅ ∅.

(** [entry(id).or_insert(Channel { whips: vec![], wheps: vec![] })] *)
Definition room_of (self : ClusterLogic) (id : Z) : RoomChannel := default (mkRoom [] []) (cl_channels self !! id).

Definition cluster_on_input (self : ClusterLogic) (input : ClusterInput) : outcome (ClusterLogic * option ClusterOutput) :=
  match input with
  | CiPubsub (channel, EvRouteChanged _) => Done (self, None)
  | CiPubsub (channel, EvSourceData _ data) =>
      pkt ← from_buffer data;
      Done (self, (λ room, CoWhepMedia (room_wheps room) pkt) <$> cl_channels self !! channel)
  | CiPubsub (channel, EvFeedbackData fb) =>
      let kind := if fb_kind fb =? 0 then Pli else Fir in
      Done (self, (λ room, CoWhipControl (room_whips room) kind) <$> cl_channels self !! channel)
  | WhipStart owner room =>
      let id := room_channel room in
      let channel := mkRoom (room_whips (room_of self id) ++ [owner]) (room_wheps (room_of self id)) in
      Done (mkCluster (<[id := channel]> (cl_channels self)) (<[owner := id]> (cl_whips self)) (cl_wheps self),
            if (length (room_whips channel) =? 1)%nat then Some (CoPubsub (id, PubStart)) else None)
  | WhipStop owner =>
      match cl_whips self !! owner with
      | None => Done (self, None)
      | Some id =>
          let whips := delete owner (cl_whips self) in
          match cl_channels self !! id with
          | None => Done (mkCluster (cl_channels self) whips (cl_wheps self), None)
          | Some channel =>
              let channel := mkRoom (filter (λ o, o ≠ owner) (room_whips channel)) (room_wheps channel) in
              Done (mkCluster (<[id := channel]> (cl_channels self)) whips (cl_wheps self),
                    match room_whips channel with [] => Some (CoPubsub (id, PubStop)) | _ => None end)
          end
      end
  | WhipMedia owner media => Done (self, (λ id, CoPubsub (id, PubData (to_buffer media))) <$> cl_whips self !! owner)
  | WhepStart owner room =>
      let id := room_channel room in
      let channel := mkRoom (room_whips (room_of self id)) (room_wheps (room_of self id) ++ [owner]) in
      Done (mkCluster (<[id := channel]> (cl_channels self)) (cl_whips self) (<[owner := id]> (cl_wheps self)),
            if (length (room_wheps channel) =? 1)%nat then Some (CoPubsub (id, SubAuto)) else None)
  | WhepStop owner =>
      match cl_wheps self !! owner with
      | None => Done (self, None)
      | Some id =>
          let wheps := delete owner (cl_wheps self) in
          match cl_channels self !! id with
          | None => Done (mkCluster (cl_channels self) (cl_whips self) wheps, None)
          | Some channel =>
              let channel := mkRoom (room_whips channel) (filter (λ o, o ≠ owner) (room_wheps channel)) in
              Done (mkCluster (<[id := channel]> (cl_channels self)) (cl_whips self) wheps,
                    match room_wheps channel with [] => Some (CoPubsub (id, UnsubAuto)) | _ => None end)
          end
      end
  | WhepRequest owner kind =>
      let kind := match kind with Pli => 0 | Fir => 1 end in
      Done (self, (λ id, CoPubsub (id, FeedbackAuto (feedback_simple kind 1 1000 2000))) <$> cl_wheps self !! owner)
  end.
End cluster.

(** ** The shared udp port ([shared_port.rs]) *)

Section shared_port.
Context {Task : Type} `{Countable Task}.
(** The name in a stun packet. *)
Context (get_stun_username : Buffer → option Str).

Record SharedUdpPort := mkPort {
  backend_addr : option SocketAddr;
  task_remotes : gmap SocketAddr Task;
  task_remotes_map : gmap Task (list SocketAddr);
  task_ufrags : gmap Str Task;
  task_ufrags_reverse : gmap Task Str;
}.

Definition port_default : SharedUdpPort := mkPort None ∅ ∅ ∅ ∅.

Definition set_backend_info (self : SharedUdpPort) (addr : SocketAddr) : SharedUdpPort :=
  mkPort (Some addr) (task_remotes self) (task_remotes_map self) (task_ufrags self) (task_ufrags_reverse self).

Definition add_ufrag (self : SharedUdpPort) (ufrag : Str) (task : Task) : SharedUdpPort :=
  mkPort (backend_addr self) (task_remotes self) (task_remotes_map self) (<[ufrag := task]> (task_ufrags self)) (<[task := ufrag]> (task_ufrags_reverse self)).

(** Each [?] returns with what was removed until then. *)
Definition port_remove_task (self : SharedUdpPort) (task : Task) : SharedUdpPort :=
  match task_ufrags_reverse self !! task with
  | None => self
  | Some ufrag =>
      let reverse := delete task (task_ufrags_reverse self) in
      match task_ufrags self !! ufrag with
      | None => mkPort (backend_addr self) (task_remotes self) (task_remotes_map self) (task_ufrags self) reverse
      | Some _ =>
          let ufrags := delete ufrag (task_ufrags self) in
          match task_remotes_map self !! task with
          | None => mkPort (backend_addr self) (task_remotes self) (task_remotes_map self) ufrags reverse
          | Some remotes =>
              mkPort (backend_addr self) (foldl (λ m remote, delete remote m) (task_remotes self) remotes) (delete task (task_remotes_map self)) ufrags reverse
          end
      end
  end.

Definition map_remote (self : SharedUdpPort) (remote : SocketAddr) (buf : Buffer) : SharedUdpPort * option Task :=
  match task_remotes self !! remote with
  | Some task => (self, Some task)
  | None =>
      match username ← get_stun_username buf; task_ufrags self !! username with
      | None => (self, None)
      | Some task =>
          (mkPort (backend_addr self) (<[remote := task]> (task_remotes self))
             (<[task := default [] (task_remotes_map self !! task) ++ [remote]]> (task_remotes_map self)) (task_ufrags self) (task_ufrags_reverse self), Some task)
      end
  end.
End shared_port.
Arguments SharedUdpPort Task {_ _}.

(** ** Rooms and their members *)

(** The lists of the rooms name the members the map has. *)
Definition tracks (rooms : Z → list nat) (m : gmap nat Z) : Prop := ∀ id, NoDup (rooms id) ∧ ∀ o, o ∈ rooms id ↔ m !! o = Some id.

Lemma tracks_ext rooms rooms' m : (∀ id, rooms' id = rooms id) → tracks rooms m → tracks rooms' m.
Proof. intros Heq Ht id. rewrite Heq. apply Ht. Qed.

Lemma tracks_join rooms m o id : tracks rooms m → m !! o = None → tracks (λ i, if decide (i = id) then rooms id ++ [o] else rooms i) (<[o := id]> m).
Proof.
  intros Ht Ho i. destruct (Ht i) as [Hnd Hin]. case_decide as Hi.
  - subst i. split.
    + apply NoDup_app. split; [done|]. split; [|apply NoDup_singleton]. intros x Hx ->%list_elem_of_singleton. apply Hin in Hx. congruence.
    + intros x. rewrite elem_of_app, Hin, list_elem_of_singleton. destruct (decide (x = o)) as [->|Hne].
      * rewrite lookup_insert_eq. split; [done|by right].
      * rewrite lookup_insert_ne by done. split; [by intros [?|?]|by left].
  - split; [done|]. intros x. rewrite Hin. destruct (decide (x = o)) as [->|Hne]; [|by rewrite lookup_insert_ne].
    rewrite lookup_insert_eq, Ho. split; congruence.
Qed.

Lemma tracks_leave rooms m o id : tracks rooms m → m !! o = Some id →
  tracks (λ i, if decide (i = id) then filter (λ x, x ≠ o) (rooms id) else rooms i) (delete o m).
Proof.
  intros Ht Ho i. destruct (Ht i) as [Hnd Hin]. case_decide as Hi.
  - subst i. split; [by apply NoDup_filter|]. intros x. rewrite list_elem_of_filter, Hin, lookup_delete_Some. split; intros [? ?]; split; done || congruence.
  - split; [done|]. intros x. rewrite Hin, lookup_delete_Some. split; [|by intros [_ ?]]. intros Hx. split; [|done]. intros <-. congruence.
Qed.

Section rooms.
Context {media_codec : Codec TrackMedia}.

Lemma room_of_insert channels whips wheps id room i :
  room_of (mkCluster (<[id := room]> channels) whips wheps) i = if decide (i = id) then room else default (mkRoom [] []) (channels !! i).
Proof. unfold room_of. cbn. case_decide as Hi; [by rewrite Hi, lookup_insert_eq|by rewrite lookup_insert_ne]. Qed.

(** A run: an owner starts only when it is not in a room. *)
Definition may_start (self : ClusterLogic) (input : ClusterInput) : Prop :=
  match input with
  | WhipStart o _ => cl_whips self !! o = None
  | WhepStart o _ => cl_wheps self !! o = None
  | _ => True
  end.

Inductive cluster_run : ClusterLogic → list ClusterOutput → Prop :=
| cluster_start : cluster_run cluster_default []
| cluster_step self outs input self' out :
    cluster_run self outs → may_start self input → cluster_on_input self input = Done (self', out) → cluster_run self' (outs ++ option_list out).

(** What the controls told the pubsub feature last about a channel. *)
Definition publishing (id : Z) (b : bool) (out : ClusterOutput) : bool :=
  match out with
  | CoPubsub (i, PubStart) => if i =? id then true else b
  | CoPubsub (i, PubStop) => if i =? id then false else b
  | _ => b
  end.
Definition subscribing (id : Z) (b : bool) (out : ClusterOutput) : bool :=
  match out with
  | CoPubsub (i, SubAuto) => if i =? id then true else b
  | CoPubsub (i, UnsubAuto) => if i =? id then false else b
  | _ => b
  end.

Definition nonempty {A} (l : list A) : bool := match l with [] => false | _ => true end.

Record cluster_inv (self : ClusterLogic) (outs : list ClusterOutput) : Prop := {
  ci_whips : tracks (λ id, room_whips (room_of self id)) (cl_whips self);
  ci_wheps : tracks (λ id, room_wheps (room_of self id)) (cl_wheps self);
  ci_published : ∀ id, foldl (publishing id) false outs = nonempty (room_whips (room_of self id));
  ci_subscribed : ∀ id, foldl (subscribing id) false outs = nonempty (room_wheps (room_of self id));
}.

Lemma nonempty_snoc {A} (l : list A) x : nonempty (l ++ [x]) = true.
Proof. by destruct l. Qed.

(** The first member of a room starts it, the last one stops it. *)
Lemma join_control {A} (l : list A) x (id i : Z) (b : bool) (start : ClusterOutput) (f : bool → ClusterOutput → bool) :
  (∀ b, f b start = if id =? i then true else b) → (i = id → b = nonempty l) →
  foldl f b (option_list (if (length (l ++ [x]) =? 1)%nat then Some start else None)) = if decide (i = id) then true else b.
Proof.
  intros Hf Hb. rewrite length_app. cbn [length]. destruct l as [|y l]; cbn.
  - rewrite Hf. destruct (Z.eqb_spec id i), (decide (i = id)); congruence.
  - replace (length l + 1 =? 0)%nat with false by (symmetry; apply Nat.eqb_neq; lia). cbn. case_decide; [by apply Hb|done].
Qed.

Lemma leave_control {A} (l : list A) (id i : Z) (b : bool) (stop : ClusterOutput) (f : bool → ClusterOutput → bool) :
  (∀ b, f b stop = if id =? i then false else b) → (i = id → b = true) →
  foldl f b (option_list (match l with [] => Some stop | _ => None end)) = if decide (i = id) then nonempty l else b.
Proof.
  intros Hf Hb. destruct l as [|y l]; cbn.
  - rewrite Hf. destruct (Z.eqb_spec id i), (decide (i = id)); congruence.
  - case_decide; [by apply Hb|done].
Qed.

Lemma room_changes self outs id room (whips wheps : gmap nat Z) out :
  cluster_inv self outs →
  tracks (λ i, if decide (i = id) then room_whips room else room_whips (room_of self i)) whips →
  tracks (λ i, if decide (i = id) then room_wheps room else room_wheps (room_of self i)) wheps →
  (∀ i, foldl (publishing i) (nonempty (room_whips (room_of self i))) (option_list out) = if decide (i = id) then nonempty (room_whips room) else nonempty (room_whips (room_of self i))) →
  (∀ i, foldl (subscribing i) (nonempty (room_wheps (room_of self i))) (option_list out) = if decide (i = id) then nonempty (room_wheps room) else nonempty (room_wheps (room_of self i))) →
  cluster_inv (mkCluster (<[id := room]> (cl_channels self)) whips wheps) (outs ++ option_list out).
Proof.
  intros [_ _ Hp Hs] Hwi Hwe Hpub Hsub. split; cbn [cl_whips cl_wheps].
  - eapply tracks_ext; [|exact Hwi]. intros i. rewrite room_of_insert. by case_decide.
  - eapply tracks_ext; [|exact Hwe]. intros i. rewrite room_of_insert. by case_decide.
  - intros i. rewrite foldl_app, (Hp i), (Hpub i), room_of_insert. by case_decide.
  - intros i. rewrite foldl_app, (Hs i), (Hsub i), room_of_insert. by case_decide.
Qed.

Lemma tracks_other (rooms : Z → list nat) m id l : tracks rooms m → l = rooms id → tracks (λ i, if decide (i = id) then l else rooms i) m.
Proof. intros Ht ->. eapply tracks_ext; [|exact Ht]. intros i. by case_decide; [subst i|]. Qed.

Lemma keeps_state {A} (rooms : Z → list A) (f : Z → bool → ClusterOutput → bool) (id : Z) (l : list A) out :
  (∀ i b, foldl (f i) b (option_list out) = b) → l = rooms id → ∀ i, foldl (f i) (nonempty (rooms i)) (option_list out) = if decide (i = id) then nonempty l else nonempty (rooms i).
Proof. intros Hf -> i. rewrite Hf. by case_decide; [subst i|]. Qed.

Lemma Done_pair {A B} (a c : A) (b d : B) : Done (a, b) = Done (c, d) → a = c ∧ b = d.
Proof. by intros [= -> ->]. Qed.

Lemma cluster_step_inv self outs input self' out :
  cluster_inv self outs → may_start self input → cluster_on_input self input = Done (self', out) → cluster_inv self' (outs ++ option_list out).
Proof.
  intros Hinv Hmay Hin. pose proof Hinv as [Hwi Hwe Hp Hs].
  assert (∀ out, (∀ id b, foldl (publishing id) b (option_list out) = b) → (∀ id b, foldl (subscribing id) b (option_list out) = b) → cluster_inv self (outs ++ option_list out)) as Hquiet.
  { intros o H1 H2. split; [done..| |]; intros id; rewrite foldl_app; [by rewrite H1|by rewrite H2]. }
  assert (∀ id o, cl_whips self !! o = Some id → ∃ room, cl_channels self !! id = Some room ∧ room_of self id = room ∧ nonempty (room_whips room) = true) as Hwhip.
  { intros id o Ho. destruct (Hwi id) as [_ Hm]. apply Hm in Ho. unfold room_of in *. destruct (cl_channels self !! id) as [room|]; [|by apply elem_of_nil in Ho].
    exists room. split; [done|]. split; [done|]. cbn in Ho. by destruct (room_whips room); [apply elem_of_nil in Ho|]. }
  assert (∀ id o, cl_wheps self !! o = Some id → ∃ room, cl_channels self !! id = Some room ∧ room_of self id = room ∧ nonempty (room_wheps room) = true) as Hwhep.
  { intros id o Ho. destruct (Hwe id) as [_ Hm]. apply Hm in Ho. unfold room_of in *. destruct (cl_channels self !! id) as [room|]; [|by apply elem_of_nil in Ho].
    exists room. split; [done|]. split; [done|]. cbn in Ho. by destruct (room_wheps room); [apply elem_of_nil in Ho|]. }
  destruct input as [[channel [source|source data|fb]]|owner room|owner|owner media|owner room|owner|owner kind]; cbn [cluster_on_input may_start] in *.
  - apply Done_pair in Hin as [<- <-]. by apply Hquiet.
  - destruct (from_buffer data) as [pkt|]; [|done]. rewrite bind_Done in Hin. apply Done_pair in Hin as [<- <-]. destruct (cl_channels self !! channel); by apply Hquiet.
  - apply Done_pair in Hin as [<- <-]. destruct (cl_channels self !! channel); by apply Hquiet.
  - apply Done_pair in Hin as [<- <-]. generalize (room_channel room) as id. intros id. apply room_changes; [done|by apply (tracks_join _ _ owner id Hwi)|by apply (tracks_other _ _ id)| |].
    + intros i. cbn [room_whips]. rewrite (join_control _ owner id i); [|done|by intros ->]. case_decide; [by rewrite nonempty_snoc|done].
    + apply keeps_state; [|done]. intros i b. by case_match.
  - destruct (cl_whips self !! owner) as [id|] eqn:Ho; [|apply Done_pair in Hin as [<- <-]; by apply Hquiet]. destruct (Hwhip id owner Ho) as (rm & Hrm & Hof & Hne).
    rewrite Hrm in Hin. apply Done_pair in Hin as [<- <-]. rewrite <- Hof in *. apply room_changes; [done|by apply (tracks_leave _ _ owner id Hwi)|by apply (tracks_other _ _ id)| |].
    + intros i. cbn [room_whips]. by apply (leave_control _ id i); [|intros ->].
    + apply keeps_state; [|done]. intros i b. by case_match.
  - apply Done_pair in Hin as [<- <-]. destruct (cl_whips self !! owner); by apply Hquiet.
  - apply Done_pair in Hin as [<- <-]. generalize (room_channel room) as id. intros id. apply room_changes; [done|by apply (tracks_other _ _ id)|by apply (tracks_join _ _ owner id Hwe)| |].
    + apply keeps_state; [|done]. intros i b. by case_match.
    + intros i. cbn [room_wheps]. rewrite (join_control _ owner id i); [|done|by intros ->]. case_decide; [by rewrite nonempty_snoc|done].
  - destruct (cl_wheps self !! owner) as [id|] eqn:Ho; [|apply Done_pair in Hin as [<- <-]; by apply Hquiet]. destruct (Hwhep id owner Ho) as (rm & Hrm & Hof & Hne).
    rewrite Hrm in Hin. apply Done_pair in Hin as [<- <-]. rewrite <- Hof in *. apply room_changes; [done|by apply (tracks_other _ _ id)|by apply (tracks_leave _ _ owner id Hwe)| |].
    + apply keeps_state; [|done]. intros i b. by case_match.
    + intros i. cbn [room_wheps]. by apply (leave_control _ id i); [|intros ->].
  - apply Done_pair in Hin as [<- <-]. destruct (cl_wheps self !! owner); by apply Hquiet.
Qed.

Lemma cluster_run_inv self outs : cluster_run self outs → cluster_inv self outs.
Proof.
  induction 1 as [|self outs input self' out _ IH Hmay Hin]; [|by eapply cluster_step_inv].
  split; [| |done..]; intros id; cbn; (split; [apply NoDup_nil_2|]); intros o; rewrite elem_of_nil, lookup_empty; done.
Qed.

(** A room is published while somebody sends in it and subscribed while
    somebody watches it; media of a sender goes to the channel of its room, and
    media of the channel to everybody who watches the room, once. *)
Lemma rooms_follow_members `{!CodecLaws TrackMedia} (self : ClusterLogic) (outs : list ClusterOutput) (id : Z) :
  cluster_run self outs →
  (foldl (publishing id) false outs = true ↔ ∃ o, cl_whips self !! o = Some id) ∧
  (foldl (subscribing id) false outs = true ↔ ∃ o, cl_wheps self !! o = Some id) ∧
  (∀ o media, cl_whips self !! o = Some id → cluster_on_input self (WhipMedia o media) = Done (self, Some (CoPubsub (id, PubData (to_buffer media))))) ∧
  (∀ source media o, cl_wheps self !! o = Some id →
    ∃ owners, cluster_on_input self (CiPubsub (id, EvSourceData source (to_buffer media))) = Done (self, Some (CoWhepMedia owners media)) ∧
      NoDup owners ∧ ∀ o', o' ∈ owners ↔ cl_wheps self !! o' = Some id).
Proof.
  intros Hrun. destruct (cluster_run_inv _ _ Hrun) as [Hwi Hwe Hp Hs].
  assert (∀ (rooms : Z → list nat) m, tracks rooms m → nonempty (rooms id) = true ↔ ∃ o, m !! o = Some id) as Hmem.
  { intros rooms m Ht. destruct (Ht id) as [_ Hm]. split.
    - destruct (rooms id) as [|o l] eqn:Hl; [done|]. intros _. exists o. apply Hm. left.
    - intros [o Ho]. apply Hm in Ho. by destruct (rooms id); [apply elem_of_nil in Ho|]. }
  split; [rewrite Hp; exact (Hmem _ _ Hwi)|]. split; [rewrite Hs; exact (Hmem _ _ Hwe)|]. split.
  - intros o media Ho. cbn [cluster_on_input]. by rewrite Ho.
  - intros source media o Ho. cbn [cluster_on_input]. unfold from_buffer, to_buffer. rewrite codec_roundtrip. cbn [expect]. rewrite bind_Done.
    destruct (Hwe id) as [Hnd Hm]. unfold room_of in *. destruct (cl_channels self !! id) as [room|]; [|apply Hm in Ho; by apply elem_of_nil in Ho].
    eexists. split; [done|]. by split.
Qed.
End rooms.

(** ** Packets of the shared port *)

Section port_facts.
Context {Task : Type} `{Countable Task}.
Context (get_stun_username : Buffer → option Str).

Record port_inv (self : SharedUdpPort Task) : Prop := {
  po_listed : ∀ remote task, task_remotes self !! remote = Some task ↔ ∃ l, task_remotes_map self !! task = Some l ∧ remote ∈ l;
  po_named : ∀ remote task, task_remotes self !! remote = Some task → is_Some (task_ufrags_reverse self !! task);
  po_ufrags : ∀ task ufrag, task_ufrags_reverse self !! task = Some ufrag → task_ufrags self !! ufrag = Some task;
  po_reverse : ∀ ufrag task, task_ufrags self !! ufrag = Some task → task_ufrags_reverse self !! task = Some ufrag;
}.

Lemma add_ufrag_inv self ufrag task :
  port_inv self → task_ufrags self !! ufrag = None → task_ufrags_reverse self !! task = None → port_inv (add_ufrag self ufrag task).
Proof.
  intros [Hl Hn Hu Hr] Hfresh Htask. split; cbn [add_ufrag task_remotes task_remotes_map task_ufrags task_ufrags_reverse].
  - done.
  - intros remote t Ht. destruct (decide (t = task)) as [->|Hne]; [by rewrite lookup_insert_eq|]. rewrite lookup_insert_ne by done. by eapply Hn.
  - intros t u [[<- <-]|[Hne Ht]]%lookup_insert_Some; [by rewrite lookup_insert_eq|]. specialize (Hu t u Ht). rewrite lookup_insert_ne; [done|]. intros <-. congruence.
  - intros u t [[<- <-]|[Hne Ht]]%lookup_insert_Some; [by rewrite lookup_insert_eq|]. specialize (Hr u t Ht). rewrite lookup_insert_ne; [done|]. intros <-. congruence.
Qed.

Lemma map_remote_inv self remote buf : port_inv self → port_inv (map_remote get_stun_username self remote buf).1.
Proof.
  intros Hinv. pose proof Hinv as [Hl Hn Hu Hr]. unfold map_remote. destruct (task_remotes self !! remote) as [t|] eqn:Ht; [done|].
  destruct (username ← _; _) as [task|] eqn:Hb; [|done]. cbn [fst]. apply bind_Some in Hb as (u & _ & Htask).
  split; cbn [task_remotes task_remotes_map task_ufrags task_ufrags_reverse]; [| |done..].
  - intros r t. destruct (decide (t = task)) as [->|Hne].
    + rewrite lookup_insert_eq. split.
      * intros Hr'. eexists. split; [done|]. apply elem_of_app. destruct (decide (r = remote)) as [->|Hrr]; [right; by apply list_elem_of_singleton|]. left.
        rewrite lookup_insert_ne in Hr' by done. apply Hl in Hr' as (l & -> & Hin). done.
      * intros (l & [= <-] & [Hin|Hin%list_elem_of_singleton]%elem_of_app); [|subst r; by rewrite lookup_insert_eq]. destruct (task_remotes_map self !! task) as [l|] eqn:Hlm; [|by apply elem_of_nil in Hin].
        rewrite lookup_insert_ne; [apply Hl; by exists l|]. intros <-. assert (task_remotes self !! remote = Some task) by (apply Hl; by exists l). congruence.
    + rewrite (lookup_insert_ne (task_remotes_map self)) by done. destruct (decide (r = remote)) as [->|Hrr].
      * rewrite lookup_insert_eq. split; [congruence|]. intros Hx. apply Hl in Hx. congruence.
      * by rewrite lookup_insert_ne by done.
  - intros r t [[<- <-]|[_ Ht']]%lookup_insert_Some; [|by eapply Hn]. rewrite (Hr u task Htask). by eexists.
Qed.

Lemma remove_task_spec self task : port_inv self →
  let self' := port_remove_task self task in
  port_inv self' ∧ task_ufrags_reverse self' = delete task (task_ufrags_reverse self) ∧
  (∀ remote t, task_remotes self' !! remote = Some t ↔ task_remotes self !! remote = Some t ∧ t ≠ task) ∧
  (∀ ufrag t, task_ufrags self' !! ufrag = Some t ↔ task_ufrags self !! ufrag = Some t ∧ t ≠ task).
Proof.
  intros Hinv self'. pose proof Hinv as [Hl Hn Hu Hr].
  assert (task_ufrags_reverse self' = delete task (task_ufrags_reverse self) ∧
    (∀ remote t, task_remotes self' !! remote = Some t ↔ task_remotes self !! remote = Some t ∧ t ≠ task) ∧
    (∀ ufrag t, task_ufrags self' !! ufrag = Some t ↔ task_ufrags self !! ufrag = Some t ∧ t ≠ task) ∧
    (∀ t, t ≠ task → task_remotes_map self' !! t = task_remotes_map self !! t)) as (H1 & H2 & H3 & H4).
  { unfold self', port_remove_task. destruct (task_ufrags_reverse self !! task) as [u|] eqn:Hrev.
    - rewrite (Hu task u Hrev).
      assert (∀ ufrag t, delete u (task_ufrags self) !! ufrag = Some t ↔ task_ufrags self !! ufrag = Some t ∧ t ≠ task) as Hdel.
      { intros ufrag t. rewrite lookup_delete_Some. split.
        - intros [Hne Ht]. split; [done|]. intros ->. specialize (Hr ufrag task Ht). congruence.
        - intros [Ht Hne]. split; [|done]. intros <-. rewrite (Hu task u Hrev) in Ht. congruence. }
      destruct (task_remotes_map self !! task) as [l|] eqn:Hmap; cbn [task_remotes task_remotes_map task_ufrags task_ufrags_reverse]; (split; [done|]).
      + split; [|split; [done|intros t Hne; by rewrite lookup_delete_ne]]. intros remote t.
        assert (∀ l (m : gmap SocketAddr Task), foldl (λ m r, delete r m) m l !! remote = if decide (remote ∈ l) then None else m !! remote) as Hfold.
        { clear. induction l as [|x l IH]; intros m; cbn [foldl]; [by rewrite decide_False by (by intros ?%elem_of_nil)|]. rewrite IH.
          destruct (decide (remote ∈ l)); [rewrite decide_True; [done|by right]|]. destruct (decide (remote = x)) as [->|Hne].
          - rewrite decide_True by left. by rewrite lookup_delete_eq.
          - rewrite lookup_delete_ne by done. rewrite decide_False; [done|]. by intros [?|?]%elem_of_cons. }
        rewrite Hfold. destruct (decide (remote ∈ l)) as [Hin|Hin].
        * split; [done|]. intros [Ht Hne]. assert (task_remotes self !! remote = Some task) by (apply Hl; by exists l). congruence.
        * split; [|by intros [? _]]. intros Ht. split; [done|]. intros ->. apply Hl in Ht as (l' & Hl' & Hin'). congruence.
      + split; [|by split]. intros remote t. split; [|by intros [? _]]. intros Ht. split; [done|]. intros ->. apply Hl in Ht as (l' & Hl' & _). congruence.
    - rewrite delete_id by done. split; [done|]. split; [|split; [|done]].
      + intros remote t. split; [|by intros [? _]]. intros Ht. split; [done|]. intros ->. destruct (Hn remote task Ht). congruence.
      + intros ufrag t. split; [|by intros [? _]]. intros Ht. split; [done|]. intros ->. specialize (Hr ufrag task Ht). congruence. }
  split; [|done]. split.
  - intros remote t. rewrite H2. destruct (decide (t = task)) as [->|Hne].
    + split; [by intros [_ ?]|]. intros (l & Hlm & Hin). unfold self', port_remove_task in Hlm.
      destruct (task_ufrags_reverse self !! task) as [u|] eqn:Hrev; [rewrite (Hu task u Hrev) in Hlm|].
      * destruct (task_remotes_map self !! task) as [l0|] eqn:Hmap; cbn in Hlm; [by rewrite lookup_delete_eq in Hlm|congruence].
      * assert (task_remotes self !! remote = Some task) as Hx by (apply Hl; by exists l). destruct (Hn remote task Hx). congruence.
    + rewrite (H4 t Hne), <- Hl. tauto.
  - intros remote t Ht. apply H2 in Ht as [Ht Hne]. rewrite H1, lookup_delete_ne by done. by eapply Hn.
  - intros t u Ht. rewrite H1 in Ht. apply lookup_delete_Some in Ht as [Hne Ht]. apply H3. split; [by apply Hu|done].
  - intros u t Ht. apply H3 in Ht as [Ht Hne]. rewrite H1, lookup_delete_ne by done. by apply Hr.
Qed.
End port_facts.

(** ** The worker ([mod.rs]) *)

(** [sans_io_runtime::TaskGroup]: numbered tasks; an input may end the
    program. *)
Class TaskGroup (G T I O : Type) := {
  group_default : G;
  group_add : G → T → nat * G;
  group_remove : G → nat → G;
  group_on_tick : G → Z → G;
  group_on_event : G → Z → nat → I → outcome G;
  group_on_shutdown : G → Z → G;
  group_pop_output : G → Z → G * option (nat * O);
  group_tasks : G → nat;
}.

Inductive TaskId := TaskWhip (index : nat) | TaskWhep (index : nat).

#[global] Instance TaskId_eq_dec : EqDecision TaskId.
Proof. solve_decision. Defined.
#[global] Instance TaskId_countable : Countable TaskId.
Proof.
  apply (inj_countable' (λ t, match t with TaskWhip i => inl i | TaskWhep i => inr i end)
           (λ s : nat + nat, match s with inl i => TaskWhip i | inr i => TaskWhep i end)). by intros [].
Defined.

(** ** Requests ([http.rs]) *)

Record HttpRequest := mkHttpRequest { req_id : Z; req_method : Str; req_path : Str; req_headers : gmap Str Str; req_body : Buffer }.
Record HttpResponse := mkHttpResponse { res_req_id : Z; res_status : Z; res_headers : gmap Str Str; res_body : Buffer }.

Definition http_auth (req : HttpRequest) : Str :=
  match req_headers req !! str "Authorization" with
  | Some auth => auth
  | None => match req_headers req !! str "authorization" with Some auth => auth | None => str "demo" end
  end.

(** [Display] of a [usize]: at most twenty digits. *)
Definition print_usize (n : nat) : Str := print_digits 20 (Z.of_nat n) [].

Inductive SfuInput :=
| SfuHttpRequest (req : HttpRequest)
| SfuPubsubEvent (event : ChannelId * ChannelEvent)
| SfuUdpBind (addr : SocketAddr)
| SfuUdpPacket (from : SocketAddr) (data : Buffer).

Inductive SfuOutput :=
| SfuHttpResponse (res : HttpResponse)
| SfuPubsubControl (control : ChannelId * ChannelControl)
| SfuOutUdp (to : SocketAddr) (data : Buffer).

Section sfu.
Context {Rtc Cert WhipG WhepG : Type} `{!RtcApi Rtc Cert}.
Context `{!TaskGroup WhipG (MediaTask Rtc WhipOutput) WhipInput WhipOutput} `{!TaskGroup WhepG (MediaTask Rtc WhepOutput) WhepInput WhepOutput}.
Context {media_codec : Codec TrackMedia} (get_stun_username : Buffer → option Str).
(** [String::from_utf8_lossy] *)
Context (from_utf8_lossy : Buffer → Str).

Record SfuWorker := mkSfu {
  sfu_worker : Z;
  dtls_cert : Cert;
  sfu_cluster : ClusterLogic;
  whip_group : WhipG;
  whep_group : WhepG;
  sfu_output : list SfuOutput;
  shared_udp : SharedUdpPort TaskId;
}.

Definition sfu_push (self : SfuWorker) (out : SfuOutput) : SfuWorker :=
  mkSfu (sfu_worker self) (dtls_cert self) (sfu_cluster self) (whip_group self) (whep_group self) (sfu_output self ++ [out]) (shared_udp self).
Definition with_cluster (self : SfuWorker) (c : ClusterLogic) : SfuWorker :=
  mkSfu (sfu_worker self) (dtls_cert self) c (whip_group self) (whep_group self) (sfu_output self) (shared_udp self).
Definition with_whips (self : SfuWorker) (g : WhipG) : SfuWorker :=
  mkSfu (sfu_worker self) (dtls_cert self) (sfu_cluster self) g (whep_group self) (sfu_output self) (shared_udp self).
Definition with_wheps (self : SfuWorker) (g : WhepG) : SfuWorker :=
  mkSfu (sfu_worker self) (dtls_cert self) (sfu_cluster self) (whip_group self) g (sfu_output self) (shared_udp self).
Definition with_port (self : SfuWorker) (p : SharedUdpPort TaskId) : SfuWorker :=
  mkSfu (sfu_worker self) (dtls_cert self) (sfu_cluster self) (whip_group self) (whep_group self) (sfu_output self) p.

Definition sfu_build (worker : Z) (cert : Cert) : SfuWorker :=
  mkSfu worker cert cluster_default group_default group_default [] port_default.

Definition sfu_tasks (self : SfuWorker) : nat := group_tasks (whip_group self) + group_tasks (whep_group self).

Definition answer_headers (self : SfuWorker) (path : Str) (index : nat) : gmap Str Str :=
  {[ str "Content-Type" := str "application/sdp"; str "Location" := path ++ str "/" ++ print_u32 (sfu_worker self) ++ str "/" ++ print_usize index ]}.

(** The credentials of the endpoint are fresh; [ufrag] names them. *)
Definition connect_whip (ufrag : Str) (self : SfuWorker) (req : HttpRequest) : outcome SfuWorker :=
  addr ← expect (backend_addr (shared_udp self));
  built ← whip_build ufrag addr (dtls_cert self) (http_auth req) (from_utf8_lossy (req_body req));
  Done match built with
       | inl (task, ufrag, sdp) =>
           let '(index, whips) := group_add (whip_group self) task in
           sfu_push (with_port (with_whips self whips) (add_ufrag (shared_udp self) ufrag (TaskWhip index)))
             (SfuHttpResponse (mkHttpResponse (req_id req) 200 (answer_headers self (str "/whip/endpoint") index) sdp))
       | inr err => sfu_push self (SfuHttpResponse (mkHttpResponse (req_id req) 500 ∅ err))
       end.

Definition connect_whep (ufrag : Str) (self : SfuWorker) (req : HttpRequest) : outcome SfuWorker :=
  addr ← expect (backend_addr (shared_udp self));
  built ← whep_build ufrag addr (dtls_cert self) (http_auth req) (from_utf8_lossy (req_body req));
  Done match built with
       | inl (task, ufrag, sdp) =>
           let '(index, wheps) := group_add (whep_group self) task in
           sfu_push (with_port (with_wheps self wheps) (add_ufrag (shared_udp self) ufrag (TaskWhep index)))
             (SfuHttpResponse (mkHttpResponse (req_id req) 200 (answer_headers self (str "/whep/endpoint") index) sdp))
       | inr err => sfu_push self (SfuHttpResponse (mkHttpResponse (req_id req) 500 ∅ err))
       end.

Definition process_req (ufrag : Str) (self : SfuWorker) (req : HttpRequest) : outcome SfuWorker :=
  if decide (req_path req = str "/whip/endpoint") then connect_whip ufrag self req
  else if decide (req_path req = str "/whep/endpoint") then connect_whep ufrag self req
  else Done (sfu_push self (SfuHttpResponse (mkHttpResponse (req_id req) 404 ∅ (str "Task Not Found")))).

Definition process_cluster_output (self : SfuWorker) (now : Z) (out : ClusterOutput) : outcome SfuWorker :=
  match out with
  | CoPubsub control => Done (sfu_push self (SfuPubsubControl control))
  | CoWhepMedia owners media =>
      g ← foldM (λ g owner, group_on_event g now owner (WhepInMedia media)) (whep_group self) owners; Done (with_wheps self g)
  | CoWhipControl owners kind =>
      g ← foldM (λ g owner, group_on_event g now owner (WhipKeyFrame kind)) (whip_group self) owners; Done (with_whips self g)
  end.

(** [if let Some(out) = self.cluster.on_input(..) { self.process_cluster_output(..) }] *)
Definition cluster_input (self : SfuWorker) (now : Z) (input : ClusterInput) : outcome SfuWorker :=
  r ← cluster_on_input (sfu_cluster self) input;
  let self := with_cluster self r.1 in
  match r.2 with Some out => process_cluster_output self now out | None => Done self end.

Definition process_whip_out (self : SfuWorker) (now : Z) (index : nat) (out : WhipOutput) : outcome SfuWorker :=
  match out with
  | WhipStarted room => cluster_input self now (WhipStart index room)
  | WhipOutMedia media => cluster_input self now (WhipMedia index media)
  | WhipOutUdp to data => Done (sfu_push self (SfuOutUdp to data))
  | WhipDestroy =>
      let self := with_port self (port_remove_task (shared_udp self) (TaskWhip index)) in
      let self := with_whips self (group_remove (whip_group self) index) in
      cluster_input self now (WhipStop index)
  end.

Definition process_whep_out (self : SfuWorker) (now : Z) (index : nat) (out : WhepOutput) : outcome SfuWorker :=
  match out with
  | WhepStarted room => cluster_input self now (WhepStart index room)
  | WhepRequestKey kind => cluster_input self now (WhepRequest index kind)
  | WhepOutUdp to data => Done (sfu_push self (SfuOutUdp to data))
  | WhepDestroy =>
      let self := with_port self (port_remove_task (shared_udp self) (TaskWhip index)) in
      let self := with_wheps self (group_remove (whep_group self) index) in
      cluster_input self now (WhepStop index)
  end.

Definition sfu_on_tick (self : SfuWorker) (now : Z) : SfuWorker :=
  with_wheps (with_whips self (group_on_tick (whip_group self) now)) (group_on_tick (whep_group self) now).

Definition sfu_on_event (ufrag : Str) (self : SfuWorker) (now : Z) (input : SfuInput) : outcome SfuWorker :=
  match input with
  | SfuUdpBind addr => Done (with_port self (set_backend_info (shared_udp self) addr))
  | SfuUdpPacket from data =>
      let '(port, task) := map_remote get_stun_username (shared_udp self) from data in
      let self := with_port self port in
      match task with
      | Some (TaskWhip index) => g ← group_on_event (whip_group self) now index (WhipUdpPacket from data); Done (with_whips self g)
      | Some (TaskWhep index) => g ← group_on_event (whep_group self) now index (WhepUdpPacket from data); Done (with_wheps self g)
      | None => Done self
      end
  | SfuHttpRequest req => process_req ufrag self req
  | SfuPubsubEvent event => cluster_input self now (CiPubsub event)
  end.

(** [TaskType]; the switcher names the task that is asked next. *)
Inductive SfuTask := SfuTaskCluster | SfuTaskWhip | SfuTaskWhep.

Definition sfu_pop_front (self : SfuWorker) : SfuWorker * option SfuOutput :=
  match sfu_output self with
  | [] => (self, None)
  | out :: rest => (mkSfu (sfu_worker self) (dtls_cert self) (sfu_cluster self) (whip_group self) (whep_group self) rest (shared_udp self), Some out)
  end.

(** [tasks] is what the switcher names in the turns of the loop. *)
Fixpoint sfu_pop_loop (tasks : list SfuTask) (self : SfuWorker) (now : Z) : outcome (SfuWorker * option SfuOutput) :=
  match tasks with
  | [] => Done (self, None)
  | task :: tasks =>
      (* the worker, and whether a task had an output *)
      r ← match task with
          | SfuTaskCluster => Done (self, false)
          | SfuTaskWhip =>
              let '(g, out) := group_pop_output (whip_group self) now in
              match out with
              | Some (index, out) => self ← process_whip_out (with_whips self g) now index out; Done (self, true)
              | None => Done (with_whips self g, false)
              end
          | SfuTaskWhep =>
              let '(g, out) := group_pop_output (whep_group self) now in
              match out with
              | Some (index, out) => self ← process_whep_out (with_wheps self g) now index out; Done (self, true)
              | None => Done (with_wheps self g, false)
              end
          end;
      if r.2 : bool then
        match sfu_pop_front r.1 with
        | (self, Some out) => Done (self, Some out)
        | (self, None) => sfu_pop_loop tasks self now
        end
      else sfu_pop_loop tasks r.1 now
  end.

Definition sfu_pop_output (tasks : list SfuTask) (self : SfuWorker) (now : Z) : outcome (SfuWorker * option SfuOutput) :=
  match sfu_pop_front self with
  | (self, Some out) => Done (self, Some out)
  | (self, None) => sfu_pop_loop tasks self now
  end.

Definition sfu_on_shutdown (self : SfuWorker) (now : Z) : SfuWorker :=
  with_wheps (with_whips self (group_on_shutdown (whip_group self) now)) (group_on_shutdown (whep_group self) now).

(** ** Requests and packets *)

(** Every request that does not end the program is answered once, under its
    number; a new publisher is the one the packets with its name go to. *)
Lemma requests_answered_once ufrag self req self' : process_req ufrag self req = Done self' →
  ∃ res, sfu_output self' = sfu_output self ++ [SfuHttpResponse res] ∧ res_req_id res = req_id req ∧
    (req_path req = str "/whip/endpoint" → ∀ from buf, task_remotes (shared_udp self) !! from = None → get_stun_username buf = Some ufrag →
      ∃ index, (map_remote get_stun_username (shared_udp self') from buf).2 = Some (TaskWhip index) ∧
        res_headers res = answer_headers self (str "/whip/endpoint") index).
Proof.
  unfold process_req. case_decide as Hwhip; [|case_decide].
  - unfold connect_whip. destruct (backend_addr _) as [addr|]; [|done]. cbn [expect]. rewrite bind_Done. unfold whip_build, task_build.
    destruct (expect (rtc_build _ _ _)) as [rtc|]; [|done]. rewrite bind_Done. destruct (expect (rtc_accept_offer _ _)) as [answer|]; [|done].
    rewrite !bind_Done. destruct (group_add _ _) as [index whips]. intros [= <-]. eexists. split; [done|]. split; [done|]. intros _ from buf Hfrom Hname.
    exists index. split; [|done]. unfold map_remote. cbn [shared_udp with_port sfu_push add_ufrag task_remotes task_ufrags]. rewrite Hfrom, Hname. cbn.
    by rewrite lookup_insert_eq.
  - unfold connect_whep. destruct (backend_addr _) as [addr|]; [|done]. cbn [expect]. rewrite bind_Done. unfold whep_build, task_build.
    destruct (expect (rtc_build _ _ _)) as [rtc|]; [|done]. rewrite bind_Done. destruct (expect (rtc_accept_offer _ _)) as [answer|]; [|done].
    rewrite !bind_Done. destruct (group_add _ _) as [index wheps]. intros [= <-]. eexists. split; [done|]. by split.
  - intros [= <-]. eexists. split; [done|]. by split.
Qed.

(** ** A viewer that leaves *)

Lemma cluster_input_port self now input self' : cluster_input self now input = Done self' → shared_udp self' = shared_udp self.
Proof.
  unfold cluster_input. destruct (cluster_on_input _ _) as [[c out]|]; [|done]. rewrite bind_Done. cbv zeta. cbn [fst snd].
  destruct out as [[control|owners media|owners kind]|]; cbn [process_cluster_output]; [by intros [= <-]| | |by intros [= <-]].
  all: destruct (foldM _ _ _) as [g|]; [|done]; rewrite bind_Done; by intros [= <-].
Qed.

(** The worker frees the wrong entry: a viewer that leaves keeps its name and
    its addresses, and the publisher with the same number loses both, so that
    none of its packets reaches it any more. *)
Lemma viewer_leaving_cuts_publisher self now i self' remote viewer ufrag :
  port_inv (shared_udp self) → task_remotes (shared_udp self) !! remote = Some (TaskWhip i) → task_remotes (shared_udp self) !! viewer = Some (TaskWhep i) →
  task_ufrags (shared_udp self) !! ufrag = Some (TaskWhip i) → process_whep_out self now i WhepDestroy = Done self' →
  task_remotes (shared_udp self') !! viewer = Some (TaskWhep i) ∧
  ∀ from buf, (map_remote get_stun_username (shared_udp self') from buf).2 ≠ Some (TaskWhip i).
Proof.
  intros Hinv Hr Hv Hu Hd. cbn [process_whep_out] in Hd. apply cluster_input_port in Hd. cbn [with_wheps with_port shared_udp] in Hd. rewrite Hd.
  destruct (remove_task_spec (shared_udp self) (TaskWhip i) Hinv) as (_ & _ & Hrem & Huf). split; [by apply Hrem|].
  intros from buf. unfold map_remote. destruct (task_remotes (port_remove_task _ _) !! from) as [t|] eqn:Ht.
  - cbn. apply Hrem in Ht as [_ Hne]. congruence.
  - destruct (username ← _; _) as [t|] eqn:Hb; cbn; [|done]. apply bind_Some in Hb as (u & _ & Hx). apply Huf in Hx as [_ Hne]. congruence.
Qed.
End sfu.
