(* ===== verification/SfuNode.v ===== *)
(** * The media server program ([examples/whip-whep/src/worker.rs],
    [examples/whip-whep/src/http.rs], the loop of [main.rs])

    A worker of the program runs the media worker beside a network worker; a
    server takes http requests, hands them to one of the workers and sends the
    answers back. The program is written against an earlier interface of the
    network worker, which is a parameter here ([MediaSdn]), as are the http
    connections of [tiny_http] and the file system. *)

From Stdlib Require Import (notations) Strings.String.
From S2P Require Import Prelude NodeId Base Hash NodeAddr Neighbours PubsubMsg PubsubRelay Features DataPlane Runner SfuTask Sfu.

(** ** The http server ([http.rs]) *)

Section http.
(** [tiny_http::Request] and [std::fs::File]. *)
Context {Request File : Type}.

Inductive ResponseBody := BodyData (data : Buffer) | BodyFile (file : File).
(** The headers are those the program adds. *)
Record Response := mkResponse { rs_status : Z; rs_headers : list (Str * Str); rs_body : ResponseBody }.

Record RequestApi := mkRequestApi {
  rq_url : Request → Str;
  rq_is_options : Request → bool;
  rq_method : Request → Str;
  rq_headers : Request → list (Str * Str);
  (** The bytes of the body, unless reading fails. *)
  rq_bytes : Request → option Buffer;
  (** Whether the answer can be written, and whether a header is one. *)
  rq_respond : Request → Response → bool;
  header_valid : Str → Str → bool;
  file_open : Str → option File;
}.
Context (api : RequestApi).

(** [Header::from_bytes(..).unwrap()] for each header, [respond(..).unwrap()] *)
Definition respond (request : Request) (response : Response) : outcome unit :=
  if forallb (λ h, header_valid api h.1 h.2) (rs_headers response) && rq_respond api request response then Done tt else Panic.

Record SimpleHttpServer := mkServer { req_id_seed : Z; reqs : gmap Z Request }.

Definition server_new : SimpleHttpServer := mkServer 0 ∅.

Definition cors_headers : list (Str * Str) :=
  [(str "Access-Control-Allow-Origin", str "*"); (str "Access-Control-Allow-Methods", str "GET, POST, PATCH, DELETE, OPTIONS");
   (str "Access-Control-Allow-Headers", str "*"); (str "Access-Control-Allow-Credentials", str "true")].

(** The request that is answered, and the answer. *)
Definition send_response (order : HashOrder) (self : SimpleHttpServer) (res : HttpResponse) : outcome (SimpleHttpServer * (Request * Response)) :=
  req ← expect (reqs self !! res_req_id res);
  let response := mkResponse (res_status res) (hash_iter (res_headers res) ++ cors_headers) (BodyData (res_body res)) in
  _ ← respond req response;
  Done (mkServer (req_id_seed self) (delete (res_req_id res) (reqs self)), (req, response)).

Definition starts_with (prefix s : Str) : bool := bool_decide (take (length prefix) s = prefix).
Definition ends_with (suffix s : Str) : bool := bool_decide (drop (length s - length suffix) s = suffix ∧ (length suffix ≤ length s)%nat).

Definition file_headers (url : Str) : list (Str * Str) :=
  if ends_with (str ".js") url then [(str "Content-Type", str "application/javascript")]
  else if ends_with (str ".css") url then [(str "Content-Type", str "text/css")]
  else [].

(** [recv] with the request that arrived, if one did: the answer that is sent
    at once, or the request for the workers. *)
Definition server_recv (self : SimpleHttpServer) (arrived : option Request)
    : outcome (SimpleHttpServer * option (Request * Response) * option HttpRequest) :=
  let answer request response := _ ← respond request response; Done (self, Some (request, response), None) in
  match arrived with
  | None => Done (self, None, None)
  | Some request =>
      if starts_with (str "/public") (rq_url api request) then
        match file_open api (str "." ++ rq_url api request) with
        | Some file => answer request (mkResponse 200 (file_headers (rq_url api request)) (BodyFile file))
        | None => answer request (mkResponse 404 [] (BodyData (str "Not Found")))
        end
      else if rq_is_options api request then answer request (mkResponse 200 cors_headers (BodyData (str "OK")))
      else
        let id := req_id_seed self in
        body ← expect (rq_bytes api request);
        Done (mkServer (wrap 64 (req_id_seed self + 1)) (<[id := request]> (reqs self)), None,
              Some (mkHttpRequest id (rq_method api request) (rq_url api request)
                      (foldl (λ m h, <[h.1 := h.2]> m) ∅ (rq_headers api request)) body))
  end.

(** Any path behind the prefix is opened, one with [..] too. *)
Lemma public_serves_any_path self request rest file :
  rq_url api request = str "/public" ++ rest → file_open api (str "./public" ++ rest) = Some file →
  server_recv self (Some request) =
    (_ ← respond request (mkResponse 200 (file_headers (rq_url api request)) (BodyFile file));
     Done (self, Some (request, mkResponse 200 (file_headers (rq_url api request)) (BodyFile file)), None)).
Proof.
  intros Hu Hf. cbn [server_recv]. assert (starts_with (str "/public") (rq_url api request) = true) as ->.
  { apply bool_decide_eq_true_2. rewrite Hu. apply take_app_length. }
  rewrite Hu. change (str "." ++ str "/public" ++ rest) with (str "./public" ++ rest). by rewrite Hf.
Qed.
End http.

Arguments RequestApi Request File : clear implicits.
Arguments SimpleHttpServer Request : clear implicits.
Arguments Response File : clear implicits.

(** ** The worker ([worker.rs]) *)

(** What the network worker takes and gives; [C], [E] and [M] are the messages
    for the controller, for all workers and for one worker. *)
Inductive SdnBus (C E M : Type) := SbControl (control : C) | SbWorkers (event : E) | SbWorker (worker : Z) (msg : M).
Arguments SbControl {_ _ _} _.
Arguments SbWorkers {_ _ _} _.
Arguments SbWorker {_ _ _} _ _.

Section types.
Context {SC SE C E M : Type}.

Inductive SdnIn :=
| SiExt (ext : ExtIn unit NodeAddr SC)
| SiExtWorker (ext : ExtIn unit NodeAddr SC)
| SiNet (from : SocketAddr) (data : Buffer)
| SiBus (event : SdnBus C E M)
| SiShutdownRequest.

Inductive SdnOut :=
| SoExt (ext : ExtOut unit SE)
| SoExtWorker (ext : ExtOut unit SE)
| SoUdpPacket (remote : SocketAddr) (data : Buffer)
| SoUdpPackets (remotes : list SocketAddr) (data : Buffer)
| SoBus (event : SdnBus C E M)
| SoShutdownResponse
| SoContinue.

Inductive MediaExtIn := MiSdn (ext : ExtIn unit NodeAddr SC) | MiHttpRequest (req : HttpRequest).
Inductive MediaExtOut := MoSdn (ext : ExtOut unit SE) | MoHttpResponse (res : HttpResponse).
Inductive RunnerOwner := OwnSdn | OwnSfu.

Inductive MediaBackendIn :=
| MbUdpPacket (slot : Z) (from : SocketAddr) (data : Buffer)
| MbUdpListenResult (bind : SocketAddr) (result : option (SocketAddr * Z)).

Inductive MediaBackendOut :=
| MbUdpListen (addr : SocketAddr) (reuse : bool)
| MbOutPacket (slot : Z) (to : SocketAddr) (data : Buffer)
| MbOutPackets (slot : Z) (to : list SocketAddr) (data : Buffer).

Inductive MediaInput :=
| MwNet (owner : RunnerOwner) (event : MediaBackendIn)
| MwExt (ext : MediaExtIn)
| MwBroadcast (from : Z) (event : SdnBus C E M)
| MwChannel (owner : RunnerOwner) (channel : SdnChannel) (event : SdnBus C E M).

Inductive MediaOutput :=
| MwOutNet (owner : RunnerOwner) (out : MediaBackendOut)
| MwOutSubscribe (owner : RunnerOwner) (channel : SdnChannel)
| MwOutPublish (owner : RunnerOwner) (channel : SdnChannel) (safe : bool) (event : SdnBus C E M)
| MwOutBroadcast (safe : bool) (event : SdnBus C E M)
| MwOutExt (safe : bool) (ext : MediaExtOut).
End types.

Arguments SdnIn SC C E M : clear implicits.
Arguments SdnOut SE C E M : clear implicits.
Arguments MediaExtIn SC : clear implicits.
Arguments MediaExtOut SE : clear implicits.
Arguments MediaInput SC C E M : clear implicits.
Arguments MediaOutput SE C E M : clear implicits.

Class MediaSdn (Sdn SC SE C E M : Type) := {
  sdn_tasks : Sdn → nat;
  sdn_on_tick : Sdn → Z → outcome Sdn;
  sdn_on_event : Sdn → Z → SdnIn SC C E M → outcome Sdn;
  sdn_pop_output : Sdn → Z → outcome (Sdn * option (SdnOut SE C E M));
}.

Section worker.
Context {Rtc Cert WhipG WhepG : Type} `{!RtcApi Rtc Cert}.
Context `{!TaskGroup WhipG (MediaTask Rtc WhipOutput) WhipInput WhipOutput} `{!TaskGroup WhepG (MediaTask Rtc WhepOutput) WhepInput WhepOutput}.
Context {media_codec : Codec TrackMedia} (get_stun_username : Buffer → option Str) (from_utf8_lossy : Buffer → Str).
Context {Sdn SC SE C E M : Type} `{!MediaSdn Sdn SC SE C E M}.

Abbreviation Sfu := (SfuWorker (Cert := Cert) (WhipG := WhipG) (WhepG := WhepG)) (only parsing).
Abbreviation Out := (MediaOutput SE C E M) (only parsing).

Record RunnerWorker := mkRunner {
  rw_worker : Z;
  rw_sdn : Sdn;
  rw_sfu : Sfu;
  sdn_backend_slot : Z;
  sfu_backend_slot : Z;
  rw_time : TimePivot;
  rw_queue : list Out;
}.

(** [build]; [sdn] is the network worker made from the configuration. *)
Definition rw_build (worker : Z) (has_controller : bool) (sdn_listen sfu_listen : SocketAddr) (sdn : Sdn) (cert : Cert) (time : TimePivot) : RunnerWorker :=
  mkRunner worker sdn (sfu_build worker cert) 0 0 time
    ([MwOutNet OwnSdn (MbUdpListen sdn_listen true); MwOutNet OwnSfu (MbUdpListen sfu_listen false); MwOutSubscribe OwnSdn (ChWorker worker)] ++
     (if has_controller then [MwOutSubscribe OwnSdn ChController] else [])).

Definition rw_tasks (self : RunnerWorker) : nat := sdn_tasks (rw_sdn self) + sfu_tasks (rw_sfu self).

(** [unimplemented!()] *)
Definition rw_spawn (self : RunnerWorker) : outcome RunnerWorker := Panic.

Definition rw_with_sdn (self : RunnerWorker) (sdn : Sdn) : RunnerWorker :=
  mkRunner (rw_worker self) sdn (rw_sfu self) (sdn_backend_slot self) (sfu_backend_slot self) (rw_time self) (rw_queue self).
Definition rw_with_sfu (self : RunnerWorker) (sfu : Sfu) : RunnerWorker :=
  mkRunner (rw_worker self) (rw_sdn self) sfu (sdn_backend_slot self) (sfu_backend_slot self) (rw_time self) (rw_queue self).
Definition rw_push (self : RunnerWorker) (out : Out) : RunnerWorker :=
  mkRunner (rw_worker self) (rw_sdn self) (rw_sfu self) (sdn_backend_slot self) (sfu_backend_slot self) (rw_time self) (rw_queue self ++ [out]).

Definition rw_sdn_event (self : RunnerWorker) (now : Z) (input : SdnIn SC C E M) : outcome RunnerWorker :=
  sdn ← sdn_on_event (rw_sdn self) (timestamp_ms (rw_time self) now) input; Done (rw_with_sdn self sdn).

(** [ufrag] names the credentials of an endpoint the event makes. *)
Definition rw_sfu_event (ufrag : Str) (self : RunnerWorker) (now : Z) (input : SfuInput) : outcome RunnerWorker :=
  sfu ← sfu_on_event get_stun_username from_utf8_lossy ufrag (rw_sfu self) now input; Done (rw_with_sfu self sfu).

Definition rw_on_tick (self : RunnerWorker) (now : Z) : outcome RunnerWorker :=
  sdn ← sdn_on_tick (rw_sdn self) (timestamp_ms (rw_time self) now);
  Done (rw_with_sfu (rw_with_sdn self sdn) (sfu_on_tick (rw_sfu self) now)).

Definition rw_on_event (ufrag : Str) (self : RunnerWorker) (now : Z) (event : MediaInput SC C E M) : outcome RunnerWorker :=
  match event with
  | MwNet OwnSdn (MbUdpPacket _ from data) => rw_sdn_event self now (SiNet from data)
  | MwNet OwnSdn (MbUdpListenResult _ result) =>
      r ← expect result;
      Done (mkRunner (rw_worker self) (rw_sdn self) (rw_sfu self) r.2 (sfu_backend_slot self) (rw_time self) (rw_queue self))
  | MwNet OwnSfu (MbUdpPacket _ from data) => rw_sfu_event ufrag self now (SfuUdpPacket from data)
  | MwNet OwnSfu (MbUdpListenResult _ result) =>
      r ← expect result;
      rw_sfu_event ufrag (mkRunner (rw_worker self) (rw_sdn self) (rw_sfu self) (sdn_backend_slot self) r.2 (rw_time self) (rw_queue self)) now
        (SfuUdpBind r.1)
  | MwExt (MiSdn ext) => rw_sdn_event self now (SiExt ext)
  | MwExt (MiHttpRequest req) => rw_sfu_event ufrag self now (SfuHttpRequest req)
  | MwBroadcast _ event => rw_sdn_event self now (SiBus event)
  | MwChannel _ _ event => rw_sdn_event self now (SiBus event)
  end.

Definition process_sdn (self : RunnerWorker) (now : Z) (out : SdnOut SE C E M) : outcome RunnerWorker :=
  match out with
  | SoExt ext => Done (rw_push self (MwOutExt true (MoSdn ext)))
  | SoExtWorker (ExtFeaturesEvent _ (EvPubSub event)) => rw_sfu_event [] self now (SfuPubsubEvent event)
  | SoExtWorker _ => Done self
  | SoUdpPacket remote data => Done (rw_push self (MwOutNet OwnSdn (MbOutPacket (sdn_backend_slot self) remote data)))
  | SoUdpPackets remotes data => Done (rw_push self (MwOutNet OwnSdn (MbOutPackets (sdn_backend_slot self) remotes data)))
  | SoBus (SbControl control) => Done (rw_push self (MwOutPublish OwnSdn ChController true (SbControl control)))
  | SoBus (SbWorkers event) => Done (rw_push self (MwOutBroadcast true (SbWorkers event)))
  | SoBus (SbWorker worker msg) => Done (rw_push self (MwOutPublish OwnSdn (ChWorker worker) true (SbWorker (rw_worker self) msg)))
  | SoShutdownResponse => Done self
  | SoContinue => Done self
  end.

Definition process_sfu (self : RunnerWorker) (now : Z) (out : SfuOutput) : outcome RunnerWorker :=
  match out with
  | SfuHttpResponse res => Done (rw_push self (MwOutExt true (MoHttpResponse res)))
  | SfuPubsubControl control => rw_sdn_event self now (SiExtWorker (ExtFeaturesControl tt (CtlPubSub control)))
  | SfuOutUdp to data => Done (rw_push self (MwOutNet OwnSdn (MbOutPacket (sfu_backend_slot self) to data)))
  end.

Definition rw_pop_front (self : RunnerWorker) : RunnerWorker * option Out :=
  match rw_queue self with
  | [] => (self, None)
  | out :: rest =>
      (mkRunner (rw_worker self) (rw_sdn self) (rw_sfu self) (sdn_backend_slot self) (sfu_backend_slot self) (rw_time self) rest, Some out)
  end.

(** The turns of the switcher, with those of the media worker. *)
Inductive MediaTurn := TurnSdn | TurnSfu (tasks : list SfuTask).

(** One turn, and whether the task had an output. *)
Definition rw_turn (self : RunnerWorker) (now : Z) (turn : MediaTurn) : outcome (RunnerWorker * bool) :=
  match turn with
  | TurnSdn =>
      r ← sdn_pop_output (rw_sdn self) (timestamp_ms (rw_time self) now);
      let self := rw_with_sdn self r.1 in
      match r.2 with Some out => self ← process_sdn self now out; Done (self, true) | None => Done (self, false) end
  | TurnSfu tasks =>
      r ← sfu_pop_output tasks (rw_sfu self) now;
      let self := rw_with_sfu self r.1 in
      match r.2 with Some out => self ← process_sfu self now out; Done (self, true) | None => Done (self, false) end
  end.

Fixpoint rw_pop_output (turns : list MediaTurn) (self : RunnerWorker) (now : Z) : outcome (RunnerWorker * option Out) :=
  match turns with
  | [] => Done (rw_pop_front self)
  | turn :: turns =>
      r ← rw_turn self now turn;
      if r.2 : bool then
        match rw_pop_front r.1 with
        | (self, Some out) => Done (self, Some out)
        | (self, None) => rw_pop_output turns self now
        end
      else rw_pop_output turns r.1 now
  end.

Definition rw_on_shutdown (self : RunnerWorker) (now : Z) : outcome RunnerWorker :=
  rw_sdn_event (rw_with_sfu self (sfu_on_shutdown (rw_sfu self) now)) now SiShutdownRequest.

(** ** The program ([main.rs]) *)

Section program.
Context {Request File : Type} (api : RequestApi Request File).

(** The server, the workers, the requests the runtime has not handed to a
    worker yet and the events it has not handed to the server. *)
Record program := mkProgram {
  pg_server : SimpleHttpServer Request;
  pg_workers : list RunnerWorker;
  pg_requests : list HttpRequest;
  pg_events : list (MediaExtOut SE);
}.

Definition ext_events (out : option Out) : list (MediaExtOut SE) := match out with Some (MwOutExt _ ext) => [ext] | _ => [] end.

(** An input of a worker that is no request. *)
Definition no_request (event : MediaInput SC C E M) : Prop := match event with MwExt (MiHttpRequest _) => False | _ => True end.

Inductive worker_step (now : Z) : RunnerWorker → RunnerWorker → list (MediaExtOut SE) → Prop :=
| wk_event ufrag w event w' : no_request event → rw_on_event ufrag w now event = Done w' → worker_step now w w' []
| wk_tick w w' : rw_on_tick w now = Done w' → worker_step now w w' []
| wk_shutdown w w' : rw_on_shutdown w now = Done w' → worker_step now w w' []
| wk_pop turns w w' out : rw_pop_output turns w now = Done (w', out) → worker_step now w w' (ext_events out).

(** The turns of the loop, the workers, and what the runtime hands on or
    loses. The numbers of requests do not overflow. *)
Inductive program_step : program → program → Prop :=
| pg_recv srv ws rqs evs arrived srv' answer req :
    req_id_seed srv + 1 < 2 ^ 64 → server_recv api srv arrived = Done (srv', answer, req) →
    program_step (mkProgram srv ws rqs evs) (mkProgram srv' ws (rqs ++ option_list req) evs)
| pg_deliver srv ws1 w ws2 rqs1 req rqs2 evs ufrag now w' :
    rw_on_event ufrag w now (MwExt (MiHttpRequest req)) = Done w' →
    program_step (mkProgram srv (ws1 ++ w :: ws2) (rqs1 ++ req :: rqs2) evs) (mkProgram srv (ws1 ++ w' :: ws2) (rqs1 ++ rqs2) evs)
| pg_work srv ws1 w ws2 rqs evs now w' outs :
    worker_step now w w' outs → program_step (mkProgram srv (ws1 ++ w :: ws2) rqs evs) (mkProgram srv (ws1 ++ w' :: ws2) rqs (evs ++ outs))
| pg_lose_request srv ws rqs1 req rqs2 evs : program_step (mkProgram srv ws (rqs1 ++ req :: rqs2) evs) (mkProgram srv ws (rqs1 ++ rqs2) evs)
| pg_lose_event srv ws rqs evs1 ev evs2 : program_step (mkProgram srv ws rqs (evs1 ++ ev :: evs2)) (mkProgram srv ws rqs (evs1 ++ evs2))
| pg_send order srv ws rqs res evs srv' answer :
    send_response api order srv res = Done (srv', answer) →
    program_step (mkProgram srv ws rqs (MoHttpResponse res :: evs)) (mkProgram srv' ws rqs evs)
| pg_ignore srv ws rqs ext evs : program_step (mkProgram srv ws rqs (MoSdn ext :: evs)) (mkProgram srv ws rqs evs).

(** *** The numbers of the requests that are not answered yet *)

Definition sfu_ids (outs : list SfuOutput) : list Z := omap (λ out, match out with SfuHttpResponse res => Some (res_req_id res) | _ => None end) outs.
Definition ext_ids (evs : list (MediaExtOut SE)) : list Z := omap (λ ev, match ev with MoHttpResponse res => Some (res_req_id res) | _ => None end) evs.
Definition out_ids (outs : list Out) : list Z := omap (λ out, match out with MwOutExt _ (MoHttpResponse res) => Some (res_req_id res) | _ => None end) outs.
Definition rw_ids (w : RunnerWorker) : list Z := out_ids (rw_queue w) ++ sfu_ids (sfu_output (rw_sfu w)).
Definition program_ids (p : program) : list Z :=
  (req_id <$> pg_requests p) ++ concat (rw_ids <$> pg_workers p) ++ ext_ids (pg_events p).

Lemma cluster_input_ids (self self' : Sfu) now input : cluster_input self now input = Done self' → sfu_ids (sfu_output self') = sfu_ids (sfu_output self).
Proof.
  unfold cluster_input. destruct (cluster_on_input _ _) as [[c out]|]; [|done]. rewrite bind_Done. cbv zeta. cbn [fst snd].
  destruct out as [[control|owners media|owners kind]|]; cbn [process_cluster_output]; [| | |by intros [= <-]].
  - intros [= <-]. unfold sfu_ids. cbn [sfu_push with_cluster sfu_output]. rewrite omap_app. apply app_nil_r.
  - destruct (foldM _ _ _) as [g|]; [|done]; rewrite bind_Done; by intros [= <-].
  - destruct (foldM _ _ _) as [g|]; [|done]; rewrite bind_Done; by intros [= <-].
Qed.

Lemma sfu_push_ids (self : Sfu) out : sfu_ids (sfu_output (sfu_push self out)) = sfu_ids (sfu_output self) ++ sfu_ids [out].
Proof. apply omap_app. Qed.

Lemma sfu_event_ids ufrag (self self' : Sfu) now input :
  sfu_on_event get_stun_username from_utf8_lossy ufrag self now input = Done self' →
  sfu_ids (sfu_output self') = sfu_ids (sfu_output self) ++ match input with SfuHttpRequest req => [req_id req] | _ => [] end.
Proof.
  destruct input as [req|event|addr|from data]; cbn [sfu_on_event].
  - intros Hp. destruct (requests_answered_once get_stun_username from_utf8_lossy _ _ _ _ Hp) as (res & -> & <- & _). unfold sfu_ids. by rewrite omap_app.
  - intros ->%cluster_input_ids. by rewrite app_nil_r.
  - intros [= <-]. by rewrite app_nil_r.
  - rewrite app_nil_r. destruct (map_remote _ _ _ _) as [port [[i|i]|]]; cbv zeta; [| |by intros [= <-]];
      (destruct (group_on_event _ _ _ _) as [g|]; [|done]; rewrite bind_Done; by intros [= <-]).
Qed.

Lemma whip_out_ids (self self' : Sfu) now i out : process_whip_out self now i out = Done self' → sfu_ids (sfu_output self') = sfu_ids (sfu_output self).
Proof.
  destruct out; cbn [process_whip_out]; try (by intros ->%cluster_input_ids). intros [= <-]. rewrite sfu_push_ids. apply app_nil_r.
Qed.

Lemma whep_out_ids (self self' : Sfu) now i out : process_whep_out self now i out = Done self' → sfu_ids (sfu_output self') = sfu_ids (sfu_output self).
Proof.
  destruct out; cbn [process_whep_out]; try (by intros ->%cluster_input_ids). intros [= <-]. rewrite sfu_push_ids. apply app_nil_r.
Qed.

Lemma sfu_pop_front_ids (self self' : Sfu) out :
  sfu_pop_front self = (self', out) → sfu_ids (sfu_output self) = sfu_ids (option_list out) ++ sfu_ids (sfu_output self').
Proof.
  unfold sfu_pop_front. destruct (sfu_output self) as [|o q] eqn:Hq; intros [= <- <-]; [by rewrite Hq|]. apply (omap_app _ [o] q).
Qed.

Lemma sfu_pop_loop_ids tasks now : ∀ (self self' : Sfu) out,
  sfu_pop_loop tasks self now = Done (self', out) → sfu_ids (sfu_output self) = sfu_ids (option_list out) ++ sfu_ids (sfu_output self').
Proof.
  induction tasks as [|task tasks IH]; intros self self' out; cbn [sfu_pop_loop]; [by intros [= <- <-]|].
  destruct (match task with SfuTaskCluster => _ | SfuTaskWhip => _ | SfuTaskWhep => _ end) as [[self1 b]|] eqn:Ht; [|done]. rewrite bind_Done. cbn [fst snd].
  assert (sfu_ids (sfu_output self1) = sfu_ids (sfu_output self)) as <-.
  { destruct task; [by injection Ht as <- _| |];
      (destruct (group_pop_output _ now) as [g [[i o]|]]; [|by injection Ht as <- _]).
    - destruct (process_whip_out _ _ _ _) as [s1|] eqn:Hp; [|done]. rewrite bind_Done in Ht. injection Ht as <- _. by apply whip_out_ids in Hp.
    - destruct (process_whep_out _ _ _ _) as [s1|] eqn:Hp; [|done]. rewrite bind_Done in Ht. injection Ht as <- _. by apply whep_out_ids in Hp. }
  destruct b; [|apply IH]. destruct (sfu_pop_front self1) as [s2 [o|]] eqn:Hf.
  - intros [= <- <-]. by apply sfu_pop_front_ids.
  - intros Hl%IH. rewrite <- Hl. by apply sfu_pop_front_ids in Hf.
Qed.

Lemma sfu_pop_ids tasks now (self self' : Sfu) out :
  sfu_pop_output tasks self now = Done (self', out) → sfu_ids (sfu_output self) = sfu_ids (option_list out) ++ sfu_ids (sfu_output self').
Proof.
  unfold sfu_pop_output. destruct (sfu_pop_front self) as [s1 [o|]] eqn:Hf.
  - intros [= <- <-]. by apply sfu_pop_front_ids.
  - intros Hl%sfu_pop_loop_ids. rewrite <- Hl. by apply sfu_pop_front_ids in Hf.
Qed.

(** *** The worker *)

Lemma rw_push_ids (w : RunnerWorker) out : rw_ids (rw_push w out) ≡ₚ out_ids [out] ++ rw_ids w.
Proof. unfold rw_ids, out_ids. cbn [rw_push rw_queue rw_sfu]. rewrite omap_app. by rewrite (Permutation_app_comm (omap _ (rw_queue w))), <- app_assoc. Qed.

Lemma rw_sdn_event_ids (w w' : RunnerWorker) now input : rw_sdn_event w now input = Done w' → rw_ids w' = rw_ids w.
Proof. unfold rw_sdn_event. destruct (sdn_on_event _ _ _); [|done]. rewrite bind_Done. by intros [= <-]. Qed.

Lemma rw_sfu_event_ids ufrag (w w' : RunnerWorker) now input :
  rw_sfu_event ufrag w now input = Done w' → rw_ids w' = rw_ids w ++ match input with SfuHttpRequest req => [req_id req] | _ => [] end.
Proof.
  unfold rw_sfu_event. destruct (sfu_on_event _ _ _ _ _ _) as [sfu|] eqn:Hs; [|done]. rewrite bind_Done. intros [= <-].
  unfold rw_ids. cbn [rw_with_sfu rw_queue rw_sfu]. by rewrite (sfu_event_ids _ _ _ _ _ Hs), app_assoc.
Qed.

Lemma rw_on_event_ids ufrag (w w' : RunnerWorker) now event :
  rw_on_event ufrag w now event = Done w' → rw_ids w' = rw_ids w ++ match event with MwExt (MiHttpRequest req) => [req_id req] | _ => [] end.
Proof.
  destruct event as [[] [slot from data|bind [r|]]|[ext|req]|from ev|owner ch ev]; cbn [rw_on_event expect]; rewrite ?bind_Done; try done;
    try (intros ->%rw_sdn_event_ids; by rewrite app_nil_r); try (by apply rw_sfu_event_ids).
  - intros [= <-]. by rewrite app_nil_r.
  - by intros ->%rw_sfu_event_ids.
Qed.

Lemma rw_turn_ids (w w' : RunnerWorker) now turn b : rw_turn w now turn = Done (w', b) → rw_ids w' ≡ₚ rw_ids w.
Proof.
  destruct turn as [|tasks]; cbn [rw_turn].
  - destruct (sdn_pop_output _ _) as [[sdn out]|]; [|done]. rewrite bind_Done. cbn [fst snd]. destruct out as [out|]; [|by intros [= <- _]].
    destruct (process_sdn _ now out) as [w1|] eqn:Hp; [|done]. rewrite bind_Done. intros [= <- _].
    destruct out as [ext|[u []|]|remote data|remotes data|[]| |]; cbn [process_sdn] in Hp; try (injection Hp as <-; try done; by rewrite rw_push_ids).
    apply rw_sfu_event_ids in Hp as ->. by rewrite app_nil_r.
  - destruct (sfu_pop_output _ _ _) as [[sfu out]|] eqn:Hs; [|done]. rewrite bind_Done. cbn [fst snd]. apply sfu_pop_ids in Hs.
    assert (rw_ids w ≡ₚ sfu_ids (option_list out) ++ rw_ids (rw_with_sfu w sfu)) as Hw.
    { unfold rw_ids. cbn [rw_with_sfu rw_queue rw_sfu]. rewrite Hs, !app_assoc. f_equiv. apply Permutation_app_comm. }
    destruct out as [out|]; [|by intros [= <- _]]. destruct (process_sfu _ now out) as [w1|] eqn:Hp; [|done]. rewrite bind_Done. intros [= <- _]. rewrite Hw.
    destruct out as [res|control|to data]; cbn [process_sfu] in Hp; [injection Hp as <-; by rewrite rw_push_ids|by apply rw_sdn_event_ids in Hp as ->|
      injection Hp as <-; by rewrite rw_push_ids].
Qed.

Lemma rw_pop_ids turns now : ∀ (w w' : RunnerWorker) out,
  rw_pop_output turns w now = Done (w', out) → rw_ids w ≡ₚ rw_ids w' ++ ext_ids (ext_events out).
Proof.
  assert (∀ w w' out, rw_pop_front w = (w', out) → rw_ids w ≡ₚ rw_ids w' ++ ext_ids (ext_events out)) as Hfront.
  { intros w w' out. unfold rw_pop_front. destruct (rw_queue w) as [|o q] eqn:Hq; intros [= <- <-]; [by rewrite app_nil_r|].
    rewrite Permutation_app_comm. unfold rw_ids. cbn [rw_queue rw_sfu]. rewrite Hq. by destruct o as [| | | |safe []]. }
  induction turns as [|turn turns IH]; intros w w' out; cbn [rw_pop_output]; [intros [= Hf]; by apply Hfront|].
  destruct (rw_turn w now turn) as [[w1 b]|] eqn:Ht; [|done]. rewrite bind_Done. cbn [fst snd]. apply rw_turn_ids in Ht. rewrite <- Ht.
  destruct b; [|apply IH]. destruct (rw_pop_front w1) as [w2 [o|]] eqn:Hf; [intros [= <- <-]; by apply Hfront|].
  intros Hl%IH. apply Hfront in Hf. rewrite Hf, app_nil_r. exact Hl.
Qed.

(** *** Each answer finds its request *)

Definition ids_ok (srv : SimpleHttpServer Request) (ids : list Z) : Prop :=
  NoDup ids ∧ (∀ id, id ∈ ids → is_Some (reqs srv !! id)) ∧ 0 ≤ req_id_seed srv ∧ ∀ id, is_Some (reqs srv !! id) → id < req_id_seed srv.

Lemma ids_ok_submseteq srv ids ids' : ids' ⊆+ ids → ids_ok srv ids → ids_ok srv ids'.
Proof.
  intros Hs (Hnd & Hin & Hseed). apply submseteq_Permutation in Hs as [k Hp]. rewrite Hp in Hnd. split; [by apply NoDup_app in Hnd as (? & _)|].
  split; [|done]. intros id Hid. apply Hin. rewrite Hp. apply elem_of_app. by left.
Qed.

Lemma ids_ok_recv srv srv' arrived answer req ids :
  req_id_seed srv + 1 < 2 ^ 64 → server_recv api srv arrived = Done (srv', answer, req) →
  ids_ok srv ids → ids_ok srv' (option_list (req_id <$> req) ++ ids).
Proof.
  intros Hlt Hr (Hnd & Hin & Hs0 & Hs). unfold server_recv in Hr. destruct arrived as [rq|]; [|by injection Hr as <- _ <-].
  assert (∀ response, (_ ← respond api rq response; Done (srv, Some (rq, response), None)) = Done (srv', answer, req) → srv' = srv ∧ req = None) as Hans.
  { intros response. destruct (respond api rq response); [|done]. rewrite bind_Done. by intros [= <- _ <-]. }
  destruct (starts_with _ _); [destruct (file_open _ _); by destruct (Hans _ Hr) as [-> ->]|].
  destruct (rq_is_options _ _); [by destruct (Hans _ Hr) as [-> ->]|]. clear Hans.
  destruct (rq_bytes _ _) as [body|]; [|done]. cbn [expect] in Hr. rewrite bind_Done in Hr. injection Hr as <- _ <-.
  cbn [fmap option_fmap option_map option_list app req_id]. split; [|split; [|split]]; cbn [reqs req_id_seed].
  - apply NoDup_cons. split; [|done]. intros Hx%Hin%Hs. lia.
  - intros id [->|Hid]%elem_of_cons; [by rewrite lookup_insert_eq|]. apply lookup_insert_is_Some'. right. by apply Hin.
  - rewrite wrap_small; lia.
  - intros id [<-|Hid]%lookup_insert_is_Some'; rewrite wrap_small by lia; [lia|]. specialize (Hs id Hid). lia.
Qed.

Definition program_ok (p : program) : Prop := ids_ok (pg_server p) (program_ids p).

Lemma worker_step_ids now w w' outs : worker_step now w w' outs → rw_ids w ≡ₚ rw_ids w' ++ ext_ids outs.
Proof.
  intros [ufrag ? event ? Hnr He|? ? He|? ? He|turns ? ? out He]; cbn [ext_ids omap list_omap]; rewrite ?app_nil_r.
  - apply rw_on_event_ids in He. destruct event as [| [|] | |]; by rewrite He, ?app_nil_r.
  - unfold rw_on_tick in He. destruct (sdn_on_tick _ _); [|done]. rewrite bind_Done in He. by injection He as <-.
  - unfold rw_on_shutdown in He. by apply rw_sdn_event_ids in He as ->.
  - by eapply rw_pop_ids.
Qed.

Lemma program_ids_worker srv ws1 w ws2 rqs evs :
  program_ids (mkProgram srv (ws1 ++ w :: ws2) rqs evs) ≡ₚ rw_ids w ++ program_ids (mkProgram srv (ws1 ++ ws2) rqs evs).
Proof.
  unfold program_ids. cbn [pg_workers pg_requests pg_events]. rewrite !fmap_app, fmap_cons, !concat_app. cbn [concat]. solve_Permutation.
Qed.

Lemma ids_ok_response srv ws rqs res evs :
  ids_ok srv (program_ids (mkProgram srv ws rqs (MoHttpResponse res :: evs))) → ids_ok srv (res_req_id res :: program_ids (mkProgram srv ws rqs evs)).
Proof.
  apply ids_ok_submseteq, Permutation_submseteq. unfold program_ids, ext_ids. cbn. solve_Permutation.
Qed.

Lemma program_step_ok p p' : program_step p p' → program_ok p → program_ok p'.
Proof.
  intros [srv ws rqs evs arrived srv' answer req Hlt Hr|srv ws1 w ws2 rqs1 req rqs2 evs ufrag now w' He|srv ws1 w ws2 rqs evs now w' outs Hw
    |srv ws rqs1 req rqs2 evs|srv ws rqs evs1 ev evs2|order srv ws rqs res evs srv' answer Hs|srv ws rqs ext evs] Hok; unfold program_ok in *; cbn [pg_server] in *.
  - eapply ids_ok_submseteq; [|by eapply ids_ok_recv]. unfold program_ids. cbn [pg_workers pg_requests pg_events].
    rewrite fmap_app. destruct req as [req|]; cbn; apply Permutation_submseteq; solve_Permutation.
  - eapply ids_ok_submseteq; [|exact Hok]. apply Permutation_submseteq. rewrite !program_ids_worker. apply rw_on_event_ids in He. rewrite He.
    unfold program_ids. cbn [pg_workers pg_requests pg_events]. rewrite !fmap_app, fmap_cons. solve_Permutation.
  - eapply ids_ok_submseteq; [|exact Hok]. apply Permutation_submseteq. rewrite !program_ids_worker. apply worker_step_ids in Hw. rewrite Hw.
    unfold program_ids, ext_ids. cbn [pg_workers pg_requests pg_events]. rewrite omap_app. solve_Permutation.
  - eapply ids_ok_submseteq; [|exact Hok]. unfold program_ids. cbn [pg_workers pg_requests pg_events].
    apply submseteq_app; [|done]. apply sublist_submseteq. rewrite !fmap_app. apply sublist_app; [done|]. by apply sublist_cons.
  - eapply ids_ok_submseteq; [|exact Hok]. unfold program_ids, ext_ids. cbn [pg_workers pg_requests pg_events].
    do 2 (apply submseteq_app; [done|]). apply sublist_submseteq. rewrite !omap_app. apply sublist_app; [done|]. cbn. case_match; [by apply sublist_cons|done].
  - apply ids_ok_response in Hok.
    unfold send_response in Hs. destruct (reqs srv !! res_req_id res) as [rq|]; [|done]. cbn [expect] in Hs. rewrite bind_Done in Hs. cbv zeta in Hs.
    destruct (respond _ _ _); [|done]. rewrite bind_Done in Hs. injection Hs as <- _.
    destruct Hok as ([Hni Hnd]%NoDup_cons & Hin & Hs0 & Hsd). split; [done|]. cbn [reqs req_id_seed]. split; [|split; [done|]].
    + intros id Hid. rewrite lookup_delete_ne by (intros <-; by apply Hni). apply Hin. by right.
    + intros id [? [_ Hid]%lookup_delete_Some]. by apply Hsd.
  - exact Hok.
Qed.

(** The answers of the media server. Whatever the browsers, the network and
    the runtime do, requests and answers lost by the runtime included: when
    the server takes an answer, the request it answers is waiting, the answer
    is sent to it with its status and body, and nothing else answers it later.
    So the server does not end on an answer without a request. *)
Theorem answers_find_requests (order : HashOrder) (ws : list RunnerWorker) (p : program) (res : HttpResponse) (evs : list (MediaExtOut SE)) :
  Forall (λ w, rw_ids w = []) ws → rtc program_step (mkProgram server_new ws [] []) p → pg_events p = MoHttpResponse res :: evs →
  ∃ srv' rq answer, reqs (pg_server p) !! res_req_id res = Some rq ∧ rs_status answer = res_status res ∧ rs_body answer = BodyData (res_body res) ∧
    send_response api order (pg_server p) res = (_ ← respond api rq answer; Done (srv', (rq, answer))) ∧
    reqs srv' !! res_req_id res = None ∧ res_req_id res ∉ program_ids (mkProgram srv' (pg_workers p) (pg_requests p) evs).
Proof.
  intros Hws Hrun Hevs. assert (program_ok p) as Hok.
  { revert Hrun. generalize p. apply (rtc_ind_r (λ p, program_ok p)); [|intros x y _ Hs Hx; by eapply program_step_ok].
    assert (program_ids (mkProgram server_new ws [] []) = []) as Hnil.
    { unfold program_ids. cbn. rewrite app_nil_r. induction Hws as [|w ws Hw _ IH]; [done|]. cbn. by rewrite Hw. }
    unfold program_ok. rewrite Hnil. split; [constructor|]. split; [by intros id ?%elem_of_nil|]. split; [done|]. intros id [? Hx]. cbn in Hx. by rewrite lookup_empty in Hx. }
  destruct p as [srv ws' rqs evs']. cbn in Hevs. subst evs'.
  apply ids_ok_response in Hok. destruct Hok as ([Hni Hnd]%NoDup_cons & Hin & _).
  destruct (Hin (res_req_id res)) as [rq Hrq]; [left|]. cbn [pg_server] in *. unfold send_response. rewrite Hrq. cbn [expect]. rewrite bind_Done.
  eexists _, rq, _. split; [done|]. cbv zeta. split; [|split; [|split; [reflexivity|split; [apply lookup_delete_eq|exact Hni]]]]; done.
Qed.
End program.
End worker.

(** ** A request nobody serves

    One worker without endpoints; a request for an unknown path is answered
    with 404. *)

#[local] Instance demo_rtc : RtcApi unit unit := {
  rtc_build _ _ _ := None;
  rtc_accept_offer _ _ := None;
  rtc_poll_output rtc := (rtc, None);
  rtc_handle_timeout rtc _ := rtc;
  rtc_handle_receive _ _ _ _ _ := None;
  rtc_request_keyframe _ _ _ := None;
  rtc_write_rtp _ _ _ _ := None;
  rtc_disconnect rtc := rtc;
}.

#[local] Instance demo_group T I O : TaskGroup unit T I O := {
  group_default := tt;
  group_add _ _ := (0%nat, tt);
  group_remove _ _ := tt;
  group_on_tick _ _ := tt;
  group_on_event _ _ _ _ := Done tt;
  group_on_shutdown _ _ := tt;
  group_pop_output _ _ := (tt, None);
  group_tasks _ := 0%nat;
}.

#[local] Instance demo_media_codec : Codec TrackMedia := { serialize _ := []; deserialize _ := None }.

#[local] Instance demo_media_sdn : MediaSdn unit unit unit unit unit unit := {
  sdn_tasks _ := 1%nat;
  sdn_on_tick _ _ := Done tt;
  sdn_on_event _ _ _ := Done tt;
  sdn_pop_output _ _ := Done (tt, None);
}.

Definition demo_requests : RequestApi Str unit := mkRequestApi id (λ _, false) (λ _, str "GET") (λ _, []) (λ _, Some []) (λ _ _, true) (λ _ _, true) (λ _, None).

Abbreviation DemoRunner := (RunnerWorker (Cert := unit) (WhipG := unit) (WhepG := unit) (Sdn := unit) (SE := unit) (C := unit) (E := unit) (M := unit)) (only parsing).

Definition demo_media_worker (queue : list (MediaOutput unit unit unit unit)) : DemoRunner :=
  mkRunner 0 tt (sfu_build (Rtc := unit) 0 tt) 0 0 (mkTimePivot 0 0) queue.

Definition demo_answer : HttpResponse := mkHttpResponse 0 404 ∅ (str "Task Not Found").

Lemma answers_find_requests_witness : ∃ srv answer,
  send_response demo_requests canonical_order (mkServer 1 {[ 0 := str "/chat" ]}) demo_answer = Done (srv, (str "/chat", answer)) ∧
  rs_status answer = 404 ∧ reqs srv !! 0 = None.
Proof.
  destruct (answers_find_requests (Rtc := unit) (Cert := unit) (WhipG := unit) (WhepG := unit) (Sdn := unit) (SC := unit) (C := unit) (E := unit) (M := unit)
    (λ _, None) id demo_requests canonical_order [demo_media_worker []]
    (mkProgram (mkServer 1 {[ 0 := str "/chat" ]}) [demo_media_worker []] [] [MoHttpResponse (SE := unit) demo_answer]) demo_answer [])
    as (srv & rq & answer & Hrq & Hst & _ & Hsend & Hnone & _).
  - by repeat constructor.
  - eapply rtc_l; [eapply (pg_recv _ _ demo_requests server_new [demo_media_worker []] [] [] (Some (str "/chat"))); [by vm_compute|vm_compute; reflexivity]|].
    eapply rtc_l; [eapply (pg_deliver _ _ demo_requests _ [] (demo_media_worker []) [] [] _ [] [] [] 0); vm_compute; reflexivity|].
    eapply rtc_l; [eapply (pg_work _ _ demo_requests _ [] _ [] [] [] 0); eapply (wk_pop _ _ _ [TurnSfu []]); vm_compute; reflexivity|].
    apply rtc_refl.
  - reflexivity.
  - cbn [pg_server reqs demo_answer res_req_id] in *. rewrite lookup_singleton_eq in Hrq. injection Hrq as <-. exists srv, answer.
    split; [|by split]. rewrite Hsend. unfold respond. by rewrite (proj2 (forallb_forall _ _)).
Qed.
