(* ===== verification/VNet.v ===== *)
(** * The virtual network of the tunnel example
    ([examples/quic-tunnel/src/vnet/mod.rs], [socket.rs], and the loop of
    [sdn.rs])

    Quic connections of the tunnel run over datagram sockets whose datagrams
    travel through the socket feature. The network hands out ports, sorts the
    arriving datagrams into the queues of the sockets and tells the feature
    which ports are bound. The queues are channels of [tokio] that hold at most
    a thousand elements: [try_send] fails on a full one, [send] waits. The loop
    of the node at the other end of the network's channels is there. *)

From S2P Require Import Prelude NodeId Msg Base Socket.

Definition CHANNEL_SIZE : nat := 1000.

Record NetworkPkt := mkNetworkPkt { pkt_local_port : Z; pkt_remote : NodeId; pkt_remote_port : Z; pkt_data : Buffer; pkt_meta : Z }.

Inductive OutEvent := OutBind (port : Z) | OutPkt (pkt : NetworkPkt) | OutUnbind (port : Z).

(** A channel that has room. *)
Definition has_room {A} (channel : list A) : bool := (length channel <? CHANNEL_SIZE)%nat.

(** The network and its channels. A socket is known by a number; [vn_inboxes]
    has the queues of the sockets that exist, [vn_sockets] the sender the
    network kept for each port. *)
Record VirtualNetwork := mkVNet {
  vn_node_id : NodeId;
  vn_in : list NetworkPkt;
  vn_out : list OutEvent;
  vn_close : list Z;
  vn_sockets : gmap Z nat;
  vn_ports : list Z;
  vn_inboxes : gmap nat (Z * list NetworkPkt);
}.

Record VirtualUdpSocket := mkVSocket { vs_id : nat; vs_node_id : NodeId; vs_port : Z; vs_addr : SocketAddr }.

(** [0..60000] *)
Definition all_ports : list Z := seqZ 0 60000.

Definition vnet_new (node_id : NodeId) : VirtualNetwork := mkVNet node_id [] [] [] ∅ all_ports ∅.

(** [VecDeque::swap_remove_back]: the last element takes the place. *)
Definition swap_remove_back (ports : list Z) (index : nat) : list Z :=
  match last ports with
  | Some x => take (length ports - 1) (<[index := x]> ports)
  | None => ports
  end.

Definition take_port (ports : list Z) (port : Z) : outcome (Z * list Z) :=
  if 0 <? port then
    index ← expect (fst <$> list_find (λ x, x = port) ports);
    Done (port, swap_remove_back ports index)
  else
    match ports with
    | p :: rest => Done (p, rest)
    | [] => Panic
    end.

(** [udp_socket]; [None] while [send] waits for room. The new socket gets a
    number that no socket has and no kept sender refers to. *)
Definition udp_socket (self : VirtualNetwork) (port : Z) : outcome (option (VirtualNetwork * VirtualUdpSocket)) :=
  p ← take_port (vn_ports self) port;
  Done (if has_room (vn_out self) then
          let id := fresh (dom (vn_inboxes self) ∪ map_img (SA := gset nat) (vn_sockets self)) in
          Some (mkVNet (vn_node_id self) (vn_in self) (vn_out self ++ [OutBind p.1]) (vn_close self) (<[p.1 := id]> (vn_sockets self)) p.2
                  (<[id := (p.1, [])]> (vn_inboxes self)),
                mkVSocket id (vn_node_id self) p.1 (SocketV4 (vn_node_id self) p.1))
        else None).

(** The two branches of the [select!] of [recv]: a socket was closed, or a
    datagram arrived. *)
Definition recv_close (self : VirtualNetwork) : option VirtualNetwork :=
  match vn_close self with
  | port :: rest =>
      if has_room (vn_out self) then
        Some (mkVNet (vn_node_id self) (vn_in self) (vn_out self ++ [OutUnbind port]) rest (vn_sockets self) (vn_ports self ++ [port]) (vn_inboxes self))
      else None
  | [] => None
  end.

(** [socket_tx.try_send(pkt)]: fails on a full queue and on one whose socket is
    gone. *)
Definition try_send_socket (inboxes : gmap nat (Z * list NetworkPkt)) (id : nat) (pkt : NetworkPkt) : gmap nat (Z * list NetworkPkt) :=
  match inboxes !! id with
  | Some (port, inbox) => if has_room inbox then <[id := (port, inbox ++ [pkt])]> inboxes else inboxes
  | None => inboxes
  end.

Definition recv_pkt (self : VirtualNetwork) : option VirtualNetwork :=
  match vn_in self with
  | pkt :: rest =>
      Some (mkVNet (vn_node_id self) rest (vn_out self) (vn_close self) (vn_sockets self) (vn_ports self)
              match vn_sockets self !! pkt_local_port pkt with
              | Some id => try_send_socket (vn_inboxes self) id pkt
              | None => vn_inboxes self
              end)
  | [] => None
  end.

(** ** Sockets ([socket.rs]) *)

(** A datagram quinn wants to send. *)
Record Transmit := mkTransmit { tr_destination : SocketAddr; tr_contents : Buffer; tr_ecn : option Z }.

Definition transmit_pkt (port : Z) (ip dest_port : Z) (t : Transmit) : NetworkPkt := mkNetworkPkt port ip dest_port (tr_contents t) (default 0 (tr_ecn t)).

Definition poll_send_step (socket : VirtualUdpSocket) (acc : list OutEvent * nat) (t : Transmit) : list OutEvent * nat :=
  match tr_destination t with
  | SocketV4 ip port => if has_room acc.1 then (acc.1 ++ [OutPkt (transmit_pkt (vs_port socket) ip port t)], S acc.2) else acc
  | SocketV6 _ _ _ _ => (acc.1, S acc.2)
  end.

(** The channel of the events, and how many datagrams were sent. *)
Definition vs_poll_send (socket : VirtualUdpSocket) (out : list OutEvent) (transmits : list Transmit) : list OutEvent * nat :=
  foldl (poll_send_step socket) (out, 0%nat) transmits.

Record RecvMeta := mkRecvMeta { rm_addr : SocketAddr; rm_len : nat; rm_stride : nat; rm_ecn : option Z }.

Inductive Poll := Pending | ReadyErr | ReadyOk (data : Buffer) (meta : RecvMeta).

Section recv.
(** [EcnCodepoint::from_bits] *)
Context (ecn_from_bits : Z → option Z).

(** [closed]: the network is gone; [room] is the length of the first buffer. *)
Definition vs_poll_recv (inbox : list NetworkPkt) (closed : bool) (room : nat) : list NetworkPkt * Poll :=
  match inbox with
  | pkt :: rest =>
      let len := length (pkt_data pkt) in
      (rest, if (len <=? room)%nat
             then ReadyOk (pkt_data pkt) (mkRecvMeta (SocketV4 (pkt_remote pkt) (pkt_remote_port pkt)) len len (if pkt_meta pkt =? 0 then None else ecn_from_bits (pkt_meta pkt)))
             else Pending)
  | [] => ([], if closed then ReadyErr else Pending)
  end.
End recv.

(** [drop] *)
Definition vs_drop (self : VirtualNetwork) (id : nat) : VirtualNetwork :=
  match vn_inboxes self !! id with
  | Some (port, _) => mkVNet (vn_node_id self) (vn_in self) (vn_out self) (vn_close self ++ [port]) (vn_sockets self) (vn_ports self) (delete id (vn_inboxes self))
  | None => self
  end.

(** ** The loop of [run_sdn] ([sdn.rs]) *)

Definition out_event_control (event : OutEvent) : SocketControl :=
  match event with
  | OutBind port => Bind port
  | OutPkt pkt => SendTo (pkt_local_port pkt) (pkt_remote pkt) (pkt_remote_port pkt) (pkt_data pkt) (pkt_meta pkt)
  | OutUnbind port => Unbind port
  end.

(** [tx.try_send] of a received datagram. *)
Definition socket_event_in (self : VirtualNetwork) (event : SocketEvent) : VirtualNetwork :=
  match event with
  | RecvFrom local_port remote remote_port data meta =>
      if has_room (vn_in self) then
        mkVNet (vn_node_id self) (vn_in self ++ [mkNetworkPkt local_port remote remote_port data meta]) (vn_out self) (vn_close self) (vn_sockets self) (vn_ports self) (vn_inboxes self)
      else self
  end.

Definition MAX_SHUTDOWN_WAIT : Z := 200.

(** A round of the loop: whether the runtime still runs, whether a signal has
    arrived, and the events of the socket feature that are popped; [None] when
    the loop ends. Otherwise the rounds waited for the shutdown, whether the
    runtime is told to shut down, the controls for it, and the network, whose
    commands are all taken. *)
Definition run_sdn_round (running term : bool) (shutdown_wait : Z) (self : VirtualNetwork) (events : list SocketEvent)
    : option (Z * bool * list SocketControl * VirtualNetwork) :=
  if negb running || (term && (shutdown_wait =? MAX_SHUTDOWN_WAIT)) then None
  else
    let self' := mkVNet (vn_node_id self) (vn_in self) [] (vn_close self) (vn_sockets self) (vn_ports self) (vn_inboxes self) in
    Some (if term then shutdown_wait + 1 else shutdown_wait, term, out_event_control <$> vn_out self, foldl socket_event_in self' events).

(** ** Ports *)

Lemma all_ports_NoDup : NoDup all_ports.
Proof. apply NoDup_seqZ. Qed.
#[local] Opaque all_ports.

(** The network, its sockets and the node's loop take turns. *)
Inductive vnet_step (self : VirtualNetwork) : VirtualNetwork → Prop :=
| vnet_bind port self' socket : udp_socket self port = Done (Some (self', socket)) → vnet_step self self'
| vnet_closed self' : recv_close self = Some self' → vnet_step self self'
| vnet_recv self' : recv_pkt self = Some self' → vnet_step self self'
| vnet_in event : vnet_step self (socket_event_in self event)
| vnet_drop id : vnet_step self (vs_drop self id)
| vnet_poll ecn id port inbox closed room : vn_inboxes self !! id = Some (port, inbox) →
    vnet_step self (mkVNet (vn_node_id self) (vn_in self) (vn_out self) (vn_close self) (vn_sockets self) (vn_ports self)
                      (<[id := (port, (vs_poll_recv ecn inbox closed room).1)]> (vn_inboxes self)))
| vnet_send socket transmits : vnet_step self (mkVNet (vn_node_id self) (vn_in self) (vs_poll_send socket (vn_out self) transmits).1 (vn_close self) (vn_sockets self)
                                                 (vn_ports self) (vn_inboxes self))
| vnet_taken event out : vn_out self = event :: out → vnet_step self (mkVNet (vn_node_id self) (vn_in self) out (vn_close self) (vn_sockets self) (vn_ports self) (vn_inboxes self)).

Definition live_ports (inboxes : gmap nat (Z * list NetworkPkt)) : list Z := (λ e : nat * (Z * list NetworkPkt), e.2.1) <$> map_to_list inboxes.

(** Every port is free, bound by one socket, or waits to be freed; the network
    sends the datagrams of a bound port to its socket. *)
Record vnet_inv (self : VirtualNetwork) : Prop := {
  vi_ports : vn_ports self ++ vn_close self ++ live_ports (vn_inboxes self) ≡ₚ all_ports;
  vi_sockets : ∀ id port inbox, vn_inboxes self !! id = Some (port, inbox) → vn_sockets self !! port = Some id;
  vi_senders : ∀ id port q inbox, vn_sockets self !! port = Some id → vn_inboxes self !! id = Some (q, inbox) → q = port;
}.

Lemma swap_remove_back_perm ports index x : ports !! index = Some x → ports ≡ₚ x :: swap_remove_back ports index.
Proof.
  intros Hx. unfold swap_remove_back. destruct (last ports) as [y|] eqn:Hl; [|by apply last_None in Hl as ->].
  apply last_Some in Hl as [l ->]. rewrite length_app. cbn [length]. replace (length l + 1 - 1)%nat with (length l) by lia.
  destruct (decide (index < length l)%nat) as [Hlt|Hge].
  - rewrite lookup_app_l in Hx by done. rewrite insert_app_l, take_app_le by (rewrite ?length_insert; lia). rewrite take_ge by (rewrite length_insert; lia).
    apply list_elem_of_split_length in Hx as (l1 & l2 & -> & ->). rewrite insert_app_r_alt, Nat.sub_diag by lia. cbn. solve_Permutation.
  - apply lookup_lt_Some in Hx as Hlt. rewrite length_app in Hlt. cbn in Hlt. replace index with (length l + 0)%nat in * by lia.
    rewrite lookup_app_r, Nat.add_0_r, Nat.sub_diag in Hx by lia. injection Hx as ->. rewrite insert_app_r. rewrite take_app_le, take_ge by lia. solve_Permutation.
Qed.

Lemma take_port_perm ports port p rest : take_port ports port = Done (p, rest) → ports ≡ₚ p :: rest ∧ (0 < port → p = port).
Proof.
  unfold take_port. destruct (Z.ltb_spec 0 port).
  - destruct (list_find _ ports) as [[i x]|] eqn:Hf; [|done]. apply list_find_Some in Hf as (Hi & -> & _). cbn [fmap option_fmap option_map expect fst].
    rewrite bind_Done. intros [= <- <-]. split; [by apply swap_remove_back_perm|done].
  - destruct ports as [|q ports]; [done|]. intros [= <- <-]. split; [done|lia].
Qed.

Lemma live_ports_insert_new inboxes id port inbox : inboxes !! id = None → live_ports (<[id := (port, inbox)]> inboxes) ≡ₚ port :: live_ports inboxes.
Proof. intros Hid. unfold live_ports. by rewrite map_to_list_insert. Qed.

Lemma live_ports_delete inboxes id port inbox : inboxes !! id = Some (port, inbox) → live_ports inboxes ≡ₚ port :: live_ports (delete id inboxes).
Proof. intros Hid. rewrite <- (insert_delete_id inboxes id (port, inbox)) at 1 by done. apply live_ports_insert_new, lookup_delete_eq. Qed.

Lemma live_ports_refill inboxes id port inbox inbox' : inboxes !! id = Some (port, inbox) → live_ports (<[id := (port, inbox')]> inboxes) ≡ₚ live_ports inboxes.
Proof.
  intros Hid. rewrite (live_ports_delete inboxes id port inbox Hid), <- insert_delete_eq. apply live_ports_insert_new, lookup_delete_eq.
Qed.

Lemma elem_of_live_ports inboxes p : p ∈ live_ports inboxes ↔ ∃ id inbox, inboxes !! id = Some (p, inbox).
Proof.
  unfold live_ports. rewrite list_elem_of_fmap. split.
  - intros ([id [q inbox]] & -> & Hin%elem_of_map_to_list). by exists id, inbox.
  - intros (id & inbox & Hid). exists (id, (p, inbox)). split; [done|]. by apply elem_of_map_to_list.
Qed.

(** A socket's queue changes. *)
Lemma refill_inv node ins outs close sockets ports inboxes ins' outs' id port inbox inbox' :
  vnet_inv (mkVNet node ins outs close sockets ports inboxes) → inboxes !! id = Some (port, inbox) →
  vnet_inv (mkVNet node ins' outs' close sockets ports (<[id := (port, inbox')]> inboxes)).
Proof.
  intros [Hp Hs Hx] Hid. cbn in *. split; cbn; [by rewrite (live_ports_refill _ _ _ _ _ Hid)| |].
  - intros i q ib. rewrite lookup_insert_Some. intros [[<- [= <- _]]|[_ Hi]]; by eapply Hs.
  - intros i port' q ib Hi. rewrite lookup_insert_Some. intros [[<- [= <- _]]|[_ Hi']]; by eapply Hx.
Qed.

Lemma vnet_step_inv self self' : vnet_inv self → vnet_step self self' → vnet_inv self'.
Proof.
  intros Hinv Hstep. pose proof Hinv as [Hp Hs Hx]. destruct Hstep as [port self' socket Hb|self' Hc|self' Hr|[lp r rp data meta]|id|ecn id port inbox closed room Hid|socket transmits|event out Hout].
  - unfold udp_socket in Hb. destruct (take_port _ _) as [[p rest]|] eqn:Ht; [|done]. rewrite bind_Done in Hb. destruct (has_room _); [|done].
    injection Hb as <- _. apply take_port_perm in Ht as [Hperm _]. set (id := fresh _).
    assert (id ∉ (dom (vn_inboxes self) ∪ map_img (SA := gset nat) (vn_sockets self) : gset nat)) as Hnew by apply is_fresh. apply not_elem_of_union in Hnew as [Hnd Hni].
    assert (vn_inboxes self !! id = None) as Hid by (by apply not_elem_of_dom).
    assert (∀ i inbox, vn_inboxes self !! i ≠ Some (p, inbox)) as Hfree.
    { intros i inbox Hi. pose proof all_ports_NoDup as Hall. rewrite <- Hp, Hperm in Hall. cbn in Hall. apply NoDup_cons in Hall as [Hout _].
      apply Hout. rewrite !elem_of_app. right. right. apply elem_of_live_ports. by exists i, inbox. }
    split; cbn; [| |intros i port' q inbox; rewrite !lookup_insert_Some; intros [[<- <-]|[Hne Hi]] [[Heq [= <- <-]]|[Hne' Hi']]; [done|congruence| |by eapply Hx]].
    + rewrite (live_ports_insert_new _ id) by done. rewrite <- Hp, Hperm. solve_Permutation.
    + intros i q inbox. rewrite lookup_insert_Some. intros [[<- [= <- <-]]|[Hne Hi]]; [by rewrite lookup_insert_eq|].
      rewrite lookup_insert_ne; [by eapply Hs|]. intros <-. by apply (Hfree i inbox).
    + rewrite <- Heq in Hi. destruct Hni. apply elem_of_map_img. by exists port'.
  - unfold recv_close in Hc. destruct (vn_close self) as [|port rest] eqn:Hcl; [done|]. destruct (has_room _); [|done]. injection Hc as <-. split; [|done|done].
    cbn. rewrite <- Hp. solve_Permutation.
  - unfold recv_pkt in Hr. destruct (vn_in self) as [|pkt rest]; [done|]. injection Hr as <-.
    destruct (vn_sockets self !! pkt_local_port pkt) as [id|] eqn:Hsock; [|by split]. unfold try_send_socket.
    destruct (vn_inboxes self !! id) as [[port inbox]|] eqn:Hid; [|by split]. destruct (has_room inbox); [|by split].
    destruct self; by eapply refill_inv.
  - unfold socket_event_in. destruct (has_room _); by split.
  - unfold vs_drop. destruct (vn_inboxes self !! id) as [[port inbox]|] eqn:Hid; [|by split]. split; cbn.
    + rewrite <- Hp, (live_ports_delete _ _ _ _ Hid). solve_Permutation.
    + intros i q ib. rewrite lookup_delete_Some. intros [_ Hi]. by eapply Hs.
    + intros i port' q ib Hi. rewrite lookup_delete_Some. intros [_ Hi']. by eapply Hx.
  - destruct self; by eapply refill_inv.
  - by split.
  - by split.
Qed.

Lemma vnet_reachable_inv node self : rtc vnet_step (vnet_new node) self → vnet_inv self.
Proof.
  intros Hr. assert (vnet_inv (vnet_new node)) as H0.
  { split; cbn; [|intros id port inbox; by rewrite lookup_empty|intros id port q inbox; by rewrite !lookup_empty]. unfold live_ports. rewrite map_to_list_empty. cbn. by rewrite app_nil_r. }
  revert H0. induction Hr as [|s1 s2 s3 H12 _ IH]; [done|]. intros H1. apply IH. by eapply vnet_step_inv.
Qed.

(** No two sockets share a port, a socket that asks for a port gets that one,
    and a datagram goes to the socket of its port and to no other. *)
Lemma sockets_own_their_ports (node : NodeId) (self : VirtualNetwork) :
  rtc vnet_step (vnet_new node) self →
  (∀ id id' port inbox inbox', vn_inboxes self !! id = Some (port, inbox) → vn_inboxes self !! id' = Some (port, inbox') → id = id') ∧
  (∀ port self' socket, udp_socket self port = Done (Some (self', socket)) →
    (0 < port → vs_port socket = port) ∧ ∀ id inbox, vn_inboxes self !! id ≠ Some (vs_port socket, inbox)) ∧
  (∀ pkt rest self', vn_in self = pkt :: rest → recv_pkt self = Some self' →
    ∀ id port inbox, vn_inboxes self !! id = Some (port, inbox) →
      vn_inboxes self' !! id = Some (port, if (port =? pkt_local_port pkt) && has_room inbox then inbox ++ [pkt] else inbox)).
Proof.
  intros Hr. destruct (vnet_reachable_inv node self Hr) as [Hp Hs Hx]. split; [|split].
  - intros id id' port inbox inbox' H1%Hs H2%Hs. congruence.
  - intros port self' socket Hb. unfold udp_socket in Hb. destruct (take_port _ _) as [[p rest]|] eqn:Ht; [|done]. rewrite bind_Done in Hb.
    destruct (has_room _); [|done]. injection Hb as _ <-. apply take_port_perm in Ht as [Hperm Hport]. cbn [vs_port]. split; [done|].
    intros i inbox Hi. pose proof all_ports_NoDup as Hnd. rewrite <- Hp, Hperm in Hnd. cbn in Hnd. apply NoDup_cons in Hnd as [Hni _].
    apply Hni. rewrite !elem_of_app. right. right. apply elem_of_live_ports. by exists i, inbox.
  - intros pkt rest self' Hin Hrecv id port inbox Hid. unfold recv_pkt in Hrecv. rewrite Hin in Hrecv. injection Hrecv as <-. cbn [vn_inboxes].
    destruct (Z.eqb_spec port (pkt_local_port pkt)) as [->|Hne]; cbn [andb].
    + rewrite (Hs _ _ _ Hid). unfold try_send_socket. rewrite Hid. destruct (has_room inbox); [apply lookup_insert_eq|done].
    + destruct (vn_sockets self !! pkt_local_port pkt) as [i|] eqn:Hsock; [|done]. unfold try_send_socket.
      destruct (vn_inboxes self !! i) as [[q ib]|] eqn:Hi; [|done]. destruct (has_room ib); [|done]. rewrite lookup_insert_ne; [done|]. intros ->.
      rewrite Hid in Hi. injection Hi as <- <-. by apply Hne, (Hx id _ _ inbox).
Qed.

(** ** Shutting down *)

(** The rounds of the loop after the signal, one element for each. *)
Fixpoint rounds_after (shutdown_wait : Z) (self : VirtualNetwork) (rounds : list (bool * list OutEvent * list SocketEvent)) : nat :=
  match rounds with
  | [] => 0
  | (running, cmds, events) :: rounds =>
      let self := mkVNet (vn_node_id self) (vn_in self) (vn_out self ++ cmds) (vn_close self) (vn_sockets self) (vn_ports self) (vn_inboxes self) in
      match run_sdn_round running true shutdown_wait self events with
      | Some (wait, _, _, self) => S (rounds_after wait self rounds)
      | None => 0
      end
  end.

(** After a signal the loop ends within two hundred rounds, whatever the
    runtime and the sockets do. *)
Lemma run_sdn_ends (self : VirtualNetwork) (rounds : list (bool * list OutEvent * list SocketEvent)) : (rounds_after 0 self rounds ≤ 200)%nat.
Proof.
  assert (∀ n wait self, wait = MAX_SHUTDOWN_WAIT - Z.of_nat n → (rounds_after wait self rounds ≤ n)%nat) as Hgen.
  2:{ by apply (Hgen 200%nat). }
  clear self. induction rounds as [|[[running cmds] events] rounds IH]; intros n wait self Hw; cbn [rounds_after]; [lia|].
  unfold run_sdn_round. cbn [andb]. destruct running; cbn [negb orb]; [|lia]. destruct (Z.eqb_spec wait MAX_SHUTDOWN_WAIT); [lia|].
  destruct n as [|n]; [lia|]. apply le_n_S, IH. lia.
Qed.
